(* ===== verification/_CoqProject ===== *)
-Q . S2P
Prelude.v
Float64.v
Setsum.v
Storage.v
S3.v
Admission.v
Types.v
StateTable.v
Paths.v
S3Heap.v
Effects.v
Codec.v
Manifest.v
Persist.v
Gc.v
Reader.v
ManifestManager.v
BatchManager.v
Cursors.v
CopyDestroy.v
Writer.v
LogWriter.v
Dirty.v
LogService.v
BTree.v
BlockKey.v
SparseIndex.v
BlockDelta.v
Block.v
Blockfile.v
Root.v
BlockfileApi.v
Records.v
RecordSegment.v
Compaction.v
Instances.v
ManifestFacts.v
Rollup.v
GcFacts.v
GcApply.v
ReaderFacts.v
ManagerFacts.v
BatchFacts.v
DirtyFacts.v
TableFacts.v
ServiceFacts.v
CompactionCursor.v
HeapFacts.v
HeapTasks.v
BlockFacts.v
DeltaFacts.v
IndexFacts.v
BlockfileFacts.v
BlockfileOps.v
BlockfileCommit.v
BlockfileReads.v
RootFacts.v
Sessions.v
ArrowApi.v
LedgerFacts.v
RecordFacts.v
CompactionFlow.v
CompactionFacts.v
Limit.v
S3Facts.v
AdmissionFacts.v
Sample.v
StorageProps.v
ManifestProps.v
PersistProps.v
GcProps.v
ReaderProps.v
ManagerProps.v
BatchProps.v
LifecycleProps.v
WriterProps.v
HeapProps.v
ServiceProps.v
BlockstoreProps.v
SegmentProps.v
