(* ===== verification/Prelude.v ===== *)
(** * A verification of Chroma's storage: the log wal3 with the object storage
      below it, the heap of tasks beside it and the log service above it, the
      blockfiles that segments are made of, and the compaction of a log into
      the record segment

    ** The program

    [rust/wal3] keeps a log in an object store.  Appended messages are collected
    by a batch manager ([batch_manager.rs]) and written as immutable fragments, Parquet
    files that cover an interval of log positions.  The manifest
    ([manifest.rs]) lists the fragments; when it grows, fragments
    are rolled up into immutable snapshots, and snapshots into deeper ones, so
    that a log is a tree whose leaves are fragments.  The manifest is the only
    mutable object that matters: it is replaced by compare-and-swap on its ETag, so that of
    several writers one wins.  A manifest manager ([manifest_manager.rs]) stages
    the fragments that are being written and applies them in the order in which
    positions were assigned.  Readers ([reader.rs]) scan the tree.  Cursors
    ([cursors.rs]) are positions that consumers keep; a collector ([gc.rs],
    [writer.rs]) drops the fragments below all cursors in three phases.  Setsums,
    checksums of multisets, tie a manifest to what it
    lists and to what was collected.  [copy.rs] and [destroy.rs] copy and delete
    whole logs.  [rust/storage] is the client of the object store.
    [rust/s3heap] keeps scheduled tasks in the same store, a bucket for each
    minute.  [rust/log-service] serves one wal3 log for each collection; it
    notes in a log of its own, the dirty log, which collections have records to
    compact, rolls these notes up, and moves the cursor up to which a collection
    is compacted.  [rust/blockstore] keeps sorted maps, the blockfiles: immutable
    blocks of rows, and a sparse index that knows the first key of each block.
    A writer changes blocks as deltas, splits those that become too large, and
    commits; the root of a blockfile is its index as an object.  A compaction
    ([rust/worker], [rust/segment]) takes the log of a collection to its segments:
    it partitions the log by user id, materializes every partition, that is,
    folds the operations on a record into one, applies the results to the
    segments, commits and flushes them, and registers the new version.

    ** What models what

    Data and effects:
    - [Prelude]: 64-bit arithmetic with its wrap-around, results, lists, tactics;
    - [Setsum]: the setsum crate, a parameter with its laws, and an instance;
    - [Storage]: errors, ETags and options of [rust/storage/src/lib.rs]; the
      interface [ObjectStore] of the operations that wal3 calls, with the laws
      [ObjectStoreLaws] of a conditional store that other processes share
      (their steps are the relation [rely]); [MemStore], an executable instance
      with faults;
    - [S3]: [rust/storage/src/s3.rs] over the AWS SDK, which is the parameter
      [S3Client]; [S3Facts] has the laws that the service documents and the
      proof that the client implements [ObjectStore]; [MemS3] is an executable
      service with faults; [Float64] is the float arithmetic that counts ranges;
    - [Admission]: [rust/storage/src/admissioncontrolleds3.rs], the requests
      that callers share, their priorities and permits; [AdmissionFacts] has
      the step relation of callers and tasks and its invariant;
    - [Types]: [lib.rs] and the records of [manifest.rs] and [gc.rs];
    - [Paths]: the names of objects and their parsers;
    - [Effects]: the monad [M] of a computation that passes the store along and
      returns a value, an [Error] or [NoFuel]; the retry loops of loads and
      installs; [wp], a logic for total correctness in it, and [stays];
    - [Codec]: an instance of the serialization parameter; [Instances]: files,
      cursors, markers and UUIDs written by it, a store whose ETags tell
      contents, and data of the log service.

    Operations, one file for one of the source:
    - [Manifest]: the pure part of [manifest.rs]; [Persist]: its loads and
      installs, those of [gc.rs], and [snapshot_cache.rs];
    - [Gc]: the computation of garbage of [gc.rs]; [Reader]: [reader.rs];
    - [ManifestManager]: [manifest_manager.rs]; [BatchManager]:
      [batch_manager.rs]; [Cursors], [CopyDestroy]: the files of these names;
    - [Writer]: uploads, [OnceLogWriter] and its collection phases of
      [writer.rs]; [LogWriter]: the writer that reopens itself, bootstrap, and
      [GarbageCollector] of [gc.rs];
    - [S3Heap]: [s3heap/src/lib.rs] and [internal.rs]; the scheduler that tells
      which tasks are done is a parameter;
    - [Dirty]: [DirtyMarker] of [types/src/log.rs] and the rollup of markers of
      [log-service/src/lib.rs]; [StateTable]: [state_hash_table.rs], with the
      steps of threads; [LogService]: the handlers of the server, over its state
      as a part of the world ([HasServer]);
    - [BTree]: [BTreeMap] as a sorted list, with its orders; [BlockKey]: keys and
      delimiters of [blockstore/src/key.rs]; [SparseIndex]:
      [arrow/sparse_index.rs]; [BlockDelta]: [arrow/block/delta]; [Block]:
      [arrow/block/types.rs]; [Blockfile]: writer, commit, migrations and reader
      of [arrow/blockfile.rs] over the interface [BlockManager] of the cache of
      blocks; [Root]: [arrow/root.rs];
    - [BlockfileApi]: what segments call of blockfiles
      ([blockstore/src/types]), as classes of operations with their laws;
      [Records]: records, metadata, chunks and segments of [rust/types];
      [RecordSegment]: [materialize_logs] of [segment/src/types.rs] and the
      reader, writer and flusher of [blockfile_record.rs]; [Compaction]: the
      operators [partition_log.rs] and [materialize_logs.rs] of [rust/worker],
      what a compaction does to the record segment, and the counters of
      [orchestration/compact.rs] as a step relation ([Orchestrator.step]);
      [Limit]: the operator [limit.rs], of [filter.rs] what it does without a
      condition, and [types/src/signed_rbm.rs], over the crate of bitmaps as the
      class [Roaring], followed by the lemmas about pages.

    Invariants and lemmas: [ManifestFacts], [Rollup], [GcFacts], [GcApply],
    [ReaderFacts], [ManagerFacts], [BatchFacts], [HeapFacts], [HeapTasks] (triples
    for the heap), [DirtyFacts], [TableFacts], [ServiceFacts] and
    [CompactionCursor] (triples for the cursor); for blockfiles [BlockFacts]
    (binary search and slices), [DeltaFacts] (sizes and splits, which [SizeMono] makes grow with the rows), [IndexFacts],
    [BlockfileFacts] (the rows of a list of blocks), [BlockfileOps] (the invariant
    of a writer), [BlockfileCommit], [BlockfileReads], [RootFacts],
    [ArrowApi] (Arrow blockfiles behind the interface of [BlockfileApi])
    and [Sessions] (the map that a session describes); for compactions [LedgerFacts]
    (the reference, a map of documents that the operations of the log change, and
    what the two maps of a materialization stand for), [RecordFacts] (the rows of
    a segment, when they are consistent, and what one record does to them),
    [CompactionFacts] (chunks, partitions, sizes and whole compactions) and
    [CompactionFlow] (the counters).  Concrete data: [Sample].  The theorems about the program are in the files named [...Props].

    ** How state and effects correspond

    A mutex and what it guards is a record that the operations pass along.  The
    sender of a oneshot channel is a number, and what is sent is a list of
    answers.  An operation of one task is a function; where tasks interleave,
    each section that the source runs under the mutex is one step of an
    inductive relation ([ManagerFacts.step], [BatchFacts.bstep]) and the
    theorems hold of every state that [rtc] reaches.  Concurrent requests of
    one operation that touch distinct objects run in order.  A clock is an
    argument or a field of the world.  Sums and differences of [u64] wrap as
    in the release profile.  A panic is [None] in the batch manager and
    [NoFuel] in [M].

    ** What the theorems show

    - [StorageProps]: the S3 client and the admission controller implement the
      object store that everything else is proved against, so that the theorems
      below hold of wal3 on S3; parallel reads return the object; callers that
      share a request are each answered once; permits are conserved.
    - [ManifestProps]: the executable scrub is equivalent to the declarative
      [scrubbed], and with non-empty intervals to the invariant [manifest_ok];
      fragments, rollups and garbage preserve it; paths round-trip.
    - [PersistProps]: an install is a compare-and-swap whatever requests are lost,
      retried or take effect without an answer; a stale writer loses; a
      load returns what is stored; a snapshot is never overwritten.
    - [GcProps]: garbage is a prefix of the log below the cutoff, what is kept
      stays reachable in order, files of kept fragments are not deleted, and
      garbage stays valid under appends.
    - [ReaderProps]: a scan returns exactly the fragments of the abstract log (the list of
      leaves of the tree, [log_of]) from a position on, or with limits a prefix.
    - [ManagerProps]: in every interleaving the manifest holds the assigned
      fragments without a gap, a publisher that is told of a success finds its
      fragment in it, everyone is answered at most once, [do_work] ends, and
      after a failed install nothing is acknowledged.
    - [BatchProps]: batches are prefixes of the queue, one at a time, within
      size and pace; nobody is lost.
    - [LifecycleProps]: cursors are saved by compare-and-swap; destruction
      removes everything of a log and nothing else; a copy is faithful.
    - [WriterProps]: uploaded fragments read back; appenders are told the
      positions of their messages; bootstrap; the cutoff is below all cursors.
    - [HeapProps]: next to other writers no task is lost by a push or by pruning;
      a peek returns exactly what is due; a merge keeps the newest invocations.
    - [ServiceProps]: a rollup sums up exactly the markers that were read and
      forgets no collection that is not compacted; a response has exactly the
      records that were asked for; the compaction cursor does not go back,
      although the log may be opened, recovered or created on the way (for this
      digests are taken to be hexadecimal, as the setsum crate prints them, so
      that no snapshot has the path of the cursor);
      guards; handles of open logs share their state.
    - [BlockstoreProps]: a writer is a map, whatever blocks are forked and split;
      a commit keeps it and counts it; a reader of the reopened blockfile finds
      what was written, and its range queries, ranks and prefetch lists are those
      of the map; blocks of entries that take at most half a block stay within
      the limit; behind the interface of [BlockfileApi] an Arrow blockfile of
      values with one column keeps the laws of writers, commits and readers.
      Data records, which have several columns, and the providers that open what
      was flushed stay hypotheses of [SegmentProps].
    - [SegmentProps]: a compaction refines the log, whatever the partitions and
      the order of hash maps; the size it reports and its metadata deltas are
      exact; what it flushes opens again; it registers exactly once when no
      partition, or every one, materializes to nothing; the page that [Limit]
      selects is the page of the sorted list of all ids that match, and without
      a condition that of the collection as the log leaves it.
    Some theorems state behaviour that the source does not intend.  For any
    server, segment or blockfile that meets their conditions: markers are lost
    when a read fails, a prefix is taken for the sentinel of an index, blocks
    exceed the limit, an offset id is given twice.  By a run that exists: a
    wake-up is lost, a scrub rejects a healthy log, states leak when handles are
    dropped at once, a compaction stalls.  They say so in their comment.

    ** Bounds and fuel

    Recursion over snapshots has the depth of the tree as fuel (at most 256, a depth is
    a [u8]); the theorems assume no more fuel than the depth and conclude a
    result, never [NoFuel].  Retries have the bounds of the source ([RETRIES]).
    [do_work] has one unit more than what is staged, and is shown to need no
    more.  Loops that the source bounds by time only (reopening a writer,
    listing until empty) have the number of rounds as an argument.  A binary
    search has the length of the block as fuel, a split the number of rows, and
    the theorems show that they end with a result.  The search for the start of a
    page has 33 units, since it halves a number of 32 bits, and the merge of a
    page one more than there are ids.

    ** What is not modelled

    Metrics, tracing and span handling; the delays of [backoff.rs] (clock and
    randomness), which are a parameter; the Parquet, Arrow and JSON encoders,
    which are parameters with the law that decoding inverts encoding.  wal3's
    loads of snapshots, garbage and cursors through the admission controller may
    share a request that is already under way; the model reads them with strong
    consistency, as the source does for the manifest.  The local file backend
    ignores conditions and is not an instance of the laws.  Of the log service:
    [inspect_dirty_log], which only prints, the gRPC wrapper and configuration
    files; its requests run one at a time.  Of the blockstore: values with
    several columns (data records, posting lists), the writer for keys in order,
    the caches of blocks and roots, and the bytes of Arrow; operations of one
    writer run one at a time.  Of compactions: what comes before the log is
    partitioned, attached functions, the metadata and vector segments, and tasks
    that fail, which end the compaction; partitions are materialized and applied
    one after the other, although they share only the counter of offset ids and
    the writer.  Of queries: conditions and every operator but
    [Limit]; a stream of offset ids is read to its end before it is scanned.  Of
    the other crates: indices and bindings, which are glue over gRPC, foreign libraries or floating point. *)

From stdpp Require Export base tactics list gmap strings sorting.
From Stdlib Require Export ZArith Lia.

Declare Scope wal_scope.
Delimit Scope wal_scope with wal.

#[local] Open Scope Z_scope.

(** Closes an equation by evaluating its left-hand side once, when the proof is
    checked. *)
Ltac by_vm := match goal with |- _ = ?r => vm_cast_no_check (eq_refl r) end.

#[global] Arguments Nat.ltb : simpl never.
#[global] Arguments Nat.leb : simpl never.

(** ** Machine integers

    A [u64] (and a [usize], which is 64 bits on the supported targets) is a
    [Z]; the operations write out what the release profile does on overflow. *)

Definition u64_max : Z := 2 ^ 64 - 1.
Definition u64_wrap (z : Z) : Z := z mod 2 ^ 64.
Definition wrapping_add (a b : Z) : Z := u64_wrap (a + b).
Definition wrapping_sub (a b : Z) : Z := u64_wrap (a - b).
Definition saturating_add (a b : Z) : Z := Z.min (a + b) u64_max.
Definition saturating_sub (a b : Z) : Z := Z.max (a - b) 0.
Definition u8_add (a b : Z) : Z := (a + b) mod 2 ^ 8.

Definition is_u64 (z : Z) : Prop := 0 <= z <= u64_max.
Definition is_u8 (z : Z) : Prop := 0 <= z < 2 ^ 8.

(** [Iterator::sum::<u64>]. *)
Definition sum_u64 (l : list Z) : Z := foldl wrapping_add 0 l.

Lemma u64_wrap_small z : is_u64 z -> u64_wrap z = z.
Proof. unfold is_u64, u64_wrap, u64_max. intros. apply Z.mod_small. lia. Qed.

Lemma u64_wrap_range z : is_u64 (u64_wrap z).
Proof.
  unfold is_u64, u64_wrap, u64_max.
  pose proof (Z.mod_pos_bound z (2 ^ 64) ltac:(lia)). lia.
Qed.

Lemma wrapping_add_small a b : is_u64 (a + b) -> wrapping_add a b = a + b.
Proof. apply u64_wrap_small. Qed.

Lemma wrapping_sub_small a b : is_u64 (a - b) -> wrapping_sub a b = a - b.
Proof. apply u64_wrap_small. Qed.

Lemma saturating_add_range a b : is_u64 a -> is_u64 b -> is_u64 (saturating_add a b).
Proof. unfold is_u64, saturating_add. lia. Qed.

(** The sum when nothing overflows. *)
Definition sum_z (l : list Z) : Z := foldr Z.add 0 l.

Lemma sum_z_app l1 l2 : sum_z (l1 ++ l2) = sum_z l1 + sum_z l2.
Proof. unfold sum_z. induction l1 as [|x l1 IH]; cbn; [done|]. rewrite IH. lia. Qed.

Lemma sum_z_nonneg l : Forall (Z.le 0) l -> 0 <= sum_z l.
Proof. unfold sum_z. induction 1; cbn; lia. Qed.

Lemma sum_u64_exact l : Forall (Z.le 0) l -> sum_z l <= u64_max -> sum_u64 l = sum_z l.
Proof.
  unfold sum_u64. assert (forall a, 0 <= a -> Forall (Z.le 0) l -> a + sum_z l <= u64_max ->
    foldl wrapping_add a l = a + sum_z l) as H.
  { induction l as [|x l IH]; intros a Ha Hl Hs; cbn in *; [lia|].
    apply Forall_cons_1 in Hl as [Hx Hl]. pose proof (sum_z_nonneg l Hl) as Hn. unfold sum_z in *.
    rewrite wrapping_add_small by (unfold is_u64; lia). rewrite IH; [lia|lia|done|lia]. }
  intros Hl Hs. by rewrite H.
Qed.

(** ** Results *)

Inductive result (A E : Type) : Type :=
| Ok (a : A)
| Err (e : E).
Arguments Ok {A E} a.
Arguments Err {A E} e.

Definition result_bind {A B E} (r : result A E) (k : A -> result B E) : result B E :=
  match r with
  | Ok a => k a
  | Err e => Err e
  end.

Definition map_err {A E F} (f : E -> F) (r : result A E) : result A F :=
  match r with
  | Ok a => Ok a
  | Err e => Err (f e)
  end.

(** [is_ok r]: the call did not fail. *)
Definition is_ok {A E} (r : result A E) : Prop := exists a, r = Ok a.

Notation "'let?' x ':=' r 'in' k" := (result_bind r (fun x => k))
  (at level 10, x pattern, r at level 100, k at level 200,
   format "'[v' 'let?'  x  ':='  r  'in' '/' k ']'") : wal_scope.

Lemma result_bind_Ok {A B E} (r : result A E) (k : A -> result B E) b :
  result_bind r k = Ok b <-> exists a, r = Ok a /\ k a = Ok b.
Proof.
  destruct r; simpl; split; [eauto| |done|]; intros (x & Hx & Hk); congruence.
Qed.

Lemma map_err_Ok {A E F} (f : E -> F) (r : result A E) a :
  map_err f r = Ok a <-> r = Ok a.
Proof. destruct r; simpl; split; congruence. Qed.

(** ** Iterator adaptors of the source *)

(** [Iterator::min_by_key]: the first of the elements with the least key. *)
Definition min_by_key {A} (key : A -> Z) (l : list A) : option A :=
  foldl (fun acc x =>
           match acc with
           | None => Some x
           | Some y => if key x <? key y then Some x else Some y
           end) None l.

(** [Iterator::max_by_key]: the last of the elements with the greatest key. *)
Definition max_by_key {A} (key : A -> Z) (l : list A) : option A :=
  foldl (fun acc x =>
           match acc with
           | None => Some x
           | Some y => if key x <? key y then Some y else Some x
           end) None l.

Arguments min_by_key {A} key l : simpl never.
Arguments max_by_key {A} key l : simpl never.

(** [Iterator::position]. *)
Fixpoint position {A} (p : A -> bool) (l : list A) : option nat :=
  match l with
  | [] => None
  | x :: l => if p x then Some 0%nat else S <$> position p l
  end.

(** [Vec::remove]. *)
Definition remove_at {A} (i : nat) (l : list A) : list A := take i l ++ drop (S i) l.

(** [slice::sort_by_key], a stable sort. *)
Fixpoint insert_by_key {A} (key : A -> Z) (x : A) (l : list A) : list A :=
  match l with
  | [] => [x]
  | y :: l' => if key x <=? key y then x :: l else y :: insert_by_key key x l'
  end.

Definition sort_by_key {A} (key : A -> Z) (l : list A) : list A :=
  foldr (insert_by_key key) [] l.

(** [std::iter::zip(l.iter(), l.iter().skip(1))]. *)
Definition windows {A} (l : list A) : list (A * A) := zip l (drop 1 l).

(** The half-open range [lo..hi] of [u64]. *)
Definition range_u64 (lo hi : Z) : list Z :=
  (fun i : nat => lo + Z.of_nat i) <$> seq 0 (Z.to_nat (hi - lo)).

(** ** Lemmas on the adaptors *)

Section Extrema.
Context {A : Type} (key : A -> Z).

Lemma min_by_key_foldl (x : A) l :
  (forall y, y ∈ l -> key x <= key y) ->
  foldl (fun acc x =>
           match acc with
           | None => Some x
           | Some y => if key x <? key y then Some x else Some y
           end) (Some x) l = Some x.
Proof.
  induction l as [|y l IH]; intros Hle; [done|]. simpl.
  destruct (Z.ltb_spec (key y) (key x)).
  - specialize (Hle y ltac:(set_solver)). lia.
  - apply IH. set_solver.
Qed.

(** The head is the minimum when nothing is below it. *)
Lemma min_by_key_head x l :
  (forall y, y ∈ l -> key x <= key y) -> min_by_key key (x :: l) = Some x.
Proof. apply min_by_key_foldl. Qed.

(** The last element is the maximum when nothing is above it. *)
Lemma max_by_key_last x l :
  (forall y, y ∈ l -> key y <= key x) -> max_by_key key (l ++ [x]) = Some x.
Proof.
  intros Hle. unfold max_by_key. rewrite foldl_app. simpl.
  set (f := fun (acc : option A) (x0 : A) => _).
  assert (forall acc, (forall y, acc = Some y -> key y <= key x) ->
            forall y, foldl f acc l = Some y -> key y <= key x) as Hacc.
  { clear -Hle. induction l as [|z l IH]; intros acc Hacc y; simpl; [auto|].
    apply IH; [set_solver|]. intros w. unfold f.
    destruct acc as [v|]; [destruct (_ <? _)|]; intros [= <-]; set_solver. }
  destruct (foldl f None l) as [y|] eqn:E; simpl; [|done].
  apply Hacc in E; [|done]. unfold f.
  destruct (Z.ltb_spec (key x) (key y)); [lia|done].
Qed.

Lemma min_by_key_None l : min_by_key key l = None <-> l = [].
Proof.
  split; [|by intros ->]. destruct l as [|x l]; [done|]. intros H. exfalso.
  revert H. unfold min_by_key; simpl. revert x.
  induction l as [|y l IH]; intros x; simpl; [done|].
  destruct (_ <? _); apply IH.
Qed.

Lemma max_by_key_None l : max_by_key key l = None <-> l = [].
Proof.
  split; [|by intros ->]. destruct l as [|x l]; [done|]. intros H. exfalso.
  revert H. unfold max_by_key; simpl. revert x.
  induction l as [|y l IH]; intros x; simpl; [done|].
  destruct (_ <? _); apply IH.
Qed.

(** Bound of a minimum. *)
Lemma min_by_key_le l x y : min_by_key key l = Some x -> y ∈ l -> key x <= key y.
Proof.
  unfold min_by_key. set (f := fun (acc : option A) (x : A) => _).
  assert (forall l acc x y, foldl f acc l = Some x -> y ∈ l \/ acc = Some y -> key x <= key y) as Hgen.
  { clear l x y. induction l as [|z l IH]; intros acc x y; cbn.
    - intros -> [Hy|[= ->]]; [by apply elem_of_nil in Hy|lia].
    - intros Hf Hy.
      assert (exists w, f acc z = Some w /\ key w <= key z /\ forall v, acc = Some v -> key w <= key v)
        as (w & Hw & Hz & Hv).
      { unfold f. destruct acc as [v|]; [destruct (Z.ltb_spec (key z) (key v))|].
        - exists z. split_and!; [done|lia|]. intros ? [= <-]. lia.
        - exists v. split_and!; [done|lia|]. intros ? [= <-]. lia.
        - exists z. split_and!; [done|lia|done]. }
      pose proof (IH _ _ w Hf (or_intror Hw)) as Hxw.
      destruct Hy as [[->|Hy]%elem_of_cons|Hy]; [lia|apply (IH _ _ y Hf); by left|].
      specialize (Hv y Hy). lia. }
  intros Hm Hy. eapply Hgen; eauto.
Qed.

(** Membership and bound of a maximum. *)
Lemma max_by_key_Some l x :
  max_by_key key l = Some x -> x ∈ l /\ forall y, y ∈ l -> key y <= key x.
Proof.
  unfold max_by_key. set (f := fun (acc : option A) (x : A) => _).
  assert (forall l acc x, foldl f acc l = Some x ->
            (x ∈ l \/ acc = Some x) /\ (forall y, y ∈ l \/ acc = Some y -> key y <= key x)) as Hgen.
  { clear l x. induction l as [|z l IH]; intros acc x; cbn.
    - intros ->. split; [by right|]. intros y [Hy|[= ->]]; [set_solver|lia].
    - intros [Hin Hle]%IH. unfold f in Hin, Hle.
      destruct acc as [v|]; [destruct (Z.ltb_spec (key z) (key v))|].
      + split; [set_solver|]. intros y Hy.
        assert (key v <= key x) by (apply Hle; by right).
        destruct Hy as [[->|Hy]%elem_of_cons|[= ->]]; [lia|apply Hle; by left|lia].
      + split; [set_solver|]. intros y Hy.
        assert (key z <= key x) by (apply Hle; by right).
        destruct Hy as [[->|Hy]%elem_of_cons|[= ->]]; [lia|apply Hle; by left|lia].
      + split; [set_solver|]. intros y [[->|Hy]%elem_of_cons|[=]]; apply Hle; auto. }
  intros [Hin Hle]%Hgen. split; [by destruct Hin|]. intros y Hy. apply Hle. by left.
Qed.

Lemma sort_by_key_insert_perm x l : insert_by_key key x l ≡ₚ x :: l.
Proof.
  induction l as [|y l IH]; simpl; [done|].
  destruct (_ <=? _); [done|]. rewrite IH. apply Permutation_swap.
Qed.

Lemma sort_by_key_perm l : sort_by_key key l ≡ₚ l.
Proof.
  induction l as [|x l IH]; simpl; [done|].
  by rewrite sort_by_key_insert_perm, IH.
Qed.

Lemma elem_of_sort_by_key x l : x ∈ sort_by_key key l <-> x ∈ l.
Proof. by rewrite sort_by_key_perm. Qed.

Lemma insert_by_key_sorted x l :
  StronglySorted (fun a b => key a <= key b) l ->
  StronglySorted (fun a b => key a <= key b) (insert_by_key key x l).
Proof.
  induction 1 as [|y l Hs IH Hy]; simpl.
  - repeat constructor.
  - destruct (Z.leb_spec (key x) (key y)).
    + constructor; [by constructor|]. constructor; [done|].
      eapply Forall_impl; [exact Hy|]. simpl. lia.
    + constructor; [done|]. rewrite sort_by_key_insert_perm.
      constructor; [lia|done].
Qed.

Lemma sort_by_key_sorted l :
  StronglySorted (fun a b => key a <= key b) (sort_by_key key l).
Proof.
  induction l as [|x l IH]; simpl; [constructor|]. by apply insert_by_key_sorted.
Qed.

(** Sorting an already sorted list leaves it as it is. *)
Lemma sort_by_key_id l :
  StronglySorted (fun a b => key a <= key b) l -> sort_by_key key l = l.
Proof.
  induction 1 as [|x l Hs IH Hx]; simpl; [done|]. rewrite IH.
  destruct l as [|y l]; simpl; [done|].
  inversion Hx; subst. destruct (Z.leb_spec (key x) (key y)); [done|lia].
Qed.

(** A list sorted by strictly increasing keys is what any permutation of it
    sorts to. *)
Lemma sort_by_key_unique l l' :
  StronglySorted (fun a b => key a < key b) l -> l' ≡ₚ l -> sort_by_key key l' = l.
Proof.
  intros Hs Hp. assert (sort_by_key key l' ≡ₚ l) as Hp' by (by rewrite sort_by_key_perm).
  pose proof (sort_by_key_sorted l') as Hs'.
  revert Hs' Hp'. generalize (sort_by_key key l'). clear Hp l'.
  induction Hs as [|x l Hs IH Hx]; intros m Hm Hp.
  { by apply Permutation_nil_r in Hp. }
  destruct m as [|y m]; [by apply Permutation_nil_l in Hp|].
  inversion Hm as [|? ? Hm' Hy]; subst.
  assert (y = x) as ->.
  { assert (x ∈ y :: m) as Hxm by (rewrite Hp; set_solver).
    assert (y ∈ x :: l) as Hyl by (rewrite <- Hp; set_solver).
    apply elem_of_cons in Hxm as [->|Hxm]; [done|].
    apply elem_of_cons in Hyl as [->|Hyl]; [done|].
    rewrite Forall_forall in Hx, Hy. specialize (Hx _ Hyl). specialize (Hy _ Hxm). lia. }
  f_equal. apply IH; [done|]. by apply Permutation_cons_inv in Hp.
Qed.
End Extrema.

(** ** Chains of intervals

    [chain s l e]: the half-open intervals of [l] are non-empty and tile
    [s..e] from left to right without gap or overlap. *)
Inductive chain : Z -> list (Z * Z) -> Z -> Prop :=
| chain_nil s : chain s [] s
| chain_cons s m e l : s < m -> chain m l e -> chain s ((s, m) :: l) e.

Lemma chain_app s l1 l2 e :
  chain s (l1 ++ l2) e <-> exists m, chain s l1 m /\ chain m l2 e.
Proof.
  split.
  - revert s. induction l1 as [|[a b] l1 IH]; intros s H; simpl in *.
    + exists s. split; [constructor|done].
    + inversion H; subst. destruct (IH _ ltac:(eassumption)) as (m & ? & ?).
      exists m. split; [by constructor|done].
  - intros (m & H1 & H2). induction H1; simpl; [done|]. constructor; auto.
Qed.

Lemma chain_le s l e : chain s l e -> s <= e.
Proof. induction 1; lia. Qed.

Lemma chain_lt s l e : chain s l e -> l <> [] -> s < e.
Proof.
  intros H Hne. destruct H as [|s m e l Hlt Hc]; [done|]. apply chain_le in Hc. lia.
Qed.

Lemma chain_bounds s l e a b : chain s l e -> (a, b) ∈ l -> s <= a /\ a < b /\ b <= e.
Proof.
  induction 1 as [|s m e l Hlt Hc IH]; [set_solver|].
  pose proof (chain_le _ _ _ Hc).
  intros [[= -> ->]|Hin]%elem_of_cons; [lia|]. specialize (IH Hin). lia.
Qed.

Lemma chain_nil_inv s e : chain s [] e -> s = e.
Proof. by inversion 1. Qed.

Lemma chain_functional s l e e' : chain s l e -> chain s l e' -> e = e'.
Proof. induction 1; inversion 1; subst; auto. Qed.

Lemma chain_start_functional s s' l e e' : l <> [] -> chain s l e -> chain s' l e' -> s = s'.
Proof. intros Hne H1 H2. destruct l; [done|]. inversion H1; inversion H2; congruence. Qed.

Lemma chain_sorted s l e :
  chain s l e -> StronglySorted (fun a b => a.1 < b.1) l.
Proof.
  induction 1 as [|s m e l Hlt Hc IH]; constructor; [done|].
  apply Forall_forall. intros [a b] Hin. simpl.
  apply (chain_bounds _ _ _ _ _ Hc) in Hin. lia.
Qed.

(** Where a position cuts a chain: the intervals that end at or before it, the
    one that holds it, and those after it. *)
Lemma chain_cut {A} (iv : A -> Z * Z) a l b k :
  chain a (iv <$> l) b -> a <= k ->
  exists l1 l2 c, l = l1 ++ l2 /\ chain a (iv <$> l1) c /\ chain c (iv <$> l2) b /\ c <= k /\
    Forall (fun x => (iv x).2 <= k) l1 /\
    match l2 with
    | [] => True
    | x :: r => k < (iv x).2 /\ Forall (fun y => k < (iv y).1 /\ k < (iv y).2) r
    end.
Proof.
  revert a. induction l as [|x l IH]; intros a Hc Hk; cbn in Hc.
  { exists [], [], a. split_and!; try done; constructor. }
  destruct (iv x) as [s m] eqn:Hx. inversion Hc as [|? ? ? ? Hlt Hc']; subst.
  destruct (Z.le_gt_cases m k) as [Hle|Hgt].
  - destruct (IH m Hc' Hle) as (l1 & l2 & c & -> & H1 & H2 & Hck & Hf & Hm).
    exists (x :: l1), l2, c. cbn. rewrite Hx. split_and!; try done; [by constructor|].
    constructor; [by rewrite Hx|done].
  - exists [], (x :: l), s. cbn. rewrite Hx. split_and!; try done; [constructor|].
    apply Forall_forall. intros y Hy.
    apply (list_elem_of_fmap_2 iv) in Hy. destruct (iv y) as [s' e].
    apply (chain_bounds _ _ _ _ _ Hc') in Hy. cbn. lia.
Qed.

Lemma filter_all {A} (f : A -> bool) l : Forall (fun x => f x = true) l -> List.filter f l = l.
Proof. induction 1 as [|x l Hx _ IH]; [done|]. cbn. by rewrite Hx, IH. Qed.

Lemma filter_none {A} (f : A -> bool) l : Forall (fun x => f x = false) l -> List.filter f l = [].
Proof. induction 1 as [|x l Hx _ IH]; [done|]. cbn. by rewrite Hx, IH. Qed.

(** The same for stdpp's [filter], which takes a decidable predicate. *)
Lemma filter_ext_in {A} (P Q : A -> Prop) `{!forall x, Decision (P x), !forall x, Decision (Q x)} (l : list A) :
  (forall x, x ∈ l -> P x <-> Q x) -> filter P l = filter Q l.
Proof.
  induction l as [|x l IH]; intros Hl; [done|].
  assert (filter P l = filter Q l) as Hrest by (apply IH; set_solver).
  specialize (Hl x ltac:(set_solver)). destruct (decide (P x)).
  - rewrite !filter_cons_True by tauto. by f_equal.
  - by rewrite !filter_cons_False by tauto.
Qed.

Lemma filter_all_in {A} (P : A -> Prop) `{!forall x, Decision (P x)} (l : list A) :
  (forall x, x ∈ l -> P x) -> filter P l = l.
Proof.
  induction l as [|x l IH]; intros Hl; [done|].
  rewrite filter_cons_True by (apply Hl; set_solver). f_equal. apply IH. set_solver.
Qed.

Lemma filter_none_in {A} (P : A -> Prop) `{!forall x, Decision (P x)} (l : list A) :
  (forall x, x ∈ l -> ~ P x) -> filter P l = [].
Proof. intros Hl. apply elem_of_nil_inv. intros x [HP Hx]%list_elem_of_filter. by apply (Hl x). Qed.

(** A sorted list split by a predicate that is downward closed. *)
Lemma sorted_split {A} (R : A -> A -> Prop) (P : A -> Prop) `{!forall x, Decision (P x)} (l : list A) :
  StronglySorted R l -> (forall x y, R x y -> P y -> P x) ->
  exists l1 l2, l = l1 ++ l2 /\ Forall P l1 /\ Forall (fun x => ~ P x) l2.
Proof.
  intros Hs HR. induction Hs as [|x l Hs IH Hx].
  { exists [], []. split_and!; constructor. }
  destruct (decide (P x)) as [HP|HP].
  - destruct IH as (l1 & l2 & -> & H1 & H2). exists (x :: l1), l2. split_and!; auto.
  - exists [], (x :: l). split_and!; [done|constructor|]. constructor; [done|].
    eapply Forall_impl; [exact Hx|]. intros y Hxy Hy. by apply HP, (HR x y).
Qed.

(** The intervals of a chain that end by [lo], those that reach past [lo] and
    start before [hi], and those that start at [hi] or later. *)
Lemma chain_window {A} (iv : A -> Z * Z) a l b lo hi :
  chain a (iv <$> l) b ->
  exists l1 l2 l3, l = l1 ++ l2 ++ l3 /\ Forall (fun x => (iv x).2 <= lo) l1 /\
    Forall (fun x => lo < (iv x).2 /\ (iv x).1 < hi) l2 /\
    Forall (fun x => lo < (iv x).2 /\ hi <= (iv x).1) l3.
Proof.
  intros Hc.
  assert (StronglySorted (fun x y => (iv x).1 < (iv x).2 <= (iv y).1 /\ (iv y).1 < (iv y).2) l) as Hs.
  { revert a Hc. induction l as [|x l IH]; intros a Hc; [constructor|]. cbn in Hc.
    destruct (iv x) as [s e] eqn:Hx. inversion Hc as [|? ? ? ? Hlt Hc']; subst.
    constructor; [by eapply IH|]. apply Forall_forall. intros y Hy. rewrite Hx. cbn.
    apply (list_elem_of_fmap_2 iv) in Hy. destruct (iv y) as [s' e'].
    apply (chain_bounds _ _ _ _ _ Hc') in Hy. cbn. lia. }
  destruct (sorted_split _ (fun x => (iv x).2 <= lo) l Hs) as (l1 & l' & -> & H1 & H'); [intros; lia|].
  apply StronglySorted_app_1_r in Hs.
  destruct (sorted_split _ (fun x => (iv x).1 < hi) l' Hs) as (l2 & l3 & -> & H2 & H3); [intros; lia|].
  apply Forall_app in H' as [H2' H3']. exists l1, l2, l3. split_and!; [done|done| |]; apply Forall_forall; intros x Hx.
  - rewrite Forall_forall in H2, H2'. specialize (H2 x Hx). specialize (H2' x Hx). lia.
  - rewrite Forall_forall in H3, H3'. specialize (H3 x Hx). specialize (H3' x Hx). lia.
Qed.

(** ** Strings *)

Lemma string_app_assoc (s1 s2 s3 : string) : s1 +:+ s2 +:+ s3 = (s1 +:+ s2) +:+ s3.
Proof. induction s1 as [|a s1 IH]; [done|]. exact (f_equal (String a) IH). Qed.

Lemma string_app_nil_r (s : string) : s +:+ "" = s.
Proof. induction s as [|c s IH]; [done|]. change (String c (s +:+ "") = String c s). by rewrite IH. Qed.

Create HintDb wal discriminated.
#[export] Hint Constructors chain : wal.
#[export] Hint Resolve u64_wrap_range chain_le : wal.
