(* ===== verification/Float64.v ===== *)
(** * The ceiling of a quotient of 64-bit floats

    Rust's [(a as f64 / b as f64).ceil() as i64]: the integers are rounded to
    53 bits, their quotient is rounded to 53 bits, to nearest and ties to
    even, and the ceiling is cast with saturation.  For integers below [2^53]
    the result is the ceiling of the exact quotient. *)

From S2P Require Import Prelude.

#[local] Open Scope Z_scope.

(** The integer nearest to [n / d], ties to even. *)
Definition round_even (n d : Z) : Z :=
  let q := n / d in
  let r := n mod d in
  if 2 * r <? d then q else if d <? 2 * r then q + 1 else if Z.even q then q else q + 1.

(** A float is [m * 2 ^ e].  Quotients of 64-bit integers neither overflow nor
    underflow, so the exponent is not bounded here. *)
Definition f64 : Type := Z * Z.

(** The float nearest to [n / d], for [0 <= n] and [0 < d]. *)
Definition round53 (n d : Z) : f64 :=
  if n <=? 0 then (0, 0) else
  let e0 := Z.log2 n - Z.log2 d - 53 in
  let e := if d * 2 ^ Z.max 0 e0 * 2 ^ 53 <=? n * 2 ^ Z.max 0 (- e0) then e0 + 1 else e0 in
  (round_even (n * 2 ^ Z.max 0 (- e)) (d * 2 ^ Z.max 0 e), e).

Definition with_sign (s : Z) (x : f64) : f64 := (s * x.1, x.2).

(** [z as f64]. *)
Definition f64_of_i64 (z : Z) : f64 := with_sign (Z.sgn z) (round53 (Z.abs z) 1).

(** [x / y] for a [y] other than zero. *)
Definition f64_div (x y : f64) : f64 :=
  with_sign (Z.sgn x.1 * Z.sgn y.1)
    (round53 (Z.abs x.1 * 2 ^ Z.max 0 (x.2 - y.2)) (Z.abs y.1 * 2 ^ Z.max 0 (y.2 - x.2))).

Definition f64_ceil (x : f64) : Z :=
  if 0 <=? x.2 then x.1 * 2 ^ x.2 else - (- x.1 / 2 ^ (- x.2)).

Definition i64_min : Z := - 2 ^ 63.
Definition i64_max : Z := 2 ^ 63 - 1.

(** [as i64]. *)
Definition i64_saturate (z : Z) : Z := Z.max i64_min (Z.min z i64_max).

(** A quotient by zero is infinite, or no number at all, which is cast to zero. *)
Definition ceil_div_f64 (a b : Z) : Z :=
  if b =? 0 then (if 0 <? a then i64_max else if a <? 0 then i64_min else 0)
  else i64_saturate (f64_ceil (f64_div (f64_of_i64 a) (f64_of_i64 b))).

Lemma round_even_le n d x : 0 < d -> n <= x * d -> round_even n d <= x.
Proof.
  intros Hd Hn. unfold round_even. pose proof (Z.mod_pos_bound n d Hd). pose proof (Z.div_mod n d ltac:(lia)) as E.
  destruct (Z.ltb_spec (2 * (n mod d)) d); [nia|].
  destruct (Z.ltb_spec d (2 * (n mod d))); [nia|]. destruct (Z.even _); nia.
Qed.

Lemma round_even_gt n d x : 0 < d -> (2 * x + 1) * d < 2 * n -> x < round_even n d.
Proof.
  intros Hd Hn. unfold round_even. pose proof (Z.mod_pos_bound n d Hd). pose proof (Z.div_mod n d ltac:(lia)) as E.
  destruct (Z.ltb_spec (2 * (n mod d)) d); [nia|].
  destruct (Z.ltb_spec d (2 * (n mod d))); [nia|]. destruct (Z.even _); nia.
Qed.

Lemma round_even_1 n : round_even n 1 = n.
Proof. unfold round_even. by rewrite Z.mod_1_r, Z.div_1_r. Qed.

Lemma log2_bound a : 0 < a < 2 ^ 53 -> 0 <= Z.log2 a <= 52.
Proof.
  intros Ha. split; [apply Z.log2_nonneg|]. enough (Z.log2 a < 53) by lia.
  apply Z.log2_lt_pow2; lia.
Qed.

(** Integers below [2^53] are floats. *)
Lemma f64_of_i64_small z :
  0 < z < 2 ^ 53 -> exists s, 0 <= s /\ f64_of_i64 z = (z * 2 ^ s, - s).
Proof.
  intros Hz. pose proof (log2_bound z Hz) as Hl.
  unfold f64_of_i64, with_sign, round53. rewrite Z.sgn_pos, Z.abs_eq by lia.
  destruct (Z.leb_spec z 0); [lia|]. cbv zeta. change (Z.log2 1) with 0.
  set (e0 := Z.log2 z - 0 - 53). set (b := _ <=? _).
  exists (- (if b then e0 + 1 else e0)). split; [destruct b; lia|]. cbn [fst snd].
  rewrite (Z.max_l 0 (if b then _ else _)), Z.max_r by (destruct b; lia).
  rewrite Z.mul_1_l, Z.mul_1_l, round_even_1, Z.opp_involutive. done.
Qed.

(** The quotient of [a * 2^k] and [b * 2^k], rounded: its ceiling is exact,
    because it is further above the integer below it than half a unit. *)
Lemma round53_ceil a b k :
  0 < a < 2 ^ 53 -> 0 < b < 2 ^ 53 -> 0 <= k ->
  f64_ceil (round53 (a * 2 ^ k) (b * 2 ^ k)) = (a + b - 1) / b.
Proof.
  intros Ha Hb Hk. pose proof (log2_bound a Ha) as La. pose proof (log2_bound b Hb) as Lb.
  assert (0 < 2 ^ k) as Hp by lia. unfold round53. destruct (Z.leb_spec (a * 2 ^ k) 0); [nia|]. cbv zeta.
  rewrite !Z.log2_mul_pow2 by lia.
  set (e0 := k + Z.log2 a - (k + Z.log2 b) - 53). set (c := _ <=? _).
  set (e := if c then e0 + 1 else e0).
  assert (e <= 0 /\ Z.log2 b <= - e) as [He Hs] by (subst e e0; destruct c; lia).
  rewrite (Z.max_l 0 e), Z.max_r, Z.mul_1_r by lia.
  set (s := - e) in *. set (m := round_even _ _).
  assert (0 < 2 ^ s) as Hps by lia.
  assert (f64_ceil (m, e) = - (- m / 2 ^ s)) as ->.
  { unfold f64_ceil. cbn [fst snd]. destruct (Z.leb_spec 0 e); [|done].
    assert (s = 0) as -> by lia. replace e with 0 by lia. rewrite Z.pow_0_r, Z.div_1_r. lia. }
  set (q := (a + b - 1) / b).
  assert ((q - 1) * b < a <= q * b) as Hq.
  { subst q. pose proof (Z.div_mod (a + b - 1) b ltac:(lia)). pose proof (Z.mod_pos_bound (a + b - 1) b ltac:(lia)).
    split; nia. }
  assert (b < 2 ^ (s + 1)) as Hbs.
  { pose proof (Z.log2_spec b ltac:(lia)) as [_ Hlt]. eapply Z.lt_le_trans; [exact Hlt|].
    apply Z.pow_le_mono_r; lia. }
  rewrite Z.pow_add_r in Hbs by lia.
  assert (m <= q * 2 ^ s) as Hm1.
  { apply round_even_le; [nia|]. replace (q * 2 ^ s * (b * 2 ^ k)) with (q * b * (2 ^ k * 2 ^ s)) by ring.
    rewrite <- Z.mul_assoc. apply Z.mul_le_mono_nonneg_r; nia. }
  assert ((q - 1) * 2 ^ s < m) as Hm2.
  { apply round_even_gt; [nia|].
    replace ((2 * ((q - 1) * 2 ^ s) + 1) * (b * 2 ^ k)) with ((2 * ((q - 1) * b) * 2 ^ s + b) * 2 ^ k) by ring.
    replace (2 * (a * 2 ^ k * 2 ^ s)) with (2 * a * 2 ^ s * 2 ^ k) by ring.
    apply Z.mul_lt_mono_pos_r; [done|]. nia. }
  assert (- m / 2 ^ s = - q); [|lia]. symmetry. apply (Z.div_unique _ _ _ (q * 2 ^ s - m)); [left; nia|ring].
Qed.

(** Below [2^53] the floats compute the ceiling of the quotient. *)
Lemma ceil_div_f64_exact a b :
  0 <= a < 2 ^ 53 -> 0 < b < 2 ^ 53 -> ceil_div_f64 a b = (a + b - 1) / b.
Proof.
  intros Ha Hb. unfold ceil_div_f64. destruct (Z.eqb_spec b 0); [lia|].
  destruct (Z.eq_dec a 0) as [->|Hz].
  { replace (f64_ceil _) with 0; [|by destruct (f64_of_i64 b)].
    rewrite Z.div_small by lia. done. }
  destruct (f64_of_i64_small a ltac:(lia)) as (s & Hs & ->).
  destruct (f64_of_i64_small b ltac:(lia)) as (t & Ht & ->).
  assert (0 < a * 2 ^ s /\ 0 < b * 2 ^ t) as [Hpa Hpb] by (split; nia).
  unfold f64_div, with_sign. cbn [fst snd].
  rewrite !Z.sgn_pos, !Z.abs_eq by lia. rewrite <- !Z.mul_assoc, <- !Z.pow_add_r by lia.
  replace (s + Z.max 0 (- s - - t)) with (Z.max s t) by lia.
  replace (t + Z.max 0 (- t - - s)) with (Z.max s t) by lia.
  pose proof (round53_ceil a b (Z.max s t) ltac:(lia) Hb ltac:(lia)) as Hc.
  destruct (round53 _ _) as [m e]. cbn [fst snd]. rewrite !Z.mul_1_l, Hc.
  unfold i64_saturate, i64_min, i64_max.
  assert (0 <= (a + b - 1) / b <= a + b - 1) by (split; [apply Z.div_pos|apply Z.div_le_upper_bound]; nia).
  lia.
Qed.
