(* ===== verification/Setsum.v ===== *)
(** * Setsums

    The [setsum] crate gives wal3 an associative and commutative checksum of a
    multiset of records: setsums are added, subtracted, printed as hexadecimal
    digests and read back.  The crate is not part of the repository, so it is
    the parameter [SetsumSig] of everything that follows, and [SetsumLaws]
    states what its documentation promises.  [int_setsum] is an instance of
    both over the integers. *)

From S2P Require Import Prelude.
From Stdlib Require Import Ascii.

#[local] Open Scope Z_scope.

Abbreviation bytes := (list Byte.byte).

Class SetsumSig := {
  Setsum : Type;
  setsum_eq_dec :: EqDecision Setsum;
  setsum_default : Setsum;
  setsum_add : Setsum -> Setsum -> Setsum;
  setsum_sub : Setsum -> Setsum -> Setsum;
  hexdigest : Setsum -> string;
  from_hexdigest : string -> option Setsum;
  insert_vectored : Setsum -> list bytes -> Setsum;
}.

Class SetsumLaws (SS : SetsumSig) : Prop := {
  setsum_add_assoc : forall a b c, setsum_add a (setsum_add b c) = setsum_add (setsum_add a b) c;
  setsum_add_comm : forall a b, setsum_add a b = setsum_add b a;
  setsum_default_l : forall a, setsum_add setsum_default a = a;
  setsum_add_sub : forall a b, setsum_sub (setsum_add a b) b = a;
  setsum_sub_add : forall a b, setsum_add (setsum_sub a b) b = a;
  hexdigest_from : forall a, from_hexdigest (hexdigest a) = Some a;
  insert_vectored_add : forall a item,
    insert_vectored a item = setsum_add a (insert_vectored setsum_default item);
}.

Notation "a +ₛ b" := (setsum_add a b) (at level 50, left associativity) : wal_scope.
Notation "a -ₛ b" := (setsum_sub a b) (at level 50, left associativity) : wal_scope.

#[local] Open Scope wal_scope.

(** ** Sums of setsums *)

Section Sums.
Context {SS : SetsumSig} {SL : SetsumLaws SS}.

(** [iter.map(f).fold(Setsum::default(), Setsum::add)] and the loops
    [acc += f(x)] that start from the default. *)
Definition setsum_of {A} (f : A -> Setsum) (l : list A) : Setsum :=
  foldl (fun acc x => acc +ₛ f x) setsum_default l.

Lemma setsum_default_r a : a +ₛ setsum_default = a.
Proof. rewrite setsum_add_comm. apply setsum_default_l. Qed.

Lemma setsum_foldl_acc {A} (f : A -> Setsum) l a :
  foldl (fun acc x => acc +ₛ f x) a l = a +ₛ setsum_of f l.
Proof.
  unfold setsum_of. revert a. induction l as [|x l IH]; intros a; simpl.
  - by rewrite setsum_default_r.
  - rewrite IH, (IH (setsum_default +ₛ f x)), setsum_default_l.
    by rewrite setsum_add_assoc.
Qed.

Lemma setsum_of_nil {A} (f : A -> Setsum) : setsum_of f [] = setsum_default.
Proof. done. Qed.

Lemma setsum_of_cons {A} (f : A -> Setsum) x l : setsum_of f (x :: l) = f x +ₛ setsum_of f l.
Proof. unfold setsum_of. simpl. by rewrite setsum_foldl_acc, setsum_default_l. Qed.

Lemma setsum_of_app {A} (f : A -> Setsum) l1 l2 :
  setsum_of f (l1 ++ l2) = setsum_of f l1 +ₛ setsum_of f l2.
Proof. unfold setsum_of at 1. rewrite foldl_app. by rewrite setsum_foldl_acc. Qed.

Lemma setsum_of_singleton {A} (f : A -> Setsum) x : setsum_of f [x] = f x.
Proof. by rewrite setsum_of_cons, setsum_of_nil, setsum_default_r. Qed.

#[global] Instance setsum_of_perm {A} (f : A -> Setsum) :
  Proper ((≡ₚ) ==> (=)) (setsum_of f).
Proof.
  induction 1 as [|x l l' _ IH|x y l|l1 l2 l3 _ IH1 _ IH2]; [done| | |congruence].
  - by rewrite !setsum_of_cons, IH.
  - rewrite !setsum_of_cons, !setsum_add_assoc. f_equal. apply setsum_add_comm.
Qed.

Lemma setsum_add_cancel_l a b c : a +ₛ b = a +ₛ c -> b = c.
Proof.
  rewrite (setsum_add_comm a b), (setsum_add_comm a c). intros H.
  by rewrite <- (setsum_add_sub b a), H, setsum_add_sub.
Qed.

Lemma setsum_add_cancel_r a b c : b +ₛ a = c +ₛ a -> b = c.
Proof. intros H. by rewrite <- (setsum_add_sub b a), H, setsum_add_sub. Qed.

Lemma setsum_sub_diag a : a -ₛ a = setsum_default.
Proof. rewrite <- (setsum_default_l a) at 1. apply setsum_add_sub. Qed.

Lemma setsum_sub_default a : a -ₛ setsum_default = a.
Proof. rewrite <- (setsum_default_r a) at 1. apply setsum_add_sub. Qed.

Lemma setsum_sub_eq a b c : a = c +ₛ b -> a -ₛ b = c.
Proof. intros ->. apply setsum_add_sub. Qed.

Lemma hexdigest_inj a b : hexdigest a = hexdigest b -> a = b.
Proof. intros H. pose proof (hexdigest_from a) as Ha. rewrite H, hexdigest_from in Ha. congruence. Qed.
End Sums.

Arguments setsum_of {SS A} f l : simpl never.

Create Rewrite HintDb setsum.
#[export] Hint Rewrite @setsum_of_nil @setsum_of_cons @setsum_of_app @setsum_default_l
  @setsum_default_r @setsum_of_singleton using (typeclasses eauto) : setsum.

(** Equations between sums, up to associativity and commutativity. *)
Ltac setsum_solve :=
  autorewrite with setsum;
  repeat rewrite setsum_add_assoc;
  first
    [ reflexivity
    | apply setsum_add_comm
    | f_equal; apply setsum_add_comm
    | congruence ].

(** ** An instance over the integers *)

Module IntSetsum.
Fixpoint pos_digest (p : positive) : string :=
  match p with
  | xH => EmptyString
  | xO p => String "0"%char (pos_digest p)
  | xI p => String "1"%char (pos_digest p)
  end.

Fixpoint pos_from (s : string) : option positive :=
  match s with
  | EmptyString => Some xH
  | String "0"%char s => xO <$> pos_from s
  | String "1"%char s => xI <$> pos_from s
  | String _ _ => None
  end.

Lemma pos_from_digest p : pos_from (pos_digest p) = Some p.
Proof. induction p as [p IH|p IH|]; simpl; rewrite ?IH; done. Qed.

Definition digest (z : Z) : string :=
  match z with
  | Z0 => "a"
  | Zpos p => String "b"%char (pos_digest p)
  | Zneg p => String "c"%char (pos_digest p)
  end.

Definition from (s : string) : option Z :=
  match s with
  | String "a"%char EmptyString => Some 0
  | String "b"%char s => Zpos <$> pos_from s
  | String "c"%char s => Zneg <$> pos_from s
  | _ => None
  end.

(** A record hashes to one plus the number its bytes spell. *)
Definition item_hash (item : list bytes) : Z :=
  1 + foldl (fun acc b => 256 * acc + Z.of_N (Byte.to_N b)) 0 (concat item).

#[export] Instance int_setsum : SetsumSig := {|
  Setsum := Z;
  setsum_eq_dec := Z.eq_dec;
  setsum_default := 0;
  setsum_add := Z.add;
  setsum_sub := Z.sub;
  hexdigest := digest;
  from_hexdigest := from;
  insert_vectored := fun a item => a + item_hash item;
|}.

#[export] Instance int_setsum_laws : SetsumLaws int_setsum.
Proof.
  constructor; simpl; intros; try lia.
  destruct a as [|p|p]; simpl; [done| |]; by rewrite pos_from_digest.
Qed.
End IntSetsum.
