(* ===== verification/Storage.v ===== *)
(** * Object storage

    The part of [rust/storage] that wal3 programs against: storage errors and
    their codes, ETags and request options ([rust/storage/src/lib.rs]), and the
    interface [ObjectStore] of the operations with the laws [ObjectStoreLaws]
    that conditional writes to an object store obey.  The service behind the
    operations is shared with other processes and can fail, so the operations
    are parameters; [MemStore] is an executable instance with scripted faults. *)

From S2P Require Import Prelude Setsum.
From stdpp Require Import pretty.

#[local] Open Scope Z_scope.

(** ** Errors *)

Inductive ErrorCodes :=
| CodeSuccess | CodeCancelled | CodeUnknown | CodeInvalidArgument | CodeDeadlineExceeded
| CodeNotFound | CodeAlreadyExists | CodePermissionDenied | CodeResourceExhausted
| CodeFailedPrecondition | CodeAborted | CodeOutOfRange | CodeUnimplemented | CodeInternal
| CodeUnavailable | CodeDataLoss | CodeUnauthenticated | CodeVersionMismatch
| CodeUnprocessableEntity.

(** The boxed source of an error is not kept: no code of the model reads it. *)
Inductive StorageError :=
| Generic
| Message (message : string)
| NotFound (path : string)
| InvalidPath
| JoinError
| NotSupported
| ObjectAlreadyExists (path : string)
| Precondition (path : string)
| NotModified (path : string)
| NotImplemented
| PermissionDenied (path : string)
| Unauthenticated (path : string)
| UnknownConfigurationKey (store key : string)
| CallbackError (info : string)
| StorageBackoff.

Definition storage_error_code (e : StorageError) : ErrorCodes :=
  match e with
  | Generic => CodeInternal
  | Message _ => CodeInternal
  | NotFound _ => CodeNotFound
  | InvalidPath => CodeInvalidArgument
  | JoinError => CodeInternal
  | NotSupported => CodeUnimplemented
  | ObjectAlreadyExists _ => CodeAlreadyExists
  | Precondition _ => CodeFailedPrecondition
  | NotModified _ => CodeFailedPrecondition
  | NotImplemented => CodeUnimplemented
  | PermissionDenied _ => CodePermissionDenied
  | Unauthenticated _ => CodeUnauthenticated
  | UnknownConfigurationKey _ _ => CodeInvalidArgument
  | StorageBackoff => CodeResourceExhausted
  | CallbackError _ => CodeInternal
  end.

(** ** ETags and options *)

Record ETag := mkETag { e_tag_value : string }.

#[global] Instance ETag_eq_dec : EqDecision ETag.
Proof. solve_decision. Defined.

(** The request priority only orders requests inside the admission controller,
    so the options keep the conditions alone. *)
Record PutOptions := mkPutOptions {
  put_if_not_exists : bool;
  put_if_match : option ETag;
}.

Inductive PutOptionsCreateError := IfNotExistsAndIfMatchEnabled.

Definition PutOptions_new (if_not_exists : bool) (if_match : option ETag) :
    result PutOptions PutOptionsCreateError :=
  if if_not_exists && bool_decide (is_Some if_match) then Err IfNotExistsAndIfMatchEnabled
  else Ok (mkPutOptions if_not_exists if_match).

Definition if_not_exists : PutOptions := mkPutOptions true None.
Definition if_matches (e_tag : ETag) : PutOptions := mkPutOptions false (Some e_tag).

(** The two [unwrap]s of the source: neither constructor can fail. *)
Lemma if_not_exists_new : PutOptions_new true None = Ok if_not_exists.
Proof. done. Qed.
Lemma if_matches_new t : PutOptions_new false (Some t) = Ok (if_matches t).
Proof. done. Qed.

(** ** The interface *)

Abbreviation Objects := (gmap string (bytes * ETag)).

(** [put_allowed o m k]: the conditions of a put to [k] hold of the store [m]. *)
Definition put_allowed (o : PutOptions) (m : Objects) (k : string) : Prop :=
  (put_if_not_exists o = true -> m !! k = None) /\
  (forall t, put_if_match o = Some t -> exists b, m !! k = Some (b, t)).

Class ObjectStore := {
  world : Type;
  (** The objects the service holds. *)
  objects : world -> Objects;
  get_with_e_tag : string -> world -> result (bytes * option ETag) StorageError * world;
  put_bytes : string -> bytes -> PutOptions -> world -> result (option ETag) StorageError * world;
  delete : string -> world -> result unit StorageError * world;
  delete_many : list string -> world -> result (list StorageError) StorageError * world;
  copy_object : string -> string -> world -> result unit StorageError * world;
  list_prefix : string -> world -> result (list string) StorageError * world;
  confirm_same : string -> ETag -> world -> result bool StorageError * world;
  (** [ExponentialBackoff::next], in microseconds: it depends on the clock and
      on a random number. *)
  backoff_next : world -> Z * world;
  (** [Instant::now], in microseconds. *)
  now : world -> Z * world;
  (** [SystemTime::now], in microseconds since the epoch. *)
  system_time : world -> Z * world;
}.

(** What a conditional store promises.  Other processes act on the same
    objects: [rely] relates the objects before and after such steps, and every
    request sees some state that [rely] reaches from the one before it. *)
Class ObjectStoreLaws (OS : ObjectStore) (rely : relation Objects) : Prop := {
  rely_preorder :: PreOrder rely;
  get_law : forall k w r w',
    get_with_e_tag k w = (r, w') ->
    rely (objects w) (objects w') /\
    match r with
    | Ok (b, t) => exists t', objects w' !! k = Some (b, t') /\ (t = Some t' \/ t = None)
    | Err (NotFound _) => objects w' !! k = None
    | Err _ => True
    end;
  put_law : forall k b o w r w',
    put_bytes k b o w = (r, w') ->
    exists pre, rely (objects w) pre /\
    match r with
    | Ok t => put_allowed o pre k /\
              exists t', objects w' = <[k := (b, t')]> pre /\ (t = Some t' \/ t = None)
    | Err (Precondition _) => ~ put_allowed o pre k /\ objects w' = pre
    | Err _ => objects w' = pre \/
               (put_allowed o pre k /\ exists t', objects w' = <[k := (b, t')]> pre)
    end;
  delete_law : forall k w r w',
    delete k w = (r, w') ->
    exists pre, rely (objects w) pre /\
    match r with
    | Ok _ => objects w' = base.delete k pre
    | Err (NotFound _) => pre !! k = None /\ objects w' = pre
    | Err _ => objects w' = pre \/ objects w' = base.delete k pre
    end;
  copy_law : forall src dst w r w',
    copy_object src dst w = (r, w') ->
    exists pre, rely (objects w) pre /\
    match r with
    | Ok _ => exists b t t', pre !! src = Some (b, t) /\ objects w' = <[dst := (b, t')]> pre
    | Err _ => objects w' = pre \/ exists b t t', pre !! src = Some (b, t) /\ objects w' = <[dst := (b, t')]> pre
    end;
  (** A listing is made of several requests, so it need not show one state: a
      key that is not listed was absent at some moment. *)
  list_law : forall p w r w',
    list_prefix p w = (r, w') ->
    rely (objects w) (objects w') /\
    match r with
    | Ok ks => forall k,
        (k ∈ ks -> String.prefix p k = true) /\
        (String.prefix p k = true -> k ∉ ks ->
         exists m, rely (objects w) m /\ rely m (objects w') /\ m !! k = None)
    | Err _ => True
    end;
  backoff_law : forall w, rely (objects w) (objects (backoff_next w).2);
  now_law : forall w, rely (objects w) (objects (now w).2);
  system_time_law : forall w, rely (objects w) (objects (system_time w).2);
}.

(** ** ETags that tell contents *)

(** The ETag of every object tells its contents. *)
Definition tagged (content : string -> ETag -> bytes) (m : Objects) : Prop :=
  forall p b t, m !! p = Some (b, t) -> content p t = b.

Class ETagLaws (OS : ObjectStore) (rely : relation Objects) (content : string -> ETag -> bytes) : Prop := {
  tagged_rely : forall m m', rely m m' -> tagged content m -> tagged content m';
  tagged_put : forall k b o w r w', put_bytes k b o w = (r, w') ->
    tagged content (objects w) -> tagged content (objects w');
}.

(** ** An executable store

    One process, no interference; each put, get, delete and copy consumes one
    entry of the script, which says whether the request gets through. *)
Module MemStore.
Inductive fault :=
| Works          (** the request is served *)
| Lost           (** the request fails and has no effect *)
| Ambiguous.     (** the request is served and the response is lost *)

Record mem := mkMem {
  mem_objects : Objects;
  mem_next_tag : nat;
  mem_script : list fault;
  mem_clock : Z;
}.

Definition next_fault (w : mem) : fault * mem :=
  match mem_script w with
  | [] => (Works, w)
  | f :: fs => (f, mkMem (mem_objects w) (mem_next_tag w) fs (mem_clock w))
  end.

Definition allowedb (o : PutOptions) (m : Objects) (k : string) : bool :=
  (negb (put_if_not_exists o) || bool_decide (m !! k = None)) &&
  match put_if_match o with
  | None => true
  | Some t => match m !! k with Some (_, t') => bool_decide (t = t') | None => false end
  end.

Lemma allowedb_spec o m k : allowedb o m k = true <-> put_allowed o m k.
Proof.
  unfold allowedb, put_allowed.
  rewrite andb_true_iff, orb_true_iff, negb_true_iff, bool_decide_eq_true. split.
  - intros [Hn Hm]. split; [by destruct Hn as [->|]|]. intros t Ht. rewrite Ht in Hm.
    destruct (m !! k) as [[b t']|]; [|done]. apply bool_decide_eq_true in Hm as <-. eauto.
  - intros [Hn Hm]. split; [destruct (put_if_not_exists o); auto|].
    destruct (put_if_match o) as [t|]; [|done].
    destruct (Hm t eq_refl) as [b ->]. by apply bool_decide_eq_true.
Qed.

Definition fresh_tag (w : mem) : ETag := mkETag ("tag" +:+ pretty (mem_next_tag w)).

Definition store (k : string) (b : bytes) (w : mem) : mem :=
  mkMem (<[k := (b, fresh_tag w)]> (mem_objects w)) (S (mem_next_tag w)) (mem_script w) (mem_clock w).

Definition get (k : string) (w : mem) : result (bytes * option ETag) StorageError * mem :=
  let '(f, w) := next_fault w in
  match f with
  | Works => match mem_objects w !! k with
             | Some (b, t) => (Ok (b, Some t), w)
             | None => (Err (NotFound k), w)
             end
  | _ => (Err Generic, w)
  end.

Definition put (k : string) (b : bytes) (o : PutOptions) (w : mem) :
    result (option ETag) StorageError * mem :=
  let '(f, w) := next_fault w in
  match f with
  | Lost => (Err Generic, w)
  | _ => if allowedb o (mem_objects w) k then
           (match f with Works => Ok (Some (fresh_tag w)) | _ => Err Generic end, store k b w)
         else (match f with Works => Err (Precondition k) | _ => Err Generic end, w)
  end.

Definition remove (k : string) (w : mem) : mem :=
  mkMem (base.delete k (mem_objects w)) (mem_next_tag w) (mem_script w) (mem_clock w).

Definition del (k : string) (w : mem) : result unit StorageError * mem :=
  let '(f, w) := next_fault w in
  match f with
  | Lost => (Err Generic, w)
  | Ambiguous => (Err Generic, remove k w)
  | Works => (Ok tt, remove k w)
  end.

Definition del_many (ks : list string) (w : mem) : result (list StorageError) StorageError * mem :=
  let '(f, w) := next_fault w in
  match f with
  | Lost => (Err Generic, w)
  | Ambiguous => (Err Generic, foldr remove w ks)
  | Works => (Ok [], foldr remove w ks)
  end.

Definition cp (src dst : string) (w : mem) : result unit StorageError * mem :=
  let '(f, w) := next_fault w in
  match f, mem_objects w !! src with
  | Works, Some (b, _) => (Ok tt, store dst b w)
  | Works, None => (Err (NotFound src), w)
  | _, _ => (Err Generic, w)
  end.

Definition ls (p : string) (w : mem) : result (list string) StorageError * mem :=
  (Ok (filter (fun k => String.prefix p k = true) (map_to_list (mem_objects w)).*1), w).

Definition confirm (k : string) (t : ETag) (w : mem) : result bool StorageError * mem :=
  match mem_objects w !! k with
  | Some (_, t') => (Ok (bool_decide (t = t')), w)
  | None => (Err Generic, w)
  end.

Definition tick (w : mem) : Z * mem :=
  (mem_clock w, mkMem (mem_objects w) (mem_next_tag w) (mem_script w) (mem_clock w + 1000)).

#[export] Instance mem_store : ObjectStore := {|
  world := mem;
  objects := mem_objects;
  get_with_e_tag := get;
  put_bytes := put;
  delete := del;
  delete_many := del_many;
  copy_object := cp;
  list_prefix := ls;
  confirm_same := confirm;
  backoff_next := tick;
  now := tick;
  system_time := tick;
|}.

Lemma next_fault_objects w f w' : next_fault w = (f, w') -> mem_objects w' = mem_objects w.
Proof. unfold next_fault. destruct (mem_script w); by intros [= <- <-]. Qed.

#[export] Instance mem_store_laws : ObjectStoreLaws mem_store eq.
Proof.
  constructor; [apply _| | | | | |done|done|done].
  - intros k w r w'. simpl. unfold get. destruct (next_fault w) as [f w1] eqn:Hf.
    apply next_fault_objects in Hf.
    destruct f; [|by intros [= <- <-]..].
    destruct (mem_objects w1 !! k) as [[b t]|] eqn:Hk; intros [= <- <-]; eauto 10.
  - intros k b o w r w'. simpl. unfold put. destruct (next_fault w) as [f w1] eqn:Hf.
    apply next_fault_objects in Hf. intros Hput. exists (mem_objects w1).
    split; [done|]. pose proof (allowedb_spec o (mem_objects w1) k) as Hal.
    destruct f; [|by simplify_eq; left|];
      destruct (allowedb o (mem_objects w1) k) eqn:Ha; simplify_eq.
    + split; [by apply Hal|]. eauto.
    + split; [|done]. intros Hp. apply Hal in Hp. done.
    + right. split; [by apply Hal|]. eauto.
    + by left.
  - intros k w r w'. simpl. unfold del. destruct (next_fault w) as [f w1] eqn:Hf.
    apply next_fault_objects in Hf. intros Hdel. exists (mem_objects w1).
    split; [done|]. destruct f; simplify_eq; [done|by left|by right].
  - intros src dst w r w'. simpl. unfold cp. destruct (next_fault w) as [f w1] eqn:Hf.
    apply next_fault_objects in Hf. intros Hcp. exists (mem_objects w1). split; [done|].
    destruct f; [|by simplify_eq; left|by simplify_eq; left].
    destruct (mem_objects w1 !! src) as [[b t]|] eqn:Hs; simplify_eq; [eauto 10|by left].
  - intros p w r w'. simpl. unfold ls. intros [= <- <-]. split; [done|]. intros k.
    rewrite list_elem_of_filter, list_elem_of_fmap. split; [by intros [Hp _]|].
    intros Hp Hnot. exists (mem_objects w). split_and!; [done|done|]. apply eq_None_not_Some. intros [x Hx].
    apply Hnot. split; [done|]. exists (k, x). split; [done|]. by apply elem_of_map_to_list.
Qed.
End MemStore.
