(* ===== verification/S3.v ===== *)
(** * The S3 client

    [rust/storage/src/s3.rs]: the operations of the storage layer on an S3
    bucket: errors of the service and their translation, conditional puts in
    one request or in parts, parallel reads of ranges, deletions, copies and
    listings.

    The SDK and the service behind it are the parameter [S3Client].  A request
    builder is the argument of its request; the body of an object is the list
    of the items that its stream yields, and a paginated listing the list of
    the results that its paginator yields.  Metrics and log messages are left
    out.  Requests that the source issues concurrently run in order.  A part
    size of zero, which panics, is excluded by the theorems. *)

From stdpp Require Import pretty.
From S2P Require Import Prelude Float64 Setsum Storage.

#[local] Open Scope Z_scope.

(** ** The SDK *)

(** [SdkError<E>]: the service answered with an error, or something failed
    before an answer was there. *)
Inductive SdkError (E : Type) :=
| ServiceError (e : E)
| OtherSdkError.
Arguments ServiceError {E} e.
Arguments OtherSdkError {E}.

(** The errors of most requests are read by their code alone. *)
Abbreviation Code := (option string).

(** [ProvideErrorMetadata::code], also after [into_service_error]. *)
Definition sdk_code (e : SdkError Code) : Code :=
  match e with
  | ServiceError c => c
  | OtherSdkError => None
  end.

Inductive GetObjectError :=
| NoSuchKey
| InvalidObjectState
| UnhandledGet (code : Code).

(** The conditions of a put: [if_none_match] and [if_match]. *)
Record Conditions := mkConditions {
  if_none_match : option string;
  if_match : option string;
}.

Record CompletedPart := mkCompletedPart {
  part_e_tag : string;
  part_number : Z;
}.

(** An error of [delete_objects]: the key, the code, and its debug print. *)
Record DeleteError := mkDeleteError {
  delete_error_key : option string;
  delete_error_code : Code;
  delete_error_debug : string;
}.

(** An item of a body: a chunk, or an error of the stream. *)
Abbreviation Body := (list (result bytes unit)).

(** Multipart uploads in progress: the key, and the parts with their ETags. *)
Abbreviation Uploads := (gmap string (string * gmap Z (bytes * string))).

Class S3Client := {
  s3_world : Type;
  s3_objects : s3_world -> Objects;
  s3_uploads : s3_world -> Uploads;
  send_head_object : string -> s3_world -> result (option Z * option string) (SdkError Code) * s3_world;
  send_get_object : string -> option string -> s3_world ->
    result (Body * option string) (SdkError GetObjectError) * s3_world;
  send_put_object : string -> bytes -> Conditions -> s3_world ->
    result (option string) (SdkError Code) * s3_world;
  send_create_multipart_upload : string -> s3_world -> result (option string) (SdkError Code) * s3_world;
  send_upload_part : string -> string -> Z -> bytes -> s3_world ->
    result (option string) (SdkError Code) * s3_world;
  send_complete_multipart_upload : string -> string -> list CompletedPart -> Conditions -> s3_world ->
    result (option string) (SdkError Code) * s3_world;
  send_delete_object : string -> option string -> s3_world -> result unit (SdkError Code) * s3_world;
  send_delete_objects : list string -> s3_world ->
    result (list (option string) * list DeleteError) (SdkError Code) * s3_world;
  send_copy_object : string -> string -> s3_world -> result unit (SdkError Code) * s3_world;
  send_list_objects_v2 : Z -> string -> s3_world ->
    list (result (list (option string)) (SdkError Code)) * s3_world;
  (** The clock and the random numbers of the process. *)
  s3_backoff_next : s3_world -> Z * s3_world;
  s3_now : s3_world -> Z * s3_world;
  s3_system_time : s3_world -> Z * s3_world;
}.

(** ** Options *)

Inductive StorageRequestPriority := P0 | P1.

Record GetOptions := mkGetOptions {
  get_priority : StorageRequestPriority;
  requires_strong_consistency : bool;
  request_parallelism : bool;
}.
Definition GetOptions_new (p : StorageRequestPriority) : GetOptions := mkGetOptions p false false.
Definition with_strong_consistency (o : GetOptions) : GetOptions :=
  mkGetOptions (get_priority o) true (request_parallelism o).
Definition with_parallelism (o : GetOptions) : GetOptions :=
  mkGetOptions (get_priority o) (requires_strong_consistency o) true.

Record DeleteOptions := mkDeleteOptions {
  delete_if_match : option ETag;
  delete_priority : StorageRequestPriority;
}.
Definition DeleteOptions_default : DeleteOptions := mkDeleteOptions None P0.

Record DeletedObjects := mkDeletedObjects {
  deleted : list string;
  delete_errors : list StorageError;
}.

Record S3Storage := mkS3Storage {
  bucket : string;
  upload_part_size_bytes : Z;
  download_part_size_bytes : Z;
}.

(** ** Operations *)

Section Operations.
Context {C : S3Client}.
Variable self : S3Storage.

(** A computation that talks to S3. *)
Definition S3M (A : Type) : Type := s3_world -> result A StorageError * s3_world.

Definition s3_ret {A} (r : result A StorageError) : S3M A := fun w => (r, w).

Definition s3_bind {A B} (c : S3M A) (k : A -> S3M B) : S3M B := fun w =>
  match c w with
  | (Ok a, w) => k a w
  | (Err e, w) => (Err e, w)
  end.

(** A request with the translation of its answer. *)
Definition send {A B E} (f : s3_world -> result A E * s3_world) (k : result A E -> result B StorageError) :
    S3M B :=
  fun w => let '(r, w) := f w in (k r, w).

Definition confirm_same_s3 (key : string) (e_tag : ETag) : S3M bool :=
  send (send_head_object key) (fun r =>
    match r with
    | Ok (_, t) => Ok (bool_decide (t = Some (e_tag_value e_tag)))
    | Err _ => Err Generic
    end).

Definition get_stream_and_e_tag (key : string) : S3M (Body * option ETag) :=
  send (send_get_object key None) (fun r =>
    match r with
    | Ok (body, t) => Ok (body, mkETag <$> t)
    | Err (ServiceError NoSuchKey) => Err (NotFound key)
    | Err (ServiceError InvalidObjectState) => Err Generic
    | Err (ServiceError (UnhandledGet code)) =>
        if bool_decide (code = Some "SlowDown") then Err StorageBackoff
        else if bool_decide (code = Some "AccessDenied") then Err (PermissionDenied key)
        else Err Generic
    | Err OtherSdkError => Err Generic
    end).

(** [while let Some(res) = stream.next().await]: the first error ends it. *)
Fixpoint read_stream (body : Body) (buf : bytes) : result bytes StorageError :=
  match body with
  | [] => Ok buf
  | Ok chunk :: body => read_stream body (buf ++ chunk)
  | Err _ :: _ => Err Generic
  end.

Definition s3_get_with_e_tag (key : string) : S3M (bytes * option ETag) :=
  s3_bind (get_stream_and_e_tag key) (fun '(stream, e_tag) =>
    s3_ret (match read_stream stream [] with
            | Ok buf => Ok (buf, e_tag)
            | Err e => Err e
            end)).

(** The ranges of the parts of an object, inclusive at both ends. *)
Definition key_ranges (content_length part_size : Z) : list (Z * Z) :=
  let num_parts := ceil_div_f64 content_length part_size in
  (fun i => (i * part_size,
             if i =? num_parts - 1 then content_length - 1 else (i + 1) * part_size - 1))
  <$> range_u64 0 num_parts.

Definition get_key_ranges (key : string) : S3M (Z * list (Z * Z) * option ETag) :=
  send (send_head_object key) (fun r =>
    match r with
    | Ok (Some len, t) => Ok (len, key_ranges len (download_part_size_bytes self), mkETag <$> t)
    | Ok (None, _) => Err (Message "No content length")
    | Err _ => Err Generic
    end).

Definition range_header (range : Z * Z) : string :=
  "bytes=" +:+ pretty range.1 +:+ "-" +:+ pretty range.2.

Definition fetch_range (key : string) (range_str : string) : S3M Body :=
  send (send_get_object key (Some range_str)) (fun r =>
    match r with
    | Ok (body, _) => Ok body
    | Err (ServiceError NoSuchKey) => Err (NotFound key)
    | Err (ServiceError InvalidObjectState) => Err Generic
    | Err (ServiceError (UnhandledGet code)) =>
        if bool_decide (code = Some "SlowDown") then Err StorageBackoff else Err Generic
    | Err OtherSdkError => Err Generic
    end).

(** The bytes that a body yields before it ends or fails. *)
Fixpoint available (body : Body) : bytes :=
  match body with
  | Ok chunk :: body => chunk ++ available body
  | _ => []
  end.

(** [read_exact]: fills the slice, or leaves its end as it was and fails. *)
Definition read_exact (body : Body) (slice : bytes) : result unit StorageError * bytes :=
  let avail := available body in
  (if (length slice <=? length avail)%nat then Ok tt else Err Generic,
   take (length slice) avail ++ drop (length avail) slice).

(** [chunks_mut]. *)
Fixpoint chunks {A} (fuel size : nat) (l : list A) : list (list A) :=
  match fuel, l with
  | S fuel, _ :: _ => take size l :: chunks fuel size (drop size l)
  | _, _ => []
  end.

(** One future of a parallel read: the range is fetched into its slice. *)
Definition fetch_slice (key : string) (range : Z * Z) (slice : bytes) :
    s3_world -> result unit StorageError * bytes * s3_world := fun w =>
  match fetch_range key (range_header range) w with
  | (Ok body, w) => (read_exact body slice, w)
  | (Err e, w) => (Err e, slice, w)
  end.

(** All of them.  Their results are collected and dropped. *)
Fixpoint fetch_slices (key : string) (parts : list ((Z * Z) * bytes)) (w : s3_world) : bytes * s3_world :=
  match parts with
  | [] => ([], w)
  | (range, slice) :: parts =>
      let '(_, slice, w) := fetch_slice key range slice w in
      let '(rest, w) := fetch_slices key parts w in
      (slice ++ rest, w)
  end.

Definition fill_ranges (key : string) (content_length : Z) (ranges : list (Z * Z)) :
    s3_world -> bytes * s3_world :=
  let output_buffer := replicate (Z.to_nat content_length) Byte.x00 in
  let size := Z.to_nat (download_part_size_bytes self) in
  fetch_slices key (zip ranges (chunks (length output_buffer) size output_buffer)).

Definition get_parallel (key : string) : S3M (bytes * option ETag) :=
  s3_bind (get_key_ranges key) (fun '(content_length, ranges, e_tag) w =>
    if content_length =? 0 then (Ok ([], None), w) else
    let '(buf, w) := fill_ranges key content_length ranges w in
    (Ok (buf, e_tag), w)).

Definition s3_get (key : string) (options : GetOptions) : S3M bytes :=
  s3_bind (if request_parallelism options then get_parallel key else s3_get_with_e_tag key)
    (fun x => s3_ret (Ok x.1)).

(** *** Puts *)

Definition is_oneshot_upload (total_size_bytes : Z) : bool :=
  total_size_bytes <? upload_part_size_bytes self.

(** The conditions that the options put on a request. *)
Definition conditions (o : PutOptions) : Conditions :=
  mkConditions (if put_if_not_exists o then Some "*" else None) (e_tag_value <$> put_if_match o).

(** What is uploaded is read by ranges of bytes. *)
Abbreviation Bytestream := (Z -> Z -> result bytes StorageError).

Definition oneshot_upload (key : string) (total_size_bytes : Z) (create_bytestream : Bytestream)
    (options : PutOptions) : S3M (option ETag) :=
  s3_bind (s3_ret (create_bytestream 0 total_size_bytes)) (fun body =>
    send (send_put_object key body (conditions options)) (fun r =>
      match r with
      | Ok t => Ok (mkETag <$> t)
      | Err e =>
          if bool_decide (sdk_code e = Some "PreconditionFailed") then Err (Precondition key)
          else if bool_decide (sdk_code e = Some "SlowDown") then Err StorageBackoff
          else Err Generic
      end)).

(** The number of parts and the size of the last one. *)
Definition part_layout (total_size_bytes : Z) : Z * Z :=
  let part_count := total_size_bytes / upload_part_size_bytes self + 1 in
  let size_of_last_part := total_size_bytes mod upload_part_size_bytes self in
  if size_of_last_part =? 0 then (part_count - 1, upload_part_size_bytes self)
  else (part_count, size_of_last_part).

Definition prepare_multipart_upload (key : string) (total_size_bytes : Z) : S3M (Z * Z * string) :=
  send (send_create_multipart_upload key) (fun r =>
    match r with
    | Ok (Some upload_id) => Ok (part_layout total_size_bytes, upload_id)
    | Ok None => Err (Message "Multipart upload creation response missing upload ID")
    | Err _ => Err Generic
    end).

(** [part_index as i32 + 1]. *)
Definition i32_wrap (z : Z) : Z := (z + 2 ^ 31) mod 2 ^ 32 - 2 ^ 31.

Definition upload_part (key upload_id : string) (part_count part_index size_of_last_part : Z)
    (create_bytestream : Bytestream) : S3M CompletedPart :=
  let this_part := if part_count - 1 =? part_index then size_of_last_part else upload_part_size_bytes self in
  let part_number := i32_wrap (i32_wrap part_index + 1) in
  let offset := part_index * upload_part_size_bytes self in
  s3_bind (s3_ret (create_bytestream offset (offset + this_part))) (fun stream =>
    send (send_upload_part key upload_id part_number stream) (fun r =>
      match r with
      | Ok t => Ok (mkCompletedPart (default "" t) part_number)
      | Err _ => Err Generic
      end)).

(** [for part_index in 0..part_count]. *)
Fixpoint upload_parts (key upload_id : string) (part_count size_of_last_part : Z)
    (create_bytestream : Bytestream) (indices : list Z) : S3M (list CompletedPart) :=
  match indices with
  | [] => s3_ret (Ok [])
  | i :: indices =>
      s3_bind (upload_part key upload_id part_count i size_of_last_part create_bytestream) (fun p =>
        s3_bind (upload_parts key upload_id part_count size_of_last_part create_bytestream indices) (fun ps =>
          s3_ret (Ok (p :: ps))))
  end.

Definition finish_multipart_upload (key upload_id : string) (parts : list CompletedPart)
    (options : PutOptions) : S3M (option ETag) :=
  send (send_complete_multipart_upload key upload_id parts (conditions options)) (fun r =>
    match r with
    | Ok t => Ok (mkETag <$> t)
    | Err _ => Err Generic
    end).

Definition multipart_upload (key : string) (total_size_bytes : Z) (create_bytestream : Bytestream)
    (options : PutOptions) : S3M (option ETag) :=
  s3_bind (prepare_multipart_upload key total_size_bytes) (fun '(part_count, size_of_last_part, upload_id) =>
    s3_bind (upload_parts key upload_id part_count size_of_last_part create_bytestream (range_u64 0 part_count))
      (fun parts => finish_multipart_upload key upload_id parts options)).

Definition s3_put_object (key : string) (total_size_bytes : Z) (create_bytestream : Bytestream)
    (options : PutOptions) : S3M (option ETag) :=
  if is_oneshot_upload total_size_bytes
  then oneshot_upload key total_size_bytes create_bytestream options
  else multipart_upload key total_size_bytes create_bytestream options.

(** [bytes.slice(range)]. *)
Definition slice (b : bytes) (lo hi : Z) : bytes := take (Z.to_nat (hi - lo)) (drop (Z.to_nat lo) b).

Definition s3_put_bytes (key : string) (b : bytes) (options : PutOptions) : S3M (option ETag) :=
  s3_put_object key (Z.of_nat (length b)) (fun lo hi => Ok (slice b lo hi)) options.

(** [file_size] and [read_from] are what the file system answers. *)
Definition s3_put_file (key : string) (file_size : option Z) (read_from : Z -> Z -> option bytes)
    (options : PutOptions) : S3M (option ETag) :=
  match file_size with
  | None => s3_ret (Err Generic)
  | Some len =>
      s3_put_object key len
        (fun lo hi => match read_from lo (hi - lo) with Some b => Ok b | None => Err Generic end) options
  end.

(** *** Deletions, copies and listings *)

Definition s3_delete (key : string) (options : DeleteOptions) : S3M unit :=
  send (send_delete_object key (e_tag_value <$> delete_if_match options)) (fun r =>
    match r with
    | Ok _ => Ok tt
    | Err (ServiceError code) =>
        if bool_decide (code = Some "NotFound") then Err (NotFound key)
        else if bool_decide (code = Some "SlowDown") then Err StorageBackoff
        else Err Generic
    | Err OtherSdkError => Err Generic
    end).

(** The builders of the request cannot fail: the key and the objects are set. *)
Definition s3_delete_many (keys : list string) : S3M DeletedObjects :=
  send (send_delete_objects keys) (fun r =>
    match r with
    | Ok (gone, errors) =>
        Ok (mkDeletedObjects (omap id gone)
              ((fun e => if bool_decide (delete_error_code e = Some "NoSuchKey")
                         then NotFound (default "" (delete_error_key e))
                         else Message (delete_error_debug e)) <$> errors))
    | Err e => if bool_decide (sdk_code e = Some "SlowDown") then Err StorageBackoff else Err Generic
    end).

Definition s3_copy (src_key dst_key : string) : S3M unit :=
  send (send_copy_object (bucket self +:+ "/" +:+ src_key) dst_key) (fun r =>
    match r with
    | Ok _ => Ok tt
    | Err _ => Err Generic
    end).

Definition s3_rename (src_key dst_key : string) : S3M unit :=
  s3_bind (s3_copy src_key dst_key) (fun _ => s3_delete src_key DeleteOptions_default).

(** [{:?}] of a string without characters to escape. *)
Definition debug_string (s : string) : string :=
  let quote := String (Ascii.ascii_of_nat 34) EmptyString in quote +:+ s +:+ quote.

(** One page: a listed object without a key is an error. *)
Fixpoint page_keys (prefix : string) (contents : list (option string)) (paths : list string) :
    result (list string) StorageError :=
  match contents with
  | [] => Ok paths
  | Some key :: contents => page_keys prefix contents (paths ++ [key])
  | None :: _ => Err (Message ("list on prefix " +:+ debug_string prefix +:+ " led to empty key"))
  end.

(** [while let Some(result) = outs.next().await]. *)
Fixpoint read_pages (prefix : string) (pages : list (result (list (option string)) (SdkError Code)))
    (paths : list string) : result (list string) StorageError :=
  match pages with
  | [] => Ok paths
  | Err _ :: _ => Err Generic
  | Ok contents :: pages =>
      match page_keys prefix contents paths with
      | Ok paths => read_pages prefix pages paths
      | Err e => Err e
      end
  end.

Definition s3_list_prefix (prefix : string) : S3M (list string) := fun w =>
  let '(pages, w) := send_list_objects_v2 1000 prefix w in
  (read_pages prefix pages [], w).
End Operations.

(** ** The object store that S3 gives to its clients *)

Section Stores.
Context {C : S3Client}.
Variable self : S3Storage.

(** The part of [Storage::S3] that wal3 uses. *)
Definition s3_store : ObjectStore := {|
  world := s3_world;
  objects := s3_objects;
  get_with_e_tag := s3_get_with_e_tag;
  put_bytes := s3_put_bytes self;
  delete k := s3_delete k DeleteOptions_default;
  delete_many ks w :=
    let '(r, w) := s3_delete_many ks w in
    (match r with Ok d => Ok (delete_errors d) | Err e => Err e end, w);
  copy_object := s3_copy self;
  list_prefix := s3_list_prefix;
  confirm_same := confirm_same_s3;
  backoff_next := s3_backoff_next;
  now := s3_now;
  system_time := s3_system_time;
|}.
End Stores.
