(* ===== verification/Admission.v ===== *)
(** * Admission control

    [rust/storage/src/admissioncontrolleds3.rs]: reads of the same keys share
    one request, requests wait for a permit of their priority, and a request
    that is wanted at a higher priority is woken to try again.

    The map of outstanding requests is guarded by a mutex: [ac_enter] and
    [ac_finish] are the two sections that hold it.  The context of a request
    (its priorities and whether it is finished) is shared by the request, its
    task and the guards of its callers, so contexts live in a store of their
    own and are named by numbers.  A value behind [Arc<dyn Any>] carries the
    name of its type.  A panic is [None]. *)

From stdpp Require Import pretty.
From S2P Require Import Prelude Setsum Storage S3.

#[local] Open Scope Z_scope.

(** ** Priorities *)

Definition lowest : StorageRequestPriority := P1.
Definition as_usize (p : StorageRequestPriority) : nat := match p with P0 => 0 | P1 => 1 end.

#[global] Instance priority_eq_dec : EqDecision StorageRequestPriority.
Proof. solve_decision. Defined.

(** How many callers want a request at each priority. *)
Record PriorityHolder := mkPriorityHolder {
  p0 : Z;
  p1 : Z;
}.

Definition add_priority (p : StorageRequestPriority) (h : PriorityHolder) : PriorityHolder :=
  match p with
  | P0 => mkPriorityHolder (wrapping_add (p0 h) 1) (p1 h)
  | P1 => mkPriorityHolder (p0 h) (wrapping_add (p1 h) 1)
  end.

(** Whether the last caller of the priority went away. *)
Definition remove_priority (p : StorageRequestPriority) (h : PriorityHolder) : bool * PriorityHolder :=
  match p with
  | P0 => (p0 h =? 1, mkPriorityHolder (wrapping_sub (p0 h) 1) (p1 h))
  | P1 => (p1 h =? 1, mkPriorityHolder (p0 h) (wrapping_sub (p1 h) 1))
  end.

Definition holder_priority (h : PriorityHolder) : StorageRequestPriority :=
  if 0 <? p0 h then P0 else if 0 <? p1 h then P1 else P0.

Definition PriorityHolder_new (p : StorageRequestPriority) : PriorityHolder :=
  add_priority p (mkPriorityHolder 0 0).

(** ** Requests in flight *)

(** The channel is the number of signals sent on it. *)
Record Context := mkContext {
  holder : PriorityHolder;
  signals : nat;
  finished : bool;
}.

Definition cleanup_priority (p : StorageRequestPriority) (c : Context) : Context :=
  if finished c then c else
  let '(changed, h) := remove_priority p (holder c) in
  mkContext h (if changed then S (signals c) else signals c) (finished c).

Definition complete (c : Context) : Context := mkContext (holder c) (signals c) true.

Definition maybe_update_priority (p : StorageRequestPriority) (c : Context) : Context :=
  let before := holder_priority (holder c) in
  mkContext (add_priority p (holder c))
    (if (as_usize p <? as_usize before)%nat then S (signals c) else signals c) (finished c).

(** A caller: its channel, the keys, the type that it expects, its priority. *)
Abbreviation Caller := nat (only parsing).
Record Call := mkCall {
  caller : Caller;
  keys : list string;
  return_type : nat;
  call_priority : StorageRequestPriority;
}.

Section Dedup.
(** What a fetch function returns. *)
Context {V : Type}.

(** [(Arc<dyn Any>, Vec<Option<ETag>>)]. *)
Definition Fetched : Type := (nat * V) * list (option ETag).

(** An entry of the map: the context and the senders. *)
Record Inflight := mkInflight {
  context : nat;
  senders : list Caller;
}.

Record Adm := mkAdm {
  outstanding : gmap string Inflight;
  contexts : gmap nat Context;
  (** The tasks that were spawned: the context, the call that spawned it. *)
  tasks : list (nat * Call);
  (** The guards that are alive. *)
  guards : list (Caller * nat * StorageRequestPriority);
  answered : list (Caller * result Fetched StorageError);
}.

Definition composite_key (ks : list string) : string :=
  match ks with
  | [] => ""
  | k :: ks => foldl (fun acc k => acc +:+ "|" +:+ k) k ks
  end.

(** The section that looks the keys up: the caller joins the request in flight
    or makes one, and holds a guard on its priority. *)
Definition ac_enter (c : Call) (st : Adm) : Adm :=
  let k := composite_key (keys c) in
  match outstanding st !! k with
  | Some r =>
      mkAdm (<[k := mkInflight (context r) (senders r ++ [caller c])]> (outstanding st))
        (alter (maybe_update_priority (call_priority c)) (context r) (contexts st))
        (tasks st) ((caller c, context r, call_priority c) :: guards st) (answered st)
  | None =>
      let id := fresh (dom (contexts st)) in
      mkAdm (<[k := mkInflight id [caller c]]> (outstanding st))
        (<[id := mkContext (PriorityHolder_new (call_priority c)) 0 false]> (contexts st))
        ((id, c) :: tasks st) ((caller c, id, call_priority c) :: guards st) (answered st)
  end.

(** [execute_batch_fetch]: the fetch function sees the bytes or the errors. *)
Definition execute_batch_fetch (fetch_fn : list (result bytes StorageError) -> result V StorageError)
    (inputs : list (result (bytes * option ETag) StorageError)) :
    result (V * list (option ETag)) StorageError :=
  match fetch_fn ((fun i => match i with Ok (b, _) => Ok b | Err e => Err e end) <$> inputs) with
  | Ok v => Ok (v, (fun i => match i with Ok (_, t) => t | Err _ => None end) <$> inputs)
  | Err e => Err e
  end.

(** The section that ends a task: the entry is removed, the context marked and
    everyone who waits gets the same answer. *)
Definition ac_finish (id : nat) (c : Call) (fetched : result Fetched StorageError) (st : Adm) : option Adm :=
  let k := composite_key (keys c) in
  match outstanding st !! k with
  | None => None
  | Some r =>
      Some (mkAdm (base.delete k (outstanding st)) (alter complete (context r) (contexts st))
              (List.filter (fun t => negb (bool_decide (t.1 = id))) (tasks st)) (guards st)
              (answered st ++ ((fun tx => (tx, fetched)) <$> senders r)))
  end.

(** [impl Drop for RollbackPriorityOnDrop]: when the call returns or is dropped. *)
Definition drop_guard (g : Caller * nat * StorageRequestPriority) (st : Adm) : Adm :=
  mkAdm (outstanding st) (alter (cleanup_priority g.2) g.1.2 (contexts st)) (tasks st)
    (List.filter (fun h => negb (bool_decide (h.1.1 = g.1.1))) (guards st)) (answered st).

(** What a caller makes of its answer: the [expect] of the downcast. *)
Definition downcast (expected : nat) (r : result Fetched StorageError) :
    option (result (V * list (option ETag)) StorageError) :=
  match r with
  | Err e => Some (Err e)
  | Ok ((t, v), e_tags) => if (t =? expected)%nat then Some (Ok (v, e_tags)) else None
  end.
End Dedup.
Arguments Adm : clear implicits.

(** ** Permits *)

(** [remaining_tokens]: the permits left at each priority. *)
Abbreviation Tokens := (list nat).

(** The loop over the priorities from the current one to the lowest one. *)
Fixpoint try_acquire_from (pri : nat) (n : nat) (tokens : Tokens) : option (nat * Tokens) :=
  match n with
  | O => None
  | S n =>
      match tokens !! pri with
      | Some (S n_left) => Some (pri, <[pri := n_left]> tokens)
      | _ => try_acquire_from (S pri) n tokens
      end
  end.

(** What one iteration of [acquire] does: a token, or waiting for one of the
    current priority or for a signal. *)
Inductive Acquired :=
| Token (pri : nat) (tokens : Tokens)
| WaitAt (pri : nat).

(** A priority that has no semaphore is an index out of bounds. *)
Definition acquire_round (h : PriorityHolder) (tokens : Tokens) : option Acquired :=
  let current := as_usize (holder_priority h) in
  if (length tokens <=? current)%nat then None else
  let last := Nat.min (as_usize lowest) (length tokens - 1) in
  match try_acquire_from current (S last - current) tokens with
  | Some (pri, tokens) => Some (Token pri tokens)
  | None => Some (WaitAt current)
  end.

(** The drop of a permit. *)
Definition release (pri : nat) (tokens : Tokens) : Tokens := alter S pri tokens.

(** ** The operations

    A permit delays a request and decides nothing else, so the operations of
    one caller are those of [S3Storage]. *)

Section Operations.
Context {C : S3Client}.
Variable self : S3Storage.

Definition parallel_fetch (key : string) : S3M (bytes * option ETag) :=
  s3_bind (get_key_ranges self key) (fun '(content_length, ranges, e_tag) w =>
    if content_length =? 0 then (Ok ([], e_tag), w) else
    let '(buf, w) := fill_ranges self key content_length ranges w in
    (Ok (buf, e_tag), w)).

Definition read_from_storage (key : string) : S3M (bytes * option ETag) := s3_get_with_e_tag key.

Definition strongly_consistent_get_with_e_tag (key : string) : S3M (bytes * option ETag) :=
  read_from_storage key.

(** The reads of a task, or of a strongly consistent call, one per key. *)
Fixpoint fetch_all (read : string -> S3M (bytes * option ETag)) (ks : list string) (w : s3_world) :
    list (result (bytes * option ETag) StorageError) * s3_world :=
  match ks with
  | [] => ([], w)
  | k :: ks =>
      let '(r, w) := read k w in
      let '(rs, w) := fetch_all read ks w in
      (r :: rs, w)
  end.

(** [get_with_e_tag] with strong consistency; [results.into_iter().next().unwrap()]
    is the only result. *)
Definition ac_get_strong (key : string) : S3M (bytes * option ETag) := fun w =>
  let '(rs, w) := fetch_all strongly_consistent_get_with_e_tag [key] w in
  (match execute_batch_fetch (fun rs => match rs with r :: _ => r | [] => Err Generic end) rs with
   | Ok (b, e_tags) => Ok (b, match e_tags with t :: _ => t | [] => None end)
   | Err e => Err e
   end, w).

(** The parts are uploaded one after the other, each under a permit. *)
Definition ac_put_object (key : string) (total_size_bytes : Z) (f : Z -> Z -> result bytes StorageError)
    (options : PutOptions) : S3M (option ETag) :=
  if is_oneshot_upload self total_size_bytes
  then oneshot_upload key total_size_bytes f options
  else s3_bind (multipart_upload self key total_size_bytes f options) (fun _ => s3_ret (Ok None)).

Definition ac_put_bytes (key : string) (b : bytes) (options : PutOptions) : S3M (option ETag) :=
  ac_put_object key (Z.of_nat (length b)) (fun lo hi => Ok (slice b lo hi)) options.

(** The part of [Storage::AdmissionControlledS3] that wal3 uses, with reads
    that are strongly consistent. *)
Definition ac_store : ObjectStore := {|
  world := s3_world;
  objects := s3_objects;
  get_with_e_tag := ac_get_strong;
  put_bytes := ac_put_bytes;
  delete k := s3_delete k DeleteOptions_default;
  delete_many ks w :=
    let '(r, w) := s3_delete_many ks w in
    (match r with Ok d => Ok (delete_errors d) | Err e => Err e end, w);
  copy_object := s3_copy self;
  list_prefix := s3_list_prefix;
  confirm_same := confirm_same_s3;
  backoff_next := s3_backoff_next;
  now := s3_now;
  system_time := s3_system_time;
|}.
End Operations.
