(* ===== verification/Types.v ===== *)
(** * The data of the log

    [rust/wal3/src/lib.rs] and the records of [rust/wal3/src/manifest.rs]: log
    positions, fragment sequence numbers, fragments, snapshots, manifests,
    options, scrub results and errors. *)

From S2P Require Import Prelude Setsum Storage.

#[local] Open Scope Z_scope.
#[local] Open Scope wal_scope.

(** ** UUIDs

    The crate uuid is a parameter.  A UUID is compared as a number. *)

Abbreviation Uuid := Z (only parsing).

Class Uuids := {
  uuid_to_string : Uuid -> string;
  uuid_from_str : string -> option Uuid;
}.

Class UuidLaws (UU : Uuids) : Prop := {
  uuid_roundtrip : forall u, uuid_from_str (uuid_to_string u) = Some u;
}.

(** ** LogPosition *)

Record LogPosition := from_offset { offset : Z }.

#[global] Instance LogPosition_eq_dec : EqDecision LogPosition.
Proof. solve_decision. Defined.

Module LogPosition.
Definition MAX : LogPosition := from_offset u64_max.
Definition MIN : LogPosition := from_offset 0.

Definition contains_offset (start end_ : LogPosition) (o : Z) : bool :=
  (offset start <=? o) && (o <? offset end_).

(** [Add<u64>] and [Add<usize>]. *)
Definition add (p : LogPosition) (n : Z) : LogPosition :=
  from_offset (wrapping_add (offset p) n).
(** [Sub<u64>]. *)
Definition sub (p : LogPosition) (n : Z) : LogPosition :=
  from_offset (wrapping_sub (offset p) n).
(** [Sub<LogPosition>]: an unchecked [u64] subtraction. *)
Definition diff (p q : LogPosition) : Z := wrapping_sub (offset p) (offset q).

(** The derived order. *)
Definition leb (p q : LogPosition) : bool := offset p <=? offset q.
Definition ltb (p q : LogPosition) : bool := offset p <? offset q.
End LogPosition.

Lemma LogPosition_eq p q : offset p = offset q -> p = q.
Proof. destruct p, q; simpl; congruence. Qed.

(** ** FragmentSeqNo *)

Record FragmentSeqNo := mkSeqNo { fsn : Z }.

#[global] Instance FragmentSeqNo_eq_dec : EqDecision FragmentSeqNo.
Proof. solve_decision. Defined.

Lemma FragmentSeqNo_eq p q : fsn p = fsn q -> p = q.
Proof. destruct p, q; simpl; congruence. Qed.

Module FragmentSeqNo.
Definition BEGIN : FragmentSeqNo := mkSeqNo 1.

Definition successor (s : FragmentSeqNo) : option FragmentSeqNo :=
  if fsn s =? u64_max then None else Some (mkSeqNo (fsn s + 1)).

Definition bucket (s : FragmentSeqNo) : Z := fsn s / 4096 * 4096.

(** [Add<u64>] and [AddAssign<u64>]. *)
Definition add (s : FragmentSeqNo) (n : Z) : FragmentSeqNo :=
  mkSeqNo (wrapping_add (fsn s) n).
(** [Sub<FragmentSeqNo>]. *)
Definition sub (s t : FragmentSeqNo) : Z := wrapping_sub (fsn s) (fsn t).

Definition leb (s t : FragmentSeqNo) : bool := fsn s <=? fsn t.
Definition ltb (s t : FragmentSeqNo) : bool := fsn s <? fsn t.
End FragmentSeqNo.

(** ** Options *)

Record ThrottleOptions := mkThrottleOptions {
  batch_size_bytes : Z;
  batch_interval_us : Z;
  throughput : Z;
  headroom : Z;
}.

Definition ThrottleOptions_default : ThrottleOptions :=
  mkThrottleOptions 64000000 100000 2000 1500.

Record SnapshotOptions := mkSnapshotOptions {
  snapshot_rollover_threshold : nat;
  fragment_rollover_threshold : nat;
}.

Definition SnapshotPointer_JSON_SIZE_ESTIMATE : Z := 142.
Definition Fragment_JSON_SIZE_ESTIMATE : Z := 256.

Definition SnapshotOptions_default : SnapshotOptions :=
  mkSnapshotOptions
    (Z.to_nat (Z.shiftl 1 18 / SnapshotPointer_JSON_SIZE_ESTIMATE))
    (Z.to_nat (Z.shiftl 1 19 / Fragment_JSON_SIZE_ESTIMATE)).

Record LogWriterOptions := mkLogWriterOptions {
  throttle_fragment : ThrottleOptions;
  throttle_manifest : ThrottleOptions;
  snapshot_manifest : SnapshotOptions;
}.

(** ** Fragments, snapshots and manifests *)

Section Records.
Context {SS : SetsumSig}.

Record Fragment := mkFragment {
  frag_path : string;
  frag_seq_no : FragmentSeqNo;
  frag_start : LogPosition;
  frag_limit : LogPosition;
  frag_num_bytes : Z;
  frag_setsum : Setsum;
}.

#[global] Instance Fragment_eq_dec : EqDecision Fragment.
Proof. solve_decision. Defined.

Definition possibly_contains_position (f : Fragment) (p : LogPosition) : bool :=
  LogPosition.contains_offset (frag_start f) (frag_limit f) (offset p).

Record SnapshotPointer := mkSnapshotPointer {
  ptr_setsum : Setsum;
  path_to_snapshot : string;
  ptr_depth : Z;
  ptr_start : LogPosition;
  ptr_limit : LogPosition;
  ptr_num_bytes : Z;
}.

#[global] Instance SnapshotPointer_eq_dec : EqDecision SnapshotPointer.
Proof. solve_decision. Defined.

Record Snapshot := mkSnapshot {
  snap_path : string;
  snap_depth : Z;
  snap_setsum : Setsum;
  snap_writer : string;
  snap_snapshots : list SnapshotPointer;
  snap_fragments : list Fragment;
}.

#[global] Instance Snapshot_eq_dec : EqDecision Snapshot.
Proof. solve_decision. Defined.

Record Manifest := mkManifest {
  setsum : Setsum;
  collected : Setsum;
  acc_bytes : Z;
  writer : string;
  snapshots : list SnapshotPointer;
  fragments : list Fragment;
  initial_offset : option LogPosition;
  initial_seq_no : option FragmentSeqNo;
}.

#[global] Instance Manifest_eq_dec : EqDecision Manifest.
Proof. solve_decision. Defined.

Record Garbage := mkGarbage {
  snapshots_to_drop : list SnapshotPointer;
  snapshots_to_make : list Snapshot;
  snapshot_for_root : option SnapshotPointer;
  fragments_to_drop_start : FragmentSeqNo;
  fragments_to_drop_limit : FragmentSeqNo;
  setsum_to_discard : Setsum;
  first_to_keep : LogPosition;
}.

#[global] Instance Garbage_eq_dec : EqDecision Garbage.
Proof. solve_decision. Defined.

Record ManifestAndETag := mkManifestAndETag {
  stable_manifest : Manifest;
  stable_e_tag : ETag;
}.

(** ** Scrub results *)

Record ScrubSuccess := mkScrubSuccess {
  calculated_setsum : Setsum;
  bytes_read : Z;
  short_read : bool;
}.

#[global] Instance ScrubSuccess_eq_dec : EqDecision ScrubSuccess.
Proof. solve_decision. Defined.

(** Messages keep the fixed text of the [format!] calls; nothing reads the
    values interpolated into them. *)
Inductive ScrubError :=
| ScrubCorruptManifest (what : string)
| ScrubCorruptFragment (seq_no : FragmentSeqNo) (what : string)
| MismatchedPath (reference empirical : Fragment)
| MismatchedSeqNo (reference empirical : Fragment)
| MismatchedNumBytes (reference empirical : Fragment)
| MismatchedStart (reference empirical : Fragment)
| MismatchedLimit (reference empirical : Fragment)
| MismatchedSnapshotSetsum (reference : SnapshotPointer) (empirical : Snapshot)
| MismatchedFragmentSetsum (reference empirical : Fragment)
| MissingFragment (reference : Fragment)
| MissingFragmentBySetsumPath (sum : Setsum) (path : string)
| MissingSnapshotBySetsumPath (sum : Setsum) (path : string)
| MissingSnapshot (reference : SnapshotPointer)
| ScrubCorruptGarbage (what : string)
| CorruptSnapshotDrop (lhs rhs : Setsum)
| CorruptSnapshotReplace (old_snapshot_setsum new_snapshot_setsum dropped : Setsum)
| ScrubInternal (what : string)
| OverallMismatch (manifest observed : ScrubSuccess)
| ReplaceDroppedEverything (snapshot : SnapshotPointer).

Inductive SnapshotPointerOrFragmentSeqNo :=
| APointer (p : SnapshotPointer)
| ASeqNo (n : Z)
| Stringy (s : string).

(** ** Errors *)

Inductive Error :=
| Success
| UninitializedLog
| AlreadyInitialized
| GarbageCollected
| LogContentionDurable
| LogContentionRetry
| LogContentionFailure
| LogFull
| LogClosed
| EmptyBatch
| Backoff
| Internal
| MissingFragmentSequenceNumber (path : string)
| CorruptManifest (what : string)
| CorruptFragment (path : string)
| CorruptCursor (what : string)
| CorruptGarbage (what : string)
| NoSuchCursor (what : string)
| GarbageCollection (what : string)
| GarbageCollectionPrecondition (missing : SnapshotPointerOrFragmentSeqNo)
| ScrubError_ (e : ScrubError)
| ParquetError (what : string)
| StorageError_ (e : StorageError).

(** [impl ChromaError for Error]. *)
Definition error_code (e : Error) : ErrorCodes :=
  match e with
  | Success => CodeSuccess
  | UninitializedLog => CodeFailedPrecondition
  | AlreadyInitialized => CodeAlreadyExists
  | GarbageCollected => CodeNotFound
  | LogContentionDurable | LogContentionRetry | LogContentionFailure | LogFull => CodeAborted
  | LogClosed => CodeFailedPrecondition
  | EmptyBatch => CodeInvalidArgument
  | Backoff => CodeUnavailable
  | Internal | MissingFragmentSequenceNumber _ => CodeInternal
  | CorruptManifest _ | CorruptFragment _ | CorruptCursor _ | CorruptGarbage _ => CodeDataLoss
  | NoSuchCursor _ | GarbageCollection _ => CodeUnknown
  | GarbageCollectionPrecondition _ => CodeFailedPrecondition
  | ScrubError_ _ => CodeDataLoss
  | ParquetError _ => CodeUnknown
  | StorageError_ s => storage_error_code s
  end.
End Records.
