(* ===== verification/StateTable.v ===== *)
(** * The state hash table of the log service

    [rust/log-service/src/state_hash_table.rs]: a table of states that are
    created on demand, shared by handles and removed when the last handle of a
    finished state goes.

    An [Arc] is a number, and its strong count the number of places that hold
    it.  The body of [Handle::drop] runs under the mutex of the table, but the
    [Arc] in the handle is released after it: these are two steps, and other
    threads run between them. *)

From S2P Require Import Prelude.

Section Table.
Context {K : Type} `{Countable K}.

Record Handle := mkHandle {
  h_key : K;
  h_value : nat;
  (** In [drop], after the body. *)
  h_dropping : bool;
}.

Record StateHashTable := mkTable {
  entries : gmap K nat;
  handles : gmap nat Handle;
  next_value : nat;
  next_handle : nat;
}.

Definition StateHashTable_new : StateHashTable := mkTable ∅ ∅ 0 0.

(** [Arc::strong_count]: the references in the map and in handles. *)
Definition strong_count (v : nat) (t : StateHashTable) : nat :=
  size (filter (fun x : K * nat => x.2 = v) (entries t)) +
  size (filter (fun x : nat * Handle => h_value x.2 = v) (handles t)).

(** [Arc::new(V::from(key))]. *)
Definition new_value (t : StateHashTable) : nat * StateHashTable :=
  (next_value t, mkTable (entries t) (handles t) (S (next_value t)) (next_handle t)).

Definition set_entry (key : K) (v : nat) (t : StateHashTable) : StateHashTable :=
  mkTable (<[key := v]> (entries t)) (handles t) (next_value t) (next_handle t).

Definition Handle_new (key : K) (v : nat) (t : StateHashTable) : nat * StateHashTable :=
  (next_handle t, mkTable (entries t) (<[next_handle t := mkHandle key v false]> (handles t)) (next_value t) (S (next_handle t))).

Definition is_same (lhs rhs : Handle) : bool :=
  bool_decide (h_key lhs = h_key rhs) && bool_decide (h_value lhs = h_value rhs).

Definition arbitary_key (t : StateHashTable) : option K := head (map_to_list (entries t)).*1.

Definition create_state (key : K) (t : StateHashTable) : option nat * StateHashTable :=
  let '(v, t) := new_value t in
  match entries t !! key with
  | None => let '(h, t) := Handle_new key v (set_entry key v t) in (Some h, t)
  | Some _ => (None, t)
  end.

Definition get_state (key : K) (t : StateHashTable) : option nat * StateHashTable :=
  match entries t !! key with
  | Some v => let '(h, t) := Handle_new key v t in (Some h, t)
  | None => (None, t)
  end.

(** One round of [get_or_create_state], which holds the mutex; [None] asks for
    a round with a value. *)
Definition get_or_create_round (key : K) (value : option nat) (t : StateHashTable) : option nat * StateHashTable :=
  match entries t !! key, value with
  | None, None => (None, t)
  | None, Some v => let '(h, t) := Handle_new key v (set_entry key v t) in (Some h, t)
  | Some v, _ => let '(h, t) := Handle_new key v t in (Some h, t)
  end.

(** Both rounds, when no other thread runs between them. *)
Definition get_or_create_state (key : K) (t : StateHashTable) : option nat * StateHashTable :=
  match get_or_create_round key None t with
  | (Some h, t) => (Some h, t)
  | (None, t) => let '(v, t) := new_value t in get_or_create_round key (Some v) t
  end.

Definition clone_handle (h : nat) (t : StateHashTable) : option nat * StateHashTable :=
  match handles t !! h with
  | Some x => let '(h', t) := Handle_new (h_key x) (h_value x) t in (Some h', t)
  | None => (None, t)
  end.

(** The body of [Handle::drop]. *)
Definition drop_body (finished : nat -> bool) (h : nat) (t : StateHashTable) : StateHashTable :=
  match handles t !! h with
  | Some x =>
      let es := if bool_decide (strong_count (h_value x) t = 2%nat) && finished (h_value x)
                then delete (h_key x) (entries t) else entries t in
      mkTable es (<[h := mkHandle (h_key x) (h_value x) true]> (handles t)) (next_value t) (next_handle t)
  | None => t
  end.

(** The release of the fields. *)
Definition drop_fields (h : nat) (t : StateHashTable) : StateHashTable :=
  mkTable (entries t) (delete h (handles t)) (next_value t) (next_handle t).

(** ** Threads *)

Definition live (t : StateHashTable) (h : nat) (x : Handle) : Prop :=
  handles t !! h = Some x /\ h_dropping x = false.

(** A step of a thread, under the mutex; the last one is not.  The value of a
    second round was made by the thread before: [v] is not in use. *)
Inductive tstep (finished : nat -> bool) : relation StateHashTable :=
| ts_value t : tstep finished t (new_value t).2
| ts_create key t : tstep finished t (create_state key t).2
| ts_get key t : tstep finished t (get_state key t).2
| ts_round key t : tstep finished t (get_or_create_round key None t).2
| ts_round_value key v t :
    (v < next_value t)%nat -> strong_count v t = 0%nat ->
    tstep finished t (get_or_create_round key (Some v) t).2
| ts_clone h x t : live t h x -> tstep finished t (clone_handle h t).2
| ts_drop h x t : live t h x -> tstep finished t (drop_body finished h t)
| ts_release h x t : handles t !! h = Some x -> h_dropping x = true -> tstep finished t (drop_fields h t).
End Table.
Arguments Handle K : clear implicits.
Arguments StateHashTable K {_ _}.
