(* ===== verification/Paths.v ===== *)
(** * Object paths

    The names wal3 gives to the files of a log, and the functions that read
    them back: fragment paths ([rust/wal3/src/lib.rs]), manifest and snapshot
    paths ([rust/wal3/src/manifest.rs]), the garbage file
    ([rust/wal3/src/gc.rs]) and cursor names ([rust/wal3/src/cursors.rs]). *)

From S2P Require Import Prelude Setsum Storage Types.
From Stdlib Require Import Ascii.

#[local] Open Scope Z_scope.
#[local] Open Scope wal_scope.

(** ** [str] functions of the standard library *)

(** [str::strip_prefix]. *)
Fixpoint strip_prefix (p s : string) : option string :=
  match p, s with
  | EmptyString, _ => Some s
  | String a p, String b s => if Ascii.eqb a b then strip_prefix p s else None
  | String _ _, EmptyString => None
  end.

(** [str::strip_suffix]. *)
Fixpoint strip_suffix (p s : string) : option string :=
  if String.eqb p s then Some EmptyString
  else match s with
       | EmptyString => None
       | String a s => String a <$> strip_suffix p s
       end.

(** [str::rsplit_once] with a character pattern. *)
Fixpoint rsplit_once (c : ascii) (s : string) : option (string * string) :=
  match s with
  | EmptyString => None
  | String a s' =>
      match rsplit_once c s' with
      | Some (p, q) => Some (String a p, q)
      | None => if Ascii.eqb a c then Some (EmptyString, s') else None
      end
  end.

(** [str::trim_start_matches] with a character pattern. *)
Fixpoint trim_start_matches (c : ascii) (s : string) : string :=
  match s with
  | String a s' => if Ascii.eqb a c then trim_start_matches c s' else s
  | EmptyString => EmptyString
  end.

Fixpoint string_forall (p : ascii -> bool) (s : string) : bool :=
  match s with
  | EmptyString => true
  | String a s => p a && string_forall p s
  end.

(** [{:016x}] of a [u64]: sixteen lower-case hexadecimal digits. *)
Definition hex_digit (d : Z) : ascii :=
  ascii_of_N (Z.to_N (if d <? 10 then 48 + d else 87 + d)).

Fixpoint fmt_hex (width : nat) (n : Z) : string :=
  match width with
  | O => EmptyString
  | S w => String (hex_digit (n / 16 ^ Z.of_nat w mod 16)) (fmt_hex w n)
  end.

Definition fmt_016x (n : Z) : string := fmt_hex 16 n.

(** [char::to_digit(16)]. *)
Definition to_digit (a : ascii) : option Z :=
  let c := Z.of_N (N_of_ascii a) in
  if (48 <=? c) && (c <=? 57) then Some (c - 48)
  else if (97 <=? c) && (c <=? 102) then Some (c - 87)
  else if (65 <=? c) && (c <=? 70) then Some (c - 55)
  else None.

(** The digit loop of [u64::from_str_radix(_, 16)], with its overflow checks. *)
Fixpoint parse_hex (acc : Z) (s : string) : option Z :=
  match s with
  | EmptyString => Some acc
  | String a s =>
      match to_digit a with
      | Some d => let acc' := acc * 16 + d in
                  if acc' <=? u64_max then parse_hex acc' s else None
      | None => None
      end
  end.

(** [u64::from_str_radix(_, 16)]: a leading plus sign is allowed, an empty
    string is not. *)
Definition from_str_radix_16 (s : string) : option Z :=
  match s with
  | EmptyString => None
  | String "+"%char EmptyString => None
  | String "+"%char s => parse_hex 0 s
  | s => parse_hex 0 s
  end.

(** ** Fragment paths *)

Definition fragment_prefix : string := "log/".

Definition unprefixed_fragment_path (s : FragmentSeqNo) : string :=
  "log/Bucket=" +:+ fmt_016x (FragmentSeqNo.bucket s) +:+
  "/FragmentSeqNo=" +:+ fmt_016x (fsn s) +:+ ".parquet".

Definition prefixed_fragment_path (prefix : string) (s : FragmentSeqNo) : string :=
  prefix +:+ "/" +:+ fragment_prefix +:+ "Bucket=" +:+ fmt_016x (FragmentSeqNo.bucket s) +:+
  "/FragmentSeqNo=" +:+ fmt_016x (fsn s) +:+ ".parquet".

Definition parse_fragment_path (path : string) : option FragmentSeqNo :=
  '(_, basename) ← rsplit_once "/" path;
  fsn_equals_number ← strip_suffix ".parquet" basename;
  number ← strip_prefix "FragmentSeqNo=" fsn_equals_number;
  mkSeqNo <$> from_str_radix_16 number.

(** [reader::fragment_path]. *)
Definition fragment_path (prefix path : string) : string := prefix +:+ "/" +:+ path.

(** ** Manifest, snapshot and garbage paths *)

Definition unprefixed_manifest_path : string := "manifest/MANIFEST".
Definition manifest_path (prefix : string) : string :=
  prefix +:+ "/" +:+ unprefixed_manifest_path.
Definition garbage_path (prefix : string) : string := prefix +:+ "/gc/GARBAGE".
Definition snapshot_prefix : string := "snapshot/".

Section SnapshotPaths.
Context {SS : SetsumSig}.

Definition unprefixed_snapshot_path (s : Setsum) : string :=
  snapshot_prefix +:+ "SNAPSHOT." +:+ hexdigest s.

Definition snapshot_setsum (path : string) : result Setsum Error :=
  match strip_prefix "snapshot/SNAPSHOT." path with
  | None => Err (CorruptManifest "unparseable snapshot path")
  | Some digest =>
      match from_hexdigest digest with
      | None => Err (CorruptManifest "unparseable snapshot setsum")
      | Some s => Ok s
      end
  end.
End SnapshotPaths.

(** ** Cursor names *)

Module CursorName.
Record t := mk { name : string }.

(** [char::is_ascii_alphanumeric]. *)
Definition is_ascii_alphanumeric (a : ascii) : bool :=
  let c := Z.of_N (N_of_ascii a) in
  ((48 <=? c) && (c <=? 57)) || ((65 <=? c) && (c <=? 90)) || ((97 <=? c) && (c <=? 122)).

Definition validate (name : string) : bool :=
  negb (String.eqb name "") &&
  string_forall (fun c => is_ascii_alphanumeric c || Ascii.eqb c "_") name.

Definition new (name : string) : option t := if validate name then Some (mk name) else None.
Definition path (c : t) : string := "cursor/" +:+ name c +:+ ".json".
Definition from_path (path : string) : option t :=
  rest ← strip_prefix "cursor/" path;
  cursor_name ← strip_suffix ".json" rest;
  new cursor_name.
Definition is_valid (c : t) : bool := validate (name c).
End CursorName.

(** ** Lemmas on strings *)

Lemma string_app_cons a s1 s2 : String a s1 +:+ s2 = String a (s1 +:+ s2).
Proof. done. Qed.

Lemma strip_prefix_app p s : strip_prefix p (p +:+ s) = Some s.
Proof. induction p as [|a p IH]; simpl; [done|]. by rewrite Ascii.eqb_refl. Qed.

Lemma string_length_app (s1 s2 : string) :
  String.length (s1 +:+ s2) = (String.length s1 + String.length s2)%nat.
Proof. induction s1 as [|a s1 IH]; simpl; [done|]. by rewrite IH. Qed.

Lemma strip_suffix_unfold p s :
  strip_suffix p s =
  if String.eqb p s then Some EmptyString
  else match s with EmptyString => None | String a s => String a <$> strip_suffix p s end.
Proof. by destruct s. Qed.

Lemma strip_suffix_app p s : strip_suffix p (s +:+ p) = Some s.
Proof.
  induction s as [|a s IH].
  - rewrite strip_suffix_unfold. change (EmptyString +:+ p) with p. by rewrite String.eqb_refl.
  - rewrite string_app_cons, strip_suffix_unfold, IH.
    destruct (String.eqb_spec p (String a (s +:+ p))) as [He|]; [|done].
    apply (f_equal String.length) in He. cbn [String.length] in He.
    rewrite string_length_app in He. lia.
Qed.

Lemma rsplit_once_None c s :
  string_forall (fun a => negb (Ascii.eqb a c)) s = true -> rsplit_once c s = None.
Proof.
  induction s as [|a s IH]; simpl; [done|]. intros [Ha Hs]%andb_true_iff.
  rewrite (IH Hs). by apply negb_true_iff in Ha as ->.
Qed.

Lemma rsplit_once_app c s1 s2 :
  string_forall (fun a => negb (Ascii.eqb a c)) s2 = true ->
  rsplit_once c (s1 +:+ String c s2) = Some (s1, s2).
Proof.
  intros Hs. induction s1 as [|a s1 IH].
  - change (EmptyString +:+ String c s2) with (String c s2). cbn [rsplit_once].
    by rewrite (rsplit_once_None _ _ Hs), Ascii.eqb_refl.
  - rewrite string_app_cons. cbn [rsplit_once]. by rewrite IH.
Qed.

Lemma string_forall_app p s1 s2 :
  string_forall p (s1 +:+ s2) = string_forall p s1 && string_forall p s2.
Proof.
  induction s1 as [|a s1 IH]; [done|]. rewrite string_app_cons. cbn [string_forall].
  by rewrite IH, andb_assoc.
Qed.

(** The sixteen digits. *)
Lemma hex_digit_spec d : 0 <= d < 16 ->
  to_digit (hex_digit d) = Some d /\ hex_digit d <> "/"%char /\ hex_digit d <> "+"%char.
Proof.
  intros Hd.
  assert (d = 0 \/ d = 1 \/ d = 2 \/ d = 3 \/ d = 4 \/ d = 5 \/ d = 6 \/ d = 7 \/ d = 8 \/ d = 9 \/
          d = 10 \/ d = 11 \/ d = 12 \/ d = 13 \/ d = 14 \/ d = 15) as Hc by lia.
  repeat destruct Hc as [->|Hc]; try subst d; vm_compute; repeat split; discriminate.
Qed.

Lemma fmt_hex_no_slash w n :
  string_forall (fun a => negb (Ascii.eqb a "/")) (fmt_hex w n) = true.
Proof.
  induction w as [|w IH]; cbn [fmt_hex string_forall]; [done|].
  rewrite IH, andb_true_r, negb_true_iff, Ascii.eqb_neq.
  apply hex_digit_spec, Z.mod_pos_bound. lia.
Qed.

Lemma parse_fmt_hex w acc n :
  0 <= n < 16 ^ Z.of_nat w -> 0 <= acc -> acc * 16 ^ Z.of_nat w + n <= u64_max ->
  parse_hex acc (fmt_hex w n) = Some (acc * 16 ^ Z.of_nat w + n).
Proof.
  assert (forall w' m, fmt_hex w' m = fmt_hex w' (m mod 16 ^ Z.of_nat w')) as Hmod.
  { clear. intros w'. induction w' as [|k IH]; intros m; [done|].
    cbn [fmt_hex]. rewrite Nat2Z.inj_succ, Z.pow_succ_r by lia.
    assert (0 < 16 ^ Z.of_nat k) by (apply Z.pow_pos_nonneg; lia).
    f_equal.
    - f_equal. rewrite (Z.mul_comm 16), Z.rem_mul_r by lia.
      rewrite (Z.mul_comm (16 ^ Z.of_nat k)), Z.div_add by lia.
      rewrite (Z.div_small (m mod _)) by (apply Z.mod_pos_bound; lia).
      rewrite Z.add_0_l. by rewrite Z.mod_mod by lia.
    - rewrite (IH m), (IH (m mod (16 * _))). f_equal.
      symmetry. apply Z.mod_mod_divide. exists 16. lia. }
  revert acc n. induction w as [|w IH]; intros acc n Hn Hacc Hmax.
  { simpl in *. f_equal. lia. }
  cbn [fmt_hex parse_hex]. rewrite Nat2Z.inj_succ, Z.pow_succ_r in * by lia.
  set (p := 16 ^ Z.of_nat w) in *.
  assert (0 < p) by (apply Z.pow_pos_nonneg; lia).
  assert (0 <= n / p < 16) as Hd by (split; [apply Z.div_pos|apply Z.div_lt_upper_bound]; lia).
  rewrite (Z.mod_small (n / p)) by done.
  destruct (hex_digit_spec _ Hd) as [-> _].
  pose proof (Z.div_mod n p ltac:(lia)) as Hdm.
  pose proof (Z.mod_pos_bound n p ltac:(lia)) as Hb.
  destruct (Z.leb_spec (acc * 16 + n / p) u64_max); [|nia].
  rewrite Hmod. fold p. rewrite IH; [f_equal; nia|done|nia|nia].
Qed.

Lemma parse_fmt_016x n : is_u64 n -> from_str_radix_16 (fmt_016x n) = Some n.
Proof.
  intros Hn. unfold is_u64, u64_max in Hn. unfold from_str_radix_16, fmt_016x.
  assert (parse_hex 0 (fmt_hex 16 n) = Some n) as Hp.
  { rewrite parse_fmt_hex; [f_equal; lia| |lia|unfold u64_max]; simpl; lia. }
  revert Hp. cbn [fmt_hex]. intros Hp.
  destruct (hex_digit_spec (n / 16 ^ Z.of_nat 15 mod 16)) as (_ & _ & Hplus);
    [apply Z.mod_pos_bound; lia|].
  revert Hp Hplus. generalize (hex_digit (n / 16 ^ Z.of_nat 15 mod 16)).
  intros a. generalize (hex_digit (n / 16 ^ Z.of_nat 14 mod 16)). intros b Hp Hplus.
  destruct a as [[] [] [] [] [] [] [] []]; try exact Hp; congruence.
Qed.

Lemma strip_prefix_Some p s r : strip_prefix p s = Some r -> s = p +:+ r.
Proof.
  revert s. induction p as [|a p IH]; intros s; cbn; [by intros [= ->]|].
  destruct s as [|b s]; [done|]. destruct (Ascii.eqb_spec a b) as [->|]; [|done].
  intros ->%IH. done.
Qed.

Lemma strip_suffix_Some p s r : strip_suffix p s = Some r -> s = r +:+ p.
Proof.
  revert r. induction s as [|a s IH]; intros r; rewrite strip_suffix_unfold.
  { destruct (String.eqb_spec p "") as [->|]; [by intros [= <-]|done]. }
  destruct (String.eqb_spec p (String a s)) as [->|]; [by intros [= <-]|].
  destruct (strip_suffix p s) as [r'|]; [|done]. intros [= <-]. rewrite string_app_cons. f_equal. by apply IH.
Qed.

Lemma string_prefix_app s t : String.prefix s (s +:+ t) = true.
Proof. induction s as [|a s IH]; [by destruct t|].
  rewrite string_app_cons. cbn [String.prefix]. by destruct (Ascii.ascii_dec a a).
Qed.
