(* ===== verification/S3Heap.v ===== *)
(** * A heap on object storage

    [rust/s3heap/src/lib.rs] and [rust/s3heap/src/internal.rs]: tasks that are
    due at some minute are kept in one object per minute, the bucket.  Writers
    merge tasks into buckets, readers peek at those that are due and not done,
    and pruners remove the ones that are done.

    The crates chrono, uuid and parquet and the implementations of
    [HeapScheduler] are parameters.  Buckets that the source writes
    concurrently are written in order. *)

From stdpp Require Import pretty.
From S2P Require Import Prelude Setsum Storage Types Paths.

#[local] Open Scope Z_scope.

(** ** Other crates *)

(** An instant, in nanoseconds since the epoch. *)
Abbreviation DateTime := Z (only parsing).

Class Chrono := {
  second : DateTime -> Z;
  nanosecond : DateTime -> Z;
  (** [duration_trunc(TimeDelta::minutes(1))]. *)
  duration_trunc : DateTime -> option DateTime;
  (** [naive_utc().format] with the format of bucket names. *)
  format_utc : DateTime -> string;
  parse_from_rfc3339 : string -> option DateTime;
}.

(** A column of a batch: strings, with nulls, or something else. *)
Inductive HeapColumn :=
| StringArray (l : list (option string))
| OtherArray.

Record HeapBatch := mkHeapBatch {
  hb_num_rows : nat;
  column_by_name : string -> option HeapColumn;
}.

Class HeapParquet := {
  (** The batches of a file, each of which may fail to be read. *)
  open_parquet : bytes -> option (list (option HeapBatch));
  write_parquet : list (string * list string) -> option bytes;
}.

Module Heap.

(** ** Data *)

Record Triggerable := mkTriggerable {
  partitioning : Uuid;
  scheduling : Uuid;
}.

Record HeapItem := mkHeapItem {
  trigger : Triggerable;
  nonce : Uuid;
}.

Record Schedule := mkSchedule {
  triggerable : Triggerable;
  next_scheduled : DateTime;
  schedule_nonce : Uuid;
}.

#[global] Instance Triggerable_eq_dec : EqDecision Triggerable.
Proof. solve_decision. Defined.
#[global] Instance HeapItem_eq_dec : EqDecision HeapItem.
Proof. solve_decision. Defined.

(** The derived order of [HeapItem]. *)
Definition heap_le (a b : HeapItem) : Prop :=
  partitioning (trigger a) < partitioning (trigger b) \/
  partitioning (trigger a) = partitioning (trigger b) /\
    (scheduling (trigger a) < scheduling (trigger b) \/
     scheduling (trigger a) = scheduling (trigger b) /\ nonce a <= nonce b).

#[global] Instance heap_le_dec : RelDecision heap_le.
Proof. intros a b. unfold heap_le. apply _. Defined.

(** What is wrong with a row of a bucket. *)
Inductive RowError :=
| NullValue (row : nat)
| InvalidPartitioning (row : nat)
| InvalidScheduling (row : nat)
| InvalidNonce (row : nat).

Inductive Error :=
| ETagConflict
| MissingETag (m : string)
| Internal (m : string)
| InvalidBucket (bucket : DateTime)
| PartialLoadFailure (n : nat) (first : list RowError)
| InvalidPrefix (m : string)
| UninitializedHeap (prefix : string)
| StorageErr (e : StorageError)
| UuidError
| ParquetError
| Arrow (m : string)
| JsonError
| ParseDate
| RoundError.

Definition code (e : Error) : ErrorCodes :=
  match e with
  | ETagConflict => CodeFailedPrecondition
  | MissingETag _ => CodeFailedPrecondition
  | Internal _ => CodeInternal
  | InvalidBucket _ => CodeInvalidArgument
  | PartialLoadFailure _ _ => CodeInternal
  | InvalidPrefix _ => CodeInvalidArgument
  | UninitializedHeap _ => CodeFailedPrecondition
  | StorageErr e => storage_error_code e
  | UuidError => CodeInvalidArgument
  | ParquetError => CodeInternal
  | JsonError => CodeInternal
  | Arrow _ => CodeInternal
  | ParseDate => CodeInvalidArgument
  | RoundError => CodeInternal
  end.

Definition heap_path_from_hostname (hostname : string) : string := "heap/" +:+ hostname.

Record Limits := mkLimits {
  buckets_to_read : option nat;
  max_items : option nat;
  time_cut_off : option DateTime;
}.

Definition Limits_default : Limits := mkLimits None None None.
Definition with_buckets (n : nat) (l : Limits) : Limits := mkLimits (Some n) (max_items l) (time_cut_off l).
Definition with_items (n : nat) (l : Limits) : Limits := mkLimits (buckets_to_read l) (Some n) (time_cut_off l).
Definition with_time_cut_off (t : DateTime) (l : Limits) : Limits :=
  mkLimits (buckets_to_read l) (max_items l) (Some t).

Definition DEFAULT_BUCKETS_TO_READ : nat := 1000.
Definition max_buckets (l : Limits) : nat := default DEFAULT_BUCKETS_TO_READ (buckets_to_read l).

Record PruneStats := mkPruneStats {
  items_pruned : nat;
  items_retained : nat;
  buckets_deleted : nat;
  buckets_updated : nat;
}.

Definition PruneStats_default : PruneStats := mkPruneStats 0 0 0 0.

Definition merge_stats (a b : PruneStats) : PruneStats :=
  mkPruneStats (items_pruned a + items_pruned b) (items_retained a + items_retained b)
    (buckets_deleted a + buckets_deleted b) (buckets_updated a + buckets_updated b).

(** [RetryConfig::default().max_retries] and [Configuration::default().min_age_for_deletion],
    in nanoseconds. *)
Definition MAX_RETRIES : nat := 10.
Definition MIN_AGE_FOR_DELETION : Z := 300 * 1000000000.

(** ** Merging *)

(** [Vec::dedup_by_key]: of neighbours with the same key the first is kept. *)
Fixpoint dedup_by_trigger (l : list HeapItem) : list HeapItem :=
  match l with
  | x :: ((y :: _) as l') =>
      match dedup_by_trigger l' with
      | z :: r => if bool_decide (trigger x = trigger y) then x :: r else x :: z :: r
      | [] => [x]
      end
  | _ => l
  end.

(** The items of a bucket after a merge: [sort], [reverse], [dedup_by_key], [reverse]. *)
Definition merge_items (kept entries : list HeapItem) : list HeapItem :=
  reverse (dedup_by_trigger (reverse (merge_sort heap_le (kept ++ entries)))).

(** The items that are not done. *)
Definition not_done (items : list HeapItem) (dones : list bool) : list HeapItem :=
  omap (fun x => if (x.2 : bool) then None else Some x.1) (zip items dones).

Section Operations.
Context {OS : ObjectStore} {CH : Chrono} {UU : Uuids} {HP : HeapParquet}.

(** [HeapScheduler::are_done]. *)
Variable are_done : list (Triggerable * Uuid) -> world -> result (list bool) Error * world.
Variable prefix : string.

Definition H (A : Type) : Type := world -> result A Error * world.

Definition ret {A} (a : A) : H A := fun w => (Ok a, w).
Definition throw {A} (e : Error) : H A := fun w => (Err e, w).
Definition bind {A B} (c : H A) (k : A -> H B) : H B := fun w =>
  match c w with
  | (Ok a, w) => k a w
  | (Err e, w) => (Err e, w)
  end.
Definition request {A} (f : world -> result A StorageError * world) : H A := fun w =>
  match f w with
  | (Ok a, w) => (Ok a, w)
  | (Err e, w) => (Err (StorageErr e), w)
  end.

(** [retry(backoff)]: every error is retried, [n] times at most. *)
Fixpoint retry {A} (n : nat) (c : H A) : H A := fun w =>
  match c w with
  | (Ok a, w) => (Ok a, w)
  | (Err e, w) => match n with O => (Err e, w) | S n => retry n c w end
  end.

(** The provided methods of [HeapScheduler]; [get_schedules] is the other
    method that an implementation has. *)
Definition is_done (item : Triggerable) (nonce : Uuid) : H bool :=
  bind (are_done [(item, nonce)]) (fun results =>
    match results with
    | [r] => ret r
    | _ => throw (Internal ("are_done returned " +:+ pretty (length results) +:+ " results for 1 item"))
    end).

Definition get_schedule (get_schedules : list Uuid -> H (list Schedule)) (id : Uuid) : H (option Schedule) :=
  bind (get_schedules [id]) (fun results => ret (last results)).

(** *** Buckets *)

Definition path_for_bucket (bucket : DateTime) : string := prefix +:+ "/" +:+ format_utc bucket.

Definition compute_bucket (when : DateTime) : result DateTime Error :=
  match duration_trunc when with
  | Some b => Ok b
  | None => Err RoundError
  end.

Definition minute_aligned (bucket : DateTime) : bool := (second bucket =? 0) && (nanosecond bucket =? 0).

Definition COLUMN_PARTITIONING_UUIDS : string := "partitioning_uuids".
Definition COLUMN_SCHEDULING_UUIDS : string := "scheduling_uuids".
Definition COLUMN_NONCES : string := "nonces".

Definition get_string_column (batch : HeapBatch) (name path : string) : result (list (option string)) Error :=
  match column_by_name batch name with
  | None => Err (Arrow ("missing '" +:+ name +:+ "' column in parquet file: " +:+ path))
  | Some OtherArray => Err (Arrow ("'" +:+ name +:+ "' column is not a StringArray in " +:+ path))
  | Some (StringArray l) => Ok l
  end.

(** One row: the item, or what is wrong with it. *)
Definition parse_row (i : nat) (p s n : option string) : result HeapItem RowError :=
  match p, s, n with
  | Some p, Some s, Some n =>
      match uuid_from_str p, uuid_from_str s, uuid_from_str n with
      | Some p, Some s, Some n => Ok (mkHeapItem (mkTriggerable p s) n)
      | None, _, _ => Err (InvalidPartitioning i)
      | _, None, _ => Err (InvalidScheduling i)
      | _, _, None => Err (InvalidNonce i)
      end
  | _, _, _ => Err (NullValue i)
  end.

(** The loop over the rows of a batch; a missing row reads as a null. *)
Fixpoint parse_rows (i n : nat) (ps ss ns : list (option string)) (items : list HeapItem)
    (errors : list RowError) : list HeapItem * list RowError :=
  match n with
  | O => (items, errors)
  | S n =>
      match parse_row i (default None (ps !! i)) (default None (ss !! i)) (default None (ns !! i)) with
      | Ok item => parse_rows (S i) n ps ss ns (items ++ [item]) errors
      | Err e => parse_rows (S i) n ps ss ns items (errors ++ [e])
      end
  end.

Definition load_batch (path : string) (items : list HeapItem) (batch : HeapBatch) : result (list HeapItem) Error :=
  result_bind (get_string_column batch COLUMN_PARTITIONING_UUIDS path) (fun ps =>
  result_bind (get_string_column batch COLUMN_SCHEDULING_UUIDS path) (fun ss =>
  result_bind (get_string_column batch COLUMN_NONCES path) (fun ns =>
    let '(items, errors) := parse_rows 0 (hb_num_rows batch) ps ss ns items [] in
    if bool_decide (errors = []) then Ok items
    else Err (PartialLoadFailure (length errors) (take 3 errors))))).

Fixpoint load_batches (path : string) (items : list HeapItem) (batches : list (option HeapBatch)) :
    result (list HeapItem) Error :=
  match batches with
  | [] => Ok items
  | None :: _ => Err (Arrow "could not read a batch")
  | Some b :: batches => result_bind (load_batch path items b) (fun items => load_batches path items batches)
  end.

(** The items in the bytes of a bucket. *)
Definition decode_bucket (path : string) (b : bytes) : result (list HeapItem) Error :=
  match open_parquet b with
  | None => Err ParquetError
  | Some batches => load_batches path [] batches
  end.

Definition load_bucket (bucket : DateTime) : H (list HeapItem * option ETag) :=
  if negb (minute_aligned bucket) then throw (InvalidBucket bucket) else
  let path := path_for_bucket bucket in
  bind (request (get_with_e_tag path)) (fun '(parquet, e_tag) w =>
    match decode_bucket path parquet with
    | Ok items => (Ok (items, e_tag), w)
    | Err e => (Err e, w)
    end).

Definition load_bucket_or_empty (bucket : DateTime) : H (list HeapItem * option ETag) := fun w =>
  match load_bucket bucket w with
  | (Err (StorageErr (NotFound _)), w) => (Ok ([], None), w)
  | r => r
  end.

Definition construct_parquet (items : list HeapItem) : result bytes Error :=
  match write_parquet
    [(COLUMN_PARTITIONING_UUIDS, (fun x => uuid_to_string (partitioning (trigger x))) <$> items);
     (COLUMN_SCHEDULING_UUIDS, (fun x => uuid_to_string (scheduling (trigger x))) <$> items);
     (COLUMN_NONCES, (fun x => uuid_to_string (nonce x)) <$> items)] with
  | Some b => Ok b
  | None => Err ParquetError
  end.

Definition store_options (e_tag : option ETag) : PutOptions :=
  match e_tag with
  | Some t => if_matches t
  | None => if_not_exists
  end.

Definition store_bucket (bucket : DateTime) (items : list HeapItem) (e_tag : option ETag) : H unit :=
  if negb (minute_aligned bucket) then throw (InvalidBucket bucket) else
  match construct_parquet items with
  | Err e => throw e
  | Ok buffer =>
      bind (retry MAX_RETRIES (request (put_bytes (path_for_bucket bucket) buffer (store_options e_tag))))
        (fun _ => ret tt)
  end.

Definition clear_bucket (bucket : DateTime) : H unit := request (delete (path_for_bucket bucket)).

Definition trigger_and_nonce (x : HeapItem) : Triggerable * Uuid := (trigger x, nonce x).

(** One attempt of [merge_on_s3].  The answers are zipped with the items: items
    without an answer are dropped. *)
Definition merge_once (bucket : DateTime) (entries : list HeapItem) : H unit :=
  bind (load_bucket_or_empty bucket) (fun '(on_s3, e_tag) =>
    bind (are_done (trigger_and_nonce <$> on_s3)) (fun dones =>
      store_bucket bucket (merge_items (not_done on_s3 dones) entries) e_tag)).

Definition merge_on_s3 (bucket : DateTime) (entries : list HeapItem) : H unit :=
  retry MAX_RETRIES (merge_once bucket entries).

(** *** Listing *)

Definition ends_with (suffix s : string) : bool :=
  match strip_suffix suffix s with Some _ => true | None => false end.

Definition parse_bucket_path (p : string) : result DateTime Error :=
  match strip_prefix prefix p with
  | None => Err (Internal ("invalid prefix returned from list: expected path to start with '" +:+ prefix
                           +:+ "', got '" +:+ p +:+ "'"))
  | Some s =>
      let dt := trim_start_matches (Ascii.ascii_of_nat 47) s in
      if String.eqb dt "" then Err (Internal ("empty timestamp in path: " +:+ p))
      else match parse_from_rfc3339 dt with
           | Some d => Ok d
           | None => Err ParseDate
           end
  end.

Fixpoint collect_buckets (paths : list string) : result (list DateTime) Error :=
  match paths with
  | [] => Ok []
  | p :: paths =>
      if ends_with "INIT" p then collect_buckets paths
      else result_bind (parse_bucket_path p) (fun d =>
           result_bind (collect_buckets paths) (fun ds => Ok (d :: ds)))
  end.

Definition list_approx_first_1k_buckets : H (list DateTime) :=
  bind (request (list_prefix prefix)) (fun paths w => (collect_buckets paths, w)).

(** *** The writer *)

Fixpoint contains_double_slash (s : string) : bool :=
  match s with
  | String a ((String b _) as s') =>
      (Ascii.eqb a (Ascii.ascii_of_nat 47) && Ascii.eqb b (Ascii.ascii_of_nat 47)) || contains_double_slash s'
  | _ => false
  end.

Definition validate_prefix : result unit Error :=
  if String.eqb prefix "" then Err (InvalidPrefix "prefix cannot be empty")
  else if contains_double_slash prefix then Err (InvalidPrefix "prefix cannot contain double slashes")
  else Ok tt.

Definition init_path : string := prefix +:+ "/INIT".

Definition HeapWriter_new : H unit :=
  match validate_prefix with
  | Err e => throw e
  | Ok _ => bind (request (put_bytes init_path [] (mkPutOptions false None))) (fun _ => ret tt)
  end.

(** [buckets.entry(bucket).or_default().push(item)] on the ordered map. *)
Fixpoint push_entry (bucket : DateTime) (item : HeapItem) (m : list (DateTime * list HeapItem)) :
    list (DateTime * list HeapItem) :=
  match m with
  | [] => [(bucket, [item])]
  | (b, items) :: m =>
      if bucket <? b then (bucket, [item]) :: (b, items) :: m
      else if bucket =? b then (b, items ++ [item]) :: m
      else (b, items) :: push_entry bucket item m
  end.

Fixpoint group_schedules (schedules : list Schedule) (m : list (DateTime * list HeapItem)) :
    result (list (DateTime * list HeapItem)) Error :=
  match schedules with
  | [] => Ok m
  | s :: schedules =>
      result_bind (compute_bucket (next_scheduled s)) (fun bucket =>
        group_schedules schedules (push_entry bucket (mkHeapItem (triggerable s) (schedule_nonce s)) m))
  end.

Fixpoint merge_all (buckets : list (DateTime * list HeapItem)) : H unit :=
  match buckets with
  | [] => ret tt
  | (bucket, entries) :: buckets => bind (merge_on_s3 bucket entries) (fun _ => merge_all buckets)
  end.

Definition push (schedules : list Schedule) : H unit :=
  if bool_decide (schedules = []) then ret tt else
  match group_schedules schedules [] with
  | Err e => throw e
  | Ok buckets => merge_all buckets
  end.

(** *** The pruner *)

Definition HeapPruner_new : result unit Error := validate_prefix.

Definition wrong_count (results items : nat) : Error :=
  Internal ("scheduler returned " +:+ pretty results +:+ " results for " +:+ pretty items +:+ " items").

Definition prune_bucket_inner (bucket : DateTime) : H PruneStats :=
  bind (load_bucket_or_empty bucket) (fun '(entries, e_tag) =>
    if bool_decide (entries = []) then ret PruneStats_default else
    bind (are_done (trigger_and_nonce <$> entries)) (fun dones =>
      if negb (length entries =? length dones)%nat
      then throw (wrong_count (length dones) (length entries))
      else
        let to_retain := not_done entries dones in
        bind (if bool_decide (to_retain = []) then
                fun w => let '(t, w) := system_time w in
                         if MIN_AGE_FOR_DELETION <=? t * 1000 - bucket
                         then bind (clear_bucket bucket) (fun _ => ret (1, 0)%nat) w
                         else ret (0, 0)%nat w
              else if negb (length to_retain =? length entries)%nat
                   then bind (store_bucket bucket to_retain e_tag) (fun _ => ret (0, 1)%nat)
                   else ret (0, 0)%nat)
          (fun '(deleted, updated) =>
             ret (mkPruneStats (length entries - length to_retain) (length to_retain) deleted updated)))).

Definition prune_bucket (bucket : DateTime) : H PruneStats := retry MAX_RETRIES (prune_bucket_inner bucket).

Definition past_cut_off (limits : Limits) (bucket : DateTime) : bool :=
  match time_cut_off limits with
  | Some t => t <? bucket
  | None => false
  end.

Fixpoint prune_buckets (limits : Limits) (buckets : list DateTime) (total : PruneStats) : H PruneStats :=
  match buckets with
  | [] => ret total
  | bucket :: buckets =>
      if past_cut_off limits bucket then ret total
      else if match max_items limits with
              | Some n => (n <=? items_pruned total + items_retained total)%nat
              | None => false
              end then ret total
      else bind (prune_bucket bucket) (fun stats => prune_buckets limits buckets (merge_stats total stats))
  end.

Definition prune (limits : Limits) : H PruneStats :=
  bind list_approx_first_1k_buckets (fun buckets =>
    prune_buckets limits (take (max_buckets limits) buckets) PruneStats_default).

(** *** The reader *)

Definition HeapReader_new : H unit :=
  match validate_prefix with
  | Err e => throw e
  | Ok _ => fun w =>
      match get_with_e_tag init_path w with
      | (Ok _, w) => (Ok tt, w)
      | (Err (NotFound _), w) => (Err (UninitializedHeap prefix), w)
      | (Err e, w) => (Err (StorageErr e), w)
      end
  end.

(** The loop over the answers of a bucket: stops when there are enough items. *)
Fixpoint take_due (limit : option nat) (bucket : DateTime) (items : list (HeapItem * bool))
    (returns : list (DateTime * HeapItem)) : list (DateTime * HeapItem) * bool :=
  match items with
  | [] => (returns, false)
  | (x, is_done) :: items =>
      if is_done then take_due limit bucket items returns else
      let returns := returns ++ [(bucket, x)] in
      if match limit with Some n => (n <=? length returns)%nat | None => false end
      then (returns, true)
      else take_due limit bucket items returns
  end.

Fixpoint peek_buckets (should_return : Triggerable -> DateTime -> bool) (limits : Limits)
    (buckets : list DateTime) (returns : list (DateTime * HeapItem)) : H (list (DateTime * HeapItem)) :=
  match buckets with
  | [] => ret returns
  | bucket :: buckets =>
      if past_cut_off limits bucket then ret returns else
      bind (load_bucket_or_empty bucket) (fun '(entries, _) =>
        let candidates := List.filter (fun x => should_return (trigger x) bucket) entries in
        bind (are_done (trigger_and_nonce <$> candidates)) (fun dones =>
          if negb (length candidates =? length dones)%nat
          then throw (wrong_count (length dones) (length candidates))
          else
            let '(returns, full) := take_due (max_items limits) bucket (zip candidates dones) returns in
            if (full : bool) then ret returns else peek_buckets should_return limits buckets returns))
  end.

Definition peek (should_return : Triggerable -> DateTime -> bool) (limits : Limits) :
    H (list (DateTime * HeapItem)) :=
  bind list_approx_first_1k_buckets (fun buckets =>
    peek_buckets should_return limits (take (max_buckets limits) buckets) []).

Definition list_buckets (max : option nat) : H (list DateTime) :=
  let limit := default 1000%nat max in
  if (1000 <? limit)%nat then throw (Internal ("max_buckets cannot exceed 1000, got " +:+ pretty limit)) else
  bind list_approx_first_1k_buckets (fun all => ret (take limit all)).
End Operations.
End Heap.
