(* ===== verification/Effects.v ===== *)
(** * Effectful code

    wal3 runs against an object store and fails with [Error]s.  [M A] is the
    type of such a computation: it passes the world of the object store along
    and returns a value, an error, or [NoFuel] where the model bounds a
    recursion the source does not bound.  The retry loops shared by the loads
    and installs of manifests, snapshots and garbage are written here once.
    JSON encoding (serde) is the parameter [Serde]. *)

From S2P Require Import Prelude Setsum Storage Types.

#[local] Open Scope Z_scope.
#[local] Open Scope wal_scope.

(** ** Serialization *)

Class Serde (A : Type) := {
  to_vec : A -> option bytes;
  from_slice : bytes -> option A;
}.

Class SerdeLaws (A : Type) (S : Serde A) : Prop := {
  from_slice_to_vec : forall a b, to_vec a = Some b -> from_slice b = Some a;
}.
Arguments SerdeLaws A {S}.

(** ** The monad *)

Inductive res {SS : SetsumSig} (A : Type) :=
| Ret (a : A)
| Fail (e : Error)
| NoFuel.
Arguments Ret {SS A} a.
Arguments Fail {SS A} e.
Arguments NoFuel {SS A}.

Section Monad.
Context {SS : SetsumSig} {OS : ObjectStore}.

Definition M (A : Type) : Type := world -> res A * world.

Definition ret {A} (a : A) : M A := fun w => (Ret a, w).
Definition throw {A} (e : Error) : M A := fun w => (Fail e, w).
Definition out_of_fuel {A} : M A := fun w => (NoFuel, w).

Definition bind {A B} (c : M A) (k : A -> M B) : M B :=
  fun w => match c w with
           | (Ret a, w) => k a w
           | (Fail e, w) => (Fail e, w)
           | (NoFuel, w) => (NoFuel, w)
           end.

(** [match c.await { Ok(a) => .., Err(e) => .. }]. *)
Definition attempt {A B} (c : M A) (k : result A Error -> M B) : M B :=
  fun w => match c w with
           | (Ret a, w) => k (Ok a) w
           | (Fail e, w) => k (Err e) w
           | (NoFuel, w) => (NoFuel, w)
           end.

(** The [?] operator on a pure result. *)
Definition lift {A} (r : result A Error) : M A :=
  match r with
  | Ok a => ret a
  | Err e => throw e
  end.

(** A request to the store, its result kept as a value. *)
Definition request {A} (f : world -> result A StorageError * world) : M (result A StorageError) :=
  fun w => let '(r, w) := f w in (Ret r, w).

(** A request whose error is returned to the caller. *)
Definition request_or_fail {A} (f : world -> result A StorageError * world) : M A :=
  fun w => match f w with
           | (Ok a, w) => (Ret a, w)
           | (Err e, w) => (Fail (StorageError_ e), w)
           end.

(** [exp_backoff.next()], in microseconds. *)
Definition next_backoff : M Z := fun w => let '(d, w) := backoff_next w in (Ret d, w).
Definition instant_now : M Z := fun w => let '(t, w) := now w in (Ret t, w).
(** [SystemTime::now().duration_since(UNIX_EPOCH).unwrap_or(ZERO).as_micros() as u64]. *)
Definition epoch_now : M Z := fun w => let '(t, w) := system_time w in (Ret (u64_wrap (Z.max 0 t)), w).

Fixpoint foldM {A B} (f : B -> A -> M B) (b : B) (l : list A) : M B :=
  match l with
  | [] => ret b
  | a :: l => bind (f b a) (fun b => foldM f b l)
  end.

Fixpoint mapM {A B} (f : A -> M B) (l : list A) : M (list B) :=
  match l with
  | [] => ret []
  | a :: l => bind (f a) (fun b => bind (mapM f l) (fun bs => ret (b :: bs)))
  end.

Definition is_not_found (e : StorageError) : bool :=
  match e with NotFound _ => true | _ => false end.
Definition is_precondition (e : StorageError) : bool :=
  match e with Precondition _ => true | _ => false end.
End Monad.

Notation "'let!' x ':=' c 'in' k" := (bind c (fun x => k))
  (at level 10, x pattern, c at level 100, k at level 200,
   format "'[v' 'let!'  x  ':='  c  'in' '/' k ']'") : wal_scope.

(** ** The retry loops *)

Section Loops.
Context {SS : SetsumSig} {OS : ObjectStore}.

(** The loop of [Manifest::load], [Snapshot::load] and [Garbage::load]: a
    missing object is [None], other errors are retried at most three times.
    [retries] counts those that remain. *)
Fixpoint get_retrying {A} (path : string) (k : bytes -> option ETag -> M A) (retries : nat) :
    M (option A) :=
  let! r := request (get_with_e_tag path) in
  match r with
  | Ok (b, t) => let! a := k b t in ret (Some a)
  | Err e =>
      if is_not_found e then ret None else
      let! _ := next_backoff in
      match retries with
      | O => throw (StorageError_ e)
      | S retries => get_retrying path k retries
      end
  end.

(** The loop of the three [install]s: the outcome of a put that went through
    or met its precondition is decided by the caller, other errors are
    retried at most three times and only while the backoff stays below a
    minute. *)
Fixpoint put_retrying {A} (path : string) (payload : bytes) (o : PutOptions)
    (on_ok : option ETag -> M A) (on_precondition : M A) (on_error : StorageError -> M A)
    (retries : nat) : M A :=
  let! r := request (put_bytes path payload o) in
  match r with
  | Ok t => on_ok t
  | Err e =>
      if is_precondition e then on_precondition else
      let! backoff := next_backoff in
      match retries with
      | O => on_error e
      | S retries => if 60000000 <? backoff then on_error e
                  else put_retrying path payload o on_ok on_precondition on_error retries
      end
  end.

(** Number of retries of both loops. *)
Definition RETRIES : nat := 3.
End Loops.

(** ** What the loops do to the store *)

Section LoopFacts.
Context {SS : SetsumSig} {OS : ObjectStore} {rely : relation Objects}
        {OL : ObjectStoreLaws OS rely}.

Lemma bind_Ret {A B} (c : M A) (k : A -> M B) w b w' :
  bind c k w = (Ret b, w') <-> exists a w1, c w = (Ret a, w1) /\ k a w1 = (Ret b, w').
Proof.
  unfold bind. split.
  - destruct (c w) as [[a|e|] w1]; intros H; try done. eauto.
  - intros (a & w1 & -> & H). done.
Qed.

(** Reading never changes the store by itself, and what it returns was
    there. *)
Lemma get_retrying_Ret {A} path (k : bytes -> option ETag -> M A) retries w x w' :
  (forall b t w1, (k b t w1).2 = w1) ->
  get_retrying path k retries w = (Ret x, w') ->
  rely (objects w) (objects w') /\
  match x with
  | None => objects w' !! path = None
  | Some a => exists b t t', objects w' !! path = Some (b, t') /\ (t = Some t' \/ t = None) /\
                             k b t w' = (Ret a, w')
  end.
Proof.
  intros Hk. revert w. induction retries as [|retries IH]; intros w;
    cbn [get_retrying]; unfold bind, request, next_backoff;
    destruct (get_with_e_tag path w) as [r w1] eqn:Hg; apply get_law in Hg as [Hrely Hr];
    destruct r as [[b t]|e].
  1,3: destruct Hr as (t' & Ht' & Ht); specialize (Hk b t w1);
       destruct (k b t w1) as [[a|e|] w2] eqn:Ek; simpl in Hk; subst w2;
       intros [= <- <-]; eauto 10.
  all: destruct e; simpl; try (by intros [= <- <-]).
  all: destruct (backoff_next w1) as [d w2] eqn:Hb;
       pose proof (backoff_law w1) as Hrb; rewrite Hb in Hrb; simpl in Hrb.
  all: try done.
  all: intros H; apply IH in H as [Hw Hx]; split; [|done]; etrans; [done|]; by etrans.
Qed.
End LoopFacts.

(** ** Reasoning about computations

    [wp I E c Q]: started in a world that satisfies [I], [c] terminates; it
    returns a value that satisfies [Q], in a world that satisfies [I], or fails
    with an error in [E]. *)
Section Wp.
Context {SS : SetsumSig} {OS : ObjectStore}.
Variable I : world -> Prop.
Variable E : Error -> Prop.

Definition wp {A} (c : M A) (Q : A -> Prop) : Prop :=
  forall w, I w ->
    (exists a w', c w = (Ret a, w') /\ I w' /\ Q a) \/ (exists e w', c w = (Fail e, w') /\ E e).

Lemma wp_ret {A} (a : A) (Q : A -> Prop) : Q a -> wp (ret a) Q.
Proof. intros HQ w Hw. left. by exists a, w. Qed.

Lemma wp_mono {A} (c : M A) (Q R : A -> Prop) : wp c Q -> (forall a, Q a -> R a) -> wp c R.
Proof. intros Hc HQ w Hw. destruct (Hc w Hw) as [(a & w' & ? & ? & ?)|?]; eauto 10. Qed.

Lemma wp_bind {A B} (c : M A) (k : A -> M B) (Q : B -> Prop) :
  wp c (fun a => wp (k a) Q) -> wp (bind c k) Q.
Proof.
  intros Hc w Hw. unfold bind. destruct (Hc w Hw) as [(a & w' & -> & Hw' & Hk)|(e & w' & -> & He)].
  - by apply Hk.
  - right. eauto.
Qed.

(** A loop whose invariant speaks of the elements done and of those left. *)
Lemma wp_foldM {A B} (f : B -> A -> M B) (P : list A -> list A -> B -> Prop) l b :
  P [] l b ->
  (forall dn x rest b, l = dn ++ x :: rest -> P dn (x :: rest) b -> wp (f b x) (P (dn ++ [x]) rest)) ->
  wp (foldM f b l) (P l []).
Proof.
  intros H0 Hstep.
  assert (forall rest dn b, l = dn ++ rest -> P dn rest b -> wp (foldM f b rest) (P l [])) as Hgen.
  { clear b H0. induction rest as [|x rest IH]; intros dn b Hl HP; cbn [foldM].
    - apply wp_ret. rewrite app_nil_r in Hl. by subst.
    - apply wp_bind. eapply wp_mono; [by apply Hstep|]. intros b' HP'.
      apply (IH (dn ++ [x])); [by rewrite <- app_assoc|done]. }
  by apply (Hgen l []).
Qed.
End Wp.

(** ** What a computation leaves alone

    [stays R c]: whatever the outcome of [c], the objects before and after it
    are related by [R]. *)
Section Stays.
Context {SS : SetsumSig} {OS : ObjectStore} {rely : relation Objects} {OL : ObjectStoreLaws OS rely}.
Variable R : relation Objects.
Context {HR : PreOrder R}.
Hypothesis Hrely : forall a b, rely a b -> R a b.

Definition stays {A} (c : M A) : Prop := forall w, R (objects w) (objects (c w).2).

Lemma stays_ret {A} (a : A) : stays (ret a).
Proof. intros w. reflexivity. Qed.

Lemma stays_throw {A} e : stays (@throw _ _ A e).
Proof. intros w. reflexivity. Qed.

Lemma stays_fuel {A} : stays (@out_of_fuel _ _ A).
Proof. intros w. reflexivity. Qed.

Lemma stays_lift {A} (r : result A Error) : stays (lift r).
Proof. destruct r; intros w; reflexivity. Qed.

Lemma stays_bind {A B} (c : M A) (k : A -> M B) : stays c -> (forall a, stays (k a)) -> stays (bind c k).
Proof.
  intros Hc Hk w. unfold bind. specialize (Hc w). destruct (c w) as [[a|e|] w1]; cbn in *; [|done|done].
  etrans; [exact Hc|apply Hk].
Qed.

Lemma stays_attempt {A B} (c : M A) (k : result A Error -> M B) :
  stays c -> (forall r, stays (k r)) -> stays (attempt c k).
Proof.
  intros Hc Hk w. unfold attempt. specialize (Hc w). destruct (c w) as [[a|e|] w1]; cbn in *; [| |done];
    (etrans; [exact Hc|apply Hk]).
Qed.

Lemma stays_request {A} (f : world -> result A StorageError * world) :
  (forall w, R (objects w) (objects (f w).2)) -> stays (request f).
Proof. intros Hf w. unfold request. specialize (Hf w). by destruct (f w). Qed.

Lemma stays_request_or_fail {A} (f : world -> result A StorageError * world) :
  (forall w, R (objects w) (objects (f w).2)) -> stays (request_or_fail f).
Proof. intros Hf w. unfold request_or_fail. specialize (Hf w). by destruct (f w) as [[a|e] w1]. Qed.

Lemma stays_get k w : R (objects w) (objects (get_with_e_tag k w).2).
Proof. destruct (get_with_e_tag k w) as [r w1] eqn:Hg. apply get_law in Hg as [Hr _]. by apply Hrely. Qed.

Lemma stays_list p w : R (objects w) (objects (list_prefix p w).2).
Proof. destruct (list_prefix p w) as [r w1] eqn:Hl. apply list_law in Hl as [Hr _]. by apply Hrely. Qed.

Lemma stays_backoff : stays next_backoff.
Proof. intros w. unfold next_backoff. pose proof (backoff_law w) as Hb. destruct (backoff_next w). by apply Hrely. Qed.

Lemma stays_foldM {A B} (f : B -> A -> M B) b l : (forall b a, stays (f b a)) -> stays (foldM f b l).
Proof. intros Hf. revert b. induction l as [|a l IH]; intros b; [apply stays_ret|]. by apply stays_bind. Qed.

Lemma stays_get_retrying {A} path (k : bytes -> option ETag -> M A) retries :
  (forall b t, stays (k b t)) -> stays (get_retrying path k retries).
Proof.
  intros Hk. induction retries as [|n IH]; cbn [get_retrying];
    (apply stays_bind; [apply stays_request, stays_get|]); intros [[b t]|e].
  1,3: apply stays_bind; [done|intros a; apply stays_ret].
  all: destruct (is_not_found e); [apply stays_ret|]; apply stays_bind; [apply stays_backoff|intros _].
  - apply stays_throw.
  - exact IH.
Qed.
End Stays.

#[export] Hint Resolve stays_ret stays_throw stays_fuel stays_lift stays_backoff : wal.
