(* ===== verification/Codec.v ===== *)
(** * A concrete serialization

    JSON encoding is a parameter of the model; this file has an instance of it,
    used where a statement is evaluated on concrete data: a self-delimiting
    encoding of the records of the log as bytes, and the proof that it
    satisfies the law the model asks for. *)

From S2P Require Import Prelude Setsum Storage Types Effects.

#[local] Open Scope Z_scope.

(** An encoding that can be read back from the front of a longer string. *)
Class Codec (A : Type) := {
  put : A -> bytes;
  take_off : bytes -> option (A * bytes);
  take_put : forall a r, take_off (put a ++ r) = Some (a, r);
}.

#[export] Instance codec_serde {A} `{Codec A} : Serde A := {|
  to_vec := fun a => Some (put a);
  from_slice := fun b => match take_off b with Some (a, []) => Some a | _ => None end;
|}.

#[export] Instance codec_serde_laws {A} `{Codec A} : SerdeLaws A.
Proof.
  constructor. intros a b [= <-]. cbn. by rewrite <- (app_nil_r (put a)), take_put.
Qed.

Fixpoint put_pos (p : positive) : bytes :=
  match p with
  | xH => [Byte.x02]
  | xO p => Byte.x00 :: put_pos p
  | xI p => Byte.x01 :: put_pos p
  end.

Fixpoint take_pos (b : bytes) : option (positive * bytes) :=
  match b with
  | Byte.x00 :: b => '(p, r) ← take_pos b; Some (xO p, r)
  | Byte.x01 :: b => '(p, r) ← take_pos b; Some (xI p, r)
  | Byte.x02 :: b => Some (xH, b)
  | _ => None
  end.

Lemma take_put_pos p r : take_pos (put_pos p ++ r) = Some (p, r).
Proof. induction p as [p IH|p IH|]; cbn; rewrite ?IH; done. Qed.

#[export] Instance Z_codec : Codec Z.
Proof.
  refine {|
  put := fun z => match z with
                  | Z0 => [Byte.x00]
                  | Zpos p => Byte.x01 :: put_pos p
                  | Zneg p => Byte.x02 :: put_pos p
                  end;
  take_off := fun b => match b with
                       | Byte.x00 :: b => Some (0, b)
                       | Byte.x01 :: b => '(p, r) ← take_pos b; Some (Zpos p, r)
                       | Byte.x02 :: b => '(p, r) ← take_pos b; Some (Zneg p, r)
                       | _ => None
                       end;
  |}.
  intros [|p|p] r; cbn; [done|by rewrite take_put_pos..].
Defined.

#[export] Instance string_codec : Codec string.
Proof.
  refine {|
  put := fun s => (fix go s := match s with
                               | EmptyString => [Byte.x00]
                               | String a s => Byte.x01 :: Ascii.byte_of_ascii a :: go s
                               end) s;
  take_off := fun b => (fix go (b : bytes) : option (string * bytes) :=
                          match b with
                          | Byte.x00 :: b => Some (EmptyString, b)
                          | Byte.x01 :: c :: b => '(s, r) ← go b; Some (String (Ascii.ascii_of_byte c) s, r)
                          | _ => None
                          end) b;
  |}.
  intros s r. cbn. induction s as [|a s IH]; cbn; [done|].
  rewrite IH. cbn. by rewrite Ascii.ascii_of_byte_of_ascii.
Defined.

Section Combinators.
Context {A B : Type} `{Codec A} `{Codec B}.

#[export] Instance pair_codec : Codec (A * B).
Proof.
  refine {|
  put := fun '(a, b) => put a ++ put b;
  take_off := fun x => '(a, x) ← take_off x; '(b, x) ← take_off x; Some ((a, b), x);
  |}.
  intros [a b] r. cbn. rewrite <- app_assoc, take_put. cbn. by rewrite take_put.
Defined.

(** A list with its length in front, in unary. *)
Fixpoint put_list (l : list A) : bytes :=
  match l with
  | [] => [Byte.x00]
  | a :: l => Byte.x01 :: put a ++ put_list l
  end.

Fixpoint take_list (n : nat) (x : bytes) : option (list A * bytes) :=
  match n, x with
  | S _, Byte.x00 :: x => Some ([], x)
  | S n, Byte.x01 :: x => '(a, x) ← take_off x; '(l, x) ← take_list n x; Some (a :: l, x)
  | _, _ => None
  end.

Lemma take_put_list l n r : (length l < n)%nat -> take_list n (put_list l ++ r) = Some (l, r).
Proof.
  revert n. induction l as [|a l IH]; intros [|n] Hn; cbn in *; try lia; [done|].
  rewrite <- app_assoc, take_put. cbn. rewrite IH by lia. done.
Qed.

Lemma length_put_list l : (length l < length (put_list l))%nat.
Proof. induction l as [|a l IH]; cbn; [lia|]. rewrite length_app. lia. Qed.

#[export] Instance list_codec : Codec (list A).
Proof.
  refine {|
  put := put_list;
  take_off := fun x => take_list (length x) x;
  |}.
  intros l r. apply take_put_list. pose proof (length_put_list l). rewrite length_app. lia.
Defined.

#[export] Instance option_codec : Codec (option A).
Proof.
  refine {|
  put := fun o => match o with None => [Byte.x00] | Some a => Byte.x01 :: put a end;
  take_off := fun x => match x with
                       | Byte.x00 :: x => Some (None, x)
                       | Byte.x01 :: x => '(a, x) ← take_off x; Some (Some a, x)
                       | _ => None
                       end;
  |}.
  intros [a|] r; cbn; [by rewrite take_put|done].
Defined.

Definition iso_codec (f : B -> A) (g : A -> B) (fg : forall b, g (f b) = b) : Codec B.
Proof.
  refine {|
  put := fun b => put (f b);
  take_off := fun x => '(a, x) ← take_off x; Some (g a, x);
  |}.
  intros b r. cbn. rewrite take_put. cbn. by rewrite fg.
Defined.
End Combinators.

(** ** The records, with integers for setsums *)

Section RecordCodecs.
Import IntSetsum.

#[export] Instance LogPosition_codec : Codec LogPosition.
Proof. apply (iso_codec offset from_offset). by intros []. Defined.

#[export] Instance FragmentSeqNo_codec : Codec FragmentSeqNo.
Proof. apply (iso_codec fsn mkSeqNo). by intros []. Defined.

#[export] Instance Setsum_codec : Codec Setsum := Z_codec.

#[export] Instance Fragment_codec : Codec Fragment.
Proof.
  apply (iso_codec
    (fun f => (frag_path f, frag_seq_no f, frag_start f, frag_limit f, frag_num_bytes f, frag_setsum f))
    (fun '(a, b, c, d, e, f) => mkFragment a b c d e f)). by intros [].
Defined.

#[export] Instance SnapshotPointer_codec : Codec SnapshotPointer.
Proof.
  apply (iso_codec
    (fun p => (ptr_setsum p, path_to_snapshot p, ptr_depth p, ptr_start p, ptr_limit p, ptr_num_bytes p))
    (fun '(a, b, c, d, e, f) => mkSnapshotPointer a b c d e f)). by intros [].
Defined.

#[export] Instance Snapshot_codec : Codec Snapshot.
Proof.
  apply (iso_codec
    (fun s => (snap_path s, snap_depth s, snap_setsum s, snap_writer s, snap_snapshots s, snap_fragments s))
    (fun '(a, b, c, d, e, f) => mkSnapshot a b c d e f)). by intros [].
Defined.

#[export] Instance Manifest_codec : Codec Manifest.
Proof.
  apply (iso_codec
    (fun m => (setsum m, collected m, acc_bytes m, writer m, snapshots m, fragments m,
               initial_offset m, initial_seq_no m))
    (fun '(a, b, c, d, e, f, g, h) => mkManifest a b c d e f g h)). by intros [].
Defined.

#[export] Instance Garbage_codec : Codec Garbage.
Proof.
  apply (iso_codec
    (fun g => (snapshots_to_drop g, snapshots_to_make g, snapshot_for_root g, fragments_to_drop_start g,
               fragments_to_drop_limit g, setsum_to_discard g, first_to_keep g))
    (fun '(a, b, c, d, e, f, g) => mkGarbage a b c d e f g)). by intros [].
Defined.
End RecordCodecs.
