(* ===== verification/Manifest.v ===== *)
(** * Manifests and snapshots

    The pure operations of [rust/wal3/src/manifest.rs]: what positions and
    sequence numbers a manifest spans, scrubbing, rolling fragments and
    snapshots up into a new snapshot, applying fragments and garbage. *)

From S2P Require Import Prelude Setsum Storage Types Paths.

#[local] Open Scope Z_scope.
#[local] Open Scope wal_scope.

(** The least start of the fragments and snapshots, or the default. *)
Definition oldest_of (frags snaps : list LogPosition) (dflt : LogPosition) : LogPosition :=
  match min_by_key offset frags, min_by_key offset snaps with
  | Some f, Some s => from_offset (Z.min (offset f) (offset s))
  | Some f, None => f
  | None, Some s => s
  | None, None => dflt
  end.

(** The greatest limit of the fragments and snapshots, or the default. *)
Definition newest_of (frags snaps : list LogPosition) (dflt : LogPosition) : LogPosition :=
  match max_by_key offset frags, max_by_key offset snaps with
  | Some f, Some s => from_offset (Z.max (offset f) (offset s))
  | Some f, None => f
  | None, Some s => s
  | None, None => dflt
  end.

Section Definitions.
Context {SS : SetsumSig}.

(** ** Snapshot *)

Definition snap_num_bytes (s : Snapshot) : Z :=
  wrapping_add (sum_u64 (ptr_num_bytes <$> snap_snapshots s))
               (sum_u64 (frag_num_bytes <$> snap_fragments s)).

(** [iter.map(|s| s.depth).max().unwrap_or(0)]. *)
Definition max_depth (l : list SnapshotPointer) : Z :=
  default 0 (max_by_key id (ptr_depth <$> l)).

Definition snap_scrub (s : Snapshot) : result ScrubSuccess ScrubError :=
  if bool_decide (snap_fragments s <> []) && bool_decide (snap_snapshots s <> [])
  then Err (ScrubCorruptManifest "snapshot contains both fragments and snapshots") else
  let sum := foldl (fun acc p => acc +ₛ ptr_setsum p) setsum_default (snap_snapshots s) in
  let bytes := foldl (fun acc p => wrapping_add acc (ptr_num_bytes p)) 0 (snap_snapshots s) in
  let depth := max_depth (snap_snapshots s) in
  if snap_depth s <=? depth
  then Err (ScrubCorruptManifest "expected snapshot depth is not monotonoic") else
  let sum := foldl (fun acc f => acc +ₛ frag_setsum f) sum (snap_fragments s) in
  let bytes := foldl (fun acc f => wrapping_add acc (frag_num_bytes f)) bytes (snap_fragments s) in
  if bool_decide (sum <> snap_setsum s)
  then Err (ScrubCorruptManifest "expected snapshot setsum does not match observed contents") else
  match snapshot_setsum (snap_path s) with
  | Err _ => Err (ScrubCorruptManifest "expected snapshot setsum does not match observed path")
  | Ok path_setsum =>
      if bool_decide (path_setsum <> snap_setsum s)
      then Err (ScrubCorruptManifest "expected snapshot setsum does not match observed path")
      else Ok (mkScrubSuccess sum bytes false)
  end.

Definition limiting_log_position (s : Snapshot) : LogPosition :=
  newest_of (frag_limit <$> snap_fragments s) (ptr_limit <$> snap_snapshots s) (from_offset 1).

Definition minimum_log_position (s : Snapshot) : LogPosition :=
  oldest_of (frag_start <$> snap_fragments s) (ptr_start <$> snap_snapshots s) (from_offset 1).

Definition to_pointer (s : Snapshot) : SnapshotPointer :=
  mkSnapshotPointer (snap_setsum s) (snap_path s) (snap_depth s)
    (minimum_log_position s) (limiting_log_position s) (snap_num_bytes s).

(** ** Manifest *)

Definition new_empty (w : string) : Manifest :=
  mkManifest setsum_default setsum_default 0 w [] [] None None.

Definition contains_position (m : Manifest) (p : LogPosition) : bool :=
  existsb (fun f => possibly_contains_position f p) (fragments m).

Definition oldest_timestamp (m : Manifest) : LogPosition :=
  oldest_of (frag_start <$> fragments m) (ptr_start <$> snapshots m)
    (default (from_offset 1) (initial_offset m)).

Definition next_write_timestamp (m : Manifest) : LogPosition :=
  newest_of (frag_limit <$> fragments m) (ptr_limit <$> snapshots m)
    (default (from_offset 1) (initial_offset m)).

Definition fragment_for_position (m : Manifest) (p : LogPosition) : option Fragment :=
  List.find (fun f => offset p <=? offset (frag_limit f)) (fragments m).

Definition round_to_boundary (m : Manifest) (p : LogPosition) : option LogPosition :=
  match List.find (fun s => LogPosition.contains_offset (ptr_start s) (ptr_limit s) (offset p))
          (snapshots m) with
  | Some s => Some (ptr_start s)
  | None =>
      match List.find (fun f => LogPosition.contains_offset (frag_start f) (frag_limit f) (offset p))
              (fragments m) with
      | Some f => Some (frag_start f)
      | None => if bool_decide (p = next_write_timestamp m) then Some p else None
      end
  end.

Definition scrub (m : Manifest) : result ScrubSuccess ScrubError :=
  let sum := foldl (fun acc p => acc +ₛ ptr_setsum p) setsum_default (snapshots m) in
  let bytes := foldl (fun acc p => wrapping_add acc (ptr_num_bytes p)) 0 (snapshots m) in
  let sum := foldl (fun acc f => acc +ₛ frag_setsum f) sum (fragments m) in
  let bytes := foldl (fun acc f => wrapping_add acc (frag_num_bytes f)) bytes (fragments m) in
  if bool_decide (setsum m <> sum +ₛ collected m)
  then Err (ScrubCorruptManifest "expected manifest setsum does not match observed contents") else
  if existsb (fun '(l, r) => bool_decide (ptr_limit l <> ptr_start r)) (windows (snapshots m))
  then Err (ScrubCorruptManifest "expected snapshots to be sequential within the manifest") else
  if existsb (fun '(l, r) => bool_decide (frag_limit l <> frag_start r)) (windows (fragments m))
  then Err (ScrubCorruptManifest "expected fragments to be sequential within the manifest") else
  if match last (snapshots m), head (fragments m) with
     | Some s, Some f => bool_decide (ptr_limit s <> frag_start f)
     | _, _ => false
     end
  then Err (ScrubCorruptManifest
              "expected snapshots-fragments to be sequential within the manifest") else
  if match initial_offset m with
     | Some o => bool_decide (o <> oldest_timestamp m)
     | None => false
     end
  then Err (ScrubCorruptManifest
              "expected initial offset to be equal to oldest timestamp when present")
  else Ok (mkScrubSuccess sum bytes false).

Definition max_seq_no (m : Manifest) : option FragmentSeqNo :=
  max_by_key fsn (frag_seq_no <$> fragments m).

Definition next_fragment_seq_no (m : Manifest) : option FragmentSeqNo :=
  match max_seq_no m with
  | Some s => if FragmentSeqNo.ltb s (FragmentSeqNo.add s 1)
              then Some (FragmentSeqNo.add s 1) else None
  | None => Some (default FragmentSeqNo.BEGIN (initial_seq_no m))
  end.

Definition can_apply_fragment (m : Manifest) (f : Fragment) : bool :=
  bool_decide (Some (frag_seq_no f) = next_fragment_seq_no m) &&
  (offset (frag_start f) <? offset (frag_limit f)).

Definition apply_fragment (m : Manifest) (f : Fragment) : Manifest :=
  mkManifest (setsum m +ₛ frag_setsum f) (collected m)
    (saturating_add (acc_bytes m) (frag_num_bytes f)) (writer m) (snapshots m)
    (fragments m ++ [f]) (initial_offset m) (initial_seq_no m).

(** The inner loop of [generate_snapshot] over the reversed snapshots: skip
    the shallower ones, take those of the depth, stop at the first other. *)
Fixpoint take_depth (depth : Z) (threshold : nat) (rev_snaps : list SnapshotPointer)
    (acc : list SnapshotPointer) (sum : Setsum) : list SnapshotPointer * Setsum :=
  match rev_snaps with
  | [] => (acc, sum)
  | s :: rest =>
      if ptr_depth s <? depth then take_depth depth threshold rest acc sum
      else if (ptr_depth s =? depth) && (length acc <? threshold)%nat
      then take_depth depth threshold rest (acc ++ [s]) (sum +ₛ ptr_setsum s)
      else (acc, sum)
  end.

(** The body of the [while snapshot_depth > 0] loop. *)
Definition rollup_depth (m : Manifest) (threshold : nat) (w : string) (depth : Z) : option Snapshot :=
  let '(taken, sum) := take_depth depth threshold (reverse (snapshots m)) [] setsum_default in
  let taken := reverse taken in
  if (threshold <=? length taken)%nat then
    let '(taken, sum) :=
      match min_by_key (fun s => offset (ptr_start s)) taken, head (snapshots m) with
      | Some snap, Some first =>
          if bool_decide (ptr_limit first = ptr_start snap) && (ptr_depth first <? depth)
          then (first :: taken, sum +ₛ ptr_setsum first)
          else (taken, sum)
      | _, _ => (taken, sum)
      end in
    Some (mkSnapshot (unprefixed_snapshot_path sum) (u8_add depth 1) sum w taken [])
  else None.

Fixpoint rollup_from (m : Manifest) (threshold : nat) (w : string) (depth : nat) : option Snapshot :=
  match depth with
  | O => None
  | S d => match rollup_depth m threshold w (Z.of_nat depth) with
           | Some s => Some s
           | None => rollup_from m threshold w d
           end
  end.

(** The loop that takes all fragments but the one with the greatest sequence
    number, up to the threshold. *)
Fixpoint take_fragments (m : Manifest) (threshold : nat) (frags : list Fragment)
    (acc : list Fragment) (sum : Setsum) : list Fragment * Setsum :=
  match frags with
  | [] => (acc, sum)
  | f :: rest =>
      if (length acc <? threshold)%nat &&
         bool_decide (default (mkSeqNo 0) (max_seq_no m) <> frag_seq_no f)
      then take_fragments m threshold rest (acc ++ [f]) (sum +ₛ frag_setsum f)
      else take_fragments m threshold rest acc sum
  end.

Definition generate_snapshot (m : Manifest) (o : SnapshotOptions) (w : string) : option Snapshot :=
  match rollup_from m (snapshot_rollover_threshold o) w (Z.to_nat (max_depth (snapshots m))) with
  | Some s => Some s
  | None =>
      if (fragment_rollover_threshold o <=? length (fragments m))%nat then
        let '(frags, sum) :=
          take_fragments m (fragment_rollover_threshold o) (fragments m) [] setsum_default in
        if (fragment_rollover_threshold o <=? length frags)%nat
        then Some (mkSnapshot (unprefixed_snapshot_path sum) 1 sum w [] frags)
        else None
      else None
  end.

(** Applies a snapshot in place: the manifest is returned beside the result,
    since a failure of the last scrub leaves it modified. *)
Definition apply_snapshot (m : Manifest) (s : Snapshot) : result unit Error * Manifest :=
  match scrub m with
  | Err e => (Err (ScrubError_ e), m)
  | Ok _ =>
      if (length (fragments m) <? length (snap_fragments s))%nat
      then (Err (CorruptManifest "snapshot has more fragments than manifest"), m) else
      if existsb (fun '(l, r) => bool_decide (l <> r)) (zip (fragments m) (snap_fragments s))
      then (Err (CorruptManifest "fragment does not match"), m) else
      let kept := List.filter (fun p => negb (existsb (fun t => bool_decide (ptr_setsum t = ptr_setsum p))
                                                (snap_snapshots s))) (snapshots m) in
      let m' := mkManifest (setsum m) (collected m) (acc_bytes m) (writer m)
                  (kept ++ [to_pointer s]) (drop (length (snap_fragments s)) (fragments m))
                  (initial_offset m) (initial_seq_no m) in
      match scrub m' with
      | Err e => (Err (ScrubError_ e), m')
      | Ok _ => (Ok tt, m')
      end
  end.

(** ** Garbage *)

Definition Garbage_empty : Garbage :=
  mkGarbage [] [] None (mkSeqNo 0) (mkSeqNo 0) setsum_default (from_offset 1).

Definition is_empty (g : Garbage) : bool := bool_decide (g = Garbage_empty).

Definition discard_snapshot (root : option SnapshotPointer)
    (acc : Setsum * list SnapshotPointer) (to_drop : SnapshotPointer) :
    Setsum * list SnapshotPointer :=
  match position (fun s => bool_decide (s = to_drop)) acc.2 with
  | Some i => (if bool_decide (Some to_drop <> root) then acc.1 +ₛ ptr_setsum to_drop else acc.1,
               remove_at i acc.2)
  | None => acc
  end.

Definition discard_fragment (acc : Setsum * list Fragment) (n : Z) : Setsum * list Fragment :=
  match position (fun f => bool_decide (frag_seq_no f = mkSeqNo n)) acc.2 with
  | Some i => (match acc.2 !! i with
               | Some f => acc.1 +ₛ frag_setsum f
               | None => acc.1
               end, remove_at i acc.2)
  | None => acc
  end.

Definition apply_garbage (m : Manifest) (g : Garbage) : result (option Manifest) Error :=
  if is_empty g
  then Err (GarbageCollectionPrecondition (Stringy "cannot apply empty garbage")) else
  if FragmentSeqNo.leb (fragments_to_drop_limit g) (default FragmentSeqNo.BEGIN (initial_seq_no m)) &&
     negb (existsb (fun s => bool_decide (s ∈ snapshots m)) (snapshots_to_drop g)) &&
     bool_decide (snapshots_to_make g = [])
  then Ok None else
  if FragmentSeqNo.ltb (fragments_to_drop_limit g) (fragments_to_drop_start g)
  then Err (GarbageCollection "Garbage has start > limit") else
  if bool_decide (fragments_to_drop_limit g = mkSeqNo 0) then Ok None else
  let '(sum, snaps) := foldl (discard_snapshot (snapshot_for_root g))
                         (setsum_default, snapshots m) (snapshots_to_drop g) in
  let '(sum, frags) := foldl discard_fragment (sum, fragments m)
                         (range_u64 (fsn (fragments_to_drop_start g)) (fsn (fragments_to_drop_limit g))) in
  let '(root_setsum, snaps) :=
    match snapshot_for_root g with
    | Some snap => if bool_decide (snap ∈ snaps) then (setsum_default, snaps)
                   else (ptr_setsum snap, snap :: snaps)
    | None => (setsum_default, snaps)
    end in
  if bool_decide (sum -ₛ root_setsum <> setsum_to_discard g)
  then Err (GarbageCollectionPrecondition (Stringy "Setsum mismatch")) else
  let new := mkManifest (setsum m) (collected m +ₛ setsum_to_discard g) (acc_bytes m) (writer m)
               snaps frags (Some (first_to_keep g)) (Some (fragments_to_drop_limit g)) in
  match scrub new with
  | Err e => Err (ScrubError_ e)
  | Ok _ =>
      if LogPosition.ltb (first_to_keep g) (oldest_timestamp new)
      then Err (CorruptManifest "Manifest corruption detected after GC: missing first log to keep") else
      if bool_decide (next_write_timestamp new <> next_write_timestamp m)
      then Err (CorruptManifest "Manifest corruption detected after GC: next log position mismatch")
      else Ok (Some new)
  end.
End Definitions.
