(* ===== verification/Persist.v ===== *)
(** * Loading and installing the objects of a log

    The asynchronous operations of [rust/wal3/src/manifest.rs] and
    [rust/wal3/src/gc.rs] that read and write one object: snapshots, the
    manifest and the garbage file, and the snapshot cache
    ([rust/wal3/src/snapshot_cache.rs]).  The theorems say what a conditional
    install did to the store, whatever the faults and the other writers. *)

From S2P Require Import Prelude Setsum Storage Types Paths Effects Manifest.

#[local] Open Scope Z_scope.
#[local] Open Scope wal_scope.

(** The trait [SnapshotCache]. *)
Class SnapshotCache {SS : SetsumSig} {OS : ObjectStore} := {
  cache_get : SnapshotPointer -> M (option Snapshot);
  cache_put : SnapshotPointer -> Snapshot -> M unit;
}.

(** [impl SnapshotCache for ()]. *)
Definition unit_cache {SS : SetsumSig} {OS : ObjectStore} : SnapshotCache := {|
  cache_get := fun _ => ret None;
  cache_put := fun _ _ => ret tt;
|}.

Section Operations.
Context {SS : SetsumSig} {OS : ObjectStore}.
Context {serde_manifest : Serde Manifest} {serde_snapshot : Serde Snapshot}
        {serde_garbage : Serde Garbage}.

(** [serde_json::to_string(..).map_err(..)?]. *)
Definition encode_or {A} `{Serde A} (e : Error) (a : A) : M bytes :=
  match to_vec a with
  | Some b => ret b
  | None => throw e
  end.

(** [serde_json::from_slice(..).map_err(..)?]. *)
Definition decode_or {A} `{Serde A} (e : Error) (b : bytes) : M A :=
  match from_slice b with
  | Some a => ret a
  | None => throw e
  end.

(** The precondition of a put over the version that was read. *)
Definition put_options (current : option ETag) : PutOptions :=
  match current with
  | Some e_tag => if_matches e_tag
  | None => if_not_exists
  end.

(** ** Snapshots *)

Definition Snapshot_load (prefix : string) (pointer : SnapshotPointer) : M (option Snapshot) :=
  get_retrying (prefix +:+ "/" +:+ path_to_snapshot pointer)
    (fun b _ => decode_or (CorruptManifest "could not decode JSON snapshot") b) RETRIES.

Definition Snapshot_install (prefix : string) (s : Snapshot) : M SnapshotPointer :=
  let! payload := encode_or (CorruptManifest "could not encode JSON manifest") s in
  put_retrying (prefix +:+ "/" +:+ snap_path s) payload if_not_exists
    (fun _ => ret (to_pointer s))
    (ret (to_pointer s))
    (fun e => throw (StorageError_ e)) RETRIES.

(** ** The manifest *)

Definition initialize_from_manifest (prefix : string) (initial : Manifest) : M unit :=
  let! payload := encode_or (CorruptManifest "could not encode JSON manifest") initial in
  let! _ := request_or_fail (put_bytes (manifest_path prefix) payload if_not_exists) in
  ret tt.

Definition initialize (prefix writer : string) : M unit :=
  let initial := mkManifest setsum_default setsum_default 0 writer [] [] None None in
  initialize_from_manifest prefix initial.

Definition head (prefix : string) (e_tag : ETag) : M bool :=
  request_or_fail (confirm_same (manifest_path prefix) e_tag).

Definition Manifest_load (prefix : string) : M (option (Manifest * ETag)) :=
  get_retrying (manifest_path prefix)
    (fun b e_tag =>
       match e_tag with
       | None => throw (CorruptManifest "no ETag for manifest")
       | Some e_tag =>
           let! m := decode_or (CorruptManifest "could not decode JSON manifest") b in
           ret (m, e_tag)
       end) RETRIES.

Definition Manifest_install (prefix : string) (current : option ETag) (new : Manifest) : M ETag :=
  let! payload := encode_or (CorruptManifest "could not encode JSON manifest") new in
  put_retrying (manifest_path prefix) payload (put_options current)
    (fun e_tag => match e_tag with
                  | Some e_tag => ret e_tag
                  | None => throw LogContentionFailure
                  end)
    (throw LogContentionDurable)
    (fun _ => throw LogContentionDurable) RETRIES.

(** ** The garbage file *)

Definition Garbage_load (prefix : string) : M (option (Garbage * option ETag)) :=
  get_retrying (garbage_path prefix)
    (fun b e_tag =>
       let! g := decode_or (CorruptGarbage "could not decode JSON garbage") b in
       ret (g, e_tag)) RETRIES.

Definition transition (prefix : string) (existing : option ETag) (replacement : Garbage) :
    M (option ETag) :=
  let! payload := encode_or (CorruptManifest "could not encode JSON garbage") replacement in
  put_retrying (garbage_path prefix) payload (put_options existing)
    (fun e_tag => ret e_tag)
    (throw LogContentionFailure)
    (fun e => throw (StorageError_ e)) RETRIES.

Definition install_new_snapshots (prefix : string) (g : Garbage) : M unit :=
  foldM (fun _ s => let! _ := Snapshot_install prefix s in ret tt) tt (snapshots_to_make g).

Definition Garbage_install (prefix : string) (existing : option ETag) (g : Garbage) :
    M (option ETag) :=
  let! _ := install_new_snapshots prefix g in
  transition prefix existing g.

(** [Garbage::reset]: losing the race means somebody else already did it. *)
Definition Garbage_reset (prefix : string) (existing : ETag) : M (option ETag) :=
  attempt (transition prefix (Some existing) Garbage_empty) (fun r =>
    match r with
    | Ok e_tag => ret e_tag
    | Err LogContentionFailure => ret None
    | Err err => throw err
    end).
End Operations.

(** ** What installs do *)

Section Facts.
Context {SS : SetsumSig} {OS : ObjectStore} {rely : relation Objects}
        {OL : ObjectStoreLaws OS rely}.

(** The writes one conditional put of [b] to [k] may perform, one or several
    times, between the steps of others. *)
Inductive put_steps (k : string) (b : bytes) (o : PutOptions) : relation Objects :=
| ps_rely m m' : rely m m' -> put_steps k b o m m'
| ps_write m t : put_allowed o m k -> put_steps k b o m (<[k := (b, t)]> m)
| ps_trans m1 m2 m3 : put_steps k b o m1 m2 -> put_steps k b o m2 m3 -> put_steps k b o m1 m3.

Lemma put_request k b o w r w' :
  put_bytes k b o w = (r, w') ->
  put_steps k b o (objects w) (objects w') /\
  match r with
  | Ok t => exists pre t', put_steps k b o (objects w) pre /\ put_allowed o pre k /\
                           objects w' = <[k := (b, t')]> pre /\ (t = Some t' \/ t = None)
  | Err e => is_precondition e = true -> ~ put_allowed o (objects w') k
  end.
Proof.
  intros (pre & Hrely & Hr)%put_law. destruct r as [t|e].
  - destruct Hr as (Hal & t' & Hw & Ht). split.
    + rewrite Hw. eapply ps_trans; [by apply ps_rely|by apply ps_write].
    + exists pre, t'. split_and!; auto. by apply ps_rely.
  - assert (put_steps k b o (objects w) (objects w')) as Hsteps.
    { destruct e; try (destruct Hr as [->|(Hal & t' & ->)];
        [by apply ps_rely|eapply ps_trans; [by apply ps_rely|by apply ps_write]]).
      destruct Hr as [_ ->]. by apply ps_rely. }
    split; [done|]. destruct e; simpl; try done. by destruct Hr as [? ->].
Qed.

(** The retry loop: every outcome is the caller's decision on a request that
    had that outcome, and the store moved by steps of others and by writes of
    the payload that met their precondition. *)
Lemma put_retrying_outcome {A} k b o (on_ok : option ETag -> M A) on_pre on_err retries w r w' :
  put_retrying k b o on_ok on_pre on_err retries w = (r, w') ->
  exists w1, put_steps k b o (objects w) (objects w1) /\
    ((exists pre t t', put_steps k b o (objects w) pre /\ put_allowed o pre k /\
        objects w1 = <[k := (b, t')]> pre /\ (t = Some t' \/ t = None) /\ on_ok t w1 = (r, w')) \/
     (~ put_allowed o (objects w1) k /\ on_pre w1 = (r, w')) \/
     (exists e, is_precondition e = false /\ on_err e w1 = (r, w'))).
Proof.
  revert w. induction retries as [|retries IH]; intros w;
    cbn [put_retrying]; unfold bind, request, next_backoff;
    destruct (put_bytes k b o w) as [x w1] eqn:Hp; apply put_request in Hp as [Hs Hx];
    destruct x as [t|e].
  1,3: destruct Hx as (pre & t' & Hpre & Hal & Hw & Ht); intros H; exists w1;
       split; [done|left; eauto 10].
  all: destruct (is_precondition e) eqn:He;
    [intros H; exists w1; split; [done|]; right; left; auto|].
  all: destruct (backoff_next w1) as [d w2] eqn:Hb; pose proof (backoff_law w1) as Hrb;
       rewrite Hb in Hrb; simpl in Hrb;
       assert (put_steps k b o (objects w) (objects w2)) as Hs2
         by (eapply ps_trans; [exact Hs|by apply ps_rely]).
  - intros H. exists w2. split; [done|]. right; right; eauto.
  - destruct (60000000 <? d).
    + intros H. exists w2. split; [done|]. right; right; eauto.
    + intros (w3 & Hs3 & Hcases)%IH. exists w3. split; [by eapply ps_trans|].
      destruct Hcases as [(pre & t & t' & Hpre & Hrest)|Hcases]; [|by right].
      left. exists pre, t, t'. split; [by eapply ps_trans|done].
Qed.

Context {serde_manifest : Serde Manifest}.

Lemma Manifest_install_outcome prefix current new w r w' :
  Manifest_install prefix current new w = (r, w') ->
  match to_vec new with
  | None => r = Fail (CorruptManifest "could not encode JSON manifest") /\ w' = w
  | Some b =>
      put_steps (manifest_path prefix) b (put_options current) (objects w) (objects w') /\
      match r with
      | Ret t => exists pre,
          put_steps (manifest_path prefix) b (put_options current) (objects w) pre /\
          put_allowed (put_options current) pre (manifest_path prefix) /\
          objects w' = <[manifest_path prefix := (b, t)]> pre
      | Fail e => e = LogContentionDurable \/ e = LogContentionFailure
      | NoFuel => False
      end
  end.
Proof.
  unfold Manifest_install, encode_or, bind, ret, throw.
  destruct (to_vec new) as [b|] eqn:Hb; cbv beta iota;
    [|by intros [= <- <-]].
  intros (w1 & Hs & Hcases)%put_retrying_outcome.
  destruct Hcases as [(pre & t & t' & Hpre & Hal & Hw & Ht & Hk)|[[Hno Hk]|(e & He & Hk)]].
  - destruct Ht as [->| ->]; injection Hk as <- <-; eauto 10.
  - injection Hk as <- <-. auto.
  - injection Hk as <- <-. auto.
Qed.
End Facts.
