(* ===== verification/Gc.v ===== *)
(** * Garbage

    [rust/wal3/src/gc.rs]: which snapshots and fragments fall below a log
    position, the snapshots that replace the one the position cuts in two, and
    the files that can be deleted afterwards.  The recursion follows the tree
    of snapshots, whose depth is the fuel. *)

From S2P Require Import Prelude Setsum Storage Types Paths Effects Manifest Persist.

#[local] Open Scope Z_scope.
#[local] Open Scope wal_scope.

Section Operations.
Context {SS : SetsumSig} {OS : ObjectStore} {cache : SnapshotCache}.
Context {serde_snapshot : Serde Snapshot}.
Variable prefix : string.

(** What [drop_fragment], [drop_snapshot] and [replace_snapshot] mutate:
    [self], [first] and [first_to_keep]. *)
Record GcState := mkGcState {
  gs_garbage : Garbage;
  gs_first : bool;
  gs_keep : LogPosition;
}.

Definition push_drop (p : SnapshotPointer) (st : GcState) : GcState :=
  let g := gs_garbage st in
  mkGcState
    (mkGarbage (snapshots_to_drop g ++ [p]) (snapshots_to_make g) (snapshot_for_root g)
       (fragments_to_drop_start g) (fragments_to_drop_limit g) (setsum_to_discard g) (first_to_keep g))
    (gs_first st) (gs_keep st).

Definition push_make (s : Snapshot) (st : GcState) : GcState :=
  let g := gs_garbage st in
  mkGcState
    (mkGarbage (snapshots_to_drop g) (snapshots_to_make g ++ [s]) (snapshot_for_root g)
       (fragments_to_drop_start g) (fragments_to_drop_limit g) (setsum_to_discard g) (first_to_keep g))
    (gs_first st) (gs_keep st).

Definition set_root (root : option SnapshotPointer) (st : GcState) : GcState :=
  let g := gs_garbage st in
  mkGcState
    (mkGarbage (snapshots_to_drop g) (snapshots_to_make g) root
       (fragments_to_drop_start g) (fragments_to_drop_limit g) (setsum_to_discard g) (first_to_keep g))
    (gs_first st) (gs_keep st).

Definition drop_fragment (st : GcState) (frag : Fragment) : result (Setsum * GcState) Error :=
  let g := gs_garbage st in
  if bool_decide (fragments_to_drop_limit g <> frag_seq_no frag) && negb (gs_first st)
  then Err (ScrubError_ (ScrubInternal "fragment sequence numbers collected out of order")) else
  let start := if gs_first st then frag_seq_no frag else fragments_to_drop_start g in
  Ok (frag_setsum frag,
      mkGcState
        (mkGarbage (snapshots_to_drop g) (snapshots_to_make g) (snapshot_for_root g) start
           (FragmentSeqNo.add (frag_seq_no frag) 1) (setsum_to_discard g +ₛ frag_setsum frag)
           (first_to_keep g))
        false (frag_limit frag)).

(** [for frag in frags { drop_acc += self.drop_fragment(frag, ..)?; }]. *)
Definition drop_fragments (acc : Setsum) (st : GcState) (frags : list Fragment) :
    M (Setsum * GcState) :=
  foldM (fun '(acc, st) frag =>
           let! (delta, st) := lift (drop_fragment st frag) in ret (acc +ₛ delta, st))
    (acc, st) frags.

(** The head of [drop_snapshot] and [replace_snapshot]. *)
Definition fetch_snapshot (ptr : SnapshotPointer) : M Snapshot :=
  let! cached := cache_get ptr in
  match cached with
  | Some snapshot => ret snapshot
  | None =>
      let! loaded := Snapshot_load prefix ptr in
      match loaded with
      | Some snapshot => ret snapshot
      | None => throw (ScrubError_ (MissingSnapshot ptr))
      end
  end.

Fixpoint drop_snapshot (fuel : nat) (st : GcState) (ptr : SnapshotPointer) : M (Setsum * GcState) :=
  match fuel with
  | O => out_of_fuel
  | S fuel =>
      let! snapshot := fetch_snapshot ptr in
      let! (drop_acc, st) :=
        foldM (fun '(acc, st) snap =>
                 let! (delta, st) := drop_snapshot fuel st snap in ret (acc +ₛ delta, st))
          (setsum_default, st) (snap_snapshots snapshot) in
      let! (drop_acc, st) := drop_fragments drop_acc st (snap_fragments snapshot) in
      if bool_decide (drop_acc = snap_setsum snapshot)
      then ret (snap_setsum snapshot, push_drop ptr st)
      else throw (ScrubError_ (CorruptSnapshotDrop (snap_setsum snapshot) drop_acc))
  end.

Definition drop_snapshots (fuel : nat) (acc : Setsum) (st : GcState) (snaps : list SnapshotPointer) :
    M (Setsum * GcState) :=
  foldM (fun '(acc, st) snap =>
           let! (delta, st) := drop_snapshot fuel st snap in ret (acc +ₛ delta, st))
    (acc, st) snaps.

Definition expired (keep limit : LogPosition) : bool := LogPosition.leb limit keep.
Definition straddles (keep : LogPosition) (snap : SnapshotPointer) : bool :=
  LogPosition.contains_offset (ptr_start snap) (ptr_limit snap) (offset keep).

(** The snapshot that stands for what is kept of another. *)
Definition remnant (snaps : list SnapshotPointer) (frags : list Fragment) : Snapshot :=
  let sum := setsum_of ptr_setsum snaps +ₛ setsum_of frag_setsum frags in
  mkSnapshot (unprefixed_snapshot_path sum) (u8_add (max_depth snaps) 1) sum
    "garbage collection" snaps frags.

Fixpoint replace_snapshot (fuel : nat) (st : GcState) (ptr : SnapshotPointer) :
    M (Setsum * option SnapshotPointer * GcState) :=
  match fuel with
  | O => out_of_fuel
  | S fuel =>
      let! snapshot := fetch_snapshot ptr in
      let keep := gs_keep st in
      let fragments_to_drop := List.filter (fun f => expired keep (frag_limit f)) (snap_fragments snapshot) in
      let fragments_to_keep :=
        List.filter (fun f => negb (expired keep (frag_limit f))) (snap_fragments snapshot) in
      let to_drop := List.filter (fun s => expired keep (ptr_limit s)) (snap_snapshots snapshot) in
      let to_split := List.filter (fun s => negb (expired keep (ptr_limit s)) && straddles keep s)
                        (snap_snapshots snapshot) in
      let to_keep := List.filter (fun s => negb (expired keep (ptr_limit s)) && negb (straddles keep s))
                       (snap_snapshots snapshot) in
      if negb (length fragments_to_drop + length fragments_to_keep =? length (snap_fragments snapshot))%nat
      then throw (ScrubError_ (ScrubInternal "fragments don't balance")) else
      if negb (length to_drop + length to_split + length to_keep =? length (snap_snapshots snapshot))%nat
         || (1 <? length to_split)%nat
      then throw (ScrubError_ (ScrubInternal "snapshots don't balance")) else
      if bool_decide (fragments_to_drop <> []) && bool_decide (to_split <> [])
      then throw (ScrubError_ (ScrubInternal
                    "invalid state:  dropping fragments and splitting a snapshot")) else
      let! (drop_acc, st) := drop_snapshots fuel setsum_default st to_drop in
      let! (drop_acc, to_keep, st) :=
        match last to_split with
        | Some split =>
            let! (delta, new_child, st) := replace_snapshot fuel st split in
            ret (drop_acc +ₛ delta,
                 match new_child with Some c => c :: to_keep | None => to_keep end, st)
        | None => ret (drop_acc, to_keep, st)
        end in
      let new_snapshot := remnant to_keep fragments_to_keep in
      let '(new_pointer, st) :=
        if bool_decide (to_pointer new_snapshot <> ptr) &&
           (bool_decide (snap_fragments new_snapshot <> []) ||
            bool_decide (snap_snapshots new_snapshot <> []))
        then (to_pointer new_snapshot, push_make new_snapshot (push_drop ptr st))
        else (ptr, st) in
      let! (drop_acc, st) := drop_fragments drop_acc st fragments_to_drop in
      ret (drop_acc, Some new_pointer, st)
  end.

Definition initial_state (keep : LogPosition) : GcState :=
  mkGcState (mkGarbage [] [] None (mkSeqNo 0) (mkSeqNo 0) setsum_default keep) true keep.

Definition Garbage_new (fuel : nat) (m : Manifest) (keep : LogPosition) : M (option Garbage) :=
  let dropped_snapshots := List.filter (fun s => expired keep (ptr_limit s)) (snapshots m) in
  let replaced_snapshots := List.filter (straddles keep) (snapshots m) in
  let dropped_fragments := List.filter (fun f => expired keep (frag_limit f)) (fragments m) in
  if (1 <? length replaced_snapshots)%nat
  then throw (CorruptGarbage "More than one snapshot needs replacing") else
  let! (drop_acc, st) := drop_snapshots fuel setsum_default (initial_state keep) dropped_snapshots in
  let! (drop_acc, st) := drop_fragments drop_acc st dropped_fragments in
  let! (drop_acc, st) :=
    foldM (fun '(acc, st) snap =>
             let! (delta, root, st) := replace_snapshot fuel st snap in
             ret (acc +ₛ delta, set_root root st))
      (drop_acc, st) replaced_snapshots in
  let g := gs_garbage st in
  if bool_decide (drop_acc <> setsum_to_discard g)
  then throw (ScrubError_ (ScrubCorruptGarbage "setsums don't balance")) else
  let g := mkGarbage (snapshots_to_drop g) (snapshots_to_make g) (snapshot_for_root g)
             (fragments_to_drop_start g) (fragments_to_drop_limit g) (setsum_to_discard g) (gs_keep st) in
  ret (if negb (gs_first st) then Some g else None).

Definition prefixed_paths_to_delete (g : Garbage) : list string :=
  ((fun s => prefix +:+ "/" +:+ path_to_snapshot s) <$> snapshots_to_drop g) ++
  ((fun n => prefixed_fragment_path prefix (mkSeqNo n)) <$>
     range_u64 (fsn (fragments_to_drop_start g)) (fsn (fragments_to_drop_limit g))).

Definition bug_patch_construct_garbage_from_manifest (m : Manifest) (seq_no : FragmentSeqNo)
    (keep : LogPosition) : Garbage :=
  let garbage := mkGarbage [] [] None seq_no seq_no setsum_default keep in
  foldl (fun g snapshot =>
           if expired (first_to_keep g) (ptr_limit snapshot)
           then mkGarbage (snapshots_to_drop g ++ [snapshot]) (snapshots_to_make g) (snapshot_for_root g)
                  (fragments_to_drop_start g) (fragments_to_drop_limit g)
                  (setsum_to_discard g +ₛ ptr_setsum snapshot) (first_to_keep g)
           else g) garbage (snapshots m).
End Operations.
