(* ===== verification/Reader.v ===== *)
(** * Reading the log

    [rust/wal3/src/reader.rs]: scanning a manifest and its snapshots for the
    fragments of a range, with limits on records, files and bytes; reading a
    fragment's parquet file; and the deep scrub that compares every fragment
    with its file.  The parquet and arrow crates are the parameter [Parquet]. *)

From S2P Require Import Prelude Setsum Storage Types Paths Effects Manifest Persist.

#[local] Open Scope Z_scope.
#[local] Open Scope wal_scope.

(** ** Parquet *)

Inductive Column :=
| UInt64Array (values : list Z)
| BinaryArray (values : list bytes)
| OtherArray.

Record RecordBatch := mkRecordBatch {
  num_rows : nat;
  column_by_name : string -> option Column;
}.

(** [ArrowWriter] and [ParquetRecordBatchReaderBuilder]: a file is written from
    one batch and read as a sequence of batches, each of which can fail. *)
Class Parquet := {
  parquet_write : RecordBatch -> option bytes;
  parquet_read : bytes -> option (list (option RecordBatch));
}.

Definition as_uint64 (c : Column) : option (list Z) :=
  match c with UInt64Array l => Some l | _ => None end.
Definition as_binary (c : Column) : option (list bytes) :=
  match c with BinaryArray l => Some l | _ => None end.

(** The rows of the three columns of a batch, when they are there and have the
    right types. *)
Definition batch_rows (b : RecordBatch) : option (list (Z * Z * bytes)) :=
  offset ← column_by_name b "offset";
  epoch_micros ← column_by_name b "timestamp_us";
  body ← column_by_name b "body";
  offset ← as_uint64 offset;
  epoch_micros ← as_uint64 epoch_micros;
  body ← as_binary body;
  Some ((fun i => (default 0 (offset !! i), default 0 (epoch_micros !! i), default [] (body !! i)))
          <$> seq 0 (num_rows b)).

Fixpoint batches_rows (l : list (option RecordBatch)) : option (list (Z * Z * bytes)) :=
  match l with
  | [] => Some []
  | None :: _ => None
  | Some b :: l => rows ← batch_rows b; rest ← batches_rows l; Some (rows ++ rest)
  end.

(** A file that was written reads as the rows of its batch. *)
Class ParquetLaws (P : Parquet) : Prop := {
  parquet_read_write : forall b bs rows,
    parquet_write b = Some bs -> batch_rows b = Some rows ->
    exists l, parquet_read bs = Some l /\ batches_rows l = Some rows;
}.

(** [u64::to_be_bytes]. *)
Definition to_be_bytes (z : Z) : bytes :=
  (fun i : nat => default Byte.x00 (Byte.of_N (Z.to_N (z / 256 ^ Z.of_nat (7 - i) mod 256)))) <$> seq 0 8.

(** ** Limits *)

Record Limits := mkLimits {
  max_files : option Z;
  max_bytes : option Z;
  max_records : option Z;
}.

Definition UNLIMITED : Limits := mkLimits None None None.

Definition ranges_overlap (lhs rhs : LogPosition * LogPosition) : bool :=
  LogPosition.ltb lhs.1 rhs.2 && LogPosition.ltb rhs.1 lhs.2.

Section Scans.
Context {SS : SetsumSig}.

(** [while fragments.len() > 1 && cond(fragments) { pop }], from the end; the
    list is reversed so that the last fragment is at the head. *)
Fixpoint pop_while (cond : list Fragment -> bool) (rev_frags : list Fragment) (short : bool) :
    list Fragment * bool :=
  match rev_frags with
  | _ :: ((_ :: _) as rest) => if cond rev_frags then pop_while cond rest true else (rev_frags, short)
  | _ => (rev_frags, short)
  end.

Definition starts_too_late (from : LogPosition) (limits : Limits) (rev_frags : list Fragment) : bool :=
  match rev_frags with
  | last :: _ => default u64_max (max_records limits) <? LogPosition.diff (frag_start last) from
  | [] => false
  end.

Definition too_many_bytes (limits : Limits) (rev_frags : list Fragment) : bool :=
  default u64_max (max_bytes limits) <?
    foldl saturating_add 0 (frag_num_bytes <$> reverse rev_frags).

Definition post_process_fragments (frags : list Fragment) (from : LogPosition) (limits : Limits)
    (short_read : bool) : list Fragment * bool :=
  let frags := sort_by_key (fun f => offset (frag_start f)) frags in
  let '(frags, short_read) :=
    match max_files limits with
    | Some n => if n <? Z.of_nat (length frags) then (take (Z.to_nat n) frags, true)
                else (frags, short_read)
    | None => (frags, short_read)
    end in
  let '(rev_frags, short_read) := pop_while (starts_too_late from limits) (reverse frags) short_read in
  let '(rev_frags, short_read) := pop_while (too_many_bytes limits) rev_frags short_read in
  (reverse rev_frags, short_read).

(** The positions a scan asks for. *)
Definition scan_range (from : LogPosition) (limits : Limits) : LogPosition * LogPosition :=
  match max_records limits with
  | Some n => (from, LogPosition.add from n)
  | None => (from, LogPosition.MAX)
  end.

Definition in_range (range : LogPosition * LogPosition) (f : Fragment) : bool :=
  ranges_overlap range (frag_start f, frag_limit f).

Definition scan_from_manifest (m : Manifest) (from : LogPosition) (limits : Limits) :
    option (list Fragment) :=
  if match max_records limits with
     | Some n => saturating_add (offset from) n =? u64_max
     | None => false
     end then None else
  let range := scan_range from limits in
  if negb (existsb (fun f => LogPosition.leb (frag_start f) range.1) (fragments m)) then None else
  if negb (existsb (fun f => LogPosition.ltb range.2 (frag_limit f)) (fragments m)) then None else
  Some (post_process_fragments (List.filter (in_range range) (fragments m)) from limits false).1.
End Scans.

Section Operations.
Context {SS : SetsumSig} {OS : ObjectStore} {parquet : Parquet}.
Context {serde_manifest : Serde Manifest} {serde_snapshot : Serde Snapshot}.
Variable prefix : string.
(** The cache of the reader, [None] unless [with_cache] set it. *)
Variable cache : option SnapshotCache.

(** [LogReader::verify], [manifest], [manifest_and_e_tag], [oldest_timestamp]
    and [next_write_timestamp]. *)
Definition verify (m : ManifestAndETag) : M bool := head prefix (stable_e_tag m).

Definition reader_manifest : M (option Manifest) :=
  let! r := Manifest_load prefix in ret (fst <$> r).

Definition manifest_and_e_tag : M (option ManifestAndETag) :=
  let! r := Manifest_load prefix in
  ret ((fun '(m, e) => mkManifestAndETag m e) <$> r).

(** [let Some((manifest, _)) = Manifest::load(..)? else { return Err(..) }]. *)
Definition load_initialized : M Manifest :=
  let! r := Manifest_load prefix in
  match r with
  | Some (m, _) => ret m
  | None => throw UninitializedLog
  end.

Definition reader_oldest_timestamp : M LogPosition :=
  let! m := load_initialized in ret (oldest_timestamp m).

Definition reader_next_write_timestamp : M LogPosition :=
  let! m := load_initialized in ret (next_write_timestamp m).

(** One future of the level that [scan_with_cache] resolves. *)
Definition resolve (p : SnapshotPointer) : M (option Snapshot) :=
  match cache with
  | Some c =>
      let! hit := @cache_get _ _ c p in
      match hit with
      | Some snapshot => ret (Some snapshot)
      | None =>
          let! snap := Snapshot_load prefix p in
          match snap with
          | Some s => let! _ := @cache_put _ _ c p s in ret (Some s)
          | None => ret None
          end
      end
  | None => Snapshot_load prefix p
  end.

(** The pass over a resolved level. *)
Fixpoint expand (resolved : list (option Snapshot)) (level : list SnapshotPointer)
    (snaps : list SnapshotPointer) (frags : list Fragment) :
    result (list SnapshotPointer * list Fragment) Error :=
  match resolved, level with
  | r :: resolved, s :: level =>
      match r with
      | Some r => expand resolved level (snaps ++ snap_snapshots r) (frags ++ snap_fragments r)
      | None => Err (CorruptManifest "snapshot is missing")
      end
  | _, _ => Ok (snaps, frags)
  end.

(** [while !snapshots.is_empty()]: one level of the trees per iteration. *)
Fixpoint resolve_levels (fuel : nat) (snaps : list SnapshotPointer) (frags : list Fragment) :
    M (list Fragment) :=
  match snaps with
  | [] => ret frags
  | _ =>
      match fuel with
      | O => out_of_fuel
      | S fuel =>
          let! resolved := mapM resolve snaps in
          let! (snaps, frags) := lift (expand resolved snaps [] frags) in
          resolve_levels fuel snaps frags
      end
  end.

Definition scan_with_cache (fuel : nat) (m : Manifest) (from : LogPosition) (limits : Limits)
    (short_read : bool) : M (list Fragment * bool) :=
  let range := scan_range from limits in
  let snaps := List.filter (fun s => ranges_overlap range (ptr_start s, ptr_limit s)) (snapshots m) in
  let frags := List.filter (in_range range) (fragments m) in
  let! frags := resolve_levels fuel snaps frags in
  let frags := List.filter (fun f => LogPosition.ltb from (frag_limit f)) frags in
  let frags := sort_by_key (fun f => offset (frag_start f)) frags in
  ret (post_process_fragments frags from limits short_read).

Definition scan (fuel : nat) (from : LogPosition) (limits : Limits) : M (list Fragment) :=
  let! m := load_initialized in
  let! (frags, _) := scan_with_cache fuel m from limits false in
  ret frags.

(** ** Fragments *)

Definition fetch (f : Fragment) : M bytes :=
  let! (b, _) := request_or_fail (get_with_e_tag (fragment_path prefix (frag_path f))) in
  ret b.

Definition insert_row (sum : Setsum) (row : Z * Z * bytes) : Setsum :=
  let '(offset, epoch_micros, body) := row in
  insert_vectored sum [to_be_bytes offset; to_be_bytes epoch_micros; body].

Definition read_parquet (path : string) : M (Setsum * list (LogPosition * bytes) * Z) :=
  let path := fragment_path prefix path in
  let! (bs, _) := request_or_fail (get_with_e_tag path) in
  let num_bytes := Z.of_nat (length bs) in
  match parquet_read bs with
  | None => throw (ParquetError "parquet")
  | Some batches =>
      match batches_rows batches with
      | None => throw (CorruptFragment path)
      | Some rows =>
          ret (foldl insert_row setsum_default rows,
               (fun '(offset, _, body) => (from_offset offset, body)) <$> rows, num_bytes)
      end
  end.

Definition read_fragment (path : string) : M (option Fragment) :=
  match parse_fragment_path path with
  | None => throw (MissingFragmentSequenceNumber path)
  | Some seq_no =>
      attempt (read_parquet path) (fun r =>
        match r with
        | Ok (sum, data, num_bytes) =>
            if bool_decide (data = []) then throw (CorruptFragment path) else
            let offsets := (fun d => offset d.1) <$> data in
            let start := default 0 (min_by_key id offsets) in
            let limit := default 0 (max_by_key id ((fun o => wrapping_add o 1) <$> offsets)) in
            ret (Some (mkFragment path seq_no (from_offset start) (from_offset limit) num_bytes sum))
        | Err (StorageError_ e) => if is_not_found e then ret None else throw (StorageError_ e)
        | Err e => throw e
        end)
  end.

(** ** The deep scrub *)

(** The comparison of a fragment with its file. *)
Definition compare_fragment (reference empirical : Fragment) : result Fragment Error :=
  if bool_decide (frag_path reference <> frag_path empirical)
  then Err (ScrubError_ (MismatchedPath reference empirical)) else
  if bool_decide (frag_seq_no reference <> frag_seq_no empirical)
  then Err (ScrubError_ (MismatchedSeqNo reference empirical)) else
  if bool_decide (frag_num_bytes reference <> frag_num_bytes empirical)
  then Err (ScrubError_ (MismatchedNumBytes reference empirical)) else
  if bool_decide (frag_start reference <> frag_start empirical)
  then Err (ScrubError_ (MismatchedStart reference empirical)) else
  if bool_decide (frag_limit reference <> frag_limit empirical)
  then Err (ScrubError_ (MismatchedLimit reference empirical)) else
  if bool_decide (frag_setsum reference <> frag_setsum empirical)
  then Err (ScrubError_ (MismatchedFragmentSetsum reference empirical)) else
  Ok reference.

(** One future of the scrub: it keeps its error as a value. *)
Definition check_fragment (reference : Fragment) : M (result Fragment Error) :=
  attempt (read_fragment (frag_path reference)) (fun r =>
    match r with
    | Ok (Some empirical) => ret (compare_fragment reference empirical)
    | Ok None => ret (Err (ScrubError_ (MissingFragment reference)))
    | Err e => ret (Err e)
    end).

(** The loop over the results of the futures. *)
Definition tally (acc : Setsum * Z * list Error) (r : result Fragment Error) : Setsum * Z * list Error :=
  let '(sum, bytes, errors) := acc in
  match r with
  | Ok f => (sum +ₛ frag_setsum f, wrapping_add bytes (frag_num_bytes f), errors)
  | Err e => (sum, bytes, errors ++ [e])
  end.

(** [LogReader::scrub] has a list of errors where other operations have one. *)
Definition reader_scrub (fuel : nat) (limits : Limits) : M (result ScrubSuccess (list Error)) :=
  attempt load_initialized (fun r =>
    match r with
    | Err e => ret (Err [e])
    | Ok m =>
        match Manifest.scrub m with
        | Err e => ret (Err [ScrubError_ e])
        | Ok manifest_scrub =>
            attempt (scan_with_cache fuel m (oldest_timestamp m) limits false) (fun r =>
              match r with
              | Err e => ret (Err [e])
              | Ok (frags, short) =>
                  if bool_decide (frags = [])
                  then ret (Ok (mkScrubSuccess (calculated_setsum manifest_scrub) 0
                                  (Types.short_read manifest_scrub)))
                  else
                    let! results := mapM check_fragment frags in
                    let '(sum, bytes, errors) := foldl tally (setsum_default, 0, []) results in
                    let observed := mkScrubSuccess sum bytes short in
                    ret (if negb short && bool_decide (manifest_scrub <> observed)
                         then Err (ScrubError_ (OverallMismatch manifest_scrub observed) :: errors)
                         else if short then Err [Success]
                         else Ok observed)
              end)
        end
    end).
End Operations.
