(* ===== verification/ManifestManager.v ===== *)
(** * The manifest manager

    [rust/wal3/src/manifest_manager.rs]: the staging area in which fragments
    wait to be added to the manifest, the batching of their application with
    rollups and garbage collection, and the recovery of a log.

    The state behind the mutex is the record [Staging].  The sender of a
    [oneshot] channel is a number, and the messages sent are collected, oldest
    first, in the list the operations return.  [do_work] is written out as the
    loop it is; since other threads take the mutex between its iterations, the
    step relation [step] interleaves its parts with the other operations. *)

From S2P Require Import Prelude Setsum Storage Types Paths Effects Manifest Persist Gc Reader.

#[local] Open Scope Z_scope.
#[local] Open Scope wal_scope.

(** The trait [MarkDirty]: what a log calls when it has new records. *)
Class MarkDirty {SS : SetsumSig} {OS : ObjectStore} := {
  mark_dirty : LogPosition -> Z -> M unit;
}.

(** [impl MarkDirty for ()]. *)
Definition unit_mark_dirty {SS : SetsumSig} {OS : ObjectStore} : MarkDirty := {|
  mark_dirty := fun _ _ => ret tt;
|}.

(** The sender of a channel, and messages on channels: no error, or the error. *)
Abbreviation Tx := nat.
Abbreviation Sent := (list (Tx * option Error)).

Section Definitions.
Context {SS : SetsumSig}.

Record Staging := mkStaging {
  stable : ManifestAndETag;
  staged : list (Fragment * Tx);
  next_log_position : LogPosition;
  next_seq_no_to_assign : FragmentSeqNo;
  next_seq_no_to_apply : FragmentSeqNo;
  staged_garbage : option (Garbage * Tx);
  last_batch : Z;
  tearing_down : bool;
}.

(** The parts of [ManifestManager] that are fixed when it is made. *)
Record Manager := mkManager {
  mm_snapshot : SnapshotOptions;
  mm_prefix : string;
  mm_writer : string;
}.

(** What [pull_work] returns. *)
Record Work := mkWork {
  old_manifest : Manifest;
  old_e_tag : ETag;
  new_manifest : Manifest;
  work_next_seq_no : FragmentSeqNo;
  work_snapshot : option Snapshot;
  notifiers : list Tx;
}.

Definition send_all (txs : list Tx) (msg : option Error) : Sent := (fun tx => (tx, msg)) <$> txs.

Definition set_staged (l : list (Fragment * Tx)) (st : Staging) : Staging :=
  mkStaging (stable st) l (next_log_position st) (next_seq_no_to_assign st) (next_seq_no_to_apply st)
    (staged_garbage st) (last_batch st) (tearing_down st).
Definition take_garbage (st : Staging) : Staging :=
  mkStaging (stable st) (staged st) (next_log_position st) (next_seq_no_to_assign st)
    (next_seq_no_to_apply st) None (last_batch st) (tearing_down st).
Definition set_last_batch (now : Z) (st : Staging) : Staging :=
  mkStaging (stable st) (staged st) (next_log_position st) (next_seq_no_to_assign st)
    (next_seq_no_to_apply st) (staged_garbage st) now (tearing_down st).
Definition set_next_apply (s : FragmentSeqNo) (st : Staging) : Staging :=
  mkStaging (stable st) (staged st) (next_log_position st) (next_seq_no_to_assign st) s
    (staged_garbage st) (last_batch st) (tearing_down st).

Definition set_writer (w : string) (m : Manifest) : Manifest :=
  mkManifest (setsum m) (collected m) (acc_bytes m) w (snapshots m) (fragments m)
    (initial_offset m) (initial_seq_no m).

Definition did_not_apply : Error :=
  GarbageCollectionPrecondition (Stringy "given empty garbage that did not apply").

Definition pull_gc_work_only (st : Staging) : option Work * Staging * Sent :=
  match staged_garbage st with
  | Some (garbage, notifier) =>
      let st := take_garbage st in
      match apply_garbage (stable_manifest (stable st)) garbage with
      | Ok (Some m) =>
          (Some (mkWork (stable_manifest (stable st)) (stable_e_tag (stable st)) m
                   (next_seq_no_to_apply st) None [notifier]), st, [])
      | Ok None => (None, st, [(notifier, None)])
      | Err err => (None, st, [(notifier, Some err)])
      end
  | None => (None, st, [])
  end.

(** The loop of [pull_work] over the fragments in the order of their sequence
    numbers. *)
Fixpoint apply_staged (frags : list (Fragment * Tx)) (m : Manifest) (next : FragmentSeqNo)
    (ns : list Tx) (postpone : list (Fragment * Tx)) :
    Manifest * FragmentSeqNo * list Tx * list (Fragment * Tx) :=
  match frags with
  | [] => (m, next, ns, postpone)
  | (f, tx) :: frags =>
      if bool_decide (frag_seq_no f = next) && can_apply_fragment m f
      then apply_staged frags (apply_fragment m f) (FragmentSeqNo.add next 1) (ns ++ [tx]) postpone
      else apply_staged frags m next ns (postpone ++ [(f, tx)])
  end.

Definition pull_work (mgr : Manager) (now : Z) (st : Staging) : option Work * Staging * Sent :=
  if bool_decide (staged st = []) then pull_gc_work_only st else
  let m := set_writer (mm_writer mgr) (stable_manifest (stable st)) in
  let frags := sort_by_key (fun x => fsn (frag_seq_no x.1)) (staged st) in
  let '(m, next, ns, postpone) := apply_staged frags m (next_seq_no_to_apply st) [] [] in
  let st := set_staged postpone st in
  if bool_decide (ns = []) then pull_gc_work_only st else
  let st := set_last_batch now st in
  let finish (m : Manifest) (st : Staging) (snapshot : option Snapshot) (ns : list Tx) (sent : Sent) :=
    let st := set_next_apply next st in
    (Some (mkWork (stable_manifest (stable st)) (stable_e_tag (stable st)) m next snapshot ns), st, sent) in
  match staged_garbage st with
  | Some (garbage, notifier) =>
      let st := take_garbage st in
      match apply_garbage m garbage with
      | Ok (Some m) => finish m st None (ns ++ [notifier]) []
      | Ok None => finish m st None ns [(notifier, Some did_not_apply)]
      | Err err => (None, st, send_all (ns ++ [notifier]) (Some err))
      end
  | None =>
      match generate_snapshot m (mm_snapshot mgr) (mm_writer mgr) with
      | Some s =>
          match apply_snapshot m s with
          | (Err err, _) => (None, st, send_all ns (Some err))
          | (Ok _, m) => finish m st (Some s) ns []
          end
      | None => finish m st None ns []
      end
  end.

(** [impl Drop for Staging]. *)
Definition drop_staging (st : Staging) : Sent := send_all (staged st).*2 (Some LogContentionDurable).

Definition shutdown (st : Staging) : Staging * Sent :=
  (mkStaging (stable st) [] (next_log_position st) (next_seq_no_to_assign st) (next_seq_no_to_apply st)
     None (last_batch st) true,
   send_all ((staged st).*2 ++ match staged_garbage st with Some (_, tx) => [tx] | None => [] end)
     (Some LogContentionDurable)).

Definition latest (st : Staging) : ManifestAndETag := stable st.

Definition assign_timestamp (record_count : Z) (st : Staging) :
    option (FragmentSeqNo * LogPosition) * Staging :=
  let position := next_log_position st in
  let seq_no := next_seq_no_to_assign st in
  let st := mkStaging (stable st) (staged st)
              (from_offset (saturating_add (offset position) record_count))
              (FragmentSeqNo.add seq_no 1) (next_seq_no_to_apply st) (staged_garbage st)
              (last_batch st) (tearing_down st) in
  (if offset position <? u64_max then Some (seq_no, position) else None, st).

Definition push_work (f : Fragment) (tx : Tx) (st : Staging) : Staging * Sent :=
  if tearing_down st then (st, [(tx, Some LogContentionDurable)])
  else (set_staged (staged st ++ [(f, tx)]) st, []).

Definition garbage_applies_cleanly (g : Garbage) (st : Staging) : bool :=
  match apply_garbage (stable_manifest (stable st)) g with
  | Ok (Some _) => true
  | _ => false
  end.

(** The part of [ManifestManager::apply_garbage] under the mutex. *)
Definition stage_garbage (g : Garbage) (tx : Tx) (st : Staging) : result Staging Error :=
  match staged_garbage st with
  | Some _ => Err (GarbageCollection "tried collecting garbage twice")
  | None => Ok (mkStaging (stable st) (staged st) (next_log_position st) (next_seq_no_to_assign st)
                  (next_seq_no_to_apply st) (Some (g, tx)) (last_batch st) (tearing_down st))
  end.

Definition count_waiters (st : Staging) : nat := length (staged st).

(** What [do_work] does under the mutex after a manifest was installed. *)
Definition installed_work (w : Work) (e_tag : ETag) (st : Staging) : Staging :=
  mkStaging (mkManifestAndETag (new_manifest w) e_tag) (staged st) (next_log_position st)
    (next_seq_no_to_assign st) (work_next_seq_no w) (staged_garbage st) (last_batch st) (tearing_down st).
End Definitions.

(** ** The operations that use the store *)

Section Operations.
Context {SS : SetsumSig} {OS : ObjectStore} {parquet : Parquet} {dirty : MarkDirty}.
Context {serde_manifest : Serde Manifest} {serde_snapshot : Serde Snapshot}.

Definition ManifestManager_new (snapshot : SnapshotOptions) (prefix writer : string) :
    M (Manager * Staging) :=
  let! r := Manifest_load prefix in
  match r with
  | None => throw UninitializedLog
  | Some (m, e_tag) =>
      match next_fragment_seq_no m with
      | None => throw LogFull
      | Some next =>
          let! now := instant_now in
          ret (mkManager snapshot prefix writer,
               mkStaging (mkManifestAndETag m e_tag) [] (next_write_timestamp m) next next None now false)
      end
  end.

(** One iteration of the loop of [do_work] that has work to do. *)
Definition perform (mgr : Manager) (work : Work) (st : Staging) (sent : Sent) : M (Staging * Sent) :=
  attempt (match work_snapshot work with
           | Some s => let! _ := Snapshot_install (mm_prefix mgr) s in ret tt
           | None => ret tt
           end) (fun r =>
    match r with
    | Err err => ret (st, sent ++ send_all (notifiers work) (Some err))
    | Ok _ =>
        attempt (Manifest_install (mm_prefix mgr) (Some (old_e_tag work)) (new_manifest work)) (fun r =>
          match r with
          | Ok e_tag => ret (installed_work work e_tag st, sent ++ send_all (notifiers work) None)
          | Err e => ret (st, sent ++ send_all (notifiers work) (Some e))
          end)
    end).

(** The loop of [do_work]; no other thread runs between its iterations. *)
Fixpoint do_work (fuel : nat) (mgr : Manager) (st : Staging) (sent : Sent) : M (Staging * Sent) :=
  match fuel with
  | O => out_of_fuel
  | S fuel =>
      let! now := instant_now in
      let '(work, st, sent') := pull_work mgr now st in
      let sent := sent ++ sent' in
      match work with
      | None => ret (st, sent)
      | Some work =>
          let! (st, sent) := perform mgr work st sent in
          do_work fuel mgr st sent
      end
  end.

(** The first message on a channel. *)
Definition received (tx : Tx) (sent : Sent) : option (option Error) :=
  snd <$> List.find (fun x => Nat.eqb x.1 tx) sent.

(** [publish_fragment] on a fresh channel [tx].  A caller whose fragment stays
    staged waits for another thread to take it: it does not return by itself. *)
Definition publish_fragment (fuel : nat) (mgr : Manager) (f : Fragment) (tx : Tx) (st : Staging) :
    M (result unit Error * Staging * Sent) :=
  let '(st, sent) := push_work f tx st in
  let! (st, sent) := do_work fuel mgr st sent in
  match received tx sent with
  | Some None => ret (Ok tt, st, sent)
  | Some (Some err) => ret (Err err, st, sent)
  | None => if bool_decide (tx ∈ (staged st).*2) then out_of_fuel else ret (Err Internal, st, sent)
  end.

Definition ManifestManager_apply_garbage (fuel : nat) (mgr : Manager) (g : Garbage) (tx : Tx) (st : Staging) :
    M (result unit Error * Staging * Sent) :=
  match stage_garbage g tx st with
  | Err e => ret (Err e, st, [])
  | Ok st =>
      let! (st, sent) := do_work fuel mgr st [] in
      ret (match received tx sent with
           | Some None => Ok tt
           | Some (Some err) => Err err
           | None => Err (GarbageCollection "Unable to receive message for garbage application completion")
           end, st, sent)
  end.

Definition recover (fuel : nat) (mgr : Manager) (tx : Tx) (st : Staging) : M (Staging * Sent) :=
  let! next := read_fragment (mm_prefix mgr) (unprefixed_fragment_path (next_seq_no_to_apply st)) in
  match next with
  | Some f =>
      let! _ := mark_dirty (frag_start f) (LogPosition.diff (frag_limit f) (frag_start f)) in
      let! (r, st, sent) := publish_fragment fuel mgr f tx st in
      match r with
      | Ok _ => throw LogContentionRetry
      | Err LogContentionDurable => throw LogContentionRetry
      | Err e => throw e
      end
  | None => ret (st, [])
  end.

Definition heartbeat (mgr : Manager) (st : Staging) : M unit :=
  let! r := Manifest_load (mm_prefix mgr) in
  match r with
  | None => throw UninitializedLog
  | Some (_, e_tag) =>
      if bool_decide (e_tag = stable_e_tag (stable st)) then ret tt else throw LogContentionFailure
  end.

Definition compute_garbage {cache : SnapshotCache} (fuel : nat) (mgr : Manager) (keep : LogPosition)
    (st : Staging) : M (option Garbage) :=
  Garbage_new (mm_prefix mgr) fuel (stable_manifest (stable st)) keep.
End Operations.
