(* ===== verification/BatchManager.v ===== *)
(** * The batch manager

    [rust/wal3/src/batch_manager.rs]: appends are enqueued and taken in batches,
    no more often than the throttle allows and one batch at a time.

    Instants are counted in microseconds; a function that reads the clock takes
    what each read returned as an argument.  [tokio::sync::Notify] with its one
    waiter, the flusher, is the permit that [notify_one] stores and
    [notified().await] consumes.  A division by zero, which panics, is [None]. *)

From S2P Require Import Prelude Setsum Storage Types Paths Effects Manifest Persist Gc Reader ManifestManager.

#[local] Open Scope Z_scope.
#[local] Open Scope wal_scope.

(** An entry of the queue: the messages, and the sender of the channel on which
    the position, or the error, is awaited. *)
Abbreviation Entry := (list bytes * Tx)%type.
Abbreviation Answers := (list (Tx * result LogPosition Error)).

Section Definitions.
Context {SS : SetsumSig}.

Record ManagerState := mkManagerState {
  bm_backoff : bool;
  next_write : Z;
  writers_active : Z;
  enqueued : list Entry;
  bm_tearing_down : bool;
  write_finished : bool;
}.

(** [Notify::notify_one]. *)
Definition notify_one (s : ManagerState) : ManagerState :=
  mkManagerState (bm_backoff s) (next_write s) (writers_active s) (enqueued s) (bm_tearing_down s) true.

(** [max(1s / throughput, batch_interval)], in microseconds. *)
Definition write_interval (o : ThrottleOptions) : option Z :=
  if throughput o =? 0 then None
  else Some (Z.max (1000000 / throughput o) (batch_interval_us o)).

Definition set_next_write (o : ThrottleOptions) (now : Z) (s : ManagerState) : option ManagerState :=
  match write_interval o with
  | None => None
  | Some d => Some (mkManagerState (bm_backoff s) (now + d) (writers_active s) (enqueued s)
                      (bm_tearing_down s) (write_finished s))
  end.

Definition select_for_write (o : ThrottleOptions) (record_count now1 now2 : Z) (s : ManagerState) (st : Staging) :
    option (result (option (FragmentSeqNo * LogPosition)) Error * ManagerState * Staging) :=
  if now1 <? next_write s then Some (Ok None, s, st)
  else if 0 <? writers_active s then Some (Ok None, s, st)
  else
    let '(r, st) := assign_timestamp record_count st in
    match r with
    | None => Some (Err LogFull, s, st)
    | Some (seq_no, log_position) =>
        let s := mkManagerState (bm_backoff s) (next_write s) (wrapping_add (writers_active s) 1)
                   (enqueued s) (bm_tearing_down s) (write_finished s) in
        match set_next_write o now2 s with
        | None => None
        | Some s => Some (Ok (Some (seq_no, log_position)), s, st)
        end
    end.

Definition state_finish_write (s : ManagerState) : ManagerState :=
  mkManagerState (bm_backoff s) (next_write s) (wrapping_sub (writers_active s) 1) (enqueued s)
    (bm_tearing_down s) (write_finished s).

(** [impl Drop for ManagerState]. *)
Definition drop_state (s : ManagerState) : Answers :=
  (fun x => (x.2, Err LogContentionRetry)) <$> enqueued s.

Definition BatchManager_new (now : Z) : ManagerState := mkManagerState false now 0 [] false false.

Definition bm_push_work (messages : list bytes) (tx : Tx) (s : ManagerState) : ManagerState * Answers :=
  if bm_tearing_down s then (notify_one s, [(tx, Err LogContentionRetry)])
  else if bm_backoff s then (notify_one s, [(tx, Err Backoff)])
  else (mkManagerState (bm_backoff s) (next_write s) (writers_active s) (enqueued s ++ [(messages, tx)])
          (bm_tearing_down s) (write_finished s), []).

(** [notified().await]: returns when there is a permit, which it takes. *)
Definition wait_for_writable (s : ManagerState) : option ManagerState :=
  if write_finished s
  then Some (mkManagerState (bm_backoff s) (next_write s) (writers_active s) (enqueued s) (bm_tearing_down s) false)
  else None.

Definition pump_write_finished (s : ManagerState) : ManagerState := notify_one s.

Definition until_next_time (now : Z) (s : ManagerState) : Z :=
  if now <? next_write s then next_write s - now else 0.

Definition batch_bytes (batch : list bytes) : Z := sum_u64 ((fun r => Z.of_nat (length r)) <$> batch).

(** The loop of [take_work]: the number of entries that fit, the number of
    their records, and whether it stopped early. *)
Fixpoint split_work (size : Z) (q : list Entry) (split_off : nat) (acc_count acc_bytes : Z) :
    nat * Z * bool :=
  match q with
  | [] => (split_off, acc_count, false)
  | (batch, _) :: q =>
      let cur_count := Z.of_nat (length batch) in
      let cur_bytes := batch_bytes batch in
      if (0 <? split_off)%nat && (size <=? wrapping_add acc_bytes cur_bytes)
      then (split_off, acc_count, true)
      else split_work size q (S split_off) (wrapping_add acc_count cur_count) (wrapping_add acc_bytes cur_bytes)
  end.

Definition Taken : Type := FragmentSeqNo * LogPosition * list Entry.

(** [now1], [now2] and [now3] are the reads of the clock in [take_work],
    [select_for_write] and [set_next_write]. *)
Definition take_work (o : ThrottleOptions) (now1 now2 now3 : Z) (s : ManagerState) (st : Staging) :
    option (result (option Taken) Error * ManagerState * Staging) :=
  if bm_tearing_down s then Some (Ok None, notify_one s, st)
  else if bool_decide (enqueued s = []) then Some (Ok None, s, st)
  else
    let '(split_off, acc_count, did_split) := split_work (batch_size_bytes o) (enqueued s) 0 0 0 in
    if negb did_split && (now1 <? next_write s) then Some (Ok None, notify_one s, st)
    else if (split_off =? 0)%nat then Some (Ok None, notify_one s, st)
    else
      match select_for_write o acc_count now2 now3 s st with
      | None => None
      | Some (Err e, s, st) => Some (Err e, s, st)
      | Some (Ok None, s, st) => Some (Ok None, s, st)
      | Some (Ok (Some (fragment_seq_no, log_position)), s, st) =>
          let work := take split_off (enqueued s) in
          let rest := drop split_off (enqueued s) in
          let s := mkManagerState (bm_backoff s) (next_write s) (writers_active s) rest
                     (bm_tearing_down s) (write_finished s) in
          let s :=
            if bool_decide (rest <> [])
            then notify_one
                   (mkManagerState (batch_size_bytes o <=? sum_u64 ((fun x => batch_bytes x.1) <$> rest))
                      (next_write s) (writers_active s) rest (bm_tearing_down s) (write_finished s))
            else mkManagerState false (next_write s) (writers_active s) rest (bm_tearing_down s) (write_finished s) in
          Some (Ok (Some (fragment_seq_no, log_position, work)), s, st)
      end.

Definition bm_finish_write (s : ManagerState) : ManagerState := notify_one (state_finish_write s).

Definition bm_shutdown (s : ManagerState) : ManagerState * Answers :=
  (mkManagerState (bm_backoff s) (next_write s) (writers_active s) [] true (write_finished s),
   (fun x => (x.2, Err LogContentionRetry)) <$> enqueued s).

Definition bm_count_waiters (s : ManagerState) : nat := length (enqueued s).
End Definitions.
