(* ===== verification/Cursors.v ===== *)
(** * The cursor store

    [rust/wal3/src/cursors.rs]: positions in the log that readers keep, each an
    object of its own that is replaced only over the version that was read.
    The semaphore bounds how many requests are in flight and decides nothing
    else. *)

From S2P Require Import Prelude Setsum Storage Types Paths Effects Persist.
From Stdlib Require Import Ascii.

#[local] Open Scope Z_scope.
#[local] Open Scope wal_scope.

Record Cursor := mkCursor {
  cursor_position : LogPosition;
  epoch_us : Z;
  cursor_writer : string;
}.

Definition Cursor_default : Cursor := mkCursor (from_offset 1) 1 "default-cursor".

Record Witness := mkWitness {
  witness_e_tag : ETag;
  witness_cursor : Cursor;
}.

Definition default_etag_with_cursor (c : Cursor) : Witness := mkWitness (mkETag "NO MATCH") c.

(** The fields of [CursorStore] that decide what it does. *)
Record CursorStore := mkCursorStore {
  cs_prefix : string;
  cs_writer : string;
}.

Section Operations.
Context {SS : SetsumSig} {OS : ObjectStore} {serde_cursor : Serde Cursor}.

Definition cursor_path (cs : CursorStore) (name : CursorName.t) : string :=
  cs_prefix cs +:+ "/" +:+ CursorName.path name.

Definition cursor_load (cs : CursorStore) (name : CursorName.t) : M (option Witness) :=
  let! r := request (get_with_e_tag (cursor_path cs name)) in
  match r with
  | Ok (data, e_tag) =>
      match e_tag with
      | None => throw (CorruptCursor "missing ETag for cursor")
      | Some e_tag =>
          let! cursor := decode_or (CorruptCursor "failed to deserialize cursor") data in
          ret (Some (mkWitness e_tag cursor))
      end
  | Err err => if is_not_found err then ret None else throw (StorageError_ err)
  end.

Definition cursor_put (cs : CursorStore) (name : CursorName.t) (cursor : Cursor) (options : PutOptions) :
    M Witness :=
  let cursor := mkCursor (cursor_position cursor) (epoch_us cursor) (cs_writer cs) in
  let! data := encode_or (CorruptCursor "failed to serialize cursor") cursor in
  let! e_tag := request_or_fail (put_bytes (cursor_path cs name) data options) in
  match e_tag with
  | None => throw (CorruptCursor "missing ETag for cursor")
  | Some e_tag => ret (mkWitness e_tag cursor)
  end.

Definition cursor_init (cs : CursorStore) (name : CursorName.t) (cursor : Cursor) : M Witness :=
  cursor_put cs name cursor if_not_exists.

Definition cursor_save (cs : CursorStore) (name : CursorName.t) (cursor : Cursor) (witness : Witness) :
    M Witness :=
  cursor_put cs name cursor (if_matches (witness_e_tag witness)).

(** The loop of [list] over the paths. *)
Fixpoint cursor_names (prefix : string) (paths : list string) : result (list CursorName.t) Error :=
  match paths with
  | [] => Ok []
  | path :: paths =>
      match strip_prefix prefix path with
      | None => cursor_names prefix paths
      | Some cursor =>
          match CursorName.from_path (trim_start_matches "/"%char cursor) with
          | Some name => let? names := cursor_names prefix paths in Ok (name :: names)
          | None => Err (CorruptCursor "do not understand cursor")
          end
      end
  end.

Definition cursor_list (cs : CursorStore) : M (list CursorName.t) :=
  let! paths := request_or_fail (list_prefix (cs_prefix cs +:+ "/cursor/")) in
  lift (cursor_names (cs_prefix cs) paths).
End Operations.

(** ** What the store of cursors promises *)

Section Facts.
Context {SS : SetsumSig} {OS : ObjectStore} {rely : relation Objects} {OL : ObjectStoreLaws OS rely}.
Context {serde_cursor : Serde Cursor} {SDL : SerdeLaws Cursor}.

Lemma cursor_load_Ret cs name w r w' :
  cursor_load cs name w = (Ret r, w') ->
  rely (objects w) (objects w') /\
  match r with
  | None => objects w' !! cursor_path cs name = None
  | Some x => exists b, objects w' !! cursor_path cs name = Some (b, witness_e_tag x) /\
                        from_slice b = Some (witness_cursor x)
  end.
Proof.
  unfold cursor_load, bind, request, decode_or. destruct (get_with_e_tag _ w) as [[[b [t|]]|e] w1] eqn:Hg;
    apply get_law in Hg as [Hr Hx]; try done.
  - destruct (from_slice b) as [c|] eqn:Hb; [|done]. intros [= <- <-]. split; [done|].
    destruct Hx as (t' & Ht' & [[= ->]|?]); [|done]. by exists b.
  - destruct (is_not_found e) eqn:He; [|done]. intros [= <- <-]. by destruct e.
Qed.

Lemma cursor_put_Ret cs name c o w x w' :
  cursor_put cs name c o w = (Ret x, w') ->
  witness_cursor x = mkCursor (cursor_position c) (epoch_us c) (cs_writer cs) /\
  exists pre b, rely (objects w) pre /\ put_allowed o pre (cursor_path cs name) /\
    objects w' = <[cursor_path cs name := (b, witness_e_tag x)]> pre /\ from_slice b = Some (witness_cursor x).
Proof.
  unfold cursor_put, bind, request_or_fail, encode_or. destruct (to_vec _) as [b|] eqn:Hb; [|done]. cbn [ret].
  destruct (put_bytes _ b o w) as [[[t|]|e] w1] eqn:Hp; apply put_law in Hp as (pre & Hr & Hx); try done.
  intros [= <- <-]. split; [done|]. exists pre, b. destruct Hx as (Hal & t' & Ho & [[= ->]|?]); [|done].
  split_and!; try done. by apply from_slice_to_vec.
Qed.

Lemma trim_start_matches_none c a s : Ascii.eqb a c = false -> trim_start_matches c (String a s) = String a s.
Proof. cbn. by intros ->. Qed.
End Facts.
