(* ===== verification/CopyDestroy.v ===== *)
(** * Copying and destroying logs

    [rust/wal3/src/copy.rs]: the fragments of a log from a position on are
    copied under another prefix and a manifest is written for them.  The copies
    run concurrently in the source; they touch distinct objects, and here they
    run in order.

    [rust/wal3/src/destroy.rs]: the objects of a log are deleted, those that
    the manifest reaches first and the manifest last.  The recursion over
    snapshots is bounded by [depth], the loops over listings by [rounds]: a
    tree of snapshots is at most 256 levels deep, and without concurrent writers
    the second listing is empty. *)

From Stdlib Require Import Ascii.
From S2P Require Import Prelude Setsum Storage Types Paths Effects Manifest Persist Gc Reader Cursors.

#[local] Open Scope Z_scope.
#[local] Open Scope wal_scope.

Section Operations.
Context {SS : SetsumSig} {OS : ObjectStore}.
Context {serde_manifest : Serde Manifest} {serde_snapshot : Serde Snapshot}.
(** The prefix of the reader, and its cache. *)
Variable prefix : string.
Variable cache : option SnapshotCache.

(** The manifest of the copied fragments. *)
Definition copied_manifest (frags : list Fragment) (offset : LogPosition) : Manifest :=
  mkManifest (setsum_of frag_setsum frags) setsum_default (sum_u64 (frag_num_bytes <$> frags)) "copy task" [] frags
    (Some (default offset (min_by_key Types.offset (frag_start <$> frags))))
    (Some (default FragmentSeqNo.BEGIN (min_by_key fsn (frag_seq_no <$> frags)))).

(** The manifest of a copy without fragments. *)
Definition empty_copy (reference : Manifest) : Manifest :=
  mkManifest setsum_default setsum_default 0 "zero-copy task" [] []
    (Some (next_write_timestamp reference)) (next_fragment_seq_no reference).

Definition copy_fragment (target : string) (f : Fragment) : M Fragment :=
  let! _ := request_or_fail (copy_object (prefixed_fragment_path prefix (frag_seq_no f))
                               (prefixed_fragment_path target (frag_seq_no f))) in
  ret f.

Definition copy (fuel : nat) (offset : LogPosition) (target : string) : M unit :=
  let! r := reader_manifest prefix in
  let reference := default (new_empty "zero-copy task") r in
  let! (frags, short_read) := scan_with_cache prefix cache fuel reference offset UNLIMITED false in
  if (short_read : bool) then throw Internal else
  if bool_decide (frags <> []) then
    let! frags := mapM (copy_fragment target) frags in
    initialize_from_manifest target (copied_manifest frags offset)
  else
    let m := empty_copy reference in
    if bool_decide (is_Some (initial_offset m)) && negb (bool_decide (is_Some (initial_seq_no m)))
    then throw Internal
    else initialize_from_manifest target m.
End Operations.

Section Operations.
Context {SS : SetsumSig} {OS : ObjectStore}.
Context {serde_manifest : Serde Manifest} {serde_snapshot : Serde Snapshot}.
Variable prefix : string.

Definition delete_file (relative_path : string) : M unit :=
  let! r := request (delete (prefix +:+ "/" +:+ relative_path)) in
  match r with
  | Ok _ => ret tt
  | Err err => if is_not_found err then ret tt else throw (StorageError_ err)
  end.

Definition destroy_fragment (f : Fragment) : M unit := delete_file (frag_path f).

Fixpoint destroy_snapshot (depth : nat) (snap : SnapshotPointer) : M unit :=
  match depth with
  | O => out_of_fuel
  | S depth =>
      let! s := Snapshot_load prefix snap in
      let! _ := match s with
                | Some s =>
                    let! _ := foldM (fun _ p => destroy_snapshot depth p) tt (snap_snapshots s) in
                    foldM (fun _ f => destroy_fragment f) tt (snap_fragments s)
                | None => ret tt
                end in
      delete_file (path_to_snapshot snap)
  end.

Definition destroy_cursors : M unit :=
  let! names := cursor_list (mkCursorStore prefix "destroy") in
  foldM (fun _ c => delete_file (CursorName.path c)) tt names.

Definition destroy_garbage : M unit := delete_file "gc/GARBAGE".

(** One path of a listing: [trusted] recognises the names that the log gives
    to its files. *)
Definition destroy_dangling (what : string) (trusted : string -> bool) (path : string) : M unit :=
  match strip_prefix prefix path with
  | None => throw (GarbageCollection ("got a " +:+ what +:+ " I don't trust"))
  | Some unprefixed =>
      let possible := trim_start_matches "/"%char unprefixed in
      if trusted possible then delete_file possible
      else throw (GarbageCollection ("got a " +:+ what +:+ " I don't trust"))
  end.

(** The loop of [destroy_dangling_snapshots] and [destroy_dangling_fragments]. *)
Fixpoint destroy_listed (rounds : nat) (dir what : string) (trusted : string -> bool) : M unit :=
  match rounds with
  | O => out_of_fuel
  | S rounds =>
      let! paths := request_or_fail (list_prefix (prefix +:+ "/" +:+ dir)) in
      if bool_decide (paths = []) then ret tt else
      let! _ := foldM (fun _ p => destroy_dangling what trusted p) tt paths in
      destroy_listed rounds dir what trusted
  end.

Definition destroy_dangling_snapshots (rounds : nat) : M unit :=
  destroy_listed rounds snapshot_prefix "snapshot"
    (fun p => match snapshot_setsum p with Ok _ => true | Err _ => false end).

Definition destroy_dangling_fragments (rounds : nat) : M unit :=
  destroy_listed rounds fragment_prefix "fragment" (fun p => bool_decide (is_Some (parse_fragment_path p))).

Definition destroy_manifest : M unit := delete_file unprefixed_manifest_path.

Definition destroy (depth rounds : nat) : M unit :=
  let! r := Manifest_load prefix in
  match r with
  | None => ret tt
  | Some (m, _) =>
      let! _ := foldM (fun _ p => destroy_snapshot depth p) tt (snapshots m) in
      let! _ := foldM (fun _ f => destroy_fragment f) tt (fragments m) in
      let! _ := destroy_cursors in
      let! _ := destroy_garbage in
      let! _ := destroy_dangling_snapshots rounds in
      let! _ := destroy_dangling_fragments rounds in
      let! _ := destroy_manifest in
      let! possible_files := request_or_fail (list_prefix prefix) in
      if bool_decide (possible_files = []) then ret tt
      else throw (GarbageCollection "got a file I don't trust")
  end.
End Operations.
