(* ===== verification/Writer.v ===== *)
(** * The log writer

    [rust/wal3/src/writer.rs]: fragments are uploaded and published, writers are
    opened, recovered and replaced on contention, and the three phases of
    garbage collection.

    A [OnceLogWriter] is the record of its manifest manager and its batch
    manager; the messages that it sends on channels are collected in the record.
    The operations are those of one thread: the flusher task runs while the
    thread awaits an answer.  The interleavings of several threads are the step
    relations of the two managers.  A thread that would wait for ever, or that
    panics, does not return: it is [out_of_fuel]. *)

From S2P Require Import Prelude Setsum Storage Types Paths Effects Manifest Persist Gc Reader ManifestManager.
From S2P Require Import BatchManager Cursors.

#[local] Open Scope Z_scope.
#[local] Open Scope wal_scope.

(** ** Fragments *)

Section Fragments.
Context {SS : SetsumSig} {parquet : Parquet}.

(** The rows that [construct_parquet] writes. *)
Definition parquet_rows (log_position : LogPosition) (messages : list bytes) (epoch_micros : Z) :
    list (Z * Z * bytes) :=
  imap (fun i m => (offset (LogPosition.add log_position (Z.of_nat i)), epoch_micros, m)) messages.

Definition parquet_batch (rows : list (Z * Z * bytes)) : RecordBatch :=
  mkRecordBatch (length rows) (fun name =>
    if String.eqb name "offset" then Some (UInt64Array ((fun r => r.1.1) <$> rows))
    else if String.eqb name "timestamp_us" then Some (UInt64Array ((fun r => r.1.2) <$> rows))
    else if String.eqb name "body" then Some (BinaryArray ((fun r => r.2) <$> rows))
    else None).

Definition construct_parquet (log_position : LogPosition) (messages : list bytes) (epoch_micros : Z) :
    result (bytes * Setsum) Error :=
  let rows := parquet_rows log_position messages epoch_micros in
  match parquet_write (parquet_batch rows) with
  | None => Err (ParquetError "parquet")
  | Some buffer => Ok (buffer, foldl insert_row setsum_default rows)
  end.
End Fragments.

Section Uploads.
Context {SS : SetsumSig} {OS : ObjectStore} {parquet : Parquet}.

Definition MINUTE : Z := 60000000.

(** The loop of [upload_parquet]. *)
Fixpoint upload_loop (fuel : nat) (path unprefixed_path : string) (start : Z) (log_position : LogPosition)
    (messages : list bytes) : M (string * Setsum * Z) :=
  match fuel with
  | O => out_of_fuel
  | S fuel =>
      let! epoch_micros := epoch_now in
      let! (buffer, setsum) := lift (construct_parquet log_position messages epoch_micros) in
      let! r := request (put_bytes path buffer if_not_exists) in
      match r with
      | Ok _ => ret (unprefixed_path, setsum, Z.of_nat (length buffer))
      | Err err =>
          if is_precondition err then throw LogContentionFailure else
          let! now := instant_now in
          if MINUTE <? now - start then throw (StorageError_ err) else
          let! _ := next_backoff in
          upload_loop fuel path unprefixed_path start log_position messages
      end
  end.

Definition upload_parquet (fuel : nat) (prefix : string) (fragment_seq_no : FragmentSeqNo)
    (log_position : LogPosition) (messages : list bytes) : M (string * Setsum * Z) :=
  let unprefixed_path := unprefixed_fragment_path fragment_seq_no in
  let path := prefix +:+ "/" +:+ unprefixed_path in
  let! start := instant_now in
  upload_loop fuel path unprefixed_path start log_position messages.

(** The loop of [copy_parquet]. *)
Fixpoint copy_parquet_loop (fuel : nat) (target : string) (parquet : bytes) (start : Z) : M unit :=
  match fuel with
  | O => out_of_fuel
  | S fuel =>
      let! r := request (put_bytes target parquet if_not_exists) in
      match r with
      | Ok _ => ret tt
      | Err err =>
          if is_precondition err then ret tt else
          let! now := instant_now in
          if MINUTE <? now - start then throw (StorageError_ err) else
          let! _ := next_backoff in
          copy_parquet_loop fuel target parquet start
      end
  end.

Definition copy_parquet (fuel : nat) (source target : string) : M unit :=
  let! (parquet, _) := request_or_fail (get_with_e_tag source) in
  let! start := instant_now in
  copy_parquet_loop fuel target parquet start.
End Uploads.

(** ** The writer of one epoch *)

Section Once.
Context {SS : SetsumSig} {OS : ObjectStore} {parquet : Parquet} {dirty : MarkDirty}.
Context {serde_manifest : Serde Manifest} {serde_snapshot : Serde Snapshot} {serde_garbage : Serde Garbage}
        {serde_cursor : Serde Cursor}.

Record OnceLogWriter := mkOnce {
  once_options : LogWriterOptions;
  once_prefix : string;
  once_done : bool;
  once_manager : Manager;
  once_staging : Staging;
  once_batch : ManagerState;
  (** The messages sent to appenders so far. *)
  once_answers : Answers;
  (** The number of channels made so far: the next one's sender. *)
  once_channels : Tx;
}.

Definition set_staging (st : Staging) (o : OnceLogWriter) : OnceLogWriter :=
  mkOnce (once_options o) (once_prefix o) (once_done o) (once_manager o) st (once_batch o)
    (once_answers o) (once_channels o).
Definition set_batch (b : ManagerState) (o : OnceLogWriter) : OnceLogWriter :=
  mkOnce (once_options o) (once_prefix o) (once_done o) (once_manager o) (once_staging o) b
    (once_answers o) (once_channels o).
Definition answer (a : Answers) (o : OnceLogWriter) : OnceLogWriter :=
  mkOnce (once_options o) (once_prefix o) (once_done o) (once_manager o) (once_staging o) (once_batch o)
    (once_answers o ++ a) (once_channels o).
(** [oneshot::channel()]. *)
Definition channel (o : OnceLogWriter) : Tx * OnceLogWriter :=
  (once_channels o, mkOnce (once_options o) (once_prefix o) (once_done o) (once_manager o) (once_staging o)
                      (once_batch o) (once_answers o) (S (once_channels o))).

Definition open_for_read_only_and_stale_ops (options : LogWriterOptions) (prefix writer : string) :
    M OnceLogWriter :=
  let! now := instant_now in
  let batch := BatchManager_new now in
  let! (mgr, st) := ManifestManager_new (snapshot_manifest options) prefix writer in
  ret (mkOnce options prefix false mgr st batch [] 0).

(** [open] also recovers; the flusher that it spawns is [flusher] below. *)
Definition once_open (fuel : nat) (options : LogWriterOptions) (prefix writer : string) : M OnceLogWriter :=
  let! now := instant_now in
  let batch := BatchManager_new now in
  let! (mgr, st) := ManifestManager_new (snapshot_manifest options) prefix writer in
  let! (st, _) := recover fuel mgr 0 st in
  ret (mkOnce options prefix false mgr st batch [] 0).

Definition once_shutdown (o : OnceLogWriter) : OnceLogWriter :=
  let '(batch, answers) := bm_shutdown (once_batch o) in
  let '(st, _) := ManifestManager.shutdown (once_staging o) in
  mkOnce (once_options o) (once_prefix o) true (once_manager o) st (pump_write_finished batch)
    (once_answers o ++ answers) (once_channels o).

(** What [append_batch_internal] does with the results of the upload and of
    the mark. *)
Definition append_uploaded (fuel : nat) (o : OnceLogWriter) (fragment_seq_no : FragmentSeqNo)
    (log_position : LogPosition) (messages_len : Z) (res1 : result (string * Setsum * Z) Error)
    (res2 : result unit Error) : M (result LogPosition Error * OnceLogWriter) :=
  let res2 := match res2 with
              | Ok _ | Err LogContentionDurable => Ok tt
              | Err err => Err err
              end in
  match res2, res1 with
  | Err e, _ => ret (Err e, once_shutdown o)
  | _, Err e => ret (Err e, once_shutdown o)
  | Ok _, Ok (path, setsum, num_bytes) =>
      let fragment := mkFragment path fragment_seq_no log_position
                        (LogPosition.add log_position messages_len) num_bytes setsum in
      let '(tx, o) := channel o in
      let! (r, st, _) := publish_fragment fuel (once_manager o) fragment tx (once_staging o) in
      let o := set_staging st o in
      match r with
      | Err e => ret (Err e, once_shutdown o)
      | Ok _ => ret (Ok log_position, set_batch (bm_finish_write (once_batch o)) o)
      end
  end.

Definition append_batch_internal (fuel : nat) (o : OnceLogWriter) (fragment_seq_no : FragmentSeqNo)
    (log_position : LogPosition) (messages : list bytes) : M (result LogPosition Error * OnceLogWriter) :=
  if bool_decide (messages = []) then out_of_fuel else
  let messages_len := Z.of_nat (length messages) in
  attempt (upload_parquet fuel (once_prefix o) fragment_seq_no log_position messages) (fun res1 =>
  attempt (mark_dirty log_position messages_len) (fun res2 =>
    append_uploaded fuel o fragment_seq_no log_position messages_len res1 res2)).

(** The positions that the waiters of a batch are told: each the one after
    the messages of those before it. *)
Fixpoint answer_positions (log_position : LogPosition) (notifies : list (Z * Tx)) : Answers :=
  match notifies with
  | [] => []
  | (num_messages, tx) :: notifies =>
      (tx, Ok log_position) :: answer_positions (LogPosition.add log_position num_messages) notifies
  end.

Definition append_batch (fuel : nat) (o : OnceLogWriter) (work : Taken) : M OnceLogWriter :=
  let '(fragment_seq_no, log_position, work) := work in
  let notifies := (fun x : Entry => (Z.of_nat (length x.1), x.2)) <$> work in
  let messages := concat work.*1 in
  if bool_decide (notifies = []) then ret o else
  let! (r, o) := append_batch_internal fuel o fragment_seq_no log_position messages in
  ret (match r with
       | Ok log_position => answer (answer_positions log_position notifies) o
       | Err e => answer ((fun x => (x.2, Err e)) <$> notifies) o
       end).

(** [take_work] on the managers of the writer, with the reads of the clock. *)
Definition once_take_work (o : OnceLogWriter) : M (result (option Taken) Error * OnceLogWriter) :=
  let! now1 := instant_now in
  let! now2 := instant_now in
  let! now3 := instant_now in
  match take_work (throttle_fragment (once_options o)) now1 now2 now3 (once_batch o) (once_staging o) with
  | None => out_of_fuel
  | Some (r, batch, st) => ret (r, set_batch batch (set_staging st o))
  end.

(** One iteration of the flusher. *)
Definition flusher (fuel : nat) (o : OnceLogWriter) : M OnceLogWriter :=
  if once_done o then out_of_fuel else
  match wait_for_writable (once_batch o) with
  | None => out_of_fuel
  | Some batch =>
      let! (r, o) := once_take_work (set_batch batch o) in
      match r with
      | Ok (Some work) => append_batch fuel o work
      | _ => ret o
      end
  end.

(** [rx.await] while the flusher runs. *)
Fixpoint await_answer (fuel : nat) (tx : Tx) (o : OnceLogWriter) : M (result LogPosition Error * OnceLogWriter) :=
  match List.find (fun x => Nat.eqb x.1 tx) (once_answers o) with
  | Some (_, r) => ret (r, o)
  | None =>
      match fuel with
      | O => out_of_fuel
      | S fuel => let! o := flusher fuel o in await_answer fuel tx o
      end
  end.

Definition once_append (fuel : nat) (messages : list bytes) (o : OnceLogWriter) :
    M (result LogPosition Error * OnceLogWriter) :=
  if bool_decide (messages = []) then ret (Err EmptyBatch, o) else
  let '(tx, o) := channel o in
  let '(batch, answers) := bm_push_work messages tx (once_batch o) in
  let o := answer answers (set_batch batch o) in
  let! (r, o) := once_take_work o in
  let! o := match r with
            | Ok (Some work) => append_batch fuel o work
            | _ => ret o
            end in
  await_answer fuel tx o.

(** ** Garbage collection *)

(** The loop over the cursors. *)
Fixpoint lowest_cursor (cursors : CursorStore) (names : list CursorName.t) (collect_up_to : option LogPosition) :
    M (option LogPosition) :=
  match names with
  | [] => ret collect_up_to
  | name :: names =>
      let! witness := cursor_load cursors name in
      match witness_cursor <$> witness with
      | None => throw LogContentionFailure
      | Some cursor =>
          let p := cursor_position cursor in
          lowest_cursor cursors names
            (if LogPosition.leb p (default p collect_up_to) then Some p else collect_up_to)
      end
  end.

Definition garbage_collection_cutoff (o : OnceLogWriter) : M LogPosition :=
  let cursors := mkCursorStore (once_prefix o) "garbage collection writer" in
  let! names := cursor_list cursors in
  let! collect_up_to := lowest_cursor cursors names None in
  match collect_up_to with
  | None => throw (NoSuchCursor "there is no cursor for prefix")
  | Some p => ret p
  end.

Definition is_contention (e : Error) : bool :=
  match e with LogContentionFailure | LogContentionRetry | LogContentionDurable => true | _ => false end.

(** The loop of phase 1; [attempts] are those that remain. *)
Fixpoint phase1_loop (attempts fuel : nat) (o : OnceLogWriter) (cutoff : LogPosition) : M bool :=
  match attempts with
  | O => throw LogContentionFailure
  | S attempts =>
      (** Compute garbage and install it over the version [e_tag]. *)
      let collect (e_tag : option ETag) : M bool :=
        let! garbage := compute_garbage (cache := unit_cache) fuel (once_manager o) cutoff (once_staging o) in
        match garbage with
        | None => ret false
        | Some garbage =>
            attempt (Garbage_install (once_prefix o) e_tag garbage) (fun r =>
              match r with
              | Ok _ => ret true
              | Err e => if is_contention e then phase1_loop attempts fuel o cutoff else throw e
              end)
        end in
      let! r := Garbage_load (once_prefix o) in
      match r with
      | Some (garbage, e_tag) =>
          if is_empty garbage || garbage_applies_cleanly garbage (once_staging o)
          then if negb (is_empty garbage) then ret true else collect e_tag
          else
            match e_tag with
            | Some e_tag =>
                let! _ := Garbage_reset (once_prefix o) e_tag in
                phase1_loop attempts fuel o cutoff
            | None => throw (GarbageCollection "non-empty garbage without ETag")
            end
      | None => collect None
      end
  end.

Definition garbage_collect_phase1_compute_garbage (fuel : nat) (keep_at_least : option LogPosition)
    (o : OnceLogWriter) : M bool :=
  let! cutoff := garbage_collection_cutoff o in
  let cutoff := match keep_at_least with
                | Some keep => if LogPosition.leb keep cutoff then keep else cutoff
                | None => cutoff
                end in
  phase1_loop 3 fuel o cutoff.

Definition garbage_collect_phase2_update_manifest (fuel : nat) (o : OnceLogWriter) :
    M (result unit Error * OnceLogWriter) :=
  attempt (Garbage_load (once_prefix o)) (fun r =>
    match r with
    | Err e => ret (Err e, o)
    | Ok None => ret (Ok tt, o)
    | Ok (Some (garbage, _)) =>
        if is_empty garbage then ret (Ok tt, o) else
        let '(tx, o) := channel o in
        let! (r, st, _) := ManifestManager_apply_garbage fuel (once_manager o) garbage tx (once_staging o) in
        ret (r, set_staging st o)
    end).

(** [delete_batch]: the retries end ten minutes after [start]. *)
Fixpoint delete_batch (fuel : nat) (start : Z) (paths : list string) : M unit :=
  match fuel with
  | O => out_of_fuel
  | S fuel =>
      let! r := request (delete_many paths) in
      match r with
      | Ok errors => match last errors with Some err => throw (StorageError_ err) | None => ret tt end
      | Err err =>
          if is_not_found err then ret tt else
          let! now := instant_now in
          if 10 * MINUTE <? now - start then throw (StorageError_ err) else
          let! _ := next_backoff in
          delete_batch fuel start paths
      end
  end.

(** The loop over the paths, in batches of a hundred. *)
Fixpoint delete_batches (fuel : nat) (start : Z) (paths batch : list string) : M unit :=
  match paths with
  | [] => if bool_decide (batch = []) then ret tt else delete_batch fuel start batch
  | path :: paths =>
      let batch := batch ++ [path] in
      if (100 <=? length batch)%nat
      then let! _ := delete_batch fuel start batch in delete_batches fuel start paths []
      else delete_batches fuel start paths batch
  end.

Definition garbage_collect_phase3_delete_garbage (fuel : nat) (o : OnceLogWriter) : M unit :=
  let! start := instant_now in
  let! r := Garbage_load (once_prefix o) in
  match r with
  | None => ret tt
  | Some (_, None) => throw (GarbageCollection "loaded garbage without e_tag")
  | Some (garbage, Some e_tag) =>
      let! _ := delete_batches fuel start (prefixed_paths_to_delete (once_prefix o) garbage) [] in
      let! _ := Garbage_reset (once_prefix o) e_tag in
      ret tt
  end.

Definition garbage_collect (fuel : nat) (keep_at_least : option LogPosition) (o : OnceLogWriter) :
    M (result unit Error * OnceLogWriter) :=
  attempt (garbage_collect_phase1_compute_garbage fuel keep_at_least o) (fun r =>
    match r with
    | Err e => ret (Err e, o)
    | Ok _ =>
        let! (r, o) := garbage_collect_phase2_update_manifest fuel o in
        match r with
        | Err e => ret (Err e, o)
        | Ok _ => attempt (garbage_collect_phase3_delete_garbage fuel o) (fun r => ret (r, o))
        end
    end).
End Once.
