(* ===== verification/LogWriter.v ===== *)
(** * The log writer that reopens itself

    [LogWriter] of [rust/wal3/src/writer.rs]: it holds the writer of the current
    epoch, opens another one when contention is found, and retries what can be
    retried.

    The operations of a writer return their error together with the writer,
    since it is shared and what happened to it stays. *)

From S2P Require Import Prelude Setsum Storage Types Paths Effects Manifest Persist Gc Reader ManifestManager.
From S2P Require Import BatchManager Cursors Writer.

#[local] Open Scope Z_scope.
#[local] Open Scope wal_scope.

Section Operations.
Context {SS : SetsumSig} {OS : ObjectStore} {parquet : Parquet} {dirty : MarkDirty}.
Context {serde_manifest : Serde Manifest} {serde_snapshot : Serde Snapshot} {serde_garbage : Serde Garbage}
        {serde_cursor : Serde Cursor}.

Record EpochWriter := mkEpochWriter {
  epoch : Z;
  epoch_writer : option OnceLogWriter;
}.

Record LogWriter := mkLogWriter {
  lw_options : LogWriterOptions;
  lw_prefix : string;
  lw_writer : string;
  lw_inner : EpochWriter;
}.

Definition set_inner (i : EpochWriter) (lw : LogWriter) : LogWriter :=
  mkLogWriter (lw_options lw) (lw_prefix lw) (lw_writer lw) i.

(** [EpochWriter::default]. *)
Definition EpochWriter_default : EpochWriter := mkEpochWriter 0 None.

(** The loop of [ensure_open]; [tries] are those that remain. *)
Fixpoint ensure_open_loop (tries fuel : nat) (lw : LogWriter) :
    M (result (OnceLogWriter * Z) Error * LogWriter) :=
  match tries with
  | O => ret (Err LogContentionRetry, lw)
  | S tries =>
      let inner := lw_inner lw in
      match epoch_writer inner with
      | Some writer =>
          if negb (once_done writer) then ret (Ok (writer, epoch inner), lw)
          else ensure_open_loop tries fuel (set_inner (mkEpochWriter (wrapping_add (epoch inner) 1) None) lw)
      | None =>
          attempt (once_open fuel (lw_options lw) (lw_prefix lw) (lw_writer lw)) (fun r =>
            match r with
            | Ok writer =>
                let inner := mkEpochWriter (wrapping_add (epoch inner) 1) (Some writer) in
                ret (Ok (writer, epoch inner), set_inner inner lw)
            | Err LogContentionRetry => ensure_open_loop tries fuel lw
            | Err err => ret (Err err, lw)
            end)
      end
  end.

Definition ensure_open (fuel : nat) (lw : LogWriter) : M (result (OnceLogWriter * Z) Error * LogWriter) :=
  ensure_open_loop 3 fuel lw.

(** [if inner.epoch == epoch { inner.writer.take().shutdown() }]: the shutdown
    answers the waiters of other threads, of which there are none here. *)
Definition retire (e : Z) (lw : LogWriter) : LogWriter :=
  if epoch (lw_inner lw) =? e then set_inner (mkEpochWriter (epoch (lw_inner lw)) None) lw else lw.

(** The writer is shared: what an operation did to it is seen in [inner]. *)
Definition store_writer (w : OnceLogWriter) (lw : LogWriter) : LogWriter :=
  set_inner (mkEpochWriter (epoch (lw_inner lw)) (Some w)) lw.

(** The loop of [handle_errors_and_contention]. *)
Fixpoint handle_loop {A} (tries fuel : nat) (f : OnceLogWriter -> M (result A Error * OnceLogWriter))
    (lw : LogWriter) : M (result A Error * LogWriter) :=
  match tries with
  | O => ret (Err LogContentionFailure, lw)
  | S tries =>
      let! (r, lw) := ensure_open fuel lw in
      match r with
      | Err e => ret (Err e, lw)
      | Ok (writer, e) =>
          let! (r, writer) := f writer in
          let lw := store_writer writer lw in
          match r with
          | Ok out => ret (Ok out, lw)
          | Err LogContentionDurable =>
              let! (r, lw) := ensure_open fuel (retire e lw) in
              ret (Err (match r with Ok _ => LogContentionDurable | Err _ => LogContentionFailure end), lw)
          | Err LogContentionFailure => ret (Err LogContentionFailure, retire e lw)
          | Err LogContentionRetry => handle_loop tries fuel f (retire e lw)
          | Err Backoff => ret (Err Backoff, lw)
          | Err err => ret (Err err, retire e lw)
          end
      end
  end.

Definition handle_errors_and_contention {A} (fuel : nat)
    (f : OnceLogWriter -> M (result A Error * OnceLogWriter)) (lw : LogWriter) : M (result A Error * LogWriter) :=
  handle_loop 3 fuel f lw.

Definition LogWriter_initialize (prefix writer : string) : M unit := initialize prefix writer.

Definition LogWriter_open (fuel : nat) (options : LogWriterOptions) (prefix writer : string) : M LogWriter :=
  let this := mkLogWriter options prefix writer EpochWriter_default in
  let! (r, this) := ensure_open fuel this in
  let! _ := lift r in
  ret this.

Definition open_or_initialize (fuel : nat) (options : LogWriterOptions) (prefix writer : string) : M LogWriter :=
  let this := mkLogWriter options prefix writer EpochWriter_default in
  let! (r, this) := ensure_open fuel this in
  match r with
  | Ok _ => ret this
  | Err UninitializedLog =>
      let! _ := LogWriter_initialize (lw_prefix this) (lw_writer this) in
      let! (r, this) := ensure_open fuel this in
      let! _ := lift r in
      ret this
  | Err err => throw err
  end.

Definition with_initial_offset (o : LogPosition) (m : Manifest) : Manifest :=
  mkManifest (setsum m) (collected m) (acc_bytes m) (writer m) (snapshots m) (fragments m) (Some o) (initial_seq_no m).

Definition bootstrap (fuel : nat) (prefix writer : string) (first_record_offset : LogPosition)
    (messages : list bytes) : M unit :=
  let num_records := Z.of_nat (length messages) in
  let start := first_record_offset in
  let limit := LogPosition.add first_record_offset num_records in
  let! manifest := Manifest_load prefix in
  if bool_decide (is_Some manifest) then throw LogContentionFailure else
  if 0 <? num_records then
    let! (path, setsum, num_bytes) := upload_parquet fuel prefix (mkSeqNo 1) first_record_offset messages in
    let frag := mkFragment path (mkSeqNo 1) start limit num_bytes setsum in
    let new_manifest := with_initial_offset start (new_empty writer) in
    if negb (can_apply_fragment new_manifest frag) then throw Internal else
    let! _ := Manifest_install prefix None (apply_fragment new_manifest frag) in
    mark_dirty start num_records
  else
    let! _ := Manifest_install prefix None (with_initial_offset start (new_empty "bootstrap")) in
    ret tt.

(** [close]: no other reference to the writer is left to wait for. *)
Definition close (lw : LogWriter) : LogWriter :=
  set_inner (mkEpochWriter (epoch (lw_inner lw)) None) lw.

Definition append_many (fuel : nat) (messages : list bytes) (lw : LogWriter) :
    M (result LogPosition Error * LogWriter) :=
  handle_errors_and_contention fuel (once_append fuel messages) lw.

Definition append (fuel : nat) (message : bytes) (lw : LogWriter) : M (result LogPosition Error * LogWriter) :=
  append_many fuel [message] lw.

Definition lw_manifest_and_etag (lw : LogWriter) : option ManifestAndETag :=
  (fun w => latest (once_staging w)) <$> epoch_writer (lw_inner lw).

Definition lw_manifest (lw : LogWriter) : option Manifest := stable_manifest <$> lw_manifest_and_etag lw.

(** Operations that leave the managers of the writer as they are. *)
Definition keep_writer {A} (c : OnceLogWriter -> M A) (o : OnceLogWriter) : M (result A Error * OnceLogWriter) :=
  attempt (c o) (fun r => ret (r, o)).

Definition lw_phase1 (fuel : nat) (keep_at_least : option LogPosition) (lw : LogWriter) :
    M (result bool Error * LogWriter) :=
  handle_errors_and_contention fuel
    (keep_writer (garbage_collect_phase1_compute_garbage fuel keep_at_least)) lw.

Definition lw_phase2 (fuel : nat) (lw : LogWriter) : M (result unit Error * LogWriter) :=
  handle_errors_and_contention fuel (garbage_collect_phase2_update_manifest fuel) lw.

Definition lw_phase3 (fuel : nat) (lw : LogWriter) : M (result unit Error * LogWriter) :=
  handle_errors_and_contention fuel (keep_writer (garbage_collect_phase3_delete_garbage fuel)) lw.

Definition lw_garbage_collect (fuel : nat) (keep_at_least : option LogPosition) (lw : LogWriter) :
    M (result unit Error * LogWriter) :=
  handle_errors_and_contention fuel (garbage_collect fuel keep_at_least) lw.

(** ** [GarbageCollector] of [gc.rs]: a writer that only runs phases 1 and 3 *)

Definition GarbageCollector_open (options : LogWriterOptions) (prefix writer : string) : M OnceLogWriter :=
  open_for_read_only_and_stale_ops options prefix writer.

Definition GarbageCollector_phase1 (fuel : nat) (keep_at_least : option LogPosition) (log : OnceLogWriter) : M bool :=
  garbage_collect_phase1_compute_garbage fuel keep_at_least log.

Definition GarbageCollector_phase3 (fuel : nat) (log : OnceLogWriter) : M unit :=
  garbage_collect_phase3_delete_garbage fuel log.

Definition lw_count_waiters (lw : LogWriter) : option (nat * nat) :=
  (fun w => (bm_count_waiters (once_batch w), ManifestManager.count_waiters (once_staging w)))
    <$> epoch_writer (lw_inner lw).
End Operations.
