(* ===== verification/Dirty.v ===== *)
(** * Dirty logs and their rollup

    [DirtyMarker] of [rust/types/src/log.rs] and the rollup of dirty markers of
    [rust/log-service/src/lib.rs]: a log service notes in a log of its own, the
    dirty log, which collections have records to compact, and sums the notes up
    by collection. *)

From S2P Require Import Prelude Setsum Storage Types Paths Effects Manifest Persist Gc Reader Cursors.

#[local] Open Scope Z_scope.

Abbreviation CollectionUuid := Z (only parsing).

Definition dirty_log_path_from_hostname (hostname : string) : string := "dirty-" +:+ hostname.

Inductive DirtyMarker :=
| DirtyMark (collection_id : CollectionUuid) (log_position num_records reinsert_count initial_insertion_epoch_us : Z)
| DirtyPurge (collection_id : CollectionUuid)
| DirtyCleared.

#[global] Instance DirtyMarker_eq_dec : EqDecision DirtyMarker.
Proof. solve_decision. Defined.

(** The default of a UUID is nil. *)
Definition marker_collection_id (m : DirtyMarker) : CollectionUuid :=
  match m with
  | DirtyMark c _ _ _ _ => c
  | DirtyPurge c => c
  | DirtyCleared => 0
  end.

Definition reinsert (m : DirtyMarker) : DirtyMarker :=
  match m with
  | DirtyMark c p n r e => DirtyMark c p n (saturating_add r 1) e
  | _ => m
  end.

(** ** Rollups *)

Record RollupPerCollection := mkRollup {
  start_log_position : LogPosition;
  limit_log_position : LogPosition;
  reinsert_count : Z;
  initial_insertion_epoch_us : Z;
}.

#[global] Instance RollupPerCollection_eq_dec : EqDecision RollupPerCollection.
Proof. solve_decision. Defined.

Module RollupPerCollection.
Definition new (first_observation : LogPosition) (num_records epoch_us : Z) : RollupPerCollection :=
  mkRollup first_observation (from_offset (saturating_add (offset first_observation) num_records)) 0 epoch_us.

Definition observe_dirty_marker (log_position : LogPosition) (num_records count epoch_us : Z)
    (r : RollupPerCollection) : RollupPerCollection :=
  let limit := saturating_add (offset log_position) num_records in
  mkRollup
    (if LogPosition.ltb log_position (start_log_position r) then log_position else start_log_position r)
    (if offset (limit_log_position r) <? limit then from_offset limit else limit_log_position r)
    (Z.max (reinsert_count r) count)
    (Z.min (initial_insertion_epoch_us r) epoch_us).

Definition max_position (p q : LogPosition) : LogPosition := if LogPosition.leb p q then q else p.

Definition witness_cursor (w : option Witness) (r : RollupPerCollection) : RollupPerCollection :=
  let start := default (from_offset 1) ((fun w => cursor_position (Cursors.witness_cursor w)) <$> w) in
  mkRollup start (max_position (limit_log_position r) start) (reinsert_count r) (initial_insertion_epoch_us r).

Definition witness_manifest {SS : SetsumSig} (m : option Manifest) (r : RollupPerCollection) : RollupPerCollection :=
  mkRollup (default (from_offset 1) (oldest_timestamp <$> m)) (default (from_offset 1) (next_write_timestamp <$> m))
    (reinsert_count r) (initial_insertion_epoch_us r).

Definition is_empty (r : RollupPerCollection) : bool := LogPosition.leb (limit_log_position r) (start_log_position r).

Definition uncompacted (r : RollupPerCollection) : Z :=
  saturating_sub (offset (limit_log_position r)) (offset (start_log_position r)).

Definition dirty_marker (c : CollectionUuid) (r : RollupPerCollection) : DirtyMarker :=
  DirtyMark c (offset (start_log_position r)) (uncompacted r) (saturating_add (reinsert_count r) 1)
    (initial_insertion_epoch_us r).

Definition requires_backpressure (threshold : Z) (r : RollupPerCollection) : bool := threshold <=? uncompacted r.
End RollupPerCollection.

(** ** Coalescing *)

Abbreviation Rollups := (gmap CollectionUuid RollupPerCollection).

(** One marker of [coalesce_markers]. *)
Definition coalesce_marker (acc : Rollups * gset CollectionUuid) (marker : DirtyMarker) : Rollups * gset CollectionUuid :=
  let '(rollups, forget) := acc in
  match marker with
  | DirtyMark c position num_records count epoch_us =>
      let p := from_offset position in
      let r := default (RollupPerCollection.new p num_records epoch_us) (rollups !! c) in
      (<[c := RollupPerCollection.observe_dirty_marker p num_records count epoch_us r]> rollups, forget)
  | DirtyPurge c => (rollups, {[ c ]} ∪ forget)
  | DirtyCleared => (rollups, forget)
  end.

(** [for collection_id in forget.iter() { rollups.remove(collection_id); }]. *)
Definition remove_all (forget : gset CollectionUuid) (rollups : Rollups) : Rollups :=
  filter (fun x => x.1 ∉ forget) rollups.

Definition coalesce_markers (markers : list (LogPosition * DirtyMarker)) (rollups : Rollups)
    (forget : gset CollectionUuid) : Rollups * gset CollectionUuid :=
  let '(rollups, forget) := foldl coalesce_marker (rollups, forget) markers.*2 in
  (remove_all forget rollups, forget).

Record RollupTransientState := mkTransient {
  tr_rollups : Rollups;
  tr_forget : gset CollectionUuid;
  largest_log_position_read : LogPosition;
}.

Definition RollupTransientState_default : RollupTransientState := mkTransient ∅ ∅ (from_offset 0).

(** What one fragment of the dirty log adds, under the mutex. *)
Definition add_fragment (records : list (LogPosition * DirtyMarker)) (t : RollupTransientState) : RollupTransientState :=
  let largest := foldl (fun acc x => RollupPerCollection.max_position acc x.1) (largest_log_position_read t) records in
  let '(rollups, forget) := coalesce_markers records (tr_rollups t) ∅ in
  mkTransient rollups (tr_forget t ∪ forget) largest.

(** What is returned when all fragments were added. *)
Definition finish_rollup (t : RollupTransientState) : Rollups := remove_all (tr_forget t) (tr_rollups t).
