(* ===== verification/LogService.v ===== *)
(** * The log service

    [rust/log-service/src/lib.rs] and [scrub.rs]: a server that keeps one wal3
    log per collection and a dirty log, and answers requests to append to logs,
    to read them, to fork them, to move the position up to which they are
    compacted, and to tell which collections need compaction.

    The state of the server is a record that lives beside the object store in
    the world of the store: [HasServer] is the lens.  A handler is a
    computation of [M] that returns a response or a [Status], of which only the
    code is kept; a panic is [out_of_fuel].  One request runs at a time; other
    processes act on the object store as everywhere. *)

From S2P Require Import Prelude Setsum Storage Types Paths Effects Manifest Persist Gc Reader ManifestManager.
From S2P Require Import BatchManager Cursors CopyDestroy Writer LogWriter Dirty.

#[local] Open Scope Z_scope.
#[local] Open Scope wal_scope.

(** ** Codes and integers *)

(** [tonic::Code]. *)
Inductive Code :=
| Code_Ok | Code_Cancelled | Code_Unknown | Code_InvalidArgument | Code_DeadlineExceeded | Code_NotFound
| Code_AlreadyExists | Code_PermissionDenied | Code_ResourceExhausted | Code_FailedPrecondition | Code_Aborted
| Code_OutOfRange | Code_Unimplemented | Code_Internal | Code_Unavailable | Code_DataLoss | Code_Unauthenticated.

Definition Code_from (e : ErrorCodes) : Code :=
  match e with
  | CodeSuccess => Code_Ok
  | CodeCancelled => Code_Cancelled
  | CodeUnknown => Code_Unknown
  | CodeInvalidArgument => Code_InvalidArgument
  | CodeDeadlineExceeded => Code_DeadlineExceeded
  | CodeNotFound => Code_NotFound
  | CodeAlreadyExists => Code_AlreadyExists
  | CodePermissionDenied => Code_PermissionDenied
  | CodeResourceExhausted => Code_ResourceExhausted
  | CodeFailedPrecondition => Code_FailedPrecondition
  | CodeAborted => Code_Aborted
  | CodeOutOfRange => Code_OutOfRange
  | CodeUnimplemented => Code_Unimplemented
  | CodeInternal => Code_Internal
  | CodeUnavailable => Code_Unavailable
  | CodeDataLoss => Code_DataLoss
  | CodeUnauthenticated => Code_Unauthenticated
  | CodeVersionMismatch => Code_Internal
  | CodeUnprocessableEntity => Code_ResourceExhausted
  end.

(** [as i64]. *)
Definition i64_wrap (z : Z) : Z := (z + 2 ^ 63) mod 2 ^ 64 - 2 ^ 63.

(** ** Other crates *)

(** The cache of bytes: a miss and an error are one. *)
Class ServiceCache := {
  cache_state : Type;
  lookup_cached : string -> cache_state -> option bytes * cache_state;
  insert_cached : string -> bytes -> cache_state -> cache_state;
  remove_cached : string -> cache_state -> cache_state;
}.

(** The protocol buffers of records. *)
Class OperationRecords := {
  OperationRecord : Type;
  encode_record : OperationRecord -> option bytes;
  decode_record : bytes -> option OperationRecord;
}.

(** ** The server *)

Record LogServerConfig := mkLogServerConfig {
  my_member_id : string;
  read_only : bool;
  writer_options : LogWriterOptions;
  num_records_before_backpressure : Z;
  reinsert_threshold : Z;
  timeout_us : Z;
}.

Section Server.
Context {SS : SetsumSig} {SC : ServiceCache}.

Record ActiveLog := mkActiveLog {
  active_log : option LogWriter;
  collect_after : Z;
  active_epoch : Z;
}.

Record LogServer := mkLogServer {
  config : LogServerConfig;
  open_logs : gmap CollectionUuid ActiveLog;
  dirty_log : option LogWriter;
  backpressure : gset CollectionUuid;
  need_to_compact : gmap CollectionUuid RollupPerCollection;
  cache : option cache_state;
}.

Definition set_open_logs x (s : LogServer) := mkLogServer (config s) x (dirty_log s) (backpressure s) (need_to_compact s) (cache s).
Definition set_dirty_log x (s : LogServer) := mkLogServer (config s) (open_logs s) x (backpressure s) (need_to_compact s) (cache s).
Definition set_backpressure (x : list CollectionUuid) (s : LogServer) :=
  mkLogServer (config s) (open_logs s) (dirty_log s) (list_to_set x) (need_to_compact s) (cache s).
Definition set_need_to_compact x (s : LogServer) := mkLogServer (config s) (open_logs s) (dirty_log s) (backpressure s) x (cache s).
Definition set_cache x (s : LogServer) := mkLogServer (config s) (open_logs s) (dirty_log s) (backpressure s) (need_to_compact s) x.

(** [keep_alive], in microseconds. *)
Definition keep_alive (now d : Z) (a : ActiveLog) : ActiveLog :=
  let when := now + d in
  mkActiveLog (active_log a) (if collect_after a <? when then when else collect_after a) (active_epoch a).

(** One round of the task that [get_log_from_handle_with_mutex_held] spawns. *)
Definition collect_idle (now epoch : Z) (a : ActiveLog) : ActiveLog :=
  if collect_after a <=? now then mkActiveLog None (collect_after a) (wrapping_add (active_epoch a) 1) else a.
End Server.

(** The server in the world of the store. *)
Class HasServer {SS : SetsumSig} {SC : ServiceCache} {OS : ObjectStore} := {
  server : world -> LogServer;
  set_server : LogServer -> world -> world;
}.

Section Service.
Context {SS : SetsumSig} {OS : ObjectStore} {parquet : Parquet}.
Context {serde_manifest : Serde Manifest} {serde_snapshot : Serde Snapshot} {serde_garbage : Serde Garbage}
        {serde_cursor : Serde Cursor}.
Context {serde_marker : Serde DirtyMarker} {serde_witness : Serde Witness} {serde_met : Serde ManifestAndETag}.
Context {UU : Uuids} {SC : ServiceCache} {HS : HasServer} {OR : OperationRecords}.
Variable fuel : nat.

(** *** Handlers *)

Definition HM (E A : Type) : Type := M (result A E).
Definition hret {E A} (a : A) : HM E A := ret (Ok a).
Definition hfail {E A} (e : E) : HM E A := ret (Err e).
Definition hbind {E A B} (c : HM E A) (k : A -> HM E B) : HM E B :=
  let! r := c in
  match r with
  | Ok a => k a
  | Err e => ret (Err e)
  end.
(** A computation that cannot fail with an error of wal3. *)
Definition run {E A} (c : M A) : HM E A := let! a := c in ret (Ok a).
(** [.await.map_err(f)?]. *)
Definition call {E A} (f : Error -> E) (c : M A) : HM E A :=
  attempt c (fun r => ret (match r with Ok a => Ok a | Err e => Err (f e) end)).

Notation "'let@' x ':=' c 'in' k" := (hbind c (fun x => k))
  (at level 10, x pattern, c at level 100, k at level 200).

Definition get_server : M LogServer := fun w => (Ret (server w), w).
Definition modify (f : LogServer -> LogServer) : M unit := fun w => (Ret tt, set_server (f (server w)) w).

(** [Status::new(err.code().into(), ..)]. *)
Definition coded (e : Error) : Code := Code_from (error_code e).
Definition unknown (e : Error) : Code := Code_Unknown.

Definition parse_collection (s : string) : HM Code CollectionUuid :=
  match uuid_from_str s with
  | Some c => hret c
  | None => hfail Code_InvalidArgument
  end.

Definition storage_prefix_for_log (c : CollectionUuid) : string := "logs/" +:+ uuid_to_string c.
Definition COMPACTION : CursorName.t := CursorName.mk "compaction".
Definition STABLE_PREFIX : CursorName.t := CursorName.mk "stable_prefix".

Definition cache_key_for_manifest_and_etag (c : CollectionUuid) : string := uuid_to_string c +:+ "::MANIFEST/ETAG".
Definition cache_key_for_cursor (c : CollectionUuid) (name : CursorName.t) : string :=
  uuid_to_string c +:+ "::cursor::" +:+ CursorName.path name.
Definition cache_key_for_fragment (c : CollectionUuid) (fragment_path : string) : string :=
  uuid_to_string c +:+ "::" +:+ fragment_path.

(** [if let Some(cache) = self.cache.as_ref()] and an access. *)
Definition cache_lookup (key : string) : M (option bytes) :=
  let! s := get_server in
  match cache s with
  | None => ret None
  | Some c => let '(r, c) := lookup_cached key c in
              let! _ := modify (set_cache (Some c)) in ret r
  end.
Definition cache_insert (key : string) (b : bytes) : M unit :=
  modify (fun s => set_cache (insert_cached key b <$> cache s) s).
Definition cache_remove (key : string) : M unit :=
  modify (fun s => set_cache (remove_cached key <$> cache s) s).

(** *** Marking collections as dirty *)

Definition now_us : M Z := fun w => let '(t, w) := system_time w in (Ret t, w).

Definition mark_dirty_of (c : CollectionUuid) : MarkDirty := {|
  mark_dirty := fun log_position num_records =>
    let! s := get_server in
    match dirty_log s with
    | None => throw Internal
    | Some lw =>
        let! t := now_us in
        if t <? 0 then throw Internal else
        let marker := DirtyMark c (offset log_position) num_records 0 (u64_wrap t) in
        let! data := encode_or Internal marker in
        let! (r, lw) := append (dirty := unit_mark_dirty) fuel data lw in
        let! _ := modify (set_dirty_log (Some lw)) in
        let! _ := lift r in
        ret tt
    end;
|}.

(** *** Open logs *)

Definition active_of (c : CollectionUuid) (now : Z) (s : LogServer) : ActiveLog :=
  default (mkActiveLog None now 0) (open_logs s !! c).

Definition KEEP_ALIVE : Z := 60000000.

Definition get_log_from_handle_with_mutex_held (c : CollectionUuid) (prefix : string) : M LogWriter :=
  let! s := get_server in
  let! now := instant_now in
  let active := active_of c now s in
  match active_log active with
  | Some log =>
      let! _ := modify (fun s => set_open_logs (<[c := keep_alive now KEEP_ALIVE active]> (open_logs s)) s) in
      ret log
  | None =>
      let! opened := open_or_initialize (dirty := mark_dirty_of c) fuel (writer_options (config s)) prefix "log writer" in
      let! now := instant_now in
      let active := keep_alive now KEEP_ALIVE active in
      let active := mkActiveLog (Some opened) (collect_after active) (active_epoch active) in
      let! _ := modify (fun s => set_open_logs (<[c := active]> (open_logs s)) s) in
      ret opened
  end.

Definition get_log_from_handle (c : CollectionUuid) (prefix : string) : M LogWriter :=
  get_log_from_handle_with_mutex_held c prefix.

(** The writer is shared: what an operation did to it is seen by the others. *)
Definition store_log (c : CollectionUuid) (log : LogWriter) : M unit :=
  modify (fun s => set_open_logs (alter (fun a => mkActiveLog (Some log) (collect_after a) (active_epoch a)) c (open_logs s)) s).

(** *** Guards *)

Definition check_for_backpressure (c : CollectionUuid) : HM Code unit :=
  let! s := get_server in
  if bool_decide (c ∈ backpressure s) then hfail Code_ResourceExhausted else hret tt.

Definition ensure_write_mode : HM Code unit :=
  let! s := get_server in
  if negb (bool_decide (is_Some (dirty_log s))) then hfail Code_PermissionDenied
  else if read_only (config s) then hfail Code_PermissionDenied
  else hret tt.
End Service.

Notation "'let@' x ':=' c 'in' k" := (hbind c (fun x => k))
  (at level 10, x pattern, c at level 100, k at level 200,
   format "'[v' 'let@'  x  ':='  c  'in' '/' k ']'") : wal_scope.

Section Handlers.
Context {SS : SetsumSig} {OS : ObjectStore} {parquet : Parquet}.
Context {serde_manifest : Serde Manifest} {serde_snapshot : Serde Snapshot} {serde_garbage : Serde Garbage}
        {serde_cursor : Serde Cursor}.
Context {serde_marker : Serde DirtyMarker} {serde_witness : Serde Witness} {serde_met : Serde ManifestAndETag}.
Context {UU : Uuids} {SC : ServiceCache} {HS : HasServer} {OR : OperationRecords}.
Variable fuel : nat.

(** *** The position up to which a log is compacted *)

(** [std::cmp::max] on positions. *)
Definition advance_rollup (to : LogPosition) (c : CollectionUuid) (m : Rollups) : Rollups :=
  match m !! c with
  | Some r =>
      let r := mkRollup (RollupPerCollection.max_position (start_log_position r) to) (limit_log_position r)
                 (reinsert_count r) (initial_insertion_epoch_us r) in
      if RollupPerCollection.is_empty r then base.delete c m else <[c := r]> m
  | None => m
  end.

Definition update_log_offset (collection_id : string) (log_offset : Z) (allow_rollback : bool) : HM Code unit :=
  let@ _ := ensure_write_mode in
  let adjusted := u64_wrap (i64_wrap (log_offset + 1)) in
  let@ c := parse_collection collection_id in
  let prefix := storage_prefix_for_log c in
  let@ _ := call unknown (get_log_from_handle_with_mutex_held fuel c prefix) in
  let@ _ := call (fun e => match e with UninitializedLog => Code_NotFound | _ => Code_Unknown end)
              (reader_next_write_timestamp prefix) in
  let cursor_store := mkCursorStore prefix "writer" in
  let@ witness := call coded (cursor_load cursor_store COMPACTION) in
  let cursor := default Cursor_default (witness_cursor <$> witness) in
  if negb allow_rollback && (adjusted <? offset (cursor_position cursor)) then hret tt else
  let@ t := run now_us in
  if t <? 0 then out_of_fuel else
  let cursor := mkCursor (from_offset adjusted) (u64_wrap t) "TODO" in
  let@ witness := call coded (match witness with
                              | Some w => cursor_save cursor_store COMPACTION cursor w
                              | None => cursor_init cursor_store COMPACTION cursor
                              end) in
  let key := cache_key_for_cursor c COMPACTION in
  let@ _ := run (match to_vec witness with
                 | Some json => cache_insert key json
                 | None => cache_remove key
                 end) in
  let@ _ := (if allow_rollback
             then attempt (mark_dirty (MarkDirty := mark_dirty_of fuel c) (from_offset adjusted) 1) (fun _ => hret tt)
             else hret tt) in
  run (modify (fun s => set_need_to_compact (advance_rollup (from_offset adjusted) c (need_to_compact s)) s)).

Definition update_collection_log_offset (collection_id : string) (log_offset : Z) : HM Code unit :=
  let@ _ := ensure_write_mode in
  let@ _ := parse_collection collection_id in
  update_log_offset collection_id log_offset false.

Definition rollback_collection_log_offset (collection_id : string) (log_offset : Z) : HM Code unit :=
  let@ _ := ensure_write_mode in
  let@ _ := parse_collection collection_id in
  update_log_offset collection_id log_offset true.

(** *** What needs compaction *)

Record CollectionInfo := mkCollectionInfo {
  info_collection_id : string;
  first_log_offset : Z;
  first_log_ts : Z;
}.

(** The condition of [cached_get_all_collection_info_to_compact]. *)
Definition ready_to_compact (cfg : LogServerConfig) (min_compaction_size now : Z) (r : RollupPerCollection) : bool :=
  (LogPosition.leb (start_log_position r) (limit_log_position r) &&
     (min_compaction_size <=? LogPosition.diff (limit_log_position r) (start_log_position r)))
  || (reinsert_threshold cfg <=? reinsert_count r)
  || (timeout_us cfg <=? Z.max (now - initial_insertion_epoch_us r) 0).

Definition get_all_collection_info_to_compact (min_compaction_size : Z) : HM Code (list CollectionInfo) :=
  let@ s := run get_server in
  let@ now := run now_us in
  if now <? 0 then out_of_fuel else
  let selected := List.filter (fun x => ready_to_compact (config s) min_compaction_size now x.2) (map_to_list (need_to_compact s)) in
  hret ((fun x => let start := i64_wrap (offset (start_log_position x.2)) in
                  mkCollectionInfo (uuid_to_string x.1) start start) <$> selected).

(** *** The rollup of the dirty log *)

Inductive ServiceError :=
| Wal3 (e : Error)
| Json
| CouldNotGetDirtyLogReader
| CouldNotGetDirtyLogCursors.

Record Rollup := mkServiceRollup {
  ru_witness : option Witness;
  ru_cursor : Cursor;
  last_record_witnessed : LogPosition;
  ru_rollups : Rollups;
}.

(** The records of a fragment that are markers. *)
Definition decode_markers (records : list (LogPosition * bytes)) : list (LogPosition * DirtyMarker) :=
  omap (fun x => pair x.1 <$> from_slice x.2) records.

(** One future of [read_and_coalesce_dirty_log]; its error is only logged. *)
Definition read_dirty_fragment (prefix : string) (t : RollupTransientState) (f : Fragment) : M RollupTransientState :=
  attempt (read_parquet prefix (frag_path f)) (fun r =>
    match r with
    | Ok (_, records, _) => ret (add_fragment (decode_markers records) t)
    | Err _ => ret t
    end).

Definition read_and_coalesce_dirty_log (lw : LogWriter) : HM ServiceError Rollup :=
  let cs := mkCursorStore (lw_prefix lw) (lw_writer lw) in
  let@ witness := call Wal3 (cursor_load cs STABLE_PREFIX) in
  let cursor := default Cursor_default (witness_cursor <$> witness) in
  let empty := mkServiceRollup witness cursor (cursor_position cursor) ∅ in
  attempt (scan (lw_prefix lw) None fuel (cursor_position cursor) UNLIMITED) (fun r =>
    match r with
    | Err UninitializedLog => hret empty
    | Err e => hfail (Wal3 e)
    | Ok [] => hret empty
    | Ok frags =>
        let@ t := run (foldM (read_dirty_fragment (lw_prefix lw)) RollupTransientState_default frags) in
        hret (mkServiceRollup witness cursor (largest_log_position_read t) (finish_rollup t))
    end).

(** [load_witness] of [enrich_dirty_log]. *)
Definition load_witness (c : CollectionUuid) : M (option Witness * option Manifest) :=
  let cs := mkCursorStore (storage_prefix_for_log c) "rollup" in
  let! s := get_server in
  let without (witness : option Witness) :=
    match witness with
    | Some w => ret (Some w, None)
    | None => let! m := reader_manifest (storage_prefix_for_log c) in ret (None, m)
    end in
  if bool_decide (is_Some (cache s)) then
    let key := cache_key_for_cursor c COMPACTION in
    let! hit := cache_lookup key in
    match hit with
    | Some json => let! w := decode_or Internal json in ret (Some w, None)
    | None =>
        let! w := cursor_load cs COMPACTION in
        let! _ := match w with
                  | Some w => let! json := encode_or Internal w in cache_insert key json
                  | None => ret tt
                  end in
        without w
    end
  else
    let! w := cursor_load cs COMPACTION in without w.

(** One future of [enrich_dirty_log]. *)
Definition enrich_one (c : CollectionUuid) (r : RollupPerCollection) : M (option (CollectionUuid * RollupPerCollection)) :=
  attempt (load_witness c) (fun x =>
    match x with
    | Err _ => ret (Some (c, r))
    | Ok (witness, manifest) =>
        let r := match witness, manifest with
                 | Some w, _ => RollupPerCollection.witness_cursor (Some w) r
                 | None, Some m => RollupPerCollection.witness_manifest (Some m) r
                 | None, None => r
                 end in
        ret (if RollupPerCollection.is_empty r then None else Some (c, r))
    end).

Definition enrich_dirty_log (rollups : Rollups) : M Rollups :=
  let! l := mapM (fun x => enrich_one x.1 x.2) (map_to_list rollups) in
  ret (list_to_map (omap id l)).

(** The markers that [save_dirty_log] writes. *)
Definition rollup_markers (rollups : Rollups) : list DirtyMarker :=
  let l := (fun x => RollupPerCollection.dirty_marker x.1 x.2)
             <$> List.filter (fun x => negb (RollupPerCollection.is_empty x.2)) (map_to_list rollups) in
  if bool_decide (l = []) then [DirtyCleared] else l.

Definition encode_all (l : list DirtyMarker) : option (list bytes) :=
  foldr (fun m acc => b ← to_vec m; bs ← acc; Some (b :: bs)) (Some []) l.

Definition save_dirty_log (rollup : Rollup) (lw : LogWriter) : HM ServiceError unit :=
  let@ s := run get_server in
  let rollups := ru_rollups rollup in
  let pressed := fst <$> List.filter (fun x => negb (RollupPerCollection.is_empty x.2) &&
      RollupPerCollection.requires_backpressure (num_records_before_backpressure (config s)) x.2) (map_to_list rollups) in
  match encode_all (rollup_markers rollups) with
  | None => hfail Json
  | Some markers =>
      let@ (r, lw) := run (append_many (dirty := unit_mark_dirty) fuel markers lw) in
      let@ _ := run (modify (set_dirty_log (Some lw))) in
      let@ _ := match r with
                | Ok _ | Err LogContentionDurable => hret tt
                | Err e => hfail (Wal3 e)
                end in
      let cursor := mkCursor (LogPosition.add (last_record_witnessed rollup) 1) (epoch_us (ru_cursor rollup))
                      (cursor_writer (ru_cursor rollup)) in
      let cs := mkCursorStore (lw_prefix lw) (lw_writer lw) in
      let@ _ := call Wal3 (match ru_witness rollup with
                           | Some w => cursor_save cs STABLE_PREFIX cursor w
                           | None => cursor_init cs STABLE_PREFIX cursor
                           end) in
      run (modify (fun s => set_need_to_compact rollups (set_backpressure pressed s)))
  end.

Definition roll_dirty_log : HM ServiceError unit :=
  let@ s := run get_server in
  match dirty_log s with
  | None => hfail CouldNotGetDirtyLogReader
  | Some lw =>
      let@ rollup := read_and_coalesce_dirty_log lw in
      if bool_decide (ru_rollups rollup = ∅)
      then run (modify (fun s => set_need_to_compact ∅ (set_backpressure [] s)))
      else
        let@ rollups := call Wal3 (enrich_dirty_log (ru_rollups rollup)) in
        save_dirty_log (mkServiceRollup (ru_witness rollup) (ru_cursor rollup) (last_record_witnessed rollup) rollups) lw
  end.

(** *** Appending *)

Record PushLogsResponse := mkPushLogsResponse { record_count : Z; log_is_sealed : bool }.

Definition encode_records (l : list OperationRecord) : option (list bytes) :=
  foldr (fun m acc => b ← encode_record m; bs ← acc; Some (b :: bs)) (Some []) l.

Definition I32_MAX : Z := 2 ^ 31 - 1.

Definition push_logs (collection_id : string) (records : list OperationRecord) : HM Code PushLogsResponse :=
  let@ _ := ensure_write_mode in
  let@ c := parse_collection collection_id in
  if I32_MAX <? Z.of_nat (length records) then hfail Code_InvalidArgument else
  if bool_decide (length records = 0%nat) then hfail Code_InvalidArgument else
  let@ _ := check_for_backpressure c in
  let prefix := storage_prefix_for_log c in
  let@ log := call (fun e => match e with UninitializedLog => Code_NotFound | _ => Code_Unknown end)
                (get_log_from_handle fuel c prefix) in
  match encode_records records with
  | None => hfail Code_Unknown
  | Some messages =>
      let@ (r, log) := run (append_many (dirty := mark_dirty_of fuel c) fuel messages log) in
      let@ _ := run (store_log c log) in
      let@ _ := match r with
                | Ok _ | Err LogContentionDurable => hret tt
                | Err Backoff => hfail Code_Unavailable
                | Err e => hfail (coded e)
                end in
      let@ _ := run (match lw_manifest_and_etag log with
                     | Some met => match to_vec met with
                                   | Some b => cache_insert (cache_key_for_manifest_and_etag c) b
                                   | None => ret tt
                                   end
                     | None => ret tt
                     end) in
      hret (mkPushLogsResponse (Z.of_nat (length messages)) false)
  end.

(** *** Scouting *)

Record ScoutLogsResponse := mkScoutLogsResponse {
  first_uncompacted_record_offset : Z;
  first_uninserted_record_offset : Z;
  is_sealed : bool;
}.

(** [log_reader.verify(cached).await.unwrap_or_default()]. *)
Definition verified (prefix : string) (met : ManifestAndETag) : M bool :=
  attempt (verify prefix met) (fun r => ret (match r with Ok b => b | Err _ => false end)).

Definition cached_manifest (c : CollectionUuid) : M (option ManifestAndETag) :=
  let! hit := cache_lookup (cache_key_for_manifest_and_etag c) in
  ret (b ← hit; from_slice b).

Definition positions_of (m : Manifest) : LogPosition * LogPosition := (oldest_timestamp m, next_write_timestamp m).

Definition scout_logs (collection_id : string) : HM Code ScoutLogsResponse :=
  let@ c := parse_collection collection_id in
  let prefix := storage_prefix_for_log c in
  let@ cached := run (cached_manifest c) in
  let@ cached := run (match cached with
                      | Some met => let! ok := verified prefix met in ret (if ok : bool then Some met else None)
                      | None => ret None
                      end) in
  let@ (start, limit) :=
    match cached with
    | Some met => hret (positions_of (stable_manifest met))
    | None =>
        let@ r := call (fun e => match e with UninitializedLog => Code_NotFound | _ => coded e end)
                    (manifest_and_e_tag prefix) in
        match r with
        | Some met =>
            let@ s := run get_server in
            let@ _ := match cache s with
                      | None => hret tt
                      | Some _ => match to_vec met with
                                  | Some b => run (cache_insert (cache_key_for_manifest_and_etag c) b)
                                  | None => hfail Code_Unknown
                                  end
                      end in
            hret (positions_of (stable_manifest met))
        | None => hret (from_offset 1, from_offset 1)
        end
    end in
  hret (mkScoutLogsResponse (i64_wrap (offset start)) (i64_wrap (offset limit)) true).

(** *** Reading *)

Record PullLogsRequest := mkPullLogsRequest {
  pull_collection_id : string;
  start_from_offset : Z;
  batch_size : Z;
}.

Record LogRecord := mkLogRecord { log_offset : Z; log_record : OperationRecord }.

Definition pull_limits (r : PullLogsRequest) : Limits :=
  let n := u64_wrap (batch_size r) in mkLimits (Some (wrapping_add n 1)) None (Some n).

Definition read_fragments_via_cache (c : CollectionUuid) (r : PullLogsRequest) : M (option (list Fragment)) :=
  let! met := cached_manifest c in
  ret (met ← met; scan_from_manifest (stable_manifest met) (from_offset (u64_wrap (start_from_offset r))) (pull_limits r)).

Definition read_fragments_via_log_reader (c : CollectionUuid) (r : PullLogsRequest) : M (list Fragment) :=
  scan (storage_prefix_for_log c) None fuel (from_offset (u64_wrap (start_from_offset r))) (pull_limits r).

Definition read_fragments (c : CollectionUuid) (r : PullLogsRequest) : M (list Fragment) :=
  let! cached := read_fragments_via_cache c r in
  match cached with
  | Some frags => ret frags
  | None => read_fragments_via_log_reader c r
  end.

(** The offsets and bodies of a batch. *)
Definition batch_records (b : RecordBatch) : option (list (LogPosition * bytes)) :=
  offset ← column_by_name b "offset";
  body ← column_by_name b "body";
  offset ← as_uint64 offset;
  body ← as_binary body;
  Some ((fun i => (from_offset (default 0 (offset !! i)), default [] (body !! i))) <$> seq 0 (num_rows b)).

Fixpoint batches_records (l : list (option RecordBatch)) : option (list (LogPosition * bytes)) :=
  match l with
  | [] => Some []
  | None :: _ => None
  | Some b :: l => rows ← batch_records b; rest ← batches_records l; Some (rows ++ rest)
  end.

Definition parquet_to_records (b : bytes) : HM Code (list (LogPosition * bytes)) :=
  match parquet_read b with
  | None => hfail Code_Unavailable
  | Some batches => match batches_records batches with
                    | None => hfail Code_Unavailable
                    | Some rows => hret rows
                    end
  end.

(** One future of [pull_logs]. *)
Definition fetch_fragment (c : CollectionUuid) (f : Fragment) : M bytes :=
  let prefix := storage_prefix_for_log c in
  let key := cache_key_for_fragment c (frag_path f) in
  let! hit := cache_lookup key in
  match hit with
  | Some b => ret b
  | None =>
      let! b := fetch prefix f in
      let! _ := cache_insert key b in
      ret b
  end.

(** The loop over the records of one file. *)
Fixpoint select_records (start size : Z) (rows : list (LogPosition * bytes)) (acc : list LogRecord) :
    result (list LogRecord) Code :=
  match rows with
  | [] => Ok acc
  | (p, body) :: rows =>
      if (offset p <? start) || (wrapping_add start size <=? offset p) then select_records start size rows acc
      else if size <=? Z.of_nat (length acc) then Ok acc
      else match decode_record body with
           | None => Err Code_DataLoss
           | Some r => select_records start size rows (acc ++ [mkLogRecord (i64_wrap (offset p)) r])
           end
  end.

Fixpoint collect_records (start size : Z) (parquets : list bytes) (acc : list LogRecord) : HM Code (list LogRecord) :=
  match parquets with
  | [] => hret acc
  | b :: parquets =>
      let@ rows := parquet_to_records b in
      match select_records start size rows acc with
      | Err e => hfail e
      | Ok acc => collect_records start size parquets acc
      end
  end.

(** [Vec::with_capacity] panics when the batch size, a negative number, is huge
    as an unsigned one. *)
Definition pull_logs (r : PullLogsRequest) : HM Code (list LogRecord) :=
  let@ c := parse_collection (pull_collection_id r) in
  let@ frags := attempt (read_fragments c r) (fun x =>
                  match x with
                  | Ok frags => hret frags
                  | Err UninitializedLog => hret []
                  | Err e => hfail (coded e)
                  end) in
  let@ parquets := call coded (mapM (fetch_fragment c) frags) in
  if batch_size r <? 0 then out_of_fuel else
  let size := batch_size r in
  let@ records := collect_records (u64_wrap (start_from_offset r)) size parquets [] in
  if negb (Z.of_nat (length records) =? size) ||
     match records with
     | x :: _ => negb (log_offset x =? start_from_offset r)
     | [] => false
     end
  then hfail Code_NotFound
  else hret records.

(** *** Forking *)

Record ForkLogsResponse := mkForkLogsResponse { compaction_offset : Z; enumeration_offset : Z }.

Definition fork_logs (source_collection_id target_collection_id : string) : HM Code ForkLogsResponse :=
  let@ _ := ensure_write_mode in
  let@ source := parse_collection source_collection_id in
  let@ _ := check_for_backpressure source in
  let@ target := parse_collection target_collection_id in
  let source_prefix := storage_prefix_for_log source in
  let target_prefix := storage_prefix_for_log target in
  let@ witness := call coded (cursor_load (mkCursorStore source_prefix "copy task") COMPACTION) in
  let cursor := (fun w => cursor_position (witness_cursor w)) <$> witness in
  let@ _ := call coded (copy source_prefix None fuel (default (from_offset 1) cursor) target_prefix) in
  let@ r := call coded (reader_manifest target_prefix) in
  match r with
  | None => hfail Code_Internal
  | Some new_manifest =>
      let first_copied_offset := oldest_timestamp new_manifest in
      let max_offset := next_write_timestamp new_manifest in
      if match cursor with
         | Some c => LogPosition.ltb c first_copied_offset || LogPosition.ltb max_offset c
         | None => false
         end then hfail Code_Internal else
      let cursor := default (from_offset 1) cursor in
      let@ _ := (if bool_decide (cursor <> max_offset)
                 then attempt (mark_dirty (MarkDirty := mark_dirty_of fuel target) cursor (LogPosition.diff max_offset cursor))
                        (fun _ => hret tt)
                 else hret tt) in
      hret (mkForkLogsResponse (offset (LogPosition.sub cursor 1)) (offset (LogPosition.sub max_offset 1)))
  end.

(** *** Maintenance *)

Fixpoint parse_collections (l : list string) : HM Code (list CollectionUuid) :=
  match l with
  | [] => hret []
  | s :: l => let@ c := parse_collection s in
              let@ cs := parse_collections l in
              hret (c :: cs)
  end.

Definition purge_dirty_for_collection (collection_ids : list string) : HM Code unit :=
  let@ _ := ensure_write_mode in
  let@ cs := parse_collections collection_ids in
  match encode_all (DirtyPurge <$> cs) with
  | None => hfail Code_Internal
  | Some blobs =>
      let@ s := run get_server in
      match dirty_log s with
      | None => hfail Code_FailedPrecondition
      | Some lw =>
          let@ (r, lw) := run (append_many (dirty := unit_mark_dirty) fuel blobs lw) in
          let@ _ := run (modify (set_dirty_log (Some lw))) in
          match r with
          | Ok _ => hret tt
          | Err e => hfail (coded e)
          end
      end
  end.

Definition seal_log : HM Code unit := hfail Code_FailedPrecondition.
Definition migrate_log : HM Code unit := hfail Code_FailedPrecondition.

(** The texts of the response, for people, are left out. *)
Definition inspect_log_state (collection_id : string) : HM Code (Z * Z) :=
  let@ c := parse_collection collection_id in
  let prefix := storage_prefix_for_log c in
  attempt (reader_manifest prefix) (fun r =>
    match r with
    | Err UninitializedLog => hret (0, 0)
    | Err _ => hfail Code_Unknown
    | Ok mani =>
        let@ witness := call coded (cursor_load (mkCursorStore prefix "writer") COMPACTION) in
        hret (match mani with
              | Some m => (offset (default (oldest_timestamp m) ((fun w => cursor_position (witness_cursor w)) <$> witness)),
                           offset (next_write_timestamp m))
              | None => (0, 0)
              end)
    end).

(** The field [log_to_collect] or [log_to_scrub] of a request. *)
Inductive LogChoice :=
| ChosenCollection (collection_id : string)
| ChosenDirtyLog (host : string).

Definition handle_error_properly (e : Error) : Code :=
  match e with
  | GarbageCollectionPrecondition _ => Code_FailedPrecondition
  | _ => Code_Unknown
  end.

Definition garbage_collect_phase2 (log_to_collect : option LogChoice) : HM Code unit :=
  let@ _ := ensure_write_mode in
  match log_to_collect with
  | Some (ChosenCollection x) =>
      let@ c := parse_collection x in
      let@ log := call handle_error_properly (get_log_from_handle fuel c (storage_prefix_for_log c)) in
      let@ (r, log) := run (lw_phase2 (dirty := mark_dirty_of fuel c) fuel log) in
      let@ _ := run (store_log c log) in
      match r with
      | Ok _ => hret tt
      | Err e => hfail (handle_error_properly e)
      end
  | Some (ChosenDirtyLog host) =>
      let@ s := run get_server in
      if negb (String.eqb host (my_member_id (config s))) then hfail Code_FailedPrecondition else
      match dirty_log s with
      | None => hfail Code_FailedPrecondition
      | Some lw =>
          let@ (r, lw) := run (lw_phase2 (dirty := unit_mark_dirty) fuel lw) in
          let@ _ := run (modify (set_dirty_log (Some lw))) in
          match r with
          | Ok _ => hret tt
          | Err _ => hfail Code_Unknown
          end
      end
  | None => hfail Code_NotFound
  end.

Inductive EntryToEvict :=
| CursorForCollectionId (x : string)
| ManifestForCollectionId (x : string)
| FragmentToEvict (collection_id fragment_path : string).

Definition purge_from_cache (entry_to_evict : option EntryToEvict) : HM Code unit :=
  let@ _ := ensure_write_mode in
  match entry_to_evict with
  | Some (CursorForCollectionId x) =>
      let@ c := parse_collection x in run (cache_remove (cache_key_for_cursor c COMPACTION))
  | Some (ManifestForCollectionId x) =>
      let@ c := parse_collection x in run (cache_remove (cache_key_for_manifest_and_etag c))
  | Some (FragmentToEvict x p) =>
      let@ c := parse_collection x in run (cache_remove (cache_key_for_fragment c p))
  | None => hret tt
  end.

(** The setsum and the errors of the response are texts. *)
Definition scrub_log (log_to_scrub : option LogChoice) (max_bytes_to_read max_files_to_read : Z) :
    HM Code (result ScrubSuccess (list Error)) :=
  let@ path := match log_to_scrub with
               | Some (ChosenCollection x) => let@ c := parse_collection x in hret (storage_prefix_for_log c)
               | Some (ChosenDirtyLog host) => hret (dirty_log_path_from_hostname host)
               | None => hfail Code_NotFound
               end in
  run (reader_scrub path None fuel (mkLimits (Some max_files_to_read) (Some max_bytes_to_read) None)).

(** [try_from_config], with the cache made by its own configuration. *)
Definition LogServer_new (cfg : LogServerConfig) (c : option cache_state) : M LogServer :=
  let! lw := open_or_initialize (dirty := unit_mark_dirty) fuel (writer_options cfg)
               (dirty_log_path_from_hostname (my_member_id cfg)) "dirty log writer" in
  ret (mkLogServer cfg ∅ (Some lw) ∅ ∅ c).
End Handlers.
