(* ===== verification/BTree.v ===== *)
(** * Ordered maps

    [BTreeMap] of the Rust standard library: a list of entries with increasing
    keys.  [Ordered] is the trait [Ord]. *)

From S2P Require Import Prelude.
From stdpp Require Import sorting.
From Stdlib Require Import Ascii.

(** ** Orders *)

Class Ordered (A : Type) := cmp : A -> A -> comparison.

Class OrderedLaws (A : Type) {O : Ordered A} : Prop := {
  cmp_eq : forall x y : A, cmp x y = Eq <-> x = y;
  cmp_opp : forall x y : A, cmp y x = CompOpp (cmp x y);
  cmp_trans : forall x y z : A, cmp x y = Lt -> cmp y z = Lt -> cmp x z = Lt;
}.
Arguments OrderedLaws A {O}.

Definition ltb {A} {O : Ordered A} (x y : A) : bool := match cmp x y with Lt => true | _ => false end.
Definition leb {A} {O : Ordered A} (x y : A) : bool := match cmp x y with Gt => false | _ => true end.

Section Order.
Context {A : Type} {O : Ordered A} {OL : OrderedLaws A}.

Lemma cmp_refl (x : A) : cmp x x = Eq.
Proof. by apply cmp_eq. Qed.

Lemma cmp_gt (x y : A) : cmp x y = Gt <-> cmp y x = Lt.
Proof. rewrite (cmp_opp x y). by destruct (cmp x y). Qed.

Lemma cmp_lt_irrefl (x : A) : cmp x x <> Lt.
Proof. by rewrite cmp_refl. Qed.

Lemma ltb_lt (x y : A) : ltb x y = true <-> cmp x y = Lt.
Proof. unfold ltb. by destruct (cmp x y). Qed.

Lemma leb_ngt (x y : A) : leb x y = true <-> cmp x y <> Gt.
Proof. unfold leb. by destruct (cmp x y). Qed.

Lemma leb_ltb (x y : A) : leb x y = negb (ltb y x).
Proof. unfold leb, ltb. rewrite (cmp_opp x y). by destruct (cmp x y). Qed.

Lemma leb_refl (x : A) : leb x x = true.
Proof. unfold leb. by rewrite cmp_refl. Qed.

Lemma leb_lt_or_eq (x y : A) : leb x y = true <-> cmp x y = Lt \/ x = y.
Proof.
  unfold leb. rewrite <- (cmp_eq x y). destruct (cmp x y); split; try tauto; try done. by intros [|].
Qed.

Lemma leb_trans (x y z : A) : leb x y = true -> leb y z = true -> leb x z = true.
Proof.
  rewrite !leb_lt_or_eq. intros [Hxy| ->] [Hyz| ->]; auto. left. by eapply cmp_trans.
Qed.

Lemma le_lt_trans (x y z : A) : leb x y = true -> cmp y z = Lt -> cmp x z = Lt.
Proof. rewrite leb_lt_or_eq. intros [Hxy| ->]; [|done]. by intros; eapply cmp_trans. Qed.

Lemma lt_le_trans (x y z : A) : cmp x y = Lt -> leb y z = true -> cmp x z = Lt.
Proof. rewrite leb_lt_or_eq. intros Hxy [Hyz| <-]; [|done]. by eapply cmp_trans. Qed.

Lemma leb_antisym (x y : A) : leb x y = true -> leb y x = true -> x = y.
Proof.
  rewrite !leb_lt_or_eq. intros [Hxy| ->] [Hyx|H]; try done. exfalso.
  apply (cmp_lt_irrefl x). by eapply cmp_trans.
Qed.
End Order.

(** Bytes in lexicographic order: [str::cmp]. *)
#[export] Instance string_ordered : Ordered string := String.compare.

#[export] Instance string_ordered_laws : OrderedLaws string.
Proof.
  assert (forall a b c : Ascii.ascii, Ascii.compare a b = Lt -> Ascii.compare b c = Lt -> Ascii.compare a c = Lt) as Ha.
  { intros a b c. unfold Ascii.compare. rewrite !N.compare_lt_iff. lia. }
  constructor; unfold cmp, string_ordered.
  - intros x y. split; [by apply String.compare_eq_iff|]. intros <-. induction x as [|a x IH]; [done|]. cbn.
    unfold Ascii.compare. by rewrite N.compare_refl.
  - intros x y. apply String.compare_antisym.
  - intros x. induction x as [|a x IH]; intros [|b y] [|c z]; cbn; try done.
    destruct (Ascii.compare a b) eqn:Hab; [|intros _|done].
    + apply Ascii.compare_eq_iff in Hab as ->. destruct (Ascii.compare b c); [apply IH|done|done].
    + destruct (Ascii.compare b c) eqn:Hbc; [intros _|intros _|done].
      * apply Ascii.compare_eq_iff in Hbc as <-. by rewrite Hab.
      * by rewrite (Ha a b c).
Qed.

#[export] Instance Z_ordered : Ordered Z := Z.compare.

#[export] Instance Z_ordered_laws : OrderedLaws Z.
Proof.
  constructor; unfold cmp, Z_ordered.
  - intros x y. apply Z.compare_eq_iff.
  - intros x y. apply Z.compare_antisym.
  - intros x y z. rewrite !Z.compare_lt_iff. lia.
Qed.

(** [false < true]. *)
#[export] Instance bool_ordered : Ordered bool := Bool.compare.

#[export] Instance bool_ordered_laws : OrderedLaws bool.
Proof. constructor; [intros [] []; done|intros [] []; done|intros [] [] []; done]. Qed.

(** ** Lists *)

Fixpoint skip_while {A} (p : A -> bool) (l : list A) : list A :=
  match l with
  | [] => []
  | x :: l' => if p x then skip_while p l' else l
  end.

(** [Vec::sort]. *)
Fixpoint insert_sorted {A} {O : Ordered A} (x : A) (l : list A) : list A :=
  match l with
  | [] => [x]
  | y :: l' => if leb x y then x :: l else y :: insert_sorted x l'
  end.
Definition sort {A} {O : Ordered A} (l : list A) : list A := foldr insert_sorted [] l.

(** [std::ops::Bound] and [RangeBounds::contains]. *)
Inductive Bound (A : Type) :=
| Included (a : A)
| Excluded (a : A)
| Unbounded.
Arguments Included {A} a.
Arguments Excluded {A} a.
Arguments Unbounded {A}.

Definition in_bounds {A} {O : Ordered A} (lo hi : Bound A) (x : A) : bool :=
  match lo with Included a => leb a x | Excluded a => ltb a x | Unbounded => true end &&
  match hi with Included b => leb x b | Excluded b => ltb x b | Unbounded => true end.

(** ** Maps *)

Abbreviation btree A V := (list (A * V)).

Section Map.
Context {A V : Type} {O : Ordered A}.

Fixpoint bt_get (k : A) (m : btree A V) : option V :=
  match m with
  | [] => None
  | (k', v) :: m => match cmp k k' with Lt => None | Eq => Some v | Gt => bt_get k m end
  end.

Fixpoint bt_insert (k : A) (v : V) (m : btree A V) : btree A V :=
  match m with
  | [] => [(k, v)]
  | (k', v') :: m' => match cmp k k' with
                      | Lt => (k, v) :: m
                      | Eq => (k, v) :: m'
                      | Gt => (k', v') :: bt_insert k v m'
                      end
  end.

Fixpoint bt_remove (k : A) (m : btree A V) : btree A V :=
  match m with
  | [] => []
  | (k', v') :: m' => match cmp k k' with
                      | Lt => m
                      | Eq => m'
                      | Gt => (k', v') :: bt_remove k m'
                      end
  end.

(** [split_off]: what is left and what is returned. *)
Definition bt_split_off (k : A) (m : btree A V) : btree A V * btree A V :=
  (List.filter (fun x => ltb x.1 k) m, List.filter (fun x => leb k x.1) m).

(** [range(..=k).next_back()]. *)
Definition bt_last_le (k : A) (m : btree A V) : option (A * V) :=
  last (List.filter (fun x => leb x.1 k) m).

Definition bt_sorted (m : btree A V) : Prop := StronglySorted (fun x y => cmp x.1 y.1 = Lt) m.
End Map.

Section MapFacts.
Context {A V : Type} {O : Ordered A} {OL : OrderedLaws A}.
Implicit Types m : btree A V.

Lemma bt_sorted_cons k v m : bt_sorted ((k, v) :: m) <-> Forall (fun x => cmp k x.1 = Lt) m /\ bt_sorted m.
Proof. apply StronglySorted_cons. Qed.

Lemma bt_sorted_app m1 m2 :
  bt_sorted (m1 ++ m2) <->
  (forall x y, x ∈ m1 -> y ∈ m2 -> cmp x.1 y.1 = Lt) /\ bt_sorted m1 /\ bt_sorted m2.
Proof. apply StronglySorted_app. Qed.

Lemma bt_get_below k m : Forall (fun x => cmp k x.1 = Lt) m -> bt_get k m = None.
Proof. intros [|[k' v'] m' Hk _]; [done|]. cbn in *. by rewrite Hk. Qed.

Lemma bt_get_elem k v m : bt_sorted m -> bt_get k m = Some v <-> (k, v) ∈ m.
Proof.
  induction m as [|[k' v'] m IH]; intros Hs; cbn; [by rewrite elem_of_nil|].
  apply bt_sorted_cons in Hs as [Hk Hs]. rewrite elem_of_cons. destruct (cmp k k') eqn:Hc.
  - apply cmp_eq in Hc as ->. split; [intros [= ->]; by left|]. intros [[= ->]|Hin]; [done|].
    rewrite Forall_forall in Hk. apply Hk in Hin. by apply cmp_lt_irrefl in Hin.
  - split; [done|]. intros [[= -> ->]|Hin]; [by apply cmp_lt_irrefl in Hc|].
    rewrite Forall_forall in Hk. apply Hk in Hin. cbn in Hin. exfalso. apply (cmp_lt_irrefl k). by eapply cmp_trans.
  - rewrite IH by done. split; [by right|]. intros [[= -> ->]|]; [|done]. by rewrite cmp_refl in Hc.
Qed.

Lemma bt_insert_elem k v m x : x ∈ bt_insert k v m -> x = (k, v) \/ x ∈ m.
Proof.
  induction m as [|[k' v'] m IH]; cbn; [set_solver|]. destruct (cmp k k'); set_solver.
Qed.

Lemma bt_insert_sorted k v m : bt_sorted m -> bt_sorted (bt_insert k v m).
Proof.
  induction m as [|[k' v'] m IH]; intros Hs; cbn.
  { apply bt_sorted_cons. split; [constructor|constructor]. }
  destruct (cmp k k') eqn:Hc; apply bt_sorted_cons in Hs as [Hk Hs].
  - apply cmp_eq in Hc as ->. by apply bt_sorted_cons.
  - apply bt_sorted_cons. split; [|by apply bt_sorted_cons]. constructor; [done|].
    eapply Forall_impl; [exact Hk|]. intros x Hx. by eapply cmp_trans.
  - apply bt_sorted_cons. split; [|by apply IH]. rewrite Forall_forall in *. intros x [->|Hx]%bt_insert_elem; [|by apply Hk].
    by apply cmp_gt.
Qed.

Lemma bt_get_insert k v m k' :
  bt_get k' (bt_insert k v m) = match cmp k' k with Eq => Some v | _ => bt_get k' m end.
Proof.
  induction m as [|[k0 v0] m IH]; cbn [bt_insert bt_get].
  - cbn. by destruct (cmp k' k).
  - destruct (cmp k k0) eqn:Hc; cbn [bt_get].
    + apply cmp_eq in Hc as ->. by destruct (cmp k' k0).
    + destruct (cmp k' k) eqn:Hk; [done| |done]. by rewrite (cmp_trans _ _ _ Hk Hc).
    + rewrite IH. destruct (cmp k' k0) eqn:H0; [| |done].
      * apply cmp_eq in H0 as ->. apply cmp_gt in Hc. by rewrite Hc.
      * assert (cmp k' k = Lt) as ->; [|done]. apply cmp_gt in Hc. by eapply cmp_trans.
Qed.

Lemma bt_remove_elem k m x : x ∈ bt_remove k m -> x ∈ m.
Proof. induction m as [|[k' v'] m IH]; cbn; [done|]. destruct (cmp k k'); set_solver. Qed.

Lemma bt_remove_sorted k m : bt_sorted m -> bt_sorted (bt_remove k m).
Proof.
  induction m as [|[k' v'] m IH]; intros Hs; cbn; [done|].
  destruct (cmp k k') eqn:Hc; [by apply bt_sorted_cons in Hs as [_ ?]|done|].
  apply bt_sorted_cons in Hs as [Hk Hs]. apply bt_sorted_cons. split; [|by apply IH].
  rewrite Forall_forall in *. intros x Hx%bt_remove_elem. by apply Hk.
Qed.

Lemma bt_get_remove k m k' :
  bt_sorted m -> bt_get k' (bt_remove k m) = match cmp k' k with Eq => None | _ => bt_get k' m end.
Proof.
  induction m as [|[k0 v0] m IH]; intros Hs; cbn; [by destruct (cmp k' k)|].
  pose proof Hs as [Hk Hs']%bt_sorted_cons. destruct (cmp k k0) eqn:Hc.
  - apply cmp_eq in Hc as ->. destruct (cmp k' k0) eqn:H0; [| |done].
    + apply cmp_eq in H0 as ->. by apply bt_get_below.
    + apply bt_get_below. eapply Forall_impl; [exact Hk|]. intros x Hx. by eapply cmp_trans.
  - cbn. destruct (cmp k' k) eqn:H0; [|done|done]. apply cmp_eq in H0 as ->. by rewrite Hc.
  - cbn. rewrite IH by done. destruct (cmp k' k0) eqn:H0; [| |done].
    + apply cmp_eq in H0 as ->. apply cmp_gt in Hc. by rewrite Hc.
    + assert (cmp k' k = Lt) as ->; [|done]. apply cmp_gt in Hc. by eapply cmp_trans.
Qed.

(** Two maps with the same entries are equal. *)
Lemma bt_ext m1 m2 : bt_sorted m1 -> bt_sorted m2 -> (forall k, bt_get k m1 = bt_get k m2) -> m1 = m2.
Proof.
  revert m2. induction m1 as [|[k1 v1] m1 IH]; intros [|[k2 v2] m2] H1 H2 He; [done| | |].
  - specialize (He k2). cbn in He. by rewrite cmp_refl in He.
  - specialize (He k1). cbn in He. by rewrite cmp_refl in He.
  - pose proof H1 as [Hk1 Hs1]%bt_sorted_cons. pose proof H2 as [Hk2 Hs2]%bt_sorted_cons.
    assert (k1 = k2) as <-.
    { pose proof (He k1) as E1. pose proof (He k2) as E2. cbn in E1, E2. rewrite cmp_refl in E1. rewrite cmp_refl in E2.
      rewrite (cmp_opp k1 k2) in E2. destruct (cmp k1 k2) eqn:Hc; cbn in E2; [by apply cmp_eq|done|done]. }
    assert (v1 = v2) as <-. { specialize (He k1). cbn in He. rewrite cmp_refl in He. congruence. }
    f_equal. apply IH; [done..|]. intros k. specialize (He k). cbn in He. destruct (cmp k k1) eqn:Hc; [| |done].
    + apply cmp_eq in Hc as ->. by rewrite !bt_get_below.
    + rewrite !bt_get_below; [done| |]; eapply Forall_impl; try eassumption; intros x Hx; by eapply cmp_trans.
Qed.

Lemma bt_sorted_nodup m : bt_sorted m -> NoDup m.*1.
Proof.
  induction m as [|[k v] m IH]; intros Hs; cbn; [constructor|]. apply bt_sorted_cons in Hs as [Hk Hs].
  constructor; [|by apply IH]. intros ([k' v'] & Hx & Hin)%list_elem_of_fmap. cbn in Hx. subst k'.
  rewrite Forall_forall in Hk. apply Hk in Hin. by apply cmp_lt_irrefl in Hin.
Qed.

Lemma filter_lt_nil k k' m :
  ltb k' k = false -> Forall (fun x => cmp k' x.1 = Lt) m -> List.filter (fun x => ltb x.1 k) m = [].
Proof.
  intros Hc Hk. induction Hk as [|[k2 v2] m Hx Hk IH]; cbn; [done|]. cbn in Hx.
  assert (ltb k2 k = false) as ->; [|done]. apply not_true_iff_false. intros H2%ltb_lt.
  apply not_true_iff_false in Hc. apply Hc, ltb_lt. by eapply cmp_trans.
Qed.

(** Entries are in the lower half or in the upper half of a split. *)
Lemma filter_le_lt_app k m :
  bt_sorted m -> m = List.filter (fun x => ltb x.1 k) m ++ List.filter (fun x => leb k x.1) m.
Proof.
  induction m as [|[k' v] m IH]; intros Hs; cbn; [done|]. apply bt_sorted_cons in Hs as [Hk Hs]. specialize (IH Hs).
  rewrite leb_ltb. destruct (ltb k' k) eqn:Hc; cbn; [by rewrite <- IH|].
  rewrite (filter_lt_nil k k' m Hc Hk) in IH |- *. cbn in *. by rewrite <- IH.
Qed.

Lemma bt_split_off_app k m : bt_sorted m -> (bt_split_off k m).1 ++ (bt_split_off k m).2 = m.
Proof. intros Hs. symmetry. by apply filter_le_lt_app. Qed.

(** The last entry at or below a key splits the map. *)
Lemma bt_last_le_spec k m d v :
  bt_sorted m -> bt_last_le k m = Some (d, v) ->
  exists m1 m2, m = m1 ++ (d, v) :: m2 /\ leb d k = true /\ Forall (fun x => cmp k x.1 = Lt) m2.
Proof.
  unfold bt_last_le. induction m as [|[k' v'] m IH]; intros Hs; cbn; [done|]. apply bt_sorted_cons in Hs as [Hk Hs].
  destruct (leb k' k) eqn:Hc; cbn.
  - destruct (last (List.filter (fun x => leb x.1 k) m)) as [[d' v2]|] eqn:Hl.
    + rewrite last_cons, Hl. intros [= <- <-]. destruct (IH Hs eq_refl) as (m1 & m2 & -> & Hd & Hf).
      exists ((k', v') :: m1), m2. done.
    + rewrite last_cons, Hl. intros [= <- <-]. exists [], m. split_and!; [done..|]. apply last_None in Hl.
      apply Forall_forall. intros x Hx. apply cmp_gt. destruct (leb x.1 k) eqn:Hle.
      * assert (x ∈ List.filter (fun x => leb x.1 k) m) as Hin by (apply list_elem_of_In, filter_In; by rewrite <- list_elem_of_In).
        by rewrite Hl in Hin; apply elem_of_nil in Hin.
      * unfold leb in Hle. by destruct (cmp x.1 k).
  - intros Hl. destruct (IH Hs Hl) as (m1 & m2 & -> & Hd & Hf). exists ((k', v') :: m1), m2. done.
Qed.

(** *** Maps in pieces *)

Lemma bt_remove_none k m : bt_get k m = None -> bt_remove k m = m.
Proof.
  induction m as [|[k' v'] m IH]; cbn; [done|]. destruct (cmp k k'); [done|done|]. intros Hg. by rewrite IH.
Qed.

Lemma bt_insert_remove k v m : bt_sorted m -> bt_insert k v (bt_remove k m) = bt_insert k v m.
Proof.
  intros Hs. apply bt_ext; [by apply bt_insert_sorted, bt_remove_sorted|by apply bt_insert_sorted|].
  intros k'. rewrite !bt_get_insert, bt_get_remove by done. by destruct (cmp k' k).
Qed.

Lemma bt_get_after k m1 m2 : Forall (fun x => cmp x.1 k = Lt) m1 -> bt_get k (m1 ++ m2) = bt_get k m2.
Proof.
  intros Hf. induction Hf as [|[k' v'] m1 Hx _ IH]; [done|]. cbn in *. by rewrite (proj2 (cmp_gt k k') Hx).
Qed.

Lemma bt_insert_after k v m1 m2 : Forall (fun x => cmp x.1 k = Lt) m1 -> bt_insert k v (m1 ++ m2) = m1 ++ bt_insert k v m2.
Proof.
  intros Hf. induction Hf as [|[k' v'] m1 Hx _ IH]; [done|]. cbn in *. by rewrite (proj2 (cmp_gt k k') Hx), IH.
Qed.

Lemma bt_remove_after k m1 m2 : Forall (fun x => cmp x.1 k = Lt) m1 -> bt_remove k (m1 ++ m2) = m1 ++ bt_remove k m2.
Proof.
  intros Hf. induction Hf as [|[k' v'] m1 Hx _ IH]; [done|]. cbn in *. by rewrite (proj2 (cmp_gt k k') Hx), IH.
Qed.

Lemma bt_get_before k m1 m2 : Forall (fun x => cmp k x.1 = Lt) m2 -> bt_get k (m1 ++ m2) = bt_get k m1.
Proof.
  intros Hf. induction m1 as [|[k' v'] m1 IH]; cbn; [by apply bt_get_below|]. by rewrite IH.
Qed.

Lemma bt_insert_before k v m1 m2 : Forall (fun x => cmp k x.1 = Lt) m2 -> bt_insert k v (m1 ++ m2) = bt_insert k v m1 ++ m2.
Proof.
  intros Hf. induction m1 as [|[k' v'] m1 IH]; cbn.
  - destruct Hf as [|[k' v'] m2 Hx]; [done|]. cbn in *. by rewrite Hx.
  - destruct (cmp k k'); [done|done|]. by rewrite IH.
Qed.

Lemma bt_remove_before k m1 m2 : Forall (fun x => cmp k x.1 = Lt) m2 -> bt_remove k (m1 ++ m2) = bt_remove k m1 ++ m2.
Proof.
  intros Hf. induction m1 as [|[k' v'] m1 IH]; cbn.
  - destruct Hf as [|[k' v'] m2 Hx]; [done|]. cbn in *. by rewrite Hx.
  - destruct (cmp k k'); [done|done|]. by rewrite IH.
Qed.

Lemma bt_insert_last k v m : Forall (fun x => cmp x.1 k = Lt) m -> bt_insert k v m = m ++ [(k, v)].
Proof. intros Hf. rewrite <- (app_nil_r m) at 1. by rewrite bt_insert_after. Qed.

Lemma bt_split_off_middle k v m1 m2 :
  bt_sorted (m1 ++ (k, v) :: m2) -> bt_split_off k (m1 ++ (k, v) :: m2) = (m1, (k, v) :: m2).
Proof.
  intros (H12 & H1 & [Hk H2]%bt_sorted_cons)%bt_sorted_app. unfold bt_split_off.
  assert (forall m, Forall (fun x => cmp x.1 k = Lt) m ->
            List.filter (fun x => ltb x.1 k) m = m /\ List.filter (fun x => leb k x.1) m = []) as Hlow.
  { intros m Hm. induction Hm as [|x m Hx _ [IH1 IH2]]; [done|]. cbn. rewrite leb_ltb. unfold ltb in *. rewrite Hx. cbn.
    by rewrite IH1, IH2. }
  assert (forall m, Forall (fun x => leb k x.1 = true) m ->
            List.filter (fun x => ltb x.1 k) m = [] /\ List.filter (fun x => leb k x.1) m = m) as Hhigh.
  { intros m Hm. induction Hm as [|x m Hx _ [IH1 IH2]]; [done|]. cbn. rewrite Hx, IH2. rewrite leb_ltb in Hx.
    apply negb_true_iff in Hx. by rewrite Hx, IH1. }
  rewrite !List.filter_app. destruct (Hlow m1) as [-> ->].
  { apply Forall_forall. intros x Hx. apply (H12 x (k, v)); set_solver. }
  destruct (Hhigh ((k, v) :: m2)) as [-> ->]; [|by rewrite app_nil_r].
  constructor; [apply leb_refl|]. eapply Forall_impl; [exact Hk|]. intros x Hx. apply leb_lt_or_eq. by left.
Qed.
End MapFacts.
