(* ===== verification/BlockKey.v ===== *)
(** * Keys of blockfiles

    [rust/blockstore/src/key.rs], the key types of [arrow/block/key] and the
    delimiters of [arrow/sparse_index.rs].  All keys of a blockfile have one
    type, the parameter [K] of its operations: [Key] is the trait, and a key is
    wrapped in a [KeyWrapper] where the source has no type at hand. *)

From S2P Require Import Prelude BTree.

#[local] Open Scope Z_scope.

(** ** Wrapped keys *)

(** A float is its 32 bits. *)
Inductive KeyWrapper :=
| KeyString (s : string)
| KeyFloat32 (bits : Z)
| KeyBool (b : bool)
| KeyUint32 (u : Z).

Definition KeyWrapper_size (k : KeyWrapper) : Z :=
  match k with
  | KeyString s => Z.of_nat (String.length s)
  | KeyFloat32 _ => 4
  | KeyBool _ => 1
  | KeyUint32 _ => 4
  end.

(** [f32::partial_cmp]: not a number compares with nothing, and both zeros are
    equal. *)
Definition f32_magnitude (bits : Z) : Z := Z.land bits (2 ^ 31 - 1).
Definition f32_is_nan (bits : Z) : bool := 2139095040 <? f32_magnitude bits.
Definition f32_rank (bits : Z) : Z := if Z.testbit bits 31 then - f32_magnitude bits else f32_magnitude bits.
Definition f32_partial_cmp (a b : Z) : option comparison :=
  if f32_is_nan a || f32_is_nan b then None else Some (Z.compare (f32_rank a) (f32_rank b)).

(** [Ord::cmp] of [CompositeKey]; [None] is a panic. *)
Definition wrapped_cmp (p1 : string) (k1 : KeyWrapper) (p2 : string) (k2 : KeyWrapper) : option comparison :=
  if String.eqb p1 p2 then
    match k1, k2 with
    | KeyString s1, KeyString s2 => Some (String.compare s1 s2)
    | KeyFloat32 f1, KeyFloat32 f2 => f32_partial_cmp f1 f2
    | KeyBool b1, KeyBool b2 => Some (Bool.compare b1 b2)
    | KeyUint32 u1, KeyUint32 u2 => Some (Z.compare u1 u2)
    | _, _ => None
    end
  else Some (String.compare p1 p2).

(** ** Key types *)

(** [arrow::util::bit_util::round_upto_multiple_of_64]. *)
Definition round64 (n : Z) : Z := (n + 63) / 64 * 64.

Class Key (K : Type) := {
  key_ordered :: Ordered K;
  into_wrapper : K -> KeyWrapper;
  key_offset_size : Z -> Z;
  key_default : K;
}.

Class KeyLaws (K : Type) {KK : Key K} : Prop := {
  key_ordered_laws :: OrderedLaws K;
  into_wrapper_cmp : forall p a b, wrapped_cmp p (into_wrapper a) p (into_wrapper b) = Some (cmp a b);
  key_offset_size_nonneg : forall n, 0 <= n -> 0 <= key_offset_size n;
}.
Arguments KeyLaws K {KK}.

#[export] Instance str_key : Key string := {|
  into_wrapper := KeyString;
  key_offset_size n := round64 ((n + 1) * 4);
  key_default := EmptyString;
|}.

#[export] Instance bool_key : Key bool := {|
  into_wrapper := KeyBool;
  key_offset_size _ := 0;
  key_default := false;
|}.

Record u32 := mkU32 { u32_value : Z }.
#[export] Instance u32_ordered : Ordered u32 := fun a b => Z.compare (u32_value a) (u32_value b).
#[export] Instance u32_key : Key u32 := {|
  into_wrapper u := KeyUint32 (u32_value u);
  key_offset_size _ := 0;
  key_default := mkU32 0;
|}.

Lemma round64_le n : n <= round64 n.
Proof. unfold round64. pose proof (Z_div_mod_eq_full (n + 63) 64). pose proof (Z.mod_pos_bound (n + 63) 64). lia. Qed.

Lemma round64_mono a b : a <= b -> round64 a <= round64 b.
Proof. intros Hab. unfold round64. pose proof (Z.div_le_mono (a + 63) (b + 63) 64). lia. Qed.

#[export] Instance str_key_laws : KeyLaws string.
Proof.
  constructor; [apply _| |].
  - intros p a b. unfold wrapped_cmp. by rewrite String.eqb_refl.
  - intros n Hn. cbn. pose proof (round64_le ((n + 1) * 4)). lia.
Qed.

#[export] Instance bool_key_laws : KeyLaws bool.
Proof. constructor; [apply _| |done]. intros p a b. unfold wrapped_cmp. by rewrite String.eqb_refl. Qed.

#[export] Instance u32_key_laws : KeyLaws u32.
Proof.
  constructor; [|intros p a b; unfold wrapped_cmp; by rewrite String.eqb_refl|done].
  constructor; unfold cmp; cbn; unfold u32_ordered.
  - intros [x] [y]. cbn. rewrite Z.compare_eq_iff. split; [by intros ->|by intros [=]].
  - intros [x] [y]. apply Z.compare_antisym.
  - intros [x] [y] [z]. cbn. rewrite !Z.compare_lt_iff. lia.
Qed.

(** ** Composite keys and delimiters *)

Section Composite.
Context {K : Type} {KK : Key K}.

Record CompositeKey := mkCompositeKey { prefix : string; key : K }.

#[global] Instance CompositeKey_ordered : Ordered CompositeKey := fun a b =>
  if String.eqb (prefix a) (prefix b) then cmp (key a) (key b) else String.compare (prefix a) (prefix b).

(** The sentinel of the first block and the first keys of the others. *)
Inductive SparseIndexDelimiter :=
| Start
| DelimiterKey (k : CompositeKey).

#[global] Instance SparseIndexDelimiter_ordered : Ordered SparseIndexDelimiter := fun a b =>
  match a, b with
  | Start, Start => Eq
  | Start, DelimiterKey _ => Lt
  | DelimiterKey _, Start => Gt
  | DelimiterKey k1, DelimiterKey k2 => cmp k1 k2
  end.

Context {KL : KeyLaws K}.

Lemma composite_lt a b :
  cmp a b = Lt <-> cmp (prefix a) (prefix b) = Lt \/ (prefix a = prefix b /\ cmp (key a) (key b) = Lt).
Proof.
  unfold cmp at 1, CompositeKey_ordered. destruct (String.eqb_spec (prefix a) (prefix b)) as [He|Hne].
  - rewrite He. rewrite (cmp_refl (prefix b)). intuition done.
  - unfold cmp, string_ordered. intuition done.
Qed.

#[global] Instance CompositeKey_laws : OrderedLaws CompositeKey.
Proof.
  constructor.
  - intros [p a] [q b]. unfold cmp at 1, CompositeKey_ordered. cbn. destruct (String.eqb_spec p q) as [->|Hne].
    + rewrite cmp_eq. split; [by intros ->|by intros [=]].
    + split; [|by intros [=]]. intros He%String.compare_eq_iff. done.
  - intros [p a] [q b]. unfold cmp at 1 2, CompositeKey_ordered. cbn. rewrite (String.eqb_sym q p).
    destruct (String.eqb_spec p q) as [->|Hne]; [apply cmp_opp|apply String.compare_antisym].
  - intros x y z. rewrite !composite_lt. intros [Hxy|[Hxy Hk]] [Hyz|[Hyz Hk']].
    + left. by eapply cmp_trans.
    + left. by rewrite <- Hyz.
    + left. by rewrite Hxy.
    + right. split; [congruence|by eapply cmp_trans].
Qed.

(** The order of the source on wrapped keys, which does not panic on keys of
    one type. *)
Lemma composite_cmp_wrapped a b :
  wrapped_cmp (prefix a) (into_wrapper (key a)) (prefix b) (into_wrapper (key b)) = Some (cmp a b).
Proof.
  destruct a as [p a], b as [q b]. unfold cmp, CompositeKey_ordered. cbn. destruct (String.eqb_spec p q) as [->|Hne].
  - apply into_wrapper_cmp.
  - unfold wrapped_cmp. by apply String.eqb_neq in Hne as ->.
Qed.

#[global] Instance SparseIndexDelimiter_laws : OrderedLaws SparseIndexDelimiter.
Proof.
  constructor; unfold cmp, SparseIndexDelimiter_ordered.
  - intros [|a] [|b]; try done. rewrite cmp_eq. split; [by intros ->|by intros [=]].
  - intros [|a] [|b]; try done. apply cmp_opp.
  - intros [|a] [|b] [|d]; try done. apply cmp_trans.
Qed.

(** The prefix of a smaller key is not larger. *)
Lemma composite_le_prefix a b : leb a b = true -> leb (prefix a) (prefix b) = true.
Proof.
  rewrite (leb_lt_or_eq a), leb_lt_or_eq, composite_lt. intros [[Hp|[Hp _]]| ->]; auto.
Qed.
End Composite.
Arguments CompositeKey K : clear implicits.
Arguments SparseIndexDelimiter K : clear implicits.
