(* ===== verification/SparseIndex.v ===== *)
(** * Sparse indices

    [rust/blockstore/src/arrow/sparse_index.rs]: which block of a blockfile
    holds the keys of a range.  A block is known by the smallest key it may
    hold, the first one by the sentinel [Start]. *)

From S2P Require Import Prelude Setsum Storage Types BTree BlockKey.

#[local] Open Scope Z_scope.

Section Index.
Context {K : Type} {KK : Key K}.

#[local] Abbreviation Delimiter := (SparseIndexDelimiter K).

(** ** Writers *)

Record SparseIndexWriterData := mkSparseIndexWriter {
  forward : btree Delimiter Uuid;
  reverse : gmap Uuid Delimiter;
  counts : btree Delimiter Z;
}.

Inductive AddError := BlockIdExists.
Inductive SetCountError := BlockIdDoesNotExist.

Definition SparseIndexWriter_new (initial_block_id : Uuid) : SparseIndexWriterData :=
  mkSparseIndexWriter [(Start, initial_block_id)] {[ initial_block_id := Start ]} [].

(** One replacement; [None] is a panic, [these maps are always in sync]. *)
Definition replace_block (old_block_id new_block_id : Uuid) (d : SparseIndexWriterData) : option SparseIndexWriterData :=
  match reverse d !! old_block_id with
  | Some old_start_key =>
      let fwd := bt_insert old_start_key new_block_id (bt_remove old_start_key (forward d)) in
      let rev := <[new_block_id := old_start_key]> (base.delete old_block_id (reverse d)) in
      old_count ← bt_get old_start_key (counts d);
      Some (mkSparseIndexWriter fwd rev (bt_insert old_start_key old_count (bt_remove old_start_key (counts d))))
  | None => Some d
  end.

Fixpoint replace_blocks (blocks_to_replace : list (Uuid * Uuid)) (d : SparseIndexWriterData) : option SparseIndexWriterData :=
  match blocks_to_replace with
  | [] => Some d
  | (old, new) :: l => d ← replace_block old new d; replace_blocks l d
  end.

Definition add_block (start_key : CompositeKey K) (block_id : Uuid) (d : SparseIndexWriterData) :
    result unit AddError * SparseIndexWriterData :=
  if bool_decide (is_Some (reverse d !! block_id)) then (Err BlockIdExists, d)
  else (Ok tt, mkSparseIndexWriter (bt_insert (DelimiterKey start_key) block_id (forward d))
                 (<[block_id := DelimiterKey start_key]> (reverse d)) (counts d)).

Fixpoint add_blocks (blocks_to_add : list (CompositeKey K * Uuid)) (d : SparseIndexWriterData) :
    result unit AddError * SparseIndexWriterData :=
  match blocks_to_add with
  | [] => (Ok tt, d)
  | (start_key, block_id) :: l =>
      match add_block start_key block_id d with
      | (Ok _, d) => add_blocks l d
      | (Err e, d) => (Err e, d)
      end
  end.

Definition apply_updates (blocks_to_replace : list (Uuid * Uuid)) (blocks_to_add : list (CompositeKey K * Uuid))
    (d : SparseIndexWriterData) : option (result unit AddError * SparseIndexWriterData) :=
  d ← replace_blocks blocks_to_replace d; Some (add_blocks blocks_to_add d).

Definition set_count (block_id : Uuid) (count : Z) (d : SparseIndexWriterData) :
    result unit SetCountError * SparseIndexWriterData :=
  match reverse d !! block_id with
  | Some start_key => (Ok tt, mkSparseIndexWriter (forward d) (reverse d) (bt_insert start_key count (counts d)))
  | None => (Err BlockIdDoesNotExist, d)
  end.

(** [None] is a panic, [No blocks in the sparse index]. *)
Definition get_target_block {T} (search_key : CompositeKey K) (fwd : btree Delimiter T) : option T :=
  snd <$> bt_last_le (DelimiterKey search_key) fwd.

Definition get_target_block_id (search_key : CompositeKey K) (d : SparseIndexWriterData) : option Uuid :=
  get_target_block search_key (forward d).

Definition index_len (d : SparseIndexWriterData) : nat := length (forward d).

Definition correct_start_key (d : SparseIndexWriterData) : SparseIndexWriterData :=
  match forward d with
  | [] => d
  | (Start, _) :: _ => d
  | (DelimiterKey k, id) :: rest =>
      mkSparseIndexWriter (bt_insert Start id (bt_remove (DelimiterKey k) (forward d)))
        (<[id := Start]> (base.delete id (reverse d)))
        (match bt_get (DelimiterKey k) (counts d) with
         | Some old_count => bt_insert Start old_count (bt_remove (DelimiterKey k) (counts d))
         | None => counts d
         end)
  end.

Definition remove_block (block_id : Uuid) (d : SparseIndexWriterData) : bool * SparseIndexWriterData :=
  let '(removed, d) :=
    if (1 <? index_len d)%nat then
      (true, match reverse d !! block_id with
             | Some start_key => mkSparseIndexWriter (bt_remove start_key (forward d)) (base.delete block_id (reverse d))
                                   (bt_remove start_key (counts d))
             | None => d
             end)
    else (false, d) in
  (removed, correct_start_key d).

(** ** Readers *)

Record SparseIndexValue := mkSparseIndexValue { siv_id : Uuid; siv_count : Z }.

Abbreviation SparseIndexReader := (btree Delimiter SparseIndexValue).

(** [get_target_block_id] of a reader. *)
Definition reader_target_block_id (search_key : CompositeKey K) (r : SparseIndexReader) : option Uuid :=
  siv_id <$> get_target_block search_key r.

(** The loop of [get_all_target_block_ids] over the blocks; [search] is sorted. *)
Fixpoint all_target_ids (search : list (CompositeKey K)) (r : SparseIndexReader) : list Uuid :=
  match r with
  | [] => []
  | (curr, block) :: rest =>
      match search with
      | [] => []
      | k :: search' =>
          match rest with
          | (next, _) :: _ =>
              let inside k := leb curr (DelimiterKey k) && ltb (DelimiterKey k) next in
              if inside k
              then siv_id block :: all_target_ids (skip_while inside search') rest
              else all_target_ids search rest
          | [] => [siv_id block]
          end
      end
  end.

Definition get_all_target_block_ids (search_keys : list (CompositeKey K)) (r : SparseIndexReader) : list Uuid :=
  all_target_ids (sort search_keys) r.

(** The prefix of the first key of the next block: [Start] is no such block. *)
Definition end_prefix (rest : SparseIndexReader) : option string :=
  match rest with
  | (DelimiterKey k, _) :: _ => Some (prefix k)
  | (Start, _) :: _ => Some EmptyString
  | [] => None
  end.

(** The loop of [get_block_ids_for_prefixes]; [prefixes] is sorted. *)
Fixpoint prefix_ids (prefixes : list string) (r : SparseIndexReader) : list Uuid :=
  match r with
  | [] => []
  | (start, block) :: rest =>
      let prefixes := match start with
                      | DelimiterKey k => skip_while (fun p => negb (leb (prefix k) p)) prefixes
                      | Start => prefixes
                      end in
      match prefixes with
      | [] => []
      | p :: _ =>
          if match end_prefix rest with None => true | Some e => leb p e end
          then siv_id block :: prefix_ids prefixes rest
          else prefix_ids prefixes rest
      end
  end.

Definition get_block_ids_for_prefixes (prefixes : list string) (r : SparseIndexReader) : list Uuid :=
  prefix_ids (sort prefixes) r.

(** Whether the prefixes of a block meet the range. *)
Definition max_start_prefix (lo : Bound string) (start : Delimiter) : Bound string :=
  match start with
  | Start => lo
  | DelimiterKey k =>
      match lo with
      | Included given | Excluded given => if ltb given (prefix k) then Included (prefix k) else lo
      | Unbounded => Included (prefix k)
      end
  end.

Definition min_end_prefix (hi : Bound string) (end_key : option string) : Bound string :=
  match end_key with
  | Some e =>
      match hi with
      | Included given | Excluded given => if ltb e given then Included e else hi
      | Unbounded => Included e
      end
  | None => hi
  end.

Definition overlaps (lo hi : Bound string) : bool :=
  match lo, hi with
  | Included s, Included e => leb s e
  | Included s, Excluded e | Excluded s, Included e | Excluded s, Excluded e => ltb s e
  | _, _ => true
  end.

Fixpoint get_block_ids_range (lo hi : Bound string) (r : SparseIndexReader) : list Uuid :=
  match r with
  | [] => []
  | (start, block) :: rest =>
      let ids := get_block_ids_range lo hi rest in
      if overlaps (max_start_prefix lo start) (min_end_prefix hi (end_prefix rest)) then siv_id block :: ids else ids
  end.

(** [SparseIndexReader::fork]. *)
Definition fork_index (r : SparseIndexReader) : SparseIndexWriterData :=
  foldl (fun d x => mkSparseIndexWriter (bt_insert x.1 (siv_id x.2) (forward d))
                      (<[siv_id x.2 := x.1]> (reverse d)) (bt_insert x.1 (siv_count x.2) (counts d)))
    (mkSparseIndexWriter [] ∅ []) r.

(** [SparseIndexReader::is_valid]: the first key is the sentinel and keys are
    in order. *)
Fixpoint keys_in_order (r : SparseIndexReader) : bool :=
  match r with
  | (curr, _) :: (((next, _) :: _) as rest) => negb (leb next curr) && keys_in_order rest
  | _ => true
  end.

Definition index_is_valid (r : SparseIndexReader) : bool :=
  match r with
  | [] => true
  | (Start, _) :: _ => keys_in_order r
  | (DelimiterKey _, _) :: _ => false
  end.
End Index.
Arguments SparseIndexWriterData K : clear implicits.
Abbreviation SparseIndexReader K := (btree (SparseIndexDelimiter K) SparseIndexValue).
