(* ===== verification/BlockDelta.v ===== *)
(** * Block deltas

    [rust/blockstore/src/arrow/block/delta]: the mutable form of a block, a
    map that knows how large it will be as an Arrow record batch and splits
    when it is too large.  Values have one column ([single_column_storage.rs]).
    Sizes in bytes are unbounded integers, since they measure what is in memory;
    the number of items of a tracker, which is not the number of rows, wraps
    around. *)

From S2P Require Import Prelude Setsum Storage Types BTree BlockKey.

#[local] Open Scope Z_scope.

(** The part of [ArrowWriteableValue] that sizes depend on. *)
Class Value (V : Type) := {
  value_size : V -> Z;
  value_offset_size : Z -> Z;
  value_validity_size : Z -> Z;
}.

Class ValueLaws (V : Type) {VV : Value V} : Prop := {
  value_size_nonneg : forall v, 0 <= value_size v;
  (** Offsets take at most four bytes each. *)
  value_offset_size_le : forall n, 0 <= n -> value_offset_size n <= round64 ((n + 1) * 4);
}.
Arguments ValueLaws V {VV}.

#[export] Instance str_value : Value string := {|
  value_size s := Z.of_nat (String.length s);
  value_offset_size n := round64 ((n + 1) * 4);
  value_validity_size _ := 0;
|}.

#[export] Instance u32_value_ : Value u32 := {|
  value_size _ := 4;
  value_offset_size _ := 0;
  value_validity_size _ := 0;
|}.

#[export] Instance str_value_laws : ValueLaws string.
Proof. constructor; cbn; lia. Qed.

#[export] Instance u32_value_laws : ValueLaws u32.
Proof. constructor; cbn; [lia|]. intros n Hn. pose proof (round64_le ((n + 1) * 4)). lia. Qed.

(** [SingleColumnSizeTracker]. *)
Record SizeTracker := mkTracker {
  num_items : Z;
  prefix_size : Z;
  key_size : Z;
  column_size : Z;
}.

Definition SizeTracker_new : SizeTracker := mkTracker 0 0 0 0.

Section Delta.
Context {K V : Type} {KK : Key K} {VV : Value V}.

(** ** Storage *)

(** [SingleColumnStorage], for unordered writers a [BTreeMap]. *)
Record SingleColumnStorage := mkStorage {
  storage : btree (CompositeKey K) V;
  size_tracker : SizeTracker;
}.

Definition SingleColumnStorage_new : SingleColumnStorage := mkStorage [] SizeTracker_new.

Definition prefix_len (k : CompositeKey K) : Z := Z.of_nat (String.length (prefix k)).
Definition key_len (k : CompositeKey K) : Z := KeyWrapper_size (into_wrapper (key k)).

(** [usize] arithmetic, in the release profile. *)
Definition wrap (n : Z) : Z := n mod 2 ^ 64.

Definition track (k : CompositeKey K) (v : V) (t : SizeTracker) : SizeTracker :=
  mkTracker (wrap (num_items t + 1)) (prefix_size t + prefix_len k) (key_size t + key_len k) (column_size t + value_size v).
Definition untrack (k : CompositeKey K) (v : V) (t : SizeTracker) : SizeTracker :=
  mkTracker (wrap (num_items t - 1)) (prefix_size t - prefix_len k) (key_size t - key_len k) (column_size t - value_size v).

Definition storage_len (s : SingleColumnStorage) : nat := length (storage s).
Definition get_min_key (s : SingleColumnStorage) : option (CompositeKey K) := fst <$> head (storage s).

Definition storage_add (k : CompositeKey K) (v : V) (s : SingleColumnStorage) : SingleColumnStorage :=
  let t := match bt_get k (storage s) with
           | Some old => untrack k old (size_tracker s)
           | None => size_tracker s
           end in
  mkStorage (bt_insert k v (bt_remove k (storage s))) (track k v t).

Definition storage_delete (k : CompositeKey K) (s : SingleColumnStorage) : SingleColumnStorage :=
  mkStorage (bt_remove k (storage s))
    (match bt_get k (storage s) with
     | Some old => untrack k old (size_tracker s)
     | None => size_tracker s
     end).

Definition get_owned_value (k : CompositeKey K) (s : SingleColumnStorage) : option V := bt_get k (storage s).

(** The size as a record batch. *)
Definition storage_size (s : SingleColumnStorage) : Z :=
  let t := size_tracker s in
  let n := Z.of_nat (storage_len s) in
  round64 (prefix_size t) + round64 (key_size t) + round64 (column_size t) +
  round64 ((n + 1) * 4) + key_offset_size (K := K) n + value_offset_size (V := V) n + value_validity_size (V := V) n.

(** The size that [split] computes for the first [n] items. *)
Definition running_size (n : Z) (t : SizeTracker) : Z :=
  round64 (prefix_size t) + round64 (key_size t) + round64 (column_size t) +
  round64 ((n + 1) * 4) + key_offset_size (K := K) n + round64 ((n + 1) * 4) + value_validity_size (V := V) n.

(** The loop of [split], after [n] items: the split key, how many items were
    counted and the sizes of what is before the split.  When the split is before
    the last item, its sizes are taken off again, but not the item. *)
Fixpoint find_split (split_size : Z) (n : Z) (t : SizeTracker) (l : btree (CompositeKey K) V) :
    option (CompositeKey K * SizeTracker) :=
  match l with
  | [] => None
  | (k, v) :: l =>
      let n := n + 1 in
      let t' := mkTracker n (prefix_size t + prefix_len k) (key_size t + key_len k) (column_size t + value_size v) in
      if split_size <? running_size n t' then
        match l with
        | [] => Some (k, mkTracker n (prefix_size t) (key_size t) (column_size t))
        | (next, _) :: _ => Some (next, t')
        end
      else find_split split_size n t' l
  end.

(** [None] is a panic.  What is left in the storage, and the new one. *)
Definition storage_split (split_size : Z) (s : SingleColumnStorage) :
    option (CompositeKey K * SingleColumnStorage * SingleColumnStorage) :=
  '(split_key, t) ← find_split split_size 0 SizeTracker_new (storage s);
  let total := size_tracker s in
  let high_tracker := mkTracker (wrap (num_items total - num_items t)) (prefix_size total - prefix_size t)
                        (key_size total - key_size t) (column_size total - column_size t) in
  let low_tracker := mkTracker (wrap (num_items total - num_items high_tracker)) (prefix_size total - prefix_size high_tracker)
                       (key_size total - key_size high_tracker) (column_size total - column_size high_tracker) in
  let '(low, high) := bt_split_off split_key (storage s) in
  Some (split_key, mkStorage low low_tracker, mkStorage high high_tracker).

(** ** Deltas *)

(** [UnorderedBlockDelta]. *)
Record BlockDelta := mkDelta { builder : SingleColumnStorage; delta_id : Uuid }.

Definition delta_len (d : BlockDelta) : nat := storage_len (builder d).
Definition delta_size (d : BlockDelta) : Z := storage_size (builder d).
Definition delta_add (k : CompositeKey K) (v : V) (d : BlockDelta) : BlockDelta :=
  mkDelta (storage_add k v (builder d)) (delta_id d).
Definition delta_delete (k : CompositeKey K) (d : BlockDelta) : BlockDelta :=
  mkDelta (storage_delete k (builder d)) (delta_id d).

(** [Uuid::new_v4]: the UUIDs that are drawn, in order. *)
Variable new_v4 : nat -> Uuid.

(** The loop of [split] after its first round, on a block that is too large;
    [None] is a panic. *)
Fixpoint split_rest (fuel : nat) (max_block_size_bytes : Z) (next : nat) (curr : BlockDelta) :
    option (list (CompositeKey K * BlockDelta) * nat) :=
  match fuel with
  | O => None
  | S fuel =>
      '(new_start_key, low, high) ← storage_split (max_block_size_bytes / 2) (builder curr);
      let new_block := mkDelta high (new_v4 next) in
      min_key ← get_min_key low;
      let out := (min_key, mkDelta low (delta_id curr)) in
      if max_block_size_bytes <? delta_size new_block then
        '(rest, next) ← split_rest fuel max_block_size_bytes (S next) new_block; Some (out :: rest, next)
      else Some ([out; (new_start_key, new_block)], S next)
  end.

(** [split]: what is left in the block, and the blocks to add.  Each round
    takes items off, so the number of items bounds the rounds. *)
Definition delta_split (max_block_size_bytes : Z) (next : nat) (d : BlockDelta) :
    option (BlockDelta * list (CompositeKey K * BlockDelta) * nat) :=
  '(new_start_key, low, high) ← storage_split (max_block_size_bytes / 2) (builder d);
  let new_block := mkDelta high (new_v4 next) in
  let self := mkDelta low (delta_id d) in
  if max_block_size_bytes <? delta_size new_block then
    '(rest, next) ← split_rest (delta_len d) max_block_size_bytes (S next) new_block; Some (self, rest, next)
  else Some (self, [(new_start_key, new_block)], S next).
End Delta.
Arguments SingleColumnStorage K V : clear implicits.
Arguments BlockDelta K V : clear implicits.
