(* ===== verification/Block.v ===== *)
(** * Blocks

    [rust/blockstore/src/arrow/block/types.rs]: an immutable block, rows of
    prefix, key and value in order, and its queries by binary search.  The
    Arrow record batch is the list of its rows. *)

From S2P Require Import Prelude Setsum Storage Types BTree BlockKey BlockDelta.

Section Blocks.
Context {K V : Type} {KK : Key K} {VV : Value V}.

Record Block := mkBlock { rows : list (CompositeKey K * V); block_id : Uuid }.

Definition block_len (b : Block) : nat := length (rows b).

(** ** Search *)

(** The loop of [binary_search_by]; the number of rounds is at most [size]. *)
Fixpoint search_loop (fuel : nat) (f : CompositeKey K -> comparison) (l : list (CompositeKey K * V)) (base size : nat) : nat :=
  match fuel with
  | O => base
  | S fuel =>
      if (size <=? 1)%nat then base else
      let half := (size / 2)%nat in
      let mid := (base + half)%nat in
      let base := match l !! mid with
                  | Some row => match f row.1 with Gt => base | _ => mid end
                  | None => base
                  end in
      search_loop fuel f l base (size - half)
  end.

(** [f] compares a row with the target: [inl] is [Ok], [inr] is [Err]. *)
Definition binary_search_by (f : CompositeKey K -> comparison) (l : list (CompositeKey K * V)) : nat + nat :=
  match l with
  | [] => inr 0%nat
  | _ =>
      let base := search_loop (length l) f l 0 (length l) in
      match l !! base with
      | Some row => match f row.1 with
                    | Eq => inl base
                    | Lt => inr (S base)
                    | Gt => inr base
                    end
      | None => inr base
      end
  end.

(** [expect_err]: the comparisons below are never equal. *)
Definition expect_err (r : nat + nat) : nat := match r with inl i | inr i => i end.

Definition find_smallest_index_of_prefix (p : string) (l : list (CompositeKey K * V)) : nat :=
  expect_err (binary_search_by (fun k => match cmp (prefix k) p with Lt => Lt | Eq | Gt => Gt end) l).

Definition find_smallest_index_of_next_prefix (p : string) (l : list (CompositeKey K * V)) : nat :=
  expect_err (binary_search_by (fun k => match cmp (prefix k) p with Lt | Eq => Lt | Gt => Gt end) l).

(** [p.cmp(prefix).then_with(|| k.partial_cmp(key))]. *)
Definition then_key (p : string) (k : K) (row : CompositeKey K) : comparison :=
  match cmp (prefix row) p with
  | Eq => cmp (key row) k
  | c => c
  end.

Definition binary_search_prefix_key (p : string) (k : K) (l : list (CompositeKey K * V)) : nat :=
  expect_err (binary_search_by (fun row => match then_key p k row with Lt => Lt | Eq | Gt => Gt end) l).

Definition match_prefix_key_at_index (p : string) (k : K) (i : nat) (l : list (CompositeKey K * V)) : bool :=
  match l !! i with
  | Some row => match cmp (prefix row.1) p, cmp (key row.1) k with Eq, Eq => true | _, _ => false end
  | None => false
  end.

(** ** Queries *)

(** The rows of an index range. *)
Definition slice {A} (s e : nat) (l : list A) : list A := take (e - s) (drop s l).

Definition block_get_prefix (p : string) (b : Block) : list (K * V) :=
  let offset := find_smallest_index_of_prefix p (rows b) in
  if (block_len b <=? offset)%nat then [] else
  let cap := find_smallest_index_of_next_prefix p (rows b) in
  (fun r => (key r.1, r.2)) <$> slice offset cap (rows b).

Definition block_get (p : string) (k : K) (b : Block) : option V :=
  match binary_search_by (then_key p k) (rows b) with
  | inl i => snd <$> rows b !! i
  | inr _ => None
  end.

(** The rows of the cursor's prefix that the key range selects. *)
Definition start_index (lo : Bound K) (p : string) (cursor : nat) (l : list (CompositeKey K * V)) : nat :=
  match lo with
  | Included k => binary_search_prefix_key p k l
  | Excluded k => let i := binary_search_prefix_key p k l in (i + if match_prefix_key_at_index p k i l then 1 else 0)%nat
  | Unbounded => cursor
  end.

Definition end_index (hi : Bound K) (p : string) (next : nat) (l : list (CompositeKey K * V)) : nat :=
  match hi with
  | Included k => let i := binary_search_prefix_key p k l in (i + if match_prefix_key_at_index p k i l then 1 else 0)%nat
  | Excluded k => binary_search_prefix_key p k l
  | Unbounded => next
  end.

(** The loop over prefixes; each round moves the cursor past one. *)
Fixpoint range_loop (fuel : nat) (plo phi : Bound string) (lo hi : Bound K) (cursor : nat)
    (l : list (CompositeKey K * V)) : list (CompositeKey K * V) :=
  match fuel, l !! cursor with
  | S fuel, Some row =>
      let p := prefix row.1 in
      if negb (in_bounds plo phi p) then [] else
      let next := find_smallest_index_of_next_prefix p l in
      slice (start_index lo p cursor l) (end_index hi p next l) l ++ range_loop fuel plo phi lo hi next l
  | _, _ => []
  end.

Definition block_get_range (plo phi : Bound string) (lo hi : Bound K) (b : Block) : list (CompositeKey K * V) :=
  let cursor := match plo with
                | Included p => find_smallest_index_of_prefix p (rows b)
                | Excluded p => find_smallest_index_of_next_prefix p (rows b)
                | Unbounded => 0%nat
                end in
  match lo, hi with
  | Unbounded, Unbounded =>
      let final := match phi with
                   | Included p => find_smallest_index_of_next_prefix p (rows b)
                   | Excluded p => find_smallest_index_of_prefix p (rows b)
                   | Unbounded => block_len b
                   end in
      slice cursor final (rows b)
  | _, _ => range_loop (block_len b) plo phi lo hi cursor (rows b)
  end.

(** ** Blocks and deltas *)

(** [to_block_delta]. *)
Definition to_block_delta (b : Block) (d : BlockDelta K V) : BlockDelta K V :=
  foldl (fun d row => delta_add row.1 row.2 d) d (rows b).

(** [UnorderedBlockDelta::fork_block]. *)
Definition fork_block (new_id : Uuid) (old : Block) : BlockDelta K V :=
  to_block_delta old (mkDelta SingleColumnStorage_new new_id).

(** [finish] and [from_record_batch]. *)
Definition finish (d : BlockDelta K V) : Block := mkBlock (storage (builder d)) (delta_id d).
End Blocks.
Arguments Block K V : clear implicits.
