(* ===== verification/Blockfile.v ===== *)
(** * Blockfiles

    [rust/blockstore/src/arrow/blockfile.rs] with [flusher.rs] and
    [migrations.rs]: the writer, which keeps the blocks it changes as deltas
    and splits those that become too large, and the reader.

    [BlockManager] is what a blockfile needs of the manager of blocks.  An
    operation passes the writer and the world of the manager along; a panic is
    the error [Panic].  Operations of one writer run one at a time, so the
    target block that is looked up again under its lock is the one that was
    found before. *)

From S2P Require Import Prelude Setsum Storage Types BTree BlockKey SparseIndex BlockDelta Block.

#[local] Open Scope Z_scope.

(** ** The manager of blocks *)

Inductive GetError :=
| BlockLoadError
| StorageGetError (e : StorageError).

Class BlockManager (K V : Type) := {
  blocks_world : Type;
  (** [BlockManager::get]. *)
  get_block : string -> Uuid -> blocks_world -> result (option (Block K V)) GetError * blocks_world;
  (** [BlockManager::cached]. *)
  is_cached : Uuid -> blocks_world -> bool * blocks_world;
}.

(** A block does not change: what is read under an id is its block.  A block
    that is not there is an error of the storage. *)
Class BlockManagerLaws {K V} (BM : BlockManager K V) (path : string) (stored : Uuid -> option (Block K V)) : Prop := {
  get_block_law : forall id w r w', get_block path id w = (Ok (Some r), w') -> stored id = Some r;
  stored_block_id : forall id r, stored id = Some r -> block_id r = id;
  get_block_found : forall id w w', get_block path id w <> (Ok None, w');
}.

(** ** Roots *)

Inductive Version := V1 | V1_1 | V1_2.
Definition CURRENT_VERSION : Version := V1_2.

#[global] Instance Version_eq_dec : EqDecision Version.
Proof. solve_decision. Defined.

Definition version_number (v : Version) : Z := match v with V1 => 1 | V1_1 => 2 | V1_2 => 3 end.

Inductive BlockfileError :=
| BlockNotFound
| BlockFetchError (e : GetError)
| ForkBlockNotFound
| AddError_ (e : AddError)
| SetCountError_ (e : SetCountError)
| MigrationBlockNotFound
| MigrationBlockFetchError
| Panic.

Section Root.
Context {K : Type}.

Record RootWriter := mkRootWriter {
  sparse_index : SparseIndexWriterData K;
  root_id : Uuid;
  root_version : Version;
  prefix_path : string;
  max_block_size_bytes : Z;
}.

Definition set_index (i : SparseIndexWriterData K) (r : RootWriter) : RootWriter :=
  mkRootWriter i (root_id r) (root_version r) (prefix_path r) (max_block_size_bytes r).

Record RootReader := mkRootReader {
  reader_index : SparseIndexReader K;
  reader_id : Uuid;
  reader_version : Version;
  reader_prefix_path : string;
  reader_max_block_size_bytes : Z;
}.
End Root.
Arguments RootWriter K : clear implicits.
Arguments RootReader K : clear implicits.

(** ** The writer *)

Section Writer.
Context {K V : Type} {KK : Key K} {VV : Value V} {BM : BlockManager K V}.
(** The UUIDs that are drawn. *)
Variable new_v4 : nat -> Uuid.

(** [next_uuid] counts the UUIDs drawn so far. *)
Record BlockfileWriter := mkWriter {
  block_deltas : gmap Uuid (SingleColumnStorage K V);
  root : RootWriter K;
  next_uuid : nat;
}.

Definition index (w : BlockfileWriter) : SparseIndexWriterData K := sparse_index (root w).

(** [ArrowUnorderedBlockfileWriter::new]. *)
Definition Blockfile_new (id : Uuid) (path : string) (max_size : Z) (next : nat) : BlockfileWriter :=
  mkWriter {[ new_v4 next := SingleColumnStorage_new ]}
    (mkRootWriter (SparseIndexWriter_new (new_v4 next)) id CURRENT_VERSION path max_size) (S next).

Definition from_root (new_root : RootWriter K) (next : nat) : BlockfileWriter := mkWriter ∅ new_root next.

(** An operation of the writer. *)
Definition Writing (A : Type) : Type :=
  BlockfileWriter -> blocks_world -> result A BlockfileError * BlockfileWriter * blocks_world.

Definition insert_deltas (l : list (CompositeKey K * BlockDelta K V)) (m : gmap Uuid (SingleColumnStorage K V)) :
    gmap Uuid (SingleColumnStorage K V) :=
  foldl (fun m x => <[delta_id x.2 := builder x.2]> m) m l.

(** The blocks of [block_manager.get] and [block_manager.fork], which gets the
    block once more. *)
Definition fork_target (target : Uuid) : Writing (BlockDelta K V) := fun w s =>
  let path := prefix_path (root w) in
  match get_block path target s with
  | (Ok (Some block), s) =>
      match get_block path (block_id block) s with
      | (Ok (Some block), s) =>
          (Ok (fork_block (new_v4 (next_uuid w)) block), mkWriter (block_deltas w) (root w) (S (next_uuid w)), s)
      | (Ok None, s) => (Err ForkBlockNotFound, w, s)
      | (Err e, s) => (Err (BlockFetchError e), w, s)
      end
  | (Ok None, s) => (Err BlockNotFound, w, s)
  | (Err e, s) => (Err (BlockFetchError e), w, s)
  end.

(** Makes the blocks of a split visible: first the deltas, then the index. *)
Definition publish_split (replace : list (Uuid * Uuid)) (self : BlockDelta K V)
    (new_blocks : list (CompositeKey K * BlockDelta K V)) (next : nat) (w : BlockfileWriter) :
    result unit BlockfileError * BlockfileWriter :=
  let deltas := <[delta_id self := builder self]> (insert_deltas new_blocks (block_deltas w)) in
  match apply_updates replace ((fun x => (x.1, delta_id x.2)) <$> new_blocks) (index w) with
  | None => (Err Panic, mkWriter deltas (root w) next)
  | Some (Ok _, i) => (Ok tt, mkWriter deltas (set_index i (root w)) next)
  | Some (Err e, i) => (Err (AddError_ e), mkWriter deltas (set_index i (root w)) next)
  end.

Definition set (p : string) (k : K) (v : V) : Writing unit := fun w s =>
  let search_key := mkCompositeKey p k in
  match get_target_block_id search_key (index w) with
  | None => (Err Panic, w, s)
  | Some target =>
      match block_deltas w !! target with
      | Some storage =>
          let delta := delta_add search_key v (mkDelta storage target) in
          if max_block_size_bytes (root w) <? delta_size delta then
            match delta_split new_v4 (max_block_size_bytes (root w)) (next_uuid w) delta with
            | None => (Err Panic, mkWriter (<[target := builder delta]> (block_deltas w)) (root w) (next_uuid w), s)
            | Some (self, new_blocks, next) => (publish_split [] self new_blocks next w, s)
            end
          else (Ok tt, mkWriter (<[target := builder delta]> (block_deltas w)) (root w) (next_uuid w), s)
      | None =>
          match fork_target target w s with
          | (Err e, w, s) => (Err e, w, s)
          | (Ok new_delta, w, s) =>
              let delta := delta_add search_key v new_delta in
              if max_block_size_bytes (root w) <? delta_size delta then
                match delta_split new_v4 (max_block_size_bytes (root w)) (next_uuid w) delta with
                | None => (Err Panic, w, s)
                | Some (self, new_blocks, next) => (publish_split [(target, delta_id delta)] self new_blocks next w, s)
                end
              else
                let deltas := <[delta_id delta := builder delta]> (block_deltas w) in
                match replace_block target (delta_id delta) (index w) with
                | None => (Err Panic, mkWriter deltas (root w) (next_uuid w), s)
                | Some i => (Ok tt, mkWriter deltas (set_index i (root w)) (next_uuid w), s)
                end
          end
      end
  end.

(** Forks the target and makes the delta visible, after [f] was done to it. *)
Definition with_fork (target : Uuid) (f : BlockDelta K V -> BlockDelta K V) : Writing (BlockDelta K V) := fun w s =>
  match fork_target target w s with
  | (Err e, w, s) => (Err e, w, s)
  | (Ok new_delta, w, s) =>
      let delta := f new_delta in
      let deltas := <[delta_id delta := builder delta]> (block_deltas w) in
      match replace_block target (delta_id delta) (index w) with
      | None => (Err Panic, mkWriter deltas (root w) (next_uuid w), s)
      | Some i => (Ok delta, mkWriter deltas (set_index i (root w)) (next_uuid w), s)
      end
  end.

Definition get_owned (p : string) (k : K) : Writing (option V) := fun w s =>
  let search_key := mkCompositeKey p k in
  match get_target_block_id search_key (index w) with
  | None => (Err Panic, w, s)
  | Some target =>
      match block_deltas w !! target with
      | Some storage => (Ok (get_owned_value search_key storage), w, s)
      | None =>
          match with_fork target id w s with
          | (Err e, w, s) => (Err e, w, s)
          | (Ok delta, w, s) => (Ok (get_owned_value search_key (builder delta)), w, s)
          end
      end
  end.

Definition delete_key (p : string) (k : K) : Writing unit := fun w s =>
  let search_key := mkCompositeKey p k in
  match get_target_block_id search_key (index w) with
  | None => (Err Panic, w, s)
  | Some target =>
      match block_deltas w !! target with
      | Some storage =>
          (Ok tt, mkWriter (<[target := storage_delete search_key storage]> (block_deltas w)) (root w) (next_uuid w), s)
      | None =>
          match with_fork target (delta_delete search_key) w s with
          | (Err e, w, s) => (Err e, w, s)
          | (Ok _, w, s) => (Ok tt, w, s)
          end
      end
  end.

(** ** Commit *)

(** What is done with one delta: it is kept, or removed when it is empty. *)
Definition commit_delta (i : SparseIndexWriterData K) (d : BlockDelta K V) :
    result (bool * SparseIndexWriterData K) BlockfileError :=
  let '(removed, i) := if bool_decide (delta_len d = 0%nat) then remove_block (delta_id d) i else (false, i) in
  if removed : bool then Ok (true, i) else
  match set_count (delta_id d) (Z.of_nat (delta_len d) mod 2 ^ 32) i with
  | (Ok _, i) => Ok (false, i)
  | (Err e, _) => Err (SetCountError_ e)
  end.

(** The first loop of [commit], in the order in which the map gives the deltas. *)
Fixpoint commit_deltas (l : list (BlockDelta K V)) (i : SparseIndexWriterData K) :
    result (list (BlockDelta K V) * SparseIndexWriterData K) BlockfileError :=
  match l with
  | [] => Ok ([], i)
  | d :: l =>
      match commit_delta i d with
      | Err e => Err e
      | Ok (removed, i) =>
          match commit_deltas l i with
          | Err e => Err e
          | Ok (kept, i) => Ok (if removed : bool then kept else d :: kept, i)
          end
      end
  end.

(** The loop of [migrate_v1_to_v1_1] over the blocks without a count. *)
Fixpoint count_blocks (path : string) (ids : list Uuid) (i : SparseIndexWriterData K) (s : blocks_world) :
    result (SparseIndexWriterData K) BlockfileError * blocks_world :=
  match ids with
  | [] => (Ok i, s)
  | id :: ids =>
      match get_block path id s with
      | (Ok (Some block), s) =>
          match set_count id (Z.of_nat (block_len block) mod 2 ^ 32) i with
          | (Ok _, i) => count_blocks path ids i s
          | (Err e, _) => (Err (SetCountError_ e), s)
          end
      | (Ok None, s) => (Err MigrationBlockNotFound, s)
      | (Err _, s) => (Err MigrationBlockFetchError, s)
      end
  end.

Definition apply_migrations (new_block_ids : gset Uuid) (r : RootWriter K) (s : blocks_world) :
    result (RootWriter K) BlockfileError * blocks_world :=
  match root_version r with
  | V1 =>
      let ids := List.filter (fun id => negb (bool_decide (id ∈ new_block_ids))) ((forward (sparse_index r)).*2) in
      match count_blocks (prefix_path r) ids (sparse_index r) s with
      | (Ok i, s) => (Ok (mkRootWriter i (root_id r) V1_2 (prefix_path r) (max_block_size_bytes r)), s)
      | (Err e, s) => (Err e, s)
      end
  | V1_1 | V1_2 => (Ok (mkRootWriter (sparse_index r) (root_id r) V1_2 (prefix_path r) (max_block_size_bytes r)), s)
  end.

(** [ArrowBlockfileFlusher]. *)
Record Flusher := mkFlusher {
  flush_blocks : list (Block K V);
  flush_root : RootWriter K;
  flush_count : Z;
}.

(** [order] is the order in which the map of deltas is drained. *)
Definition commit (order : list Uuid) (w : BlockfileWriter) (s : blocks_world) : result Flusher BlockfileError * blocks_world :=
  let deltas := omap (fun id => (fun st => mkDelta st id) <$> block_deltas w !! id) order in
  match commit_deltas deltas (index w) with
  | Err e => (Err e, s)
  | Ok (kept, i) =>
      match apply_migrations (list_to_set (delta_id <$> deltas)) (set_index i (root w)) s with
      | (Err e, s) => (Err e, s)
      | (Ok r, s) =>
          (Ok (mkFlusher (finish <$> kept) r (foldr (fun x acc => x.2 + acc) 0 (counts (sparse_index r)))), s)
      end
  end.

Definition num_entries (f : Flusher) : nat := foldl (fun acc b => acc + block_len b)%nat 0%nat (flush_blocks f).
End Writer.
Arguments BlockfileWriter K V : clear implicits.
Arguments Flusher K V : clear implicits.

(** ** The reader *)

Section Reader.
Context {K V : Type} {KK : Key K} {BM : BlockManager K V}.

(** [ArrowBlockfileReader]; [loaded_blocks] changes as blocks are read. *)
Record BlockfileReader := mkReader {
  read_root : RootReader K;
  loaded_blocks : gmap Uuid (Block K V);
}.

Definition Reader_new (r : RootReader K) : BlockfileReader := mkReader r ∅.

Definition Reading (A : Type) : Type := BlockfileReader -> blocks_world -> result A BlockfileError * BlockfileReader * blocks_world.

Definition r_ret {A} (a : A) : Reading A := fun r s => (Ok a, r, s).
Definition r_fail {A} (e : BlockfileError) : Reading A := fun r s => (Err e, r, s).
Definition r_bind {A B} (c : Reading A) (f : A -> Reading B) : Reading B := fun r s =>
  match c r s with
  | (Ok a, r, s) => f a r s
  | (Err e, r, s) => (Err e, r, s)
  end.

(** [ArrowBlockfileReader::get_block]: [None] is a block that is not there. *)
Definition reader_get_block (id : Uuid) : Reading (option (Block K V)) := fun r s =>
  match loaded_blocks r !! id with
  | Some b => (Ok (Some b), r, s)
  | None =>
      match get_block (reader_prefix_path (read_root r)) id s with
      | (Ok (Some b), s) => (Ok (Some b), mkReader (read_root r) (<[id := b]> (loaded_blocks r)), s)
      | (Ok None, s) => (Ok None, r, s)
      | (Err e, s) => (Err (BlockFetchError e), r, s)
      end
  end.

(** [get_block] where a missing block is an error. *)
Definition require_block (id : Uuid) : Reading (Block K V) :=
  r_bind (reader_get_block id) (fun b => match b with Some b => r_ret b | None => r_fail BlockNotFound end).

Fixpoint require_blocks (ids : list Uuid) : Reading (list (Block K V)) :=
  match ids with
  | [] => r_ret []
  | id :: ids => r_bind (require_block id) (fun b => r_bind (require_blocks ids) (fun bs => r_ret (b :: bs)))
  end.

(** [load_blocks]: results, also errors, are dropped. *)
Fixpoint load_blocks (ids : list Uuid) (r : BlockfileReader) (s : blocks_world) : BlockfileReader * blocks_world :=
  match ids with
  | [] => (r, s)
  | id :: ids =>
      let '(hit, s) := is_cached id s in
      if negb hit && negb (bool_decide (is_Some (loaded_blocks r !! id))) then
        let '(_, r, s) := reader_get_block id r s in load_blocks ids r s
      else load_blocks ids r s
  end.

Definition prefetch (ids : list Uuid) : Reading unit := fun r s => let '(r, s) := load_blocks ids r s in (Ok tt, r, s).

Definition load_blocks_for_keys (keys : list (CompositeKey K)) : Reading unit := fun r s =>
  prefetch (get_all_target_block_ids keys (reader_index (read_root r))) r s.

Definition load_blocks_for_prefixes (prefixes : list string) : Reading unit := fun r s =>
  prefetch (get_block_ids_for_prefixes prefixes (reader_index (read_root r))) r s.

(** [get_target_block_id], which panics on an empty index. *)
Definition target_block (k : CompositeKey K) : Reading Uuid := fun r s =>
  match reader_target_block_id k (reader_index (read_root r)) with
  | Some id => (Ok id, r, s)
  | None => (Err Panic, r, s)
  end.

Definition reader_get (p : string) (k : K) : Reading (option V) :=
  r_bind (target_block (mkCompositeKey p k)) (fun id =>
  r_bind (reader_get_block id) (fun b =>
  r_ret (match b with Some b => block_get p k b | None => None end))).

Definition reader_contains (p : string) (k : K) : Reading bool :=
  r_bind (target_block (mkCompositeKey p k)) (fun id =>
  r_bind (reader_get_block id) (fun b =>
  r_ret (match b with
         | Some b => bool_decide (is_Some (block_get p k b))
         | None => false
         end))).

Definition reader_get_prefix (p : string) : Reading (list (K * V)) := fun r s =>
  r_bind (require_blocks (get_block_ids_range (Included p) (Included p) (reader_index (read_root r))))
    (fun bs => r_ret (concat (block_get_prefix p <$> bs))) r s.

Definition reader_get_range (plo phi : Bound string) (lo hi : Bound K) : Reading (list (CompositeKey K * V)) := fun r s =>
  r_bind (require_blocks (get_block_ids_range plo phi (reader_index (read_root r))))
    (fun bs => r_ret (concat (block_get_range plo phi lo hi <$> bs))) r s.

(** [sum::<u32>], which wraps in the release profile. *)
Definition sum_u32 (l : list Z) : Z := foldl (fun acc x => (acc + x) mod 2 ^ 32) 0 l.

Definition reader_count : Reading Z := fun r s =>
  if version_number V1_1 <=? version_number (reader_version (read_root r)) then
    (Ok (sum_u32 ((fun x => siv_count x.2) <$> reader_index (read_root r))), r, s)
  else
    let ids := (fun x => siv_id x.2) <$> reader_index (read_root r) in
    r_bind (prefetch ids) (fun _ =>
    r_bind (require_blocks ids) (fun bs =>
    r_ret (foldr (fun b acc => Z.of_nat (block_len b) + acc) 0 bs))) r s.

Fixpoint take_while {A} (p : A -> bool) (l : list A) : list A :=
  match l with
  | [] => []
  | x :: l => if p x then x :: take_while p l else []
  end.

(** The ranks of older versions: [take(block_ids.len() - 1)], where the
    difference wraps around when there are no blocks. *)
Definition all_but_last {A} (l : list A) : list A := take (length l - 1) l.

Definition reader_rank (p : string) (k : K) : Reading Z := fun r s =>
  r_bind (target_block (mkCompositeKey p k)) (fun last_id =>
    let idx := reader_index (read_root r) in
    let ids := take_while (fun id => negb (id =? last_id)) (get_block_ids_range Unbounded (Included p) idx) in
    r_bind (if version_number V1_1 <=? version_number (reader_version (read_root r)) then
              r_ret (sum_u32 ((fun x => siv_count x.2) <$> take (length ids) idx))
            else
              r_bind (prefetch ids) (fun _ =>
              r_bind (require_blocks (all_but_last ids)) (fun bs =>
              r_ret (foldr (fun b acc => Z.of_nat (block_len b) + acc) 0 bs))))
      (fun rank =>
    r_bind (require_block last_id) (fun b =>
    r_ret (rank + Z.of_nat (binary_search_prefix_key p k (rows b)))))) r s.
End Reader.
Arguments BlockfileReader K V : clear implicits.
