(* ===== verification/Root.v ===== *)
(** * Roots of blockfiles

    [rust/blockstore/src/arrow/root.rs]: the sparse index of a blockfile and its
    metadata as an Arrow record batch.  A record batch is its columns; the bytes
    of a batch are those of Arrow's file format. *)

From Stdlib Require Import Ascii DecimalString.
From S2P Require Import Prelude Setsum Storage Types BTree BlockKey SparseIndex BlockDelta Block Blockfile.

#[local] Open Scope Z_scope.

(** ** Numbers and versions as text *)

(** [usize::to_string] and [str::parse::<usize>]. *)
Definition usize_to_string (n : Z) : string := NilZero.string_of_uint (N.to_uint (Z.to_N n)).

Definition usize_digits (s : string) : option Z :=
  d ← NilZero.uint_of_string s;
  let n := Z.of_N (N.of_uint d) in
  if n <? 2 ^ 64 then Some n else None.

Definition usize_from_str (s : string) : option Z :=
  match s with
  | String "+"%char rest => usize_digits rest
  | _ => usize_digits s
  end.

Definition version_to_string (v : Version) : string :=
  match v with V1 => "v1" | V1_1 => "v1.1" | V1_2 => "v1.2" end.

Definition version_from_str (s : string) : option Version :=
  if String.eqb s "v1" then Some V1
  else if String.eqb s "v1.1" then Some V1_1
  else if String.eqb s "v1.2" then Some V1_2
  else None.

(** ** Record batches *)

(** Ids are text in the first version, and their sixteen bytes later. *)
Inductive IdColumn :=
| Utf8 (ids : list string)
| Binary (ids : list Uuid).

Definition id_column_len (c : IdColumn) : nat := match c with Utf8 l => length l | Binary l => length l end.

Record RootBatch (K : Type) := mkRootBatch {
  prefix_column : list string;
  key_column : list K;
  id_column : IdColumn;
  count_column : option (list Z);
  metadata : gmap string string;
}.
Arguments mkRootBatch {K}.
Arguments prefix_column {K}.
Arguments key_column {K}.
Arguments id_column {K}.
Arguments count_column {K}.
Arguments metadata {K}.

Inductive ToBytesError := ToBytesArrowError.

Inductive FromBytesError :=
| UuidParseError
| MissingMetadata (name : string)
| NoDataError
| IdMismatch
| VersionError (s : string)
| MaxBlockSizeBytesParseError
| FromBytesPanic.

Section Root.
Context {UU : Uuids} {K : Type} {KK : Key K}.

(** ** Writing *)

(** [RecordBatch::try_new]: the columns of a batch have one length. *)
Definition try_new (b : RootBatch K) : result (RootBatch K) ToBytesError :=
  let n := length (prefix_column b) in
  if (length (key_column b) =? n)%nat && (id_column_len (id_column b) =? n)%nat &&
     match count_column b with Some c => (length c =? n)%nat | None => true end
  then Ok b else Err ToBytesArrowError.

Definition delimiter_prefix (d : SparseIndexDelimiter K) : string :=
  match d with Start => "START" | DelimiterKey k => prefix k end.

Definition delimiter_key (d : SparseIndexDelimiter K) : K :=
  match d with Start => key_default | DelimiterKey k => key k end.

Definition ids_as_arrow (r : RootWriter K) : IdColumn :=
  match root_version r with
  | V1 => Utf8 (uuid_to_string <$> (forward (sparse_index r)).*2)
  | _ => Binary (forward (sparse_index r)).*2
  end.

(** [RootWriter::to_bytes], up to the file format. *)
Definition root_to_batch (r : RootWriter K) : result (RootBatch K) ToBytesError :=
  let meta := {[ "version" := version_to_string (root_version r); "id" := uuid_to_string (root_id r) ]} in
  try_new (mkRootBatch
    (delimiter_prefix <$> (forward (sparse_index r)).*1)
    (delimiter_key <$> (forward (sparse_index r)).*1)
    (ids_as_arrow r)
    (if version_number V1_1 <=? version_number (root_version r) then Some (counts (sparse_index r)).*2 else None)
    (if version_number V1_2 <=? version_number (root_version r)
     then <[ "max_block_size_bytes" := usize_to_string (max_block_size_bytes r) ]> meta else meta)).

(** ** Reading *)

Definition version_and_id (b : RootBatch K) (default_id : Uuid) : result (Version * Uuid) FromBytesError :=
  match metadata b !! "version", metadata b !! "id" with
  | Some version, Some read_id =>
      match version_from_str version with
      | None => Err (VersionError version)
      | Some v => match uuid_from_str read_id with
                  | Some u => Ok (v, u)
                  | None => Err UuidParseError
                  end
      end
  | Some _, None => Err (MissingMetadata "id")
  | None, Some _ => Err (MissingMetadata "version")
  | None, None => Ok (V1, default_id)
  end.

Definition block_size_bytes (b : RootBatch K) (v : Version) (default_max : Z) : result Z FromBytesError :=
  match metadata b !! "max_block_size_bytes" with
  | Some size => match usize_from_str size with Some n => Ok n | None => Err MaxBlockSizeBytesParseError end
  | None => if version_number v <=? version_number V1_1 then Ok default_max else Err (MissingMetadata "max_block_size_bytes")
  end.

(** A column of another type, or an id that is none, is a panic. *)
Definition block_ids (b : RootBatch K) (v : Version) : result (list Uuid) FromBytesError :=
  match v, id_column b with
  | V1, Utf8 l => match mapM uuid_from_str l with Some ids => Ok ids | None => Err FromBytesPanic end
  | V1_1, Binary l | V1_2, Binary l => Ok l
  | _, _ => Err FromBytesPanic
  end.

(** The loop of [from_bytes]; the columns of a batch have one length. *)
Fixpoint read_entries (prefixes : list string) (keys : list K) (ids : list Uuid) (cs : list Z) (fwd : SparseIndexReader K) :
    SparseIndexReader K :=
  match prefixes, keys, ids, cs with
  | p :: prefixes, k :: keys, id :: ids, c :: cs =>
      let d := if String.eqb p "START" then Start else DelimiterKey (mkCompositeKey p k) in
      read_entries prefixes keys ids cs (bt_insert d (mkSparseIndexValue id c) fwd)
  | _, _, _, _ => fwd
  end.

(** [RootReader::from_bytes], from the batch on. *)
Definition root_from_batch (b : RootBatch K) (path : string) (id : Uuid) (default_max : Z) : result (RootReader K) FromBytesError :=
  match version_and_id b id with
  | Err e => Err e
  | Ok (version, read_id) =>
      match block_size_bytes b version default_max with
      | Err e => Err e
      | Ok max =>
          if negb (read_id =? id) then Err IdMismatch else
          match (if version_number V1_1 <=? version_number version then count_column b else Some (replicate (length (prefix_column b)) 0)) with
          | None => Err FromBytesPanic
          | Some cs =>
              match block_ids b version with
              | Err e => Err e
              | Ok ids => Ok (mkRootReader (read_entries (prefix_column b) (key_column b) ids cs []) id version path max)
              end
          end
      end
  end.

(** [RootReader::get_all_block_ids_from_bytes]. *)
Definition get_all_block_ids (b : RootBatch K) (id : Uuid) : result (list Uuid) FromBytesError :=
  match version_and_id b id with
  | Err e => Err e
  | Ok (version, read_id) => if negb (read_id =? id) then Err IdMismatch else block_ids b version
  end.

(** [RootReader::fork]. *)
Definition root_fork (new_id : Uuid) (r : RootReader K) : RootWriter K :=
  mkRootWriter (fork_index (reader_index r)) new_id (reader_version r) (reader_prefix_path r) (reader_max_block_size_bytes r).
End Root.
