(* ===== verification/BlockfileApi.v ===== *)
(** * What segments need of blockfiles

    [rust/blockstore/src/types/writer.rs], [reader.rs] and [flusher.rs]: the
    operations of [BlockfileWriter], [BlockfileReader] and [BlockfileFlusher],
    which the segments call whatever the variant is, and what they promise, as
    an ordered map of the rows.  A call passes the writer or the reader along
    with what belongs to it.  The section at the end is the map itself, which
    keeps these laws; that the Arrow variants keep them is shown in [ArrowApi]. *)

From S2P Require Import Prelude BTree BlockKey SparseIndex BlockDelta Block Blockfile.

#[local] Open Scope Z_scope.

(** ** Effects

    A computation that may fail and changes a state. *)

Definition ST (S E A : Type) : Type := S -> result A E * S.

Section ST.
Context {S E : Type}.

Definition st_ret {A} (a : A) : ST S E A := fun s => (Ok a, s).
Definition st_fail {A} (e : E) : ST S E A := fun s => (Err e, s).
Definition st_bind {A B} (c : ST S E A) (f : A -> ST S E B) : ST S E B := fun s =>
  match c s with
  | (Ok a, s) => f a s
  | (Err e, s) => (Err e, s)
  end.
Definition st_get : ST S E S := fun s => (Ok s, s).
Definition st_put (s' : S) : ST S E unit := fun _ => (Ok tt, s').

(** [Result::map_err]. *)
Definition st_map_err {A F} (f : E -> F) (c : ST S E A) : ST S F A := fun s =>
  let '(r, s) := c s in (map_err f r, s).

(** A computation on a part of the state. *)
Definition st_zoom {T A} (get : S -> T) (set : T -> S -> S) (c : ST T E A) : ST S E A := fun s =>
  let '(r, t) := c (get s) in (r, set t s).
End ST.

Notation "'let*' x ':=' c 'in' k" := (st_bind c (fun x => k))
  (at level 10, x pattern, c at level 100, k at level 200,
   format "'[v' 'let*'  x  ':='  c  'in' '/' k ']'") : wal_scope.

(** ** Writers *)

Class WriterApi (K V W : Type) := {
  api_set : string -> K -> V -> ST W BlockfileError unit;
  api_delete : string -> K -> ST W BlockfileError unit;
}.

(** [rows] are the rows of a writer that is [ok]; an entry that does not [fit]
    is larger than a block may be.  A call that fails changes nothing. *)
Class WriterLaws {K V W} {KK : Key K} (WA : WriterApi K V W)
    (ok : W -> Prop) (rows : W -> btree (CompositeKey K) V) (fit : string -> K -> V -> Prop) : Prop := {
  rows_sorted : forall w, ok w -> bt_sorted (rows w);
  api_set_law : forall p k v w, ok w -> fit p k v ->
    match api_set p k v w with
    | (Ok _, w') => ok w' /\ rows w' = bt_insert (mkCompositeKey p k) v (rows w)
    | (Err _, w') => ok w' /\ rows w' = rows w
    end;
  api_delete_law : forall p k w, ok w ->
    match api_delete p k w with
    | (Ok _, w') => ok w' /\ rows w' = bt_remove (mkCompositeKey p k) (rows w)
    | (Err _, w') => ok w' /\ rows w' = rows w
    end;
}.

(** [commit], which consumes the writer; the flusher counts the entries. *)
Class CommitApi (W F : Type) := {
  api_commit : W -> result F BlockfileError;
  api_flush_count : F -> Z;
}.

(** [flushed_rows] are the rows that a reader of the flushed blockfile has. *)
Class CommitLaws {K V W F} (CA : CommitApi W F)
    (ok : W -> Prop) (rows : W -> btree (CompositeKey K) V) (flushed_rows : F -> btree (CompositeKey K) V) : Prop :=
  api_commit_law : forall w f, ok w -> api_commit w = Ok f -> flushed_rows f = rows w.

(** ** Readers *)

Class ReaderApi (K V R : Type) := {
  api_get : string -> K -> ST R BlockfileError (option V);
  api_contains : string -> K -> ST R BlockfileError bool;
  api_get_range : Bound string -> Bound string -> Bound K -> Bound K -> ST R BlockfileError (list (CompositeKey K * V));
  api_count : ST R BlockfileError Z;
  api_rank : string -> K -> ST R BlockfileError Z;
  api_load_blocks_for_keys : list (CompositeKey K) -> ST R BlockfileError unit;
}.

(** A read returns what the rows have, or fails; either way the reader reads
    the same rows as before. *)
Class ReaderLaws {K V R} {KK : Key K} (RA : ReaderApi K V R) (reads : R -> btree (CompositeKey K) V -> Prop) : Prop := {
  reads_sorted : forall r m, reads r m -> bt_sorted m;
  api_get_law : forall p k r m, reads r m ->
    match api_get p k r with
    | (Ok v, r') => v = bt_get (mkCompositeKey p k) m /\ reads r' m
    | (Err _, r') => reads r' m
    end;
  api_contains_law : forall p k r m, reads r m ->
    match api_contains p k r with
    | (Ok b, r') => b = bool_decide (is_Some (bt_get (mkCompositeKey p k) m)) /\ reads r' m
    | (Err _, r') => reads r' m
    end;
  api_get_range_law : forall plo phi lo hi r m, reads r m ->
    match api_get_range plo phi lo hi r with
    | (Ok l, r') => l = List.filter (fun x => in_bounds plo phi (prefix x.1) && in_bounds lo hi (key x.1)) m /\ reads r' m
    | (Err _, r') => reads r' m
    end;
  api_count_law : forall r m, reads r m -> Z.of_nat (length m) < 2 ^ 32 ->
    match api_count r with
    | (Ok n, r') => n = Z.of_nat (length m) /\ reads r' m
    | (Err _, r') => reads r' m
    end;
  api_rank_law : forall p k r m, reads r m -> Z.of_nat (length m) < 2 ^ 32 ->
    match api_rank p k r with
    | (Ok n, r') => n = Z.of_nat (length (List.filter (fun x => ltb x.1 (mkCompositeKey p k)) m)) /\ reads r' m
    | (Err _, r') => reads r' m
    end;
  api_load_law : forall keys r m, reads r m -> let '(_, r') := api_load_blocks_for_keys keys r in reads r' m;
}.

(** ** The map itself *)

Section BtreeBlockfile.
Context {K V : Type} {KK : Key K} {KL : KeyLaws K}.

#[global] Instance btree_writer : WriterApi K V (btree (CompositeKey K) V) := {|
  api_set p k v := fun m => (Ok tt, bt_insert (mkCompositeKey p k) v m);
  api_delete p k := fun m => (Ok tt, bt_remove (mkCompositeKey p k) m);
|}.

#[global] Instance btree_writer_laws : WriterLaws btree_writer bt_sorted id (fun _ _ _ => True).
Proof.
  constructor; cbn; [done| |].
  - intros p k v w Hw _. split; [by apply bt_insert_sorted|done].
  - intros p k w Hw. split; [by apply bt_remove_sorted|done].
Qed.

#[global] Instance btree_commit : CommitApi (btree (CompositeKey K) V) (btree (CompositeKey K) V) := {|
  api_commit m := Ok m;
  api_flush_count m := Z.of_nat (length m);
|}.

#[global] Instance btree_commit_laws : CommitLaws btree_commit bt_sorted id id.
Proof. intros m f _ [= <-]. done. Qed.

#[global] Instance btree_reader : ReaderApi K V (btree (CompositeKey K) V) := {|
  api_get p k := fun m => (Ok (bt_get (mkCompositeKey p k) m), m);
  api_contains p k := fun m => (Ok (bool_decide (is_Some (bt_get (mkCompositeKey p k) m))), m);
  api_get_range plo phi lo hi := fun m =>
    (Ok (List.filter (fun x => in_bounds plo phi (prefix x.1) && in_bounds lo hi (key x.1)) m), m);
  api_count := fun m => (Ok (Z.of_nat (length m)), m);
  api_rank p k := fun m => (Ok (Z.of_nat (length (List.filter (fun x => ltb x.1 (mkCompositeKey p k)) m))), m);
  api_load_blocks_for_keys _ := fun m => (Ok tt, m);
|}.

#[global] Instance btree_reader_laws : ReaderLaws btree_reader (fun r m => r = m /\ bt_sorted m).
Proof.
  constructor; cbn; [by intros r m [_ ?]|..].
  - by intros p k r m [-> ?].
  - by intros p k r m [-> ?].
  - by intros plo phi lo hi r m [-> ?].
  - by intros r m [-> ?].
  - by intros p k r m [-> ?].
  - by intros keys r m [-> ?].
Qed.
End BtreeBlockfile.
