(* ===== verification/Records.v ===== *)
(** * Records, metadata, chunks and segments

    The data of [rust/types/src] that compaction works on: [operation.rs],
    [metadata.rs], [record.rs], [data_record.rs], [data_chunk.rs] and
    [segment.rs], with [ChromaSegmentFlusher::flush_key] of
    [rust/segment/src/types.rs].

    A float is the [Z] of its bits; [HashMap<String, _>] is a [gmap], which is
    traversed in the order that [HashOrder] gives.  The [file_path] of a segment
    names its blockfiles. *)

From Stdlib Require Import Ascii.
From S2P Require Import Prelude Setsum Types.

#[local] Open Scope Z_scope.

(** ** Operations *)

Inductive Operation := Add | Update | Upsert | Delete.

#[global] Instance Operation_eq_dec : EqDecision Operation.
Proof. solve_decision. Defined.

Inductive MaterializedLogOperation := Initial | AddNew | OverwriteExisting | UpdateExisting | DeleteExisting.

#[global] Instance MaterializedLogOperation_eq_dec : EqDecision MaterializedLogOperation.
Proof. solve_decision. Defined.

(** ** Metadata *)

Record SparseVector := mkSparseVector { indices : list Z; values : list Z }.

#[global] Instance SparseVector_eq_dec : EqDecision SparseVector.
Proof. solve_decision. Defined.

Inductive MetadataValueConversionError :=
| InvalidValue
| SparseVectorLengthMismatch
| SparseVectorIndicesNotSorted.

(** The loop of [SparseVector::validate]. *)
Fixpoint strictly_ascending (l : list Z) : bool :=
  match l with
  | a :: (b :: _) as l' => if b <=? a then false else strictly_ascending l'
  | _ => true
  end.

Definition SparseVector_validate (v : SparseVector) : result unit MetadataValueConversionError :=
  if negb (Nat.eqb (length (indices v)) (length (values v))) then Err SparseVectorLengthMismatch
  else if strictly_ascending (indices v) then Ok tt else Err SparseVectorIndicesNotSorted.

Inductive UpdateMetadataValue :=
| UBool (b : bool)
| UInt (i : Z)
| UFloat (bits : Z)
| UStr (s : string)
| USparseVector (v : SparseVector)
| UNone.

Inductive MetadataValue :=
| MBool (b : bool)
| MInt (i : Z)
| MFloat (bits : Z)
| MStr (s : string)
| MSparseVector (v : SparseVector).

#[global] Instance UpdateMetadataValue_eq_dec : EqDecision UpdateMetadataValue.
Proof. solve_decision. Defined.
#[global] Instance MetadataValue_eq_dec : EqDecision MetadataValue.
Proof. solve_decision. Defined.

Definition MetadataValue_try_from (v : UpdateMetadataValue) : result MetadataValue MetadataValueConversionError :=
  match v with
  | UBool b => Ok (MBool b)
  | UInt i => Ok (MInt i)
  | UFloat f => Ok (MFloat f)
  | UStr s => Ok (MStr s)
  | USparseVector s => Ok (MSparseVector s)
  | UNone => Err InvalidValue
  end.

Abbreviation UpdateMetadata := (gmap string UpdateMetadataValue).
Abbreviation Metadata := (gmap string MetadataValue).
Abbreviation DeletedMetadata := (gset string).

(** The order in which a [HashMap] or a [HashSet] is traversed. *)
Class HashOrder := {
  hash_iter : forall {A}, gmap string A -> list (string * A);
  hash_iter_perm : forall A (m : gmap string A), hash_iter m ≡ₚ map_to_list m;
}.

Section Hash.
Context {HO : HashOrder}.

Definition hash_set_iter (X : gset string) : list string := (hash_iter (gset_to_gmap tt X)).*1.

Definition str_len (s : string) : Z := Z.of_nat (String.length s).

(** [size_of_val] of a slice of [n]-byte elements. *)
Definition size_of_slice {A} (n : Z) (l : list A) : Z := n * Z.of_nat (length l).

Definition size_of_value (v : MetadataValue) : Z :=
  match v with
  | MBool _ => 1
  | MInt _ => 8
  | MFloat _ => 8
  | MStr s => str_len s
  | MSparseVector v => size_of_slice 4 (indices v) + size_of_slice 4 (values v)
  end.

Definition logical_size_of_metadata (m : Metadata) : Z :=
  foldl (fun acc '(k, v) => acc + (str_len k + size_of_value v)) 0 (hash_iter m).

(** [MetadataDelta]. *)
Record MetadataDelta := mkMetadataDelta {
  metadata_to_update : gmap string (MetadataValue * MetadataValue);
  metadata_to_delete : gmap string MetadataValue;
  metadata_to_insert : gmap string MetadataValue;
}.

Definition MetadataDelta_new : MetadataDelta := mkMetadataDelta ∅ ∅ ∅.

(** ** Records *)

Inductive ScalarEncoding := FLOAT32 | INT32.

Record OperationRecord := mkOperationRecord {
  rec_id : string;
  rec_embedding : option (list Z);
  rec_encoding : option ScalarEncoding;
  rec_metadata : option UpdateMetadata;
  rec_document : option string;
  rec_operation : Operation;
}.

Record LogRecord := mkLogRecord { log_offset : Z; record : OperationRecord }.

Definition size_of_update_value (v : UpdateMetadataValue) : Z :=
  match v with
  | UBool _ => 1
  | UInt _ => 8
  | UFloat _ => 8
  | UStr s => str_len s
  | USparseVector v => size_of_slice 4 (indices v) + size_of_slice 4 (values v)
  | UNone => 0
  end.

Definition OperationRecord_size_bytes (r : OperationRecord) : Z :=
  str_len (rec_id r)
  + match rec_document r with Some d => str_len d | None => 0 end
  + match rec_embedding r with Some e => size_of_slice 4 e | None => 0 end
  + match rec_metadata r with
    | Some m => foldl (fun acc '(k, v) => acc + (str_len k + size_of_update_value v)) 0 (hash_iter m)
    | None => 0
    end.

Definition LogRecord_size_bytes (l : LogRecord) : Z := 8 + OperationRecord_size_bytes (record l).

(** [DataRecord]. *)
Record DataRecord := mkDataRecord {
  dr_id : string;
  dr_embedding : list Z;
  dr_metadata : option Metadata;
  dr_document : option string;
}.
End Hash.

(** ** Chunks *)

Section Chunk.
Context {A : Type}.

Record Chunk := mkChunk { chunk_data : list A; visibility : list bool }.

Definition Chunk_new (data : list A) : Chunk := mkChunk data (replicate (length data) true).
Definition total_len (c : Chunk) : nat := length (chunk_data c).
Definition chunk_len (c : Chunk) : nat := length (List.filter id (visibility c)).
Definition chunk_is_empty (c : Chunk) : bool := Nat.eqb (chunk_len c) 0.
Definition chunk_get (c : Chunk) (index : nat) : option A :=
  if Nat.ltb index (length (chunk_data c)) then chunk_data c !! index else None.
Definition get_visibility (c : Chunk) (index : nat) : option bool :=
  if Nat.ltb index (length (visibility c)) then visibility c !! index else None.
Definition set_visibility (v : list bool) (c : Chunk) : Chunk := mkChunk (chunk_data c) v.

(** [DataChunkIteraror::next] from [index]: the element and the index the
    iterator is left at.  [fuel] bounds the turns of the loop. *)
Fixpoint chunk_next (fuel : nat) (c : Chunk) (index : nat) : option (A * nat) * nat :=
  match fuel with
  | O => (None, index)
  | S fuel =>
      if Nat.ltb index (total_len c) then
        match get_visibility c index with
        | Some true => ((fun record => (record, index)) <$> chunk_get c index, S index)
        | Some false => chunk_next fuel c (S index)
        | None => (None, index)
        end
      else (None, index)
  end.

(** The elements that [iter] gives until it is exhausted. *)
Fixpoint chunk_collect (fuel : nat) (c : Chunk) (index : nat) : list (A * nat) :=
  match fuel with
  | O => []
  | S fuel =>
      match chunk_next (S (total_len c)) c index with
      | (Some x, index) => x :: chunk_collect fuel c index
      | (None, _) => []
      end
  end.

Definition chunk_iter (c : Chunk) : list (A * nat) := chunk_collect (S (total_len c)) c 0.
End Chunk.
Arguments Chunk A : clear implicits.

(** ** Lemmas *)

Section Iteration.
Context {A : Type}.

(** The visible elements from [index] on, with their indices. *)
Fixpoint visible_from (index : nat) (data : list A) (vis : list bool) : list (A * nat) :=
  match data, vis with
  | x :: data, v :: vis => (if v : bool then [(x, index)] else []) ++ visible_from (S index) data vis
  | _, _ => []
  end.

Lemma chunk_get_lookup (c : Chunk A) i : chunk_get c i = chunk_data c !! i.
Proof. unfold chunk_get. destruct (Nat.ltb_spec i (length (chunk_data c))); [done|]. by rewrite lookup_ge_None_2. Qed.

Lemma get_visibility_lookup (c : Chunk A) i : get_visibility c i = visibility c !! i.
Proof. unfold get_visibility. destruct (Nat.ltb_spec i (length (visibility c))); [done|]. by rewrite lookup_ge_None_2. Qed.

Lemma chunk_next_spec fuel (c : Chunk A) : forall index, (total_len c < fuel + index)%nat ->
  match chunk_next fuel c index with
  | (Some x, index') => (index < index' <= total_len c)%nat /\
      visible_from index (drop index (chunk_data c)) (drop index (visibility c)) =
        x :: visible_from index' (drop index' (chunk_data c)) (drop index' (visibility c))
  | (None, _) => visible_from index (drop index (chunk_data c)) (drop index (visibility c)) = []
  end.
Proof.
  unfold total_len. induction fuel as [|fuel IH]; intros index Hf; cbn [chunk_next].
  { rewrite drop_ge by lia. done. }
  unfold total_len. destruct (Nat.ltb_spec index (length (chunk_data c))) as [Hi|Hi]; [|by rewrite drop_ge by lia].
  rewrite get_visibility_lookup, chunk_get_lookup. destruct (lookup_lt_is_Some_2 (chunk_data c) index Hi) as [x Hx].
  rewrite (drop_S _ x index Hx). destruct (visibility c !! index) as [[|]|] eqn:Hv.
  - rewrite Hx. cbn. rewrite (drop_S _ true index Hv). split; [lia|done].
  - rewrite (drop_S _ false index Hv). cbn. specialize (IH (S index) ltac:(lia)).
    destruct (chunk_next fuel c (S index)) as [[y|] j]; [|done]. destruct IH as [? IH]. split; [lia|done].
  - rewrite (drop_ge (visibility c) index) by (by apply lookup_ge_None_1). done.
Qed.

Lemma chunk_collect_spec fuel (c : Chunk A) : forall index, (total_len c < fuel + index)%nat -> (index <= total_len c)%nat ->
  chunk_collect fuel c index = visible_from index (drop index (chunk_data c)) (drop index (visibility c)).
Proof.
  induction fuel as [|fuel IH]; intros index Hf Hi; [lia|]. cbn [chunk_collect].
  pose proof (chunk_next_spec (S (total_len c)) c index ltac:(lia)) as Hn.
  destruct (chunk_next _ c index) as [[x|] j]; [|done]. destruct Hn as [Hj ->]. by rewrite IH by lia.
Qed.

(** A chunk gives its visible elements, in order, with their indices. *)
Lemma chunk_iter_visible (c : Chunk A) : chunk_iter c = visible_from 0 (chunk_data c) (visibility c).
Proof. unfold chunk_iter. rewrite chunk_collect_spec by lia. by rewrite !drop_0. Qed.

Lemma visible_from_lookup data : forall vis i x j, (x, j) ∈ visible_from i data vis -> (i <= j)%nat /\ data !! (j - i)%nat = Some x /\ vis !! (j - i)%nat = Some true.
Proof.
  induction data as [|y data IH]; intros [|v vis] i x j; cbn; try by intros ?%elem_of_nil.
  rewrite elem_of_app. intros [Hx|Hx].
  - destruct v; [|by apply elem_of_nil in Hx]. apply list_elem_of_singleton in Hx as [= -> ->]. by rewrite Nat.sub_diag.
  - apply IH in Hx as (Hi & Hd & Hv). replace (j - i)%nat with (S (j - S i)) by lia. split; [lia|done].
Qed.

Lemma chunk_iter_get (c : Chunk A) x i : (x, i) ∈ chunk_iter c -> chunk_get c i = Some x.
Proof.
  rewrite chunk_iter_visible, chunk_get_lookup. intros (_ & H & _)%visible_from_lookup. by rewrite Nat.sub_0_r in H.
Qed.

Lemma visible_from_all data i : visible_from i data (replicate (length data) true) = zip data (seq i (length data)).
Proof. revert i. induction data as [|x data IH]; intros i; cbn; [done|]. by rewrite IH. Qed.

Lemma chunk_new_len (l : list A) : chunk_len (Chunk_new l) = length l.
Proof. unfold chunk_len, Chunk_new. cbn. rewrite filter_all; [by rewrite length_replicate|]. by apply Forall_replicate. Qed.
End Iteration.

Definition USER_ID_TO_OFFSET_ID : string := "user_id_to_offset_id".
Definition OFFSET_ID_TO_USER_ID : string := "offset_id_to_user_id".
Definition OFFSET_ID_TO_DATA : string := "offset_id_to_data".
Definition MAX_OFFSET_ID : string := "max_offset_id".

Inductive SegmentType :=
| BlockfileMetadata
| BlockfileRecord
| HnswDistributed
| HnswLocalMemory
| HnswLocalPersisted
| Sqlite
| Spann.

#[global] Instance SegmentType_eq_dec : EqDecision SegmentType.
Proof. solve_decision. Defined.

Definition SegmentType_to_string (t : SegmentType) : string :=
  match t with
  | BlockfileMetadata => "urn:chroma:segment/metadata/blockfile"
  | BlockfileRecord => "urn:chroma:segment/record/blockfile"
  | HnswDistributed => "urn:chroma:segment/vector/hnsw-distributed"
  | HnswLocalMemory => "urn:chroma:segment/vector/hnsw-local-memory"
  | HnswLocalPersisted => "urn:chroma:segment/vector/hnsw-local-persisted"
  | Spann => "urn:chroma:segment/vector/spann"
  | Sqlite => "urn:chroma:segment/metadata/sqlite"
  end.

Definition SegmentType_try_from (s : string) : option SegmentType :=
  if String.eqb s "urn:chroma:segment/metadata/blockfile" then Some BlockfileMetadata
  else if String.eqb s "urn:chroma:segment/record/blockfile" then Some BlockfileRecord
  else if String.eqb s "urn:chroma:segment/vector/hnsw-distributed" then Some HnswDistributed
  else if String.eqb s "urn:chroma:segment/vector/hnsw-local-memory" then Some HnswLocalMemory
  else if String.eqb s "urn:chroma:segment/vector/hnsw-local-persisted" then Some HnswLocalPersisted
  else if String.eqb s "urn:chroma:segment/vector/spann" then Some Spann
  else if String.eqb s "urn:chroma:segment/metadata/sqlite" then Some Sqlite
  else None.

Lemma SegmentType_roundtrip t : SegmentType_try_from (SegmentType_to_string t) = Some t.
Proof. by destruct t. Qed.

Record Segment := mkSegment {
  segment_id : Uuid;
  segment_type : SegmentType;
  segment_collection : Uuid;
  file_path : gmap string (list string);
}.

Definition prefetch_supported (s : Segment) : bool :=
  match segment_type s with BlockfileMetadata | BlockfileRecord | Spann => true | _ => false end.

Section Paths.
Context {UU : Uuids}.

(** What comes before and after the last [/], if there is one. *)
Fixpoint rsplit_slash (s : string) : option (string * string) :=
  match s with
  | EmptyString => None
  | String c s' =>
      match rsplit_slash s' with
      | Some (before, after) => Some (String c before, after)
      | None => if Ascii.eqb c "/" then Some (EmptyString, s') else None
      end
  end.

Definition extract_prefix_and_id (path : string) : option (string * Uuid) :=
  let '(prefix, id) := match rsplit_slash path with
                       | Some (before, after) => (before, after)
                       | None => (EmptyString, path)
                       end in
  match uuid_from_str id with
  | Some uid => Some (prefix, uid)
  | None => None
  end.

Definition construct_prefix_path (tenant : string) (database_id : Uuid) (s : Segment) : string :=
  "tenant/" +:+ tenant +:+ "/database/" +:+ uuid_to_string database_id +:+ "/collection/" +:+
  uuid_to_string (segment_collection s) +:+ "/segment/" +:+ uuid_to_string (segment_id s).

Definition flush_key (prefix_path : string) (id : Uuid) : string :=
  match prefix_path with
  | EmptyString => uuid_to_string id
  | _ => prefix_path +:+ "/" +:+ uuid_to_string id
  end.

(** ** Paths read back *)

Fixpoint no_slash (s : string) : bool :=
  match s with
  | EmptyString => true
  | String c s => negb (Ascii.eqb c "/") && no_slash s
  end.

Lemma rsplit_no_slash s : no_slash s = true -> rsplit_slash s = None.
Proof.
  induction s as [|c s IH]; cbn; [done|]. rewrite andb_true_iff, negb_true_iff. intros [Hc Hs]. by rewrite IH, Hc.
Qed.

Lemma rsplit_app p s : no_slash s = true -> rsplit_slash (p +:+ "/" +:+ s) = Some (p, s).
Proof.
  intros Hs. induction p as [|c p IH].
  - change (EmptyString +:+ "/" +:+ s) with (String "/" s). cbn [rsplit_slash]. by rewrite (rsplit_no_slash s Hs).
  - change (String c p +:+ "/" +:+ s) with (String c (p +:+ "/" +:+ s)). cbn [rsplit_slash]. by rewrite IH.
Qed.

(** The path of a flushed blockfile gives its prefix and its id back. *)
Lemma flush_key_roundtrip {UL : UuidLaws UU} prefix_path id :
  no_slash (uuid_to_string id) = true -> extract_prefix_and_id (flush_key prefix_path id) = Some (prefix_path, id).
Proof.
  intros Hid. unfold extract_prefix_and_id, flush_key. destruct prefix_path as [|c p].
  - by rewrite rsplit_no_slash, uuid_roundtrip.
  - by rewrite rsplit_app, uuid_roundtrip.
Qed.
End Paths.
