(* ===== verification/RecordSegment.v ===== *)
(** * The record segment and the materialization of logs

    [rust/segment/src/blockfile_record.rs] and [types.rs].  The record segment
    has three blockfiles, from user ids to offset ids, back, and from offset ids
    to the data, and the largest offset id, which has a blockfile of its own.
    Materialization turns the operations that a chunk of the log has for one
    record into one operation on the segments; the writer of the record segment
    applies them.

    [SegmentReaders] and [SegmentWriters] are the readers, writers and flushers
    of the blockfiles; opening one is the business of the provider.  A panic is
    an error: [MaterializerPanic], [ApplyPanic], or [None]. *)

From S2P Require Import Prelude Setsum Types BTree BlockKey SparseIndex BlockDelta Block Blockfile BlockfileApi Records.

#[local] Open Scope Z_scope.
#[local] Open Scope wal_scope.

(** The types of the blockfiles and their operations. *)
Class SegmentReaders := {
  offset_reader : Type;
  user_reader : Type;
  data_reader : Type;
  offset_api :: ReaderApi string u32 offset_reader;
  user_api :: ReaderApi u32 string user_reader;
  data_api :: ReaderApi u32 DataRecord data_reader;
}.

Class SegmentReadersLaws (SR : SegmentReaders) := {
  offset_reads : offset_reader -> btree (CompositeKey string) u32 -> Prop;
  user_reads : user_reader -> btree (CompositeKey u32) string -> Prop;
  data_reads : data_reader -> btree (CompositeKey u32) DataRecord -> Prop;
  offset_laws :: ReaderLaws offset_api offset_reads;
  user_laws :: ReaderLaws user_api user_reads;
  data_laws :: ReaderLaws data_api data_reads;
}.

Inductive OpenError := MissingIndex | OpenFailed.

(** [BlockfileProvider::read]: a prefix and an id give a reader. *)
Class ReadProvider (SR : SegmentReaders) := {
  read_offsets : string -> Uuid -> result offset_reader OpenError;
  read_users : string -> Uuid -> result user_reader OpenError;
  read_data : string -> Uuid -> result data_reader OpenError;
}.

Inductive RecordSegmentReaderCreationError :=
| UninitializedSegment
| BlockfileOpenError (e : OpenError)
| InvalidNumberOfFiles
| DataRecordNotFound (offset_id : Z)
| UserRecordNotFound (message : string)
| FilePathNotFound
| InvalidUuid (path : string)
| PrefixPathsMismatch.

(** [Box<dyn ChromaError>] of a read of the segment. *)
Inductive SegmentError :=
| BoxedBlockfileError (e : BlockfileError)
| BoxedCreationError (e : RecordSegmentReaderCreationError).

Section Reader.
Context {UU : Uuids} {SR : SegmentReaders}.

Record RecordSegmentReader := mkRecordReader {
  rd_user_id_to_id : offset_reader;
  rd_id_to_user_id : user_reader;
  rd_id_to_data : data_reader;
  rd_max_offset_id : Z;
}.

(** ** Opening *)

Definition load_index_reader {R} (read : string -> Uuid -> result R OpenError) (segment : Segment) (name : string) :
    result R RecordSegmentReaderCreationError :=
  match file_path segment !! name with
  | Some (path :: _) =>
      match extract_prefix_and_id path with
      | Some (prefix_path, index_uuid) => map_err BlockfileOpenError (read prefix_path index_uuid)
      | None => Err (InvalidUuid path)
      end
  | Some [] => Err FilePathNotFound
  | None => Err FilePathNotFound
  end.

Definition Reader_from_segment {RP : ReadProvider SR} (segment : Segment) :
    result RecordSegmentReader RecordSegmentReaderCreationError :=
  match size (file_path segment) with
  | 4%nat =>
      let? max_offset_id_bf_reader := load_index_reader read_offsets segment MAX_OFFSET_ID in
      let? user_id_to_id := load_index_reader read_offsets segment USER_ID_TO_OFFSET_ID in
      let? id_to_user_id := load_index_reader read_users segment OFFSET_ID_TO_USER_ID in
      let? id_to_data := load_index_reader read_data segment OFFSET_ID_TO_DATA in
      let existing_max_offset_id :=
        match (api_get "" MAX_OFFSET_ID max_offset_id_bf_reader).1 with
        | Ok (Some max_offset_id) => u32_value max_offset_id
        | Ok None | Err _ => 0
        end in
      Ok (mkRecordReader user_id_to_id id_to_user_id id_to_data existing_max_offset_id)
  | 0%nat => Err UninitializedSegment
  | _ => Err InvalidNumberOfFiles
  end.

(** ** Reading *)

Definition get_max_offset_id (r : RecordSegmentReader) : Z := rd_max_offset_id r.

Definition Reads (A : Type) : Type := ST RecordSegmentReader SegmentError A.

Definition on_offsets {A} (c : ST offset_reader BlockfileError A) : Reads A :=
  st_zoom rd_user_id_to_id (fun x r => mkRecordReader x (rd_id_to_user_id r) (rd_id_to_data r) (rd_max_offset_id r))
    (st_map_err BoxedBlockfileError c).
Definition on_users {A} (c : ST user_reader BlockfileError A) : Reads A :=
  st_zoom rd_id_to_user_id (fun x r => mkRecordReader (rd_user_id_to_id r) x (rd_id_to_data r) (rd_max_offset_id r))
    (st_map_err BoxedBlockfileError c).
Definition on_data {A} (c : ST data_reader BlockfileError A) : Reads A :=
  st_zoom rd_id_to_data (fun x r => mkRecordReader (rd_user_id_to_id r) (rd_id_to_user_id r) x (rd_max_offset_id r))
    (st_map_err BoxedBlockfileError c).

Definition get_offset_id_for_user_id (user_id : string) : Reads (option u32) := on_offsets (api_get "" user_id).

Definition get_data_for_offset_id (offset_id : Z) : Reads (option DataRecord) := on_data (api_get "" (mkU32 offset_id)).

Definition data_exists_for_user_id (user_id : string) : Reads bool :=
  let* found := on_offsets (api_contains "" user_id) in
  if negb found then st_ret false else
  let* offset_id := on_offsets (api_get "" user_id) in
  match offset_id with
  | Some id => on_data (api_contains "" id)
  | None => st_ret false
  end.

Definition get_all_data : Reads (list (Z * DataRecord)) :=
  let* rows := on_data (api_get_range (Included ""%string) (Included ""%string) Unbounded Unbounded) in
  st_ret ((fun x => (u32_value (key x.1), x.2)) <$> rows).

Definition as_u32 (b : Bound Z) : Bound u32 :=
  match b with Included a => Included (mkU32 a) | Excluded a => Excluded (mkU32 a) | Unbounded => Unbounded end.

(** [get_data_stream], all of it. *)
Definition get_data_stream (lo hi : Bound Z) : Reads (list (Z * DataRecord)) :=
  let* rows := on_data (api_get_range (Included ""%string) (Included ""%string) (as_u32 lo) (as_u32 hi)) in
  st_ret ((fun x => (u32_value (key x.1), x.2)) <$> rows).

(** [get_offset_stream], all of it. *)
Definition get_offset_stream (lo hi : Bound Z) : Reads (list Z) :=
  let* rows := on_users (api_get_range (Included ""%string) (Included ""%string) (as_u32 lo) (as_u32 hi)) in
  st_ret ((fun x => u32_value (key x.1)) <$> rows).

Definition get_offset_id_rank (target_oid : Z) : Reads Z := on_users (api_rank "" (mkU32 target_oid)).

Definition reader_record_count : Reads Z := on_users api_count.

Definition prefetch_id_to_data (keys : list Z) : Reads unit :=
  on_data (api_load_blocks_for_keys ((fun k => mkCompositeKey "" (mkU32 k)) <$> keys)).

Definition prefetch_user_id_to_id (keys : list string) : Reads unit :=
  on_offsets (api_load_blocks_for_keys ((fun k => mkCompositeKey ""%string k) <$> keys)).
End Reader.

Inductive LogMaterializerError :=
| MetadataMaterialization (e : MetadataValueConversionError)
| EmbeddingMaterialization
| RecordSegment (e : SegmentError)
| MaterializerPanic.

Definition u32_wrap (z : Z) : Z := z mod 2 ^ 32.

Section Metadata.
Context {HO : HashOrder}.

(** ** Updates of metadata *)

(** The loop of [materialize_update_metadata]. *)
Fixpoint materialize_updates (l : list (string * UpdateMetadataValue)) (metadata : Metadata) (deleted : DeletedMetadata) :
    result (Metadata * DeletedMetadata) MetadataValueConversionError :=
  match l with
  | [] => Ok (metadata, deleted)
  | (k, v) :: l =>
      if bool_decide (v = UNone) then materialize_updates l metadata ({[k]} ∪ deleted)
      else match MetadataValue_try_from v with
           | Ok v => materialize_updates l (<[k := v]> metadata) deleted
           | Err e => Err e
           end
  end.

Definition materialize_update_metadata (u : UpdateMetadata) : result (Metadata * DeletedMetadata) MetadataValueConversionError :=
  materialize_updates (hash_iter u) ∅ ∅.

Definition merge_update_metadata (base_metadata : option Metadata * option DeletedMetadata) (update_metadata : option UpdateMetadata) :
    result (option Metadata * option DeletedMetadata) MetadataValueConversionError :=
  let merged := default ∅ (fst base_metadata) in
  let deleted := default ∅ (snd base_metadata) in
  let? (merged, deleted) :=
    match update_metadata with
    | None => Ok (merged, deleted)
    | Some u =>
        let? (metadata, deleted_mt) := materialize_update_metadata u in
        let '(merged, deleted) :=
          foldl (fun acc x => (<[x.1 := x.2]> acc.1, acc.2 ∖ {[x.1]})) (merged, deleted) (hash_iter metadata) in
        Ok (foldl (fun acc k => (base.delete k acc.1, {[k]} ∪ acc.2)) (merged, deleted) (hash_set_iter deleted_mt))
    end in
  Ok (if bool_decide (merged = ∅) then None else Some merged, if bool_decide (deleted = ∅) then None else Some deleted).

(** ** Materialized records *)

Record MaterializedLogRecord := mkMaterialized {
  offset_id_exists_in_segment : bool;
  offset_id : Z;
  user_id_at_log_index : option nat;
  final_operation : MaterializedLogOperation;
  metadata_to_be_merged : option Metadata;
  metadata_to_be_deleted : option DeletedMetadata;
  final_document_at_log_index : option nat;
  final_embedding_at_log_index : option nat;
}.

Definition from_segment_offset_id (oid : Z) : MaterializedLogRecord :=
  mkMaterialized true oid None Initial None None None None.

Definition from_log_record (oid : Z) (log_index : nat) (l : LogRecord) : result MaterializedLogRecord LogMaterializerError :=
  let document := match rec_document (record l) with Some _ => Some log_index | None => None end in
  match rec_embedding (record l) with
  | None => Err EmbeddingMaterialization
  | Some _ =>
      match rec_metadata (record l) with
      | Some metadata =>
          match materialize_update_metadata metadata with
          | Ok m => Ok (mkMaterialized false oid (Some log_index) AddNew (Some m.1) (Some m.2) document (Some log_index))
          | Err e => Err (MetadataMaterialization e)
          end
      | None => Ok (mkMaterialized false oid (Some log_index) AddNew None None document (Some log_index))
      end
  end.

Definition set_final_operation (op : MaterializedLogOperation) (m : MaterializedLogRecord) : MaterializedLogRecord :=
  mkMaterialized (offset_id_exists_in_segment m) (offset_id m) (user_id_at_log_index m) op
    (metadata_to_be_merged m) (metadata_to_be_deleted m) (final_document_at_log_index m) (final_embedding_at_log_index m).

(** The record that replaces a deleted one of the segment. *)
Definition overwrite_record (oid : Z) (log_index : nat) (l : LogRecord) : result MaterializedLogRecord LogMaterializerError :=
  let? m := from_log_record oid log_index l in
  Ok (mkMaterialized true (offset_id m) (user_id_at_log_index m) OverwriteExisting
        (metadata_to_be_merged m) (metadata_to_be_deleted m) (final_document_at_log_index m) (final_embedding_at_log_index m)).

(** A record is marked as deleted. *)
Definition mark_deleted (m : MaterializedLogRecord) : MaterializedLogRecord :=
  mkMaterialized (offset_id_exists_in_segment m) (offset_id m) None DeleteExisting None None None None.

(** The metadata, the document and the embedding of an update. *)
Definition update_fields (log_index : nat) (l : LogRecord) (m : MaterializedLogRecord) : result MaterializedLogRecord LogMaterializerError :=
  let? meta := map_err MetadataMaterialization
                 (merge_update_metadata (metadata_to_be_merged m, metadata_to_be_deleted m) (rec_metadata (record l))) in
  Ok (mkMaterialized (offset_id_exists_in_segment m) (offset_id m) (user_id_at_log_index m) (final_operation m)
        meta.1 meta.2
        (match rec_document (record l) with Some _ => Some log_index | None => final_document_at_log_index m end)
        (match rec_embedding (record l) with Some _ => Some log_index | None => final_embedding_at_log_index m end)).

Definition after_update (m : MaterializedLogRecord) : result MaterializedLogRecord LogMaterializerError :=
  match final_operation m with
  | Initial => Ok (set_final_operation UpdateExisting m)
  | AddNew | OverwriteExisting | UpdateExisting => Ok m
  | DeleteExisting => Err MaterializerPanic
  end.

Definition apply_update (log_index : nat) (l : LogRecord) (m : MaterializedLogRecord) : result MaterializedLogRecord LogMaterializerError :=
  let? m := update_fields log_index l m in
  after_update m.

(** ** The two maps

    [existing] has the records of the segment that the chunk mentions, [fresh]
    those that exist only in the log, and [next_offset] is the shared counter. *)

Record Ledger := mkLedger {
  existing : gmap string MaterializedLogRecord;
  fresh : gmap string MaterializedLogRecord;
  next_offset : Z;
}.

Definition Materializing (A : Type) : Type := ST Ledger LogMaterializerError A.

Definition lift {A} (r : result A LogMaterializerError) : Materializing A := fun s => (r, s).
Definition set_existing (id : string) (m : MaterializedLogRecord) : Materializing unit := fun s =>
  (Ok tt, mkLedger (<[id := m]> (existing s)) (fresh s) (next_offset s)).
Definition set_fresh (id : string) (m : MaterializedLogRecord) : Materializing unit := fun s =>
  (Ok tt, mkLedger (existing s) (<[id := m]> (fresh s)) (next_offset s)).
Definition remove_existing (id : string) : Materializing unit := fun s =>
  (Ok tt, mkLedger (base.delete id (existing s)) (fresh s) (next_offset s)).
Definition remove_fresh (id : string) : Materializing unit := fun s =>
  (Ok tt, mkLedger (existing s) (base.delete id (fresh s)) (next_offset s)).
(** [AtomicU32::fetch_add] of one. *)
Definition fetch_add : Materializing Z := fun s =>
  (Ok (next_offset s), mkLedger (existing s) (fresh s) (u32_wrap (next_offset s + 1))).

Definition insert_fresh (log_index : nat) (l : LogRecord) : Materializing unit :=
  let* next_offset_id := fetch_add in
  let* m := lift (from_log_record next_offset_id log_index l) in
  set_fresh (rec_id (record l)) m.

Definition overwrite_existing (log_index : nat) (l : LogRecord) (curr_val : MaterializedLogRecord) : Materializing unit :=
  let* _ := remove_existing (rec_id (record l)) in
  let* m := lift (overwrite_record (offset_id curr_val) log_index l) in
  set_existing (rec_id (record l)) m.

Definition process_add (log_index : nat) (l : LogRecord) : Materializing unit :=
  let id := rec_id (record l) in
  let* s := st_get in
  match existing s !! id with
  | Some m =>
      match final_operation m with
      | DeleteExisting => overwrite_existing log_index l m
      | AddNew => st_fail MaterializerPanic
      | Initial | OverwriteExisting | UpdateExisting => st_ret tt
      end
  | None =>
      match fresh s !! id with
      | None => insert_fresh log_index l
      | Some _ => st_ret tt
      end
  end.

Definition process_delete (log_index : nat) (l : LogRecord) : Materializing unit :=
  let id := rec_id (record l) in
  let* s := st_get in
  match fresh s !! id with
  | Some _ => remove_fresh id
  | None =>
      match existing s !! id with
      | Some m => set_existing id (mark_deleted m)
      | None => st_ret tt
      end
  end.

Definition process_update (log_index : nat) (l : LogRecord) : Materializing unit :=
  let id := rec_id (record l) in
  let* s := st_get in
  match existing s !! id with
  | Some m =>
      match final_operation m with
      | DeleteExisting => st_ret tt
      | AddNew => st_fail MaterializerPanic
      | Initial | OverwriteExisting | UpdateExisting =>
          let* m := lift (apply_update log_index l m) in
          set_existing id m
      end
  | None =>
      match fresh s !! id with
      | Some m =>
          let* m := lift (apply_update log_index l m) in
          set_fresh id m
      | None => st_ret tt
      end
  end.

Definition process_upsert (log_index : nat) (l : LogRecord) : Materializing unit :=
  let id := rec_id (record l) in
  let* s := st_get in
  match existing s !! id with
  | Some m =>
      match final_operation m with
      | DeleteExisting => overwrite_existing log_index l m
      | AddNew => st_fail MaterializerPanic
      | Initial | OverwriteExisting | UpdateExisting =>
          let* m := lift (apply_update log_index l m) in
          set_existing id m
      end
  | None =>
      match fresh s !! id with
      | Some m =>
          let* m := lift (update_fields log_index l m) in
          set_fresh id (set_final_operation AddNew m)
      | None => insert_fresh log_index l
      end
  end.

(** One turn of the second loop of [materialize_logs]. *)
Definition process_record (x : LogRecord * nat) : Materializing unit :=
  let '(l, log_index) := x in
  match rec_operation (record l) with
  | Add => process_add log_index l
  | Delete => process_delete log_index l
  | Update => process_update log_index l
  | Upsert => process_upsert log_index l
  end.

Fixpoint process_records (l : list (LogRecord * nat)) : Materializing unit :=
  match l with
  | [] => st_ret tt
  | x :: l => let* _ := process_record x in process_records l
  end.

(** The records of the two maps, by offset id. *)
Definition collect_materialized (s : Ledger) : list MaterializedLogRecord :=
  let old := List.filter (fun m => negb (bool_decide (final_operation m = Initial))) ((hash_iter (existing s)).*2) in
  sort_by_key offset_id (old ++ (hash_iter (fresh s)).*2).

Record MaterializeLogsResult := mkMaterializeLogsResult {
  result_logs : Chunk LogRecord;
  materialized : Chunk MaterializedLogRecord;
}.

Definition result_is_empty (r : MaterializeLogsResult) : bool := chunk_is_empty (materialized r).
Definition result_len (r : MaterializeLogsResult) : nat := chunk_len (materialized r).

(** What the iterator over the result gives. *)
Definition result_iter (r : MaterializeLogsResult) : list MaterializedLogRecord :=
  omap (fun index => chunk_get (materialized r) index) (seq 0 (chunk_len (materialized r))).
End Metadata.

(** ** The segment *)

Section Materialize.
Context {HO : HashOrder} {SR : SegmentReaders}.

(** The first loop: the records that the segment has. *)
Fixpoint find_existing (l : list (LogRecord * nat)) (found : gmap string MaterializedLogRecord) :
    ST RecordSegmentReader LogMaterializerError (gmap string MaterializedLogRecord) :=
  match l with
  | [] => st_ret found
  | (lr, _) :: l =>
      let id := rec_id (record lr) in
      let* exists_ := st_map_err RecordSegment (data_exists_for_user_id id) in
      if exists_ : bool then
        let* offset := st_map_err RecordSegment (get_offset_id_for_user_id id) in
        match offset with
        | Some offset => find_existing l (<[id := from_segment_offset_id (u32_value offset)]> found)
        | None => st_fail (RecordSegment (BoxedCreationError (UserRecordNotFound ("not found: " +:+ id))))
        end
      else find_existing l found
  end.

Definition first_offset_id (reader : option RecordSegmentReader) (next_offset_id : option Z) : Z :=
  match next_offset_id with
  | Some next => next
  | None =>
      match reader with
      | Some reader => u32_wrap (get_max_offset_id reader + 1)
      | None => 1
      end
  end.

(** The result, the reader, and the value that the counter of offset ids is
    left at. *)
Definition materialize_logs (reader : option RecordSegmentReader) (logs : Chunk LogRecord) (next_offset_id : option Z) :
    result MaterializeLogsResult LogMaterializerError * option RecordSegmentReader * Z :=
  let next := first_offset_id reader next_offset_id in
  let '(found, reader) :=
    match reader with
    | Some r => let '(found, r) := find_existing (chunk_iter logs) ∅ r in (found, Some r)
    | None => (Ok ∅, None)
    end in
  match found with
  | Err e => (Err e, reader, next)
  | Ok existing_id_to_materialized =>
      let '(r, s) := process_records (chunk_iter logs) (mkLedger existing_id_to_materialized ∅ next) in
      match r with
      | Err e => (Err e, reader, next_offset s)
      | Ok _ => (Ok (mkMaterializeLogsResult logs (Chunk_new (collect_materialized s))), reader, next_offset s)
      end
  end.

(** ** Hydrated records *)

Record HydratedMaterializedLogRecord := mkHydrated {
  materialized_log_record : MaterializedLogRecord;
  segment_data_record : option DataRecord;
  hydrated_logs : Chunk LogRecord;
}.

Definition hydrate (logs : Chunk LogRecord) (m : MaterializedLogRecord) :
    ST (option RecordSegmentReader) LogMaterializerError HydratedMaterializedLogRecord := fun reader =>
  if offset_id_exists_in_segment m then
    match reader with
    | Some r =>
        match get_data_for_offset_id (offset_id m) r with
        | (Ok data, r) => (Ok (mkHydrated m data logs), Some r)
        | (Err e, r) => (Err (RecordSegment e), Some r)
        end
    | None => (Ok (mkHydrated m None logs), None)
    end
  else (Ok (mkHydrated m None logs), reader).
End Materialize.

Section Hydrated.
Context {HO : HashOrder}.
Implicit Types h : HydratedMaterializedLogRecord.

Definition get_offset_id h : Z := offset_id (materialized_log_record h).
Definition get_operation h : MaterializedLogOperation := final_operation (materialized_log_record h).

(** [None] is a panic. *)
Definition get_user_id h : option string :=
  match user_id_at_log_index (materialized_log_record h) with
  | Some index => (fun l => rec_id (record l)) <$> chunk_get (hydrated_logs h) index
  | None => dr_id <$> segment_data_record h
  end.

(** The outer [None] is a panic. *)
Definition document_ref_from_log h : option (option string) :=
  match final_document_at_log_index (materialized_log_record h) with
  | Some index => (fun l => rec_document (record l)) <$> chunk_get (hydrated_logs h) index
  | None => Some None
  end.

Definition document_ref_from_segment h : option string := segment_data_record h ≫= dr_document.

Definition discards_segment h : bool :=
  bool_decide (get_operation h = OverwriteExisting) || bool_decide (get_operation h = AddNew).

Definition merged_document_ref h : option (option string) :=
  match final_document_at_log_index (materialized_log_record h) with
  | Some _ => document_ref_from_log h
  | None => Some (if discards_segment h then None else document_ref_from_segment h)
  end.

Definition merged_metadata h : Metadata :=
  let final :=
    if discards_segment h then ∅
    else match segment_data_record h with
         | Some d => default ∅ (dr_metadata d)
         | None => ∅
         end in
  let final :=
    match metadata_to_be_merged (materialized_log_record h) with
    | Some metadata => foldl (fun acc x => <[x.1 := x.2]> acc) final (hash_iter metadata)
    | None => final
    end in
  match metadata_to_be_deleted (materialized_log_record h) with
  | Some keys => foldl (fun acc k => base.delete k acc) final (hash_set_iter keys)
  | None => final
  end.

Definition embeddings_ref_from_log h : option (option (list Z)) :=
  match final_embedding_at_log_index (materialized_log_record h) with
  | Some index => (fun l => rec_embedding (record l)) <$> chunk_get (hydrated_logs h) index
  | None => Some None
  end.

Definition embeddings_ref_from_segment h : option (list Z) := dr_embedding <$> segment_data_record h.

(** [None] is a panic. *)
Definition merged_embeddings_ref h : option (list Z) :=
  match final_embedding_at_log_index (materialized_log_record h) with
  | Some _ => mjoin (embeddings_ref_from_log h)
  | None => if discards_segment h then None else embeddings_ref_from_segment h
  end.

Definition get_data_record h : option DataRecord := segment_data_record h.

(** The loop over the updates. *)
Definition delta_upsert (base_metadata : Metadata) (d : MetadataDelta) (x : string * MetadataValue) : MetadataDelta :=
  match base_metadata !! x.1 with
  | Some old_value =>
      mkMetadataDelta (<[x.1 := (old_value, x.2)]> (metadata_to_update d)) (metadata_to_delete d) (metadata_to_insert d)
  | None => mkMetadataDelta (metadata_to_update d) (metadata_to_delete d) (<[x.1 := x.2]> (metadata_to_insert d))
  end.

(** The loop over the deletes. *)
Definition delta_delete_key (base_metadata : Metadata) (d : MetadataDelta) (k : string) : MetadataDelta :=
  match base_metadata !! k with
  | Some old_value => mkMetadataDelta (metadata_to_update d) (<[k := old_value]> (metadata_to_delete d)) (metadata_to_insert d)
  | None => d
  end.

Definition compute_metadata_delta h : MetadataDelta :=
  let base_metadata := match segment_data_record h with Some d => default ∅ (dr_metadata d) | None => ∅ end in
  let delta :=
    match metadata_to_be_merged (materialized_log_record h) with
    | Some meta => foldl (delta_upsert base_metadata) MetadataDelta_new (hash_iter meta)
    | None => MetadataDelta_new
    end in
  match metadata_to_be_deleted (materialized_log_record h) with
  | Some keys => foldl (delta_delete_key base_metadata) delta (hash_set_iter keys)
  | None => delta
  end.

Definition as_i64 (z : Z) : Z := (z + 2 ^ 63) mod 2 ^ 64 - 2 ^ 63.

Definition logical_size_of_record (id : string) (embedding : list Z) (metadata : Metadata) (document : option string) : Z :=
  str_len id + size_of_slice 4 embedding + logical_size_of_metadata metadata +
  match document with Some d => str_len d | None => 0 end.

(** [None] is a panic. *)
Definition compute_logical_size_delta_bytes h : option Z :=
  let old_size :=
    as_i64 match get_data_record h with
           | Some d => str_len (dr_id d) + size_of_slice 4 (dr_embedding d) +
                       match dr_metadata d with Some m => logical_size_of_metadata m | None => 0 end +
                       match dr_document d with Some d => str_len d | None => 0 end
           | None => 0
           end in
  match get_operation h with
  | AddNew | OverwriteExisting | UpdateExisting =>
      match get_user_id h, merged_embeddings_ref h, merged_document_ref h with
      | Some user_id, Some embedding, Some document =>
          Some (as_i64 (as_i64 (logical_size_of_record user_id embedding (merged_metadata h) document) - old_size))
      | _, _, _ => None
      end
  | _ => Some (as_i64 (0 - old_size))
  end.
End Hydrated.

Class SegmentWriters := {
  offset_writer : Type;
  user_writer : Type;
  data_writer : Type;
  offset_flusher : Type;
  user_flusher : Type;
  data_flusher : Type;
  offset_wapi :: WriterApi string u32 offset_writer;
  user_wapi :: WriterApi u32 string user_writer;
  data_wapi :: WriterApi u32 DataRecord data_writer;
  offset_capi :: CommitApi offset_writer offset_flusher;
  user_capi :: CommitApi user_writer user_flusher;
  data_capi :: CommitApi data_writer data_flusher;
}.

Inductive CreateError := CreateFailed.

(** [BlockfileProvider::write]: a prefix and the blockfile to fork, if any. *)
Class WriteProvider (SW : SegmentWriters) := {
  write_offsets : string -> option Uuid -> result offset_writer CreateError;
  write_users : string -> option Uuid -> result user_writer CreateError;
  write_data : string -> option Uuid -> result data_writer CreateError;
}.

Inductive RecordSegmentWriterCreationError :=
| InvalidSegmentType
| MissingFile (name : string)
| IncorrectNumberOfFiles
| WriterInvalidUuid (path : string)
| BlockfileCreateError (e : CreateError)
| InvalidPrefixPath.

Inductive ApplyMaterializedLogError :=
| BlockfileSet
| BlockfileDelete
| Materialization (e : LogMaterializerError)
| ApplyPanic.

Section Writer.
Context {UU : Uuids} {HO : HashOrder} {SR : SegmentReaders} {SW : SegmentWriters}.

Record RecordSegmentWriter := mkRecordWriter {
  user_id_to_id : offset_writer;
  id_to_user_id : user_writer;
  id_to_data : data_writer;
  max_offset_id : offset_writer;
  max_new_offset_id : Z;
  record_segment_id : Uuid;
}.

(** ** Opening *)

Definition first_path (segment : Segment) (name : string) : result string RecordSegmentWriterCreationError :=
  match file_path segment !! name with
  | Some (path :: _) => Ok path
  | Some [] => Err (MissingFile name)
  | None => Err (MissingFile name)
  end.

Definition writer_extract (path : string) : result (string * Uuid) RecordSegmentWriterCreationError :=
  match extract_prefix_and_id path with
  | Some x => Ok x
  | None => Err (WriterInvalidUuid path)
  end.

Definition Writer_from_segment {WP : WriteProvider SW} (tenant : string) (database_id : Uuid) (segment : Segment) :
    result RecordSegmentWriter RecordSegmentWriterCreationError :=
  if negb (bool_decide (segment_type segment = BlockfileRecord)) then Err InvalidSegmentType else
  match size (file_path segment) with
  | 0%nat =>
      let prefix_path := construct_prefix_path tenant database_id segment in
      let? user_id_to_id := map_err BlockfileCreateError (write_offsets prefix_path None) in
      let? id_to_user_id := map_err BlockfileCreateError (write_users prefix_path None) in
      let? id_to_data := map_err BlockfileCreateError (write_data prefix_path None) in
      let? max_offset_id := map_err BlockfileCreateError (write_offsets prefix_path None) in
      Ok (mkRecordWriter user_id_to_id id_to_user_id id_to_data max_offset_id 0 (segment_id segment))
  | 4%nat =>
      let? user_id_to_id_bf_path := first_path segment USER_ID_TO_OFFSET_ID in
      let? id_to_user_id_bf_path := first_path segment OFFSET_ID_TO_USER_ID in
      let? id_to_data_bf_path := first_path segment OFFSET_ID_TO_DATA in
      let? max_offset_id_bf_path := first_path segment MAX_OFFSET_ID in
      let? (prefix, user_id_to_id_bf_uuid) := writer_extract user_id_to_id_bf_path in
      let? (prefix2, id_to_user_id_bf_uuid) := writer_extract id_to_user_id_bf_path in
      if negb (bool_decide (prefix = prefix2)) then Err InvalidPrefixPath else
      let? (prefix3, id_to_data_bf_uuid) := writer_extract id_to_data_bf_path in
      if negb (bool_decide (prefix = prefix3)) then Err InvalidPrefixPath else
      let? (prefix4, max_offset_id_bf_uuid) := writer_extract max_offset_id_bf_path in
      if negb (bool_decide (prefix = prefix4)) then Err InvalidPrefixPath else
      let? user_id_to_id := map_err BlockfileCreateError (write_offsets prefix (Some user_id_to_id_bf_uuid)) in
      let? id_to_user_id := map_err BlockfileCreateError (write_users prefix (Some id_to_user_id_bf_uuid)) in
      let? id_to_data := map_err BlockfileCreateError (write_data prefix (Some id_to_data_bf_uuid)) in
      let? max_offset_id := map_err BlockfileCreateError (write_offsets prefix (Some max_offset_id_bf_uuid)) in
      Ok (mkRecordWriter user_id_to_id id_to_user_id id_to_data max_offset_id 0 (segment_id segment))
  | _ => Err IncorrectNumberOfFiles
  end.

(** ** Applying materialized logs *)

(** The reader of the segment and its writer. *)
Record Applying := mkApplying {
  applying_reader : option RecordSegmentReader;
  applying_writer : RecordSegmentWriter;
}.

Definition Applies (A : Type) : Type := ST Applying ApplyMaterializedLogError A.

Definition on_reader {A} (c : ST (option RecordSegmentReader) LogMaterializerError A) : Applies A :=
  st_zoom applying_reader (fun r s => mkApplying r (applying_writer s)) (st_map_err Materialization c).

Definition on_writer {A} (c : ST RecordSegmentWriter ApplyMaterializedLogError A) : Applies A :=
  st_zoom applying_writer (fun w s => mkApplying (applying_reader s) w) c.

Definition Writes : Type := ST RecordSegmentWriter ApplyMaterializedLogError unit.

Definition on_user_id_to_id (e : ApplyMaterializedLogError) (c : ST offset_writer BlockfileError unit) : Writes :=
  st_zoom user_id_to_id
    (fun x w => mkRecordWriter x (id_to_user_id w) (id_to_data w) (max_offset_id w) (max_new_offset_id w) (record_segment_id w))
    (st_map_err (fun _ => e) c).
Definition on_id_to_user_id (e : ApplyMaterializedLogError) (c : ST user_writer BlockfileError unit) : Writes :=
  st_zoom id_to_user_id
    (fun x w => mkRecordWriter (user_id_to_id w) x (id_to_data w) (max_offset_id w) (max_new_offset_id w) (record_segment_id w))
    (st_map_err (fun _ => e) c).
Definition on_id_to_data (e : ApplyMaterializedLogError) (c : ST data_writer BlockfileError unit) : Writes :=
  st_zoom id_to_data
    (fun x w => mkRecordWriter (user_id_to_id w) (id_to_user_id w) x (max_offset_id w) (max_new_offset_id w) (record_segment_id w))
    (st_map_err (fun _ => e) c).

(** What is in the data record; [None] is a panic. *)
Definition construct_data_record (h : HydratedMaterializedLogRecord) : option DataRecord :=
  document ← merged_document_ref h;
  embedding ← merged_embeddings_ref h;
  id ← get_user_id h;
  let final_metadata := merged_metadata h in
  Some (mkDataRecord id embedding (if bool_decide (final_metadata = ∅) then None else Some final_metadata) document).

Definition construct_and_set_data_record (h : HydratedMaterializedLogRecord) : Writes :=
  match construct_data_record h with
  | None => st_fail ApplyPanic
  | Some d => on_id_to_data BlockfileSet (api_set "" (mkU32 (get_offset_id h)) d)
  end.

(** The changes of one record. *)
Definition apply_record (h : HydratedMaterializedLogRecord) : Writes :=
  let oid := mkU32 (get_offset_id h) in
  match get_operation h with
  | AddNew =>
      match get_user_id h with
      | None => st_fail ApplyPanic
      | Some user_id =>
          let* _ := on_user_id_to_id BlockfileSet (api_set "" user_id oid) in
          let* _ := on_id_to_user_id BlockfileSet (api_set "" oid user_id) in
          construct_and_set_data_record h
      end
  | UpdateExisting | OverwriteExisting =>
      let* _ := on_id_to_data BlockfileDelete (api_delete "" oid) in
      construct_and_set_data_record h
  | DeleteExisting =>
      match get_user_id h with
      | None => st_fail ApplyPanic
      | Some user_id =>
          let* _ := on_user_id_to_id BlockfileDelete (api_delete "" user_id) in
          let* _ := on_id_to_user_id BlockfileDelete (api_delete "" oid) in
          on_id_to_data BlockfileDelete (api_delete "" oid)
      end
  | Initial => st_fail ApplyPanic
  end.

(** The loop; its value is the largest offset id of a new record. *)
Fixpoint apply_records (logs : Chunk LogRecord) (l : list MaterializedLogRecord) (max_new : Z) : Applies Z :=
  match l with
  | [] => st_ret max_new
  | m :: l =>
      let* h := on_reader (hydrate logs m) in
      let* _ := on_writer (apply_record h) in
      apply_records logs l (match get_operation h with AddNew => Z.max max_new (get_offset_id h) | _ => max_new end)
  end.

Definition apply_materialized_log_chunk (r : MaterializeLogsResult) : Applies unit :=
  let* max_new := apply_records (result_logs r) (result_iter r) 0 in
  on_writer (fun w =>
    (Ok tt, mkRecordWriter (user_id_to_id w) (id_to_user_id w) (id_to_data w) (max_offset_id w)
              (Z.max (max_new_offset_id w) max_new) (record_segment_id w))).

(** ** Commit and flush *)

Record RecordSegmentFlusher := mkRecordFlusher {
  flusher_segment_id : Uuid;
  user_id_to_id_flusher : offset_flusher;
  id_to_user_id_flusher : user_flusher;
  id_to_data_flusher : data_flusher;
  max_offset_id_flusher : offset_flusher;
}.

Inductive CommitError :=
| CommitSetFailed
| CommitBlockfile (e : BlockfileError).

Definition commit_writer (w : RecordSegmentWriter) : result RecordSegmentFlusher CommitError :=
  let flusher_user_id_to_id := api_commit (user_id_to_id w) in
  let flusher_id_to_user_id := api_commit (id_to_user_id w) in
  let flusher_id_to_data := api_commit (id_to_data w) in
  let? max_offset_id :=
    (if 0 <? max_new_offset_id w then
       match api_set "" MAX_OFFSET_ID (mkU32 (max_new_offset_id w)) (max_offset_id w) with
       | (Ok _, x) => Ok x
       | (Err _, _) => Err CommitSetFailed
       end
     else Ok (max_offset_id w)) in
  let flusher_max_offset_id := api_commit max_offset_id in
  let? f1 := map_err CommitBlockfile flusher_user_id_to_id in
  let? f2 := map_err CommitBlockfile flusher_id_to_user_id in
  let? f3 := map_err CommitBlockfile flusher_id_to_data in
  let? f4 := map_err CommitBlockfile flusher_max_offset_id in
  Ok (mkRecordFlusher (record_segment_id w) f1 f2 f3 f4).

Definition flusher_record_count (f : RecordSegmentFlusher) : Z := api_flush_count (id_to_user_id_flusher f).

(** [BlockfileFlusher::flush], [id] and [prefix_path]. *)
Class FlushApi := {
  flusher_prefix_path : offset_flusher -> string;
  offset_flusher_id : offset_flusher -> Uuid;
  user_flusher_id : user_flusher -> Uuid;
  data_flusher_id : data_flusher -> Uuid;
  flush_offsets : offset_flusher -> result unit BlockfileError;
  flush_users : user_flusher -> result unit BlockfileError;
  flush_data : data_flusher -> result unit BlockfileError;
}.

Definition flush {FA : FlushApi} (f : RecordSegmentFlusher) : result (gmap string (list string)) BlockfileError :=
  let prefix_path := flusher_prefix_path (user_id_to_id_flusher f) in
  let res_user_id_to_id := flush_offsets (user_id_to_id_flusher f) in
  let res_id_to_user_id := flush_users (id_to_user_id_flusher f) in
  let res_id_to_data := flush_data (id_to_data_flusher f) in
  let res_max_offset_id := flush_offsets (max_offset_id_flusher f) in
  let? _ := res_user_id_to_id in
  let flushed := <[USER_ID_TO_OFFSET_ID := [flush_key prefix_path (offset_flusher_id (user_id_to_id_flusher f))]]> ∅ in
  let? _ := res_id_to_user_id in
  let flushed := <[OFFSET_ID_TO_USER_ID := [flush_key prefix_path (user_flusher_id (id_to_user_id_flusher f))]]> flushed in
  let? _ := res_id_to_data in
  let flushed := <[OFFSET_ID_TO_DATA := [flush_key prefix_path (data_flusher_id (id_to_data_flusher f))]]> flushed in
  let? _ := res_max_offset_id in
  Ok (<[MAX_OFFSET_ID := [flush_key prefix_path (offset_flusher_id (max_offset_id_flusher f))]]> flushed).
End Writer.
