(* ===== verification/Compaction.v ===== *)
(** * Compaction

    [rust/worker/src/execution/operators/partition_log.rs] and
    [materialize_logs.rs], and the part of the [CompactOrchestrator] of
    [rust/worker/src/execution/orchestration/compact.rs] that sends their tasks
    and counts the results.  Every task is answered once, in any order; a task
    that fails ends the compaction and is not part of the model. *)

From S2P Require Import Prelude Setsum Types BTree BlockKey SparseIndex BlockDelta Block Blockfile BlockfileApi Records RecordSegment.
From stdpp Require Import relations.

#[local] Open Scope Z_scope.
#[local] Open Scope wal_scope.

(** ** The operator that partitions *)

Section Partition.
Context {HO : HashOrder}.

(** The indices of the visible records, by user id. *)
Definition group_indices (l : list (LogRecord * nat)) : gmap string (list nat) :=
  foldl (fun map '(lr, index) =>
           let key := rec_id (record lr) in <[key := default [] (map !! key) ++ [index]]> map) ∅ l.

Definition set_visible (v : list nat) (visibility : list bool) : list bool :=
  foldl (fun vis i => <[i := true]> vis) visibility v.

(** The loop over the groups, and the partition that is left after it. *)
Fixpoint partition_groups (records : Chunk LogRecord) (partition_size : nat) (groups : list (string * list nat))
    (current_batch_size : nat) (new_partition : bool) (visibility : list bool) : list (Chunk LogRecord) :=
  match groups with
  | [] => if new_partition then [] else [set_visibility visibility records]
  | (_, v) :: groups =>
      let visibility := if new_partition then replicate (total_len records) false else visibility in
      let visibility := set_visible v visibility in
      let current_batch_size := (current_batch_size + length v)%nat in
      if Nat.leb partition_size current_batch_size then
        set_visibility visibility records :: partition_groups records partition_size groups 0 true visibility
      else partition_groups records partition_size groups current_batch_size false visibility
  end.

Definition partition (records : Chunk LogRecord) (partition_size : nat) : list (Chunk LogRecord) :=
  partition_groups records partition_size (hash_iter (group_indices (chunk_iter records))) 0 true
    (replicate (total_len records) false).

Definition determine_partition_size (num_records threshold : nat) : nat :=
  if Nat.ltb num_records threshold then num_records else threshold.

Definition PartitionOperator_run (records : Chunk LogRecord) (max_partition_size : nat) : list (Chunk LogRecord) :=
  partition records (determine_partition_size (chunk_len records) max_partition_size).
End Partition.

(** ** The operator that materializes *)

Section Operator.
Context {HO : HashOrder} {SR : SegmentReaders}.

Record MaterializeLogOutput := mkMaterializeLogOutput {
  output_result : MaterializeLogsResult;
  collection_logical_size_delta : Z;
}.

Fixpoint sum_deltas (logs : Chunk LogRecord) (l : list MaterializedLogRecord) (acc : Z) :
    ST (option RecordSegmentReader) LogMaterializerError Z :=
  match l with
  | [] => st_ret acc
  | m :: l =>
      let* h := hydrate logs m in
      match compute_logical_size_delta_bytes h with
      | None => st_fail MaterializerPanic
      | Some delta => sum_deltas logs l (as_i64 (acc + delta))
      end
  end.

Definition MaterializeLogOperator_run (record_reader : option RecordSegmentReader) (logs : Chunk LogRecord) (offset_id : Z) :
    result MaterializeLogOutput LogMaterializerError * option RecordSegmentReader * Z :=
  let '(r, reader, next) := materialize_logs record_reader logs (Some offset_id) in
  match r with
  | Err e => (Err e, reader, next)
  | Ok res =>
      match sum_deltas (result_logs res) (result_iter res) 0 reader with
      | (Ok delta, reader) => (Ok (mkMaterializeLogOutput res delta), reader, next)
      | (Err e, reader) => (Err e, reader, next)
      end
  end.

(** The counter of offset ids that the tasks of one compaction share.  An
    [AtomicU32] is zero by default. *)
Definition next_max_offset_id (record_reader : option RecordSegmentReader) : Z :=
  match record_reader with
  | Some reader => u32_wrap (get_max_offset_id reader + 1)
  | None => 0
  end.

(** The materialization of all partitions, one after the other. *)
Fixpoint materialize_partitions (record_reader : option RecordSegmentReader) (partitions : list (Chunk LogRecord)) (next : Z) :
    result (list MaterializeLogOutput) LogMaterializerError * option RecordSegmentReader * Z :=
  match partitions with
  | [] => (Ok [], record_reader, next)
  | p :: partitions =>
      match MaterializeLogOperator_run record_reader p next with
      | (Err e, reader, next) => (Err e, reader, next)
      | (Ok out, reader, next) =>
          match materialize_partitions reader partitions next with
          | (Err e, reader, next) => (Err e, reader, next)
          | (Ok outs, reader, next) => (Ok (out :: outs), reader, next)
          end
      end
  end.

(** The size of the collection that [register] reports. *)
Definition register_size (rebuild : bool) (size_bytes_post_compaction : Z) (delta : Z) : option Z :=
  if rebuild then if 0 <=? delta then Some delta else None
  else Some (Z.max 0 (Z.min u64_max (size_bytes_post_compaction + delta))).
End Operator.

(** ** The record segment through a compaction

    What the handlers of the orchestrator do with the results for the record
    segment: results that are not empty are applied and their sizes added, and
    the writer is committed after the last. *)

Section Compact.
Context {HO : HashOrder} {SR : SegmentReaders} {SW : SegmentWriters}.

Fixpoint apply_outputs (outs : list MaterializeLogOutput) (size_delta : Z) : Applies Z :=
  match outs with
  | [] => st_ret size_delta
  | out :: outs =>
      if result_is_empty (output_result out) then apply_outputs outs size_delta
      else let* _ := apply_materialized_log_chunk (output_result out) in
           apply_outputs outs (as_i64 (size_delta + collection_logical_size_delta out))
  end.

Inductive CompactionError :=
| MaterializeLogs (e : LogMaterializerError)
| ApplyLog (e : ApplyMaterializedLogError)
| CommitSegment (e : CommitError).

Definition compact_record_segment (record_reader : option RecordSegmentReader) (record_writer : RecordSegmentWriter)
    (records : Chunk LogRecord) (max_partition_size : nat) : result (RecordSegmentFlusher * Z) CompactionError :=
  let partitions := PartitionOperator_run records max_partition_size in
  match materialize_partitions record_reader partitions (next_max_offset_id record_reader) with
  | (Err e, _, _) => Err (MaterializeLogs e)
  | (Ok outs, reader, _) =>
      match apply_outputs outs 0 (mkApplying reader record_writer) with
      | (Err e, _) => Err (ApplyLog e)
      | (Ok size_delta, st) =>
          let? f := map_err CommitSegment (commit_writer (applying_writer st)) in
          Ok (f, size_delta)
      end
  end.
End Compact.

(** ** The orchestrator *)

Module Orchestrator.

Inductive SegmentWriterKind := RecordWriter | MetadataWriter | VectorWriter.

#[global] Instance SegmentWriterKind_eq_dec : EqDecision SegmentWriterKind.
Proof. solve_decision. Defined.
#[global] Instance SegmentWriterKind_countable : Countable SegmentWriterKind.
Proof.
  refine (inj_countable' (fun k => match k with RecordWriter => 0 | MetadataWriter => 1 | VectorWriter => 2 end%nat)
            (fun n => match n with 0 => RecordWriter | 1 => MetadataWriter | _ => VectorWriter end%nat) _).
  by intros [].
Defined.

(** The tasks that the dispatcher has.  The result of a materialization may be
    empty. *)
Inductive Task :=
| Materialize (is_empty : bool)
| Apply (k : SegmentWriterKind)
| Commit (k : SegmentWriterKind)
| Flush (k : SegmentWriterKind).

Record State := mkState {
  num_uncompleted_materialization_tasks : nat;
  num_uncompleted_tasks_by_segment : gmap SegmentWriterKind nat;
  tasks : list Task;
  (** How often [register] was called. *)
  registrations : nat;
}.

Definition send (l : list Task) (s : State) : State :=
  mkState (num_uncompleted_materialization_tasks s) (num_uncompleted_tasks_by_segment s) (tasks s ++ l) (registrations s).
Definition set_counts (c : gmap SegmentWriterKind nat) (s : State) : State :=
  mkState (num_uncompleted_materialization_tasks s) c (tasks s) (registrations s).
Definition register (s : State) : State :=
  mkState (num_uncompleted_materialization_tasks s) (num_uncompleted_tasks_by_segment s) (tasks s) (S (registrations s)).

(** [terminate_with_result] with an error: no result is handled any more. *)
Definition terminate (s : State) : State :=
  mkState (num_uncompleted_materialization_tasks s) (num_uncompleted_tasks_by_segment s) [] (registrations s).

(** [materialize_log], given which partitions materialize to nothing. *)
Definition materialize_log (partitions : list bool) : State :=
  mkState (length partitions) ∅ (Materialize <$> partitions) 0.

(** One block of [dispatch_apply_log_to_segment_writer_tasks]. *)
Definition dispatch_apply (k : SegmentWriterKind) (s : State) : State :=
  send [Apply k] (set_counts (partial_alter (fun v => Some (match v with Some v => S v | None => 1%nat end)) k
                                (num_uncompleted_tasks_by_segment s)) s).

Definition dispatch_apply_log_to_segment_writer_tasks (s : State) : State :=
  dispatch_apply VectorWriter (dispatch_apply MetadataWriter (dispatch_apply RecordWriter s)).

Definition handle_materialized (is_empty : bool) (s : State) : State :=
  let s :=
    if is_empty then
      if Nat.eqb (num_uncompleted_materialization_tasks s) 1 && bool_decide (num_uncompleted_tasks_by_segment s = ∅)
      then register s else s
    else dispatch_apply_log_to_segment_writer_tasks s in
  mkState (num_uncompleted_materialization_tasks s - 1) (num_uncompleted_tasks_by_segment s) (tasks s) (registrations s).

Definition handle_applied (k : SegmentWriterKind) (s : State) : State :=
  let counts := alter (fun v => v - 1)%nat k (num_uncompleted_tasks_by_segment s) in
  let s := set_counts counts s in
  match counts !! k with
  | None => terminate s
  | Some num_tasks_left =>
      if Nat.eqb num_tasks_left 0 && Nat.eqb (num_uncompleted_materialization_tasks s) 0 then send [Commit k] s else s
  end.

Definition handle_committed (k : SegmentWriterKind) (s : State) : State := send [Flush k] s.

Definition handle_flushed (k : SegmentWriterKind) (s : State) : State :=
  let s := set_counts (base.delete k (num_uncompleted_tasks_by_segment s)) s in
  if bool_decide (num_uncompleted_tasks_by_segment s = ∅) then register s else s.

Definition handle (t : Task) (s : State) : State :=
  match t with
  | Materialize is_empty => handle_materialized is_empty s
  | Apply k => handle_applied k s
  | Commit k => handle_committed k s
  | Flush k => handle_flushed k s
  end.

(** The [i]th of the pending tasks is answered. *)
Definition complete (i : nat) (s : State) : option State :=
  t ← tasks s !! i;
  Some (handle t (mkState (num_uncompleted_materialization_tasks s) (num_uncompleted_tasks_by_segment s)
                    (remove_at i (tasks s)) (registrations s))).

Inductive step : State -> State -> Prop :=
| step_complete i s s' : complete i s = Some s' -> step s s'.

(** The tasks are answered in the order given by their positions. *)
Fixpoint run (order : list nat) (s : State) : option State :=
  match order with
  | [] => Some s
  | i :: order => s' ← complete i s; run order s'
  end.
End Orchestrator.
