(* ===== verification/Instances.v ===== *)
(** * Instances for concrete data

    A store whose ETags are made of the contents, as the ETag of an object that
    was put in one request is; fragments, cursors, markers and UUIDs written by
    the codec, in place of Parquet and JSON; and a log service in memory: the
    server beside an in-memory store, and a run of it with appends to two
    collections, rollups, reads and updates. *)

From S2P Require Import Prelude Setsum Storage Types Paths Effects Codec Manifest Persist Gc Reader ManifestManager BatchManager Cursors.
From S2P Require Import Writer LogWriter Dirty LogService.

#[local] Open Scope Z_scope.

Module HashStore.
Import MemStore.

Definition hash (b : bytes) : ETag := mkETag (String.string_of_list_byte b).
Definition content (p : string) (t : ETag) : bytes := String.list_byte_of_string (e_tag_value t).

Lemma content_hash p b : content p (hash b) = b.
Proof. apply String.list_byte_of_string_of_list_byte. Qed.

Definition put_hashed (k : string) (b : bytes) (o : PutOptions) (w : mem) :
    result (option ETag) StorageError * mem :=
  let '(f, w) := next_fault w in
  let stored := mkMem (<[k := (b, hash b)]> (mem_objects w)) (mem_next_tag w) (mem_script w) (mem_clock w) in
  match f with
  | Lost => (Err Generic, w)
  | _ => if allowedb o (mem_objects w) k then
           (match f with Works => Ok (Some (hash b)) | _ => Err Generic end, stored)
         else (match f with Works => Err (Precondition k) | _ => Err Generic end, w)
  end.

#[export] Instance hash_store : ObjectStore := {|
  world := mem; objects := mem_objects; get_with_e_tag := get; put_bytes := put_hashed; delete := del;
  delete_many := del_many; copy_object := cp; list_prefix := ls; confirm_same := confirm;
  backoff_next := tick; now := tick; system_time := tick;
|}.

#[export] Instance hash_store_laws : ObjectStoreLaws hash_store eq.
Proof.
  destruct mem_store_laws as [? Hget _ Hdel Hcopy Hlist Hb Hn Hs].
  constructor; [apply _|exact Hget| |exact Hdel|exact Hcopy|exact Hlist|exact Hb|exact Hn|exact Hs].
  intros k b o w r w'. cbn. unfold put_hashed. destruct (next_fault w) as [f w1] eqn:Hf.
  apply next_fault_objects in Hf. intros Hput. exists (mem_objects w1).
  split; [done|]. pose proof (allowedb_spec o (mem_objects w1) k) as Hal.
  destruct f; [|by simplify_eq; left|]; destruct (allowedb o (mem_objects w1) k) eqn:Ha; simplify_eq.
  - split; [by apply Hal|]. eauto.
  - split; [|done]. intros Hp. by apply Hal in Hp.
  - right. split; [by apply Hal|]. eauto.
  - by left.
Qed.

#[export] Instance hash_store_tags : ETagLaws hash_store eq content.
Proof.
  constructor; [by intros m m' <-|]. intros k b o w r w'. cbn. unfold put_hashed.
  destruct (next_fault w) as [f w1] eqn:Hf. apply next_fault_objects in Hf. intros Hput Ht. rewrite <- Hf in Ht.
  assert (tagged content (<[k := (b, hash b)]> (mem_objects w1))) as Hs.
  { intros p b' t' [[<- [= <- <-]]|[_ Hl]]%lookup_insert_Some; [apply content_hash|by apply Ht]. }
  destruct f; [|by simplify_eq|]; destruct (allowedb o (mem_objects w1) k); by simplify_eq.
Qed.
End HashStore.

(** ** Evaluation *)

#[global] Instance byte_eq_decision : EqDecision Byte.byte := Byte.byte_eq_dec.

Lemma tagged_iff (c : string -> ETag -> bytes) (m : Objects) :
  tagged c m <-> map_Forall (fun p x => c p x.2 = x.1) m.
Proof. split; [by intros H p [b t] ?%H|]. intros H p b t Hl. exact (H p (b, t) Hl). Qed.

#[local] Open Scope wal_scope.
Import IntSetsum.

#[export] Instance byte_codec : Codec Byte.byte.
Proof.
  apply (iso_codec (fun b => Z.of_N (Byte.to_N b)) (fun z => default Byte.x00 (Byte.of_N (Z.to_N z)))).
  intros b. rewrite N2Z.id, Byte.of_to_N. reflexivity.
Defined.

#[export] Instance cursor_codec : Codec Cursor.
Proof.
  apply (iso_codec (fun c => (cursor_position c, (epoch_us c, cursor_writer c)))
           (fun '(p, (e, w)) => mkCursor p e w)). by intros [].
Defined.

#[export] Instance codec_parquet : Parquet := {|
  parquet_write b := rows ← batch_rows b; Some (Codec.put rows);
  parquet_read bs := rows ← from_slice bs; Some [Some (parquet_batch rows)];
|}.

Lemma batch_rows_parquet rows : batch_rows (parquet_batch rows) = Some rows.
Proof.
  unfold batch_rows, parquet_batch. cbn. f_equal. apply list_eq. intros i. rewrite list_lookup_fmap.
  destruct (decide (i < length rows)%nat) as [Hi|Hi].
  - rewrite lookup_seq_lt by done. cbn. rewrite !list_lookup_fmap.
    destruct (lookup_lt_is_Some_2 rows i Hi) as [[[a b] c] Hx]. by rewrite Hx.
  - rewrite lookup_seq_ge by lia. by rewrite lookup_ge_None_2 by lia.
Qed.

#[export] Instance codec_parquet_laws : ParquetLaws codec_parquet.
Proof.
  constructor. intros b bs rows Hw Hrows. unfold parquet_write, codec_parquet in Hw. rewrite Hrows in Hw. cbn [mbind option_bind] in Hw.
  assert (bs = Codec.put rows) as -> by congruence. clear Hw.
  exists [Some (parquet_batch rows)]. split.
  - unfold parquet_read, codec_parquet. by rewrite (@from_slice_to_vec _ _ codec_serde_laws rows (Codec.put rows) eq_refl).
  - cbn [batches_rows]. rewrite batch_rows_parquet. cbn. by rewrite app_nil_r.
Qed.

#[export] Instance codec_uuids : Uuids := {|
  uuid_to_string u := String.string_of_list_byte (Codec.put u);
  uuid_from_str s := from_slice (String.list_byte_of_string s);
|}.

#[export] Instance codec_uuid_laws : UuidLaws codec_uuids.
Proof.
  constructor. intros u. unfold uuid_from_str, uuid_to_string, codec_uuids. rewrite String.list_byte_of_string_of_list_byte.
  by apply (@from_slice_to_vec _ _ codec_serde_laws).
Qed.

#[export] Instance ETag_codec : Codec ETag.
Proof. apply (iso_codec e_tag_value mkETag). by intros []. Defined.

#[export] Instance Witness_codec : Codec Witness.
Proof. apply (iso_codec (fun w => (witness_e_tag w, witness_cursor w)) (fun '(t, c) => mkWitness t c)). by intros []. Defined.

#[export] Instance ManifestAndETag_codec : Codec ManifestAndETag.
Proof.
  apply (iso_codec (fun x => (stable_manifest x, stable_e_tag x)) (fun '(m, t) => mkManifestAndETag m t)). by intros [].
Defined.

#[export] Instance DirtyMarker_codec : Codec DirtyMarker.
Proof.
  apply (iso_codec
    (fun m => match m with
              | DirtyMark c p n r e => (0, c, p, n, r, e)
              | DirtyPurge c => (1, c, 0, 0, 0, 0)
              | DirtyCleared => (2, 0, 0, 0, 0, 0)
              end)
    (fun '(k, c, p, n, r, e) => if k =? 0 then DirtyMark c p n r e else if k =? 1 then DirtyPurge c else DirtyCleared)).
  by intros [].
Defined.

(** ** The store of a server *)

#[export] Instance map_cache : ServiceCache := {|
  cache_state := gmap string bytes;
  lookup_cached := fun k c => (c !! k, c);
  insert_cached := fun k b c => <[k := b]> c;
  remove_cached := fun k c => base.delete k c;
|}.

(** A request to the base store leaves the server alone. *)
Definition on_base {B S R : Type} (f : B -> R * B) (w : B * S) : R * (B * S) :=
  let '(r, b) := f w.1 in (r, (b, w.2)).

Definition server_store (base : ObjectStore) : ObjectStore := {|
  world := @world base * LogServer;
  objects := fun w => objects w.1;
  get_with_e_tag := fun k => on_base (get_with_e_tag k);
  put_bytes := fun k b o => on_base (put_bytes k b o);
  delete := fun k => on_base (delete k);
  delete_many := fun ks => on_base (delete_many ks);
  copy_object := fun a b => on_base (copy_object a b);
  list_prefix := fun p => on_base (list_prefix p);
  confirm_same := fun k t => on_base (confirm_same k t);
  backoff_next := on_base backoff_next;
  now := on_base now;
  system_time := on_base system_time;
|}.

Lemma server_store_laws base rely : ObjectStoreLaws base rely -> ObjectStoreLaws (server_store base) rely.
Proof.
  intros [? Hget Hput Hdel Hcopy Hlist Hb Hn Hs].
  constructor; [done|..]; cbn; unfold on_base.
  - intros k [w s] r w'. cbn. destruct (get_with_e_tag k w) as [r1 w1] eqn:He. intros [= <- <-]. by apply Hget.
  - intros k b o [w s] r w'. cbn. destruct (put_bytes k b o w) as [r1 w1] eqn:He. intros [= <- <-]. by apply Hput.
  - intros k [w s] r w'. cbn. destruct (delete k w) as [r1 w1] eqn:He. intros [= <- <-]. by apply Hdel.
  - intros a b [w s] r w'. cbn. destruct (copy_object a b w) as [r1 w1] eqn:He. intros [= <- <-]. by apply Hcopy.
  - intros p [w s] r w'. cbn. destruct (list_prefix p w) as [r1 w1] eqn:He. intros [= <- <-]. by apply Hlist.
  - intros [w s]. cbn. specialize (Hb w). by destruct (backoff_next w).
  - intros [w s]. cbn. specialize (Hn w). by destruct (now w).
  - intros [w s]. cbn. specialize (Hs w). by destruct (system_time w).
Qed.

Lemma server_store_tags base rely content : ETagLaws base rely content -> ETagLaws (server_store base) rely content.
Proof.
  intros [Hrely Hput]. constructor; [done|]. cbn. unfold on_base. intros k b o [w s] r w'. cbn.
  destruct (put_bytes k b o w) as [r1 w1] eqn:He. intros [= <- <-]. by eapply Hput.
Qed.

Module ServiceSample.
Import MemStore HashStore.

#[export] Instance service_store : ObjectStore := server_store hash_store.
#[export] Instance service_laws : ObjectStoreLaws service_store eq := server_store_laws hash_store eq _.

#[export] Instance service_tags : ETagLaws service_store eq content := server_store_tags hash_store eq content _.

#[export] Instance has_server : HasServer := {|
  server := fun w : @world service_store => w.2;
  set_server := fun s w => (w.1, s);
|}.

#[export] Instance byte_records : OperationRecords := {|
  OperationRecord := bytes;
  encode_record := Some;
  decode_record := Some;
|}.

Definition options : LogWriterOptions :=
  mkLogWriterOptions (mkThrottleOptions 1000 100 10000 5000) (mkThrottleOptions 1000 100 10000 5000)
    (mkSnapshotOptions 2 2).
Definition settings : LogServerConfig := mkLogServerConfig "host" false options 3 10 1000000.

Definition idle : LogServer := mkLogServer settings ∅ None ∅ ∅ (Some ∅).
Definition nothing : world := (mkMem ∅ 0 [] 0, idle).
Definition FUEL : nat := 5.

(** The server after [LogServer_new]. *)
Definition started : world :=
  match LogServer_new FUEL settings (Some ∅) nothing with
  | (Ret s, w) => set_server s w
  | (_, w) => w
  end.

Definition id_a : CollectionUuid := 1.
Definition id_b : CollectionUuid := 2.
Definition name (c : CollectionUuid) : string := uuid_to_string c.
Definition record (s : string) : bytes := String.list_byte_of_string s.

Definition push (c : CollectionUuid) (l : list string) (w : world) : res (result PushLogsResponse Code) * world :=
  push_logs FUEL (name c) (List.map record l) w.

(** Two records for one collection, then one for another. *)
Definition pushed_a := push id_a ["one"; "two"] started.
Definition pushed_b := push id_b ["three"] pushed_a.2.
Definition filled : world := pushed_b.2.
Definition rolled := roll_dirty_log FUEL filled.
Definition pulled := pull_logs FUEL (mkPullLogsRequest (name id_a) 1 2) filled.
Definition scouted := scout_logs (name id_a) filled.
Definition updated := update_collection_log_offset FUEL (name id_a) 1 rolled.2.
Definition to_compact (w : world) := get_all_collection_info_to_compact 1 w.

(** The first read of a dirty fragment fails. *)
Definition with_script (l : list fault) (w : world) : world :=
  (mkMem (mem_objects w.1) (mem_next_tag w.1) l (mem_clock w.1), w.2).
End ServiceSample.
