(* ===== verification/ManifestFacts.v ===== *)
(** * What the manifest operations guarantee

    The invariant of a manifest in declarative form, its equivalence with the
    executable scrub, and the theorems about applying fragments, snapshots and
    garbage. *)

From S2P Require Import Prelude Setsum Storage Types Paths Manifest.

#[local] Open Scope Z_scope.
#[local] Open Scope wal_scope.

(** ** Extremes of a chain *)

Section ChainExtremes.
Context {A : Type} (iv : A -> Z * Z) (st lm : A -> LogPosition).
Context (iv_eq : forall a, iv a = (offset (st a), offset (lm a))).

Lemma chain_min_start s l e :
  chain s (iv <$> l) e -> l <> [] -> min_by_key offset (st <$> l) = Some (from_offset s).
Proof using iv_eq.
  intros Hc Hne. destruct l as [|a l]; [done|]. rewrite fmap_cons in Hc. rewrite fmap_cons.
  rewrite iv_eq in Hc. inversion Hc; subst.
  rewrite min_by_key_head; [by destruct (st a)|].
  intros y (b & -> & Hb)%list_elem_of_fmap.
  assert (iv b ∈ iv <$> l) as Hin by (by apply list_elem_of_fmap_2).
  rewrite iv_eq in Hin. eapply chain_bounds in Hin; [|done]. lia.
Qed.

Lemma chain_max_limit s l e :
  chain s (iv <$> l) e -> l <> [] -> max_by_key offset (lm <$> l) = Some (from_offset e).
Proof using iv_eq.
  intros Hc Hne. destruct l as [|a l _] using rev_ind; [done|].
  rewrite fmap_app in Hc. rewrite fmap_app. apply chain_app in Hc as (m & Hc & Ha). cbn in Ha.
  rewrite iv_eq in Ha. inversion Ha as [|? ? ? ? ? Hnil]; subst. apply chain_nil_inv in Hnil.
  cbn [fmap list_fmap]. rewrite max_by_key_last; [rewrite <- Hnil; by destruct (lm a)|].
  intros y (b & -> & Hb)%list_elem_of_fmap.
  assert (iv b ∈ iv <$> l) as Hin by (by apply list_elem_of_fmap_2).
  rewrite iv_eq in Hin. eapply chain_bounds in Hin; [|done]. lia.
Qed.

(** Adjacency of neighbours, with non-empty intervals, is a chain. *)
Lemma windows_chain l a :
  (forall x, x ∈ a :: l -> offset (st x) < offset (lm x)) ->
  existsb (fun '(x, y) => bool_decide (lm x <> st y)) (windows (a :: l)) = false ->
  exists e, chain (offset (st a)) (iv <$> a :: l) e.
Proof using iv_eq.
  revert a. induction l as [|b l IH]; intros a Hlt Hw.
  - exists (offset (lm a)). cbn. rewrite iv_eq. repeat constructor. apply Hlt. set_solver.
  - cbn in Hw. apply orb_false_iff in Hw as [Hab Hw].
    apply bool_decide_eq_false in Hab. assert (lm a = st b) as Hab' by (by apply dec_stable).
    destruct (IH b) as [e He]; [set_solver|exact Hw|].
    exists e. rewrite fmap_cons, iv_eq, Hab'. constructor; [|done].
    rewrite <- Hab'. apply Hlt. set_solver.
Qed.

Lemma chain_windows s l e :
  chain s (iv <$> l) e ->
  existsb (fun '(x, y) => bool_decide (lm x <> st y)) (windows l) = false.
Proof using iv_eq.
  revert s. induction l as [|a l IH]; intros s Hc; [done|].
  destruct l as [|b l]; [done|]. cbn in Hc. rewrite !iv_eq in Hc.
  inversion Hc as [|? ? ? ? ? Hc']; subst.
  cbn. apply orb_false_iff. split.
  - inversion Hc'; subst. apply bool_decide_eq_false. intros Hneq; apply Hneq.
    by apply LogPosition_eq.
  - apply (IH (offset (lm a))). cbn. by rewrite iv_eq.
Qed.
End ChainExtremes.

(** ** The manifest invariant *)

Section Invariant.
Context {SS : SetsumSig}.

Definition ptr_iv (p : SnapshotPointer) : Z * Z := (offset (ptr_start p), offset (ptr_limit p)).
Definition frag_iv (f : Fragment) : Z * Z := (offset (frag_start f), offset (frag_limit f)).

(** The intervals of snapshots followed by those of fragments. *)
Definition intervals (ps : list SnapshotPointer) (fs : list Fragment) : list (Z * Z) :=
  (ptr_iv <$> ps) ++ (frag_iv <$> fs).

Definition nonempty_intervals (ps : list SnapshotPointer) (fs : list Fragment) : Prop :=
  Forall (fun iv => iv.1 < iv.2) (intervals ps fs).

(** The invariants the README lists for a manifest, apart from sequence
    numbers: the setsums balance and the intervals are non-empty and tile the
    log from its oldest position to its next one. *)
Record manifest_ok (m : Manifest) : Prop := {
  ok_setsum : setsum m = setsum_of ptr_setsum (snapshots m) +ₛ setsum_of frag_setsum (fragments m)
                         +ₛ collected m;
  ok_chain : chain (offset (oldest_timestamp m)) (intervals (snapshots m) (fragments m))
               (offset (next_write_timestamp m));
  ok_initial : forall o, initial_offset m = Some o -> o = oldest_timestamp m;
}.

(** [adjoining l]: every interval ends where the next one starts. *)
Definition adjoining (l : list (Z * Z)) : Prop :=
  forall i x y, l !! i = Some x -> l !! S i = Some y -> x.2 = y.1.

(** What a scrub promises of a manifest: the balance of the setsums, adjoining
    intervals, which may be empty or even end before they start, and an initial
    offset that is the oldest position. *)
Record scrubbed (m : Manifest) : Prop := {
  scrubbed_setsum : setsum m = setsum_of ptr_setsum (snapshots m)
                      +ₛ setsum_of frag_setsum (fragments m) +ₛ collected m;
  scrubbed_joined : adjoining (intervals (snapshots m) (fragments m));
  scrubbed_initial : forall o, initial_offset m = Some o -> o = oldest_timestamp m;
}.

(** [seqs_from n l]: the fragments carry the consecutive sequence numbers
    [n], [n + 1], ... *)
Fixpoint seqs_from (n : Z) (l : list Fragment) : Prop :=
  match l with
  | [] => True
  | f :: l => fsn (frag_seq_no f) = n /\ seqs_from (n + 1) l
  end.
End Invariant.
#[global] Arguments intervals {SS} ps fs : simpl never.

Section Facts.
Context {SS : SetsumSig} {SL : SetsumLaws SS}.

Lemma intervals_nil ps fs : intervals ps fs = [] <-> ps = [] /\ fs = [].
Proof. unfold intervals. destruct ps, fs; cbn; naive_solver. Qed.

Lemma intervals_app ps1 ps2 fs :
  intervals (ps1 ++ ps2) fs = (ptr_iv <$> ps1) ++ intervals ps2 fs.
Proof. unfold intervals. by rewrite fmap_app, app_assoc. Qed.

Lemma intervals_split ps1 ps2 fs1 fs2 :
  intervals (ps1 ++ ps2) (fs1 ++ fs2) =
  (ptr_iv <$> ps1) ++ intervals ps2 fs1 ++ (frag_iv <$> fs2).
Proof. unfold intervals. by rewrite !fmap_app, !app_assoc. Qed.

Lemma oldest_of_chain s ps fs e d :
  chain s (intervals ps fs) e -> intervals ps fs <> [] ->
  oldest_of (frag_start <$> fs) (ptr_start <$> ps) d = from_offset s.
Proof.
  unfold intervals, oldest_of. intros Hc Hne.
  pose proof Hc as (m & Hps & Hfs)%chain_app.
  destruct (decide (fs = [])) as [->|Hf]; destruct (decide (ps = [])) as [->|Hp]; [done| | |].
  - rewrite (chain_min_start ptr_iv ptr_start ptr_limit (fun _ => eq_refl) s ps m); done.
  - apply chain_nil_inv in Hps as <-.
    rewrite (chain_min_start frag_iv frag_start frag_limit (fun _ => eq_refl) s fs e); done.
  - rewrite (chain_min_start frag_iv frag_start frag_limit (fun _ => eq_refl) m fs e) by done.
    rewrite (chain_min_start ptr_iv ptr_start ptr_limit (fun _ => eq_refl) s ps m) by done.
    simpl. f_equal. apply chain_le in Hps. lia.
Qed.

Lemma newest_of_chain s ps fs e d :
  chain s (intervals ps fs) e -> intervals ps fs <> [] ->
  newest_of (frag_limit <$> fs) (ptr_limit <$> ps) d = from_offset e.
Proof.
  unfold intervals, newest_of. intros Hc Hne.
  pose proof Hc as (m & Hps & Hfs)%chain_app.
  destruct (decide (fs = [])) as [->|Hf]; destruct (decide (ps = [])) as [->|Hp]; [done| | |].
  - apply chain_nil_inv in Hfs as <-.
    rewrite (chain_max_limit ptr_iv ptr_start ptr_limit (fun _ => eq_refl) s ps m); done.
  - rewrite (chain_max_limit frag_iv frag_start frag_limit (fun _ => eq_refl) m fs e); done.
  - rewrite (chain_max_limit frag_iv frag_start frag_limit (fun _ => eq_refl) m fs e) by done.
    rewrite (chain_max_limit ptr_iv ptr_start ptr_limit (fun _ => eq_refl) s ps m) by done.
    simpl. f_equal. apply chain_le in Hfs. lia.
Qed.

(** Any chain over the intervals of a manifest runs from its oldest position
    to its next one. *)
Lemma manifest_chain_ends m s e :
  chain s (intervals (snapshots m) (fragments m)) e ->
  intervals (snapshots m) (fragments m) <> [] ->
  oldest_timestamp m = from_offset s /\ next_write_timestamp m = from_offset e.
Proof.
  intros Hc Hne. split; [eapply oldest_of_chain|eapply newest_of_chain]; done.
Qed.

Lemma oldest_next_empty m :
  intervals (snapshots m) (fragments m) = [] ->
  oldest_timestamp m = default (from_offset 1) (initial_offset m) /\
  next_write_timestamp m = default (from_offset 1) (initial_offset m).
Proof.
  intros [Hs Hf]%intervals_nil. unfold oldest_timestamp, next_write_timestamp.
  by rewrite Hs, Hf.
Qed.

(** The setsum and byte count a scrub computes. *)
Lemma scrub_sum m :
  foldl (fun acc f => acc +ₛ frag_setsum f)
    (foldl (fun acc p => acc +ₛ ptr_setsum p) setsum_default (snapshots m)) (fragments m)
  = setsum_of ptr_setsum (snapshots m) +ₛ setsum_of frag_setsum (fragments m).
Proof. by rewrite setsum_foldl_acc. Qed.

Lemma chain_nonempty s l e : chain s l e -> Forall (fun iv => iv.1 < iv.2) l.
Proof. induction 1; constructor; auto. Qed.

Lemma scrub_complete m : manifest_ok m -> is_ok (scrub m).
Proof.
  intros [Hsum Hc Hi]. unfold scrub. rewrite scrub_sum.
  rewrite bool_decide_eq_false_2 by (intros H; by apply H).
  pose proof Hc as (mid & Hps & Hfs)%chain_app.
  rewrite (chain_windows ptr_iv ptr_start ptr_limit (fun _ => eq_refl) _ _ _ Hps).
  rewrite (chain_windows frag_iv frag_start frag_limit (fun _ => eq_refl) _ _ _ Hfs).
  replace (match last (snapshots m) with Some _ => _ | None => _ end) with false; [|symmetry].
  - replace (match initial_offset m with Some _ => _ | None => _ end) with false; [by eexists|].
    destruct (initial_offset m) as [o|]; [|done]. symmetry. apply bool_decide_eq_false.
    intros Hneq. apply Hneq. by apply Hi.
  - destruct (last (snapshots m)) as [p|] eqn:Hl; [|done].
    apply last_Some in Hl as [l Hl]. destruct (fragments m) as [|f fs]; [done|]. cbn.
    rewrite Hl, fmap_app in Hps. apply chain_app in Hps as (mid' & _ & Hp).
    cbn in Hp, Hfs. inversion Hp as [|? ? ? ? ? Hnil]; subst. apply chain_nil_inv in Hnil.
    inversion Hfs; subst. apply bool_decide_eq_false. intros Hneq; apply Hneq. by apply LogPosition_eq.
Qed.

Lemma scrub_sound m :
  nonempty_intervals (snapshots m) (fragments m) -> is_ok (scrub m) -> manifest_ok m.
Proof.
  intros Hne [ss Hok]. unfold scrub in Hok. rewrite scrub_sum in Hok.
  destruct (bool_decide (setsum m <> _)) eqn:Hsum in Hok; [done|].
  destruct (existsb _ (windows (snapshots m))) eqn:Hws in Hok; [done|].
  destruct (existsb _ (windows (fragments m))) eqn:Hwf in Hok; [done|].
  destruct (match last (snapshots m) with Some _ => _ | None => _ end) eqn:Hsf in Hok; [done|].
  destruct (match initial_offset m with Some _ => _ | None => _ end) eqn:Hio in Hok; [done|].
  assert (exists s e, chain s (intervals (snapshots m) (fragments m)) e) as (s & e & Hc).
  { unfold nonempty_intervals, intervals in Hne |- *. apply Forall_app in Hne as [Hps Hfs].
    assert (snapshots m = [] \/ exists s e, chain s (ptr_iv <$> snapshots m) e) as Hcs.
    { destruct (snapshots m) as [|p ps]; [by left|right]. eexists.
      apply (windows_chain ptr_iv ptr_start ptr_limit (fun _ => eq_refl)); [|done].
      intros x Hx. rewrite Forall_fmap, Forall_forall in Hps. apply (Hps x Hx). }
    assert (fragments m = [] \/ exists s e, chain s (frag_iv <$> fragments m) e) as Hcf.
    { destruct (fragments m) as [|f fs]; [by left|right]. eexists.
      apply (windows_chain frag_iv frag_start frag_limit (fun _ => eq_refl)); [|done].
      intros x Hx. rewrite Forall_fmap, Forall_forall in Hfs. apply (Hfs x Hx). }
    destruct Hcs as [->|(s & e & Hcs)], Hcf as [->|(s' & e' & Hcf)].
    - exists 0, 0. constructor.
    - exists s', e'. done.
    - exists s, e. by rewrite app_nil_r.
    - destruct (snapshots m) as [|p ps _] using rev_ind.
      { apply chain_nil_inv in Hcs as ->. by exists s', e'. }
      rewrite last_snoc in Hsf. destruct (fragments m) as [|f fs].
      { exists s, e. by rewrite app_nil_r. }
      exists s, e'. apply chain_app. exists s'. split; [|done].
      simpl in Hsf. apply bool_decide_eq_false in Hsf.
      assert (ptr_limit p = frag_start f) as Hpf by (by apply dec_stable).
      rewrite fmap_app in Hcs |- *. apply chain_app in Hcs as (mid & Hc1 & Hc2).
      apply chain_app. exists mid. split; [done|].
      cbn in Hc2, Hcf |- *. inversion Hcf; subst. rewrite <- Hpf.
      inversion Hc2 as [|? ? ? ? ? Hnil]; subst. apply chain_nil_inv in Hnil as <-. done. }
  constructor.
  - apply bool_decide_eq_false in Hsum. by apply dec_stable.
  - destruct (decide (intervals (snapshots m) (fragments m) = [])) as [Hnil|Hnil].
    + destruct (oldest_next_empty m Hnil) as [-> ->]. rewrite Hnil. constructor.
    + by destruct (manifest_chain_ends m s e Hc Hnil) as [-> ->].
  - intros o Ho. rewrite Ho in Hio. apply bool_decide_eq_false in Hio. by apply dec_stable.
Qed.

(** ** A scrub, whatever the intervals *)

Lemma adjoining_cons x y l : adjoining (x :: y :: l) <-> x.2 = y.1 /\ adjoining (y :: l).
Proof.
  split.
  - intros H. split; [by apply (H 0%nat)|]. intros i. apply (H (S i)).
  - intros [Hxy Hl] [|i] a b Ha Hb; [by simplify_eq/=|]. by apply (Hl i).
Qed.

Lemma adjoining_short l : (length l <= 1)%nat -> adjoining l.
Proof. intros Hl i x y _ Hy. apply lookup_lt_Some in Hy. lia. Qed.

Lemma adjoining_app l1 l2 :
  adjoining (l1 ++ l2) <->
  adjoining l1 /\ adjoining l2 /\
  (forall x y, last l1 = Some x -> head l2 = Some y -> x.2 = y.1).
Proof.
  induction l1 as [|a [|b l1] IH].
  - cbn. split; [|naive_solver]. intros H. split_and!; [by apply adjoining_short; cbn; lia|done|done].
  - destruct l2 as [|c l2]; cbn [app].
    + split; [intros H; split_and!; [done|by apply adjoining_short; cbn; lia|done]|naive_solver].
    + rewrite adjoining_cons. split.
      * intros [? ?]. split_and!; [by apply adjoining_short|done|]. intros x y [= <-] [= <-]. done.
      * intros (_ & ? & H). split; [by apply H|done].
  - change ((a :: b :: l1) ++ l2) with (a :: b :: (l1 ++ l2)). rewrite !adjoining_cons.
    change (b :: l1 ++ l2) with ((b :: l1) ++ l2). rewrite IH.
    change (last (a :: b :: l1)) with (last (b :: l1)). tauto.
Qed.

Lemma windows_adjoining {A} (iv : A -> Z * Z) (st lm : A -> LogPosition) l :
  (forall a, iv a = (offset (st a), offset (lm a))) ->
  existsb (fun '(x, y) => bool_decide (lm x <> st y)) (windows l) = false <-> adjoining (iv <$> l).
Proof.
  intros Hiv. induction l as [|a [|b l] IH]; [split; [intros _; apply adjoining_short; cbn; lia|done]..|].
  cbn [fmap list_fmap]. rewrite adjoining_cons, <- IH, !Hiv. cbn.
  rewrite orb_false_iff, bool_decide_eq_false. split; intros [H ?]; (split; [|done]).
  - f_equal. by apply dec_stable.
  - intros Hn; apply Hn. by apply LogPosition_eq.
Qed.

Lemma scrub_scrubbed m : is_ok (scrub m) <-> scrubbed m.
Proof.
  assert (scrubbed m <->
    setsum m = setsum_of ptr_setsum (snapshots m) +ₛ setsum_of frag_setsum (fragments m) +ₛ collected m /\
    adjoining (ptr_iv <$> snapshots m) /\ adjoining (frag_iv <$> fragments m) /\
    (forall x y, last (snapshots m) = Some x -> head (fragments m) = Some y -> ptr_limit x = frag_start y) /\
    (forall o, initial_offset m = Some o -> o = oldest_timestamp m)) as ->.
  { split.
    - intros [? Hj ?]. apply adjoining_app in Hj as (? & ? & Hj). split_and!; try done.
      intros x y Hx Hy. apply LogPosition_eq.
      apply (Hj (ptr_iv x) (frag_iv y)); [by rewrite fmap_last, Hx|].
      destruct (fragments m); by simplify_eq/=.
    - intros (? & ? & ? & Hj & ?). constructor; try done. apply adjoining_app. split_and!; try done.
      intros x y. rewrite fmap_last. destruct (last (snapshots m)); [|done]. intros [= <-].
      destruct (fragments m); [done|]. intros [= <-]. cbn. f_equal. by apply Hj. }
  rewrite <- (windows_adjoining ptr_iv ptr_start ptr_limit), <- (windows_adjoining frag_iv frag_start frag_limit) by done.
  unfold scrub. rewrite scrub_sum. split.
  - intros [ss Hok].
    destruct (bool_decide (setsum m <> _)) eqn:Hsum in Hok; [done|].
    destruct (existsb _ (windows (snapshots m))) eqn:Hws in Hok; [done|].
    destruct (existsb _ (windows (fragments m))) eqn:Hwf in Hok; [done|].
    destruct (match last (snapshots m) with Some _ => _ | None => _ end) eqn:Hsf in Hok; [done|].
    destruct (match initial_offset m with Some _ => _ | None => _ end) eqn:Hio in Hok; [done|].
    apply bool_decide_eq_false, dec_stable in Hsum. split_and!; try done.
    + intros x y Hx Hy. rewrite Hx, Hy in Hsf. by apply bool_decide_eq_false, dec_stable in Hsf.
    + intros o Ho. rewrite Ho in Hio. by apply bool_decide_eq_false, dec_stable in Hio.
  - intros (Hsum & -> & -> & Hj & Hi). rewrite bool_decide_eq_false_2 by (intros Hn; by apply Hn).
    replace (match last (snapshots m) with Some _ => _ | None => _ end) with false; [|symmetry].
    2: { destruct (last _) as [x|] eqn:Hx; [|done]. destruct (head _) as [y|] eqn:Hy; [|done].
         apply bool_decide_eq_false. intros Hn; apply Hn. by apply Hj. }
    replace (match initial_offset m with Some _ => _ | None => _ end) with false; [by eexists|symmetry].
    destruct (initial_offset m) as [o|]; [|done]. apply bool_decide_eq_false. intros Hn; apply Hn. by apply Hi.
Qed.

(** ** Sequence numbers *)

Lemma seqs_from_app n l1 l2 :
  seqs_from n (l1 ++ l2) <-> seqs_from n l1 /\ seqs_from (n + Z.of_nat (length l1)) l2.
Proof.
  revert n. induction l1 as [|f l1 IH]; intros n; cbn.
  - rewrite Z.add_0_r. tauto.
  - rewrite IH, Nat2Z.inj_succ. replace (n + 1 + _) with (n + Z.succ (Z.of_nat (length l1))) by lia. tauto.
Qed.

Lemma seqs_from_elem n l f :
  seqs_from n l -> f ∈ l -> n <= fsn (frag_seq_no f) < n + Z.of_nat (length l).
Proof.
  revert n. induction l as [|g l IH]; intros n; cbn; [set_solver|].
  intros [Hg Hl] [->|Hin]%elem_of_cons; [lia|]. specialize (IH _ Hl Hin). lia.
Qed.

(** The greatest sequence number of consecutive ones is the last. *)
Lemma max_seq_no_last m n l f :
  fragments m = l ++ [f] -> seqs_from n (l ++ [f]) -> max_seq_no m = Some (frag_seq_no f).
Proof.
  intros Hm Hs. unfold max_seq_no. rewrite Hm, fmap_app. cbn [fmap list_fmap].
  apply max_by_key_last. intros y (g & -> & Hg)%list_elem_of_fmap.
  apply seqs_from_app in Hs as [Hl [Hf _]]. apply (seqs_from_elem _ _ _ Hl) in Hg. lia.
Qed.

Lemma next_fragment_seq_no_seqs m n :
  seqs_from n (fragments m) -> fragments m <> [] -> 0 <= n ->
  n + Z.of_nat (length (fragments m)) <= u64_max ->
  next_fragment_seq_no m = Some (mkSeqNo (n + Z.of_nat (length (fragments m)))).
Proof.
  intros Hs Hne Hn Hmax. destruct (exists_last Hne) as (l & f & Em). rewrite Em in *.
  pose proof (max_seq_no_last m n l f Em Hs) as Hm.
  unfold next_fragment_seq_no. rewrite Hm.
  apply seqs_from_app in Hs as [_ [Hf _]]. rewrite length_app in *. cbn in *.
  unfold FragmentSeqNo.ltb, FragmentSeqNo.add. cbn. rewrite Hf.
  rewrite wrapping_add_small by (unfold is_u64; lia).
  destruct (Z.ltb_spec (n + Z.of_nat (length l)) (n + Z.of_nat (length l) + 1)); [|lia]. do 2 f_equal. lia.
Qed.

(** ** Depths and snapshot paths *)

Lemma max_depth_le d l : 0 <= d -> Forall (fun p => ptr_depth p <= d) l -> max_depth l <= d.
Proof.
  intros Hd Hl. unfold max_depth. destruct (max_by_key id (ptr_depth <$> l)) as [x|] eqn:E; [|done].
  apply max_by_key_Some in E as [(p & -> & Hp)%list_elem_of_fmap _].
  rewrite Forall_forall in Hl. apply (Hl p Hp).
Qed.

Lemma max_depth_ge p l : p ∈ l -> ptr_depth p <= max_depth l.
Proof.
  intros Hp. unfold max_depth. destruct (max_by_key id (ptr_depth <$> l)) as [x|] eqn:E.
  - apply max_by_key_Some in E as [_ Hle]. apply (Hle (ptr_depth p)). by apply list_elem_of_fmap_2.
  - apply max_by_key_None, fmap_nil_inv in E as ->. set_solver.
Qed.

Lemma snapshot_setsum_path s : snapshot_setsum (unprefixed_snapshot_path s) = Ok s.
Proof.
  unfold snapshot_setsum, unprefixed_snapshot_path.
  rewrite string_app_assoc. change (snapshot_prefix +:+ "SNAPSHOT.") with "snapshot/SNAPSHOT.".
  by rewrite strip_prefix_app, hexdigest_from.
Qed.

(** A snapshot with a canonical path and setsum, a depth above its children's
    and children of one kind passes its scrub. *)
Lemma snap_scrub_complete s :
  snap_fragments s = [] \/ snap_snapshots s = [] ->
  max_depth (snap_snapshots s) < snap_depth s ->
  snap_setsum s = setsum_of ptr_setsum (snap_snapshots s) +ₛ setsum_of frag_setsum (snap_fragments s) ->
  snap_path s = unprefixed_snapshot_path (snap_setsum s) ->
  is_ok (snap_scrub s).
Proof.
  intros Hkind Hdepth Hsum Hpath. unfold snap_scrub.
  assert (bool_decide (snap_fragments s <> []) && bool_decide (snap_snapshots s <> []) = false) as ->.
  { apply andb_false_iff. rewrite !bool_decide_eq_false. destruct Hkind as [->| ->]; [left|right]; intros Hx; by apply Hx. }
  destruct (Z.leb_spec (snap_depth s) (max_depth (snap_snapshots s))); [lia|].
  rewrite setsum_foldl_acc. change (foldl _ setsum_default ?l) with (setsum_of ptr_setsum l).
  rewrite <- Hsum, bool_decide_eq_false_2 by (intros Hx; by apply Hx).
  rewrite Hpath, snapshot_setsum_path, bool_decide_eq_false_2 by (intros Hx; by apply Hx).
  by eexists.
Qed.

(** ** Applying a fragment *)

Lemma can_apply_nonempty m f : can_apply_fragment m f = true -> offset (frag_start f) < offset (frag_limit f).
Proof. by intros [_ ?%Z.ltb_lt]%andb_true_iff. Qed.

Lemma apply_fragment_ok m f :
  manifest_ok m -> offset (frag_start f) < offset (frag_limit f) ->
  frag_start f = next_write_timestamp m ->
  manifest_ok (apply_fragment m f) /\
  oldest_timestamp (apply_fragment m f) = oldest_timestamp m /\
  next_write_timestamp (apply_fragment m f) = frag_limit f.
Proof.
  intros [Hsum Hc Hi] Hlt Hstart.
  set (m' := apply_fragment m f).
  assert (chain (offset (oldest_timestamp m)) (intervals (snapshots m') (fragments m'))
            (offset (frag_limit f))) as Hc'.
  { unfold intervals in *. cbn. rewrite fmap_app, app_assoc. apply chain_app.
    exists (offset (next_write_timestamp m)). split; [done|]. cbn. rewrite <- Hstart.
    by repeat constructor. }
  assert (intervals (snapshots m') (fragments m') <> []) as Hne.
  { intros [_ Hnil]%intervals_nil. cbn in Hnil. by apply app_nil in Hnil as [_ ?]. }
  destruct (manifest_chain_ends m' _ _ Hc' Hne) as [Ho Hn].
  assert (oldest_timestamp m' = oldest_timestamp m) as Ho' by (rewrite Ho; by destruct (oldest_timestamp m)).
  assert (next_write_timestamp m' = frag_limit f) as Hn' by (rewrite Hn; by destruct (frag_limit f)).
  split; [|done]. constructor.
  - cbn. rewrite Hsum, setsum_of_app, setsum_of_singleton.
    rewrite <- !setsum_add_assoc. do 2 f_equal. apply setsum_add_comm.
  - by rewrite Ho', Hn'.
  - intros o Ho''. rewrite Ho'. by apply Hi.
Qed.
End Facts.
