(* ===== verification/Rollup.v ===== *)
(** * Rolling a manifest up into snapshots

    [Manifest::generate_snapshot] followed by [Manifest::apply_snapshot]: when
    the depths of the snapshots follow the discipline that repeated rollups
    with the same thresholds maintain, the snapshot always applies and the
    manifest still describes the same log. *)

From S2P Require Import Prelude Setsum Storage Types Paths Manifest ManifestFacts.

#[local] Open Scope Z_scope.
#[local] Open Scope wal_scope.

Section Depths.
Context {SS : SetsumSig}.

Definition deeper (d : Z) (ps : list SnapshotPointer) := filter (fun p => d < ptr_depth p) ps.
Definition at_depth (d : Z) (ps : list SnapshotPointer) := filter (fun p => ptr_depth p = d) ps.
Definition shallower (d : Z) (ps : list SnapshotPointer) := filter (fun p => ptr_depth p < d) ps.

(** The depth discipline for the snapshot threshold [T]: depths do not
    increase from left to right, no depth occurs more than [T] times, and
    only the shallowest may occur [T] times. *)
Record depth_inv (T : nat) (ps : list SnapshotPointer) : Prop := {
  depth_sorted : StronglySorted (fun p q => ptr_depth q <= ptr_depth p) ps;
  depth_range : Forall (fun p => 1 <= ptr_depth p) ps;
  depth_count : forall d, (length (at_depth d ps) <= T)%nat;
  depth_full : forall d, shallower d ps <> [] -> (length (at_depth d ps) < T)%nat;
}.
End Depths.

Section Facts.
Context {SS : SetsumSig} {SL : SetsumLaws SS}.

Lemma depth_split d ps :
  StronglySorted (fun p q => ptr_depth q <= ptr_depth p) ps ->
  ps = deeper d ps ++ at_depth d ps ++ shallower d ps.
Proof.
  unfold deeper, at_depth, shallower.
  induction 1 as [|p ps Hs IH Hp]; [done|].
  assert (forall P : SnapshotPointer -> Prop, forall `{!forall x, Decision (P x)},
             (forall q, q ∈ ps -> ~ P q) -> filter P ps = []) as Hnil.
  { clear. intros P HP Hno. induction ps as [|q ps IH]; [done|].
    rewrite filter_cons_False by (apply Hno; set_solver). apply IH. set_solver. }
  rewrite Forall_forall in Hp.
  destruct (Z.lt_trichotomy d (ptr_depth p)) as [Hlt|[Heq|Hlt]].
  - rewrite filter_cons_True, filter_cons_False, filter_cons_False by lia.
    cbn. f_equal. exact IH.
  - rewrite filter_cons_False, filter_cons_True, filter_cons_False by lia.
    rewrite (Hnil (fun p => d < ptr_depth p)) in IH |- *; [|intros q Hq; specialize (Hp q Hq); lia..].
    cbn in *. f_equal. exact IH.
  - rewrite filter_cons_False, filter_cons_False, filter_cons_True by lia.
    rewrite (Hnil (fun p => d < ptr_depth p)) in IH |- *; [|intros q Hq; specialize (Hp q Hq); lia..].
    rewrite (Hnil (fun p => ptr_depth p = d)) in IH |- *; [|intros q Hq; specialize (Hp q Hq); lia..].
    cbn in *. f_equal. exact IH.
Qed.

(** ** The inner loop *)

Lemma take_depth_shallower d T l1 l2 acc sum :
  Forall (fun p => ptr_depth p < d) l1 ->
  take_depth d T (l1 ++ l2) acc sum = take_depth d T l2 acc sum.
Proof.
  induction 1 as [|p l1 Hp _ IH]; [done|]. cbn.
  destruct (Z.ltb_spec (ptr_depth p) d); [done|lia].
Qed.

Lemma take_depth_equal d T l1 l2 acc sum :
  Forall (fun p => ptr_depth p = d) l1 ->
  Forall (fun p => d < ptr_depth p) l2 ->
  take_depth d T (l1 ++ l2) acc sum =
  (acc ++ take (T - length acc) l1, sum +ₛ setsum_of ptr_setsum (take (T - length acc) l1)).
Proof.
  intros H1 H2. revert acc sum. induction H1 as [|p l1 Hp H1 IH]; intros acc sum.
  - rewrite take_nil, app_nil_r, setsum_of_nil, setsum_default_r. cbn.
    destruct H2 as [|p l2 Hp _]; [done|]. cbn.
    destruct (Z.ltb_spec (ptr_depth p) d); [lia|].
    destruct (Z.eqb_spec (ptr_depth p) d); [lia|]. done.
  - cbn. destruct (Z.ltb_spec (ptr_depth p) d); [lia|].
    destruct (Z.eqb_spec (ptr_depth p) d); [|lia]. cbn.
    destruct (Nat.ltb_spec (length acc) T) as [Hlt|Hge].
    + rewrite IH, length_app. cbn.
      replace (T - length acc)%nat with (S (T - (length acc + 1)))%nat by lia. cbn.
      rewrite setsum_of_cons, <- app_assoc, setsum_add_assoc. done.
    + replace (T - length acc)%nat with 0%nat by lia. cbn.
      by rewrite app_nil_r, setsum_of_nil, setsum_default_r.
Qed.

Lemma Forall_deeper d ps : Forall (fun p => d < ptr_depth p) (deeper d ps).
Proof. apply Forall_forall. by intros p [Hp _]%list_elem_of_filter. Qed.
Lemma Forall_at_depth d ps : Forall (fun p => ptr_depth p = d) (at_depth d ps).
Proof. apply Forall_forall. by intros p [Hp _]%list_elem_of_filter. Qed.
Lemma Forall_shallower d ps : Forall (fun p => ptr_depth p < d) (shallower d ps).
Proof. apply Forall_forall. by intros p [Hp _]%list_elem_of_filter. Qed.

Lemma take_depth_spec d T ps :
  depth_inv T ps ->
  take_depth d T (reverse ps) [] setsum_default =
  (reverse (at_depth d ps), setsum_of ptr_setsum (at_depth d ps)).
Proof.
  intros [Hs _ Hc _]. rewrite (depth_split d ps Hs) at 1. rewrite !reverse_app, <- app_assoc.
  rewrite take_depth_shallower by (rewrite reverse_Permutation; apply Forall_shallower).
  rewrite take_depth_equal;
    [|rewrite reverse_Permutation; apply Forall_at_depth
     |rewrite reverse_Permutation; apply Forall_deeper].
  rewrite Nat.sub_0_r, take_ge by (rewrite length_reverse; apply Hc). cbn.
  f_equal. by rewrite setsum_default_l, (reverse_Permutation (at_depth d ps)).
Qed.

(** A depth is rolled up exactly when it is full, and then with all its
    snapshots, which are the last ones. *)
Lemma rollup_depth_spec m T w d s :
  (1 <= T)%nat -> depth_inv T (snapshots m) -> rollup_depth m T w d = Some s ->
  snapshots m = deeper d (snapshots m) ++ at_depth d (snapshots m) /\
  at_depth d (snapshots m) <> [] /\
  s = mkSnapshot (unprefixed_snapshot_path (setsum_of ptr_setsum (at_depth d (snapshots m))))
        (u8_add d 1) (setsum_of ptr_setsum (at_depth d (snapshots m))) w
        (at_depth d (snapshots m)) [].
Proof.
  intros HT Hinv. unfold rollup_depth. rewrite take_depth_spec by done. rewrite reverse_involutive.
  destruct (Nat.leb_spec T (length (at_depth d (snapshots m)))) as [Hge|]; [|done].
  assert (shallower d (snapshots m) = []) as Hsh.
  { destruct (decide (shallower d (snapshots m) = [])) as [|Hne]; [done|].
    pose proof (depth_full _ _ Hinv d Hne). lia. }
  pose proof (depth_split d _ (depth_sorted _ _ Hinv)) as Hsplit.
  rewrite Hsh, app_nil_r in Hsplit.
  assert (at_depth d (snapshots m) <> []) as Hne.
  { intros Hnil. rewrite Hnil in Hge. cbn in Hge. lia. }
  intros Hs. split; [done|]. split; [done|].
  assert (forall first, head (snapshots m) = Some first -> (ptr_depth first <? d) = false) as Hfirst.
  { intros first Hf. apply Z.ltb_ge. rewrite Hsplit in Hf.
    pose proof (Forall_deeper d (snapshots m)) as Hd.
    pose proof (Forall_at_depth d (snapshots m)) as Ha.
    destruct (deeper d (snapshots m)) as [|q qs]; cbn in Hf.
    - destruct (at_depth d (snapshots m)); [done|]. injection Hf as <-. inversion Ha; subst. lia.
    - injection Hf as <-. inversion Hd; subst. lia. }
  destruct (min_by_key _ _), (head (snapshots m)) as [first|] eqn:Hh; cbn in Hs; try by simplify_eq.
  rewrite (Hfirst first eq_refl), andb_false_r in Hs. by simplify_eq.
Qed.

(** ** The fragment loop *)

Lemma take_fragments_skip m T l acc sum :
  Forall (fun f => default (mkSeqNo 0) (max_seq_no m) = frag_seq_no f) l ->
  take_fragments m T l acc sum = (acc, sum).
Proof.
  induction 1 as [|f l Hf _ IH]; [done|]. cbn.
  rewrite bool_decide_eq_false_2 by (intros Hneq; by apply Hneq). by rewrite andb_false_r.
Qed.

Lemma take_fragments_take m T l1 l2 acc sum :
  Forall (fun f => default (mkSeqNo 0) (max_seq_no m) <> frag_seq_no f) l1 ->
  Forall (fun f => default (mkSeqNo 0) (max_seq_no m) = frag_seq_no f) l2 ->
  take_fragments m T (l1 ++ l2) acc sum =
  (acc ++ take (T - length acc) l1, sum +ₛ setsum_of frag_setsum (take (T - length acc) l1)).
Proof.
  intros H1 H2. revert acc sum. induction H1 as [|f l1 Hf H1 IH]; intros acc sum.
  - rewrite take_nil, app_nil_r, setsum_of_nil, setsum_default_r. by apply take_fragments_skip.
  - cbn. rewrite bool_decide_eq_true_2 by done. rewrite andb_true_r.
    destruct (Nat.ltb_spec (length acc) T).
    + rewrite IH, length_app. cbn.
      replace (T - length acc)%nat with (S (T - (length acc + 1)))%nat by lia. cbn.
      rewrite setsum_of_cons, <- app_assoc, setsum_add_assoc. done.
    + rewrite IH. replace (T - length acc)%nat with 0%nat by lia. cbn. done.
Qed.

(** The fragments rolled up are a proper prefix: the last one stays, so the
    next sequence number stays computable from the manifest. *)
Lemma take_fragments_spec m n T frags sum :
  (1 <= T)%nat -> seqs_from n (fragments m) ->
  (T <= length (fragments m))%nat ->
  take_fragments m T (fragments m) [] setsum_default = (frags, sum) ->
  (T <= length frags)%nat ->
  exists rest, fragments m = frags ++ rest /\ rest <> [] /\ frags <> [] /\
               sum = setsum_of frag_setsum frags.
Proof.
  intros HT Hs Hlen Htake Hfrags.
  assert (fragments m <> []) as Hne by (destruct (fragments m); cbn in Hlen; [lia|done]).
  destruct (exists_last Hne) as (l & f & Em). rewrite Em in *.
  pose proof (max_seq_no_last m n l f Em Hs) as Hm.
  rewrite take_fragments_take in Htake; [|rewrite Hm; cbn..].
  - cbn in Htake. rewrite Nat.sub_0_r, setsum_default_l in Htake.
    injection Htake as <- <-. rewrite length_take in Hfrags.
    exists (drop T l ++ [f]). rewrite app_assoc, take_drop.
    split_and!; [done|by intros [_ ?]%app_nil| |done].
    destruct l; [cbn in Hfrags; lia|]. destruct T; [lia|]. done.
  - apply Forall_forall. intros g Hg Heq. apply seqs_from_app in Hs as [Hl [Hf _]].
    apply (seqs_from_elem _ _ _ Hl) in Hg. rewrite <- Heq in Hg. lia.
  - by repeat constructor.
Qed.

(** ** Applying the snapshot *)

Lemma existsb_zip_prefix (l1 l2 : list Fragment) :
  existsb (fun '(l, r) => bool_decide (l <> r)) (zip (l1 ++ l2) l1) = false.
Proof.
  induction l1 as [|f l1 IH]; [by destruct l2|]. cbn. rewrite IH.
  rewrite bool_decide_eq_false_2; [done|]. intros Hneq. by apply Hneq.
Qed.

Lemma filter_prefix_by_setsum pre suf :
  NoDup (ptr_setsum <$> (pre ++ suf)) ->
  List.filter (fun p => negb (existsb (fun t => bool_decide (ptr_setsum t = ptr_setsum p)) suf))
    (pre ++ suf) = pre.
Proof.
  rewrite fmap_app. intros (_ & Hdisj & _)%NoDup_app.
  rewrite List.filter_app.
  assert (forall l, (forall p, p ∈ l -> ptr_setsum p ∉ ptr_setsum <$> suf) ->
    List.filter (fun p => negb (existsb (fun t => bool_decide (ptr_setsum t = ptr_setsum p)) suf)) l = l)
    as Hkeep.
  { induction l as [|p l IH]; intros Hl; [done|]. cbn.
    destruct (existsb _ suf) eqn:He; cbn; [|f_equal; apply IH; set_solver].
    apply existsb_exists in He as (t & Ht & Heq%bool_decide_eq_true). exfalso.
    apply (Hl p); [set_solver|]. rewrite <- Heq. apply list_elem_of_fmap_2. by apply list_elem_of_In. }
  assert (forall l, (forall p, p ∈ l -> p ∈ suf) ->
    List.filter (fun p => negb (existsb (fun t => bool_decide (ptr_setsum t = ptr_setsum p)) suf)) l = [])
    as Hdrop.
  { induction l as [|p l IH]; intros Hl; [done|]. cbn.
    replace (existsb _ suf) with true; [apply IH; set_solver|]. symmetry.
    apply existsb_exists. exists p. split; [apply list_elem_of_In; set_solver|].
    by apply bool_decide_eq_true. }
  rewrite Hkeep, Hdrop by (auto; intros p Hp; apply Hdisj; by apply list_elem_of_fmap_2).
  apply app_nil_r.
Qed.

(** What the two rollups have in common: a snapshot [s] that covers the
    snapshots [ps] at the end of the manifest's and the fragments [fs] at the
    start of its, one of the two being empty. *)
Lemma apply_snapshot_segment m s pre ps fs rest :
  manifest_ok m -> NoDup (ptr_setsum <$> snapshots m) ->
  snapshots m = pre ++ ps -> fragments m = fs ++ rest ->
  snap_snapshots s = ps -> snap_fragments s = fs ->
  snap_setsum s = setsum_of ptr_setsum ps +ₛ setsum_of frag_setsum fs ->
  intervals ps fs <> [] ->
  let m' := mkManifest (setsum m) (collected m) (acc_bytes m) (writer m)
              (pre ++ [to_pointer s]) rest (initial_offset m) (initial_seq_no m) in
  apply_snapshot m s = (Ok tt, m') /\ manifest_ok m' /\
  oldest_timestamp m' = oldest_timestamp m /\
  next_write_timestamp m' = next_write_timestamp m.
Proof.
  intros Hok Hnd Hps Hfs Hsps Hsfs Hsum Hne m'.
  destruct (scrub_complete m Hok) as [ss Hss]. destruct Hok as [Hsetsum Hc Hi].
  rewrite Hps, Hfs, intervals_split in Hc.
  apply chain_app in Hc as (a & Hpre & Hc). apply chain_app in Hc as (b & Hmid & Hrest).
  pose proof (oldest_of_chain a ps fs b (from_offset 1) Hmid Hne) as Hstart.
  pose proof (newest_of_chain a ps fs b (from_offset 1) Hmid Hne) as Hlimit.
  pose proof (chain_lt _ _ _ Hmid Hne) as Hab.
  assert (ptr_iv (to_pointer s) = (a, b)) as Hiv.
  { unfold ptr_iv, to_pointer, minimum_log_position, limiting_log_position. cbn.
    by rewrite Hsps, Hsfs, Hstart, Hlimit. }
  assert (chain (offset (oldest_timestamp m)) (intervals (snapshots m') (fragments m'))
            (offset (next_write_timestamp m))) as Hc'.
  { cbn. rewrite intervals_app. apply chain_app. exists a. split; [done|].
    unfold intervals. cbn. rewrite Hiv. by constructor. }
  assert (intervals (snapshots m') (fragments m') <> []) as Hne'.
  { intros [Hnil _]%intervals_nil. cbn in Hnil. by apply app_nil in Hnil as [_ ?]. }
  destruct (manifest_chain_ends m' _ _ Hc' Hne') as [Ho Hn].
  assert (oldest_timestamp m' = oldest_timestamp m) as Ho' by (rewrite Ho; by destruct (oldest_timestamp m)).
  assert (next_write_timestamp m' = next_write_timestamp m) as Hn'
    by (rewrite Hn; by destruct (next_write_timestamp m)).
  assert (manifest_ok m') as Hok'.
  { constructor.
    - cbn. rewrite Hsetsum, Hps, Hfs, !setsum_of_app, setsum_of_singleton. cbn. rewrite Hsum.
      f_equal. by rewrite !setsum_add_assoc.
    - by rewrite Ho', Hn'.
    - intros o Ho''. rewrite Ho'. by apply Hi. }
  split; [|done]. unfold apply_snapshot. rewrite Hss, Hsfs, Hsps.
  assert ((length (fragments m) <? length fs)%nat = false) as ->.
  { apply Nat.ltb_ge. rewrite Hfs, length_app. lia. }
  rewrite Hfs, existsb_zip_prefix, drop_app_length, Hps.
  rewrite filter_prefix_by_setsum by (by rewrite <- Hps). fold m'.
  by destruct (scrub_complete m' Hok') as [? ->].
Qed.

(** ** The depth discipline is kept *)

Lemma at_depth_app d l1 l2 : at_depth d (l1 ++ l2) = at_depth d l1 ++ at_depth d l2.
Proof. apply filter_app. Qed.

Lemma shallower_app d l1 l2 : shallower d (l1 ++ l2) = shallower d l1 ++ shallower d l2.
Proof. apply filter_app. Qed.

(** Appending a snapshot that is no deeper than the others. *)
Lemma depth_inv_snoc T pre p :
  depth_inv T pre -> 1 <= ptr_depth p ->
  Forall (fun q => ptr_depth p <= ptr_depth q) pre ->
  (forall d, (length (at_depth d pre) < T)%nat) ->
  depth_inv T (pre ++ [p]).
Proof.
  intros [Hs Hr Hc Hf] Hp Hge Hlt. constructor.
  - apply StronglySorted_app_2; [|done|by repeat constructor].
    rewrite Forall_forall in Hge. intros x y Hx ->%list_elem_of_singleton. by apply Hge.
  - apply Forall_app. split; [done|]. by constructor.
  - intros d. rewrite at_depth_app, length_app. specialize (Hlt d).
    assert (length (at_depth d [p]) <= 1)%nat by apply (length_filter _ [p]). lia.
  - intros d Hne. rewrite at_depth_app, length_app. specialize (Hlt d).
    destruct (decide (ptr_depth p = d)) as [<-|Hneq].
    + exfalso. apply Hne. rewrite shallower_app. unfold shallower.
      rewrite (filter_cons_False _ p) by lia.
      rewrite app_nil_r. apply elem_of_nil_inv. intros x [Hx Hin]%list_elem_of_filter.
      rewrite Forall_forall in Hge. specialize (Hge x Hin). lia.
    + unfold at_depth at 2. rewrite filter_cons_False by done. cbn. lia.
Qed.

Lemma rollup_from_Some m T w D s :
  rollup_from m T w D = Some s ->
  exists d, 1 <= d <= Z.of_nat D /\ rollup_depth m T w d = Some s.
Proof.
  induction D as [|D IH]; cbn [rollup_from]; [done|].
  destruct (rollup_depth m T w (Z.of_nat (S D))) eqn:E; intros H.
  - simplify_eq. exists (Z.of_nat (S D)). split; [lia|done].
  - apply IH in H as (d & Hd & H). exists d. split; [lia|done].
Qed.

(** When no depth rolls up, none is full. *)
Lemma rollup_from_None m T w d :
  (1 <= T)%nat -> depth_inv T (snapshots m) ->
  rollup_from m T w (Z.to_nat (max_depth (snapshots m))) = None ->
  (length (at_depth d (snapshots m)) < T)%nat.
Proof.
  intros HT Hinv Hnone.
  assert (forall D, rollup_from m T w D = None -> 1 <= d <= Z.of_nat D ->
                    rollup_depth m T w d = None) as Hloop.
  { induction D as [|D IH]; cbn [rollup_from]; intros H Hd; [lia|].
    destruct (rollup_depth m T w (Z.of_nat (S D))) eqn:E; [done|].
    destruct (decide (d = Z.of_nat (S D))) as [->|]; [done|]. apply IH; [done|lia]. }
  destruct (decide (at_depth d (snapshots m) = [])) as [->|Hne]; [cbn; lia|].
  assert (1 <= d <= max_depth (snapshots m)) as Hd.
  { destruct (at_depth d (snapshots m)) as [|p l] eqn:E; [done|].
    assert (p ∈ at_depth d (snapshots m)) as [Hp Hin]%list_elem_of_filter by (rewrite E; set_solver).
    pose proof (depth_range _ _ Hinv) as Hr. rewrite Forall_forall in Hr.
    specialize (Hr p Hin). pose proof (max_depth_ge p _ Hin). lia. }
  specialize (Hloop _ Hnone ltac:(lia)). unfold rollup_depth in Hloop.
  rewrite take_depth_spec, reverse_involutive in Hloop by done.
  destruct (Nat.leb_spec T (length (at_depth d (snapshots m)))); [|done].
  destruct (min_by_key _ _), (head (snapshots m)); try done.
  by destruct (bool_decide _ && _).
Qed.

(** Dropping the snapshots of one depth from the end. *)
Lemma depth_inv_prefix T d pre eq :
  (1 <= T)%nat -> depth_inv T (pre ++ eq) -> eq <> [] ->
  Forall (fun p => ptr_depth p = d) eq -> Forall (fun p => d < ptr_depth p) pre ->
  depth_inv T pre /\ forall x, (length (at_depth x pre) < T)%nat.
Proof.
  intros HT [Hs Hr Hc Hf] Hne Heq Hpre.
  assert (forall x, length (at_depth x pre) <= length (at_depth x (pre ++ eq)))%nat as Hle.
  { intros x. rewrite at_depth_app, length_app. lia. }
  split.
  - constructor.
    + by apply StronglySorted_app_1_l in Hs.
    + by apply Forall_app in Hr as [? _].
    + intros x. specialize (Hle x). specialize (Hc x). lia.
    + intros x Hx. specialize (Hle x).
      assert (length (at_depth x (pre ++ eq)) < T)%nat; [|lia]. apply Hf.
      rewrite shallower_app. by intros [? _]%app_nil.
  - intros x. destruct (decide (d < x)) as [Hlt|Hge].
    + specialize (Hle x). assert (length (at_depth x (pre ++ eq)) < T)%nat; [|lia]. apply Hf.
      rewrite shallower_app. intros [_ Hnil]%app_nil. destruct eq as [|p eq]; [done|].
      inversion Heq; subst. unfold shallower in Hnil.
      by rewrite filter_cons_True in Hnil.
    + assert (at_depth x pre = []) as ->; [|cbn; lia]. apply elem_of_nil_inv.
      intros p [Hp Hin]%list_elem_of_filter. rewrite Forall_forall in Hpre.
      specialize (Hpre p Hin). lia.
Qed.

(** ** The theorem *)

Record rolled_up (T : nat) (m m' : Manifest) : Prop := {
  ru_ok : manifest_ok m';
  ru_depth : depth_inv T (snapshots m');
  ru_seqs : exists n, seqs_from n (fragments m');
  ru_setsum : setsum m' = setsum m /\ collected m' = collected m;
  ru_span : oldest_timestamp m' = oldest_timestamp m /\
            next_write_timestamp m' = next_write_timestamp m;
  ru_seq_no : next_fragment_seq_no m' = next_fragment_seq_no m;
}.

Lemma max_seq_no_suffix m m' n l rest :
  fragments m = l ++ rest -> fragments m' = rest -> rest <> [] ->
  seqs_from n (fragments m) -> max_seq_no m' = max_seq_no m.
Proof.
  intros Hm Hm' Hne Hs. destruct (exists_last Hne) as (r & f & ->).
  rewrite Hm in Hs. pose proof Hs as Hs'. rewrite app_assoc in Hs'.
  apply seqs_from_app in Hs as [_ Hs].
  rewrite (max_seq_no_last m' _ r f Hm' Hs).
  rewrite (max_seq_no_last m n (l ++ r) f); [done| |done]. by rewrite Hm, app_assoc.
Qed.

Lemma u8_add_small d : 0 <= d < 255 -> u8_add d 1 = d + 1.
Proof. intros. unfold u8_add. rewrite Z.mod_small; lia. Qed.

Lemma generate_apply_snapshots m T w d s n :
  (1 <= T)%nat -> manifest_ok m -> seqs_from n (fragments m) -> depth_inv T (snapshots m) ->
  NoDup (ptr_setsum <$> snapshots m) -> 1 <= d < 255 ->
  rollup_depth m T w d = Some s ->
  exists m', apply_snapshot m s = (Ok tt, m') /\ rolled_up T m m' /\ is_ok (snap_scrub s).
Proof.
  intros HT Hok Hseq Hinv Hnd Hd Hs.
  destruct (rollup_depth_spec m T w d s HT Hinv Hs) as (Hsplit & Hne & ->).
  set (s := mkSnapshot _ _ _ _ _ _).
  destruct (apply_snapshot_segment m s (deeper d (snapshots m)) (at_depth d (snapshots m)) [] (fragments m))
    as (Happ & Hok' & Ho & Hn); try done.
  { cbn. by rewrite setsum_of_nil, setsum_default_r. }
  { by intros [? _]%intervals_nil. }
  eexists. split; [exact Happ|]. split.
  - destruct (depth_inv_prefix T d (deeper d (snapshots m)) (at_depth d (snapshots m)))
      as [Hpre Hlt]; [done|by rewrite <- Hsplit|done|apply Forall_at_depth|apply Forall_deeper|].
    constructor; try done; [|by exists n].
    apply depth_inv_snoc; [done| |by cbn; rewrite u8_add_small by lia;
      eapply Forall_impl; [apply Forall_deeper|cbn; lia]|done].
    cbn. rewrite u8_add_small by lia. lia.
  - apply snap_scrub_complete; [by left| | |done].
    + cbn. rewrite u8_add_small by lia.
      assert (max_depth (at_depth d (snapshots m)) <= d); [|lia].
      apply max_depth_le; [lia|]. eapply Forall_impl; [apply Forall_at_depth|cbn; lia].
    + cbn. by rewrite setsum_of_nil, setsum_default_r.
Qed.

Lemma generate_apply_fragments m o w n s :
  (1 <= snapshot_rollover_threshold o)%nat -> (1 <= fragment_rollover_threshold o)%nat ->
  manifest_ok m -> seqs_from n (fragments m) ->
  depth_inv (snapshot_rollover_threshold o) (snapshots m) ->
  NoDup (ptr_setsum <$> snapshots m) ->
  rollup_from m (snapshot_rollover_threshold o) w (Z.to_nat (max_depth (snapshots m))) = None ->
  generate_snapshot m o w = Some s ->
  exists m', apply_snapshot m s = (Ok tt, m') /\
             rolled_up (snapshot_rollover_threshold o) m m' /\ is_ok (snap_scrub s).
Proof.
  intros HT HF Hok Hseq Hinv Hnd Hnone Hgen. unfold generate_snapshot in Hgen. rewrite Hnone in Hgen.
  destruct (Nat.leb_spec (fragment_rollover_threshold o) (length (fragments m))) as [Hlen|]; [|done].
  destruct (take_fragments _ _ _ _ _) as [frags sum] eqn:Htake.
  destruct (Nat.leb_spec (fragment_rollover_threshold o) (length frags)) as [Hlen'|]; [|done].
  destruct (take_fragments_spec m n _ _ _ HF Hseq Hlen Htake Hlen') as (rest & Hfs & Hrest & Hfr & ->).
  injection Hgen as <-. set (s := mkSnapshot _ _ _ _ _ _).
  destruct (apply_snapshot_segment m s (snapshots m) [] frags rest)
    as (Happ & Hok' & Ho & Hn); try done.
  { by rewrite app_nil_r. }
  { cbn. by rewrite setsum_of_nil, setsum_default_l. }
  { by intros [_ ?]%intervals_nil. }
  eexists. split; [exact Happ|]. split.
  - constructor; try done.
    + apply depth_inv_snoc; [done|cbn; lia|apply Hinv|].
      intros d. by apply (rollup_from_None m _ w).
    + exists (n + Z.of_nat (length frags)). cbn.
      rewrite Hfs in Hseq. by apply seqs_from_app in Hseq as [_ ?].
    + set (m' := mkManifest _ _ _ _ _ _ _ _). unfold next_fragment_seq_no.
      by rewrite (max_seq_no_suffix m m' n frags rest).
  - apply snap_scrub_complete; [by right|change (0 < 1); lia| |done].
    cbn. by rewrite setsum_of_nil, setsum_default_l.
Qed.

Lemma generate_apply m o w n s :
  (1 <= snapshot_rollover_threshold o)%nat -> (1 <= fragment_rollover_threshold o)%nat ->
  manifest_ok m -> seqs_from n (fragments m) ->
  depth_inv (snapshot_rollover_threshold o) (snapshots m) -> max_depth (snapshots m) < 255 ->
  NoDup (ptr_setsum <$> snapshots m) ->
  generate_snapshot m o w = Some s ->
  exists m', apply_snapshot m s = (Ok tt, m') /\
             rolled_up (snapshot_rollover_threshold o) m m' /\ is_ok (snap_scrub s).
Proof.
  intros HT HF Hok Hseq Hinv Hmax Hnd Hgen.
  destruct (rollup_from m (snapshot_rollover_threshold o) w (Z.to_nat (max_depth (snapshots m))))
    as [s'|] eqn:Hr; [|by eapply generate_apply_fragments].
  assert (s' = s) as -> by (unfold generate_snapshot in Hgen; rewrite Hr in Hgen; congruence).
  destruct (rollup_from_Some _ _ _ _ _ Hr) as (d & Hd & Hroll).
  eapply (generate_apply_snapshots m _ w d s n); try done. lia.
Qed.
End Facts.
