(* ===== verification/GcFacts.v ===== *)
(** * Garbage collection keeps the log

    [Garbage::new] on a manifest whose snapshots form well-formed trees, and
    [Manifest::apply_garbage] of what it computed: a prefix of the log below
    the cutoff is dropped, the rest is still reachable from the new manifest,
    and the setsums balance. *)

From S2P Require Import Prelude Setsum Storage Types Paths Effects Manifest ManifestFacts Persist Gc.

#[local] Open Scope Z_scope.
#[local] Open Scope wal_scope.

(** ** Trees of snapshots *)

Section Trees.
Context {SS : SetsumSig}.

(** What [generate_snapshot] and [replace_snapshot] make: children of one
    kind, and the setsum, path and depth computed from them. *)
Record canonical (s : Snapshot) : Prop := {
  can_path : snap_path s = unprefixed_snapshot_path (snap_setsum s);
  can_setsum : snap_setsum s =
               setsum_of ptr_setsum (snap_snapshots s) +ₛ setsum_of frag_setsum (snap_fragments s);
  can_depth : snap_depth s = max_depth (snap_snapshots s) + 1;
  can_u8 : 1 <= snap_depth s <= 255;
}.

Variable loads : SnapshotPointer -> Snapshot -> Prop.

(** [tree n p frs]: the pointer [p] is the root of a tree of snapshots of
    height at most [n] whose leaves hold the fragments [frs], in order. *)
Fixpoint tree (n : nat) (p : SnapshotPointer) (frs : list Fragment) : Prop :=
  match n with
  | O => False
  | S n => exists s, loads p s /\ to_pointer s = p /\ canonical s /\
      ((snap_snapshots s = [] /\ snap_fragments s <> [] /\ frs = snap_fragments s) \/
       (snap_fragments s = [] /\ snap_snapshots s <> [] /\
        exists frss, Forall2 (tree n) (snap_snapshots s) frss /\ frs = concat frss))
  end.

(** The fragments a manifest reaches, in order. *)
Definition log_of (n : nat) (m : Manifest) (l : list Fragment) : Prop :=
  exists frss, Forall2 (tree n) (snapshots m) frss /\ l = concat frss ++ fragments m.

(** [inside p q]: [q] covers a part of [p], is less deep and has the path of
    its setsum. *)
Definition inside (p q : SnapshotPointer) : Prop :=
  ptr_depth q < ptr_depth p /\ offset (ptr_start p) <= offset (ptr_start q) /\
  offset (ptr_limit q) <= offset (ptr_limit p) /\
  path_to_snapshot q = unprefixed_snapshot_path (ptr_setsum q).
End Trees.

Section TreeFacts.
Context {SS : SetsumSig} {SL : SetsumLaws SS}.

Lemma Forall2_tree_mono (R R' : SnapshotPointer -> list Fragment -> Prop) ps frss :
  (forall p l, R p l -> R' p l) -> Forall2 R ps frss -> Forall2 R' ps frss.
Proof. intros HR H. eapply Forall2_impl; [exact H|exact HR]. Qed.

Lemma tree_loads_mono (loads loads' : SnapshotPointer -> Snapshot -> Prop) n p frs :
  (forall q s, loads q s -> loads' q s) -> tree loads n p frs -> tree loads' n p frs.
Proof.
  intros Hl. revert p frs. induction n as [|n IH]; intros p frs; [done|].
  intros (s & Hs & Hp & Hc & Hk). exists s. split_and!; [auto..|].
  destruct Hk as [?|(Hf & Hne & frss & H2 & ->)]; [by left|right].
  split_and!; [done..|]. exists frss. split; [|done]. eapply Forall2_tree_mono; eauto.
Qed.

Context {loads : SnapshotPointer -> Snapshot -> Prop}.

Lemma tree_height_mono n p frs : tree loads n p frs -> tree loads (S n) p frs.
Proof.
  revert p frs. induction n as [|n IH]; intros p frs; [done|].
  intros (s & Hs & Hp & Hc & Hk). exists s. split_and!; [done..|].
  destruct Hk as [?|(Hf & Hne & frss & H2 & ->)]; [by left|right].
  split_and!; [done..|]. exists frss. split; [|done]. eapply Forall2_tree_mono; eauto.
Qed.

Lemma setsum_of_concat {A} (f : A -> Setsum) (ls : list (list A)) :
  setsum_of f (concat ls) = setsum_of (setsum_of f) ls.
Proof.
  induction ls as [|l ls IH]; [done|]. cbn. by rewrite setsum_of_app, setsum_of_cons, IH.
Qed.

(** The pointer of a tree sums its fragments up. *)
Lemma tree_setsum n p frs : tree loads n p frs -> ptr_setsum p = setsum_of frag_setsum frs.
Proof.
  revert p frs. induction n as [|n IH]; intros p frs; [done|].
  intros (s & Hs & <- & Hc & Hk). cbn. rewrite (can_setsum _ Hc).
  destruct Hk as [(-> & _ & ->)|(-> & _ & frss & H2 & ->)].
  - by rewrite setsum_of_nil, setsum_default_l.
  - rewrite setsum_of_nil, setsum_default_r, setsum_of_concat.
    clear Hs Hc. induction H2 as [|q l ps frss Hq H2 IH2]; [done|].
    rewrite !setsum_of_cons, IH2. f_equal. by apply IH.
Qed.

Lemma trees_setsum n ps frss :
  Forall2 (tree loads n) ps frss -> setsum_of ptr_setsum ps = setsum_of frag_setsum (concat frss).
Proof.
  induction 1 as [|p l ps frss Hp H2 IH]; [done|]. cbn.
  by rewrite setsum_of_cons, setsum_of_app, IH, (tree_setsum n p l).
Qed.

Lemma tree_nonempty n p frs : tree loads n p frs -> frs <> [].
Proof.
  revert p frs. induction n as [|n IH]; intros p frs; [done|].
  intros (s & _ & _ & _ & [(_ & Hne & ->)|(_ & Hne & frss & H2 & ->)]); [done|].
  destruct H2 as [|q l ps frss Hq H2]; [done|]. cbn. intros [Hnil _]%app_nil.
  by apply (IH q l).
Qed.

Lemma tree_path n p frs :
  tree loads n p frs -> path_to_snapshot p = unprefixed_snapshot_path (ptr_setsum p).
Proof. destruct n; [done|]. intros (s & _ & <- & Hc & _). apply Hc. Qed.

(** The intervals of the pointers of consecutive trees tile what their
    fragments tile. *)
Lemma tree_iv n :
  forall p frs a b, tree loads n p frs -> chain a (frag_iv <$> frs) b -> ptr_iv p = (a, b).
Proof.
  induction n as [|n IH]; intros p frs a b; [done|].
  intros (s & Hs & <- & Hc & Hk) Hch.
  unfold ptr_iv, to_pointer, minimum_log_position, limiting_log_position. cbn.
  assert (exists ps fs, snap_snapshots s = ps /\ snap_fragments s = fs /\
                        chain a (intervals ps fs) b /\ intervals ps fs <> [])
    as (ps & fs & -> & -> & Hint & Hne).
  { destruct Hk as [(Hp & Hne & ->)|(Hf & Hne & frss & H2 & ->)].
    - exists [], (snap_fragments s). unfold intervals. cbn. split_and!; [done..|].
      by intros ?%fmap_nil_inv.
    - exists (snap_snapshots s), []. split_and!; [done..| |by intros [? _]%intervals_nil].
      unfold intervals. cbn. rewrite app_nil_r. clear Hs Hc Hne.
      revert a Hch. induction H2 as [|q l ps frss Hq H2 IH2]; intros a Hch; [done|].
      cbn in Hch |- *. rewrite fmap_app in Hch. apply chain_app in Hch as (c & Hl & Hrest).
      rewrite (IH q l a c Hq Hl). constructor; [|by apply IH2].
      eapply chain_lt; [exact Hl|]. intros Hnil%fmap_nil_inv. by apply (tree_nonempty n q l). }
  by rewrite (oldest_of_chain a ps fs b), (newest_of_chain a ps fs b).
Qed.

Lemma trees_iv n ps frss a b :
  Forall2 (tree loads n) ps frss -> chain a (frag_iv <$> concat frss) b -> chain a (ptr_iv <$> ps) b.
Proof.
  intros H2. revert a. induction H2 as [|q l ps frss Hq H2 IH2]; intros a Hch; [done|].
  cbn in Hch |- *. rewrite fmap_app in Hch. apply chain_app in Hch as (c & Hl & Hrest).
  rewrite (tree_iv n q l a c Hq Hl). constructor; [|by apply IH2].
  eapply chain_lt; [exact Hl|]. intros Hnil%fmap_nil_inv. by apply (tree_nonempty n q l).
Qed.

Lemma trees_nonempty n ps frss : Forall2 (tree loads n) ps frss -> ps <> [] -> concat frss <> [].
Proof.
  intros H2 Hne. destruct H2 as [|q l ps frss Hq H2]; [done|]. cbn. intros [Hnil _]%app_nil.
  by apply (tree_nonempty n q l).
Qed.

Lemma inside_trans p q r : inside p q -> inside q r -> inside p r.
Proof. unfold inside. intros (? & ? & ? & ?) (? & ? & ? & ?). split_and!; [lia..|done]. Qed.

(** A child covers a part of its parent. *)
Lemma child_inside n p s frss a b q :
  to_pointer s = p -> canonical s -> snap_fragments s = [] ->
  Forall2 (tree loads n) (snap_snapshots s) frss -> chain a (frag_iv <$> concat frss) b ->
  ptr_iv p = (a, b) -> q ∈ snap_snapshots s -> inside p q.
Proof.
  intros <- Hc Hf H2 Hch Hiv Hq.
  assert (path_to_snapshot q = unprefixed_snapshot_path (ptr_setsum q)) as Hpath.
  { apply list_elem_of_lookup in Hq as [i Hi]. destruct (Forall2_lookup_l _ _ _ _ _ H2 Hi) as (l & _ & Ht).
    by eapply tree_path. }
  unfold inside, ptr_iv in *. cbn in *.
  pose proof (max_depth_ge q _ Hq). rewrite (can_depth _ Hc). split; [lia|].
  injection Hiv as Ha Hb. rewrite Ha, Hb.
  pose proof (trees_iv n _ _ _ _ H2 Hch) as Hps.
  apply (list_elem_of_fmap_2 ptr_iv) in Hq. apply (chain_bounds _ _ _ _ _ Hps) in Hq.
  split_and!; [lia..|done].
Qed.
End TreeFacts.

(** ** The state of a collection *)

Section States.
Context {SS : SetsumSig} {SL : SetsumLaws SS}.

(** The state after collecting the snapshots [ds] and the fragments [frs] and
    making the snapshots [mk]. *)
Definition after (st : GcState) (ds : list SnapshotPointer) (mk : list Snapshot)
    (frs : list Fragment) : GcState :=
  let g := gs_garbage st in
  mkGcState
    (mkGarbage (snapshots_to_drop g ++ ds) (snapshots_to_make g ++ mk) (snapshot_for_root g)
       (if gs_first st then default (fragments_to_drop_start g) (frag_seq_no <$> list.head frs)
        else fragments_to_drop_start g)
       (default (fragments_to_drop_limit g) ((fun f => FragmentSeqNo.add (frag_seq_no f) 1) <$> last frs))
       (setsum_to_discard g +ₛ setsum_of frag_setsum frs) (first_to_keep g))
    (gs_first st && bool_decide (frs = [])) (default (gs_keep st) (frag_limit <$> last frs)).

Lemma after_after st ds1 mk1 frs1 ds2 mk2 frs2 :
  after (after st ds1 mk1 frs1) ds2 mk2 frs2 = after st (ds1 ++ ds2) (mk1 ++ mk2) (frs1 ++ frs2).
Proof.
  unfold after; cbn. rewrite setsum_of_app, !app_assoc, setsum_add_assoc, last_app.
  destruct frs1 as [|f frs1]; cbn.
  - rewrite andb_true_r, setsum_of_nil, setsum_default_r.
    destruct (last frs2), (gs_first st); done.
  - rewrite andb_false_r. destruct (last frs2), (gs_first st); done.
Qed.

Lemma after_nil st : after st [] [] [] = st.
Proof.
  destruct st as [[] first keep]. unfold after; cbn.
  rewrite !app_nil_r, setsum_of_nil, setsum_default_r, andb_true_r.
  by destruct first.
Qed.

Lemma push_drop_after p st : push_drop p st = after st [p] [] [].
Proof.
  destruct st as [[] first keep]. unfold after, push_drop; cbn.
  rewrite !app_nil_r, setsum_of_nil, setsum_default_r, andb_true_r.
  by destruct first.
Qed.

Lemma push_make_after s st : push_make s st = after st [] [s] [].
Proof.
  destruct st as [[] first keep]. unfold after, push_make; cbn.
  rewrite !app_nil_r, setsum_of_nil, setsum_default_r, andb_true_r.
  by destruct first.
Qed.

(** The next fragment to collect has the sequence number [k]. *)
Definition ready (st : GcState) (k : Z) : Prop :=
  gs_first st = false -> fsn (fragments_to_drop_limit (gs_garbage st)) = k.

Lemma last_seq k frs f : seqs_from k frs -> last frs = Some f -> fsn (frag_seq_no f) = k + Z.of_nat (length frs) - 1.
Proof.
  intros Hs [l ->]%last_Some. apply seqs_from_app in Hs as [_ [Hf _]]. rewrite length_app. cbn. lia.
Qed.

Lemma ready_after st k ds mk frs :
  ready st k -> seqs_from k frs -> 0 <= k -> k + Z.of_nat (length frs) <= u64_max ->
  ready (after st ds mk frs) (k + Z.of_nat (length frs)).
Proof.
  intros Hr Hs Hk Hmax. unfold ready, after; cbn.
  destruct (last frs) as [f|] eqn:Hl; cbn.
  - intros _. pose proof (last_seq _ _ _ Hs Hl) as ->.
    rewrite wrapping_add_small; [lia|]. unfold is_u64.
    destruct frs; [done|]. cbn in *. lia.
  - apply last_None in Hl as ->. cbn. rewrite andb_true_r.
    intros Hf. rewrite (Hr Hf). lia.
Qed.

Lemma ready_after_nil st k ds mk : ready st k -> ready (after st ds mk []) k.
Proof. unfold ready, after. cbn. by rewrite andb_true_r. Qed.

Lemma drop_fragment_ready st f :
  ready st (fsn (frag_seq_no f)) -> drop_fragment st f = Ok (frag_setsum f, after st [] [] [f]).
Proof.
  intros Hr. destruct st as [[] first keep]. unfold drop_fragment, after, ready in *; cbn in *.
  rewrite !app_nil_r, setsum_of_singleton, andb_false_r.
  destruct first; cbn; [by rewrite andb_false_r|].
  rewrite bool_decide_eq_false_2; [done|]. intros Hneq. apply Hneq. apply FragmentSeqNo_eq. by apply Hr.
Qed.
End States.

(** ** Dropping *)

Section Dropping.
Context {SS : SetsumSig} {SL : SetsumLaws SS} {OS : ObjectStore} {cache : SnapshotCache}.
Context {serde_snapshot : Serde Snapshot}.
Variable prefix : string.
Variable I : world -> Prop.
Variable E : Error -> Prop.

(** The pointers that resolve: fetching the snapshot returns it, or fails
    with an error in [E]. *)
Definition loads (p : SnapshotPointer) (s : Snapshot) : Prop :=
  wp I E (fetch_snapshot prefix p) (fun s' => s' = s).

Lemma drop_fragments_wp acc st k frs :
  ready st k -> seqs_from k frs -> 0 <= k -> k + Z.of_nat (length frs) <= u64_max ->
  wp I E (drop_fragments acc st frs)
    (fun r => r = (acc +ₛ setsum_of frag_setsum frs, after st [] [] frs)).
Proof.
  intros Hr Hs Hk Hmax. unfold drop_fragments.
  eapply wp_mono.
  - apply (wp_foldM I E _ (fun dn _ r => r = (acc +ₛ setsum_of frag_setsum dn, after st [] [] dn)) frs).
    + by rewrite setsum_of_nil, setsum_default_r, after_nil.
    + intros dn f rest r Hl ->. cbn beta iota. rewrite Hl in Hs, Hmax.
      apply seqs_from_app in Hs as [Hdn [Hf _]].
      rewrite length_app in Hmax. cbn in Hmax.
      rewrite drop_fragment_ready.
      * apply wp_bind, wp_ret, wp_ret. rewrite setsum_of_app, setsum_of_singleton, setsum_add_assoc.
        by rewrite after_after.
      * rewrite Hf. apply ready_after; [done..|lia].
  - done.
Qed.

(** The snapshots a collection of the trees [ps] may list. *)
Definition listed (ps ds : list SnapshotPointer) : Prop :=
  (forall p, p ∈ ps -> p ∈ ds) /\ (forall q, q ∈ ds -> q ∈ ps \/ exists p, p ∈ ps /\ inside p q).

Lemma listed_app ps1 ps2 ds1 ds2 :
  listed ps1 ds1 -> listed ps2 ds2 -> listed (ps1 ++ ps2) (ds1 ++ ds2).
Proof.
  intros [H1 H1'] [H2 H2']. split.
  - intros p [Hp|Hp]%elem_of_app; apply elem_of_app; auto.
  - intros q [Hq|Hq]%elem_of_app; [destruct (H1' q Hq) as [?|(p & ? & ?)]|destruct (H2' q Hq) as [?|(p & ? & ?)]];
      rewrite !elem_of_app; eauto 10; right; exists p; rewrite elem_of_app; auto.
Qed.

Lemma listed_nil ds : listed [] ds -> ds = [].
Proof.
  intros [_ Hds]. apply elem_of_nil_inv. intros q Hq. destruct (Hds q Hq) as [?|(x & ? & _)]; set_solver.
Qed.

Lemma listed_inside p ps ds : listed ps ds -> (forall q, q ∈ ps -> inside p q) -> Forall (inside p) ds.
Proof.
  intros [_ Hds] Hps. apply Forall_forall. intros q Hq.
  destruct (Hds q Hq) as [?|(x & ? & ?)]; [auto|]. eapply inside_trans; eauto.
Qed.

Definition drops_to (acc : Setsum) (st : GcState) (ps : list SnapshotPointer) (frs : list Fragment)
    (r : Setsum * GcState) : Prop :=
  exists ds, r = (acc +ₛ setsum_of frag_setsum frs, after st ds [] frs) /\ listed ps ds.

(** The loop over snapshots, given that one step drops a tree. *)
Lemma drop_loop n acc st k ps frss a b :
  (forall st k p frs a b, tree loads n p frs -> ready st k -> seqs_from k frs -> 0 <= k ->
     k + Z.of_nat (length frs) <= u64_max -> chain a (frag_iv <$> frs) b ->
     wp I E (drop_snapshot prefix n st p) (drops_to setsum_default st [p] frs)) ->
  Forall2 (tree loads n) ps frss -> ready st k -> seqs_from k (concat frss) -> 0 <= k ->
  k + Z.of_nat (length (concat frss)) <= u64_max -> chain a (frag_iv <$> concat frss) b ->
  wp I E (drop_snapshots prefix n acc st ps) (drops_to acc st ps (concat frss)).
Proof.
  intros Hone H2. revert acc st k a. induction H2 as [|p frs ps frss Hp H2 IH];
    intros acc st k a Hr Hs Hk Hmax Hch.
  - cbn. apply wp_ret. exists []. cbn. rewrite setsum_of_nil, setsum_default_r, after_nil.
    split; [done|]. by split; intros ? ?%not_elem_of_nil.
  - unfold drop_snapshots. cbn in *. rewrite fmap_app in Hch. rewrite length_app in Hmax.
    apply chain_app in Hch as (c & Hc1 & Hc2). apply seqs_from_app in Hs as [Hs1 Hs2].
    apply wp_bind, wp_bind. eapply wp_mono; [eapply (Hone st k p frs a c); try done; lia|].
    intros r (ds & -> & Hds). apply wp_ret. rewrite setsum_default_l.
    eapply wp_mono; [eapply (IH _ (after st ds [] frs) (k + Z.of_nat (length frs)) c); try done; [|lia..]|].
    + apply ready_after; [done..|lia].
    + intros r (ds' & -> & Hds'). exists (ds ++ ds').
      rewrite after_after, setsum_of_app, setsum_add_assoc. split; [done|].
      by apply (listed_app [p]).
Qed.

Lemma drop_snapshot_wp n :
  forall st k p frs a b, tree loads n p frs -> ready st k -> seqs_from k frs -> 0 <= k ->
    k + Z.of_nat (length frs) <= u64_max -> chain a (frag_iv <$> frs) b ->
    wp I E (drop_snapshot prefix n st p) (drops_to setsum_default st [p] frs).
Proof.
  induction n as [|n IH]; intros st k p frs a b Htree Hr Hs Hk Hmax Hch; [done|].
  pose proof (tree_iv (S n) p frs a b Htree Hch) as Hiv.
  pose proof (tree_setsum (S n) p frs Htree) as Hsum.
  destruct Htree as (s & Hload & Hp & Hc & Hkind). cbn [drop_snapshot].
  assert (snap_setsum s = setsum_of frag_setsum frs) as Hss by (by rewrite <- Hsum, <- Hp).
  apply wp_bind. eapply wp_mono; [exact Hload|]. intros ? ->.
  change (foldM _ (setsum_default, st) (snap_snapshots s))
    with (drop_snapshots prefix n setsum_default st (snap_snapshots s)).
  apply wp_bind. destruct Hkind as [(-> & _ & Hfrs)|(Hf & Hne & frss & H2 & Hfrs)].
  - apply wp_ret, wp_bind. rewrite <- Hfrs.
    eapply wp_mono; [by apply (drop_fragments_wp _ _ k)|]. intros r ->.
    rewrite setsum_default_l, bool_decide_eq_true_2 by done. apply wp_ret.
    exists [p]. rewrite push_drop_after, after_after, !app_nil_r, setsum_default_l, Hss. cbn.
    split; [done|]. split; [done|]. auto.
  - subst frs. eapply wp_mono; [by eapply drop_loop|]. intros r (ds & -> & Hds).
    apply wp_bind. rewrite Hf. apply wp_ret.
    rewrite setsum_default_l, bool_decide_eq_true_2 by done. apply wp_ret.
    exists (ds ++ [p]). rewrite push_drop_after, after_after, !app_nil_r, setsum_default_l, Hss. cbn.
    split; [done|]. split; [set_solver|].
    intros q [Hq|?]%elem_of_app; [right; exists p|by left]. split; [set_solver|].
    assert (forall q, q ∈ snap_snapshots s -> inside p q) as Hchild
      by (intros q' Hq'; by eapply child_inside).
    destruct Hds as [_ Hds]. destruct (Hds q Hq) as [Hin|(q' & Hq' & Hin)]; [auto|].
    eapply inside_trans; eauto.
Qed.

Lemma drop_snapshots_wp n acc st k ps frss a b :
  Forall2 (tree loads n) ps frss -> ready st k -> seqs_from k (concat frss) -> 0 <= k ->
  k + Z.of_nat (length (concat frss)) <= u64_max -> chain a (frag_iv <$> concat frss) b ->
  wp I E (drop_snapshots prefix n acc st ps) (drops_to acc st ps (concat frss)).
Proof. apply drop_loop, drop_snapshot_wp. Qed.
End Dropping.

(** ** Replacing *)

Section Remnants.
Context {SS : SetsumSig} {SL : SetsumLaws SS}.

Lemma remnant_pointer s :
  canonical s -> to_pointer (remnant (snap_snapshots s) (snap_fragments s)) = to_pointer s.
Proof.
  intros [Hp Hs Hd Hu]. unfold remnant, to_pointer. cbn. rewrite <- Hs, <- Hp.
  f_equal. unfold u8_add. rewrite Z.mod_small; lia.
Qed.

Lemma remnant_canonical ps fs : 0 <= max_depth ps < 255 -> canonical (remnant ps fs).
Proof.
  intros Hd. constructor; cbn; [done..| |]; unfold u8_add; rewrite Z.mod_small; lia.
Qed.

(** The trees that resolve once the snapshots [mk] are installed. *)
Definition or_made (loads : SnapshotPointer -> Snapshot -> Prop) (mk : list Snapshot)
    (p : SnapshotPointer) (s : Snapshot) : Prop :=
  loads p s \/ (s ∈ mk /\ to_pointer s = p).

Lemma or_made_mono loads mk mk' n p frs :
  (forall s, s ∈ mk -> s ∈ mk') -> tree (or_made loads mk) n p frs -> tree (or_made loads mk') n p frs.
Proof. intros Hmk. apply tree_loads_mono. intros q s [?|[? ?]]; [by left|right; auto]. Qed.

Lemma tree_or_made loads mk n p frs : tree loads n p frs -> tree (or_made loads mk) n p frs.
Proof. apply tree_loads_mono. intros q s ?. by left. Qed.

Lemma max_depth_shrink ps ps' :
  0 <= max_depth ps -> (forall p, p ∈ ps' -> exists q, q ∈ ps /\ ptr_depth p <= ptr_depth q) ->
  max_depth ps' <= max_depth ps.
Proof.
  intros H0 Hle. apply max_depth_le; [done|]. apply Forall_forall. intros p Hp.
  destruct (Hle p Hp) as (q & Hq & Hpq). pose proof (max_depth_ge q ps Hq). lia.
Qed.

(** A chain of fragments ends where its last one does. *)
Lemma chain_last a frs b f : chain a (frag_iv <$> frs) b -> last frs = Some f -> offset (frag_limit f) = b.
Proof.
  intros Hc [l ->]%last_Some. rewrite fmap_app in Hc. apply chain_app in Hc as (c & _ & Hc).
  cbn in Hc. inversion Hc as [|? ? ? ? ? Hnil]; subst. by apply chain_nil_inv in Hnil.
Qed.

Lemma gs_keep_after st ds mk frs a b :
  chain a (frag_iv <$> frs) b -> frs <> [] -> offset (gs_keep (after st ds mk frs)) = b.
Proof.
  intros Hc Hne. unfold after. cbn. destruct (last frs) as [f|] eqn:Hl; [|by apply last_None in Hl].
  cbn. by eapply chain_last.
Qed.

(** No proper prefix of a chain ends at or before the start of the chain. *)
Lemma chain_prefix_nil a frs b dl kp :
  chain a (frag_iv <$> frs) b -> frs = dl ++ kp -> Forall (fun f => offset (frag_limit f) <= a) dl -> dl = [].
Proof.
  intros Hc -> Hle. destruct dl as [|f dl]; [done|]. cbn in Hc. inversion Hc; subst.
  inversion Hle; subst. lia.
Qed.
End Remnants.

Section Cuts.
Context {SS : SetsumSig}.

Lemma expired_spec keep limit : expired keep limit = true <-> offset limit <= offset keep.
Proof. apply Z.leb_le. Qed.

Lemma expired_false keep limit : expired keep limit = false <-> offset keep < offset limit.
Proof. apply Z.leb_gt. Qed.

Lemma straddles_spec keep p :
  straddles keep p = true <-> offset (ptr_start p) <= offset keep < offset (ptr_limit p).
Proof.
  unfold straddles, LogPosition.contains_offset. rewrite andb_true_iff, Z.leb_le, Z.ltb_lt. tauto.
Qed.

(** The three classes of children of a snapshot that the position cuts. *)
Lemma cut_snapshots keep ps a b :
  chain a (ptr_iv <$> ps) b -> a <= offset keep < b ->
  exists dr sp kp, ps = dr ++ sp :: kp /\
    List.filter (fun s => expired keep (ptr_limit s)) ps = dr /\
    List.filter (fun s => negb (expired keep (ptr_limit s)) && straddles keep s) ps = [sp] /\
    List.filter (fun s => negb (expired keep (ptr_limit s)) && negb (straddles keep s)) ps = kp /\
    List.filter (straddles keep) ps = [sp] /\
    offset (ptr_start sp) <= offset keep < offset (ptr_limit sp).
Proof.
  intros Hc Hk. destruct (chain_cut ptr_iv a ps b (offset keep) Hc) as (dr & l2 & c & -> & H1 & H2 & Hck & Hdr & Hl2);
    [lia|].
  destruct l2 as [|sp kp]; [apply chain_nil_inv in H2; lia|]. destruct Hl2 as [Hsp Hkp].
  exists dr, sp, kp. cbn in H2. inversion H2; subst. cbn in Hsp.
  assert (Forall (fun s => expired keep (ptr_limit s) = true /\ straddles keep s = false) dr) as Hdr'.
  { eapply Forall_impl; [exact Hdr|]. intros s Hs. cbn in Hs. rewrite expired_spec. split; [done|].
    destruct (straddles keep s) eqn:He; [|done]. apply straddles_spec in He. lia. }
  assert (Forall (fun s => expired keep (ptr_limit s) = false /\ straddles keep s = false) kp) as Hkp'.
  { eapply Forall_impl; [exact Hkp|]. intros s [Hs1 Hs2]. cbn in Hs1, Hs2. rewrite expired_false. split; [done|].
    destruct (straddles keep s) eqn:He; [|done]. apply straddles_spec in He. lia. }
  assert (expired keep (ptr_limit sp) = false) as Hsp1 by (by apply expired_false).
  assert (straddles keep sp = true) as Hsp2 by (apply straddles_spec; lia).
  split; [done|]. rewrite !List.filter_app. cbn. rewrite Hsp1, Hsp2. cbn.
  assert (forall l, Forall (fun s => expired keep (ptr_limit s) = true /\ straddles keep s = false) l ->
    List.filter (fun s => expired keep (ptr_limit s)) l = l /\
    List.filter (fun s => negb (expired keep (ptr_limit s)) && straddles keep s) l = [] /\
    List.filter (fun s => negb (expired keep (ptr_limit s)) && negb (straddles keep s)) l = [] /\
    List.filter (straddles keep) l = []) as HD.
  { intros l Hl. split_and!; [apply filter_all|apply filter_none..];
      (eapply Forall_impl; [exact Hl|]); intros s [Hs1 Hs2]; rewrite ?Hs1, ?Hs2; done. }
  assert (forall l, Forall (fun s => expired keep (ptr_limit s) = false /\ straddles keep s = false) l ->
    List.filter (fun s => expired keep (ptr_limit s)) l = [] /\
    List.filter (fun s => negb (expired keep (ptr_limit s)) && straddles keep s) l = [] /\
    List.filter (fun s => negb (expired keep (ptr_limit s)) && negb (straddles keep s)) l = l /\
    List.filter (straddles keep) l = []) as HK.
  { intros l Hl. split_and!; [apply filter_none|apply filter_none|apply filter_all|apply filter_none];
      (eapply Forall_impl; [exact Hl|]); intros s [Hs1 Hs2]; rewrite ?Hs1, ?Hs2; done. }
  destruct (HD dr Hdr') as (-> & -> & -> & ->). destruct (HK kp Hkp') as (-> & -> & -> & ->).
  rewrite app_nil_r. split_and!; try done; lia.
Qed.

(** The two classes of fragments. *)
Lemma cut_fragments keep fs a b :
  chain a (frag_iv <$> fs) b ->
  exists dr kp, fs = dr ++ kp /\
    List.filter (fun f => expired keep (frag_limit f)) fs = dr /\
    List.filter (fun f => negb (expired keep (frag_limit f))) fs = kp /\
    Forall (fun f => offset (frag_limit f) <= offset keep) dr /\
    Forall (fun f => offset keep < offset (frag_limit f)) kp.
Proof.
  intros Hc.
  assert (exists dr kp, fs = dr ++ kp /\ Forall (fun f => offset (frag_limit f) <= offset keep) dr /\
            Forall (fun f => offset keep < offset (frag_limit f)) kp) as (dr & kp & -> & Hdr & Hkp).
  { destruct (Z.le_gt_cases a (offset keep)) as [Hle|Hgt].
    - destruct (chain_cut frag_iv a fs b (offset keep) Hc Hle)
        as (dr & l2 & c & -> & _ & _ & _ & Hdr & Hl2).
      exists dr, l2. split_and!; [done..|]. destruct l2; [constructor|].
      destruct Hl2 as [? Hl2]. constructor; [done|]. eapply Forall_impl; [exact Hl2|]. by intros x [_ ?].
    - exists [], fs. split_and!; [done|constructor|]. apply Forall_forall. intros f Hf.
      apply (list_elem_of_fmap_2 frag_iv) in Hf. apply (chain_bounds _ _ _ _ _ Hc) in Hf. lia. }
  exists dr, kp. split; [done|]. rewrite !List.filter_app.
  rewrite (filter_all _ dr), (filter_none _ kp), (filter_none _ dr), (filter_all _ kp).
  - by rewrite app_nil_r.
  - eapply Forall_impl; [exact Hkp|]. intros f Hf. by apply negb_true_iff, expired_false.
  - eapply Forall_impl; [exact Hdr|]. intros f Hf. by apply negb_false_iff, expired_spec.
  - eapply Forall_impl; [exact Hkp|]. intros f Hf. by apply expired_false.
  - eapply Forall_impl; [exact Hdr|]. intros f Hf. by apply expired_spec.
Qed.
End Cuts.

Section Replacing.
Context {SS : SetsumSig} {SL : SetsumLaws SS} {OS : ObjectStore} {cache : SnapshotCache}.
Context {serde_snapshot : Serde Snapshot}.
Variable prefix : string.
Variable I : world -> Prop.
Variable E : Error -> Prop.
#[local] Abbreviation loads := (loads prefix I E).

(** What [replace_snapshot] does to a tree with the fragments [frs]: it drops
    a prefix of expired ones, empty only if the first has not expired, and
    what it returns is the root of a tree with the others. *)
Definition replaced_to (n : nat) (st : GcState) (p : SnapshotPointer) (frs : list Fragment)
    (r : Setsum * option SnapshotPointer * GcState) : Prop :=
  exists dl kp, frs = dl ++ kp /\ kp <> [] /\
    Forall (fun f => offset (frag_limit f) <= offset (gs_keep st)) dl /\
    (forall f, list.head frs = Some f -> offset (frag_limit f) <= offset (gs_keep st) -> dl <> []) /\
    ((dl = [] /\ r = (setsum_default, Some p, st)) \/
     (dl <> [] /\ exists ds mk p',
        r = (setsum_of frag_setsum dl, Some p', after st (ds ++ [p]) mk dl) /\
        Forall (inside p) ds /\ tree (or_made loads mk) n p' kp /\ ptr_depth p' <= ptr_depth p)).

(** A remnant that lost something has another pointer. *)
Lemma remnant_differs loads' n p p' dl kp a b :
  dl <> [] -> ptr_iv p = (a, b) -> chain a (frag_iv <$> (dl ++ kp)) b ->
  tree loads' n p' kp -> p' <> p.
Proof.
  intros Hne Hp Hc Ht ->. rewrite fmap_app in Hc. apply chain_app in Hc as (c & Hd & Hk).
  rewrite (tree_iv n p kp c b Ht Hk) in Hp. injection Hp as ->.
  apply chain_lt in Hd; [lia|]. by intros ?%fmap_nil_inv.
Qed.

Lemma head_prefix {A} (P : A -> Prop) (l1 l2 : list A) :
  Forall (fun x => ~ P x) l2 -> forall f, list.head (l1 ++ l2) = Some f -> P f -> l1 <> [].
Proof. intros H2 f Hf HP ->. destruct H2; [done|]. cbn in Hf. by simplify_eq. Qed.

Lemma remnant_leaf_tree loads' n kp :
  kp <> [] -> tree (or_made loads' [remnant [] kp]) (S n) (to_pointer (remnant [] kp)) kp.
Proof.
  intros Hne. exists (remnant [] kp).
  split_and!; [right; split; [set_solver|done]|done|by apply remnant_canonical|by left].
Qed.

Lemma replace_leaf n st k p s a b :
  wp I E (fetch_snapshot prefix p) (fun s' => s' = s) -> to_pointer s = p -> canonical s ->
  snap_snapshots s = [] -> snap_fragments s <> [] -> ptr_iv p = (a, b) ->
  ready st k -> seqs_from k (snap_fragments s) -> 0 <= k ->
  k + Z.of_nat (length (snap_fragments s)) <= u64_max ->
  chain a (frag_iv <$> snap_fragments s) b -> offset (gs_keep st) < b ->
  wp I E (replace_snapshot prefix (S n) st p) (replaced_to (S n) st p (snap_fragments s)).
Proof.
  intros Hload Hp Hcan Hsn Hsf Hiv Hr Hs Hk Hmax Hch Hkeep. cbn [replace_snapshot].
  apply wp_bind. eapply wp_mono; [exact Hload|]. intros ? ->. rewrite Hsn.
  destruct (cut_fragments (gs_keep st) (snap_fragments s) a b Hch) as (dl & kp & Hfs & Hdl & Hkp & Fdl & Fkp).
  rewrite Hdl, Hkp. rewrite Hfs at 1. rewrite length_app, Nat.eqb_refl. cbn [negb List.filter length].
  cbn [Nat.add Nat.eqb negb orb Nat.ltb]. change ((1 <? 0)%nat) with false.
  rewrite (bool_decide_eq_false_2 (@nil SnapshotPointer <> [])) by (intros Hx; by apply Hx).
  rewrite andb_false_r. cbn [last]. apply wp_bind, wp_ret, wp_bind, wp_ret.
  assert (kp <> []) as Hkpne.
  { intros ->. rewrite app_nil_r in Hfs. rewrite Hfs in Hch, Hsf.
    destruct (last dl) as [f|] eqn:Hl; [|by apply last_None in Hl].
    pose proof (chain_last _ _ _ _ Hch Hl). apply last_Some in Hl as [l ->].
    apply Forall_app in Fdl as [_ Fdl]. inversion Fdl; subst. lia. }
  clear Hdl Hkp. rewrite (bool_decide_eq_true_2 (snap_fragments (remnant [] kp) <> [])) by done.
  rewrite orb_true_l, andb_true_r.
  assert (forall f, list.head (snap_fragments s) = Some f ->
            offset (frag_limit f) <= offset (gs_keep st) -> dl <> []) as Hhead.
  { rewrite Hfs. apply (head_prefix (fun f => offset (frag_limit f) <= offset (gs_keep st))).
    eapply Forall_impl; [exact Fkp|]. cbn. lia. }
  destruct (decide (dl = [])) as [->|Hne].
  - cbn in Hfs. rewrite <- Hfs, <- Hsn, (remnant_pointer s Hcan), Hp.
    rewrite (bool_decide_eq_false_2 (p <> p)) by (intros Hx; by apply Hx).
    apply wp_bind, wp_ret, wp_ret. exists [], kp. split_and!; auto.
  - pose proof (remnant_leaf_tree loads n kp Hkpne) as Ht.
    rewrite bool_decide_eq_true_2 by (eapply (remnant_differs _ _ p _ dl kp); [done..|by rewrite <- Hfs|done]).
    rewrite Hfs in Hs, Hmax. apply seqs_from_app in Hs as [Hs _]. rewrite length_app in Hmax.
    rewrite push_make_after, push_drop_after, after_after.
    apply wp_bind. eapply wp_mono; [apply (drop_fragments_wp I E _ _ k); [|done..|lia]|].
    + by apply ready_after_nil.
    + intros r ->. apply wp_ret. exists dl, kp. split_and!; auto. right. split; [done|].
      exists [], [remnant [] kp], (to_pointer (remnant [] kp)).
      rewrite after_after, setsum_default_l. split_and!; [done|constructor|done|].
      rewrite <- Hp. cbn. pose proof (can_u8 _ Hcan). unfold u8_add. change (max_depth []) with 0.
      rewrite Z.mod_small; lia.
Qed.

(** What dropping the expired children and splitting the next one does. *)
Definition cut_to (n : nat) (st : GcState) (dr : list SnapshotPointer) (sp : SnapshotPointer)
    (frs : list Fragment) (r : Setsum * option SnapshotPointer * GcState) : Prop :=
  exists dl fc ds mk c, frs = dl ++ fc /\ fc <> [] /\
    Forall (fun f => offset (frag_limit f) <= offset (gs_keep st)) dl /\
    (forall f, list.head frs = Some f -> offset (frag_limit f) <= offset (gs_keep st) -> dl <> []) /\
    r = (setsum_of frag_setsum dl, Some c, after st ds mk dl) /\
    tree (or_made loads mk) n c fc /\ ptr_depth c <= ptr_depth sp /\
    ((c = sp /\ mk = [] /\ listed dr ds /\ (dl = [] -> dr = [])) \/
     (dr = [] /\ dl <> [] /\ listed [sp] ds)).

Definition replaces (n : nat) : Prop :=
  forall st k p frs a b, tree loads n p frs -> ready st k -> seqs_from k frs -> 0 <= k ->
    k + Z.of_nat (length frs) <= u64_max -> chain a (frag_iv <$> frs) b ->
    a <= offset (gs_keep st) < b ->
    wp I E (replace_snapshot prefix n st p) (replaced_to n st p frs).

Lemma cut_children {B} n st k dr sp frss fsp a b c (K : Setsum * option SnapshotPointer * GcState -> M B) Q :
  (forall r, cut_to n st dr sp (concat frss ++ fsp) r -> wp I E (K r) Q) ->
  replaces n -> Forall2 (tree loads n) dr frss -> tree loads n sp fsp ->
  ready st k -> seqs_from k (concat frss ++ fsp) -> 0 <= k ->
  k + Z.of_nat (length (concat frss ++ fsp)) <= u64_max ->
  chain a (frag_iv <$> concat frss) c -> chain c (frag_iv <$> fsp) b ->
  c <= offset (gs_keep st) < b ->
  wp I E (let! (acc, st) := drop_snapshots prefix n setsum_default st dr in
          let! (delta, child, st) := replace_snapshot prefix n st sp in
          K (acc +ₛ delta, child, st)) Q.
Proof.
  intros HK Hrep H2 Hsp Hr Hs Hk Hmax Hc1 Hc2 Hkeep.
  rewrite length_app in Hmax. apply seqs_from_app in Hs as [Hs1 Hs2].
  apply wp_bind. eapply wp_mono; [eapply (drop_snapshots_wp prefix I E n); try done; lia|].
  intros r (ds & -> & Hds). rewrite setsum_default_l.
  assert (frag_iv <$> fsp <> []) as Hfsp by (intros ?%fmap_nil_inv; by eapply (tree_nonempty n sp fsp)).
  assert (c <= offset (gs_keep (after st ds [] (concat frss))) < b /\
          (dr <> [] -> offset (gs_keep (after st ds [] (concat frss))) = c)) as [Hkeep' Hdr].
  { destruct (decide (concat frss = [])) as [Hnil|Hne].
    - rewrite Hnil. unfold after. cbn. split; [done|]. intros Hdr. by eapply trees_nonempty in H2.
    - rewrite (gs_keep_after st ds [] _ a c Hc1 Hne). pose proof (chain_lt _ _ _ Hc2 Hfsp). split; [lia|done]. }
  apply wp_bind. eapply wp_mono;
    [eapply (Hrep _ (k + Z.of_nat (length (concat frss))) sp fsp c b); try done;
     [apply ready_after; [done..|lia]|lia..]|].
  intros [[delta child] st'] (dl & fc & Hfr & Hfc & Hexp & Hhd & Hcases). apply HK.
  destruct (decide (dr = [])) as [->|Hne].
  - inversion H2; subst. cbn in *.
    apply listed_nil in Hds as ->.
    rewrite after_nil in *.
    destruct Hcases as [(-> & [= -> -> ->])|(Hdl & ds & mk & p' & [= -> -> ->] & Hins & Ht & Hd)].
    + exists [], fc, [], [], sp. rewrite setsum_of_nil, setsum_default_l, after_nil.
      split_and!; try done; [by apply tree_or_made|]. left. split_and!; try done; split; set_solver.
    + exists dl, fc, (ds ++ [sp]), mk, p'. rewrite setsum_of_nil, setsum_default_l.
      split_and!; try done. right. split_and!; [done..|]. split; [set_solver|].
      rewrite Forall_forall in Hins. intros q [Hq|Hq]%elem_of_app; [right|by left].
      exists sp. split; [set_solver|auto].
  - specialize (Hdr Hne). rewrite Hdr in Hexp.
    rewrite (chain_prefix_nil c fsp b dl fc) in Hcases, Hfr by done. cbn in Hfr. subst fc.
    destruct Hcases as [(_ & [= -> -> ->])|[? _]]; [|done].
    pose proof (trees_nonempty n dr frss H2 Hne) as Hfrss.
    exists (concat frss), fsp, ds, [], sp. rewrite setsum_default_r.
    split_and!; try done; [|by apply tree_or_made|by left].
    apply Forall_forall. intros f Hf. apply (list_elem_of_fmap_2 frag_iv) in Hf.
    apply (chain_bounds _ _ _ _ _ Hc1) in Hf. lia.
Qed.

Lemma wp_ext {A} (c c' : M A) Q : (forall w, c w = c' w) -> wp I E c' Q -> wp I E c Q.
Proof. intros Hc H w Hw. rewrite Hc. by apply H. Qed.

Lemma remnant_node_tree n mk ps frss :
  0 <= max_depth ps < 255 -> ps <> [] -> Forall2 (tree (or_made loads mk) n) ps frss ->
  tree (or_made loads (mk ++ [remnant ps []])) (S n) (to_pointer (remnant ps [])) (concat frss).
Proof.
  intros Hd Hne H2. exists (remnant ps []).
  split_and!; [right; split; [set_solver|done]|done|by apply remnant_canonical|right].
  split_and!; [done..|]. exists frss. split; [|done].
  eapply Forall2_tree_mono; [|exact H2]. intros q l. apply or_made_mono. set_solver.
Qed.

(** The end of [replace_snapshot] on a snapshot of snapshots. *)
Definition finish_node (p : SnapshotPointer) (kp : list SnapshotPointer)
    (r : Setsum * option SnapshotPointer * GcState) : M (Setsum * option SnapshotPointer * GcState) :=
  let '(acc, child, st) := r in
  let new := remnant (match child with Some c => c :: kp | None => kp end) [] in
  let '(p', st) :=
    if bool_decide (to_pointer new <> p) &&
       (bool_decide (snap_fragments new <> []) || bool_decide (snap_snapshots new <> []))
    then (to_pointer new, push_make new (push_drop p st)) else (p, st) in
  let! (acc, st) := drop_fragments acc st [] in
  ret (acc, Some p', st).

Lemma finish_node_wp n st s dr sp kp frs fkp a b r :
  canonical s -> snap_fragments s = [] -> snap_snapshots s = dr ++ sp :: kp ->
  (forall q, q ∈ snap_snapshots s -> inside (to_pointer s) q) ->
  ptr_iv (to_pointer s) = (a, b) -> Forall2 (tree loads n) kp fkp ->
  chain a (frag_iv <$> frs ++ concat fkp) b ->
  cut_to n st dr sp frs r ->
  wp I E (finish_node (to_pointer s) kp r) (replaced_to (S n) st (to_pointer s) (frs ++ concat fkp)).
Proof.
  intros Hcan Hsf Hps Hin Hiv H2 Hch (dl & fc & ds & mk & c & Hfr & Hfc & Hexp & Hhd & -> & Ht & Hd & Hlist).
  assert (dl = [] -> dr = [] /\ c = sp /\ ds = [] /\ mk = []) as Hsame.
  { intros Hnil. destruct Hlist as [(-> & -> & Hl & Hdr)|(_ & ? & _)]; [|done].
    rewrite (Hdr Hnil) in *. split_and!; try done. by eapply listed_nil. }
  assert (Forall (inside (to_pointer s)) ds) as Hins.
  { rewrite Hps in Hin. destruct Hlist as [(_ & _ & Hl & _)|(_ & _ & Hl)]; eapply listed_inside; try done;
      intros q Hq; apply Hin, elem_of_app; [by left|right].
    apply list_elem_of_singleton in Hq as ->. by constructor. }
  clear Hlist. unfold finish_node. subst frs. rewrite <- app_assoc in *.
  assert (forall f, list.head (dl ++ fc ++ concat fkp) = Some f ->
            offset (frag_limit f) <= offset (gs_keep st) -> dl <> []) as Hhd'.
  { intros f Hf. apply Hhd. destruct dl as [|x dl]; [|done]. destruct fc; [done|exact Hf]. }
  assert (fc ++ concat fkp <> []) as Hne by (by intros [? _]%app_nil).
  rewrite (bool_decide_eq_true_2 (snap_snapshots (remnant (c :: kp) []) <> [])), orb_true_r, andb_true_r by done.
  destruct (decide (dl = [])) as [->|Hdl].
  - destruct (Hsame eq_refl) as (-> & -> & -> & ->). cbn in Hps.
    pose proof (remnant_pointer s Hcan) as Heq. rewrite Hsf, Hps in Heq.
    rewrite Heq, bool_decide_eq_false_2 by (intros Hx; by apply Hx).
    rewrite after_nil. apply wp_bind, wp_ret, wp_ret.
    exists [], (fc ++ concat fkp). split_and!; auto.
  - pose proof (can_depth _ Hcan) as Hcd. pose proof (can_u8 _ Hcan) as Hcu.
    assert (max_depth (c :: kp) <= max_depth (snap_snapshots s)) as Hshrink.
    { apply max_depth_shrink; [lia|]. rewrite Hps. intros q [->|Hq]%elem_of_cons; [exists sp|exists q];
        split; try done; set_solver. }
    assert (0 <= max_depth (c :: kp) < 255) as Hdepth.
    { split; [|lia]. transitivity (ptr_depth c); [|apply max_depth_ge; set_solver].
      destruct n; [done|]. destruct Ht as (sc & _ & <- & Hcc & _). cbn. pose proof (can_u8 _ Hcc). lia. }
    assert (Forall2 (tree (or_made loads mk) n) (c :: kp) (fc :: fkp)) as H2'.
    { constructor; [done|]. eapply Forall2_tree_mono; [|exact H2]. intros q l. apply tree_or_made. }
    pose proof (remnant_node_tree n mk _ _ Hdepth ltac:(done) H2') as Htree. cbn [concat] in Htree.
    rewrite bool_decide_eq_true_2 by (eapply (remnant_differs _ _ _ _ dl); done).
    rewrite push_make_after, push_drop_after, !after_after, !app_nil_r.
    apply wp_bind, wp_ret, wp_ret. exists dl, (fc ++ concat fkp). split_and!; auto. right. split; [done|].
    exists ds, (mk ++ [remnant (c :: kp) []]), (to_pointer (remnant (c :: kp) [])).
    split_and!; auto. cbn.
    pose proof (can_depth _ (remnant_canonical (c :: kp) [] Hdepth)) as Hcd'. cbn in Hcd'. lia.
Qed.

Lemma replace_node n st k p s frss a b :
  replaces n ->
  wp I E (fetch_snapshot prefix p) (fun s' => s' = s) -> to_pointer s = p -> canonical s ->
  snap_fragments s = [] -> ptr_iv p = (a, b) ->
  Forall2 (tree loads n) (snap_snapshots s) frss ->
  ready st k -> seqs_from k (concat frss) -> 0 <= k ->
  k + Z.of_nat (length (concat frss)) <= u64_max ->
  chain a (frag_iv <$> concat frss) b -> a <= offset (gs_keep st) < b ->
  wp I E (replace_snapshot prefix (S n) st p) (replaced_to (S n) st p (concat frss)).
Proof.
  intros Hrep Hload Hp Hcan Hsf Hiv H2 Hr Hs Hk Hmax Hch Hkeep. cbn [replace_snapshot].
  assert (forall q, q ∈ snap_snapshots s -> inside p q) as Hin.
  { intros q Hq. by eapply (child_inside n p s frss a b). }
  apply wp_bind. eapply wp_mono; [exact Hload|]. intros ? ->. rewrite Hsf.
  destruct (cut_snapshots (gs_keep st) (snap_snapshots s) a b) as (dr & sp & kp & Hps & -> & -> & -> & _ & Hsp);
    [by eapply trees_iv|done|].
  rewrite Hps at 1. rewrite length_app. cbn [length List.filter].
  replace (length dr + 1 + length kp =? length dr + S (length kp))%nat with true
    by (symmetry; apply Nat.eqb_eq; lia).
  cbn [negb orb Nat.add Nat.eqb]. change ((1 <? 1)%nat) with false.
  rewrite (bool_decide_eq_false_2 (@nil Fragment <> [])) by (intros Hx; by apply Hx).
  cbn [andb last].
  rewrite Hps in H2, Hin. apply Forall2_app_inv_l in H2 as (frss1 & frss2 & H21 & H22 & ->).
  inversion H22 as [|? fsp ? frss3 Hfsp H23]; subst. clear H22.
  rewrite concat_app in *. cbn [concat] in *. rewrite app_assoc in *.
  pose proof Hch as Hch'. rewrite !fmap_app in Hch'.
  apply chain_app in Hch' as (c2 & Hch' & Hc3). apply chain_app in Hch' as (c1 & Hc1 & Hc2).
  pose proof (tree_iv n sp fsp c1 c2 Hfsp Hc2) as Hspiv. injection Hspiv as Hi1 Hi2.
  apply seqs_from_app in Hs as [Hs _]. rewrite length_app in Hmax.
  eapply wp_ext; [|eapply (cut_children n st k dr sp frss1 fsp a c2 c1
                             (finish_node (to_pointer s) kp))]; try done; [| |lia..].
  - intros w. unfold bind. destruct (drop_snapshots _ _ _ _ _ w) as [[[acc st0]|e|] w1]; [|done..].
    destruct (replace_snapshot _ _ _ _ w1) as [[[[d ch] st1]|e|] w2]; done.
  - intros r Hr'. eapply finish_node_wp; try done. by rewrite Hps.
Qed.

Lemma replace_snapshot_wp n : replaces n.
Proof.
  induction n as [|n IH]; intros st k p frs a b Htree Hr Hs Hk Hmax Hch Hkeep; [done|].
  pose proof (tree_iv (S n) p frs a b Htree Hch) as Hiv.
  destruct Htree as (s & Hload & Hp & Hc & [(Hsn & Hsf & ->)|(Hsf & Hsn & frss & H2 & ->)]).
  - eapply replace_leaf; try done. apply Hkeep.
  - by eapply replace_node.
Qed.
End Replacing.
