(* ===== verification/GcApply.v ===== *)
(** * Computing and applying garbage

    The end-to-end statement about a collection: [Garbage::new] succeeds on a
    well-formed log, [Manifest::apply_garbage] accepts what it returns, and the
    manifest that results describes exactly the fragments that were kept. *)

From S2P Require Import Prelude Setsum Storage Types Paths Effects Manifest ManifestFacts Persist Gc GcFacts.

#[local] Open Scope Z_scope.
#[local] Open Scope wal_scope.

(** ** Discarding by key *)

Section Discard.
Context {SS : SetsumSig} {SL : SetsumLaws SS}.

Lemma position_Some {A} (P : A -> bool) l i :
  position P l = Some i ->
  exists l1 x l2, l = l1 ++ x :: l2 /\ P x = true /\ l !! i = Some x /\ remove_at i l = l1 ++ l2.
Proof.
  revert i. induction l as [|y l IH]; intros i; cbn; [done|].
  destruct (P y) eqn:Hy.
  - intros [= <-]. exists [], y, l. by rewrite Hy.
  - destruct (position P l) as [j|]; [|done]. intros [= <-].
    destruct (IH j eq_refl) as (l1 & x & l2 & -> & Hx & Hj & Hr).
    exists (y :: l1), x, l2. split_and!; try done. unfold remove_at in *. cbn. by f_equal.
Qed.

Lemma position_None {A} (P : A -> bool) l : position P l = None -> Forall (fun x => P x = false) l.
Proof.
  induction l as [|y l IH]; cbn; [constructor|]. destruct (P y) eqn:Hy; [done|].
  destruct (position P l); [done|]. intros _. constructor; auto.
Qed.

Context {A K : Type} `{EqDecision K} (key : A -> K) (val : A -> Setsum).

Definition discard_key (acc : Setsum * list A) (k : K) : Setsum * list A :=
  match position (fun a => bool_decide (key a = k)) acc.2 with
  | Some i => (match acc.2 !! i with Some a => acc.1 +ₛ val a | None => acc.1 end, remove_at i acc.2)
  | None => acc
  end.

(** Discarding keys from a list of distinct ones splits it. *)
Lemma discard_keys ks l sum :
  NoDup (key <$> l) ->
  foldl discard_key (sum, l) ks =
  (sum +ₛ setsum_of val (filter (fun a => key a ∈ ks) l), filter (fun a => key a ∉ ks) l).
Proof.
  revert sum l. induction ks as [|k ks IH]; intros sum l Hnd; cbn [foldl].
  - rewrite filter_none_in by set_solver. rewrite filter_all_in by set_solver.
    by rewrite setsum_of_nil, setsum_default_r.
  - unfold discard_key at 2. cbn [fst snd].
    destruct (position _ l) as [i|] eqn:Hp.
    + apply position_Some in Hp as (l1 & x & l2 & -> & Hx%bool_decide_eq_true & -> & ->).
      rewrite fmap_app in Hnd. cbn in Hnd.
      assert (NoDup (key <$> (l1 ++ l2)) /\ key x ∉ (key <$> (l1 ++ l2))) as [Hnd' Hni].
      { rewrite fmap_app. apply NoDup_app in Hnd as (H1 & H12 & [Hx2 H2]%NoDup_cons).
        rewrite NoDup_app, elem_of_app. set_solver. }
      rewrite IH by done. rewrite !filter_app, (filter_cons_True _ x), (filter_cons_False _ x) by set_solver.
      assert (forall l : list A, key x ∉ (key <$> l) ->
                filter (fun a => key a ∈ k :: ks) l = filter (fun a => key a ∈ ks) l /\
                filter (fun a => key a ∉ k :: ks) l = filter (fun a => key a ∉ ks) l) as Hf.
      { intros l Hl. assert (forall a, a ∈ l -> key a <> k) as Hne.
        { intros a Ha <-. apply Hl. rewrite Hx. by apply list_elem_of_fmap_2. }
        split; apply filter_ext_in; intros a Ha; specialize (Hne a Ha); set_solver. }
      rewrite fmap_app, elem_of_app in Hni.
      destruct (Hf l1) as [-> ->]; [tauto|]. destruct (Hf l2) as [-> ->]; [tauto|].
      f_equal. rewrite !setsum_of_app, setsum_of_cons, <- !setsum_add_assoc. f_equal.
      rewrite !setsum_add_assoc. f_equal. apply setsum_add_comm.
    + apply position_None in Hp. rewrite Forall_forall in Hp.
      rewrite IH by done.
      assert (forall a, a ∈ l -> key a <> k) as Hne.
      { intros a Ha. specialize (Hp a Ha). by apply bool_decide_eq_false in Hp. }
      f_equal; [do 2 f_equal|]; apply filter_ext_in; intros a Ha; specialize (Hne a Ha); set_solver.
Qed.
End Discard.

Section Discards.
Context {SS : SetsumSig} {SL : SetsumLaws SS}.

Lemma discard_snapshots root ds l sum :
  NoDup l -> (forall q, q ∈ ds -> q ∈ l -> Some q <> root) ->
  foldl (discard_snapshot root) (sum, l) ds =
  (sum +ₛ setsum_of ptr_setsum (filter (fun p => p ∈ ds) l), filter (fun p => p ∉ ds) l).
Proof.
  intros Hnd Hroot. rewrite <- (discard_keys id ptr_setsum ds l sum) by (by rewrite list_fmap_id).
  clear Hnd. revert sum l Hroot. induction ds as [|q ds IH]; intros sum l Hroot; [done|]. cbn [foldl].
  assert (discard_snapshot root (sum, l) q = discard_key id ptr_setsum (sum, l) q /\
          forall p, p ∈ (discard_key id ptr_setsum (sum, l) q).2 -> p ∈ l) as [-> Hsub].
  { unfold discard_snapshot, discard_key. cbn.
    destruct (position _ l) as [i|] eqn:Hp; [|done].
    apply position_Some in Hp as (l1 & x & l2 & -> & Hx%bool_decide_eq_true & -> & ->). subst x. cbn.
    rewrite bool_decide_eq_true_2 by (apply Hroot; set_solver). split; [done|]. set_solver. }
  destruct (discard_key id ptr_setsum (sum, l) q) as [sum' l']. cbn in Hsub.
  apply IH. intros p Hp Hl'. apply Hroot; set_solver.
Qed.

Lemma discard_fragments ns l sum :
  NoDup (frag_seq_no <$> l) ->
  foldl discard_fragment (sum, l) ns =
  (sum +ₛ setsum_of frag_setsum (filter (fun f => frag_seq_no f ∈ mkSeqNo <$> ns) l),
   filter (fun f => frag_seq_no f ∉ mkSeqNo <$> ns) l).
Proof.
  intros Hnd. rewrite <- (discard_keys frag_seq_no frag_setsum (mkSeqNo <$> ns) l sum) by done.
  clear Hnd. revert sum l. induction ns as [|n ns IH]; intros sum l; [done|]. cbn [foldl fmap list_fmap].
  change (discard_fragment (sum, l) n) with (discard_key frag_seq_no frag_setsum (sum, l) (mkSeqNo n)).
  destruct (discard_key _ _ _ _). apply IH.
Qed.

Lemma elem_of_range_u64 x lo hi : x ∈ range_u64 lo hi <-> lo <= x < hi.
Proof.
  unfold range_u64. rewrite list_elem_of_fmap. split.
  - intros (i & -> & Hi). apply elem_of_seq in Hi. lia.
  - intros Hx. exists (Z.to_nat (x - lo)). rewrite elem_of_seq. split; lia.
Qed.

Lemma elem_of_seq_range s lo hi : s ∈ mkSeqNo <$> range_u64 lo hi <-> lo <= fsn s < hi.
Proof.
  rewrite list_elem_of_fmap. setoid_rewrite elem_of_range_u64. split.
  - by intros (n & -> & Hn).
  - intros Hs. exists (fsn s). split; [by destruct s|done].
Qed.

Lemma seqs_from_NoDup k l : seqs_from k l -> NoDup (frag_seq_no <$> l).
Proof.
  revert k. induction l as [|f l IH]; intros k; cbn; [by constructor|]. intros [Hf Hl].
  constructor; [|by eapply IH]. intros (g & Hg & Hin)%list_elem_of_fmap.
  apply (seqs_from_elem _ _ _ Hl) in Hin. rewrite <- Hg in Hin. lia.
Qed.

(** A range that covers a prefix of consecutive fragments discards it. *)
Lemma discard_prefix k lo hi fd fk sum :
  seqs_from k (fd ++ fk) -> lo <= k -> hi = k + Z.of_nat (length fd) \/ (fd = [] /\ hi <= k) ->
  foldl discard_fragment (sum, fd ++ fk) (range_u64 lo hi) = (sum +ₛ setsum_of frag_setsum fd, fk).
Proof.
  intros Hs Hlo Hhi. rewrite discard_fragments by (by eapply seqs_from_NoDup).
  apply seqs_from_app in Hs as [H1 H2].
  assert (forall f, f ∈ fd -> frag_seq_no f ∈ mkSeqNo <$> range_u64 lo hi) as Hin.
  { intros f Hf. apply elem_of_seq_range. pose proof (seqs_from_elem _ _ _ H1 Hf).
    destruct Hhi as [->|[-> _]]; [lia|by apply elem_of_nil in Hf]. }
  assert (forall f, f ∈ fk -> frag_seq_no f ∉ mkSeqNo <$> range_u64 lo hi) as Hout.
  { intros f Hf. rewrite elem_of_seq_range. pose proof (seqs_from_elem _ _ _ H2 Hf).
    destruct Hhi as [->|[_ ?]]; lia. }
  rewrite !filter_app, (filter_all_in _ fd), (filter_none_in _ fk), app_nil_r by done.
  rewrite (filter_none_in _ fd), (filter_all_in _ fk); [done|done|]. intros f Hf Hn. by apply Hn, Hin.
Qed.

(** Intervals of a chain are distinct. *)
Lemma chain_NoDup {A} (iv : A -> Z * Z) a l b : chain a (iv <$> l) b -> NoDup l.
Proof.
  revert a. induction l as [|x l IH]; intros a Hc; [constructor|]. cbn in Hc.
  destruct (iv x) as [s e] eqn:Hx. inversion Hc as [|? ? ? ? Hlt Hc']; subst.
  constructor; [|by eapply IH]. intros Hin%(list_elem_of_fmap_2 iv). rewrite Hx in Hin.
  apply (chain_bounds _ _ _ _ _ Hc') in Hin. lia.
Qed.

(** A pointer that covers a part of one of a chain of pointers, and is less
    deep, is none of them. *)
Lemma inside_not_elem a ps b p q :
  chain a (ptr_iv <$> ps) b -> p ∈ ps -> inside p q -> q ∉ ps.
Proof.
  intros Hc Hp (Hd & Hs & Hl & _) Hq.
  assert (q = p) as ->; [|lia].
  revert a Hc. induction ps as [|x ps IH]; intros a Hc; [by apply elem_of_nil in Hp|].
  cbn in Hc. destruct (ptr_iv x) as [s e] eqn:Hx. inversion Hc as [|? ? ? ? Hlt Hc']; subst.
  unfold ptr_iv in Hx. injection Hx as Hx1 Hx2.
  apply elem_of_cons in Hp as [->|Hp]; apply elem_of_cons in Hq as [->|Hq]; [done| | |by eapply IH].
  - apply (list_elem_of_fmap_2 ptr_iv) in Hq. apply (chain_bounds _ _ _ _ _ Hc') in Hq. lia.
  - apply (list_elem_of_fmap_2 ptr_iv) in Hp. apply (chain_bounds _ _ _ _ _ Hc') in Hp. lia.
Qed.
End Discards.

(** ** What a collection consists of *)

Section Collections.
Context {SS : SetsumSig} {SL : SetsumLaws SS}.
Variable loads : SnapshotPointer -> Snapshot -> Prop.

(** The garbage [g] drops the fragments [dl] of the log of [m], the first of
    which has the sequence number [k], and keeps [kp]: of the snapshots of
    [m] it drops [dr], of its fragments [fd], and it puts the snapshot [new]
    at the front. *)
Record collects (n : nat) (m : Manifest) (k : Z) (g : Garbage) (dl kp : list Fragment)
    (dr ks : list SnapshotPointer) (fd fk : list Fragment) (new : option SnapshotPointer)
    (kpss : list (list Fragment)) : Prop := {
  col_nonempty : dl <> [];
  col_snapshots : snapshots m = dr ++ ks;
  col_fragments : fragments m = fd ++ fk;
  col_drops : listed dr (snapshots_to_drop g);
  col_suffix : exists pre, dl = pre ++ fd;
  col_new : match new with
            | Some p => snapshot_for_root g = Some p /\ p ∉ dr
            | None => snapshot_for_root g = None \/
                      exists p, snapshot_for_root g = Some p /\ p ∈ ks
            end;
  col_trees : Forall2 (tree (or_made loads (snapshots_to_make g)) n) (option_list new ++ ks) kpss;
  col_kept : kp = concat kpss ++ fk;
  col_start : fragments_to_drop_start g = mkSeqNo k;
  col_limit : fragments_to_drop_limit g = mkSeqNo (k + Z.of_nat (length dl));
  col_setsum : setsum_to_discard g = setsum_of frag_setsum dl;
  col_keep : Some (first_to_keep g) = frag_limit <$> last dl;
}.

(** The assumptions about a log: its manifest is well formed, and its
    fragments tile it and carry consecutive sequence numbers from [k] on. *)
Record good_log (n : nat) (m : Manifest) (k : Z) (l : list Fragment) : Prop := {
  gl_ok : manifest_ok m;
  gl_log : log_of loads n m l;
  gl_chain : chain (offset (oldest_timestamp m)) (frag_iv <$> l) (offset (next_write_timestamp m));
  gl_seqs : seqs_from k l;
  gl_initial : 1 <= fsn (default FragmentSeqNo.BEGIN (initial_seq_no m)) <= k;
  gl_bound : k + Z.of_nat (length l) <= u64_max;
}.
End Collections.

Section Applying.
Context {SS : SetsumSig} {SL : SetsumLaws SS}.
Variable loads : SnapshotPointer -> Snapshot -> Prop.

(** The manifest a collection leads to. *)
Definition collected_manifest (m : Manifest) (g : Garbage) (snaps : list SnapshotPointer)
    (frags : list Fragment) : Manifest :=
  mkManifest (setsum m) (collected m +ₛ setsum_to_discard g) (acc_bytes m) (writer m)
    snaps frags (Some (first_to_keep g)) (Some (fragments_to_drop_limit g)).

Lemma collects_setsum n m k l g dl kp dr ks fd fk new kpss :
  log_of loads n m l -> l = dl ++ kp -> collects loads n m k g dl kp dr ks fd fk new kpss ->
  setsum_of ptr_setsum dr +ₛ setsum_of frag_setsum fd =
  setsum_of frag_setsum dl +ₛ setsum_of ptr_setsum (option_list new).
Proof.
  intros (frss & H2 & Hl) Hsplit Hcol.
  pose proof (trees_setsum n _ _ H2) as H1.
  pose proof (trees_setsum n _ _ (col_trees _ _ _ _ _ _ _ _ _ _ _ _ _ Hcol)) as H3.
  rewrite (col_snapshots _ _ _ _ _ _ _ _ _ _ _ _ _ Hcol), setsum_of_app in H1.
  rewrite setsum_of_app in H3.
  assert (setsum_of frag_setsum (concat frss) +ₛ setsum_of frag_setsum (fd ++ fk) =
          setsum_of frag_setsum dl +ₛ setsum_of frag_setsum (concat kpss) +ₛ setsum_of frag_setsum fk) as Hsum.
  { rewrite <- setsum_of_app, <- (col_fragments _ _ _ _ _ _ _ _ _ _ _ _ _ Hcol), <- Hl, Hsplit.
    rewrite (col_kept _ _ _ _ _ _ _ _ _ _ _ _ _ Hcol), !setsum_of_app. by rewrite setsum_add_assoc. }
  rewrite <- H1, <- H3, setsum_of_app in Hsum.
  apply (setsum_add_cancel_r (setsum_of ptr_setsum ks +ₛ setsum_of frag_setsum fk)).
  rewrite !setsum_add_assoc in Hsum |- *.
  rewrite <- Hsum. f_equal. rewrite <- !setsum_add_assoc. f_equal. apply setsum_add_comm.
Qed.

(** A chain of intervals of a manifest that starts at its initial offset. *)
Lemma chain_ends m c e :
  chain c (intervals (snapshots m) (fragments m)) e -> initial_offset m = Some (from_offset c) ->
  oldest_timestamp m = from_offset c /\ next_write_timestamp m = from_offset e.
Proof.
  intros Hc Hi. destruct (decide (intervals (snapshots m) (fragments m) = [])) as [Hnil|Hne].
  - destruct (oldest_next_empty m Hnil) as [-> ->]. rewrite Hi. rewrite Hnil in Hc.
    by apply chain_nil_inv in Hc as ->.
  - by apply manifest_chain_ends.
Qed.

Lemma collected_good n m k l g dl kp dr ks fd fk new kpss :
  good_log loads n m k l -> l = dl ++ kp -> collects loads n m k g dl kp dr ks fd fk new kpss ->
  let m' := collected_manifest m g (option_list new ++ ks) fk in
  good_log (or_made loads (snapshots_to_make g)) n m' (k + Z.of_nat (length dl)) kp /\
  oldest_timestamp m' = first_to_keep g /\
  next_write_timestamp m' = next_write_timestamp m.
Proof.
  intros [Hok Hlog Hch Hs Hi Hb] -> Hcol m'.
  pose proof (collects_setsum n m k _ g dl kp dr ks fd fk new kpss Hlog eq_refl Hcol) as Hsum.
  destruct Hcol as [Hne Hsn Hfr _ _ _ Htr Hkp _ Hlim Hdis Hkeep].
  rewrite fmap_app in Hch. apply chain_app in Hch as (c & Hc1 & Hc2).
  destruct (last dl) as [f|] eqn:Hl; [|by apply last_None in Hl]. injection Hkeep as Hkeep.
  assert (first_to_keep g = from_offset c) as Hftk.
  { apply LogPosition_eq. cbn. rewrite Hkeep. by eapply chain_last. }
  assert (chain c (intervals (option_list new ++ ks) fk) (offset (next_write_timestamp m))) as Hint.
  { pose proof Hc2 as Hc2'. rewrite Hkp, fmap_app in Hc2'. apply chain_app in Hc2' as (d & Hd1 & Hd2).
    unfold intervals. apply chain_app. exists d. split; [|done]. by eapply trees_iv. }
  destruct (chain_ends m' c (offset (next_write_timestamp m))) as [Ho Hn]; [done|by cbn; rewrite Hftk|].
  assert (next_write_timestamp m' = next_write_timestamp m) as Hn' by (apply LogPosition_eq; by rewrite Hn).
  apply seqs_from_app in Hs as [_ Hs]. rewrite length_app in Hb.
  split; [|by rewrite Ho, Hftk]. constructor.
  - constructor.
    + cbn [m' collected_manifest setsum snapshots fragments collected].
      rewrite (ok_setsum _ Hok), Hsn, Hfr, !setsum_of_app, Hdis.
      transitivity (setsum_of ptr_setsum dr +ₛ setsum_of frag_setsum fd +ₛ
                    (setsum_of ptr_setsum ks +ₛ setsum_of frag_setsum fk +ₛ collected m)).
      { rewrite !setsum_add_assoc. do 2 f_equal. rewrite <- !setsum_add_assoc. f_equal. apply setsum_add_comm. }
      rewrite Hsum, (setsum_add_comm (setsum_of frag_setsum dl)), <- !setsum_add_assoc. f_equal.
      rewrite setsum_add_comm, <- !setsum_add_assoc. done.
    + by rewrite Ho, Hn.
    + intros o [= <-]. by rewrite Ho, Hftk.
  - exists kpss. done.
  - rewrite Ho, Hn'. done.
  - done.
  - cbn. rewrite Hlim. cbn. lia.
  - lia.
Qed.

(** The fragments of the manifest that the range of the garbage covers. *)
Lemma collects_fragments n m k l g dl kp dr ks fd fk new kpss sum :
  good_log loads n m k l -> l = dl ++ kp -> collects loads n m k g dl kp dr ks fd fk new kpss ->
  foldl discard_fragment (sum, fragments m)
    (range_u64 (fsn (fragments_to_drop_start g)) (fsn (fragments_to_drop_limit g))) =
  (sum +ₛ setsum_of frag_setsum fd, fk).
Proof.
  intros [_ (frss & H2 & Hl) _ Hs _ _] -> Hcol.
  destruct Hcol as [_ _ Hfr _ (pre & Hpre) _ _ Hkp Hstart Hlim _ _].
  rewrite Hstart, Hlim, Hfr. cbn.
  pose proof Hs as Hs1. rewrite Hl in Hs1. apply seqs_from_app in Hs1 as [_ Hs1]. rewrite Hfr in Hs1.
  apply (discard_prefix (k + Z.of_nat (length (concat frss)))); [done|lia|].
  destruct fd as [|f fd].
  - right. split; [done|]. rewrite Hkp, Hfr, app_assoc in Hl. cbn in Hl. apply app_inv_tail in Hl.
    rewrite <- Hl, length_app. lia.
  - left. rewrite Hpre, length_app. cbn [app] in Hs1. destruct Hs1 as [Hf _].
    rewrite Hpre, <- app_assoc in Hs. apply seqs_from_app in Hs as [_ [Hf' _]]. lia.
Qed.

(** ** Fragments that were appended since the garbage was computed *)

Lemma fragments_appended m frs : fragments (foldl apply_fragment m frs) = fragments m ++ frs.
Proof.
  revert m. induction frs as [|f frs IH]; intros m; cbn; [by rewrite app_nil_r|].
  rewrite IH. cbn. by rewrite <- app_assoc.
Qed.

Lemma snapshots_appended m frs : snapshots (foldl apply_fragment m frs) = snapshots m.
Proof. revert m. induction frs as [|f frs IH]; intros m; cbn; [done|]. by rewrite IH. Qed.

Lemma good_log_append n m k l f :
  good_log loads n m k l -> frag_start f = next_write_timestamp m -> offset (frag_start f) < offset (frag_limit f) ->
  fsn (frag_seq_no f) = k + Z.of_nat (length l) -> k + Z.of_nat (length l) < u64_max ->
  good_log loads n (apply_fragment m f) k (l ++ [f]).
Proof.
  intros [Hok (frss & H2 & Hl) Hch Hs Hi Hb] Hstart Hlt Hseq Hmax.
  destruct (apply_fragment_ok m f Hok Hlt Hstart) as (Hok' & Ho & Hn). constructor; try done.
  - exists frss. split; [done|]. cbn. by rewrite Hl, app_assoc.
  - rewrite Ho, Hn, fmap_app. apply chain_app. exists (offset (next_write_timestamp m)). split; [done|].
    cbn. rewrite <- Hstart. by repeat constructor.
  - apply seqs_from_app. by split.
  - rewrite length_app. cbn. lia.
Qed.

Lemma good_log_appended n m k l frs e :
  good_log loads n m k l -> chain (offset (next_write_timestamp m)) (frag_iv <$> frs) e ->
  seqs_from (k + Z.of_nat (length l)) frs -> k + Z.of_nat (length l) + Z.of_nat (length frs) <= u64_max ->
  good_log loads n (foldl apply_fragment m frs) k (l ++ frs).
Proof.
  revert m l. induction frs as [|f frs IH]; intros m l Hgood Hch Hs Hmax; cbn; [by rewrite app_nil_r|].
  cbn in Hch, Hs, Hmax. inversion Hch as [|? ? ? ? Hlt Hch']; subst. destruct Hs as [Hf Hs].
  assert (frag_start f = next_write_timestamp m) as Hstart by (by apply LogPosition_eq).
  change (f :: frs) with ([f] ++ frs). rewrite app_assoc. apply (IH (apply_fragment m f) (l ++ [f])).
  - apply good_log_append; try done; lia.
  - destruct (apply_fragment_ok m f (gl_ok _ _ _ _ _ Hgood)) as (_ & _ & ->); [lia|done|done].
  - rewrite length_app. cbn. by rewrite Nat2Z.inj_add, Z.add_assoc.
  - rewrite length_app. cbn. lia.
Qed.

Lemma collects_appended n m k g dl kp dr ks fd fk new kpss frs :
  collects loads n m k g dl kp dr ks fd fk new kpss ->
  collects loads n (foldl apply_fragment m frs) k g dl (kp ++ frs) dr ks fd (fk ++ frs) new kpss.
Proof.
  intros []. constructor; try done.
  - by rewrite snapshots_appended.
  - rewrite fragments_appended, app_assoc. congruence.
  - by rewrite app_assoc; congruence.
Qed.

Lemma ok_snapshots_chain m :
  manifest_ok m -> exists c, chain (offset (oldest_timestamp m)) (ptr_iv <$> snapshots m) c.
Proof. intros [_ Hc _]. apply chain_app in Hc as (d & Hd & _). eauto. Qed.

Lemma collects_snapshots n m k g dl kp dr ks fd fk new kpss :
  manifest_ok m -> collects loads n m k g dl kp dr ks fd fk new kpss ->
  foldl (discard_snapshot (snapshot_for_root g)) (setsum_default, snapshots m) (snapshots_to_drop g) =
  (setsum_of ptr_setsum dr, ks).
Proof.
  intros Hok Hcol. destruct (ok_snapshots_chain m Hok) as [c Hc].
  pose proof (chain_NoDup _ _ _ _ Hc) as Hnd.
  destruct Hcol as [_ Hsn _ [Hdr Hds] _ Hnew _ _ _ _ _ _].
  assert (forall q, q ∈ snapshots_to_drop g -> q ∈ snapshots m -> q ∈ dr) as Honly.
  { intros q Hq Hin. destruct (Hds q Hq) as [?|(p & Hp & Hpq)]; [done|]. exfalso.
    eapply (inside_not_elem _ _ _ p q Hc); [rewrite Hsn; set_solver|done|done]. }
  rewrite Hsn in Hnd, Honly |- *. pose proof Hnd as (_ & Hdisj & _)%NoDup_app.
  rewrite discard_snapshots, setsum_default_l; [|done|].
  - rewrite !filter_app, (filter_all_in _ dr), (filter_none_in _ ks), app_nil_r by (set_solver).
    rewrite (filter_none_in _ dr), (filter_all_in _ ks) by set_solver. done.
  - intros q Hq Hin Heq. specialize (Honly q Hq Hin). destruct new as [p|].
    + destruct Hnew as [Hroot Hp]. rewrite Hroot in Heq. injection Heq as ->. done.
    + destruct Hnew as [Hroot|(p & Hroot & Hp)]; rewrite Hroot in Heq; [done|]. injection Heq as ->.
      by apply (Hdisj p).
Qed.

Lemma collects_root n m m' k g dl kp dr ks fd fk new kpss :
  manifest_ok m' -> snapshots m' = option_list new ++ ks ->
  collects loads n m k g dl kp dr ks fd fk new kpss ->
  match snapshot_for_root g with
  | Some snap => if bool_decide (snap ∈ ks) then (setsum_default, ks) else (ptr_setsum snap, snap :: ks)
  | None => (setsum_default, ks)
  end = (setsum_of ptr_setsum (option_list new), option_list new ++ ks).
Proof.
  intros Hok Hm' Hcol. destruct (ok_snapshots_chain m' Hok) as [c Hc].
  apply chain_NoDup in Hc. rewrite Hm' in Hc.
  pose proof (col_new _ _ _ _ _ _ _ _ _ _ _ _ _ Hcol) as Hnew. destruct new as [p|]; cbn in *.
  - destruct Hnew as [-> _]. apply NoDup_cons in Hc as [Hp _].
    by rewrite bool_decide_eq_false_2, setsum_of_singleton by done.
  - destruct Hnew as [->|(p & -> & Hp)]; [done|]. by rewrite bool_decide_eq_true_2.
Qed.

Lemma apply_collects n m k l g dl kp dr ks fd fk new kpss :
  good_log loads n m k l -> l = dl ++ kp -> collects loads n m k g dl kp dr ks fd fk new kpss ->
  apply_garbage m g = Ok (Some (collected_manifest m g (option_list new ++ ks) fk)).
Proof.
  intros Hgood Hl Hcol.
  destruct (collected_good n m k l g dl kp dr ks fd fk new kpss Hgood Hl Hcol) as (Hgood' & Ho & Hn).
  pose proof (collects_setsum n m k _ g dl kp dr ks fd fk new kpss (gl_log _ _ _ _ _ Hgood) Hl Hcol) as Hsum.
  destruct (scrub_complete _ (gl_ok _ _ _ _ _ Hgood')) as [ss Hss].
  pose proof (gl_initial _ _ _ _ _ Hgood) as Hinit.
  pose proof (col_limit _ _ _ _ _ _ _ _ _ _ _ _ _ Hcol) as Hlim.
  assert (0 < Z.of_nat (length dl)) as Hlen.
  { pose proof (col_nonempty _ _ _ _ _ _ _ _ _ _ _ _ _ Hcol). destruct dl; [done|]. cbn. lia. }
  unfold apply_garbage, is_empty.
  rewrite (bool_decide_eq_false_2 (g = _)) by (intros ->; cbn in Hlim; injection Hlim; lia).
  replace (FragmentSeqNo.leb (fragments_to_drop_limit g) _) with false
    by (symmetry; apply Z.leb_gt; rewrite Hlim; cbn; lia).
  replace (FragmentSeqNo.ltb (fragments_to_drop_limit g) _) with false
    by (symmetry; apply Z.ltb_ge; rewrite Hlim, (col_start _ _ _ _ _ _ _ _ _ _ _ _ _ Hcol); cbn; lia).
  rewrite (bool_decide_eq_false_2 (fragments_to_drop_limit g = _)) by (rewrite Hlim; intros [=]; lia).
  cbn [andb]. rewrite (collects_snapshots n m k g dl kp dr ks fd fk new kpss (gl_ok _ _ _ _ _ Hgood) Hcol).
  rewrite (collects_fragments n m k l g dl kp dr ks fd fk new kpss _ Hgood Hl Hcol).
  rewrite (collects_root n m _ k g dl kp dr ks fd fk new kpss (gl_ok _ _ _ _ _ Hgood') eq_refl Hcol).
  rewrite bool_decide_eq_false_2.
  2: { intros Hx; apply Hx. rewrite Hsum, (col_setsum _ _ _ _ _ _ _ _ _ _ _ _ _ Hcol). apply setsum_add_sub. }
  fold (collected_manifest m g (option_list new ++ ks) fk). rewrite Hss, Ho, Hn.
  unfold LogPosition.ltb. rewrite Z.ltb_irrefl, bool_decide_eq_false_2 by (intros Hx; by apply Hx). done.
Qed.
End Applying.

(** ** Computing garbage *)

Section Computing.
Context {SS : SetsumSig} {SL : SetsumLaws SS} {OS : ObjectStore} {cache : SnapshotCache}.
Context {serde_snapshot : Serde Snapshot}.
Variable prefix : string.
Variable I : world -> Prop.
Variable E : Error -> Prop.
#[local] Abbreviation loads := (loads prefix I E).

Definition garbage_for (n : nat) (m : Manifest) (k : Z) (l : list Fragment) (keep : LogPosition)
    (r : option Garbage) : Prop :=
  match r with
  | None => forall f, list.head l = Some f -> offset keep < offset (frag_limit f)
  | Some g => exists dl kp dr ks fd fk new kpss,
      l = dl ++ kp /\ Forall (fun f => offset (frag_limit f) <= offset keep) dl /\
      collects loads n m k g dl kp dr ks fd fk new kpss
  end.

(** The end of [Garbage::new]. *)
Definition finish_new (r : Setsum * GcState) : M (option Garbage) :=
  let '(drop_acc, st) := r in
  let g := gs_garbage st in
  if bool_decide (drop_acc <> setsum_to_discard g)
  then throw (ScrubError_ (ScrubCorruptGarbage "setsums don't balance")) else
  ret (if negb (gs_first st)
       then Some (mkGarbage (snapshots_to_drop g) (snapshots_to_make g) (snapshot_for_root g)
                    (fragments_to_drop_start g) (fragments_to_drop_limit g) (setsum_to_discard g)
                    (gs_keep st))
       else None).

(** The garbage of a finished collection. *)
Definition garbage_of (ds : list SnapshotPointer) (mk : list Snapshot) (root : option SnapshotPointer)
    (k : Z) (dl : list Fragment) (keep : LogPosition) : Garbage :=
  mkGarbage ds mk root (mkSeqNo k) (mkSeqNo (k + Z.of_nat (length dl))) (setsum_of frag_setsum dl) keep.

Lemma finish_new_wp ds mk root k dl keep (Q : option Garbage -> Prop) :
  seqs_from k dl -> 0 <= k -> k + Z.of_nat (length dl) <= u64_max ->
  (dl = [] -> Q None) ->
  (forall f, last dl = Some f -> Q (Some (garbage_of ds mk root k dl (frag_limit f)))) ->
  wp I E (finish_new (setsum_of frag_setsum dl,
                      set_root root (after (initial_state keep) ds mk dl))) Q.
Proof.
  intros Hs Hk Hb Hnone Hsome. unfold finish_new. cbn.
  rewrite setsum_default_l, bool_decide_eq_false_2 by (intros Hx; by apply Hx). apply wp_ret.
  destruct (last dl) as [f|] eqn:Hl.
  - rewrite bool_decide_eq_false_2 by (by intros ->). cbn.
    pose proof (last_seq _ _ _ Hs Hl) as Hf.
    replace (FragmentSeqNo.add (frag_seq_no f) 1) with (mkSeqNo (k + Z.of_nat (length dl))).
    2: { apply FragmentSeqNo_eq. cbn. rewrite wrapping_add_small; [lia|]. unfold is_u64.
         destruct dl; [done|]. cbn in *. lia. }
    replace (default (mkSeqNo 0) (frag_seq_no <$> list.head dl)) with (mkSeqNo k); [by apply Hsome|].
    apply FragmentSeqNo_eq. destruct dl as [|x dl]; [done|]. cbn. by destruct Hs as [-> _].
  - apply last_None in Hl as ->. cbn. by apply Hnone.
Qed.

Lemma ready_initial keep k : ready (initial_state keep) k.
Proof. unfold ready. cbn. intros [=]. Qed.

Lemma set_root_none st : snapshot_for_root (gs_garbage st) = None -> set_root None st = st.
Proof. destruct st as [[] ? ?]. cbn. by intros ->. Qed.

(** The cutoff lies before the log. *)
Lemma new_before n m k l keep :
  good_log loads n m k l -> offset keep < offset (oldest_timestamp m) ->
  wp I E (Garbage_new prefix n m keep) (garbage_for n m k l keep).
Proof.
  intros [Hok _ Hch _ _ _] Hlt. unfold Garbage_new.
  pose proof (ok_chain _ Hok) as Hc. unfold intervals in Hc. apply chain_app in Hc as (c & Hps & Hfs).
  pose proof (chain_le _ _ _ Hps) as Hoc.
  rewrite (filter_none (fun s => expired keep (ptr_limit s))), (filter_none (straddles keep)),
    (filter_none (fun f => expired keep (frag_limit f))).
  - cbn [length]. change ((1 <? 0)%nat) with false. apply wp_bind, wp_ret, wp_bind, wp_ret, wp_bind, wp_ret.
    cbn. rewrite bool_decide_eq_false_2 by (intros Hx; by apply Hx). apply wp_ret. cbn.
    intros f Hf. destruct l as [|f' l]; [done|]. cbn in Hf. injection Hf as ->. cbn in Hch.
    inversion Hch; subst. lia.
  - apply Forall_forall. intros f Hf. apply expired_false. apply (list_elem_of_fmap_2 frag_iv) in Hf.
    apply (chain_bounds _ _ _ _ _ Hfs) in Hf. lia.
  - apply Forall_forall. intros f Hf. destruct (straddles keep f) eqn:He; [|done].
    apply straddles_spec in He. apply (list_elem_of_fmap_2 ptr_iv) in Hf.
    apply (chain_bounds _ _ _ _ _ Hps) in Hf. lia.
  - apply Forall_forall. intros f Hf. apply expired_false. apply (list_elem_of_fmap_2 ptr_iv) in Hf.
    apply (chain_bounds _ _ _ _ _ Hps) in Hf. lia.
Qed.

(** The cutoff lies after the snapshots. *)
Lemma new_after n m k l keep frss c :
  good_log loads n m k l -> Forall2 (tree loads n) (snapshots m) frss -> l = concat frss ++ fragments m ->
  chain (offset (oldest_timestamp m)) (frag_iv <$> concat frss) c -> c <= offset keep ->
  wp I E (Garbage_new prefix n m keep) (garbage_for n m k l keep).
Proof.
  intros [Hok _ Hch Hs Hi Hb] H2 -> Hc Hkeep. unfold Garbage_new.
  pose proof (trees_iv n _ _ _ _ H2 Hc) as Hps.
  assert (forall q, q ∈ snapshots m -> offset (ptr_limit q) <= offset keep) as Hexp.
  { intros q Hq. apply (list_elem_of_fmap_2 ptr_iv) in Hq. apply (chain_bounds _ _ _ _ _ Hps) in Hq. lia. }
  rewrite (filter_all (fun s => expired keep (ptr_limit s))), (filter_none (straddles keep)).
  2: { apply Forall_forall. intros q Hq. destruct (straddles keep q) eqn:He; [|done].
       apply straddles_spec in He. specialize (Hexp q Hq). lia. }
  2: { apply Forall_forall. intros q Hq. by apply expired_spec, Hexp. }
  rewrite fmap_app in Hch. apply chain_app in Hch as (c' & Hc' & Hfs).
  destruct (cut_fragments keep (fragments m) _ _ Hfs) as (fd & fk & Hfr & -> & _ & Hfd & Hfk).
  rewrite Hfr in Hs, Hb. rewrite app_assoc in Hs, Hb. rewrite length_app in Hb.
  apply seqs_from_app in Hs as [Hs _]. pose proof Hs as Hs'. apply seqs_from_app in Hs' as [Hs1 Hs2].
  rewrite !length_app in Hb. cbn [length]. change ((1 <? 0)%nat) with false.
  apply wp_bind. eapply wp_mono; [eapply (drop_snapshots_wp prefix I E n _ _ k); try done; lia|].
  intros r (ds & -> & Hds). apply wp_bind.
  eapply wp_mono; [apply (drop_fragments_wp I E _ _ (k + Z.of_nat (length (concat frss)))); try lia; [|done]|].
  { apply ready_after; [apply ready_initial|done|lia..]. }
  intros r ->. apply wp_bind, wp_ret. rewrite after_after, setsum_default_l, <- setsum_of_app, app_nil_r.
  rewrite <- (set_root_none (after _ _ _ _)) by done.
  apply (finish_new_wp ds ([] ++ []) None k (concat frss ++ fd) keep); [done|lia|rewrite length_app; lia| |].
  - intros [Hnil1 Hnil2]%app_nil f. rewrite Hnil1, Hfr, Hnil2. cbn. intros Hf.
    destruct fk as [|f' fk]; [done|]. cbn in Hf. injection Hf as ->. by inversion Hfk.
  - intros f Hf. exists (concat frss ++ fd), fk, (snapshots m), [], fd, fk, None, [].
    split; [by rewrite Hfr, app_assoc|]. split.
    + apply Forall_app. split; [|done]. apply Forall_forall. intros x Hx.
      apply (list_elem_of_fmap_2 frag_iv) in Hx. apply (chain_bounds _ _ _ _ _ Hc) in Hx. lia.
    + constructor; cbn; try done; [by intros Hnil; rewrite Hnil in Hf|by rewrite app_nil_r|eauto|auto|by rewrite Hf].
Qed.

(** The cutoff lies in one of the snapshots. *)
Lemma new_split n m k l keep frss c :
  good_log loads n m k l -> Forall2 (tree loads n) (snapshots m) frss -> l = concat frss ++ fragments m ->
  chain (offset (oldest_timestamp m)) (frag_iv <$> concat frss) c ->
  chain c (frag_iv <$> fragments m) (offset (next_write_timestamp m)) ->
  offset (oldest_timestamp m) <= offset keep < c ->
  wp I E (Garbage_new prefix n m keep) (garbage_for n m k l keep).
Proof.
  intros [Hok _ _ Hs Hi Hb] H2 -> Hc Hfs Hkeep. unfold Garbage_new.
  destruct (cut_snapshots keep (snapshots m) (offset (oldest_timestamp m)) c) as (dr & sp & ks & Hps & -> & _ & _ & -> & Hsp);
    [by eapply trees_iv|done|].
  rewrite (filter_none (fun f => expired keep (frag_limit f))).
  2: { apply Forall_forall. intros f Hf. apply expired_false. apply (list_elem_of_fmap_2 frag_iv) in Hf.
       apply (chain_bounds _ _ _ _ _ Hfs) in Hf. lia. }
  cbn [length]. change ((1 <? 1)%nat) with false.
  pose proof (ok_snapshots_chain m Hok) as [c0 Hc0]. pose proof (chain_NoDup _ _ _ _ Hc0) as Hnd.
  rewrite Hps in H2, Hnd, Hc0. apply Forall2_app_inv_l in H2 as (frss1 & frss2 & H21 & H22 & ->).
  inversion H22 as [|? fsp ? frss3 Hfsp H23]; subst. clear H22.
  rewrite concat_app in *. cbn [concat] in *. rewrite app_assoc in *.
  pose proof Hc as Hch'. rewrite !fmap_app in Hch'.
  apply chain_app in Hch' as (c2 & Hch' & Hc3). apply chain_app in Hch' as (c1 & Hc1 & Hc2).
  pose proof (tree_iv n sp fsp c1 c2 Hfsp Hc2) as Hspiv. pose proof Hspiv as Hspiv'.
  injection Hspiv' as Hi1 Hi2. rewrite <- app_assoc in Hs, Hb |- *.
  apply seqs_from_app in Hs as [Hs _]. rewrite length_app in Hb.
  eapply (wp_ext I E); [|eapply (cut_children prefix I E n (initial_state keep) k dr sp frss1 fsp _ c2 c1
      (fun r => let '(acc, child, st) := r in finish_new (acc, set_root child st)))];
    try done; [|intros r Hr|apply replace_snapshot_wp|lia|lia|cbn; lia].
  - intros w. unfold bind. destruct (drop_snapshots _ _ _ _ _ w) as [[[acc st0]|e|] w1]; [|done..].
    cbn. unfold bind. destruct (replace_snapshot _ _ _ _ w1) as [[[[d ch] st1]|e|] w2]; done.
  - destruct Hr as (dl & fc & ds & mk & new & Hfr & Hfc & Hexp & Hhd & -> & Ht & _ & Hlist).
    rewrite Hfr in Hs, Hb, Hhd |- *. apply seqs_from_app in Hs as [Hs _]. rewrite length_app in Hb.
    rewrite <- !app_assoc.
    apply (finish_new_wp _ _ _ k); [done|lia|lia| |].
    + intros -> f Hf. cbn in Hf. destruct (Z.lt_ge_cases (offset keep) (offset (frag_limit f))); [done|].
      exfalso. apply (Hhd f); [|cbn; lia|done]. cbn. destruct fc; [done|exact Hf].
    + intros f Hf.
      assert (dl <> []) as Hdl by (by intros ->).
      assert (Forall2 (tree (or_made loads mk) n) (new :: ks) (fc :: frss3)) as Htr.
      { constructor; [done|]. eapply Forall2_tree_mono; [|exact H23]. intros q x. apply tree_or_made. }
      destruct Hlist as [(-> & -> & Hl & Hdr)|(-> & _ & Hl)].
      * exists dl, (fc ++ concat frss3 ++ fragments m), dr, (sp :: ks), [], (fragments m), None, (fc :: frss3).
        split_and!; [done|done|]. constructor; cbn; try done; [eexists; by rewrite app_nil_r| | |by rewrite Hf].
        -- right. exists sp. split; [done|by constructor].
        -- by rewrite app_assoc.
      * exists dl, (fc ++ concat frss3 ++ fragments m), [sp], ks, [], (fragments m), (Some new), (fc :: frss3).
        inversion H21; subst. cbn in Hfr, Hc1. apply chain_nil_inv in Hc1. subst fsp.
        split_and!; [done|done|]. constructor; cbn; try done; [eexists; by rewrite app_nil_r| | |by rewrite Hf].
        -- split; [done|]. rewrite list_elem_of_singleton. by eapply remnant_differs.
        -- by rewrite app_assoc.
Qed.

Lemma Garbage_new_wp n m k l keep :
  good_log loads n m k l -> wp I E (Garbage_new prefix n m keep) (garbage_for n m k l keep).
Proof.
  intros Hgood. pose proof (gl_log _ _ _ _ _ Hgood) as (frss & H2 & Hl).
  pose proof (gl_chain _ _ _ _ _ Hgood) as Hch. rewrite Hl, fmap_app in Hch.
  apply chain_app in Hch as (c & Hc & Hfs).
  destruct (Z.lt_ge_cases (offset keep) (offset (oldest_timestamp m))); [by apply new_before|].
  destruct (Z.lt_ge_cases (offset keep) c).
  - by eapply new_split.
  - by eapply new_after.
Qed.
End Computing.
