(* ===== verification/ReaderFacts.v ===== *)
(** * What scans return

    The lemmas behind the theorems about [LogReader]: the loops that trim a
    scan to its limits, and the level-by-level resolution of snapshots. *)

From S2P Require Import Prelude Setsum Storage Types Paths Effects Manifest ManifestFacts Persist Gc GcFacts.
From S2P Require Import GcApply Reader.

#[local] Open Scope Z_scope.
#[local] Open Scope wal_scope.

(** ** Trimming *)

Section Trimming.
Context {SS : SetsumSig}.

Lemma pop_while_spec cond rl s rl' s' :
  pop_while cond rl s = (rl', s') ->
  exists popped, rl = popped ++ rl' /\ (rl <> [] -> rl' <> []) /\ (popped = [] -> s' = s) /\
    (forall p y, popped = p ++ [y] -> s' = true /\ cond (y :: rl') = true) /\
    ((length rl' <= 1)%nat \/ cond rl' = false).
Proof.
  revert s. induction rl as [|x rl IH]; intros s; cbn.
  { intros [= <- <-]. exists []. split_and!; try done; [|left; cbn; lia]. by intros [] y. }
  destruct rl as [|x2 rl].
  { intros [= <- <-]. exists []. split_and!; try done; [|left; cbn; lia]. by intros [] y. }
  destruct (cond (x :: x2 :: rl)) eqn:Hc.
  - intros Hp. destruct (IH true Hp) as (popped & Heq & Hne & Hs & Hlast & Hstop).
    exists (x :: popped). rewrite Heq. split_and!; try done; [intros _; by apply Hne|].
    intros p y Hy. destruct (decide (popped = [])) as [->|Hpop].
    + destruct p as [|? []]; [|done..]. injection Hy as ->. cbn in Heq. split; [by apply Hs|by rewrite <- Heq].
    + destruct p as [|? p]; [by injection Hy as _ ->|]. injection Hy as _ Hy. by apply (Hlast p).
  - intros [= <- <-]. exists []. split_and!; try done; [|by right]. by intros [] y.
Qed.

(** Why a scan stops before [x]. *)
Definition stopped (from : LogPosition) (limits : Limits) (res : list Fragment) (x : Fragment) : Prop :=
  (exists n, max_files limits = Some n /\ n <= Z.of_nat (length res)) \/
  default u64_max (max_records limits) < LogPosition.diff (frag_start x) from \/
  default u64_max (max_bytes limits) < foldl saturating_add 0 (frag_num_bytes <$> (res ++ [x])).

(** The outcome of a trim: a prefix, within the limits, and a reason for
    everything it leaves out. *)
Record trimmed (frags : list Fragment) (from : LogPosition) (limits : Limits) (short : bool)
    (res rest : list Fragment) (short' : bool) : Prop := {
  tr_split : frags = res ++ rest;
  tr_files : forall n, max_files limits = Some n -> 0 <= n -> Z.of_nat (length res) <= n;
  tr_bytes : (length res <= 1)%nat \/
             foldl saturating_add 0 (frag_num_bytes <$> res) <= default u64_max (max_bytes limits);
  tr_short : short' = short || bool_decide (rest <> []);
  tr_reason : forall x r, rest = x :: r -> stopped from limits res x;
}.

Lemma reverse_split {A} (l l1 l2 : list A) : reverse l = l1 ++ l2 -> l = reverse l2 ++ reverse l1.
Proof. intros H. rewrite <- (reverse_involutive l), H. apply reverse_app. Qed.

Lemma foldl_saturating_app l1 l2 :
  foldl saturating_add 0 (l1 ++ l2) = foldl saturating_add (foldl saturating_add 0 l1) l2.
Proof. apply foldl_app. Qed.

Lemma pop_while_reverse cond (l : list Fragment) s rl' s' :
  pop_while cond (reverse l) s = (rl', s') ->
  exists rest, l = reverse rl' ++ rest /\ s' = s || bool_decide (rest <> []) /\
    (forall y r, rest = y :: r -> cond (reverse (reverse rl' ++ [y])) = true) /\
    ((length rl' <= 1)%nat \/ cond rl' = false).
Proof.
  intros (popped & Heq & _ & Hs & Hlast & Hstop)%pop_while_spec.
  exists (reverse popped). split; [by apply reverse_split|].
  destruct popped as [|y p _] using rev_ind.
  - rewrite reverse_nil, bool_decide_eq_false_2, orb_false_r by (intros Hx; by apply Hx).
    split_and!; [by apply Hs|done|done].
  - destruct (Hlast p y eq_refl) as [-> Hc]. rewrite reverse_snoc.
    rewrite bool_decide_eq_true_2, orb_true_r by done. split_and!; [done| |done].
    intros y' r [= <- _]. by rewrite reverse_snoc, reverse_involutive.
Qed.

Lemma post_process_trimmed frags from limits short res short' :
  StronglySorted (fun f g => offset (frag_start f) <= offset (frag_start g)) frags ->
  (forall n, max_files limits = Some n -> 0 <= n) ->
  post_process_fragments frags from limits short = (res, short') ->
  exists rest, trimmed frags from limits short res rest short'.
Proof.
  intros Hsort Hpos. unfold post_process_fragments. rewrite sort_by_key_id by done.
  assert (exists frags1 rest1 short1,
    match max_files limits with
    | Some n => if n <? Z.of_nat (length frags) then (take (Z.to_nat n) frags, true) else (frags, short)
    | None => (frags, short)
    end = (frags1, short1) /\ frags = frags1 ++ rest1 /\ short1 = short || bool_decide (rest1 <> []) /\
    (forall n, max_files limits = Some n -> Z.of_nat (length frags1) <= n) /\
    (rest1 <> [] -> exists n, max_files limits = Some n /\ n <= Z.of_nat (length frags1)))
    as (frags1 & rest1 & short1 & -> & Hsplit1 & Hshort1 & Hn1 & Hr1).
  { destruct (max_files limits) as [n|].
    - specialize (Hpos n eq_refl). destruct (Z.ltb_spec n (Z.of_nat (length frags))) as [Hlt|Hge].
      + exists (take (Z.to_nat n) frags), (drop (Z.to_nat n) frags), true.
        rewrite take_drop, bool_decide_eq_true_2, orb_true_r, length_take.
        * split_and!; try done; [intros ? [= <-]; lia|]. intros _. exists n. split; [done|lia].
        * intros Hnil%(f_equal length). rewrite length_drop in Hnil. cbn in Hnil. lia.
      + exists frags, [], short. rewrite app_nil_r, bool_decide_eq_false_2, orb_false_r by (intros Hx; by apply Hx).
        split_and!; try done. by intros ? [= <-].
    - exists frags, [], short. rewrite app_nil_r, bool_decide_eq_false_2, orb_false_r by (intros Hx; by apply Hx).
      done. }
  destruct (pop_while (starts_too_late from limits) (reverse frags1) short1) as [rl2 short2] eqn:Hp2.
  apply pop_while_reverse in Hp2 as (rest2 & Hsplit2 & Hshort2 & Hr2 & _).
  rewrite <- (reverse_involutive rl2) at 1.
  destruct (pop_while (too_many_bytes limits) (reverse (reverse rl2)) short2) as [rl3 short3] eqn:Hp3.
  apply pop_while_reverse in Hp3 as (rest3 & Hsplit3 & Hshort3 & Hr3 & Hstop3).
  intros [= <- <-]. exists (rest3 ++ rest2 ++ rest1).
  rewrite Hsplit3 in Hsplit2, Hr2. constructor.
  - rewrite Hsplit1, Hsplit2. by rewrite !app_assoc.
  - intros n Hn _. specialize (Hn1 n Hn). rewrite Hsplit2, !length_app in Hn1. lia.
  - rewrite length_reverse. destruct Hstop3 as [?|Hstop3]; [by left|right].
    unfold too_many_bytes in Hstop3. by apply Z.ltb_ge in Hstop3.
  - rewrite Hshort3, Hshort2, Hshort1. destruct short; [done|]. cbn.
    destruct rest1, rest2, rest3; done.
  - intros x r Hx. destruct rest3 as [|y rest3].
    + rewrite app_nil_r in Hr2. destruct rest2 as [|y rest2].
      * left. cbn in Hx. rewrite !app_nil_r in Hsplit2. destruct (Hr1 ltac:(by rewrite Hx)) as (n & Hn & Hle).
        exists n. split; [done|]. by rewrite <- Hsplit2.
      * right. left. injection Hx as -> _. specialize (Hr2 x rest2 eq_refl).
        unfold starts_too_late in Hr2. rewrite reverse_snoc in Hr2. by apply Z.ltb_lt in Hr2.
    + right. right. injection Hx as -> _. specialize (Hr3 x rest3 eq_refl).
      unfold too_many_bytes in Hr3. rewrite reverse_involutive in Hr3. by apply Z.ltb_lt in Hr3.
Qed.
End Trimming.

(** ** Resolving snapshots *)

Section Resolving.
Context {SS : SetsumSig} {SL : SetsumLaws SS} {OS : ObjectStore}.
Context {serde_snapshot : Serde Snapshot}.
Variable prefix : string.
Variable cache : option SnapshotCache.
Variable I : world -> Prop.
Variable E : Error -> Prop.

Definition resolves (p : SnapshotPointer) (s : Snapshot) : Prop :=
  wp I E (resolve prefix cache p) (fun r => r = Some s).

(** The snapshots at the roots of trees, with what they hold. *)
Lemma trees_unfold n ps frss :
  Forall2 (tree resolves (S n)) ps frss ->
  exists ss kids, Forall2 resolves ps ss /\
    Forall2 (tree resolves n) (concat (snap_snapshots <$> ss)) kids /\
    concat (snap_fragments <$> ss) ++ concat kids ≡ₚ concat frss.
Proof.
  induction 1 as [|p frs ps frss Hp _ IH].
  - exists [], []. split_and!; constructor.
  - destruct IH as (ss & kids & H1 & H2 & H3). destruct Hp as (s & Hs & _ & _ & Hk).
    destruct Hk as [(Hsn & _ & ->)|(Hsf & _ & kids' & H2' & ->)].
    + exists (s :: ss), kids. cbn. rewrite Hsn. split_and!; [by constructor|done|].
      by rewrite <- H3, app_assoc.
    + exists (s :: ss), (kids' ++ kids). cbn. rewrite Hsf, concat_app. split_and!;
        [by constructor|by apply Forall2_app|]. cbn. rewrite <- H3. solve_Permutation.
Qed.

Lemma mapM_resolve ps ss :
  Forall2 resolves ps ss -> wp I E (mapM (resolve prefix cache) ps) (fun r => r = Some <$> ss).
Proof.
  induction 1 as [|p s ps ss Hp _ IH]; cbn; [by apply wp_ret|].
  apply wp_bind. eapply wp_mono; [exact Hp|]. intros r ->. apply wp_bind.
  eapply wp_mono; [exact IH|]. intros r ->. by apply wp_ret.
Qed.

Lemma expand_all ss ps snaps frags :
  length ps = length ss ->
  expand (Some <$> ss) ps snaps frags =
  Ok (snaps ++ concat (snap_snapshots <$> ss), frags ++ concat (snap_fragments <$> ss)).
Proof.
  revert ps snaps frags. induction ss as [|s ss IH]; intros [|p ps] snaps frags Hlen; cbn in *; try lia.
  - by rewrite !app_nil_r.
  - rewrite IH by lia. by rewrite !app_assoc.
Qed.

(** All levels of trees of height [n] are resolved in [n] rounds. *)
Lemma resolve_levels_wp n ps frss frags :
  Forall2 (tree resolves n) ps frss ->
  wp I E (resolve_levels prefix cache n ps frags) (fun r => r ≡ₚ frags ++ concat frss).
Proof.
  revert ps frss frags. induction n as [|n IH]; intros ps frss frags H2.
  - destruct H2 as [|p frs ps frss []]. cbn. apply wp_ret. by rewrite app_nil_r.
  - destruct ps as [|p ps].
    { inversion H2; subst. cbn. apply wp_ret. by rewrite app_nil_r. }
    destruct (trees_unfold n _ _ H2) as (ss & kids & H1 & Hk & Hperm). cbn [resolve_levels].
    apply wp_bind. eapply wp_mono; [by apply mapM_resolve|]. intros r ->.
    rewrite expand_all by (by apply Forall2_length in H1). apply wp_bind, wp_ret. cbn [app].
    eapply wp_mono; [by apply IH|]. intros r ->. by rewrite <- app_assoc, Hperm.
Qed.
End Resolving.

(** ** Scanning *)

Section Scanning.
Context {SS : SetsumSig} {SL : SetsumLaws SS} {OS : ObjectStore}.
Context {serde_snapshot : Serde Snapshot}.
Variable prefix : string.
Variable cache : option SnapshotCache.
Variable I : world -> Prop.
Variable E : Error -> Prop.

(** The fragments that reach past a position. *)
Definition past (from : LogPosition) (l : list Fragment) : list Fragment :=
  List.filter (fun f => LogPosition.ltb from (frag_limit f)) l.

(** What a scan of the log [l] returns: [fetched] is the part of the log past
    [from] that was resolved, all the rest starts after the last record asked
    for, and the result is [fetched] trimmed to the limits. *)
Definition scanned (l : list Fragment) (from : LogPosition) (limits : Limits) (short : bool)
    (r : list Fragment * bool) : Prop :=
  exists fetched beyond rest,
    past from l = fetched ++ beyond /\ trimmed fetched from limits short r.1 rest r.2 /\
    Forall (fun f => exists n, max_records limits = Some n /\ offset from + n <= offset (frag_start f)) beyond.

(** Limits of 64-bit values, and a range that does not wrap around. *)
Record limits_ok (from : LogPosition) (limits : Limits) : Prop := {
  lim_files : forall n, max_files limits = Some n -> 0 <= n;
  lim_records : forall n, max_records limits = Some n -> 0 <= n /\ offset from + n <= u64_max;
  lim_from : 0 <= offset from <= u64_max;
}.

Lemma scan_range_limit from limits :
  limits_ok from limits -> (scan_range from limits).1 = from /\
  match max_records limits with
  | Some n => offset (scan_range from limits).2 = offset from + n
  | None => offset (scan_range from limits).2 = u64_max
  end.
Proof.
  intros [_ Hr Hf]. unfold scan_range. destruct (max_records limits) as [n|]; [|done].
  destruct (Hr n eq_refl). cbn. rewrite wrapping_add_small; [done|]. unfold is_u64. lia.
Qed.

Lemma overlap_iff range s e :
  ranges_overlap range (s, e) = true <-> offset range.1 < offset e /\ offset s < offset range.2.
Proof. unfold ranges_overlap, LogPosition.ltb. cbn. by rewrite andb_true_iff, !Z.ltb_lt. Qed.

Lemma past_none from l : Forall (fun f => offset (frag_limit f) <= offset from) l -> past from l = [].
Proof. intros H. apply filter_none. eapply Forall_impl; [exact H|]. intros f Hf. by apply Z.ltb_ge. Qed.

Lemma past_all from l : Forall (fun f => offset from < offset (frag_limit f)) l -> past from l = l.
Proof. intros H. apply filter_all. eapply Forall_impl; [exact H|]. intros f Hf. by apply Z.ltb_lt. Qed.

(** The window of a list that a range selects. *)
Lemma window_filter {A} (sel : A -> bool) (iv : A -> Z * Z) lo hi l1 l2 l3 :
  (forall x, sel x = true <-> lo < (iv x).2 /\ (iv x).1 < hi) ->
  Forall (fun x => (iv x).2 <= lo) l1 -> Forall (fun x => lo < (iv x).2 /\ (iv x).1 < hi) l2 ->
  Forall (fun x => lo < (iv x).2 /\ hi <= (iv x).1) l3 ->
  List.filter sel (l1 ++ l2 ++ l3) = l2.
Proof.
  intros Hsel H1 H2 H3. rewrite !List.filter_app, (filter_none sel l1), (filter_all sel l2), (filter_none sel l3).
  - apply app_nil_r.
  - eapply Forall_impl; [exact H3|]. intros x Hx. cbn in Hx. apply not_true_iff_false. rewrite Hsel. lia.
  - eapply Forall_impl; [exact H2|]. intros x Hx. by apply Hsel.
  - eapply Forall_impl; [exact H1|]. intros x Hx. cbn in Hx. apply not_true_iff_false. rewrite Hsel. lia.
Qed.

Lemma chain_start_sorted a l b :
  chain a (frag_iv <$> l) b -> StronglySorted (fun f g => offset (frag_start f) < offset (frag_start g)) l.
Proof.
  revert a. induction l as [|f l IH]; intros a Hc; [constructor|]. cbn in Hc.
  inversion Hc as [|? ? ? ? Hlt Hc']; subst. constructor; [by eapply IH|].
  apply Forall_forall. intros g Hg. apply (list_elem_of_fmap_2 frag_iv) in Hg.
  apply (chain_bounds _ _ _ _ _ Hc') in Hg. lia.
Qed.

Lemma filter_sorted {A} (R : A -> A -> Prop) (f : A -> bool) l :
  StronglySorted R l -> StronglySorted R (List.filter f l).
Proof.
  induction 1 as [|x l Hs IH Hx]; cbn; [constructor|]. destruct (f x); [|done].
  constructor; [done|]. apply Forall_forall. intros y Hy. apply list_elem_of_In, List.filter_In in Hy as [Hy _].
  rewrite Forall_forall in Hx. apply Hx. by apply list_elem_of_In.
Qed.

Lemma past_app from l1 l2 : past from (l1 ++ l2) = past from l1 ++ past from l2.
Proof. apply List.filter_app. Qed.

Lemma past_perm from l1 l2 : l1 ≡ₚ l2 -> past from l1 ≡ₚ past from l2.
Proof.
  unfold past. induction 1 as [|x l l' _ IH|x y l|l1 l2 l3 _ IH1 _ IH2]; cbn; [done| | |by etrans].
  - destruct (LogPosition.ltb _ _); [by constructor|done].
  - destruct (LogPosition.ltb from (frag_limit x)), (LogPosition.ltb from (frag_limit y)); try done. apply Permutation_swap.
Qed.

(** The fragments of a tree lie where its pointer says. *)
Lemma trees_bounds (R : SnapshotPointer -> Snapshot -> Prop) n ps frss a b f :
  Forall2 (tree R n) ps frss -> chain a (frag_iv <$> concat frss) b -> f ∈ concat frss ->
  exists p, p ∈ ps /\ offset (ptr_start p) <= offset (frag_start f) /\ offset (frag_limit f) <= offset (ptr_limit p).
Proof.
  intros H2. revert a. induction H2 as [|p frs ps frss Hp H2 IH]; intros a Hc Hf; [by apply elem_of_nil in Hf|].
  cbn in Hc, Hf. rewrite fmap_app in Hc. apply chain_app in Hc as (c & Hc1 & Hc2).
  apply elem_of_app in Hf as [Hf|Hf].
  - exists p. split; [by constructor|]. pose proof (tree_iv n p frs a c Hp Hc1) as [= <- <-].
    apply (list_elem_of_fmap_2 frag_iv) in Hf. apply (chain_bounds _ _ _ _ _ Hc1) in Hf. lia.
  - destruct (IH c Hc2 Hf) as (q & Hq & Hb). exists q. split; [by constructor|done].
Qed.

(** Which snapshots and fragments of a manifest a scan selects. *)
Lemma scan_window m l n from limits :
  limits_ok from limits -> log_of (resolves prefix cache I E) n m l ->
  chain (offset (oldest_timestamp m)) (frag_iv <$> l) (offset (next_write_timestamp m)) ->
  offset (next_write_timestamp m) <= u64_max ->
  exists ps frss fs beyond,
    List.filter (fun s => ranges_overlap (scan_range from limits) (ptr_start s, ptr_limit s)) (snapshots m) = ps /\
    List.filter (in_range (scan_range from limits)) (fragments m) = fs /\
    Forall2 (tree (resolves prefix cache I E) n) ps frss /\
    past from l = past from (concat frss ++ fs) ++ beyond /\
    Forall (fun f => exists n, max_records limits = Some n /\ offset from + n <= offset (frag_start f)) beyond.
Proof.
  intros Hlim (frss & H2 & ->) Hch Hmax.
  destruct (scan_range_limit from limits Hlim) as [Hr1 Hr2].
  set (hi := offset (scan_range from limits).2) in *.
  rewrite fmap_app in Hch. apply chain_app in Hch as (c & Hc1 & Hc2).
  pose proof (trees_iv n _ _ _ _ H2 Hc1) as Hps.
  destruct (chain_window ptr_iv _ _ _ (offset from) hi Hps) as (p1 & p2 & p3 & Hp & Hp1 & Hp2 & Hp3).
  destruct (chain_window frag_iv _ _ _ (offset from) hi Hc2) as (g1 & g2 & g3 & Hg & Hg1 & Hg2 & Hg3).
  rewrite Hp in H2. apply Forall2_app_inv_l in H2 as (r1 & r' & H21 & H2' & ->).
  apply Forall2_app_inv_l in H2' as (r2 & r3 & H22 & H23 & ->).
  assert (forall p, p ∈ snapshots m -> offset (ptr_start p) < offset (ptr_limit p) <= c) as Hpb.
  { intros p Hin. apply (list_elem_of_fmap_2 ptr_iv) in Hin. apply (chain_bounds _ _ _ _ _ Hps) in Hin. lia. }
  assert (forall f, f ∈ fragments m -> c <= offset (frag_start f) < offset (frag_limit f) /\
                    offset (frag_limit f) <= offset (next_write_timestamp m)) as Hfb.
  { intros f Hin. apply (list_elem_of_fmap_2 frag_iv) in Hin. apply (chain_bounds _ _ _ _ _ Hc2) in Hin. lia. }
  rewrite !concat_app, !fmap_app in Hc1. apply chain_app in Hc1 as (d1 & Hd1 & Hc1).
  apply chain_app in Hc1 as (d2 & Hd2 & Hd3).
  rewrite Forall_forall in Hp1, Hp3. pose proof (chain_le _ _ _ Hc2) as Hcle.
  exists p2, r2, g2, (past from (concat r3) ++ g3).
  split_and!.
  - rewrite Hp. apply (window_filter _ ptr_iv (offset from) hi); try done.
    + intros p. rewrite overlap_iff, Hr1. done.
    + by apply Forall_forall.
    + by apply Forall_forall.
  - rewrite Hg. apply (window_filter _ frag_iv (offset from) hi); try done.
    intros f. unfold in_range. rewrite overlap_iff, Hr1. done.
  - done.
  - rewrite Hg, !concat_app, !past_app.
    assert (past from (concat r1) = []) as ->.
    { apply past_none. apply Forall_forall. intros f Hf.
      destruct (trees_bounds _ _ _ _ _ _ _ H21 Hd1 Hf) as (p & Hin & _ & Hle). specialize (Hp1 p Hin). cbn in Hp1. lia. }
    rewrite (past_none from g1), (past_all from g2), (past_all from g3).
    + destruct p3 as [|p p3].
      * inversion H23; subst. cbn. by rewrite <- !app_assoc.
      * assert (g2 = []) as ->; [|by rewrite !app_nil_r, <- !app_assoc].
        destruct g2 as [|f g2]; [done|]. exfalso. inversion Hg2 as [|? ? Hf]; subst. cbn in Hf.
        specialize (Hp3 p ltac:(by constructor)). cbn in Hp3.
        specialize (Hpb p ltac:(rewrite Hp, !elem_of_app, elem_of_cons; auto)).
        specialize (Hfb f ltac:(rewrite Hg, !elem_of_app, elem_of_cons; auto)). lia.
    + eapply Forall_impl; [exact Hg3|]. by intros f [? _].
    + eapply Forall_impl; [exact Hg2|]. by intros f [? _].
    + done.
  - apply Forall_forall. intros f Hf.
    assert (hi <= offset (frag_start f) < u64_max) as Hhi.
    { apply elem_of_app in Hf as [Hf|Hf].
      - apply list_elem_of_In, List.filter_In in Hf as [Hf%list_elem_of_In _].
        destruct (trees_bounds _ _ _ _ _ _ _ H23 Hd3 Hf) as (p & Hin & Hst & Hle).
        specialize (Hp3 p Hin). cbn in Hp3. specialize (Hpb p ltac:(rewrite Hp, !elem_of_app; auto)).
        apply (list_elem_of_fmap_2 frag_iv) in Hf. apply (chain_bounds _ _ _ _ _ Hd3) in Hf. lia.
      - rewrite Forall_forall in Hg3. specialize (Hg3 f Hf). cbn in Hg3.
        specialize (Hfb f ltac:(rewrite Hg, !elem_of_app; auto)). lia. }
    destruct (max_records limits) as [k|]; [|lia]. exists k. split; [done|lia].
Qed.

Lemma scan_with_cache_wp n m l from limits short :
  limits_ok from limits -> log_of (resolves prefix cache I E) n m l ->
  chain (offset (oldest_timestamp m)) (frag_iv <$> l) (offset (next_write_timestamp m)) ->
  offset (next_write_timestamp m) <= u64_max ->
  wp I E (scan_with_cache prefix cache n m from limits short) (scanned l from limits short).
Proof.
  intros Hlim Hlog Hch Hmax.
  destruct (scan_window m l n from limits Hlim Hlog Hch Hmax) as (ps & frss & fs & beyond & Hps & Hfs & H2 & Hpast & Hb).
  unfold scan_with_cache. rewrite Hps, Hfs. apply wp_bind.
  eapply wp_mono; [by apply (resolve_levels_wp prefix cache I E n ps frss)|]. intros frags Hperm. apply wp_ret.
  fold (past from frags).
  assert (StronglySorted (fun f g => offset (frag_start f) < offset (frag_start g)) (past from (concat frss ++ fs))) as Hs.
  { apply (StronglySorted_app_1_l _ _ beyond). rewrite <- Hpast. by apply filter_sorted, (chain_start_sorted _ _ _ Hch). }
  rewrite (sort_by_key_unique _ (past from (concat frss ++ fs))); [|done|].
  2: { apply past_perm. rewrite Hperm. apply Permutation_app_comm. }
  destruct (post_process_fragments _ _ _ _) as [res short'] eqn:Hpp.
  apply post_process_trimmed in Hpp as [rest Htr]; [| |apply Hlim].
  - by exists (past from (concat frss ++ fs)), beyond, rest.
  - clear -Hs. induction Hs as [|x xs _ IH Hx]; constructor; [done|].
    eapply Forall_impl; [exact Hx|]. cbn. lia.
Qed.
End Scanning.

(** ** Whatever the manifest is *)

Section AnyManifest.
Context {SS : SetsumSig} {OS : ObjectStore} {serde_manifest : Serde Manifest} {serde_snapshot : Serde Snapshot}.

Lemma pop_while_elem cond l s f : f ∈ (pop_while cond l s).1 -> f ∈ l.
Proof.
  destruct (pop_while cond l s) as [l' s'] eqn:Hp. apply pop_while_spec in Hp as (popped & -> & _). cbn. set_solver.
Qed.

Lemma post_process_elem frags from limits short f : f ∈ (post_process_fragments frags from limits short).1 -> f ∈ frags.
Proof.
  unfold post_process_fragments. set (sorted := sort_by_key _ frags).
  assert (forall g, g ∈ sorted -> g ∈ frags) as Hs by (intros g; unfold sorted; by rewrite sort_by_key_perm).
  destruct (match max_files limits with Some _ => _ | None => _ end) as [l s] eqn:Hm.
  assert (forall g, g ∈ l -> g ∈ sorted) as Hl.
  { intros g. destruct (max_files limits) as [n|]; [|by injection Hm as <- <-].
    destruct (n <? _); injection Hm as <- <-; [|done]. intros (i & Hi & _)%elem_of_take; by eapply list_elem_of_lookup_2. }
  pose proof (pop_while_elem (starts_too_late from limits) (reverse l) s) as H1.
  destruct (pop_while (starts_too_late from limits) (reverse l) s) as [l1 s1].
  pose proof (pop_while_elem (too_many_bytes limits) l1 s1) as H2.
  destruct (pop_while (too_many_bytes limits) l1 s1) as [l2 s2]. cbn in *. rewrite elem_of_reverse.
  intros Hf%H2%H1. rewrite elem_of_reverse in Hf. by apply Hs, Hl.
Qed.

(** No scan returns a fragment that ends at or before the position from which
    it starts. *)
Lemma scan_past prefix cache fuel from limits w frags w' f :
  scan prefix cache fuel from limits w = (Ret frags, w') -> f ∈ frags -> offset from < offset (frag_limit f).
Proof.
  unfold scan. intros (m & w1 & _ & (x & w2 & Hs & Hx)%bind_Ret)%bind_Ret Hf. destruct x as [frags' short].
  injection Hx as <- <-. unfold scan_with_cache in Hs. apply bind_Ret in Hs as (l & w3 & _ & Hs). injection Hs as Hs _.
  set (past := List.filter (fun f => LogPosition.ltb from (frag_limit f)) l) in Hs.
  pose proof (post_process_elem (sort_by_key (fun f => offset (frag_start f)) past) from limits false f) as Hp. rewrite Hs in Hp.
  specialize (Hp Hf). rewrite sort_by_key_perm in Hp. apply list_elem_of_In, List.filter_In in Hp as [_ Hp].
  by apply Z.ltb_lt in Hp.
Qed.
End AnyManifest.
