(* ===== verification/ManagerFacts.v ===== *)
(** * The manifest manager keeps the log contiguous

    The interleavings of the operations of a manifest manager as a step
    relation, and its invariants: whatever the order in which fragments arrive
    and installs succeed or fail, the manifest stays well formed and grows
    without gaps in the order in which positions were assigned, and every
    waiter is answered at most once. *)

From S2P Require Import Prelude Setsum Storage Types Paths Effects Manifest ManifestFacts Rollup Persist Gc.
From S2P Require Import Reader ManifestManager.

#[local] Open Scope Z_scope.
#[local] Open Scope wal_scope.

(** ** Rollups, without the depth discipline *)

Section Rollups.
Context {SS : SetsumSig} {SL : SetsumLaws SS}.

(** A pointer to a snapshot with children covers them, so it is not empty. *)
Lemma to_pointer_nonempty s :
  nonempty_intervals (snap_snapshots s) (snap_fragments s) ->
  intervals (snap_snapshots s) (snap_fragments s) <> [] ->
  (ptr_iv (to_pointer s)).1 < (ptr_iv (to_pointer s)).2.
Proof.
  unfold nonempty_intervals, intervals. rewrite Forall_app, !Forall_fmap, !Forall_forall. intros [Hp Hf] Hne.
  unfold ptr_iv, to_pointer, minimum_log_position, limiting_log_position. cbn.
  assert (forall frags snaps d x, x ∈ frags ++ snaps -> offset (oldest_of frags snaps d) <= offset x) as Hmin.
  { intros frags snaps d x Hx. unfold oldest_of.
    destruct (min_by_key offset frags) as [f|] eqn:E1, (min_by_key offset snaps) as [p|] eqn:E2;
      try apply min_by_key_None in E1; try apply min_by_key_None in E2; subst;
      apply elem_of_app in Hx as [Hx|Hx]; try (by apply elem_of_nil in Hx); cbn;
      try pose proof (min_by_key_le offset _ _ x E1 Hx); try pose proof (min_by_key_le offset _ _ x E2 Hx); lia. }
  assert (forall frags snaps d x, x ∈ frags ++ snaps -> offset x <= offset (newest_of frags snaps d)) as Hmax.
  { intros frags snaps d x Hx. unfold newest_of.
    destruct (max_by_key offset frags) as [f|] eqn:E1, (max_by_key offset snaps) as [p|] eqn:E2;
      try apply max_by_key_None in E1; try apply max_by_key_None in E2; subst;
      apply elem_of_app in Hx as [Hx|Hx]; try (by apply elem_of_nil in Hx); cbn;
      try (apply max_by_key_Some in E1 as [_ E1]; specialize (E1 x Hx));
      try (apply max_by_key_Some in E2 as [_ E2]; specialize (E2 x Hx)); lia. }
  assert (exists a b, a ∈ (frag_start <$> snap_fragments s) ++ (ptr_start <$> snap_snapshots s) /\
                      b ∈ (frag_limit <$> snap_fragments s) ++ (ptr_limit <$> snap_snapshots s) /\
                      offset a < offset b) as (a & b & Ha & Hb & Hab).
  { destruct (snap_snapshots s) as [|p ps]; [destruct (snap_fragments s) as [|f fs]; [done|]|].
    - exists (frag_start f), (frag_limit f). split_and!; [by constructor..|]. apply (Hf f). by constructor.
    - exists (ptr_start p), (ptr_limit p). rewrite !elem_of_app.
      split_and!; [right; by constructor..|]. apply (Hp p). by constructor. }
  specialize (Hmin _ _ (from_offset 1) _ Ha). specialize (Hmax _ _ (from_offset 1) _ Hb). lia.
Qed.

(** The children of a generated snapshot come from the manifest, and the
    manifest keeps its last fragment. *)
Lemma take_depth_subset d T l acc sum p :
  p ∈ (take_depth d T l acc sum).1 -> p ∈ acc \/ p ∈ l.
Proof.
  revert acc sum. induction l as [|q l IH]; intros acc sum; cbn; [by left|].
  destruct (_ <? _); [intros [?|?]%IH; [by left|right; by constructor]|].
  destruct (_ && _); [|by left]. intros [[?|Hq]%elem_of_app|?]%IH; [by left| |right; by constructor].
  apply list_elem_of_singleton in Hq as ->. right. by constructor.
Qed.

Lemma rollup_depth_shape m T w d s :
  (1 <= T)%nat -> rollup_depth m T w d = Some s ->
  snap_fragments s = [] /\ snap_snapshots s <> [] /\ forall p, p ∈ snap_snapshots s -> p ∈ snapshots m.
Proof.
  intros HT. unfold rollup_depth. destruct (take_depth _ _ _ _ _) as [taken sum] eqn:Ht.
  rewrite length_reverse. destruct (Nat.leb_spec T (length taken)) as [Hlen|]; [|done].
  assert (forall p, p ∈ reverse taken -> p ∈ snapshots m) as Hsub.
  { intros p. rewrite elem_of_reverse. intros Hp.
    pose proof (take_depth_subset d T (reverse (snapshots m)) [] setsum_default p) as Hx. rewrite Ht in Hx.
    destruct (Hx Hp) as [Hn|Hr]; [by apply elem_of_nil in Hn|by apply elem_of_reverse]. }
  assert (reverse taken <> []) as Hne.
  { intros Hn%(f_equal length). rewrite length_reverse in Hn. cbn in Hn. lia. }
  destruct (min_by_key _ _) as [x|], (list.head (snapshots m)) as [first|] eqn:Hh; try (intros [= <-]; done).
  destruct (bool_decide _ && _); intros [= <-]; [|done]. cbn. split_and!; [done|done|].
  intros p [->|Hp]%elem_of_cons; [|auto]. destruct (snapshots m); [done|]. cbn in Hh. injection Hh as ->. by constructor.
Qed.

Lemma next_write_last m l f :
  manifest_ok m -> fragments m = l ++ [f] -> next_write_timestamp m = frag_limit f.
Proof.
  intros [_ Hc _] Hf. apply LogPosition_eq. unfold intervals in Hc. rewrite Hf, fmap_app, app_assoc in Hc.
  apply chain_app in Hc as (c & _ & Hc). cbn in Hc. inversion Hc as [|? ? ? ? ? Hnil]; subst.
  by apply chain_nil_inv in Hnil.
Qed.

Lemma ok_nonempty m : manifest_ok m -> nonempty_intervals (snapshots m) (fragments m).
Proof. intros [_ Hc _]. by eapply chain_nonempty. Qed.

Lemma nonempty_subset ps fs ps' fs' :
  nonempty_intervals ps fs -> (forall p, p ∈ ps' -> p ∈ ps) -> (forall f, f ∈ fs' -> f ∈ fs) ->
  nonempty_intervals ps' fs'.
Proof.
  unfold nonempty_intervals, intervals. rewrite !Forall_app, !Forall_fmap, !Forall_forall.
  intros [Hp Hf] Hps Hfs. split; intros x Hx; [apply Hp|apply Hf]; auto.
Qed.

(** The shape of a generated snapshot, and what is left of the fragments. *)
Lemma generate_shape m o w n s :
  (1 <= snapshot_rollover_threshold o)%nat -> (1 <= fragment_rollover_threshold o)%nat ->
  seqs_from n (fragments m) -> fragments m <> [] -> generate_snapshot m o w = Some s ->
  intervals (snap_snapshots s) (snap_fragments s) <> [] /\
  (forall p, p ∈ snap_snapshots s -> p ∈ snapshots m) /\
  exists rest, fragments m = snap_fragments s ++ rest /\ rest <> [].
Proof.
  intros HT HF Hs Hne. unfold generate_snapshot.
  destruct (rollup_from m _ w _) as [s'|] eqn:Hr.
  - intros [= ->]. apply rollup_from_Some in Hr as (d & _ & Hr).
    destruct (rollup_depth_shape m _ w d s HT Hr) as (Hf & Hp & Hsub). rewrite Hf.
    split_and!; [by intros [? _]%intervals_nil|done|]. by exists (fragments m).
  - destruct (Nat.leb_spec (fragment_rollover_threshold o) (length (fragments m))) as [Hlen|]; [|done].
    destruct (take_fragments _ _ _ _ _) as [frags sum] eqn:Ht.
    destruct (Nat.leb_spec (fragment_rollover_threshold o) (length frags)) as [Hlen'|]; [|done].
    destruct (take_fragments_spec m n _ _ _ HF Hs Hlen Ht Hlen') as (rest & Hfs & Hrest & Hfr & _).
    intros [= <-]. cbn. split_and!; [by intros [_ ?]%intervals_nil| |by exists rest].
    intros p Hp. by apply elem_of_nil in Hp.
Qed.

Lemma rollup_keeps m o w n s m' :
  (1 <= snapshot_rollover_threshold o)%nat -> (1 <= fragment_rollover_threshold o)%nat ->
  manifest_ok m -> seqs_from n (fragments m) -> fragments m <> [] ->
  generate_snapshot m o w = Some s -> apply_snapshot m s = (Ok tt, m') ->
  manifest_ok m' /\ next_write_timestamp m' = next_write_timestamp m /\
  exists pre, fragments m = pre ++ fragments m' /\ fragments m' <> [].
Proof.
  intros HT HF Hok Hs Hne Hgen Happ.
  destruct (generate_shape m o w n s HT HF Hs Hne Hgen) as (Hch & Hsub & rest & Hfs & Hrest).
  unfold apply_snapshot in Happ. destruct (scrub m); [|done].
  destruct (_ <? _)%nat; [done|]. destruct (existsb _ (zip _ _)); [done|].
  set (m1 := mkManifest _ _ _ _ _ _ _ _) in Happ. destruct (scrub m1) as [ss|] eqn:Hss; [|done].
  injection Happ as <-.
  assert (fragments m1 = rest) as Hf1 by (cbn; by rewrite Hfs, drop_app_length).
  pose proof (ok_nonempty m Hok) as Hnon.
  assert (manifest_ok m1) as Hok1.
  { apply scrub_sound; [|by exists ss]. unfold nonempty_intervals. rewrite Hf1. cbn [snapshots m1].
    rewrite intervals_app. apply Forall_app. split.
    - rewrite Forall_fmap, Forall_forall. intros p Hp. apply list_elem_of_In, List.filter_In in Hp as [Hp _].
      unfold nonempty_intervals, intervals in Hnon. apply Forall_app in Hnon as [Hnon _].
      rewrite Forall_fmap, Forall_forall in Hnon. apply Hnon. by apply list_elem_of_In.
    - unfold intervals. cbn. constructor.
      + apply to_pointer_nonempty; [|done]. eapply nonempty_subset; [exact Hnon|done|].
        intros f Hf. rewrite Hfs. apply elem_of_app. by left.
      + unfold nonempty_intervals, intervals in Hnon. apply Forall_app in Hnon as [_ Hnon].
        rewrite Hfs, fmap_app in Hnon. by apply Forall_app in Hnon as [_ ?]. }
  split; [done|]. split; [|by exists (snap_fragments s); rewrite Hf1].
  destruct (exists_last Hrest) as (l & f & ->).
  rewrite (next_write_last m1 l f Hok1 Hf1), (next_write_last m (snap_fragments s ++ l) f Hok); [done|].
  by rewrite Hfs, app_assoc.
Qed.
End Rollups.

(** ** The system *)

Section System.
Context {SS : SetsumSig} {SL : SetsumLaws SS}.
Variable mgr : Manager.
(** The manifest the manager was made with, and its next sequence number. *)
Variable m0 : Manifest.
Variable seq0 : Z.

(** [lens] has the record counts of the positions assigned so far. *)
Definition pos_at (lens : list Z) (k : nat) : Z :=
  offset (next_write_timestamp m0) + foldr Z.add 0 (take k lens).

(** The fragment was given the [k]-th sequence number and positions by
    [assign_timestamp]. *)
Definition assigned_at (lens : list Z) (k : nat) (f : Fragment) : Prop :=
  (k < length lens)%nat /\ fsn (frag_seq_no f) = seq0 + Z.of_nat k /\
  offset (frag_start f) = pos_at lens k /\ offset (frag_limit f) = pos_at lens (S k).

(** The manifest holds, besides what it began with, the fragments [hist],
    which are the first that were assigned: those that no snapshot took over
    are at its end, and its setsum has all of them. *)
Record aligned (lens : list Z) (hist : list Fragment) (m : Manifest) : Prop := {
  al_ok : manifest_ok m;
  al_hist : forall k f, hist !! k = Some f -> assigned_at lens k f;
  al_next : offset (next_write_timestamp m) = pos_at lens (length hist);
  al_setsum : setsum m = setsum m0 +ₛ setsum_of frag_setsum hist;
  al_initial : initial_seq_no m = initial_seq_no m0;
  al_fragments : exists pre, fragments m0 ++ hist = pre ++ fragments m;
  al_last : fragments m = [] -> fragments m0 ++ hist = [];
}.

(** The state of a manager, the work in flight between [pull_work] and the
    end of an iteration of [do_work], the messages sent, and the history of
    what was assigned and pushed. *)
Record Sys := mkSys {
  sys_st : Staging;
  sys_work : option Work;
  sys_sent : Sent;
  sys_lens : list Z;
  sys_pushed : list (Tx * option Fragment);
}.

(** [gc] says whether garbage is staged. *)
Inductive step (gc : bool) : Sys -> Sys -> Prop :=
| step_assign s n r st :
    0 < n -> fsn (next_seq_no_to_assign (sys_st s)) < u64_max ->
    offset (next_log_position (sys_st s)) + n <= u64_max ->
    assign_timestamp n (sys_st s) = (Some r, st) ->
    step gc s (mkSys st (sys_work s) (sys_sent s) (sys_lens s ++ [n]) (sys_pushed s))
| step_push s f tx st sent :
    tx ∉ (sys_pushed s).*1 -> (exists k, assigned_at (sys_lens s) k f) -> push_work f tx (sys_st s) = (st, sent) ->
    step gc s (mkSys st (sys_work s) (sys_sent s ++ sent) (sys_lens s) (sys_pushed s ++ [(tx, Some f)]))
| step_garbage s g tx st :
    gc = true -> tx ∉ (sys_pushed s).*1 -> stage_garbage g tx (sys_st s) = Ok st ->
    step gc s (mkSys st (sys_work s) (sys_sent s) (sys_lens s) (sys_pushed s ++ [(tx, None)]))
| step_pull s now w st sent :
    sys_work s = None -> pull_work mgr now (sys_st s) = (w, st, sent) ->
    step gc s (mkSys st w (sys_sent s ++ sent) (sys_lens s) (sys_pushed s))
| step_installed s w e_tag :
    sys_work s = Some w ->
    step gc s (mkSys (installed_work w e_tag (sys_st s)) None
                (sys_sent s ++ send_all (notifiers w) None) (sys_lens s) (sys_pushed s))
| step_failed s w e :
    sys_work s = Some w ->
    step gc s (mkSys (sys_st s) None (sys_sent s ++ send_all (notifiers w) (Some e))
                (sys_lens s) (sys_pushed s))
| step_shutdown s st sent :
    shutdown (sys_st s) = (st, sent) ->
    step gc s (mkSys st (sys_work s) (sys_sent s ++ sent) (sys_lens s) (sys_pushed s)).

Definition start (e_tag : ETag) (now : Z) : Sys :=
  mkSys (mkStaging (mkManifestAndETag m0 e_tag) [] (next_write_timestamp m0) (mkSeqNo seq0) (mkSeqNo seq0)
           None now false) None [] [] [].

(** ** Every waiter is answered at most once *)

Definition garbage_tx (st : Staging) : list Tx :=
  match staged_garbage st with Some (_, tx) => [tx] | None => [] end.
Definition waiting (s : Sys) : list Tx :=
  (staged (sys_st s)).*2 ++ garbage_tx (sys_st s) ++
  match sys_work s with Some w => notifiers w | None => [] end.

Definition accounted (s : Sys) : Prop := (sys_pushed s).*1 ≡ₚ waiting s ++ (sys_sent s).*1.

Lemma send_all_fst txs msg : (send_all txs msg).*1 = txs.
Proof. unfold send_all. rewrite <- list_fmap_compose. apply list_fmap_id. Qed.

Lemma apply_staged_perm frags m next ns post m' next' ns' post' :
  apply_staged frags m next ns post = (m', next', ns', post') ->
  ns ++ frags.*2 ++ post.*2 ≡ₚ ns' ++ post'.*2.
Proof.
  revert m next ns post. induction frags as [|[f tx] frags IH]; intros m next ns post; cbn.
  - by intros [= <- <- <- <-].
  - destruct (_ && _); intros Hp%IH; rewrite <- Hp.
    + rewrite <- app_assoc. cbn. done.
    + rewrite fmap_app. cbn. solve_Permutation.
Qed.

Lemma pull_gc_accounts st w st' sent :
  pull_gc_work_only st = (w, st', sent) ->
  (staged st).*2 ++ garbage_tx st ≡ₚ
  ((staged st').*2 ++ garbage_tx st' ++ match w with Some w => notifiers w | None => [] end) ++ sent.*1.
Proof.
  unfold pull_gc_work_only, garbage_tx. destruct (staged_garbage st) as [[g tx]|] eqn:Hg.
  - destruct (apply_garbage _ _) as [[m|]|e]; intros [= <- <- <-]; cbn; solve_Permutation.
  - intros [= <- <- <-]. rewrite Hg. cbn. solve_Permutation.
Qed.

Lemma pull_work_accounts now st w st' sent :
  pull_work mgr now st = (w, st', sent) ->
  (staged st).*2 ++ garbage_tx st ≡ₚ
  ((staged st').*2 ++ garbage_tx st' ++ match w with Some w => notifiers w | None => [] end) ++ sent.*1.
Proof.
  unfold pull_work. case_bool_decide; [apply pull_gc_accounts|].
  destruct (apply_staged _ _ _ _ _) as [[[m next] ns] post] eqn:Ha.
  apply apply_staged_perm in Ha. cbn in Ha. rewrite app_nil_r, sort_by_key_perm in Ha.
  case_bool_decide as Hns.
  - subst ns. cbn in Ha. intros Hp%pull_gc_accounts. rewrite Ha. exact Hp.
  - cbn [staged_garbage set_last_batch set_staged]. unfold garbage_tx.
    destruct (staged_garbage st) as [[g tx]|] eqn:Hg.
    + destruct (apply_garbage m g) as [[m'|]|e]; intros [= <- <- <-]; cbn; rewrite Ha, ?send_all_fst;
        solve_Permutation.
    + destruct (generate_snapshot m _ _) as [sn|]; [destruct (apply_snapshot m sn) as [[[]|e] m']|];
        intros [= <- <- <-]; cbn; rewrite ?Hg, Ha, ?send_all_fst; solve_Permutation.
Qed.

Lemma step_accounted gc s s' : step gc s s' -> accounted s -> accounted s'.
Proof.
  unfold accounted, waiting. destruct 1 as [s n r st _ _ _ Ha|s f tx st sent _ _ Hp|s g tx st _ _ Hg|
    s now w st sent Hw Hp|s w e Hw|s w e Hw|s st sent Hsh]; cbn; intros Hacc.
  - unfold assign_timestamp in Ha. injection Ha as _ <-. exact Hacc.
  - unfold push_work in Hp. rewrite fmap_app. cbn. destruct (tearing_down (sys_st s)); injection Hp as <- <-; cbn;
      rewrite Hacc, ?fmap_app; unfold garbage_tx; cbn; solve_Permutation.
  - unfold stage_garbage in Hg. rewrite fmap_app. cbn. unfold garbage_tx in *.
    destruct (staged_garbage (sys_st s)); [done|]. injection Hg as <-. cbn. rewrite Hacc. cbn. solve_Permutation.
  - rewrite Hw, app_nil_r in Hacc. rewrite Hacc, (pull_work_accounts _ _ _ _ _ Hp), fmap_app. solve_Permutation.
  - rewrite Hw in Hacc. rewrite Hacc, fmap_app, send_all_fst. unfold garbage_tx. cbn. solve_Permutation.
  - rewrite Hw in Hacc. rewrite Hacc, fmap_app, send_all_fst. cbn. solve_Permutation.
  - unfold shutdown in Hsh. injection Hsh as <- <-. cbn. rewrite Hacc, fmap_app, send_all_fst.
    unfold garbage_tx. cbn. solve_Permutation.
Qed.

(** ** The log stays contiguous *)

Record start_ok : Prop := {
  so_ok : manifest_ok m0;
  so_seqs : seqs_from (seq0 - Z.of_nat (length (fragments m0))) (fragments m0);
  so_seq0 : Z.of_nat (length (fragments m0)) <= seq0 <= u64_max;
  so_next : next_fragment_seq_no m0 = Some (mkSeqNo seq0);
  so_pos : 0 <= offset (next_write_timestamp m0) <= u64_max;
  so_snapshot : (1 <= snapshot_rollover_threshold (mm_snapshot mgr))%nat;
  so_fragment : (1 <= fragment_rollover_threshold (mm_snapshot mgr))%nat;
}.
Context (Hstart : start_ok).

Lemma pos_at_app lens n k : (k <= length lens)%nat -> pos_at (lens ++ [n]) k = pos_at lens k.
Proof. intros Hk. unfold pos_at. by rewrite take_app_le. Qed.

Lemma assigned_at_app lens n k f : assigned_at lens k f -> assigned_at (lens ++ [n]) k f.
Proof.
  intros (Hk & Hs & Ha & Hb). unfold assigned_at. rewrite length_app, !pos_at_app by lia. cbn. lia.
Qed.

Lemma aligned_hist_le lens hist m : aligned lens hist m -> (length hist <= length lens)%nat.
Proof.
  intros H. destruct (decide (hist = [])) as [->|Hne]; [cbn; lia|]. destruct (exists_last Hne) as (l & f & ->).
  destruct (al_hist _ _ _ H (length l) f) as [Hl _]; [by rewrite list_lookup_middle|]. rewrite length_app. cbn. lia.
Qed.

Lemma aligned_app lens n hist m : aligned lens hist m -> aligned (lens ++ [n]) hist m.
Proof.
  intros H. pose proof (aligned_hist_le _ _ _ H). destruct H. constructor; try done.
  - eauto using assigned_at_app.
  - by rewrite pos_at_app.
Qed.

Lemma seqs_from_hist lens hist n :
  (forall k f, hist !! k = Some f -> assigned_at lens (n + k) f) -> seqs_from (seq0 + Z.of_nat n) hist.
Proof.
  revert n. induction hist as [|f hist IH]; intros n Hh; cbn; [done|]. split.
  - destruct (Hh 0%nat f eq_refl) as (_ & Hf & _). rewrite Nat.add_0_r in Hf. done.
  - replace (seq0 + Z.of_nat n + 1) with (seq0 + Z.of_nat (S n)) by lia. apply IH.
    intros k g Hk. replace (S n + k)%nat with (n + S k)%nat by lia. by apply Hh.
Qed.

(** The sequence number the manifest expects. *)
Lemma aligned_seqs lens hist m :
  aligned lens hist m -> exists n, seqs_from n (fragments m) /\ 0 <= n /\
    (fragments m <> [] -> n + Z.of_nat (length (fragments m)) = seq0 + Z.of_nat (length hist)).
Proof.
  intros H. destruct (al_fragments _ _ _ H) as [pre Hpre]. pose proof (so_seq0 Hstart).
  pose proof (f_equal length Hpre) as Hlen. rewrite !length_app in Hlen.
  exists (seq0 - Z.of_nat (length (fragments m0)) + Z.of_nat (length pre)). split_and!; [|lia|lia].
  assert (seqs_from (seq0 - Z.of_nat (length (fragments m0))) (pre ++ fragments m)) as Hs.
  { rewrite <- Hpre. apply seqs_from_app. split; [apply (so_seqs Hstart)|].
    rewrite Z.sub_add. rewrite <- (Z.add_0_r seq0). apply (seqs_from_hist lens hist 0). apply (al_hist _ _ _ H). }
  by apply seqs_from_app in Hs as [_ ?].
Qed.

Lemma aligned_next_seq lens hist m :
  aligned lens hist m -> seq0 + Z.of_nat (length hist) <= u64_max ->
  next_fragment_seq_no m = Some (mkSeqNo (seq0 + Z.of_nat (length hist))).
Proof.
  intros H Hmax. destruct (decide (fragments m = [])) as [Hnil|Hne].
  - pose proof (al_last _ _ _ H Hnil) as Hl. apply app_nil in Hl as [H0 ->]. cbn. rewrite Z.add_0_r.
    rewrite <- (so_next Hstart). unfold next_fragment_seq_no, max_seq_no. rewrite Hnil, H0. cbn.
    by rewrite (al_initial _ _ _ H).
  - destruct (aligned_seqs _ _ _ H) as (n & Hs & Hn & Hlen). specialize (Hlen Hne).
    rewrite (next_fragment_seq_no_seqs m n) by (done || lia). by rewrite Hlen.
Qed.

Lemma aligned_writer lens hist m w : aligned lens hist m -> aligned lens hist (set_writer w m).
Proof. intros [[? ? ?] ? ? ? ? ? ?]. constructor; done || by constructor. Qed.

Lemma aligned_apply lens hist m f k :
  aligned lens hist m -> seq0 + Z.of_nat (length lens) <= u64_max -> assigned_at lens k f ->
  can_apply_fragment m f = true -> aligned lens (hist ++ [f]) (apply_fragment m f).
Proof.
  intros H Hmax Hf Hcan. pose proof (aligned_hist_le _ _ _ H) as Hle. pose proof Hf as (Hk & Hs & Ha & Hb).
  assert (k = length hist) as ->.
  { pose proof Hcan as Hcan'. unfold can_apply_fragment in Hcan'.
    rewrite (aligned_next_seq _ _ _ H) in Hcan' by lia.
    apply andb_true_iff in Hcan' as [Heq%bool_decide_eq_true _]. injection Heq as Heq. rewrite Heq in Hs. cbn in Hs. lia. }
  destruct H as [Hok Hh Hn Hsum Hin [pre Hpre] Hlast].
  destruct (apply_fragment_ok m f Hok (can_apply_nonempty _ _ Hcan)) as (Hok' & _ & Hn').
  { apply LogPosition_eq. lia. }
  constructor; try done.
  - intros i g [Hi|[Hi Hg]]%lookup_app_Some; [by apply Hh|].
    apply list_lookup_singleton_Some in Hg as [Hi0 <-]. by replace i with (length hist) by lia.
  - rewrite Hn', Hb, length_app. cbn. f_equal. lia.
  - cbn. rewrite Hsum, setsum_of_app, setsum_of_singleton. by rewrite setsum_add_assoc.
  - exists pre. cbn. by rewrite !app_assoc, Hpre.
  - cbn. intros [_ ?]%app_nil. done.
Qed.

(** What [pull_work] applies extends the history by fragments that were
    staged, whose waiters it returns. *)
Lemma apply_staged_aligned lens frags hist m next ns post m' next' ns' post' :
  seq0 + Z.of_nat (length lens) <= u64_max ->
  Forall (fun x => exists k, assigned_at lens k x.1) frags ->
  aligned lens hist m -> apply_staged frags m next ns post = (m', next', ns', post') ->
  exists new, aligned lens (hist ++ new.*1) m' /\ ns' = ns ++ new.*2 /\
    (forall x, x ∈ new -> x ∈ frags) /\ (forall x, x ∈ post' -> x ∈ post \/ x ∈ frags) /\
    (new = [] -> next' = next) /\
    (new <> [] -> fsn next' = seq0 + Z.of_nat (length (hist ++ new.*1))).
Proof.
  intros Hmax. revert hist m next ns post. induction frags as [|[f tx] frags IH]; intros hist m next ns post Hf Hal; cbn.
  - intros [= <- <- <- <-]. exists []. cbn. rewrite !app_nil_r. split_and!; [done|done|done|by left|done|done].
  - apply Forall_cons_1 in Hf as [[k Hk] Hf]. destruct (_ && _) eqn:Hb; intros Happ.
    + apply andb_true_iff in Hb as [Hseq%bool_decide_eq_true Hcan].
      assert (aligned lens (hist ++ [f]) (apply_fragment m f)) as Hal' by (by eapply aligned_apply).
      apply (IH (hist ++ [f])) in Happ as (new & Ha & -> & Hin & Hpost & Hnil & Hnext); [|done|done].
      exists ((f, tx) :: new). cbn. rewrite <- !app_assoc in *. split_and!; [done|done| | |done|].
      * intros x [->|Hx]%elem_of_cons; [by constructor|]. constructor. by apply Hin.
      * intros x Hx. destruct (Hpost x Hx); [by left|right; by constructor].
      * intros _. destruct new as [|x new]; [|by apply Hnext]. cbn. rewrite Hnil by done.
        subst next. destruct (al_hist _ _ _ Hal' (length hist) f) as (Hk' & Hf' & _); [by rewrite list_lookup_middle|].
        cbn. pose proof (so_seq0 Hstart). rewrite length_app, Hf', wrapping_add_small by (unfold is_u64; lia). cbn. lia.
    + apply (IH hist) in Happ as (new & Ha & -> & Hin & Hpost & Hnil & Hnext); [|done|done].
      exists new. split_and!; [done|done|intros; constructor; by apply Hin| |done|done].
      intros x Hx. destruct (Hpost x Hx) as [[?|?]%elem_of_app|?]; [by left|right|right; by constructor].
      set_solver.
Qed.

Lemma aligned_rollup lens hist m w s m' :
  aligned lens hist m -> fragments m <> [] ->
  generate_snapshot m (mm_snapshot mgr) w = Some s -> apply_snapshot m s = (Ok tt, m') -> aligned lens hist m'.
Proof.
  intros H Hne Hgen Happ. destruct (aligned_seqs _ _ _ H) as (n & Hs & _).
  destruct (rollup_keeps m _ w n s m' (so_snapshot Hstart) (so_fragment Hstart) (al_ok _ _ _ H) Hs Hne Hgen Happ)
    as (Hok & Hn & pre & Hpre & Hne').
  assert (setsum m' = setsum m /\ initial_seq_no m' = initial_seq_no m) as [Hsum Hini].
  { unfold apply_snapshot in Happ. repeat (case_match; simplify_eq/=; try done). }
  destruct H as [_ Hh Hn0 Hs0 Hi0 [pre0 Hpre0] Hlast]. constructor; try done.
  - by rewrite Hn.
  - by rewrite Hsum.
  - by rewrite Hini.
  - exists (pre0 ++ pre). by rewrite Hpre0, Hpre, app_assoc.
Qed.

(** The waiter pushed a fragment that is in the history. *)
Definition covered (s : Sys) (hist : list Fragment) (tx : Tx) : Prop :=
  exists f, (tx, Some f) ∈ sys_pushed s /\ f ∈ hist.

(** The manifest of the manager has the history [hist], which has the
    fragments of every waiter that was told of a success; a manifest that is
    being installed extends the history by the fragments of those who wait
    for it. *)
Definition logged (s : Sys) (hist : list Fragment) : Prop :=
  aligned (sys_lens s) hist (stable_manifest (stable (sys_st s))) /\
  (forall tx, (tx, None) ∈ sys_sent s -> covered s hist tx) /\
  (forall w, sys_work s = Some w -> exists new, aligned (sys_lens s) (hist ++ new) (new_manifest w) /\
     (forall tx, tx ∈ notifiers w -> covered s (hist ++ new) tx) /\ new <> [] /\
     fsn (next_seq_no_to_apply (sys_st s)) = seq0 + Z.of_nat (length (hist ++ new))).

Record consistent (s : Sys) : Prop := {
  co_seq : fsn (next_seq_no_to_assign (sys_st s)) = seq0 + Z.of_nat (length (sys_lens s));
  co_seq_max : seq0 + Z.of_nat (length (sys_lens s)) <= u64_max;
  co_pos : offset (next_log_position (sys_st s)) = pos_at (sys_lens s) (length (sys_lens s));
  co_garbage : staged_garbage (sys_st s) = None;
  co_staged : forall x, x ∈ staged (sys_st s) ->
    (exists k, assigned_at (sys_lens s) k x.1) /\ (x.2, Some x.1) ∈ sys_pushed s;
  co_logged : exists hist, logged s hist;
}.

Lemma pull_gc_none st : staged_garbage st = None -> pull_gc_work_only st = (None, st, []).
Proof. unfold pull_gc_work_only. by intros ->. Qed.

Lemma send_all_None txs e tx : (tx, None) ∈ send_all txs e <-> e = None /\ tx ∈ txs.
Proof.
  unfold send_all. rewrite list_elem_of_fmap. split.
  - by intros (y & [= <- <-] & Hy).
  - intros [-> H]. by exists tx.
Qed.

Lemma pull_work_logged lens hist now st w st' sent :
  seq0 + Z.of_nat (length lens) <= u64_max -> staged_garbage st = None ->
  (forall x, x ∈ staged st -> exists k, assigned_at lens k x.1) ->
  aligned lens hist (stable_manifest (stable st)) -> pull_work mgr now st = (w, st', sent) ->
  stable st' = stable st /\ staged_garbage st' = None /\
  next_seq_no_to_assign st' = next_seq_no_to_assign st /\ next_log_position st' = next_log_position st /\
  (forall x, x ∈ staged st' -> x ∈ staged st) /\ (forall tx, (tx, None) ∉ sent) /\
  (forall w', w = Some w' -> exists new, aligned lens (hist ++ new.*1) (new_manifest w') /\
     notifiers w' = new.*2 /\ (forall x, x ∈ new -> x ∈ staged st) /\ new <> [] /\
     fsn (next_seq_no_to_apply st') = seq0 + Z.of_nat (length (hist ++ new.*1))).
Proof.
  intros Hmax Hg Hst Hal. unfold pull_work. case_bool_decide as Hnil.
  { rewrite pull_gc_none by done. intros [= <- <- <-]. split_and!; try done. intros tx Htx. by apply elem_of_nil in Htx. }
  destruct (apply_staged _ _ _ _ _) as [[[m next] ns] post] eqn:Ha.
  apply apply_staged_aligned with (lens := lens) (hist := hist) in Ha as (new & Hal' & -> & Hin & Hpost & _ & Hnext);
    [|done|by apply Forall_forall; intros x; rewrite elem_of_sort_by_key; apply Hst|by apply aligned_writer].
  assert (forall x, x ∈ new -> x ∈ staged st) as Hin' by (intros x Hx; by eapply elem_of_sort_by_key, Hin).
  assert (forall x, x ∈ post -> x ∈ staged st) as Hpost'.
  { intros x Hx. destruct (Hpost x Hx) as [Hn|Hs]; [by apply elem_of_nil in Hn|]. by eapply elem_of_sort_by_key, Hs. }
  case_bool_decide as Hns.
  { rewrite pull_gc_none by done. intros [= <- <- <-]. split_and!; try done. intros tx Htx. by apply elem_of_nil in Htx. }
  assert (new <> []) as Hne by (by intros ->).
  cbn [staged_garbage set_last_batch set_staged]. rewrite Hg.
  destruct (generate_snapshot m _ _) as [sn|] eqn:Hgen.
  - destruct (apply_snapshot m sn) as [[[]|e] m'] eqn:Happ; intros [= <- <- <-]; cbn; split_and!; try done.
    + intros tx Htx. by apply elem_of_nil in Htx.
    + intros w' [= <-]. exists new. split_and!; try done; [|by apply Hnext]. cbn. eapply aligned_rollup; try done.
      intros Hnil'. apply (al_last _ _ _ Hal') in Hnil'. apply app_nil in Hnil' as [_ [_ Hnew%fmap_nil_inv]%app_nil].
      by subst.
    + by intros tx [? _]%send_all_None.
  - intros [= <- <- <-]. cbn. split_and!; try done.
    + intros tx Htx. by apply elem_of_nil in Htx.
    + intros w' [= <-]. exists new. split_and!; try done. by apply Hnext.
Qed.

(** Pushing more keeps what is covered. *)
Lemma covered_mono s s' hist hist' tx :
  (forall x, x ∈ sys_pushed s -> x ∈ sys_pushed s') -> (forall f, f ∈ hist -> f ∈ hist') ->
  covered s hist tx -> covered s' hist' tx.
Proof. intros Hp Hh (f & Hf & Hin). exists f. auto. Qed.

Lemma logged_lens s n st hist :
  stable st = stable (sys_st s) -> next_seq_no_to_apply st = next_seq_no_to_apply (sys_st s) ->
  logged s hist -> logged (mkSys st (sys_work s) (sys_sent s) (sys_lens s ++ [n]) (sys_pushed s)) hist.
Proof.
  intros Hst Hap (Hal & Hack & Hw). unfold logged. cbn. rewrite Hst, Hap. split_and!; [by apply aligned_app|done|].
  intros w Hs. destruct (Hw w Hs) as (new & Hnew & Hns). exists new. split; [by apply aligned_app|done].
Qed.

Lemma logged_sent s st sent pushed hist :
  stable st = stable (sys_st s) -> next_seq_no_to_apply st = next_seq_no_to_apply (sys_st s) ->
  (forall tx, (tx, None) ∉ sent) -> logged s hist ->
  logged (mkSys st (sys_work s) (sys_sent s ++ sent) (sys_lens s) (sys_pushed s ++ pushed)) hist.
Proof.
  intros Hst Hap Hsent (Hal & Hack & Hw). unfold logged. cbn. rewrite Hst, Hap. split_and!; [done| |].
  - intros tx [Htx|Htx]%elem_of_app; [|by apply Hsent in Htx].
    eapply covered_mono; [|done|by apply Hack]. intros x Hx. apply elem_of_app. by left.
  - intros w Hs. destruct (Hw w Hs) as (new & Hnew & Hns & Hne & Hnext). exists new. split_and!; [done| |done|done]. intros tx Htx.
    eapply covered_mono; [|done|by apply Hns]. intros x Hx. apply elem_of_app. by left.
Qed.

Lemma foldr_add_snoc lens n : foldr Z.add 0 (lens ++ [n]) = foldr Z.add 0 lens + n.
Proof. induction lens as [|x lens IH]; cbn; [lia|]. rewrite IH. lia. Qed.

Lemma step_assign_consistent s n r st :
  0 < n -> fsn (next_seq_no_to_assign (sys_st s)) < u64_max ->
  offset (next_log_position (sys_st s)) + n <= u64_max ->
  assign_timestamp n (sys_st s) = (Some r, st) -> consistent s ->
  consistent (mkSys st (sys_work s) (sys_sent s) (sys_lens s ++ [n]) (sys_pushed s)).
Proof.
  intros Hn Hs Hp Ha [H1 H2 H3 H4 H5 [hist H6]]. unfold assign_timestamp in Ha. injection Ha as _ <-.
  pose proof (so_seq0 Hstart). constructor; cbn.
  - rewrite H1, length_app, wrapping_add_small by (unfold is_u64; lia). cbn. lia.
  - rewrite length_app. cbn. lia.
  - unfold saturating_add. rewrite Z.min_l by lia. rewrite H3. unfold pos_at.
    rewrite !take_ge, foldr_add_snoc by lia. lia.
  - done.
  - intros x Hx. destruct (H5 x Hx) as [[k Hk] ?]. eauto using assigned_at_app.
  - exists hist. by apply logged_lens.
Qed.

Lemma step_push_consistent s f tx st sent :
  (exists k, assigned_at (sys_lens s) k f) -> push_work f tx (sys_st s) = (st, sent) -> consistent s ->
  consistent (mkSys st (sys_work s) (sys_sent s ++ sent) (sys_lens s) (sys_pushed s ++ [(tx, Some f)])).
Proof.
  intros Hf Hp [H1 H2 H3 H4 H5 [hist H6]].
  assert (stable st = stable (sys_st s) /\ next_seq_no_to_apply st = next_seq_no_to_apply (sys_st s) /\ (forall tx, (tx, None) ∉ sent) /\
          (forall x, x ∈ staged st -> x ∈ staged (sys_st s) \/ x = (f, tx))) as (Hst & Hap & Hsent & Hstaged).
  { unfold push_work in Hp. destruct (tearing_down _); injection Hp as <- <-; cbn; split_and!; try done.
    - intros t [=]%list_elem_of_singleton.
    - by left.
    - intros t Ht. by apply elem_of_nil in Ht.
    - intros x [?|?%list_elem_of_singleton]%elem_of_app; auto. }
  constructor; cbn; try (unfold push_work in Hp; destruct (tearing_down _); injection Hp as <- <-; done).
  - intros x Hx. rewrite elem_of_app, list_elem_of_singleton. destruct (Hstaged x Hx) as [Hx'| ->]; cbn; [|auto].
    destruct (H5 x Hx'). auto.
  - exists hist. by apply logged_sent.
Qed.

Lemma step_pull_consistent s now w st sent :
  sys_work s = None -> pull_work mgr now (sys_st s) = (w, st, sent) -> consistent s ->
  consistent (mkSys st w (sys_sent s ++ sent) (sys_lens s) (sys_pushed s)).
Proof.
  intros Hw Hp [H1 H2 H3 H4 H5 [hist (Hal & Hack & _)]].
  destruct (pull_work_logged (sys_lens s) hist now (sys_st s) w st sent) as (Hst & Hg & Hs & Hl & Hin & Hsent & Hnew);
    [done|done|by intros x Hx; apply H5|done|done|].
  constructor; cbn; rewrite ?Hs, ?Hl; try done; [auto|].
  exists hist. unfold logged. cbn. rewrite Hst. split_and!; [done| |].
  - intros tx [Htx|Htx]%elem_of_app; [by apply Hack|by apply Hsent in Htx].
  - intros w' Hw'. destruct (Hnew w' Hw') as (new & Hal' & Hns & Hst' & Hne & Hnext). exists new.*1. split_and!; [done| |by intros ?%fmap_nil_inv|done].
    rewrite Hns. intros tx (x & -> & Hx)%list_elem_of_fmap. exists x.1. split; [by apply H5, Hst'|].
    apply elem_of_app. right. apply list_elem_of_fmap. eauto.
Qed.

Lemma step_consistent s s' : step false s s' -> consistent s -> consistent s'.
Proof.
  destruct 1 as [s n r st Hn Hs Hp Ha|s f tx st sent _ Hf Hp|s g tx st Hgc _ _|
    s now w st sent Hw Hp|s w e Hw|s w e Hw|s st sent Hsh].
  - by apply (step_assign_consistent s n r).
  - by apply step_push_consistent.
  - done.
  - by apply (step_pull_consistent s now).
  - intros [H1 H2 H3 H4 H5 [hist (Hal & Hack & Hwork)]]. constructor; cbn; try done.
    destruct (Hwork w Hw) as (new & Hnew & Hns & _). exists (hist ++ new). unfold logged. cbn. split_and!; [done| |done].
    intros tx [Htx|[_ Htx]%send_all_None]%elem_of_app; [|by apply Hns].
    eapply covered_mono; [done| |by apply Hack]. intros f Hf. apply elem_of_app. by left.
  - intros [H1 H2 H3 H4 H5 [hist (Hal & Hack & Hwork)]]. constructor; cbn; try done.
    exists hist. unfold logged. cbn. split_and!; [done| |done].
    intros tx [Htx|[? _]%send_all_None]%elem_of_app; [by apply Hack|done].
  - unfold shutdown in Hsh. injection Hsh as <- <-. intros [H1 H2 H3 H4 H5 [hist H6]]. constructor; cbn; try done.
    + intros x Hx. by apply elem_of_nil in Hx.
    + exists hist. rewrite <- (app_nil_r (sys_pushed s)). apply logged_sent; [done|done| |done].
      by intros tx [? _]%send_all_None.
Qed.

Lemma start_consistent e_tag now : consistent (start e_tag now).
Proof.
  destruct Hstart as [Hok Hseqs Hseq Hnext Hpos _ _]. constructor; cbn; try (unfold pos_at; cbn; lia).
  - done.
  - intros x Hx. by apply elem_of_nil in Hx.
  - exists []. unfold logged. cbn. split_and!; [constructor|..]; try done.
    + unfold pos_at. cbn. lia.
    + unfold setsum_of. cbn. by rewrite setsum_default_r.
    + exists []. by rewrite app_nil_r.
    + by rewrite app_nil_r.
    + intros tx Htx. by apply elem_of_nil in Htx.
Qed.

Lemma reachable_consistent e_tag now s : rtc (step false) (start e_tag now) s -> consistent s.
Proof.
  intros Hr. pose proof (start_consistent e_tag now) as Hc. induction Hr as [|x y z Hxy _ IH]; [done|].
  by apply IH, (step_consistent x y).
Qed.

Lemma reachable_accounted gc e_tag now s : rtc (step gc) (start e_tag now) s ->
  accounted s /\ NoDup (sys_pushed s).*1.
Proof.
  assert (accounted (start e_tag now) /\ NoDup (sys_pushed (start e_tag now)).*1) as H0.
  { split; [|constructor]. unfold accounted. cbn. constructor. }
  intros Hr. induction Hr as [|x y z Hxy _ IH]; [done|]. destruct H0 as [Hacc Hnd]. apply IH. split.
  { by eapply step_accounted. }
  destruct Hxy; cbn; try done; rewrite fmap_app; cbn; apply NoDup_app;
    split_and!; try done; try apply NoDup_singleton; intros x Hx ->%list_elem_of_singleton; done.
Qed.

(** ** A failed install is final *)

(** The manager waits for a sequence number the manifest does not expect. *)
Definition wedged (s : Sys) : Prop :=
  consistent s /\ sys_work s = None /\
  exists hist, aligned (sys_lens s) hist (stable_manifest (stable (sys_st s))) /\
               seq0 + Z.of_nat (length hist) < fsn (next_seq_no_to_apply (sys_st s)).

Lemma wedged_applies_nothing lens frags hist m next ns post :
  aligned lens hist m -> seq0 + Z.of_nat (length lens) <= u64_max ->
  seq0 + Z.of_nat (length hist) < fsn next ->
  apply_staged frags m next ns post = (m, next, ns, post ++ frags).
Proof.
  intros Hal Hmax Hlt. pose proof (aligned_hist_le _ _ _ Hal) as Hle. revert ns post.
  induction frags as [|[f tx] frags IH]; intros ns post; cbn; [by rewrite app_nil_r|].
  replace (_ && _) with false; [by rewrite IH, <- app_assoc|]. symmetry. apply andb_false_iff.
  case_bool_decide as Hseq; [right|by left]. unfold can_apply_fragment.
  rewrite (aligned_next_seq _ _ _ Hal), bool_decide_eq_false_2 by (lia || intros [= Heq]; subst; rewrite Heq in Hlt; cbn in Hlt; lia).
  done.
Qed.

Lemma wedged_pulls_nothing s now w st sent :
  wedged s -> pull_work mgr now (sys_st s) = (w, st, sent) ->
  w = None /\ sent = [] /\ stable st = stable (sys_st s) /\
  next_seq_no_to_apply st = next_seq_no_to_apply (sys_st s).
Proof.
  intros (Hc & _ & hist & Hal & Hlt). unfold pull_work.
  case_bool_decide; [rewrite pull_gc_none by apply Hc; by intros [= <- <- <-]|].
  rewrite (wedged_applies_nothing (sys_lens s) _ hist _ _ _ _ (aligned_writer _ _ _ _ Hal) (co_seq_max _ Hc) Hlt).
  rewrite bool_decide_eq_true_2, pull_gc_none by (done || apply Hc). by intros [= <- <- <-].
Qed.

Lemma step_wedged s s' :
  step false s s' -> wedged s -> wedged s' /\ forall tx, (tx, None) ∈ sys_sent s' -> (tx, None) ∈ sys_sent s.
Proof.
  intros Hstep Hw. pose proof Hw as (Hc & Hwork & hist & Hal & Hlt).
  pose proof (step_consistent _ _ Hstep Hc) as Hc'. unfold wedged.
  destruct Hstep as [s n r st Hn Hs Hp Ha|s f tx st sent _ Hf Hp|s g tx st Hgc _ _|
    s now w st sent _ Hp|s w e Hw'|s w e Hw'|s st sent Hsh]; cbn in *; try congruence.
  - unfold assign_timestamp in Ha. injection Ha as _ <-. split_and!; try done. exists hist.
    split; [by apply aligned_app|done].
  - unfold push_work in Hp. destruct (tearing_down (sys_st s)); injection Hp as <- <-; (split; [by eauto 10|]).
    + intros t [?|[= _ ]%list_elem_of_singleton]%elem_of_app; done.
    + by rewrite app_nil_r.
  - destruct (wedged_pulls_nothing _ _ _ _ _ Hw Hp) as (-> & -> & Hst & Hap). rewrite app_nil_r in Hc' |- *. rewrite Hst, Hap.
    split; [|done]. split_and!; try done. eauto.
  - unfold shutdown in Hsh. injection Hsh as <- <-. split; [by eauto 10|].
    by intros t [?|[? _]%send_all_None]%elem_of_app.
Qed.

Lemma failed_wedged s w e :
  consistent s -> sys_work s = Some w ->
  wedged (mkSys (sys_st s) None (sys_sent s ++ send_all (notifiers w) (Some e)) (sys_lens s) (sys_pushed s)).
Proof.
  intros Hc Hw. pose proof (step_consistent _ _ (step_failed false s w e Hw) Hc) as Hc'.
  destruct (co_logged _ Hc) as (hist & Hal & _ & Hwork). destruct (Hwork w Hw) as (new & _ & _ & Hne & Hnext).
  split_and!; try done. exists hist. split; [done|]. cbn. rewrite Hnext, length_app. destruct new; [done|]. cbn. lia.
Qed.

Lemma wedged_forever s s' :
  rtc (step false) s s' -> wedged s ->
  sys_work s' = None /\ forall tx, (tx, None) ∈ sys_sent s' -> (tx, None) ∈ sys_sent s.
Proof.
  induction 1 as [s|s1 s2 s3 Hstep _ IH]; intros Hw; [by destruct Hw as (_ & ? & _)|].
  destruct (step_wedged _ _ Hstep Hw) as [Hw2 Hsent]. destruct (IH Hw2) as [? Hs3]. auto.
Qed.
End System.

(** ** [do_work] *)

Section DoWork.
Context {SS : SetsumSig} {OS : ObjectStore} {parquet : Parquet} {dirty : MarkDirty}.
Context {serde_manifest : Serde Manifest} {serde_snapshot : Serde Snapshot}.

(** How much is staged. *)
Definition backlog (st : Staging) : nat := length (staged st) + length (garbage_tx st).

Lemma put_retrying_fuel {A} k b o (on_ok : option ETag -> M A) on_pre on_err retries w :
  (forall t w, (on_ok t w).1 <> NoFuel) -> (forall w, (on_pre w).1 <> NoFuel) ->
  (forall e w, (on_err e w).1 <> NoFuel) ->
  (put_retrying k b o on_ok on_pre on_err retries w).1 <> NoFuel.
Proof.
  intros H1 H2 H3. revert w. induction retries as [|r IH]; intros w; cbn [put_retrying];
    unfold bind, request, next_backoff; destruct (put_bytes k b o w) as [[t|e] w1]; try done;
    destruct (is_precondition e); try done; destruct (backoff_next w1) as [d w2]; [done|].
  destruct (_ <? d); [done|]. apply IH.
Qed.

Lemma Manifest_install_fuel prefix e m w : (Manifest_install prefix e m w).1 <> NoFuel.
Proof.
  unfold Manifest_install, encode_or, bind. destruct (to_vec _) as [b|]; [|done]. cbv beta iota delta [ret].
  apply put_retrying_fuel; try done. by intros [].
Qed.

Lemma Snapshot_install_fuel prefix s w : (Snapshot_install prefix s w).1 <> NoFuel.
Proof.
  unfold Snapshot_install, encode_or, bind. destruct (to_vec _) as [b|]; [|done]. cbv beta iota delta [ret].
  by apply put_retrying_fuel.
Qed.

Lemma perform_returns mgr work st sent w :
  exists st' sent' w', perform mgr work st sent w = (Ret (st', sent'), w') /\
    sent'.*1 = sent.*1 ++ notifiers work /\
    (st' = st \/ exists e_tag, st' = installed_work work e_tag st).
Proof.
  unfold perform, attempt.
  set (c := match work_snapshot work with Some s => let! _ := Snapshot_install (mm_prefix mgr) s in ret tt
            | None => ret tt end).
  assert ((c w).1 <> NoFuel) as Hc.
  { unfold c. destruct (work_snapshot work) as [s|]; [|done]. unfold bind.
    pose proof (Snapshot_install_fuel (mm_prefix mgr) s w). by destruct (Snapshot_install _ _ w) as [[]]. }
  destruct (c w) as [[u|e|] w1]; [| |done]; unfold ret.
  - pose proof (Manifest_install_fuel (mm_prefix mgr) (Some (old_e_tag work)) (new_manifest work) w1) as Hm.
    destruct (Manifest_install _ _ _ w1) as [[e_tag|e|] w2]; [| |done].
    + repeat eexists; [by rewrite fmap_app, send_all_fst|right; by eexists].
    + repeat eexists; [by rewrite fmap_app, send_all_fst|by left].
  - repeat eexists; [by rewrite fmap_app, send_all_fst|by left].
Qed.

Lemma pull_work_smaller mgr now st w st' sent :
  pull_work mgr now st = (Some w, st', sent) -> notifiers w <> [].
Proof.
  assert (forall st, pull_gc_work_only st = (Some w, st', sent) -> notifiers w <> []) as Hgc.
  { intros st1. unfold pull_gc_work_only. destruct (staged_garbage st1) as [[g tx]|]; [|done].
    destruct (apply_garbage _ _) as [[m|]|e]; intros [= <- <- <-]; done. }
  unfold pull_work. case_bool_decide; [apply Hgc|].
  destruct (apply_staged _ _ _ _ _) as [[[m next] ns] post]. case_bool_decide as Hns; [apply Hgc|].
  destruct (staged_garbage _) as [[g tx]|].
  - destruct (apply_garbage m g) as [[m'|]|e]; intros [= <- <- <-]; cbn; [by intros [_ ?]%app_nil|done].
  - destruct (generate_snapshot m _ _) as [sn|]; [destruct (apply_snapshot m sn) as [[[]|e] m']|];
      by intros [= <- <- <-].
Qed.

Lemma pull_work_garbage mgr now st w st' sent :
  pull_work mgr now st = (w, st', sent) -> staged_garbage st' = None.
Proof.
  assert (forall st, pull_gc_work_only st = (w, st', sent) -> staged_garbage st' = None) as Hgc.
  { intros st1. unfold pull_gc_work_only. destruct (staged_garbage st1) as [[g tx]|] eqn:Hg.
    - destruct (apply_garbage _ _) as [[m|]|e]; by intros [= <- <- <-].
    - by intros [= <- <- <-]. }
  unfold pull_work. case_bool_decide; [apply Hgc|].
  destruct (apply_staged _ _ _ _ _) as [[[m next] ns] post]. case_bool_decide as Hns; [apply Hgc|].
  cbn [staged_garbage set_last_batch set_staged]. destruct (staged_garbage st) as [[g tx]|] eqn:Hg.
  - destruct (apply_garbage m g) as [[m'|]|e]; by intros [= <- <- <-].
  - destruct (generate_snapshot m _ _) as [sn|]; [destruct (apply_snapshot m sn) as [[[]|e] m']|];
      by intros [= <- <- <-].
Qed.

(** The loop ends, answers whom it takes from the staging area, and leaves no
    garbage there. *)
Lemma do_work_returns fuel mgr st sent w :
  (backlog st < fuel)%nat ->
  exists st' sent' w', do_work fuel mgr st sent w = (Ret (st', sent'), w') /\ staged_garbage st' = None /\
    (staged st).*2 ++ garbage_tx st ++ sent.*1 ≡ₚ (staged st').*2 ++ sent'.*1.
Proof.
  revert st sent w. induction fuel as [|fuel IH]; intros st sent w Hf; [lia|]. cbn [do_work].
  unfold bind at 1, instant_now. destruct (now w) as [t w1].
  destruct (pull_work mgr t st) as [[work st1] sent1] eqn:Hp.
  pose proof (pull_work_accounts _ _ _ _ _ _ Hp) as Hacc. pose proof (pull_work_garbage _ _ _ _ _ _ Hp) as Hg1.
  assert (garbage_tx st1 = []) as Hgt by (unfold garbage_tx; by rewrite Hg1). rewrite Hgt in Hacc. cbn in Hacc.
  destruct work as [work|]; cbv beta iota.
  - pose proof (pull_work_smaller _ _ _ _ _ _ Hp) as Hne. unfold bind.
    destruct (perform_returns mgr work st1 (sent ++ sent1) w1) as (st2 & sent2 & w2 & -> & Hs2 & Hst2).
    assert (staged st2 = staged st1 /\ garbage_tx st2 = []) as [Hs Hg].
    { destruct Hst2 as [->|[e_tag ->]]; cbn; unfold garbage_tx; cbn; by rewrite ?Hg1. }
    destruct (IH st2 sent2 w2) as (st' & sent' & w' & -> & Hg' & Hperm).
    { apply Permutation_length in Hacc. unfold backlog in *. rewrite Hs, Hg.
      rewrite !length_app, !length_fmap in Hacc. destruct (notifiers work); [done|]. cbn in Hacc |- *. lia. }
    exists st', sent', w'. split_and!; try done. rewrite <- Hperm, Hs, Hg, Hs2, fmap_app.
    rewrite app_assoc, Hacc. cbn. solve_Permutation.
  - exists st1, (sent ++ sent1), w1. split_and!; try done. rewrite fmap_app.
    rewrite app_assoc, Hacc. cbn. solve_Permutation.
Qed.
End DoWork.
