(* ===== verification/BatchFacts.v ===== *)
(** * What the batch manager takes

    The batches that [take_work] forms, and the interleavings of the batch
    manager's operations: one batch is written at a time and no waiter is lost. *)

From S2P Require Import Prelude Setsum Storage Types Paths Effects Manifest Persist Gc Reader ManifestManager.
From S2P Require Import BatchManager.

#[local] Open Scope Z_scope.
#[local] Open Scope wal_scope.

(** ** Sizes of queues *)

Definition entry_bytes (x : Entry) : Z := sum_z ((fun r => Z.of_nat (length r)) <$> x.1).
Definition entry_count (x : Entry) : Z := Z.of_nat (length x.1).
Definition queue_bytes (q : list Entry) : Z := sum_z (entry_bytes <$> q).
Definition queue_count (q : list Entry) : Z := sum_z (entry_count <$> q).

(** The machine's [usize] holds the sizes. *)
Definition fits (q : list Entry) : Prop := queue_bytes q <= u64_max /\ queue_count q <= u64_max.

Lemma entry_bytes_nonneg x : 0 <= entry_bytes x.
Proof. apply sum_z_nonneg. rewrite Forall_fmap. apply Forall_true. intros. cbn. lia. Qed.

Lemma queue_bytes_nonneg q : 0 <= queue_bytes q.
Proof. apply sum_z_nonneg. rewrite Forall_fmap. apply Forall_true. apply entry_bytes_nonneg. Qed.

Lemma queue_count_nonneg q : 0 <= queue_count q.
Proof. apply sum_z_nonneg. rewrite Forall_fmap. apply Forall_true. intros. unfold entry_count. cbn. lia. Qed.

Lemma queue_bytes_app q1 q2 : queue_bytes (q1 ++ q2) = queue_bytes q1 + queue_bytes q2.
Proof. unfold queue_bytes. by rewrite fmap_app, sum_z_app. Qed.

Lemma queue_count_app q1 q2 : queue_count (q1 ++ q2) = queue_count q1 + queue_count q2.
Proof. unfold queue_count. by rewrite fmap_app, sum_z_app. Qed.

Lemma queue_bytes_cons x q : queue_bytes (x :: q) = entry_bytes x + queue_bytes q.
Proof. reflexivity. Qed.

Lemma queue_count_cons x q : queue_count (x :: q) = entry_count x + queue_count q.
Proof. reflexivity. Qed.

Lemma batch_bytes_exact x : entry_bytes x <= u64_max -> batch_bytes x.1 = entry_bytes x.
Proof. apply sum_u64_exact. rewrite Forall_fmap. apply Forall_true. intros. cbn. lia. Qed.

(** ** The loop of [take_work] *)

Lemma split_work_spec size q done_ :
  fits (done_ ++ q) ->
  let '(n, cnt, did) := split_work size q (length done_) (queue_count done_) (queue_bytes done_) in
  exists k, n = (length done_ + k)%nat /\ (k <= length q)%nat /\ cnt = queue_count (done_ ++ take k q) /\
    (done_ = [] -> q <> [] -> (1 <= k)%nat) /\
    ((1 <= k)%nat -> (2 <= length done_ + k)%nat -> queue_bytes (done_ ++ take k q) < size) /\
    (if did then exists x, q !! k = Some x /\ size <= queue_bytes (done_ ++ take k q) + entry_bytes x
     else k = length q).
Proof.
  revert done_. induction q as [|[batch tx] q IH]; intros done_ Hfits; cbn [split_work].
  - exists 0%nat. split_and!; cbn; [lia|lia|by rewrite app_nil_r|done|intros; lia|done].
  - destruct Hfits as [Hb Hc].
    pose proof (queue_bytes_nonneg q) as Hqb. pose proof (queue_count_nonneg q) as Hqc.
    pose proof (queue_bytes_nonneg done_) as Hdb. pose proof (queue_count_nonneg done_) as Hdc.
    assert (queue_bytes (done_ ++ (batch, tx) :: q) = queue_bytes done_ + entry_bytes (batch, tx) + queue_bytes q) as Eb.
    { rewrite queue_bytes_app, queue_bytes_cons. lia. }
    assert (queue_count (done_ ++ (batch, tx) :: q) = queue_count done_ + entry_count (batch, tx) + queue_count q) as Ec.
    { rewrite queue_count_app, queue_count_cons. lia. }
    pose proof (entry_bytes_nonneg (batch, tx)) as He.
    change (batch_bytes batch) with (batch_bytes (batch, tx).1). rewrite (batch_bytes_exact (batch, tx)), wrapping_add_small by (unfold is_u64; lia).
    destruct ((0 <? length done_)%nat && (size <=? queue_bytes done_ + entry_bytes (batch, tx))) eqn:Hcond.
    + apply andb_true_iff in Hcond as [H1%Nat.ltb_lt H2%Z.leb_le]. exists 0%nat. cbn. rewrite app_nil_r.
      split_and!; [lia|lia|done| |lia|by exists (batch, tx)]. intros ->. cbn in H1. lia.
    + replace (wrapping_add (queue_count done_) (Z.of_nat (length batch))) with (queue_count (done_ ++ [(batch, tx)])).
      2:{ rewrite queue_count_app, queue_count_cons. unfold entry_count in *. cbn [fst] in *.
          rewrite wrapping_add_small by (unfold is_u64; lia). cbn. lia. }
      replace (queue_bytes done_ + entry_bytes (batch, tx)) with (queue_bytes (done_ ++ [(batch, tx)])).
      2:{ rewrite queue_bytes_app, queue_bytes_cons. cbn. lia. }
      replace (S (length done_)) with (length (done_ ++ [(batch, tx)])) by (rewrite length_app; cbn; lia).
      specialize (IH (done_ ++ [(batch, tx)])).
      destruct (split_work _ _ _ _ _) as [[n cnt] did]. destruct IH as (k & -> & Hk & -> & _ & Hsz & Hdid).
      { unfold fits. rewrite <- app_assoc. done. }
      rewrite length_app in *. cbn [length] in *. exists (S k). cbn [length take app lookup].
      rewrite <- !app_assoc in *. cbn [app] in *. split_and!; [lia|lia|done|intros; lia| |by destruct did; [|lia]].
      intros _ H2. destruct (decide (k = 0%nat)) as [->|Hk0]; [|apply Hsz; lia].
      rewrite take_0, queue_bytes_app, queue_bytes_cons. change (queue_bytes []) with 0.
      apply andb_false_iff in Hcond as [H0%Nat.ltb_ge|H0%Z.leb_gt]; lia.
Qed.

Lemma split_work_pos size q n cnt did : q <> [] -> split_work size q 0 0 0 = (n, cnt, did) -> n <> 0%nat.
Proof.
  assert (forall q n c b, (split_work size q (S n) c b).1.1 <> 0%nat) as Hs.
  { clear. induction q as [|[b tx] q IH]; intros n c b'; cbn; [done|]. destruct (_ <=? _); [done|apply IH]. }
  destruct q as [|[b tx] q]; [done|]. cbn. intros _ Es.
  cbv iota beta in Es. change ((0 <? 0)%nat && _) with false in Es. cbv iota in Es.
  specialize (Hs q 0%nat (wrapping_add 0 (Z.of_nat (length b))) (wrapping_add 0 (batch_bytes b))). by rewrite Es in Hs.
Qed.

Section Batches.
Context {SS : SetsumSig}.

(** ** What is taken *)

Lemma take_work_Some o now1 now2 now3 s st seq pos work s' st' :
  fits (enqueued s) -> take_work o now1 now2 now3 s st = Some (Ok (Some (seq, pos, work)), s', st') ->
  enqueued s = work ++ enqueued s' /\ work <> [] /\
  assign_timestamp (queue_count work) st = (Some (seq, pos), st') /\
  ((2 <= length work)%nat -> queue_bytes work < batch_size_bytes o) /\
  (forall x, list.head (enqueued s') = Some x -> batch_size_bytes o <= queue_bytes (work ++ [x])) /\
  writers_active s <= 0 /\ writers_active s' = wrapping_add (writers_active s) 1 /\
  next_write s <= now2 /\ (exists d, write_interval o = Some d /\ next_write s' = now3 + d) /\
  bm_tearing_down s = false /\ bm_tearing_down s' = false /\
  (enqueued s' <> [] -> write_finished s' = true).
Proof.
  intros Hfits. unfold take_work. destruct (bm_tearing_down s) eqn:Htd; [done|]. case_bool_decide as Hne; [done|].
  pose proof (split_work_spec (batch_size_bytes o) (enqueued s) [] Hfits) as Hsp.
  change (length (@nil Entry)) with 0%nat in Hsp. change (queue_count []) with 0 in Hsp.
  change (queue_bytes []) with 0 in Hsp.
  destruct (split_work _ _ _ _ _) as [[n cnt] did]. destruct Hsp as (k & -> & Hk & -> & H1 & Hsz & Hdid). cbn [app] in *.
  specialize (H1 eq_refl Hne). destruct (negb did && _); [done|]. destruct (Nat.eqb_spec (0 + k) 0); [done|].
  cbn [Nat.add] in *. unfold select_for_write, set_next_write.
  destruct (Z.ltb_spec now2 (next_write s)); [done|]. destruct (Z.ltb_spec 0 (writers_active s)); [done|].
  destruct (assign_timestamp _ st) as [[[seq1 pos1]|] st1] eqn:Ha; [|done].
  destruct (write_interval o) as [d|] eqn:Hd; [|done]. intros [= <- <- <- <- <-].
  assert (forall b, enqueued (if b : bool then notify_one (mkManagerState
            (batch_size_bytes o <=? sum_u64 ((fun x => batch_bytes x.1) <$> drop k (enqueued s)))
            (now3 + d) (wrapping_add (writers_active s) 1) (drop k (enqueued s)) (bm_tearing_down s) (write_finished s))
          else mkManagerState false (now3 + d) (wrapping_add (writers_active s) 1) (drop k (enqueued s))
                 (bm_tearing_down s) (write_finished s)) = drop k (enqueued s)) as Hq by (by intros []).
  cbn [enqueued next_write writers_active bm_tearing_down write_finished] in *. rewrite Hq.
  split_and!; try done.
  - by rewrite take_drop.
  - intros Hnil%(f_equal length). rewrite length_take in Hnil. cbn in Hnil. lia.
  - rewrite length_take. intros Hl. apply Hsz; lia.
  - intros x Hx. rewrite head_lookup, lookup_drop, Nat.add_0_r in Hx. destruct did.
    + destruct Hdid as (y & Hy & Hle). rewrite Hx in Hy. injection Hy as ->. rewrite queue_bytes_app, queue_bytes_cons.
      change (queue_bytes []) with 0. lia.
    + subst k. by rewrite lookup_ge_None_2 in Hx.
  - by case_bool_decide.
  - exists d. by case_bool_decide.
  - by case_bool_decide.
  - intros Hr. by rewrite bool_decide_eq_true_2.
Qed.

(** In every other case nothing is taken from the queue. *)
Lemma take_work_other o now1 now2 now3 s st r s' st' :
  take_work o now1 now2 now3 s st = Some (r, s', st') -> (forall x, r <> Ok (Some x)) ->
  enqueued s' = enqueued s /\ writers_active s' = writers_active s /\ next_write s' = next_write s /\
  bm_tearing_down s' = bm_tearing_down s.
Proof.
  unfold take_work. destruct (bm_tearing_down s) eqn:Htd; [by intros [= <- <- <-]|].
  case_bool_decide as Hne; [by intros [= <- <- <-]|].
  destruct (split_work _ _ _ _ _) as [[n cnt] did]. destruct (negb did && _); [by intros [= <- <- <-]|].
  destruct (Nat.eqb_spec n 0); [by intros [= <- <- <-]|]. unfold select_for_write.
  destruct (_ <? _); [by intros [= <- <- <-]|]. destruct (_ <? _); [by intros [= <- <- <-]|].
  destruct (assign_timestamp _ st) as [[[seq1 pos1]|] st1]; [|by intros [= <- <- <-]].
  destruct (set_next_write _ _ _) as [s1|]; [|done]. intros [= <- <- <-] Hr. exfalso. by eapply Hr.
Qed.

(** ** Interleavings *)

(** The state, the batches that are being written, the answers sent, and the
    senders that were pushed. *)
Record BSys := mkBSys {
  bs_state : ManagerState;
  bs_staging : Staging;
  bs_writing : list Taken;
  bs_answers : Answers;
  bs_pushed : list Tx;
}.

Definition answers_of (t : Taken) (r : result LogPosition Error) : Answers := (fun x => (x.2, r)) <$> t.2.

Variable o : ThrottleOptions.

Inductive bstep : BSys -> BSys -> Prop :=
| bstep_push b messages tx s ans :
    fits (enqueued (bs_state b) ++ [(messages, tx)]) ->
    bm_push_work messages tx (bs_state b) = (s, ans) ->
    bstep b (mkBSys s (bs_staging b) (bs_writing b) (bs_answers b ++ ans) (bs_pushed b ++ [tx]))
| bstep_take b now1 now2 now3 r s st :
    take_work o now1 now2 now3 (bs_state b) (bs_staging b) = Some (r, s, st) ->
    bstep b (mkBSys s st (match r with Ok (Some t) => bs_writing b ++ [t] | _ => bs_writing b end)
               (bs_answers b) (bs_pushed b))
| bstep_wait b s :
    wait_for_writable (bs_state b) = Some s ->
    bstep b (mkBSys s (bs_staging b) (bs_writing b) (bs_answers b) (bs_pushed b))
(** [append_batch] of a batch that could be published. *)
| bstep_written b t pre post ans :
    bs_writing b = pre ++ t :: post -> ans.*1 = t.2.*2 ->
    bstep b (mkBSys (bm_finish_write (bs_state b)) (bs_staging b) (pre ++ post) (bs_answers b ++ ans) (bs_pushed b))
(** [append_batch] of a batch that failed, which shuts the writer down. *)
| bstep_failed b t pre post e s ans :
    bs_writing b = pre ++ t :: post -> bm_shutdown (bs_state b) = (s, ans) ->
    bstep b (mkBSys s (bs_staging b) (pre ++ post) (bs_answers b ++ ans ++ answers_of t (Err e)) (bs_pushed b))
| bstep_shutdown b s ans :
    bm_shutdown (bs_state b) = (s, ans) ->
    bstep b (mkBSys (pump_write_finished s) (bs_staging b) (bs_writing b) (bs_answers b ++ ans) (bs_pushed b))
(** Other users of the manifest manager. *)
| bstep_manifest b st :
    bstep b (mkBSys (bs_state b) st (bs_writing b) (bs_answers b) (bs_pushed b)).

Definition bstart (now : Z) (st : Staging) : BSys := mkBSys (BatchManager_new now) st [] [] [].

(** The senders of the batches that are being written. *)
Definition writing_tx (l : list Taken) : list Tx := concat ((fun t : Taken => t.2.*2) <$> l).

#[local] Arguments writing_tx l : simpl never.

Record batch_ok (b : BSys) : Prop := {
  bo_fits : fits (enqueued (bs_state b));
  bo_one : (length (bs_writing b) <= 1)%nat;
  bo_active : bm_tearing_down (bs_state b) = false ->
              writers_active (bs_state b) = Z.of_nat (length (bs_writing b));
  bo_tearing : bm_tearing_down (bs_state b) = true -> enqueued (bs_state b) = [];
  bo_accounted : bs_pushed b ≡ₚ (enqueued (bs_state b)).*2 ++ writing_tx (bs_writing b) ++ (bs_answers b).*1;
}.

Lemma writing_tx_middle pre t post : writing_tx (pre ++ t :: post) ≡ₚ t.2.*2 ++ writing_tx (pre ++ post).
Proof. unfold writing_tx. rewrite !fmap_app, !concat_app. cbn. solve_Permutation. Qed.

Lemma fits_suffix q1 q2 : fits (q1 ++ q2) -> fits q2.
Proof.
  unfold fits. rewrite queue_bytes_app, queue_count_app.
  pose proof (queue_bytes_nonneg q1). pose proof (queue_count_nonneg q1). lia.
Qed.

Lemma fits_nil : fits [].
Proof. unfold fits, u64_max. cbn. lia. Qed.

Lemma answers_fst (l : list Entry) (r : result LogPosition Error) : ((fun x => (x.2, r)) <$> l).*1 = l.*2.
Proof. by rewrite <- list_fmap_compose. Qed.

Lemma push_ok b messages tx s ans :
  fits (enqueued (bs_state b) ++ [(messages, tx)]) -> bm_push_work messages tx (bs_state b) = (s, ans) ->
  batch_ok b -> batch_ok (mkBSys s (bs_staging b) (bs_writing b) (bs_answers b ++ ans) (bs_pushed b ++ [tx])).
Proof.
  intros Hf Hp [H1 H2 H3 H4 H5]. unfold bm_push_work in Hp.
  destruct (bm_tearing_down (bs_state b)) eqn:Ht; [|destruct (bm_backoff (bs_state b))]; injection Hp as <- <-;
    constructor; cbn; try done; try (by rewrite Ht); rewrite ?fmap_app, H5; cbn; solve_Permutation.
Qed.

Lemma take_ok b now1 now2 now3 r s st :
  take_work o now1 now2 now3 (bs_state b) (bs_staging b) = Some (r, s, st) -> batch_ok b ->
  batch_ok (mkBSys s st (match r with Ok (Some t) => bs_writing b ++ [t] | _ => bs_writing b end)
              (bs_answers b) (bs_pushed b)).
Proof.
  intros Ht [H1 H2 H3 H4 H5].
  assert ((exists t, r = Ok (Some t)) \/ ~ exists t, r = Ok (Some t)) as [[[[seq pos] work] ->]|Hr]
    by (destruct r as [[t|]|e]; [left; eauto|right; by intros [? ?]..]).
  - destruct (take_work_Some _ _ _ _ _ _ _ _ _ _ _ H1 Ht)
      as (Hq & Hne & _ & _ & _ & Hw & Hw' & _ & _ & Htd & Htd' & _).
    specialize (H3 Htd). assert (bs_writing b = []) as Hnil by (destruct (bs_writing b); [done|cbn in H3; lia]).
    rewrite Hnil in *. constructor; cbn.
    + rewrite Hq in H1. by apply fits_suffix in H1.
    + lia.
    + intros _. rewrite Hw', H3. reflexivity.
    + congruence.
    + rewrite H5, Hq, fmap_app. unfold writing_tx. cbn. solve_Permutation.
  - assert (match r with Ok (Some t) => bs_writing b ++ [t] | _ => bs_writing b end = bs_writing b) as ->
      by (destruct r as [[t|]|e]; [exfalso; eauto|done|done]).
    destruct (take_work_other _ _ _ _ _ _ _ _ _ Ht) as (Hq & Hw & _ & Htd); [intros x ->; eauto|].
    constructor; cbn; rewrite ?Hq, ?Hw, ?Htd; done.
Qed.

Lemma bstep_ok b b' : bstep b b' -> batch_ok b -> batch_ok b'.
Proof.
  destruct 1 as [b ms tx s ans Hf Hp|b n1 n2 n3 r s st Ht|b s Hw|b t pre post ans Hb Hans|
                 b t pre post e s ans Hb Hs|b s ans Hs|b st].
  - by eapply push_ok.
  - by apply (take_ok b n1 n2 n3).
  - unfold wait_for_writable in Hw. destruct (write_finished _); [|done]. injection Hw as <-. by intros [].
  - intros [H1 H2 H3 H4 H5]. rewrite Hb in *. rewrite length_app in H2. cbn in H2.
    assert (pre = [] /\ post = []) as [-> ->] by (destruct pre, post; cbn in H2; done || lia).
    constructor; cbn; try done; [lia| |].
    + intros Ht. rewrite (H3 Ht). reflexivity.
    + rewrite H5, fmap_app, Hans. unfold writing_tx. cbn. solve_Permutation.
  - unfold bm_shutdown in Hs. injection Hs as <- <-. intros [H1 H2 H3 H4 H5]. rewrite Hb in *.
    constructor; cbn; try done.
    + rewrite length_app in *. cbn in H2. lia.
    + rewrite H5, writing_tx_middle. generalize (writing_tx (pre ++ post)). intros l.
      unfold answers_of. rewrite !fmap_app, !answers_fst. solve_Permutation.
  - unfold bm_shutdown in Hs. injection Hs as <- <-. intros [H1 H2 H3 H4 H5]. constructor; cbn; try done.
    rewrite H5, fmap_app, answers_fst. solve_Permutation.
  - by intros [].
Qed.

Lemma breachable_ok now st b : rtc bstep (bstart now st) b -> batch_ok b.
Proof.
  intros Hr. assert (batch_ok (bstart now st)) as H0 by (constructor; cbn; try done; lia).
  induction Hr as [|x y z Hxy _ IH]; [done|]. by apply IH, (bstep_ok x y).
Qed.
End Batches.
