(* ===== verification/DirtyFacts.v ===== *)
(** * What the rollup of dirty markers computes

    The rollup as a sum of the marks of a collection, in which order does not
    matter, and the loop over the fragments of the dirty log that computes it. *)

From S2P Require Import Prelude Setsum Storage Types Paths Effects Manifest Persist Gc Reader Cursors Dirty.

#[local] Open Scope Z_scope.

(** ** Sums of marks *)

Definition join (a b : RollupPerCollection) : RollupPerCollection :=
  mkRollup (from_offset (Z.min (offset (start_log_position a)) (offset (start_log_position b))))
    (from_offset (Z.max (offset (limit_log_position a)) (offset (limit_log_position b))))
    (Z.max (reinsert_count a) (reinsert_count b))
    (Z.min (initial_insertion_epoch_us a) (initial_insertion_epoch_us b)).

Definition join_opt (a b : option RollupPerCollection) : option RollupPerCollection :=
  match a, b with
  | Some a, Some b => Some (join a b)
  | Some a, None => Some a
  | None, b => b
  end.

(** What one marker says about the collection [c]. *)
Definition mark_of (c : CollectionUuid) (m : DirtyMarker) : option RollupPerCollection :=
  match m with
  | DirtyMark c' p n r e =>
      if bool_decide (c' = c) then Some (mkRollup (from_offset p) (from_offset (saturating_add p n)) (Z.max 0 r) e)
      else None
  | _ => None
  end.

(** What the markers say about [c] together. *)
Definition summary (c : CollectionUuid) (ms : list DirtyMarker) : option RollupPerCollection :=
  foldr join_opt None (mark_of c <$> ms).

#[global] Instance join_opt_comm : Comm (=) join_opt.
Proof.
  intros [a|] [b|]; cbn; [|done..]. f_equal. unfold join.
  f_equal; [f_equal; lia|f_equal; lia|lia|lia].
Qed.

#[global] Instance join_opt_assoc : Assoc (=) join_opt.
Proof.
  intros [a|] [b|] [c|]; cbn; try done. f_equal. unfold join; cbn.
  f_equal; [f_equal; lia|f_equal; lia|lia|lia].
Qed.

Lemma summary_app c ms ms' : summary c (ms ++ ms') = join_opt (summary c ms) (summary c ms').
Proof.
  unfold summary. induction ms as [|m ms IH]; cbn; [by destruct (foldr _ _ _)|]. by rewrite IH, (assoc_L join_opt).
Qed.

#[global] Instance summary_perm c : Proper ((≡ₚ) ==> (=)) (summary c).
Proof.
  intros ms ms' Hp. induction Hp as [|m ms ms' _ IH|m m' ms|ms1 ms2 ms3 _ IH1 _ IH2]; [done| | |congruence];
    unfold summary in *; cbn; [by rewrite IH|].
  by rewrite !(assoc_L join_opt), (comm_L join_opt (mark_of c m)).
Qed.

(** The summary covers every mark. *)
Lemma summary_covers c ms p n r e :
  DirtyMark c p n r e ∈ ms -> exists s, summary c ms = Some s /\
    offset (start_log_position s) <= p /\ saturating_add p n <= offset (limit_log_position s) /\ r <= reinsert_count s.
Proof.
  intros (l1 & l2 & ->)%list_elem_of_split. rewrite summary_app.
  unfold summary at 2. cbn. rewrite bool_decide_eq_true_2 by done. fold (summary c l2).
  destruct (summary c l1) as [s1|], (summary c l2) as [s2|]; cbn; eexists; (split; [reflexivity|]); cbn; lia.
Qed.

(** A mark in a summary comes from a mark. *)
Lemma summary_None c ms : summary c ms = None <-> forall p n r e, DirtyMark c p n r e ∉ ms.
Proof.
  split.
  - intros Hs p n r e Hin. by destruct (summary_covers _ _ _ _ _ _ Hin) as (s & Hs' & _); congruence.
  - intros Hno. induction ms as [|m ms IH]; [done|]. unfold summary; cbn. fold (summary c ms).
    rewrite IH by (intros ????; specialize (Hno p n r e); set_solver).
    destruct m as [c' p n r e|c'|]; cbn; try done. case_bool_decide as Hc; [|done]. subst c'.
    exfalso. apply (Hno p n r e). by left.
Qed.

(** ** The loop *)

Lemma observe_join p n r e s :
  RollupPerCollection.observe_dirty_marker (from_offset p) n r e s =
  join s (mkRollup (from_offset p) (from_offset (saturating_add p n)) r e).
Proof.
  unfold RollupPerCollection.observe_dirty_marker, join, LogPosition.ltb. cbn. f_equal.
  - destruct (Z.ltb_spec p (offset (start_log_position s))); apply LogPosition_eq; cbn; lia.
  - destruct (Z.ltb_spec (offset (limit_log_position s)) (saturating_add p n)); apply LogPosition_eq; cbn; lia.
Qed.

(** Counts are unsigned. *)
Definition counts_ok (ms : list DirtyMarker) : Prop :=
  forall c p n r e, DirtyMark c p n r e ∈ ms -> 0 <= r.

Lemma counts_ok_cons m ms : counts_ok (m :: ms) -> counts_ok ms.
Proof. intros H c p n r e Hin. eapply H. by right. Qed.

Lemma coalesce_fold ms rollups forget :
  counts_ok ms ->
  (forall c, (foldl coalesce_marker (rollups, forget) ms).1 !! c = join_opt (rollups !! c) (summary c ms)) /\
  (forall c, c ∈ (foldl coalesce_marker (rollups, forget) ms).2 <-> c ∈ forget \/ DirtyPurge c ∈ ms).
Proof.
  revert rollups forget. induction ms as [|m ms IH]; intros rollups forget Hc.
  { split; intros c; cbn [foldl fst snd]; [by destruct (rollups !! c)|]. rewrite elem_of_nil. tauto. }
  change (foldl coalesce_marker (rollups, forget) (m :: ms)) with
    (foldl coalesce_marker (coalesce_marker (rollups, forget) m) ms).
  assert (forall c, (coalesce_marker (rollups, forget) m).1 !! c = join_opt (rollups !! c) (mark_of c m)) as H1.
  { intros c. destruct m as [c' p n r e|c'|]; cbn; [|by destruct (rollups !! c)..].
    rewrite observe_join. case_bool_decide as He.
    - subst c'. rewrite lookup_insert_eq. assert (0 <= r) by (eapply Hc; by left).
      destruct (rollups !! c) as [s|]; cbn; f_equal.
      + unfold join. cbn. f_equal. lia.
      + unfold join, RollupPerCollection.new. cbn. f_equal; try (f_equal; lia); lia.
    - rewrite lookup_insert_ne by done. by destruct (rollups !! c). }
  assert (forall c, c ∈ (coalesce_marker (rollups, forget) m).2 <-> c ∈ forget \/ DirtyPurge c = m) as H2.
  { intros c. destruct m as [c' p n r e|c'|]; cbn; [naive_solver| |naive_solver].
    rewrite elem_of_union, elem_of_singleton. naive_solver. }
  destruct (coalesce_marker (rollups, forget) m) as [rollups' forget'].
  destruct (IH rollups' forget' (counts_ok_cons _ _ Hc)) as [H3 H4]. cbn [fst snd] in *. split; intros c.
  - rewrite H3, H1. unfold summary at 2. cbn. by rewrite (assoc_L join_opt).
  - rewrite H4, H2, elem_of_cons. naive_solver.
Qed.

Lemma remove_all_lookup forget rollups c :
  remove_all forget rollups !! c = if bool_decide (c ∈ forget) then None else rollups !! c.
Proof.
  unfold remove_all. case_bool_decide as Hc.
  - apply map_lookup_filter_None. right. intros r _ Hn. by apply Hn.
  - destruct (rollups !! c) as [r|] eqn:Hr.
    + by apply map_lookup_filter_Some.
    + apply map_lookup_filter_None. by left.
Qed.

(** ** All fragments *)

Definition markers_of (fragments : list (list (LogPosition * DirtyMarker))) : list DirtyMarker := (concat fragments).*2.

Definition add_fragments (fragments : list (list (LogPosition * DirtyMarker))) (t : RollupTransientState) :
    RollupTransientState :=
  foldl (fun t records => add_fragment records t) t fragments.

(** What is known when the fragments [done] were added. *)
Definition rolled (ms : list DirtyMarker) (t : RollupTransientState) : Prop :=
  forall c, (c ∈ tr_forget t <-> DirtyPurge c ∈ ms) /\ (c ∉ tr_forget t -> tr_rollups t !! c = summary c ms).

Lemma rolled_add ms records t :
  counts_ok records.*2 -> rolled ms t -> rolled (ms ++ records.*2) (add_fragment records t).
Proof.
  intros Hc Hr c. destruct (Hr c) as [Hf Hs]. unfold add_fragment, coalesce_markers.
  destruct (coalesce_fold records.*2 (tr_rollups t) ∅ Hc) as [H1 H2].
  destruct (foldl coalesce_marker (tr_rollups t, ∅) records.*2) as [rollups forget]. cbn in *.
  rewrite elem_of_union, elem_of_app, Hf, H2, elem_of_empty. split; [tauto|].
  intros Hno. rewrite remove_all_lookup, H1, summary_app, Hs by tauto.
  rewrite bool_decide_eq_false_2; [done|]. rewrite H2, elem_of_empty. tauto.
Qed.

Lemma rolled_fragments fragments ms t :
  counts_ok (markers_of fragments) -> rolled ms t -> rolled (ms ++ markers_of fragments) (add_fragments fragments t).
Proof.
  unfold markers_of, add_fragments. revert ms t. induction fragments as [|f fragments IH]; intros ms t Hc Hr; cbn.
  { by rewrite app_nil_r. }
  rewrite fmap_app, (assoc_L app). cbn in Hc. rewrite fmap_app in Hc. apply IH.
  - intros c p n r e Hin. eapply Hc. apply elem_of_app. by right.
  - apply rolled_add; [|done]. intros c p n r e Hin. eapply Hc. apply elem_of_app. by left.
Qed.

(** The rollup of fragments, in any order. *)
Lemma finish_rollup_spec fragments fragments' c :
  counts_ok (markers_of fragments) -> fragments' ≡ₚ fragments ->
  finish_rollup (add_fragments fragments' RollupTransientState_default) !! c =
  if bool_decide (DirtyPurge c ∈ markers_of fragments) then None else summary c (markers_of fragments).
Proof.
  intros Hc Hp. assert (markers_of fragments' ≡ₚ markers_of fragments) as Hm.
  { unfold markers_of. by rewrite Hp. }
  destruct (rolled_fragments fragments' [] RollupTransientState_default) with (c := c) as [Hf Hs].
  - intros c' p n r e Hin. eapply Hc. by rewrite <- Hm.
  - intros c'. cbn. rewrite elem_of_nil, elem_of_empty. split; [done|]. by rewrite lookup_empty.
  - cbn [app] in Hf, Hs. unfold finish_rollup. rewrite remove_all_lookup.
    rewrite Hm in Hf. case_bool_decide as H1; case_bool_decide as H2; [done|tauto|tauto|]. rewrite Hs by done. by rewrite Hm.
Qed.

Lemma max_position_offset p q : offset (RollupPerCollection.max_position p q) = Z.max (offset p) (offset q).
Proof.
  unfold RollupPerCollection.max_position, LogPosition.leb. destruct (Z.leb_spec (offset p) (offset q)); lia.
Qed.

(** The largest position: an upper bound of those that were read, and one of them. *)
Lemma largest_fold (records : list (LogPosition * DirtyMarker)) p :
  let q := foldl (fun acc x => RollupPerCollection.max_position acc x.1) p records in
  offset p <= offset q /\ (forall x, x ∈ records -> offset x.1 <= offset q) /\ (q = p \/ q ∈ records.*1).
Proof.
  revert p. induction records as [|x records IH]; intros p; cbn.
  { split_and!; [lia| |by left]. by intros x ?%not_elem_of_nil. }
  destruct (IH (RollupPerCollection.max_position p x.1)) as (H1 & H2 & H3). rewrite max_position_offset in H1.
  split_and!; [lia| |].
  - intros y [->|Hy]%elem_of_cons; [lia|by apply H2].
  - destruct H3 as [->|H3]; [|by right; right]. unfold RollupPerCollection.max_position.
    destruct (LogPosition.leb p x.1); [right; by left|by left].
Qed.

Lemma largest_fragments fragments t :
  let q := largest_log_position_read (add_fragments fragments t) in
  offset (largest_log_position_read t) <= offset q /\ (forall x, x ∈ concat fragments -> offset x.1 <= offset q) /\
  (q = largest_log_position_read t \/ q ∈ (concat fragments).*1).
Proof.
  unfold add_fragments. revert t. induction fragments as [|f fragments IH]; intros t; cbn.
  { split_and!; [lia| |by left]. by intros x ?%not_elem_of_nil. }
  destruct (IH (add_fragment f t)) as (H1 & H2 & H3).
  assert (largest_log_position_read (add_fragment f t) =
          foldl (fun acc x => RollupPerCollection.max_position acc x.1) (largest_log_position_read t) f) as He.
  { unfold add_fragment. by destruct (coalesce_markers _ _ _). }
  rewrite He in *. destruct (largest_fold f (largest_log_position_read t)) as (H4 & H5 & H6).
  split_and!; [lia| |].
  - intros x [Hx|Hx]%elem_of_app; [specialize (H5 x Hx); lia|by apply H2].
  - rewrite fmap_app. destruct H3 as [->|H3]; [|right; apply elem_of_app; by right].
    destruct H6 as [->|H6]; [by left|right; apply elem_of_app; by left].
Qed.

(** Only collections with a mark are in a rollup. *)
Definition marked (c : CollectionUuid) (ms : list DirtyMarker) : Prop := exists p n r e, DirtyMark c p n r e ∈ ms.

Lemma marked_app c ms ms' : marked c (ms ++ ms') <-> marked c ms \/ marked c ms'.
Proof. unfold marked. setoid_rewrite elem_of_app. naive_solver. Qed.

Lemma coalesce_marked ms rollups forget c :
  is_Some ((foldl coalesce_marker (rollups, forget) ms).1 !! c) -> is_Some (rollups !! c) \/ marked c ms.
Proof.
  revert rollups forget. induction ms as [|m ms IH]; intros rollups forget; [by left|]. change (m :: ms) with ([m] ++ ms).
  rewrite marked_app. cbn [app foldl]. destruct (coalesce_marker (rollups, forget) m) as [rollups' forget'] eqn:Hm.
  intros [Hc|Hc]%IH; [|by right; right]. destruct m as [c' p n r e|c'|]; injection Hm as <- <-; [|by left..].
  destruct (decide (c' = c)) as [->|Hne]; [right; left; exists p, n, r, e; by left|]. left. by rewrite lookup_insert_ne in Hc.
Qed.

Lemma add_fragments_marked fragments t c :
  is_Some (tr_rollups (add_fragments fragments t) !! c) -> is_Some (tr_rollups t !! c) \/ marked c (markers_of fragments).
Proof.
  unfold add_fragments, markers_of. revert t. induction fragments as [|f fragments IH]; intros t; cbn; [by left|].
  rewrite fmap_app, marked_app. intros [Hc|Hc]%IH; [|by right; right].
  unfold add_fragment, coalesce_markers in Hc. pose proof (coalesce_marked f.*2 (tr_rollups t) ∅ c) as Hf.
  destruct (foldl coalesce_marker (tr_rollups t, ∅) f.*2) as [rollups forget]. cbn in Hc, Hf.
  rewrite remove_all_lookup in Hc. destruct (bool_decide _); [by destruct Hc|]. destruct (Hf Hc); tauto.
Qed.

Lemma finish_rollup_marked fragments c :
  is_Some (finish_rollup (add_fragments fragments RollupTransientState_default) !! c) -> marked c (markers_of fragments).
Proof.
  unfold finish_rollup. rewrite remove_all_lookup. destruct (bool_decide _); [by intros []|].
  intros [Hc|Hc]%add_fragments_marked; [|done]. cbn in Hc. rewrite lookup_empty in Hc. by destruct Hc.
Qed.

(** ** The fields are 64-bit integers *)

Definition marker_u64 (m : DirtyMarker) : Prop :=
  match m with
  | DirtyMark _ p n r e => is_u64 p /\ is_u64 n /\ is_u64 r /\ is_u64 e
  | _ => True
  end.

Record rollup_u64 (r : RollupPerCollection) : Prop := {
  start_u64 : is_u64 (offset (start_log_position r));
  limit_u64 : is_u64 (offset (limit_log_position r));
  count_u64 : is_u64 (reinsert_count r);
  epoch_u64 : is_u64 (initial_insertion_epoch_us r);
  start_limit : offset (start_log_position r) <= offset (limit_log_position r);
}.

Lemma join_u64 a b : rollup_u64 a -> rollup_u64 b -> rollup_u64 (join a b).
Proof. unfold join. intros [] []. unfold is_u64 in *. constructor; cbn; unfold is_u64; lia. Qed.

Lemma summary_u64 c ms r : Forall marker_u64 ms -> summary c ms = Some r -> rollup_u64 r.
Proof.
  intros Hms. revert r. induction Hms as [|m ms Hm _ IH]; intros r; unfold summary; cbn; [done|]. fold (summary c ms).
  destruct (mark_of c m) as [a|] eqn:Ha; [|by apply IH].
  assert (rollup_u64 a) as Hu.
  { destruct m as [c' p n k e|c'|]; cbn in Ha; try done. case_bool_decide; [|done]. injection Ha as <-.
    destruct Hm as (Hp & Hn & Hk & He). constructor; cbn; [done|by apply saturating_add_range| |done|]; unfold is_u64, saturating_add in *; lia. }
  destruct (summary c ms) as [b|]; cbn; intros [= <-]; [|done]. by apply join_u64; [|apply IH].
Qed.

Lemma dirty_marker_u64 c r : rollup_u64 r -> marker_u64 (RollupPerCollection.dirty_marker c r).
Proof.
  intros [Hs Hl Hc He _]. cbn. unfold RollupPerCollection.uncompacted, saturating_add, saturating_sub, is_u64, u64_max in *.
  lia.
Qed.

Lemma witness_cursor_u64 x r :
  is_u64 (offset (cursor_position (Cursors.witness_cursor x))) -> rollup_u64 r ->
  rollup_u64 (RollupPerCollection.witness_cursor (Some x) r).
Proof.
  intros Hx []. unfold is_u64 in *.
  constructor; cbn; rewrite ?max_position_offset; unfold is_u64; lia.
Qed.

Lemma markers_counts_ok ms : Forall marker_u64 ms -> counts_ok ms.
Proof.
  intros Hms c p n r e Hin. rewrite Forall_forall in Hms. destruct (Hms _ Hin) as (_ & _ & [? _] & _). done.
Qed.
