(* ===== verification/TableFacts.v ===== *)
(** * The state hash table: handles share states

    The invariant of the table under any interleaving of threads, and what
    becomes of a state when its handles are dropped. *)

From S2P Require Import Prelude StateTable.

Section Facts.
Context {K : Type} `{Countable K}.

Lemma filter_size_one {I A} `{Countable I} (P : I * A -> Prop) `{!forall x, Decision (P x)} (m : gmap I A) i x :
  m !! i = Some x -> P (i, x) -> (1 <= size (filter P m))%nat.
Proof.
  intros Hi HP. assert (filter P m !! i = Some x) as Hf by (by apply map_lookup_filter_Some).
  destruct (size (filter P m)) eqn:Hs; [|lia]. apply map_size_empty_iff in Hs. by rewrite Hs in Hf.
Qed.

Lemma filter_size_two {I A} `{Countable I} (P : I * A -> Prop) `{!forall x, Decision (P x)} (m : gmap I A) i j x y :
  i <> j -> m !! i = Some x -> P (i, x) -> m !! j = Some y -> P (j, y) -> (2 <= size (filter P m))%nat.
Proof.
  intros Hne Hi HPi Hj HPj. assert (filter P m !! i = Some x) as Hf by (by apply map_lookup_filter_Some).
  assert (delete i (filter P m) !! j = Some y) as Hd.
  { rewrite lookup_delete_ne by done. by apply map_lookup_filter_Some. }
  pose proof (map_size_delete_Some i (filter P m) (mk_is_Some _ _ Hf)) as Hs.
  destruct (size (delete i (filter P m))) eqn:Hz; [|lia]. apply map_size_empty_iff in Hz. by rewrite Hz in Hd.
Qed.

(** The references to a value. *)
Lemma count_zero v (t : StateHashTable K) :
  strong_count v t = 0%nat ->
  (forall k, entries t !! k <> Some v) /\ (forall h x, handles t !! h = Some x -> h_value x <> v).
Proof.
  unfold strong_count. intros Hc. split.
  - intros k Hk. pose proof (filter_size_one (fun x : K * nat => x.2 = v) _ k v Hk eq_refl). lia.
  - intros h x Hh Hv. pose proof (filter_size_one (fun x : nat * Handle K => h_value x.2 = v) _ h x Hh Hv). lia.
Qed.

Lemma count_three k v h h' x x' (t : StateHashTable K) :
  entries t !! k = Some v -> h <> h' -> handles t !! h = Some x -> h_value x = v ->
  handles t !! h' = Some x' -> h_value x' = v -> (3 <= strong_count v t)%nat.
Proof.
  intros Hk Hne Hh Hv Hh' Hv'. unfold strong_count.
  pose proof (filter_size_one (fun x : K * nat => x.2 = v) _ k v Hk eq_refl).
  pose proof (filter_size_two (fun x : nat * Handle K => h_value x.2 = v) _ h h' x x' Hne Hh Hv Hh' Hv'). lia.
Qed.

(** ** The invariant *)

Record table_ok (t : StateHashTable K) : Prop := {
  ok_live : forall h x, live t h x -> entries t !! h_key x = Some (h_value x);
  ok_inj : forall k k' v, entries t !! k = Some v -> entries t !! k' = Some v -> k = k';
  ok_key : forall h x k, handles t !! h = Some x -> entries t !! k = Some (h_value x) -> k = h_key x;
  ok_entry : forall k v, entries t !! k = Some v -> (v < next_value t)%nat;
  ok_value : forall h x, handles t !! h = Some x -> (h_value x < next_value t)%nat;
  ok_handle : forall h x, handles t !! h = Some x -> (h < next_handle t)%nat;
}.

Lemma ok_new : table_ok StateHashTable_new.
Proof. by constructor; intros *; unfold live; cbn; rewrite ?lookup_empty; try (intros [? _]); intros. Qed.

Lemma ok_new_value t : table_ok t -> table_ok (new_value t).2.
Proof.
  intros []. constructor; cbn; eauto.
  - intros k v Hk. apply ok_entry0 in Hk. lia.
  - intros h x Hh. apply ok_value0 in Hh. lia.
Qed.

(** A new handle to the state of a key. *)
Lemma ok_new_handle k v t : table_ok t -> entries t !! k = Some v -> table_ok (Handle_new k v t).2.
Proof.
  intros [] Hk. constructor; cbn [Handle_new snd entries handles next_value next_handle]; try done.
  - intros h x [Hh Hd]. cbn in Hh. apply lookup_insert_Some in Hh as [[_ <-]|[_ Hh]]; [done|by eapply ok_live0].
  - intros h x k' [[_ <-]|[_ Hh]]%lookup_insert_Some; [by intros; eapply ok_inj0|by eapply ok_key0].
  - intros h x [[_ <-]|[_ Hh]]%lookup_insert_Some; [by eapply ok_entry0|by eapply ok_value0].
  - intros h x [[<- _]|[_ Hh]]%lookup_insert_Some; [lia|]. apply ok_handle0 in Hh. lia.
Qed.

(** A value that nobody has becomes the state of a key that has none. *)
Lemma ok_set_entry k v t :
  table_ok t -> entries t !! k = None -> (v < next_value t)%nat ->
  (forall k, entries t !! k <> Some v) -> (forall h x, handles t !! h = Some x -> h_value x <> v) ->
  table_ok (set_entry k v t).
Proof.
  intros [] Hk Hv He Hh. constructor; cbn [set_entry entries handles next_value next_handle]; try done.
  - intros h x [Hl Hd]. cbn in Hl. rewrite lookup_insert_ne; [by eapply ok_live0|].
    intros ->. assert (entries t !! h_key x = Some (h_value x)) by (by eapply ok_live0). congruence.
  - intros k1 k2 w [[<- <-]|[_ H1]]%lookup_insert_Some [[<- H2]|[_ H2]]%lookup_insert_Some; subst; try done.
    + by apply He in H2.
    + by apply He in H1.
    + by eapply ok_inj0.
  - intros h x k' Hl [[<- Hx]|[_ Hk']]%lookup_insert_Some; [by destruct (Hh h x Hl)|by eapply ok_key0].
  - intros k' v' [[_ <-]|[_ Hk']]%lookup_insert_Some; [done|by eapply ok_entry0].
Qed.

Lemma ok_round k v t :
  table_ok t -> (forall w, v = Some w -> (w < next_value t)%nat /\ strong_count w t = 0%nat) ->
  table_ok (get_or_create_round k v t).2.
Proof.
  intros Hok Hv. unfold get_or_create_round. destruct (entries t !! k) as [w|] eqn:Hk.
  - by apply (ok_new_handle k w).
  - destruct v as [w|]; [|done]. destruct (Hv w eq_refl) as [Hlt [He Hh]%count_zero].
    apply (ok_new_handle k w (set_entry k w t)); [by apply ok_set_entry|by apply lookup_insert_eq].
Qed.

Lemma ok_drop finished h x t : table_ok t -> live t h x -> table_ok (drop_body finished h t).
Proof.
  intros [] [Hh Hd]. unfold drop_body. rewrite Hh. cbv zeta.
  set (es := if bool_decide _ && _ then _ else _).
  assert (forall k v, es !! k = Some v -> entries t !! k = Some v) as Hsub.
  { intros k v. subst es. destruct (_ && _); [|done]. by intros [_ ?]%lookup_delete_Some. }
  constructor; cbn [entries handles next_value next_handle]; eauto.
  - intros h' y [Hy Hyd]. cbn in Hy. apply lookup_insert_Some in Hy as [[_ <-]|[Hne Hy]]; [done|].
    assert (entries t !! h_key y = Some (h_value y)) as He by (by apply (ok_live0 h'); split).
    subst es. destruct (_ && _) eqn:Hc; [|done]. apply andb_prop in Hc as [Hc _]. apply bool_decide_eq_true in Hc.
    rewrite lookup_delete_ne; [done|]. intros Hkey.
    assert (entries t !! h_key x = Some (h_value x)) as Hex by (by apply (ok_live0 h); split).
    assert (h_value y = h_value x) as Hval by congruence.
    pose proof (count_three (h_key x) (h_value x) h h' x y t Hex Hne Hh eq_refl Hy Hval). lia.
  - intros h' y k [[_ <-]|[_ Hy]]%lookup_insert_Some Hk; cbn in *; eapply ok_key0; eauto.
  - intros h' y [[_ <-]|[_ Hy]]%lookup_insert_Some; cbn; eauto.
  - intros h' y [[<- _]|[_ Hy]]%lookup_insert_Some; eauto.
Qed.

Lemma ok_release h x t : table_ok t -> handles t !! h = Some x -> h_dropping x = true -> table_ok (drop_fields h t).
Proof.
  intros [] Hh Hd. constructor; cbn [drop_fields entries handles next_value next_handle]; eauto.
  - intros h' y [Hy Hyd]. cbn in Hy. apply lookup_delete_Some in Hy as [_ Hy]. by apply (ok_live0 h').
  - intros h' y k [_ Hy]%lookup_delete_Some. by eapply ok_key0.
  - intros h' y [_ Hy]%lookup_delete_Some. by eapply ok_value0.
  - intros h' y [_ Hy]%lookup_delete_Some. by eapply ok_handle0.
Qed.

Lemma tstep_ok finished t t' : tstep finished t t' -> table_ok t -> table_ok t'.
Proof.
  intros Hs Hok. destruct Hs as [t|key t|key t|key t|key v t Hv Hc|h x t [Hh Hd]|h x t Hl|h x t Hh Hd].
  - by apply ok_new_value.
  - unfold create_state. pose proof (ok_new_value t Hok) as Hok'. destruct Hok.
    cbn [new_value]. destruct (entries _ !! key) as [w|] eqn:Hk; [done|].
    apply (ok_new_handle key (next_value t) (set_entry key (next_value t) (new_value t).2)); [|by apply lookup_insert_eq].
    apply ok_set_entry; cbn; [done|done|lia| |].
    + intros k Hk'. apply ok_entry0 in Hk'. lia.
    + intros h x Hx. apply ok_value0 in Hx. lia.
  - unfold get_state. destruct (entries t !! key) as [w|] eqn:Hk; [|done]. by apply (ok_new_handle key w).
  - by apply ok_round.
  - apply ok_round; [done|]. by intros w [= <-].
  - unfold clone_handle. rewrite Hh. apply (ok_new_handle (h_key x) (h_value x)); [done|]. by apply (ok_live t Hok h).
  - by eapply ok_drop.
  - by eapply ok_release.
Qed.

Lemma treachable_ok finished t : rtc (tstep finished) StateHashTable_new t -> table_ok t.
Proof.
  intros Hr. pose proof ok_new as Hok. revert Hr Hok. generalize (StateHashTable_new (K := K)).
  induction 1; eauto using tstep_ok.
Qed.

(** ** One drop at a time *)

(** The whole of a drop, with no other thread in between. *)
Definition drop_now (finished : nat -> bool) (h : nat) (t : StateHashTable K) : StateHashTable K :=
  drop_fields h (drop_body finished h t).

(** A state that is in the table has a live handle, when every state is finished. *)
Definition no_idle (t : StateHashTable K) : Prop :=
  forall k v, entries t !! k = Some v -> exists h x, live t h x /\ h_value x = v.

Definition none_dropping (t : StateHashTable K) : Prop :=
  forall h x, handles t !! h = Some x -> h_dropping x = false.

Lemma count_two k v h x (t : StateHashTable K) :
  table_ok t -> entries t !! k = Some v -> handles t !! h = Some x -> h_value x = v ->
  (forall h' x', handles t !! h' = Some x' -> h_value x' = v -> h' = h) -> strong_count v t = 2%nat.
Proof.
  intros Hok Hk Hh Hv Hall. unfold strong_count.
  replace (filter (fun y : K * nat => y.2 = v) (entries t)) with ({[ k := v ]} : gmap K nat).
  - replace (filter (fun y : nat * Handle K => h_value y.2 = v) (handles t)) with ({[ h := x ]} : gmap nat (Handle K)).
    + by rewrite !map_size_singleton.
    + apply map_eq. intros j. apply option_eq. intros y. rewrite lookup_singleton_Some, map_lookup_filter_Some. cbn.
      split; [by intros [<- <-]|]. intros [Hj Hy]. pose proof (Hall j y Hj Hy). subst j. split; [done|congruence].
  - apply map_eq. intros j. apply option_eq. intros y. rewrite lookup_singleton_Some, map_lookup_filter_Some. cbn.
    split; [by intros [<- <-]|]. intros [Hj ->]. split; [by eapply (ok_inj t Hok)|done].
Qed.

Lemma drop_now_handles finished h x t :
  handles t !! h = Some x -> handles (drop_now finished h t) = delete h (handles t).
Proof. intros Hh. unfold drop_now, drop_body. rewrite Hh. cbn. apply delete_insert_eq. Qed.

Lemma drop_now_entries h x t :
  handles t !! h = Some x ->
  entries (drop_now (fun _ => true) h t) =
  if bool_decide (strong_count (h_value x) t = 2%nat) then delete (h_key x) (entries t) else entries t.
Proof. intros Hh. unfold drop_now, drop_body. rewrite Hh. cbn. by rewrite andb_true_r. Qed.

(** The other handles of a value. *)
Lemma other_handle v h (t : StateHashTable K) :
  (exists h' x', h' <> h /\ handles t !! h' = Some x' /\ h_value x' = v) \/
  (forall h' x', handles t !! h' = Some x' -> h_value x' = v -> h' = h).
Proof.
  destruct (map_choose_or_empty (filter (fun y : nat * Handle K => y.1 <> h /\ h_value y.2 = v) (handles t)))
    as [(h' & x' & Hx)|Hno].
  - left. exists h', x'. apply map_lookup_filter_Some in Hx as [? [? ?]]. done.
  - right. intros h' x' Hh' Hv. destruct (decide (h' = h)) as [|Hne]; [done|].
    assert (filter (fun y : nat * Handle K => y.1 <> h /\ h_value y.2 = v) (handles t) !! h' = Some x') as Hf
      by (by apply map_lookup_filter_Some). by rewrite Hno in Hf.
Qed.

Lemma drop_now_no_idle h x t :
  table_ok t -> none_dropping t -> no_idle t -> live t h x ->
  no_idle (drop_now (fun _ => true) h t) /\ none_dropping (drop_now (fun _ => true) h t).
Proof.
  intros Hok Hnd Hni [Hh Hd]. unfold no_idle, none_dropping, live.
  rewrite (drop_now_handles _ h x t Hh), (drop_now_entries h x t Hh). split; cycle 1.
  { intros h' y [_ Hy]%lookup_delete_Some. by eapply Hnd. }
  assert (entries t !! h_key x = Some (h_value x)) as He by (by apply (ok_live t Hok h)).
  intros k v Hk. assert (entries t !! k = Some v) as Hk0.
  { revert Hk. case_bool_decide; [|done]. by intros [_ ?]%lookup_delete_Some. }
  destruct (other_handle v h t) as [(h' & x' & Hne & Hx' & Hv)|Hall].
  - exists h', x'. rewrite lookup_delete_ne by done. split; [split; [done|by eapply Hnd]|done].
  - exfalso. destruct (Hni k v Hk0) as (h' & y & [Hy _] & Hyv). pose proof (Hall h' y Hy Hyv). subst h'.
    assert (y = x) as -> by congruence. subst v.
    rewrite bool_decide_eq_true_2 in Hk by (by apply (count_two k (h_value x) h x t)).
    apply lookup_delete_Some in Hk as [Hkne _]. by destruct Hkne; eapply (ok_inj t Hok).
Qed.
End Facts.
