(* ===== verification/ServiceFacts.v ===== *)
(** * Facts about the log service

    The handlers' monad, the rollup of the dirty log, the selection of the
    records of a response and the position up to which a log is compacted, and where the cursor of the dirty
    log is left. *)

From S2P Require Import Prelude Setsum Storage Types Paths Effects Manifest Persist Gc Reader ManifestManager.
From S2P Require Import BatchManager Cursors CopyDestroy Writer LogWriter Dirty LogService DirtyFacts.

#[local] Open Scope Z_scope.
#[local] Open Scope wal_scope.

(** The server is a part of the world apart from the objects, and requests to
    the object store leave it alone. *)
Class HasServerLaws {SS : SetsumSig} {SC : ServiceCache} {OS : ObjectStore} (HS : HasServer) : Prop := {
  server_set : forall s w, server (set_server s w) = s;
  objects_set : forall s w, objects (set_server s w) = objects w;
}.

(** ** Handlers *)

Section Handlers.
Context {SS : SetsumSig} {OS : ObjectStore}.

Lemma hbind_Ok {E A B} (c : HM E A) (k : A -> HM E B) w b w' :
  hbind c k w = (Ret (Ok b), w') <-> exists a w1, c w = (Ret (Ok a), w1) /\ k a w1 = (Ret (Ok b), w').
Proof.
  unfold hbind. rewrite bind_Ret. split.
  - intros ([a|e] & w1 & Hc & Hk); [eauto|done].
  - intros (a & w1 & Hc & Hk). by exists (Ok a), w1.
Qed.

Lemma call_Ok {E A} (f : Error -> E) (c : M A) w a w' : call f c w = (Ret (Ok a), w') -> c w = (Ret a, w').
Proof. unfold call, attempt, ret. destruct (c w) as [[x|e|] w1]; congruence. Qed.

Lemma run_Ok {E A} (c : M A) w a w' : run (E := E) c w = (Ret (Ok a), w') -> c w = (Ret a, w').
Proof. unfold run, bind, ret. destruct (c w) as [[x|e|] w1]; congruence. Qed.

Lemma hbind_step {E A B} (c : HM E A) (k : A -> HM E B) w a w1 :
  c w = (Ret (Ok a), w1) -> hbind c k w = k a w1.
Proof. intros Hc. unfold hbind, bind. by rewrite Hc. Qed.

Lemma hbind_stop {E A B} (c : HM E A) (k : A -> HM E B) w e w1 :
  c w = (Ret (Err e), w1) -> hbind c k w = (Ret (Err e), w1).
Proof. intros Hc. unfold hbind, bind. by rewrite Hc. Qed.

Lemma call_step {E A} (f : Error -> E) (c : M A) w a w1 : c w = (Ret a, w1) -> call f c w = (Ret (Ok a), w1).
Proof. intros Hc. unfold call, attempt. by rewrite Hc. Qed.

Lemma attempt_Ret {A B} (c : M A) (k : result A Error -> M B) w b w' :
  attempt c k w = (Ret b, w') ->
  (exists a w1, c w = (Ret a, w1) /\ k (Ok a) w1 = (Ret b, w')) \/
  (exists e w1, c w = (Fail e, w1) /\ k (Err e) w1 = (Ret b, w')).
Proof. unfold attempt. destruct (c w) as [[x|e|] w1]; [left|right|]; eauto; done. Qed.

(** The results of a list of computations, one each. *)
Lemma mapM_Ret {A B} (f : A -> M B) l w bs w' :
  mapM f l w = (Ret bs, w') -> Forall2 (fun a b => exists w1 w2, f a w1 = (Ret b, w2)) l bs.
Proof.
  revert w bs. induction l as [|a l IH]; intros w bs; cbn [mapM].
  - intros [= <- <-]. constructor.
  - intros (b & w1 & Hf & (bs' & w2 & Hm & [= <- <-])%bind_Ret)%bind_Ret. constructor; eauto.
Qed.
End Handlers.

(** Takes a handler that succeeded apart. *)
Ltac handled :=
  repeat match goal with
  | H : hbind _ _ _ = (Ret (Ok _), _) |- _ =>
      let a := fresh "a" in let v := fresh "v" in let Hc := fresh "Hc" in
      apply hbind_Ok in H as (a & v & Hc & H)
  | H : run _ _ = (Ret (Ok _), _) |- _ => apply run_Ok in H
  | H : call _ _ _ = (Ret (Ok _), _) |- _ => apply call_Ok in H
  | H : hret _ _ = (Ret (Ok _), _) |- _ => unfold hret, ret in H
  | H : (Ret (Ok _), _) = (Ret (Ok _), _) |- _ => injection H as H; subst
  end.

(** ** The rollup of the dirty log *)

Section Rollup.
Context {SS : SetsumSig} {OS : ObjectStore} {parquet : Parquet}.
Context {serde_marker : Serde DirtyMarker}.

(** The markers that a read of a fragment of the dirty log gives: none when it
    fails. *)
Definition markers_read (prefix : string) (f : Fragment) (part : list (LogPosition * DirtyMarker)) : Prop :=
  exists w w', match read_parquet prefix (frag_path f) w with
               | (Ret (_, records, _), w1) => w1 = w' /\ part = decode_markers records
               | (Fail _, w1) => w1 = w' /\ part = []
               | (NoFuel, _) => False
               end.

Lemma add_fragment_nil t : add_fragment [] t = t.
Proof.
  destruct t as [rollups forget largest]. unfold add_fragment, coalesce_markers. cbn. f_equal; [|set_solver].
  apply map_eq. intros c. rewrite remove_all_lookup. by rewrite bool_decide_eq_false_2 by set_solver.
Qed.

Lemma read_dirty_fragments prefix frags t w t' w' :
  foldM (read_dirty_fragment prefix) t frags w = (Ret t', w') ->
  exists parts, Forall2 (markers_read prefix) frags parts /\ t' = add_fragments parts t.
Proof.
  revert t w. induction frags as [|f frags IH]; intros t w; cbn [foldM].
  - intros [= <- <-]. by exists [].
  - intros (t1 & w1 & Hf & (parts & Hp & ->)%IH)%bind_Ret. unfold read_dirty_fragment, attempt in Hf.
    destruct (read_parquet prefix (frag_path f) w) as [[[[s records] n]|e|] w2] eqn:Hr; [| |done].
    + injection Hf as <- <-. exists (decode_markers records :: parts). split; [|done].
      constructor; [|done]. exists w, w2. by rewrite Hr.
    + injection Hf as <- <-. exists ([] :: parts). split.
      * constructor; [|done]. exists w, w2. by rewrite Hr.
      * unfold add_fragments. cbn [foldl]. by rewrite add_fragment_nil.
Qed.
End Rollup.

Section Dirty.
Context {SS : SetsumSig} {OS : ObjectStore} {parquet : Parquet}.
Context {serde_manifest : Serde Manifest} {serde_snapshot : Serde Snapshot} {serde_garbage : Serde Garbage}
        {serde_cursor : Serde Cursor}.
Context {serde_marker : Serde DirtyMarker} {serde_witness : Serde Witness} {serde_met : Serde ManifestAndETag}.
Context {UU : Uuids} {SC : ServiceCache} {HS : HasServer} {HSL : HasServerLaws HS}.
Variable fuel : nat.

Lemma ensure_write_mode_keeps w :
  ensure_write_mode w = (Ret (Ok tt), w) \/ ensure_write_mode w = (Ret (Err Code_PermissionDenied), w).
Proof.
  unfold ensure_write_mode, get_server, bind. destruct (negb _); [by right|]. destruct (read_only _); [by right|by left].
Qed.

(** What a rollup sums up: the fragments that the scan gave. *)
Lemma read_and_coalesce_Ok lw w rollup w' :
  read_and_coalesce_dirty_log fuel lw w = (Ret (Ok rollup), w') ->
  (ru_rollups rollup = ∅ /\ last_record_witnessed rollup = cursor_position (ru_cursor rollup)) \/
  exists frags parts w1 w2, scan (lw_prefix lw) None fuel (cursor_position (ru_cursor rollup)) UNLIMITED w1 = (Ret frags, w2) /\
    Forall2 (markers_read (lw_prefix lw)) frags parts /\
    ru_rollups rollup = finish_rollup (add_fragments parts RollupTransientState_default) /\
    last_record_witnessed rollup = largest_log_position_read (add_fragments parts RollupTransientState_default).
Proof.
  unfold read_and_coalesce_dirty_log. intros (witness & w1 & Hw & H)%hbind_Ok. apply attempt_Ret in H as [H|H].
  - destruct H as (frags & w2 & Hs & H). destruct frags as [|f frags].
    + injection H as <- <-. by left.
    + right. apply hbind_Ok in H as (t & w3 & Ht & [= <- <-]). apply run_Ok in Ht.
      apply read_dirty_fragments in Ht as (parts & Hp & ->). exists (f :: frags), parts, w1, w2. done.
  - destruct H as (e & w2 & Hs & H). destruct e; try done. injection H as <- <-. by left.
Qed.

(** Why a collection that was marked needs no compaction: its cursor is at or
    past the end of what was marked, or its log is empty. *)
Definition compacted (c : CollectionUuid) (r : RollupPerCollection) : Prop :=
  exists w w' witness manifest, load_witness c w = (Ret (witness, manifest), w') /\
    match witness, manifest with
    | Some x, _ => offset (limit_log_position r) <= offset (cursor_position (Cursors.witness_cursor x))
    | None, Some m => offset (next_write_timestamp m) <= offset (oldest_timestamp m)
    | None, None => offset (limit_log_position r) <= offset (start_log_position r)
    end.

(** The rollup of a collection after it was enriched. *)
Definition enriched (r r' : RollupPerCollection) : Prop :=
  reinsert_count r' = reinsert_count r /\ initial_insertion_epoch_us r' = initial_insertion_epoch_us r /\
  (r' = r \/ RollupPerCollection.is_empty r' = false).

Lemma enrich_one_Ret c r w x w' :
  enrich_one c r w = (Ret x, w') ->
  match x with
  | Some (c', r') => c' = c /\ enriched r r'
  | None => compacted c r
  end.
Proof.
  unfold enrich_one. intros [H|H]%attempt_Ret.
  2: { destruct H as (e & w1 & _ & [= <- <-]). split; [done|]. split_and!; [done..|by left]. }
  destruct H as ([witness manifest] & w1 & Hl & [= <- <-]).
  set (r' := match witness with Some _ => _ | None => _ end).
  assert (reinsert_count r' = reinsert_count r /\ initial_insertion_epoch_us r' = initial_insertion_epoch_us r) as [Hr He].
  { subst r'. by destruct witness, manifest. }
  destruct (RollupPerCollection.is_empty r') eqn:Hempty.
  - exists w, w1, witness, manifest. split; [done|]. unfold RollupPerCollection.is_empty, LogPosition.leb in Hempty.
    apply Z.leb_le in Hempty. subst r'. destruct witness as [x|], manifest as [m|]; cbn in Hempty; try done.
    all: rewrite max_position_offset in Hempty; lia.
  - split; [done|]. split_and!; [done..|by right].
Qed.

Lemma enrich_dirty_log_Ret rollups w need w' :
  enrich_dirty_log rollups w = (Ret need, w') ->
  (forall c r, rollups !! c = Some r -> match need !! c with Some r' => enriched r r' | None => compacted c r end) /\
  (forall c, is_Some (need !! c) -> is_Some (rollups !! c)).
Proof.
  unfold enrich_dirty_log. intros (l & w1 & Hm & [= <- <-])%bind_Ret. apply mapM_Ret in Hm.
  assert (Forall2 (fun a b => match b with Some (c', r') => c' = a.1 /\ enriched a.2 r' | None => compacted a.1 a.2 end)
            (map_to_list rollups) l) as Hall.
  { eapply Forall2_impl; [exact Hm|]. intros a b (v1 & v2 & Hv). by apply enrich_one_Ret in Hv. }
  assert (forall c r', (c, r') ∈ omap id l -> exists r, rollups !! c = Some r /\ enriched r r') as Hin.
  { intros c r' (x & Hx & Hid)%list_elem_of_omap. cbn in Hid. subst x. apply list_elem_of_lookup in Hx as [i Hi].
    destruct (Forall2_lookup_r _ _ _ _ _ Hall Hi) as ([c0 r] & Hc & -> & He).
    exists r. split; [|done]. apply elem_of_map_to_list. by eapply list_elem_of_lookup_2. }
  split.
  - intros c r Hc. destruct (list_to_map (omap id l) !! c) as [r'|] eqn:Hneed.
    + apply elem_of_list_to_map_2, Hin in Hneed as (r0 & Hc0 & He). by simplify_eq.
    + apply not_elem_of_list_to_map_2 in Hneed. apply elem_of_map_to_list, list_elem_of_lookup in Hc as [i Hi].
      destruct (Forall2_lookup_l _ _ _ _ _ Hall Hi) as (x & Hx & Hy). destruct x as [[c' r']|]; [|done].
      destruct Hy as [Hc He]. cbn in Hc. subst c'. destruct Hneed. apply list_elem_of_fmap. exists (c, r'). split; [done|].
      apply list_elem_of_omap. exists (Some (c, r')). split; [by eapply list_elem_of_lookup_2|done].
  - intros c [r' Hr']. apply elem_of_list_to_map_2, Hin in Hr' as (r & Hr & _). by eexists.
Qed.

(** The markers of a rollup were appended to the dirty log. *)
Definition appended (need : Rollups) (lw : LogWriter) : Prop :=
  exists data w w' r lw', encode_all (rollup_markers need) = Some data /\
    append_many (dirty := unit_mark_dirty) fuel data lw w = (Ret (r, lw'), w') /\
    (r = Err LogContentionDurable \/ exists p, r = Ok p).

(** Collections that must not be written. *)
Definition pressed (need : Rollups) (cfg : LogServerConfig) (c : CollectionUuid) : Prop :=
  exists r, need !! c = Some r /\ RollupPerCollection.is_empty r = false /\
            RollupPerCollection.requires_backpressure (num_records_before_backpressure cfg) r = true.

Lemma save_dirty_log_Ok rollup lw w w' :
  save_dirty_log fuel rollup lw w = (Ret (Ok tt), w') ->
  need_to_compact (server w') = ru_rollups rollup /\ appended (ru_rollups rollup) lw /\
  forall c, c ∈ backpressure (server w') <-> pressed (ru_rollups rollup) (config (server w)) c.
Proof.
  unfold save_dirty_log. intros (s & w1 & Hs & H)%hbind_Ok. apply run_Ok in Hs. injection Hs as <- <-.
  destruct (encode_all _) as [data|] eqn:He; [|done]. apply hbind_Ok in H as ([r lw'] & w2 & Ha & H).
  apply run_Ok in Ha. handled. injection H as H. subst w'. rewrite server_set. cbn [need_to_compact set_need_to_compact].
  split_and!; [done| |].
  - exists data, w, w2, r, lw'. split_and!; [done..|]. destruct r as [p|e]; [by right; exists p|]. destruct e; try done. by left.
  - intros c. cbn. rewrite elem_of_list_to_set, list_elem_of_fmap. unfold pressed. split.
    + intros ([c' r'] & -> & Hx). apply list_elem_of_In, filter_In in Hx as [Hx Hb].
      apply list_elem_of_In, elem_of_map_to_list in Hx. apply andb_prop in Hb as [Hb1%negb_true_iff Hb2]. by exists r'.
    + intros (r' & Hr & Hb1 & Hb2). exists (c, r'). split; [done|]. apply list_elem_of_In, filter_In.
      split; [by apply list_elem_of_In, elem_of_map_to_list|]. cbn. by rewrite Hb1, Hb2.
Qed.
End Dirty.

(** ** Where the cursor of the dirty log is *)

Section DirtyCursor.
Context {SS : SetsumSig} {OS : ObjectStore} {rely : relation Objects} {OL : ObjectStoreLaws OS rely} {parquet : Parquet}.
Context {serde_manifest : Serde Manifest} {serde_snapshot : Serde Snapshot} {serde_garbage : Serde Garbage}
        {serde_cursor : Serde Cursor} {SDL : SerdeLaws Cursor}.
Context {serde_marker : Serde DirtyMarker} {serde_witness : Serde Witness} {serde_met : Serde ManifestAndETag}.
Context {UU : Uuids} {SC : ServiceCache} {HS : HasServer} {HSL : HasServerLaws HS}.
Variable fuel : nat.

(** A writer that was opened or appended to has the prefix it had. *)
Lemma ensure_open_prefix {dirty : MarkDirty} lw w r lw' w' :
  ensure_open fuel lw w = (Ret (r, lw'), w') -> lw_prefix lw' = lw_prefix lw.
Proof.
  unfold ensure_open. generalize 3%nat as tries. intros tries. revert lw w.
  induction tries as [|n IH]; intros lw w; cbn [ensure_open_loop]; [by intros [= _ <- _]|].
  destruct (epoch_writer (lw_inner lw)) as [o|].
  - destruct (negb (once_done o)); [by intros [= _ <- _]|]. by intros H%IH.
  - intros [(o & w1 & _ & [= _ <- _])|(e & w1 & _ & H)]%attempt_Ret; [done|].
    destruct e; try (by injection H as _ <- _). by apply IH in H.
Qed.

Lemma append_many_prefix {dirty : MarkDirty} messages lw w r lw' w' :
  append_many fuel messages lw w = (Ret (r, lw'), w') -> lw_prefix lw' = lw_prefix lw.
Proof.
  unfold append_many, handle_errors_and_contention. generalize 3%nat as tries. intros tries. revert lw w.
  induction tries as [|n IH]; intros lw w; cbn [handle_loop]; [by intros [= _ <- _]|].
  intros ([r1 lw1] & w1 & Ho%ensure_open_prefix & H)%bind_Ret. destruct r1 as [[o e]|e]; [|by injection H as _ <- _].
  apply bind_Ret in H as ([r2 o2] & w2 & _ & H). destruct r2 as [p|err]; [injection H as _ <- _; exact Ho|].
  assert (forall lw, lw_prefix (retire e lw) = lw_prefix lw) as Hret by (intros lw0; unfold retire; by destruct (_ =? _)).
  destruct err; try (injection H as _ <- _; rewrite ?Hret; exact Ho).
  all: first
    [ apply IH in H; rewrite Hret in H; etrans; [exact H|exact Ho]
    | apply bind_Ret in H as ([r3 lw3] & w3 & H3%ensure_open_prefix & [= _ <- _]); rewrite Hret in H3; etrans; [exact H3|exact Ho] ].
Qed.

(** The stored cursor of the dirty log is at [p]. *)
Definition cursor_at (lw : LogWriter) (p : LogPosition) (m : Objects) : Prop :=
  exists b t cursor, m !! cursor_path (mkCursorStore (lw_prefix lw) (lw_writer lw)) STABLE_PREFIX = Some (b, t) /\
    from_slice b = Some cursor /\ cursor_position cursor = p.

Lemma save_dirty_log_cursor rollup lw w w' :
  save_dirty_log fuel rollup lw w = (Ret (Ok tt), w') ->
  cursor_at lw (LogPosition.add (last_record_witnessed rollup) 1) (objects w').
Proof.
  unfold save_dirty_log. intros (s & w1 & Hs & H)%hbind_Ok. apply run_Ok in Hs. injection Hs as <- <-.
  destruct (encode_all _) as [data|] eqn:He; [|done]. apply hbind_Ok in H as ([r lw'] & w2 & Ha & H).
  apply run_Ok in Ha. apply append_many_prefix in Ha.
  apply hbind_Ok in H as (u1 & w3 & _ & H). apply hbind_Ok in H as (u2 & w4 & _ & H).
  apply hbind_Ok in H as (x & w5 & Hput & H). apply call_Ok in Hput. apply run_Ok in H. injection H as H. subst w'.
  rewrite objects_set. set (cursor := mkCursor _ _ _) in Hput.
  assert (exists o, cursor_put (mkCursorStore (lw_prefix lw') (lw_writer lw')) STABLE_PREFIX cursor o w4 = (Ret x, w5)) as [o Hp].
  { destruct (ru_witness rollup); eexists; exact Hput. }
  apply (cursor_put_Ret (rely := rely)) in Hp as (Hx & pre & b & _ & _ & Ho & Hb). exists b, (witness_e_tag x), (witness_cursor x).
  unfold cursor_path in *. cbn [cs_prefix] in *. rewrite Ho, Ha, lookup_insert_eq. split_and!; [done|exact Hb|by rewrite Hx].
Qed.
End DirtyCursor.

(** ** Integers in a range *)

Lemma sorted_count (l : list Z) a b :
  a <= b -> StronglySorted Z.lt l -> Forall (fun x => a <= x < b) l -> Z.of_nat (length l) <= b - a.
Proof.
  revert a. induction l as [|x l IH]; intros a Hab Hs Hr; cbn; [lia|].
  apply StronglySorted_cons in Hs as [Hx Hs]. apply Forall_cons in Hr as [Hr Hrs].
  assert (Z.of_nat (length l) <= b - (x + 1)); [|lia]. apply IH; [lia|done|].
  rewrite Forall_forall in *. intros y Hy. specialize (Hx y Hy). specialize (Hrs y Hy). lia.
Qed.

(** Strictly sorted integers from a range that has no more of them are the
    range. *)
Lemma sorted_range (l : list Z) a :
  StronglySorted Z.lt l -> Forall (fun x => a <= x < a + Z.of_nat (length l)) l -> l = seqZ a (Z.of_nat (length l)).
Proof.
  revert a. induction l as [|x l IH]; intros a Hs Hr; [done|].
  apply StronglySorted_cons in Hs as [Hx Hs]. apply Forall_cons in Hr as [Hr Hrs]. cbn [length] in *.
  assert (Forall (fun y => x + 1 <= y < a + Z.of_nat (S (length l))) l) as Hall.
  { rewrite Forall_forall in *. intros y Hy. specialize (Hx y Hy). specialize (Hrs y Hy). lia. }
  pose proof (sorted_count l (x + 1) (a + Z.of_nat (S (length l))) ltac:(lia) Hs Hall) as Hn. assert (x = a) as -> by lia.
  rewrite seqZ_cons by lia. f_equal. replace (Z.pred (Z.of_nat (S (length l)))) with (Z.of_nat (length l)) by lia.
  apply IH; [done|]. eapply Forall_impl; [exact Hall|]. cbn. intros. lia.
Qed.

Lemma sorted_sublist (l k : list Z) : l `sublist_of` k -> StronglySorted Z.lt k -> StronglySorted Z.lt l.
Proof.
  induction 1 as [|x l k Hsub IH|x l k Hsub IH]; rewrite ?StronglySorted_cons; [done| |by intros [_ ?]; auto].
  intros [Hx Hk]. split; [|by apply IH]. rewrite Forall_forall in *. intros y Hy. apply Hx.
  by eapply elem_of_submseteq, sublist_submseteq.
Qed.

Lemma i64_wrap_u64 z : - 2 ^ 63 <= z < 2 ^ 63 -> i64_wrap (u64_wrap z) = z.
Proof.
  intros Hz. unfold i64_wrap, u64_wrap. rewrite Zplus_mod_idemp_l, Z.mod_small; lia.
Qed.

(** ** The records of a response *)

Section Records.
Context {SS : SetsumSig} {OS : ObjectStore} {parquet : Parquet} {OR : OperationRecords}.
Variables start size : Z.

(** A row and the record made of it. *)
Definition answers (row : LogPosition * bytes) (x : LogRecord) : Prop :=
  start <= offset row.1 < wrapping_add start size /\
  log_offset x = i64_wrap (offset row.1) /\ decode_record row.2 = Some (log_record x).

(** Rows in their order and the records made of them. *)
Definition chosen (rows : list (LogPosition * bytes)) (l : list LogRecord) : Prop :=
  exists sel, sel `sublist_of` rows /\ Forall2 answers sel l.

Lemma chosen_nil rows : chosen rows [].
Proof. exists []. split; [apply sublist_nil_l|constructor]. Qed.

Lemma select_records_Ok rows acc l :
  select_records start size rows acc = Ok l -> exists new, l = acc ++ new /\ chosen rows new.
Proof.
  revert acc. induction rows as [|[p body] rows IH]; intros acc; cbn [select_records].
  { intros [= <-]. exists []. rewrite app_nil_r. split; [done|apply chosen_nil]. }
  destruct (_ || _) eqn:Hrange.
  - intros (new & -> & sel & Hsub & Hsel)%IH. exists new. split; [done|]. exists sel. split; [by constructor|done].
  - apply orb_false_iff in Hrange as [H1%Z.ltb_ge H2%Z.leb_gt]. destruct (_ <=? _).
    + intros [= <-]. exists []. rewrite app_nil_r. split; [done|apply chosen_nil].
    + destruct (decode_record body) as [r|] eqn:Hd; [|done]. intros (new & -> & sel & Hsub & Hsel)%IH.
      eexists (_ :: new). rewrite <- app_assoc. split; [done|]. exists ((p, body) :: sel).
      split; [by constructor|]. constructor; [|done]. split_and!; cbn; [lia..|done|done].
Qed.

(** The rows of a file. *)
Definition file_rows (b : bytes) (rows : list (LogPosition * bytes)) : Prop :=
  exists batches, parquet_read b = Some batches /\ batches_records batches = Some rows.

Lemma collect_records_Ok parquets acc l w w' :
  collect_records start size parquets acc w = (Ret (Ok l), w') ->
  w' = w /\ exists files new, Forall2 file_rows parquets files /\ l = acc ++ new /\ chosen (concat files) new.
Proof.
  revert acc. induction parquets as [|b parquets IH]; intros acc; cbn [collect_records].
  { intros [= <- <-]. split; [done|]. exists [], []. rewrite app_nil_r. split_and!; [constructor|done|apply chosen_nil]. }
  intros (rows & w1 & Hrows & H)%hbind_Ok. unfold parquet_to_records in Hrows.
  destruct (parquet_read b) as [batches|] eqn:Hb; [|done]. destruct (batches_records batches) as [rows'|] eqn:Hr; [|done].
  injection Hrows as -> <-. destruct (select_records start size rows acc) as [acc'|e] eqn:Hs; [|done].
  apply select_records_Ok in Hs as (new & -> & sel & Hsub & Hsel).
  apply IH in H as (-> & files & new' & Hf & -> & sel' & Hsub' & Hsel'). split; [done|].
  exists (rows :: files), (new ++ new'). split_and!.
  - constructor; [by exists batches|done].
  - by rewrite <- app_assoc.
  - exists (sel ++ sel'). split; [by apply sublist_app|by apply Forall2_app].
Qed.

(** As many rows with increasing offsets as were asked for: all of the range. *)
Lemma chosen_range rows l :
  0 <= start -> start + size < 2 ^ 64 -> Z.of_nat (length l) = size -> chosen rows l ->
  StronglySorted Z.lt ((fun r => offset r.1) <$> rows) ->
  log_offset <$> l = (i64_wrap <$> seqZ start size).
Proof.
  intros H0 Hmax Hlen (sel & Hsub & Hsel) Hsorted. pose proof (Forall2_length _ _ _ Hsel) as Hl.
  assert (log_offset <$> l = i64_wrap <$> ((fun r => offset r.1) <$> sel)) as ->.
  { clear -Hsel. induction Hsel as [|r x sel l (_ & Hx & _) _ IH]; [done|]. cbn. by rewrite Hx, IH. }
  f_equal. rewrite <- Hlen, <- Hl. rewrite <- (length_fmap (fun r : LogPosition * bytes => offset r.1)). apply sorted_range.
  - eapply sorted_sublist; [|exact Hsorted]. clear -Hsub. induction Hsub; cbn; by constructor.
  - rewrite length_fmap, Hl, Hlen. apply Forall_fmap, Forall_forall. intros r Hr. cbn.
    apply list_elem_of_lookup in Hr as [i Hi]. destruct (Forall2_lookup_l _ _ _ _ _ Hsel Hi) as (x & _ & Hx & _).
    rewrite wrapping_add_small in Hx by (unfold is_u64, u64_max; lia). done.
Qed.
End Records.
