(* ===== verification/CompactionCursor.v ===== *)
(** * The compaction cursor of a collection

    What a request to move the position up to which a log is compacted does to
    the stored cursor, next to other processes, also when the log is opened,
    recovered or created for it. *)

From Stdlib Require Import Ascii.
From S2P Require Import Prelude Setsum Storage Types Paths Effects Manifest Persist Gc Reader ManifestManager.
From S2P Require Import BatchManager Cursors CopyDestroy Writer LogWriter Dirty LogService ServiceFacts.

#[local] Open Scope Z_scope.
#[local] Open Scope wal_scope.

(** ** Cursors that only go forward *)

Section Position.
Context {serde_cursor : Serde Cursor}.
Variable path : string.

(** The position of the cursor stored at [path]. *)
Definition stored_position (m : Objects) : option Z :=
  x ← m !! path; cursor ← from_slice x.1; Some (offset (cursor_position cursor)).

(** The cursor is not moved back. *)
Definition forward : relation Objects := fun m m' =>
  forall p, stored_position m = Some p -> exists p', stored_position m' = Some p' /\ p <= p'.

#[global] Instance forward_preorder : PreOrder forward.
Proof.
  split; [intros m p Hp; by exists p|]. intros m1 m2 m3 H1 H2 p Hp.
  destruct (H1 p Hp) as (p2 & Hp2 & ?). destruct (H2 p2 Hp2) as (p3 & Hp3 & ?). exists p3. split; [done|lia].
Qed.

Lemma forward_write m b t cursor :
  from_slice b = Some cursor -> (forall p, stored_position m = Some p -> p <= offset (cursor_position cursor)) ->
  forward m (<[path := (b, t)]> m) /\ stored_position (<[path := (b, t)]> m) = Some (offset (cursor_position cursor)).
Proof.
  intros Hb Hle. assert (stored_position (<[path := (b, t)]> m) = Some (offset (cursor_position cursor))) as Hp.
  { unfold stored_position. rewrite lookup_insert_eq. cbn. by rewrite Hb. }
  split; [|done]. intros p Hm. exists (offset (cursor_position cursor)). auto.
Qed.
End Position.

(** ** Triples *)

Section Triples.
Context {SS : SetsumSig} {OS : ObjectStore} {rely : relation Objects} {OL : ObjectStoreLaws OS rely}.
Context {serde_cursor : Serde Cursor} {SDL : SerdeLaws Cursor}.
Variable content : string -> ETag -> bytes.
Context {EL : ETagLaws OS rely content}.
Variable path : string.
Hypothesis rely_forward : forall m m', rely m m' -> forward path m m'.

(** What a computation does from a state with [P], whatever its outcome: ETags
    keep telling contents and the cursor is not moved back; a value that is
    returned satisfies [Q]. *)
Definition moves {A} (P : Objects -> Prop) (c : M A) (Q : A -> Objects -> Prop) : Prop :=
  forall w, tagged content (objects w) -> P (objects w) ->
    tagged content (objects (c w).2) /\ forward path (objects w) (objects (c w).2) /\
    match (c w).1 with Ret a => Q a (objects (c w).2) | _ => True end.

(** What holds of a success of a handler. *)
Definition on_ok {E A} (Q : A -> Objects -> Prop) (r : result A E) (m : Objects) : Prop :=
  match r with Ok a => Q a m | Err _ => True end.

Definition anyhow : Objects -> Prop := fun _ => True.

Lemma moves_ret {A} (a : A) (P : Objects -> Prop) (Q : A -> Objects -> Prop) : (forall m, P m -> Q a m) -> moves P (ret a) Q.
Proof. intros HQ w Ht Hp. split_and!; [done|reflexivity|by apply HQ]. Qed.

Lemma moves_bind {A B} P (c : M A) (k : A -> M B) Q R :
  moves P c Q -> (forall a, moves (Q a) (k a) R) -> moves P (bind c k) R.
Proof.
  intros Hc Hk w Ht Hp. unfold bind. destruct (Hc w Ht Hp) as (Ht1 & Hf1 & Hq).
  destruct (c w) as [[a|e|] w1]; cbn in *; [|done|done].
  destruct (Hk a w1 Ht1 Hq) as (Ht2 & Hf2 & Hr). split_and!; [done|by etrans|done].
Qed.

Lemma moves_hbind {E A B} P (c : HM E A) (k : A -> HM E B) Q R :
  moves P c (on_ok Q) -> (forall a, moves (Q a) (k a) (on_ok R)) -> moves P (hbind c k) (on_ok R).
Proof. intros Hc Hk. eapply moves_bind; [exact Hc|]. intros [a|e]; [apply Hk|by apply moves_ret]. Qed.

Lemma moves_run {E A} P (c : M A) Q : moves P c Q -> moves P (run (E := E) c) (on_ok Q).
Proof. intros Hc. eapply moves_bind; [exact Hc|]. intros a. by apply moves_ret. Qed.

Lemma moves_call {E A} P (f : Error -> E) (c : M A) Q : moves P c Q -> moves P (call f c) (on_ok Q).
Proof.
  intros Hc w Ht Hp. unfold call, attempt, ret. destruct (Hc w Ht Hp) as (Ht1 & Hf1 & Hq).
  destruct (c w) as [[a|e|] w1]; cbn in *; done.
Qed.

(** A fact that the precondition gives. *)
Lemma moves_given {A} (phi : Prop) (P : Objects -> Prop) (c : M A) Q :
  (forall m, P m -> phi) -> (phi -> moves P c Q) -> moves P c Q.
Proof. intros Hphi Hc w Ht Hp. apply Hc; eauto. Qed.

Lemma moves_weaken {A} (P P' : Objects -> Prop) (c : M A) (Q : A -> Objects -> Prop) :
  (forall m, P m -> P' m) -> moves P' c Q -> moves P c Q.
Proof. intros Hp Hc w Ht Hw. apply Hc; auto. Qed.

(** Computations that only read: what they establish is kept by other
    processes. *)
Lemma moves_quiet {A} P (c : M A) Q :
  stays rely c -> (forall w a w', P (objects w) -> tagged content (objects w') -> c w = (Ret a, w') -> Q a (objects w')) ->
  moves P c Q.
Proof.
  intros Hs Hq w Ht Hp. specialize (Hs w). destruct (c w) as [r w1] eqn:Hc; cbn in *.
  assert (tagged content (objects w1)) as Ht1 by (by eapply tagged_rely).
  split_and!; [done|by apply rely_forward|]. destruct r; [by eapply Hq|done..].
Qed.

(** A put to [path] that may only replace cursors at or below its own. *)
Lemma moves_put (cs : CursorStore) name cursor o P :
  cursor_path cs name = path ->
  (forall m, tagged content m -> put_allowed o m path ->
     forall p, stored_position path m = Some p -> p <= offset (cursor_position cursor)) ->
  moves P (cursor_put cs name cursor o)
    (fun x m => stored_position path m = Some (offset (cursor_position cursor))).
Proof.
  intros Hpath Hle w Ht _. unfold cursor_put, encode_or, bind. rewrite Hpath.
  destruct (to_vec _) as [b|] eqn:Hb; [|split_and!; [done|reflexivity|done]]. cbn [ret].
  unfold request_or_fail. destruct (put_bytes path b o w) as [r w1] eqn:Hp.
  pose proof (tagged_put _ _ _ _ _ _ Hp Ht) as Ht1. apply put_law in Hp as (pre & Hr & Hp).
  pose proof (tagged_rely _ _ Hr Ht) as Htpre. apply rely_forward in Hr. apply from_slice_to_vec in Hb.
  assert (forall t, put_allowed o pre path ->
            forward path (objects w) (<[path := (b, t)]> pre) /\
            stored_position path (<[path := (b, t)]> pre) = Some (offset (cursor_position cursor))) as Hwrite.
  { intros t Ha. destruct (forward_write path pre b t _ Hb) as [Hf Hs]; [by apply Hle|]. split; [by etrans|done]. }
  destruct r as [t|e].
  - destruct Hp as (Ha & t' & Hw & Htag). rewrite Hw in *. destruct (Hwrite t' Ha) as [Hf Hs].
    destruct t as [t|]; cbn; rewrite Hw; split_and!; done.
  - split_and!; [done| |done]. cbn.
    assert (objects w1 = pre \/ put_allowed o pre path /\ exists t, objects w1 = <[path := (b, t)]> pre) as [->|[Ha [t ->]]].
    { destruct e; try done. left. by destruct Hp. }
    + done.
    + by apply Hwrite.
Qed.
End Triples.

(** ** Paths that are not a cursor's *)

Section LastCharacter.
Fixpoint last_char (s : string) : option Ascii.ascii :=
  match s with
  | EmptyString => None
  | String a EmptyString => Some a
  | String _ s => last_char s
  end.

Lemma last_char_app s t : t <> EmptyString -> last_char (s +:+ t) = last_char t.
Proof.
  intros Ht. induction s as [|a s IH]; [done|].
  change (String a s +:+ t) with (String a (s +:+ t)). cbn [last_char]. rewrite IH.
  destruct (s +:+ t) eqn:E; [|done]. by destruct s.
Qed.

Lemma last_char_forall p s a : string_forall p s = true -> last_char s = Some a -> p a = true.
Proof.
  induction s as [|b s IH]; [done|]. cbn [string_forall last_char]. intros [Hb Hs]%andb_true_iff.
  destruct s; [by intros [= <-]|by apply IH].
Qed.

(** A hexadecimal digit, of either case. *)
Definition is_hex_digit (a : ascii) : bool := bool_decide (is_Some (to_digit a)).

Lemma last_char_hex s : string_forall is_hex_digit s = true -> last_char (String "." s) <> Some "n"%char.
Proof. destruct s as [|a s]; [done|]. intros Hs Hl. by apply (last_char_forall _ _ _ Hs) in Hl. Qed.
End LastCharacter.

(** The snapshots that a manager installs are named by their setsums. *)
Section SnapshotNames.
Context {SS : SetsumSig}.

Lemma generate_snapshot_path m o w s :
  generate_snapshot m o w = Some s -> exists sum, snap_path s = unprefixed_snapshot_path sum.
Proof.
  unfold generate_snapshot. destruct (rollup_from _ _ _ _) as [s'|] eqn:Hr.
  - intros [= ->]. revert Hr. generalize (Z.to_nat (max_depth (snapshots m))). intros d.
    induction d as [|d IH]; [done|]. cbn [rollup_from]. destruct (rollup_depth _ _ _ _) as [s'|] eqn:Hd; [|done].
    intros [= ->]. revert Hd. unfold rollup_depth. destruct (take_depth _ _ _ _ _) as [l sum].
    destruct (_ <=? _)%nat; [|done]. destruct (match min_by_key _ _ with Some _ => _ | None => _ end) as [taken sum'].
    intros [= <-]. by exists sum'.
  - destruct (_ <=? _)%nat; [|done]. destruct (take_fragments _ _ _ _ _) as [l sum].
    destruct (_ <=? _)%nat; [|done]. intros [= <-]. by exists sum.
Qed.

Lemma pull_work_snapshot mgr now st work st' sent s :
  pull_work mgr now st = (Some work, st', sent) -> work_snapshot work = Some s ->
  exists sum, snap_path s = unprefixed_snapshot_path sum.
Proof.
  assert (forall st0 st1 sent', pull_gc_work_only st0 = (Some work, st1, sent') -> work_snapshot work <> Some s) as Hgc.
  { unfold pull_gc_work_only. intros st0 st1 sent'. repeat case_match; intros; by simplify_eq/=. }
  unfold pull_work. destruct (bool_decide _); [by intros H1%Hgc|].
  destruct (apply_staged _ _ _ _ _) as [[[m next] ns] postpone].
  destruct (bool_decide _); [by intros H1%Hgc|].
  destruct (staged_garbage _) as [[g tx]|]; [repeat case_match; intros; by simplify_eq/=|].
  destruct (generate_snapshot m _ _) as [s'|] eqn:Hg; [|intros; by simplify_eq/=].
  destruct (apply_snapshot m s') as [[u|e] m']; [|done]. intros [= <- _ _]. cbn. intros [= ->].
  by eapply generate_snapshot_path.
Qed.
End SnapshotNames.

(** ** What opening a log and appending to it writes

    Opening a log and appending to it write manifests, snapshots and fragments
    only: a relation of store states that such writes keep is kept whatever the
    outcome. *)

Section Elsewhere.
Context {SS : SetsumSig} {OS : ObjectStore} {rely : relation Objects} {OL : ObjectStoreLaws OS rely} {parquet : Parquet}.
Context {serde_manifest : Serde Manifest} {serde_snapshot : Serde Snapshot} {serde_garbage : Serde Garbage}
        {serde_cursor : Serde Cursor}.
Variable R : relation Objects.
Context {HR : PreOrder R}.
Hypothesis Hrely : forall a b, rely a b -> R a b.

(** A write to [k] keeps the relation. *)
Definition harmless (k : string) : Prop := forall b o w, R (objects w) (objects (put_bytes k b o w).2).
Hypothesis harmless_manifest : forall p, harmless (manifest_path p).
Hypothesis harmless_snapshot : forall p s, harmless (p +:+ "/" +:+ unprefixed_snapshot_path s).
Hypothesis harmless_fragment : forall p n, harmless (p +:+ "/" +:+ unprefixed_fragment_path n).

#[local] Abbreviation stays := (stays R).

Lemma stays_now : stays instant_now.
Proof using Hrely OL. intros w. unfold instant_now. pose proof (now_law w) as H. destruct (now w). by apply Hrely. Qed.

Lemma stays_epoch : stays epoch_now.
Proof using Hrely OL. intros w. unfold epoch_now. pose proof (system_time_law w) as H. destruct (system_time w). by apply Hrely. Qed.

Lemma stays_encode {A} {SD : Serde A} e (a : A) : stays (encode_or e a).
Proof using HR. unfold encode_or. destruct (to_vec a); [apply stays_ret|apply stays_throw]; done. Qed.

Lemma stays_decode_or {A} {SD : Serde A} e b : stays (decode_or (A := A) e b).
Proof using HR. unfold decode_or. destruct (from_slice b); [apply stays_ret|apply stays_throw]; done. Qed.

(** The shape of a computation: its parts, and the cases it distinguishes. *)
#[local] Hint Resolve stays_now stays_epoch stays_encode stays_decode_or : wal.
#[local] Ltac step :=
  match goal with
  | |- forall _, _ => intro
  | |- _ (bind _ _) => apply stays_bind; [done| |]
  | |- _ (attempt _ _) => apply stays_attempt; [done| |]
  | |- _ (ret _) => apply stays_ret; done
  | |- _ (throw _) => apply stays_throw; done
  | |- _ out_of_fuel => apply stays_fuel; done
  | |- _ (lift _) => apply stays_lift; done
  | |- _ next_backoff => apply (stays_backoff R (rely := rely)); done
  | |- _ (request_or_fail (get_with_e_tag _)) => apply stays_request_or_fail, (stays_get R (rely := rely)); done
  | |- _ (request (put_bytes _ _ _)) => apply stays_request; solve [auto]
  | |- _ (request_or_fail (put_bytes _ _ _)) => apply stays_request_or_fail; solve [auto]
  | |- _ (match ?x with _ => _ end) => destruct x
  | _ => solve [eauto with wal]
  end.
#[local] Ltac steps := repeat step.

Lemma stays_put_retrying {A} k b o (on_ok : option ETag -> M A) on_pre on_err retries :
  harmless k -> (forall t, stays (on_ok t)) -> stays on_pre -> (forall e, stays (on_err e)) ->
  stays (put_retrying k b o on_ok on_pre on_err retries).
Proof using HR Hrely OL.
  intros Hk H1 H2 H3. unfold harmless in Hk. induction retries as [|n IH]; cbn [put_retrying]; steps.
Qed.

Lemma stays_Snapshot_install prefix s sum :
  snap_path s = unprefixed_snapshot_path sum -> stays (Snapshot_install prefix s).
Proof using HR Hrely OL harmless_snapshot.
  intros Hs. unfold Snapshot_install. step; [steps|]. intros b. rewrite Hs. apply stays_put_retrying; [apply harmless_snapshot|steps..].
Qed.

Lemma stays_Manifest_install prefix current m : stays (Manifest_install prefix current m).
Proof using HR Hrely OL harmless_manifest.
  unfold Manifest_install. step; [steps|]. intros b. apply stays_put_retrying; [apply harmless_manifest|steps..].
Qed.

Lemma stays_initialize prefix writer : stays (initialize prefix writer).
Proof using HR Hrely OL harmless_manifest.
  unfold initialize, initialize_from_manifest. pose proof (harmless_manifest prefix). unfold harmless in *. steps.
Qed.

Lemma stays_Manifest_load prefix : stays (Manifest_load prefix).
Proof using HR Hrely OL. apply (stays_get_retrying R (rely := rely)); [done|]. steps. Qed.

Lemma stays_read_fragment prefix path : stays (read_fragment prefix path).
Proof using HR Hrely OL. unfold read_fragment, read_parquet. steps. Qed.

Lemma stays_upload fuel prefix n p messages : stays (upload_parquet fuel prefix n p messages).
Proof using HR Hrely OL harmless_fragment.
  unfold upload_parquet. step; [steps|]. intros start. pose proof (harmless_fragment prefix n) as Hf. unfold harmless in Hf.
  induction fuel as [|k IH]; cbn [upload_loop]; steps.
Qed.

Lemma stays_perform mgr work st sent :
  (forall s, work_snapshot work = Some s -> exists sum, snap_path s = unprefixed_snapshot_path sum) ->
  stays (perform mgr work st sent).
Proof using HR Hrely OL harmless_manifest harmless_snapshot.
  intros Hs. unfold perform. step; [|].
  - destruct (work_snapshot work) as [s|]; [|steps]. destruct (Hs s eq_refl) as [sum Hsum].
    step; [by eapply stays_Snapshot_install|steps].
  - intros [u|e]; [|steps]. step; [apply stays_Manifest_install|steps].
Qed.

Lemma stays_do_work fuel mgr st sent : stays (do_work fuel mgr st sent).
Proof using HR Hrely OL harmless_manifest harmless_snapshot.
  revert st sent. induction fuel as [|n IH]; intros st sent; cbn [do_work]; [steps|].
  step; [steps|]. intros now. destruct (pull_work mgr now st) as [[[work|] st'] sent'] eqn:Hp; [|steps].
  step; [apply stays_perform; intros s Hs; by eapply pull_work_snapshot|]. intros [st1 sent1]. apply IH.
Qed.

Lemma stays_publish fuel mgr f tx st : stays (publish_fragment fuel mgr f tx st).
Proof using HR Hrely OL harmless_manifest harmless_snapshot.
  unfold publish_fragment. destruct (push_work f tx st). step; [apply stays_do_work|]. steps.
Qed.

Context {dirty : MarkDirty}.
Hypothesis stays_mark : forall p n, stays (mark_dirty p n).

Lemma stays_recover fuel mgr tx st : stays (recover fuel mgr tx st).
Proof using HR Hrely OL harmless_manifest harmless_snapshot stays_mark.
  unfold recover. step; [apply stays_read_fragment|]. intros [f|]; [|steps].
  step; [apply stays_mark|]. intros _. step; [apply stays_publish|steps].
Qed.

Lemma stays_once_open fuel o prefix writer : stays (once_open fuel o prefix writer).
Proof using HR Hrely OL harmless_manifest harmless_snapshot stays_mark.
  unfold once_open, ManifestManager_new. step; [steps|]. intros now.
  step; [step; [apply stays_Manifest_load|steps]|]. intros [mgr st]. step; [apply stays_recover|steps].
Qed.

Lemma stays_append_batch fuel o work : stays (append_batch fuel o work).
Proof using HR Hrely OL harmless_manifest harmless_snapshot harmless_fragment stays_mark.
  unfold append_batch. destruct work as [[n p] work]. destruct (bool_decide _); [steps|].
  step; [|steps]. unfold append_batch_internal. destruct (bool_decide _); [steps|].
  step; [apply stays_upload|]. intros res1. step; [apply stays_mark|]. intros res2. unfold append_uploaded.
  destruct (channel o). steps; apply stays_publish.
Qed.

Lemma stays_take_work o : stays (once_take_work o).
Proof using HR Hrely OL. unfold once_take_work. steps. Qed.

Lemma stays_await fuel tx o : stays (await_answer fuel tx o).
Proof using HR Hrely OL harmless_manifest harmless_snapshot harmless_fragment stays_mark.
  revert o. induction fuel as [|n IH]; intros o; cbn [await_answer]; destruct (List.find _ _) as [[]|]; [steps..|].
  step; [|steps; apply IH]. unfold flusher. destruct (once_done o); [steps|].
  destruct (wait_for_writable _); [|steps]. step; [apply stays_take_work|]. intros [[[work|]|] o']; [|steps..].
  apply stays_append_batch.
Qed.

Lemma stays_once_append fuel messages o : stays (once_append fuel messages o).
Proof using HR Hrely OL harmless_manifest harmless_snapshot harmless_fragment stays_mark.
  unfold once_append. destruct (bool_decide _); [steps|]. destruct (channel o). destruct (bm_push_work _ _ _).
  step; [apply stays_take_work|]. intros [r o']. step; [|steps; apply stays_await].
  destruct r as [[work|]|]; [apply stays_append_batch|steps..].
Qed.

Lemma stays_ensure_open fuel lw : stays (ensure_open fuel lw).
Proof using HR Hrely OL harmless_manifest harmless_snapshot stays_mark.
  unfold ensure_open. generalize 3%nat as tries. intros tries. revert lw.
  induction tries as [|n IH]; intros lw; cbn [ensure_open_loop]; [steps|].
  destruct (epoch_writer _); [destruct (negb _); [steps|apply IH]|].
  step; [apply stays_once_open|]. intros [w|e]; [steps|]. destruct e; steps.
Qed.

Lemma stays_handle {A} fuel (f : OnceLogWriter -> M (result A Error * OnceLogWriter)) lw :
  (forall o, stays (f o)) -> stays (handle_errors_and_contention fuel f lw).
Proof using HR Hrely OL harmless_manifest harmless_snapshot stays_mark.
  intros Hf. unfold handle_errors_and_contention. generalize 3%nat as tries. intros tries. revert lw.
  induction tries as [|n IH]; intros lw; cbn [handle_loop]; [steps|].
  step; [apply stays_ensure_open|]. intros [[[w e]|err] lw']; [|steps].
  step; [apply Hf|]. intros [[a|err] w']; [steps|]. destruct err; steps. apply stays_ensure_open.
Qed.

Lemma stays_append fuel message lw : stays (append fuel message lw).
Proof using HR Hrely OL harmless_manifest harmless_snapshot harmless_fragment stays_mark.
  apply stays_handle. apply stays_once_append.
Qed.

Lemma stays_open_or_initialize fuel o prefix writer : stays (open_or_initialize fuel o prefix writer).
Proof using HR Hrely OL harmless_manifest harmless_snapshot stays_mark.
  unfold open_or_initialize. step; [apply stays_ensure_open|]. intros [[u|e] lw]; [steps|].
  destruct e; try (by steps). step; [apply stays_initialize|]. intros _. step; [apply stays_ensure_open|steps].
Qed.
End Elsewhere.

(** ** The request *)

Section Update.
Context {SS : SetsumSig} {OS : ObjectStore} {rely : relation Objects} {OL : ObjectStoreLaws OS rely} {parquet : Parquet}.
Context {serde_manifest : Serde Manifest} {serde_snapshot : Serde Snapshot} {serde_garbage : Serde Garbage}
        {serde_cursor : Serde Cursor} {SDL : SerdeLaws Cursor}.
Context {serde_marker : Serde DirtyMarker} {serde_witness : Serde Witness} {serde_met : Serde ManifestAndETag}.
Context {UU : Uuids} {SC : ServiceCache} {HS : HasServer} {HSL : HasServerLaws HS}.
Variable content : string -> ETag -> bytes.
Context {EL : ETagLaws OS rely content}.
Variable fuel : nat.

(** The stored cursor of a collection. *)
Definition compaction_path (c : CollectionUuid) : string :=
  cursor_path (mkCursorStore (storage_prefix_for_log c) "writer") COMPACTION.

Variable c : CollectionUuid.
Hypothesis rely_forward : forall m m', rely m m' -> forward (compaction_path c) m m'.

#[local] Abbreviation moves := (moves content (compaction_path c)).

Lemma stays_modify f : stays rely (modify f).
Proof. intros w. cbn. by rewrite objects_set. Qed.

Lemma moves_modify f P : moves P (modify f) (fun _ => P).
Proof. intros w Ht Hp. cbn. rewrite objects_set. split_and!; [done|reflexivity|done]. Qed.

Lemma stays_decode {A} {SD : Serde A} e b : stays rely (decode_or (A := A) e b).
Proof. unfold decode_or. destruct (from_slice b); [apply stays_ret|apply stays_throw]; apply _. Qed.

Lemma stays_manifest_load prefix : stays rely (Manifest_load prefix).
Proof.
  apply (stays_get_retrying (rely := rely)); [apply _|done|]. intros b [t|]; [|apply stays_throw; apply _].
  apply stays_bind; [apply _|apply stays_decode|]. intros m. apply stays_ret; apply _.
Qed.

Lemma stays_next_write prefix : stays rely (reader_next_write_timestamp prefix).
Proof.
  apply stays_bind; [apply _| |intros m; apply stays_ret; apply _].
  apply stays_bind; [apply _|apply stays_manifest_load|]. intros [[m t]|]; [apply stays_ret|apply stays_throw]; apply _.
Qed.

Lemma stays_load cs name : stays rely (cursor_load cs name).
Proof.
  unfold cursor_load. apply stays_bind; [apply _|apply stays_request, (stays_get (rely := rely)); done|].
  intros [[b [t|]]|e]; [|apply stays_throw; apply _|].
  - apply stays_bind; [apply _|apply stays_decode|intros; apply stays_ret; apply _].
  - destruct (is_not_found e); [apply stays_ret|apply stays_throw]; apply _.
Qed.

Lemma stays_time : stays rely now_us.
Proof. intros w. unfold now_us. pose proof (system_time_law w). by destruct (system_time w). Qed.

(** What a load tells: where the cursor is, and the contents its ETag stands for. *)
Definition loaded (x : option Witness) (m : Objects) : Prop :=
  match x with
  | Some x => from_slice (content (compaction_path c) (witness_e_tag x)) = Some (witness_cursor x) /\
              exists p, stored_position (compaction_path c) m = Some p /\ offset (cursor_position (witness_cursor x)) <= p
  | None => True
  end.

Lemma moves_load P writer :
  moves P (cursor_load (mkCursorStore (storage_prefix_for_log c) writer) COMPACTION) loaded.
Proof.
  apply (moves_quiet content (compaction_path c) rely_forward); [apply stays_load|]. intros w x w' _ Ht Hl. apply cursor_load_Ret in Hl as [_ Hl].
  destruct x as [x|]; [|done]. destruct Hl as (b & Hb & Hd). split.
  - apply Ht in Hb. unfold compaction_path. unfold cursor_path in *. cbn in *. by rewrite Hb.
  - exists (offset (cursor_position (witness_cursor x))). split; [|lia]. unfold stored_position, compaction_path.
    unfold cursor_path in *. cbn in *. rewrite Hb. cbn. by rewrite Hd.
Qed.

Lemma loaded_rely x m m' : rely m m' -> loaded x m -> loaded x m'.
Proof.
  intros Hr. destruct x as [x|]; [|done]. cbn. intros [Hd (p & Hp & Hle)]. split; [done|].
  destruct (rely_forward _ _ Hr p Hp) as (p' & Hp' & ?). exists p'. split; [done|lia].
Qed.

(** The write of a cursor that is not below the one that was read. *)
Lemma moves_replace P writer cursor x :
  (forall x', x = Some x' -> from_slice (content (compaction_path c) (witness_e_tag x')) = Some (witness_cursor x') /\
     offset (cursor_position (witness_cursor x')) <= offset (cursor_position cursor)) ->
  let cs := mkCursorStore (storage_prefix_for_log c) writer in
  moves P (match x with Some w => cursor_save cs COMPACTION cursor w | None => cursor_init cs COMPACTION cursor end)
    (fun _ m => stored_position (compaction_path c) m = Some (offset (cursor_position cursor))).
Proof.
  intros Hx cs. destruct x as [x|]; unfold cursor_save, cursor_init; apply (moves_put content (compaction_path c) rely_forward); try done; intros m Ht Ha p.
  - destruct (Hx x eq_refl) as [Hd Hle]. destruct Ha as [_ Ha]. destruct (Ha _ eq_refl) as [b Hb].
    unfold stored_position. rewrite Hb. cbn. apply Ht in Hb. rewrite <- Hb, Hd. by intros [= <-].
  - destruct Ha as [Ha _]. unfold stored_position. by rewrite Ha.
Qed.

(** The cursor is at or past [z]; there is none when [z] is not a position of
    a record. *)
Definition reached (z : Z) (m : Objects) : Prop :=
  z = 0 \/ exists p, stored_position (compaction_path c) m = Some p /\ z <= p.

(** The part of the request that follows the opening of the log. *)
Lemma update_rest adjusted prefix :
  prefix = storage_prefix_for_log c -> 0 <= adjusted ->
  moves anyhow
    (let@ _ := call (fun e => match e with UninitializedLog => Code_NotFound | _ => Code_Unknown end)
                 (reader_next_write_timestamp prefix) in
     let cursor_store := mkCursorStore prefix "writer" in
     let@ witness := call coded (cursor_load cursor_store COMPACTION) in
     let cursor := default Cursor_default (witness_cursor <$> witness) in
     if negb false && (adjusted <? offset (cursor_position cursor)) then hret tt else
     let@ t := run now_us in
     if t <? 0 then out_of_fuel else
     let cursor := mkCursor (from_offset adjusted) (u64_wrap t) "TODO" in
     let@ witness := call coded (match witness with
                                 | Some w => cursor_save cursor_store COMPACTION cursor w
                                 | None => cursor_init cursor_store COMPACTION cursor
                                 end) in
     let key := cache_key_for_cursor c COMPACTION in
     let@ _ := run (match to_vec witness with
                    | Some json => cache_insert key json
                    | None => cache_remove key
                    end) in
     let@ _ := hret tt in
     run (modify (fun s => set_need_to_compact (advance_rollup (from_offset adjusted) c (need_to_compact s)) s)))
    (on_ok (fun _ => reached adjusted)).
Proof.
  intros -> H0.
  eapply moves_hbind; [apply moves_call, (moves_quiet content _ rely_forward anyhow _ (fun _ => anyhow)); [apply stays_next_write|done]|].
  intros u. cbv zeta. eapply moves_hbind; [apply moves_call, moves_load|]. intros x.
  destruct (negb false && _) eqn:Hback; cbn in Hback.
  { apply Z.ltb_lt in Hback. apply moves_ret. intros m Hm. unfold on_ok, reached.
    destruct x as [x|]; cbn in Hback; [|left; lia]. destruct Hm as (_ & p & Hp & Hle). right. exists p. split; [done|lia]. }
  apply Z.ltb_ge in Hback.
  eapply moves_hbind; [apply moves_run, (moves_quiet content _ rely_forward _ _ (fun _ => loaded x)); [apply stays_time|]|].
  { intros w a w' Hl _ Ht. eapply loaded_rely; [|exact Hl]. pose proof (stays_time w) as Hs. by rewrite Ht in Hs. }
  intros t. destruct (t <? 0); [by intros w Ht _; split_and!; [|reflexivity|]|].
  apply moves_given with (phi := forall x', x = Some x' ->
    from_slice (content (compaction_path c) (witness_e_tag x')) = Some (witness_cursor x')); [by intros m Hm x' ->; apply Hm|].
  intros Hx. eapply moves_hbind.
  { apply moves_call, moves_replace. intros x' ->. split; [by apply Hx|exact Hback]. }
  intros x'. apply (moves_weaken _ _ _ (reached adjusted)); [by intros m Hm; right; exists adjusted|].
  eapply (moves_hbind _ _ _ _ _ (fun _ => reached adjusted)).
  { apply moves_run. destruct (to_vec x'); apply moves_modify. }
  intros u'. eapply (moves_hbind _ _ _ _ _ (fun _ => reached adjusted)); [by apply moves_ret|].
  intros u''. apply moves_run, moves_modify.
Qed.

(** *** Opening the log *)

(** The digests of setsums are hexadecimal. *)
Hypothesis hexdigest_hex : forall s, string_forall is_hex_digit (hexdigest s) = true.

(** What other writers and a server that opens a log do. *)
Definition spares : relation Objects := fun m m' =>
  (tagged content m -> tagged content m') /\ forward (compaction_path c) m m'.

#[local] Instance spares_preorder : PreOrder spares.
Proof.
  split; [by intros m; split|]. intros m1 m2 m3 [H1 H1'] [H2 H2']. split; [by auto|by etrans].
Qed.

Lemma rely_spares m m' : rely m m' -> spares m m'.
Proof using EL rely_forward. intros Hr. split; [intros Ht; by eapply tagged_rely|by apply rely_forward]. Qed.

Lemma spares_put k : k <> compaction_path c -> harmless spares k.
Proof using EL OL rely_forward.
  intros Hk b o w. destruct (put_bytes k b o w) as [r w'] eqn:Hp. cbn. split; [by eapply tagged_put|].
  apply put_law in Hp as (pre & Hr & Hp). etrans; [by apply rely_forward|].
  assert (objects w' = pre \/ exists t, objects w' = <[k := (b, t)]> pre) as [->|[t ->]].
  { destruct r as [t|e]; [destruct Hp as (_ & t' & -> & _); eauto|].
    destruct e; try (destruct Hp as [->|(_ & t' & ->)]; by eauto). destruct Hp as [_ ->]. by left. }
  - reflexivity.
  - intros p. unfold stored_position. rewrite lookup_insert_ne by done. intros Hm. exists p. split; [done|lia].
Qed.

Lemma spares_manifest p : harmless spares (manifest_path p).
Proof using EL OL rely_forward.
  apply spares_put. intros Heq. apply (f_equal last_char) in Heq. revert Heq.
  unfold manifest_path, compaction_path, cursor_path, CursorName.path. by rewrite !string_app_assoc, !last_char_app.
Qed.

Lemma spares_snapshot p s : harmless spares (p +:+ "/" +:+ unprefixed_snapshot_path s).
Proof using EL OL rely_forward hexdigest_hex.
  apply spares_put. intros Heq. apply (f_equal last_char) in Heq. revert Heq.
  unfold unprefixed_snapshot_path, compaction_path, cursor_path, CursorName.path.
  change ("SNAPSHOT." +:+ hexdigest s) with ("SNAPSHOT" +:+ String "." (hexdigest s)).
  rewrite !string_app_assoc, !last_char_app by done. intros Heq. by apply (last_char_hex (hexdigest s)).
Qed.

Lemma spares_fragment p n : harmless spares (p +:+ "/" +:+ unprefixed_fragment_path n).
Proof using EL OL rely_forward.
  apply spares_put. intros Heq. apply (f_equal last_char) in Heq. revert Heq.
  unfold unprefixed_fragment_path, compaction_path, cursor_path, CursorName.path.
  by rewrite !string_app_assoc, !last_char_app.
Qed.

Lemma stays_mark_dirty_of d p n : stays spares (mark_dirty (MarkDirty := mark_dirty_of fuel d) p n).
Proof using EL OL HSL rely_forward hexdigest_hex.
  cbn [mark_dirty mark_dirty_of]. apply stays_bind; [apply _|by intros w|]. intros s.
  destruct (dirty_log s) as [lw|]; [|apply stays_throw; apply _].
  apply stays_bind; [apply _|intros w; unfold now_us; pose proof (system_time_law w) as H; destruct (system_time w); by apply rely_spares|].
  intros t. destruct (t <? 0); [apply stays_throw; apply _|].
  apply stays_bind; [apply _|apply stays_encode; apply _|]. intros data.
  apply stays_bind; [apply _| |].
  - apply (stays_append spares (rely := rely)); [exact rely_spares|exact spares_manifest|exact spares_snapshot|exact spares_fragment|].
    intros p' n'. apply stays_ret; apply _.
  - intros [r lw']. apply stays_bind; [apply _|intros w; cbn; by rewrite objects_set|].
    intros _. apply stays_bind; [apply _|apply stays_lift; apply _|]. intros _. apply stays_ret; apply _.
Qed.

Lemma stays_get_log d prefix : stays spares (get_log_from_handle_with_mutex_held fuel d prefix).
Proof using EL OL HSL rely_forward hexdigest_hex.
  assert (forall f, stays spares (modify f)) as Hmod by (intros f w; cbn; by rewrite objects_set).
  unfold get_log_from_handle_with_mutex_held. apply stays_bind; [apply _|by intros w|]. intros s.
  apply stays_bind; [apply _|apply (stays_now spares (rely := rely)), rely_spares|]. intros now.
  destruct (active_log _) as [log|].
  - apply stays_bind; [apply _|apply Hmod|]. intros _. apply stays_ret; apply _.
  - apply stays_bind; [apply _| |].
    + apply (stays_open_or_initialize spares (rely := rely));
        [exact rely_spares|exact spares_manifest|exact spares_snapshot|apply stays_mark_dirty_of].
    + intros log. apply stays_bind; [apply _|apply (stays_now spares (rely := rely)), rely_spares|]. intros now'.
      apply stays_bind; [apply _|apply Hmod|]. intros _. apply stays_ret; apply _.
Qed.

Lemma moves_spares {A} P (x : M A) : stays spares x -> moves P x (fun _ => anyhow).
Proof. intros Hx w Ht _. destruct (Hx w) as [Htag Hf]. split_and!; [by apply Htag|exact Hf|by destruct (x w).1]. Qed.

Lemma opened_then {B} prefix (k : LogWriter -> HM Code B) (Q : B -> Objects -> Prop) :
  (forall log, moves anyhow (k log) (on_ok Q)) ->
  moves anyhow (hbind (call unknown (get_log_from_handle_with_mutex_held fuel c prefix)) k) (on_ok Q).
Proof.
  intros Hk. eapply moves_hbind; [apply moves_call, moves_spares, stays_get_log|exact Hk].
Qed.

Lemma u64_wrap_nonneg z : 0 <= u64_wrap z.
Proof. unfold u64_wrap. apply Z.mod_pos_bound. lia. Qed.

Lemma update_moves id off w :
  uuid_from_str id = Some c -> tagged content (objects w) ->
  let x := update_collection_log_offset fuel id off w in
  tagged content (objects x.2) /\ forward (compaction_path c) (objects w) (objects x.2) /\
  (x.1 = Ret (Ok tt) -> reached (u64_wrap (i64_wrap (off + 1))) (objects x.2)).
Proof.
  intros Hid Ht x. subst x. unfold update_collection_log_offset, update_log_offset.
  destruct (ensure_write_mode_keeps w) as [He|He]; [|rewrite (hbind_stop _ _ _ _ _ He); split_and!; [done|reflexivity|done]].
  assert (parse_collection id w = (Ret (Ok c), w)) as Hp by (unfold parse_collection; by rewrite Hid).
  rewrite (hbind_step _ _ _ _ _ He), (hbind_step _ _ _ _ _ Hp), (hbind_step _ _ _ _ _ He). cbv zeta.
  rewrite (hbind_step _ _ _ _ _ Hp).
  destruct (opened_then (storage_prefix_for_log c) _ _ (fun _ => update_rest _ _ eq_refl (u64_wrap_nonneg (i64_wrap (off + 1)))) w Ht I)
    as (Ht2 & Hf & Hq).
  split_and!; [exact Ht2|exact Hf|]. intros Hx. cbv zeta in Hq. rewrite Hx in Hq. exact Hq.
Qed.
End Update.
