(* ===== verification/HeapFacts.v ===== *)
(** * Merging and encoding buckets

    The order of items, what a merge keeps, and the round trip of a bucket
    through its file. *)

From S2P Require Import Prelude Setsum Storage Types Paths S3Heap.

#[local] Open Scope Z_scope.
Import Heap.

(** ** The order of items *)

Definition trigger_lt (a b : HeapItem) : Prop :=
  partitioning (trigger a) < partitioning (trigger b) \/
  partitioning (trigger a) = partitioning (trigger b) /\ scheduling (trigger a) < scheduling (trigger b).

Lemma trigger_eq (a b : HeapItem) :
  trigger a = trigger b <->
  partitioning (trigger a) = partitioning (trigger b) /\ scheduling (trigger a) = scheduling (trigger b).
Proof. destruct (trigger a), (trigger b). cbn. split; [by intros [= -> ->]|by intros [-> ->]]. Qed.

Lemma heap_le_alt a b : heap_le a b <-> trigger_lt a b \/ trigger a = trigger b /\ nonce a <= nonce b.
Proof. unfold heap_le, trigger_lt. rewrite trigger_eq. lia. Qed.

#[global] Instance heap_le_total : Total heap_le.
Proof. intros a b. unfold heap_le. lia. Qed.
#[global] Instance heap_le_trans : Transitive heap_le.
Proof. intros a b c. unfold heap_le. lia. Qed.

Lemma trigger_lt_irrefl a b : trigger_lt a b -> trigger a = trigger b -> False.
Proof. unfold trigger_lt. rewrite trigger_eq. lia. Qed.

Lemma trigger_lt_trans a b c : trigger_lt a b -> trigger_lt b c -> trigger_lt a c.
Proof. unfold trigger_lt. lia. Qed.

Lemma trigger_lt_eq a b c : trigger b = trigger c -> trigger_lt a b -> trigger_lt a c.
Proof. unfold trigger_lt. rewrite trigger_eq. lia. Qed.

(** The item of a list with the largest nonce of its trigger. *)
Definition newest (l : list HeapItem) (x : HeapItem) : Prop :=
  x ∈ l /\ forall y, y ∈ l -> trigger y = trigger x -> nonce y <= nonce x.

(** ** Deduplication *)

Lemma dedup_head x l : exists r, dedup_by_trigger (x :: l) = x :: r.
Proof.
  revert x. induction l as [|y l IH]; intros x; [by exists []|]. destruct (IH y) as [r Hr].
  change (dedup_by_trigger (x :: y :: l)) with
    (match dedup_by_trigger (y :: l) with
     | z :: r => if bool_decide (trigger x = trigger y) then x :: r else x :: z :: r
     | [] => [x]
     end). rewrite Hr. case_bool_decide; eauto.
Qed.

Lemma dedup_cons x y l :
  exists r, dedup_by_trigger (y :: l) = y :: r /\
    dedup_by_trigger (x :: y :: l) = if bool_decide (trigger x = trigger y) then x :: r else x :: y :: r.
Proof.
  destruct (dedup_head y l) as [r Hr]. exists r. split; [done|].
  change (dedup_by_trigger (x :: y :: l)) with
    (match dedup_by_trigger (y :: l) with
     | z :: r => if bool_decide (trigger x = trigger y) then x :: r else x :: z :: r
     | [] => [x]
     end). by rewrite Hr.
Qed.

(** In front of items that are not larger, an item is the newest of its trigger. *)
Lemma newest_cons x l z :
  (forall u, u ∈ l -> heap_le u x) ->
  newest (x :: l) z <-> z = x \/ newest l z /\ trigger z <> trigger x.
Proof.
  intros Hx. unfold newest. setoid_rewrite elem_of_cons.
  assert (forall u, u ∈ l -> trigger u = trigger x -> nonce u <= nonce x) as Hle.
  { intros u Hu Ht. destruct (proj1 (heap_le_alt u x) (Hx u Hu)) as [Hlt|[_ ?]]; [|done].
    by destruct (trigger_lt_irrefl _ _ Hlt). }
  split.
  - intros [[->|Hz] Hmax]; [by left|]. destruct (decide (trigger z = trigger x)) as [He|He]; [left|by eauto 10].
    specialize (Hle z Hz He). specialize (Hmax x (or_introl eq_refl) (eq_sym He)).
    destruct x as [tx nx], z as [tz nz]. cbn in *. f_equal; [done|lia].
  - intros [->|[[Hz Hmax] Hne]].
    + split; [by left|]. intros u [->|Hu] Ht; [lia|by apply Hle].
    + split; [by right|]. intros u [->|Hu] Ht; [congruence|by apply Hmax].
Qed.

(** On a descending list: the newest item of each trigger, still descending. *)
Lemma dedup_spec l :
  StronglySorted (fun a b => heap_le b a) l ->
  StronglySorted (fun a b => trigger_lt b a) (dedup_by_trigger l) /\
  forall x, x ∈ dedup_by_trigger l <-> newest l x.
Proof.
  induction l as [|x l IH]; intros Hs.
  { split; [constructor|]. intros x. unfold newest. rewrite !elem_of_nil. tauto. }
  apply StronglySorted_inv in Hs as [Hs Hx]. destruct (IH Hs) as [IHs IHm]. rewrite Forall_forall in Hx.
  setoid_rewrite newest_cons; [|done]. destruct l as [|y l].
  { split; [repeat constructor|]. intros z. unfold newest. cbn.
    rewrite list_elem_of_singleton, elem_of_nil. tauto. }
  destruct (dedup_cons x y l) as (r & Hr & ->). rewrite Hr in IHs, IHm. setoid_rewrite <- IHm.
  apply StronglySorted_inv in IHs as [IHr Hy]. rewrite Forall_forall in Hy.
  case_bool_decide as He; setoid_rewrite elem_of_cons.
  - assert (forall z, z ∈ r -> trigger_lt z x) as Hr'.
    { intros z Hz. eapply trigger_lt_eq; [symmetry; exact He|by apply Hy]. }
    split; [by constructor; [|apply Forall_forall]|]. intros z. split.
    + intros [->|Hz]; [by left|right]. split; [by right|]. intros Ht. by eapply trigger_lt_irrefl; [apply Hr'|].
    + intros [->|[[->|Hz] Hne]]; [by left|by destruct Hne|by right].
  - assert (forall z, z ∈ y :: r -> trigger_lt z x) as Hr'.
    { assert (trigger_lt y x) as Hlt.
      { destruct (proj1 (heap_le_alt y x) (Hx y ltac:(by left))) as [|[? _]]; [done|by destruct He]. }
      intros z [->|Hz]%elem_of_cons; [done|]. eapply trigger_lt_trans; [by apply Hy|done]. }
    split; [constructor; [by constructor; [|apply Forall_forall]|by apply Forall_forall]|]. intros z. split.
    + intros [->|Hz]; [by left|right]. split; [by apply elem_of_cons|]. intros Ht.
      by eapply trigger_lt_irrefl; [apply Hr'|].
    + intros [->|[Hz _]]; [by left|right]. by apply elem_of_cons.
Qed.

Lemma StronglySorted_reverse {A} (R : A -> A -> Prop) l :
  StronglySorted R l -> StronglySorted (fun a b => R b a) (reverse l).
Proof.
  induction 1 as [|x l Hs IH Hx]; [constructor|]. rewrite reverse_cons.
  apply StronglySorted_app; split_and!; [|done|by repeat constructor].
  intros a b Ha ->%list_elem_of_singleton. rewrite elem_of_reverse in Ha. rewrite Forall_forall in Hx. by apply Hx.
Qed.

(** A merge keeps the newest item of every trigger, in the order of triggers. *)
Lemma merge_items_spec kept entries :
  StronglySorted trigger_lt (merge_items kept entries) /\
  forall x, x ∈ merge_items kept entries <-> newest (kept ++ entries) x.
Proof.
  unfold merge_items. set (s := merge_sort heap_le (kept ++ entries)).
  assert (StronglySorted heap_le s) as Hs by (apply StronglySorted_merge_sort; apply _).
  assert (s ≡ₚ kept ++ entries) as Hp by apply merge_sort_Permutation.
  destruct (dedup_spec (reverse s)) as [Hd Hm]; [by apply StronglySorted_reverse|]. split.
  - apply StronglySorted_reverse in Hd. exact Hd.
  - intros x. rewrite elem_of_reverse, Hm. unfold newest. setoid_rewrite elem_of_reverse. by setoid_rewrite Hp.
Qed.

Lemma sorted_lt_unique (l l' : list HeapItem) :
  StronglySorted trigger_lt l -> StronglySorted trigger_lt l' -> (forall x, x ∈ l <-> x ∈ l') -> l = l'.
Proof.
  revert l'. induction l as [|x l IH]; intros [|y l'] Hs Hs' He.
  - done.
  - exfalso. by apply (not_elem_of_nil y), He; left.
  - exfalso. by apply (not_elem_of_nil x), He; left.
  - apply StronglySorted_inv in Hs as [Hs Hx], Hs' as [Hs' Hy]. rewrite Forall_forall in Hx, Hy.
    assert (x = y) as ->.
    { destruct (proj1 (elem_of_cons _ _ _) (proj1 (He x) ltac:(by left))) as [?|Hin]; [done|].
      destruct (proj1 (elem_of_cons _ _ _) (proj2 (He y) ltac:(by left))) as [?|Hin']; [done|].
      exfalso. specialize (Hx y Hin'). specialize (Hy x Hin). eapply trigger_lt_irrefl; [by eapply trigger_lt_trans|done]. }
    f_equal. apply IH; [done|done|]. intros z. specialize (He z). rewrite !elem_of_cons in He. split; intros Hz.
    + destruct (proj1 He (or_intror Hz)) as [->|?]; [|done]. exfalso. eapply trigger_lt_irrefl; [by apply Hx|done].
    + destruct (proj2 He (or_intror Hz)) as [->|?]; [|done]. exfalso. eapply trigger_lt_irrefl; [by apply Hy|done].
Qed.

Lemma newest_exists l x :
  x ∈ l -> exists y, newest l y /\ trigger y = trigger x /\ nonce x <= nonce y.
Proof.
  intros Hx. cut (exists y, y ∈ l /\ trigger y = trigger x /\ forall u, u ∈ l -> trigger u = trigger x -> nonce u <= nonce y).
  { intros (y & Hy & Ht & Hmax). exists y. split_and!; [|done|by apply Hmax]. split; [done|]. rewrite Ht. done. }
  assert (Exists (fun y => trigger y = trigger x) l) as He by (apply Exists_exists; eauto). clear Hx.
  revert He. generalize (trigger x). clear x. intros t. induction l as [|a l IH]; intros He; [by inv He|].
  setoid_rewrite elem_of_cons. destruct (decide (Exists (fun y => trigger y = t) l)) as [Hl|Hl].
  - destruct (IH Hl) as (y & Hy & Ht & Hmax).
    destruct (decide (trigger a = t /\ nonce y <= nonce a)) as [[Ha Hle]|Hno].
    + exists a. split_and!; [by left|done|]. intros u [->|Hu] Hut; [lia|]. specialize (Hmax u Hu Hut). lia.
    + exists y. split_and!; [by right|done|]. intros u [->|Hu] Hut; [|by apply Hmax]. apply Z.lt_le_incl, Z.nle_gt. tauto.
  - inv He; [|done]. exists a. split_and!; [by left|done|]. intros u [->|Hu] Hut; [lia|]. destruct Hl. apply Exists_exists. eauto.
Qed.

(** [covered l x]: the trigger of [x] is in [l] with a nonce that is not older. *)
Definition covered (l : list HeapItem) (x : HeapItem) : Prop :=
  exists y, y ∈ l /\ trigger y = trigger x /\ nonce x <= nonce y.

Lemma covered_refl l x : x ∈ l -> covered l x.
Proof. intros Hx. exists x. split_and!; [done..|lia]. Qed.

Lemma covered_trans l l' x : covered l x -> (forall y, y ∈ l -> covered l' y) -> covered l' x.
Proof.
  intros (y & Hy & Ht & Hn) Hall. destruct (Hall y Hy) as (z & Hz & Ht' & Hn'). exists z. split_and!; [done|congruence|lia].
Qed.

Lemma merge_items_covers kept entries x : x ∈ kept ++ entries -> covered (merge_items kept entries) x.
Proof.
  intros Hx. destruct (newest_exists _ _ Hx) as (y & Hy & Ht & Hn). exists y. split_and!; [|done..].
  by apply merge_items_spec.
Qed.

Lemma merge_items_elem kept entries x : x ∈ merge_items kept entries -> x ∈ kept \/ x ∈ entries.
Proof. intros [Hx _]%merge_items_spec. by apply elem_of_app. Qed.

(** Merging the same entries again changes nothing. *)
Lemma merge_items_idemp kept entries :
  merge_items (merge_items kept entries) entries = merge_items kept entries.
Proof.
  apply sorted_lt_unique; [apply merge_items_spec..|]. intros x. rewrite (proj2 (merge_items_spec _ _)).
  unfold newest at 1. setoid_rewrite elem_of_app. split.
  - intros [[Hx|Hx] Hmax]; [done|].
    destruct (merge_items_covers kept entries x) as (y & Hy & Ht & Hn); [apply elem_of_app; by right|].
    specialize (Hmax y (or_introl Hy) Ht). replace x with y; [done|].
    destruct x as [tx nx], y as [ty ny]. cbn in *. f_equal; [done|lia].
  - intros Hx. split; [by left|]. apply merge_items_spec in Hx as [Hx Hmax]. intros y Hy. apply Hmax.
    apply elem_of_app. destruct Hy as [Hy|Hy]; [|by right]. by apply merge_items_elem.
Qed.

(** *** Answers of the scheduler *)

Lemma not_done_elem items dones x : x ∈ not_done items dones -> x ∈ items.
Proof.
  intros ([y d] & Hy & Hx)%list_elem_of_omap. cbn in Hx. destruct d; simplify_eq.
  by apply elem_of_zip_l in Hy.
Qed.

Lemma not_done_answer items dones i x :
  items !! i = Some x -> dones !! i = Some false -> x ∈ not_done items dones.
Proof.
  intros Hi Hd. apply list_elem_of_omap. exists (x, false). split; [|done].
  apply list_elem_of_lookup. exists i. rewrite lookup_zip_with, Hi, Hd. done.
Qed.

Lemma not_done_length items dones : (length (not_done items dones) <= length items)%nat.
Proof.
  unfold not_done. revert dones. induction items as [|x items IH]; intros [|[] dones]; cbn; [lia..| |];
    specialize (IH dones); lia.
Qed.

Lemma not_done_all items dones : length (not_done items dones) = length items -> not_done items dones = items.
Proof.
  unfold not_done. revert dones. induction items as [|x items IH]; intros [|[] dones]; cbn; [done..| |].
  - intros H. pose proof (not_done_length items dones) as Hl. unfold not_done in Hl. lia.
  - intros [= H]. f_equal. by apply IH.
Qed.

(** ** Reading back what was written *)

(** A file that was written is read in batches whose columns are those written. *)
Class HeapParquetLaws (HP : HeapParquet) : Prop := {
  parquet_roundtrip : forall cols b, write_parquet cols = Some b -> NoDup cols.*1 ->
    (forall c c', c ∈ cols -> c' ∈ cols -> length c.2 = length c'.2) ->
    exists batches, open_parquet b = Some (Some <$> batches) /\
      forall name col, (name, col) ∈ cols -> exists parts, concat parts = col /\
        Forall2 (fun bt part => column_by_name bt name = Some (StringArray (Some <$> part)) /\
                                hb_num_rows bt = length part) batches parts;
}.

Class ChronoLaws (CH : Chrono) : Prop := {
  trunc_aligned : forall d b, duration_trunc d = Some b -> second b = 0 /\ nanosecond b = 0;
  (** A formatted date starts with a digit or a sign and ends with a [Z]. *)
  format_shape : forall d, exists c s,
    format_utc d = String c s +:+ "Z" /\ c <> Ascii.ascii_of_nat 47;
}.

Section Buckets.
Context {UU : Uuids} {UL : UuidLaws UU} {HP : HeapParquet} {HL : HeapParquetLaws HP}.

Definition p_string (x : HeapItem) : string := uuid_to_string (partitioning (trigger x)).
Definition s_string (x : HeapItem) : string := uuid_to_string (scheduling (trigger x)).
Definition n_string (x : HeapItem) : string := uuid_to_string (nonce x).

Lemma parse_row_ok i x : parse_row i (Some (p_string x)) (Some (s_string x)) (Some (n_string x)) = Ok x.
Proof. unfold parse_row, p_string, s_string, n_string. rewrite !uuid_roundtrip. by destruct x as [[]]. Qed.

Lemma parse_rows_ok rest done acc :
  let rows := done ++ rest in
  parse_rows (length done) (length rest) (Some <$> (p_string <$> rows)) (Some <$> (s_string <$> rows))
    (Some <$> (n_string <$> rows)) acc [] = (acc ++ rest, []).
Proof.
  revert done acc. induction rest as [|x rest IH]; intros done acc rows; cbn [parse_rows length].
  { by rewrite app_nil_r. }
  assert (rows !! length done = Some x) as Hx.
  { unfold rows. by rewrite lookup_app_r, Nat.sub_diag. }
  rewrite !list_lookup_fmap, Hx.
  change (parse_row _ _ _ _) with (parse_row (length done) (Some (p_string x)) (Some (s_string x)) (Some (n_string x))).
  rewrite parse_row_ok.
  replace (S (length done)) with (length (done ++ [x])) by (rewrite length_app; cbn; lia).
  specialize (IH (done ++ [x]) (acc ++ [x])). cbv zeta in IH. rewrite <- !app_assoc in IH. exact IH.
Qed.

Definition has_part (name : string) (bt : HeapBatch) (part : list string) : Prop :=
  column_by_name bt name = Some (StringArray (Some <$> part)) /\ hb_num_rows bt = length part.

(** The first part of a column is the column of as many items. *)
Lemma first_part (f : HeapItem -> string) items part parts :
  concat (part :: parts) = f <$> items ->
  part = f <$> take (length part) items /\ concat parts = f <$> drop (length part) items.
Proof.
  cbn. intros H. rewrite fmap_take, fmap_drop, <- H, take_app_length, drop_app_length. done.
Qed.

Lemma load_batches_ok path batches items acc pp ps pn :
  Forall2 (has_part COLUMN_PARTITIONING_UUIDS) batches pp -> concat pp = p_string <$> items ->
  Forall2 (has_part COLUMN_SCHEDULING_UUIDS) batches ps -> concat ps = s_string <$> items ->
  Forall2 (has_part COLUMN_NONCES) batches pn -> concat pn = n_string <$> items ->
  load_batches path acc (Some <$> batches) = Ok (acc ++ items).
Proof.
  intros Hp. revert items acc ps pn.
  induction Hp as [|bt part batches pp [Hcp Hrp] Hp IH]; intros items acc ps pn Hip Hs His Hn Hin.
  { destruct items; [|done]. cbn. by rewrite app_nil_r. }
  inv Hs as [|? sp ? ps' [Hcs Hrs] Hs']. inv Hn as [|? np ? pn' [Hcn Hrn] Hn'].
  apply first_part in Hip as [Hp1 Hp2], His as [Hs1 Hs2], Hin as [Hn1 Hn2].
  rewrite <- Hrp in Hp1, Hp2. rewrite <- Hrs in Hs1, Hs2. rewrite <- Hrn in Hn1, Hn2.
  set (n := hb_num_rows bt) in *. set (chunk := take n items) in *.
  assert (n = length chunk) as Hlen by (rewrite Hrp, Hp1; apply length_fmap).
  cbn [fmap list_fmap load_batches]. unfold load_batch, get_string_column. rewrite Hcp, Hcs, Hcn, Hp1, Hs1, Hn1.
  cbn [result_bind]. fold n. rewrite Hlen at 1.
  pose proof (parse_rows_ok chunk [] acc) as H. cbn [app length] in H. rewrite H.
  rewrite bool_decide_eq_true_2 by done. cbn [result_bind].
  rewrite (IH (drop n items) _ ps' pn') by done. unfold chunk. by rewrite <- app_assoc, take_drop.
Qed.

(** What [construct_parquet] writes reads back. *)
Lemma construct_decode path items b : construct_parquet items = Ok b -> decode_bucket path b = Ok items.
Proof.
  unfold construct_parquet. destruct (write_parquet _) as [b'|] eqn:Hw; [|done]. intros [= ->].
  apply parquet_roundtrip in Hw as (batches & Ho & Hcols).
  - destruct (Hcols COLUMN_PARTITIONING_UUIDS (p_string <$> items)) as (pp & Hpp & Hp); [by left|].
    destruct (Hcols COLUMN_SCHEDULING_UUIDS (s_string <$> items)) as (ps & Hps & Hs); [rewrite !elem_of_cons; auto|].
    destruct (Hcols COLUMN_NONCES (n_string <$> items)) as (pn & Hpn & Hn); [rewrite !elem_of_cons; auto|].
    unfold decode_bucket. rewrite Ho. by eapply (load_batches_ok path batches items [] pp ps pn).
  - cbn. repeat constructor; set_solver.
  - intros c c'. rewrite !elem_of_cons, !elem_of_nil.
    intros [->|[->|[->|[]]]] [->|[->|[->|[]]]]; cbn [snd]; by rewrite !length_fmap.
Qed.
End Buckets.

(** ** Grouping by bucket *)

Lemma push_entry_new bucket item m : exists items, (bucket, items) ∈ push_entry bucket item m /\ item ∈ items.
Proof.
  induction m as [|[b items] m IH]; cbn [push_entry]; [exists [item]; split; by left|].
  destruct (Z.ltb_spec bucket b); [exists [item]; split; by left|].
  destruct (Z.eqb_spec bucket b) as [->|].
  - exists (items ++ [item]). split; [by left|]. apply elem_of_app. right. by left.
  - destruct IH as (items' & ? & ?). exists items'. split; [by right|done].
Qed.

Lemma push_entry_old bucket item m b items :
  (b, items) ∈ m -> exists items', (b, items') ∈ push_entry bucket item m /\ items ⊆ items'.
Proof.
  induction m as [|[b0 items0] m IH]; intros Hin; [by apply not_elem_of_nil in Hin|]. cbn [push_entry].
  destruct (bucket <? b0); [exists items; split; [by right|done]|].
  apply elem_of_cons in Hin as [[= -> ->]|Hin].
  - destruct (bucket =? b0); [|exists items0; split; [by left|done]]. eexists. split; [by left|]. set_solver.
  - destruct (bucket =? b0); [exists items; split; [by right|done]|].
    destruct (IH Hin) as (items' & ? & ?). exists items'. split; [by right|done].
Qed.

Lemma group_schedules_elem {CH : Chrono} schedules m g :
  group_schedules schedules m = Ok g ->
  (forall b items, (b, items) ∈ m -> exists items', (b, items') ∈ g /\ items ⊆ items') /\
  forall s, s ∈ schedules -> exists b items, compute_bucket (next_scheduled s) = Ok b /\ (b, items) ∈ g /\
    mkHeapItem (triggerable s) (schedule_nonce s) ∈ items.
Proof.
  revert m. induction schedules as [|s schedules IH]; intros m; cbn [group_schedules].
  { intros [= <-]. split; [by eauto|]. by intros s Hs%not_elem_of_nil. }
  intros (b & Hb & Hg)%result_bind_Ok. apply IH in Hg as [Hold Hnew]. split.
  - intros b0 items Hin. destruct (push_entry_old b (mkHeapItem (triggerable s) (schedule_nonce s)) m b0 items Hin)
      as (items1 & Hin1 & Hsub1). destruct (Hold _ _ Hin1) as (items2 & Hin2 & Hsub2). exists items2. split; [done|].
    set_solver.
  - intros s' [->|Hs]%elem_of_cons; [|by apply Hnew].
    destruct (push_entry_new b (mkHeapItem (triggerable s) (schedule_nonce s)) m) as (items1 & Hin1 & Hx).
    destruct (Hold _ _ Hin1) as (items2 & Hin2 & Hsub2). exists b, items2. split_and!; [done..|]. by apply Hsub2.
Qed.

(** Decoding does not fail with an error of the store. *)
Lemma decode_no_storage_error {UU : Uuids} {HP : HeapParquet} path b e :
  decode_bucket path b <> Err (StorageErr e).
Proof.
  unfold decode_bucket. destruct (open_parquet b) as [batches|]; [|done].
  generalize ([] : list HeapItem). induction batches as [|[bt|] batches IH]; intros acc; cbn [load_batches]; [done| |done].
  destruct (load_batch path acc bt) as [items|e'] eqn:Hb; cbn [result_bind]; [apply IH|].
  intros [= ->]. revert Hb. unfold load_batch, get_string_column.
  do 3 (destruct (column_by_name bt _) as [[]|]; cbn [result_bind]; try done).
  destruct (parse_rows _ _ _ _ _ _ _). by case_bool_decide.
Qed.
