(* ===== verification/HeapTasks.v ===== *)
(** * Tasks of the heap under concurrent writers

    Triples for the writes of the heap over a shared store: ETags keep telling
    contents and no task is lost; then the reads of the heap. *)

From S2P Require Import Prelude Setsum Storage Types Paths S3Heap HeapFacts.

#[local] Open Scope Z_scope.
Import Heap.

(** ** The scheduler *)

(** The scheduler: a task that it reports as done is [finished] by the end of
    the run, and one that it reports as not done was not [finished_before] it. *)
Class SchedulerLaws {OS : ObjectStore} (rely : relation Objects)
    (are_done : list (Triggerable * Uuid) -> world -> result (list bool) Error * world)
    (finished_before finished : Triggerable * Uuid -> Prop) : Prop := {
  are_done_law : forall xs w r w', are_done xs w = (r, w') ->
    rely (objects w) (objects w') /\
    match r with
    | Ok ds => length ds = length xs /\
        forall i x d, xs !! i = Some x -> ds !! i = Some d -> if (d : bool) then finished x else ~ finished_before x
    | Err _ => True
    end;
}.

Section Tasks.
Context {UU : Uuids} {HP : HeapParquet}.
Variable finished : Triggerable * Uuid -> Prop.

(** The bucket at [p] holds [x]. *)
Definition in_bucket (m : Objects) (p : string) (x : HeapItem) : Prop :=
  exists b t items, m !! p = Some (b, t) /\ decode_bucket p b = Ok items /\ x ∈ items.

(** The task [x], or a newer invocation of the same trigger, is in the bucket
    or finished. *)
Definition accounted (m : Objects) (p : string) (x : HeapItem) : Prop :=
  exists y, trigger y = trigger x /\ nonce x <= nonce y /\ (finished (trigger_and_nonce y) \/ in_bucket m p y).

(** No task is lost on the way from [m] to [m']. *)
Definition keeps : relation Objects := fun m m' => forall p x, accounted m p x -> accounted m' p x.

#[global] Instance keeps_preorder : PreOrder keeps.
Proof. split; [by intros m p x|]. intros m1 m2 m3 H1 H2 p x Hx. by apply H2, H1. Qed.

(** A write keeps the tasks when it accounts for those of the bucket it replaces. *)
Lemma keeps_write m k b t new :
  decode_bucket k b = Ok new ->
  (forall x, in_bucket m k x -> finished (trigger_and_nonce x) \/ covered new x) ->
  keeps m (<[k := (b, t)]> m).
Proof.
  intros Hd Hall p x (y & Ht & Hn & Hy). destruct (decide (p = k)) as [->|Hne].
  - destruct Hy as [Hy|Hy]; [by exists y; auto|]. destruct (Hall y Hy) as [Hf|(z & Hz & Ht' & Hn')]; [by exists y; auto|].
    exists z. split_and!; [congruence|lia|right]. exists b, t, new. by rewrite lookup_insert_eq.
  - exists y. split_and!; [done..|]. destruct Hy as [Hy|(b' & t' & items & Hl & Hrest)]; [by left|right].
    exists b', t', items. by rewrite lookup_insert_ne.
Qed.

Lemma keeps_delete m k :
  (forall x, in_bucket m k x -> finished (trigger_and_nonce x)) -> keeps m (base.delete k m).
Proof.
  intros Hall p x (y & Ht & Hn & Hy). exists y. split_and!; [done..|]. destruct Hy as [Hy|Hy]; [by left|].
  destruct (decide (p = k)) as [->|Hne]; [left; by apply Hall|right].
  destruct Hy as (b' & t' & items & Hl & Hrest). exists b', t', items. by rewrite lookup_delete_ne.
Qed.
End Tasks.

(** ** Loading a bucket *)

Section Loading.
Context {OS : ObjectStore} {rely : relation Objects} {OL : ObjectStoreLaws OS rely}.
Context {CH : Chrono} {UU : Uuids} {HP : HeapParquet}.
Variable prefix : string.

Lemma load_law bucket w r w' :
  load_bucket_or_empty prefix bucket w = (r, w') ->
  rely (objects w) (objects w') /\
  match r with
  | Ok (items, e_tag) =>
      (exists b t, objects w' !! path_for_bucket prefix bucket = Some (b, t) /\
         decode_bucket (path_for_bucket prefix bucket) b = Ok items /\ (e_tag = Some t \/ e_tag = None)) \/
      (objects w' !! path_for_bucket prefix bucket = None /\ items = [] /\ e_tag = None)
  | Err _ => True
  end.
Proof.
  unfold load_bucket_or_empty, load_bucket. destruct (minute_aligned bucket); cbn [negb]; [|by intros [= <- <-]].
  unfold bind, request. set (k := path_for_bucket prefix bucket).
  destruct (get_with_e_tag k w) as [[[b t]|e] w1] eqn:Hg; apply get_law in Hg as [Hr Hg].
  - destruct Hg as (t' & Hk & Htag). destruct (decode_bucket k b) as [items|e] eqn:Hd.
    + intros [= <- <-]. split; [done|]. left. by exists b, t'.
    + destruct e; try (by intros [= <- <-]). by apply decode_no_storage_error in Hd.
  - destruct e; intros [= <- <-]; try done. split; [done|]. by right.
Qed.

Lemma load_items bucket w r w' :
  load_bucket_or_empty prefix bucket w = (r, w') ->
  match r with
  | Ok x => forall y, y ∈ x.1 <-> in_bucket (objects w') (path_for_bucket prefix bucket) y
  | Err _ => True
  end.
Proof.
  intros [_ Hl]%load_law. destruct r as [[items e_tag]|]; [|done]. intros y. cbn [fst]. unfold in_bucket.
  destruct Hl as [(b & t & Hk & Hd & _)|(Hk & -> & _)].
  - split; [by exists b, t, items|]. intros (b0 & t0 & items0 & Hl & Hd0 & Hy). congruence.
  - rewrite elem_of_nil. split; [done|]. intros (b0 & t0 & items0 & Hl & _). congruence.
Qed.
End Loading.

Section Writing.
Context {OS : ObjectStore} {rely : relation Objects} {OL : ObjectStoreLaws OS rely}.
Context {CH : Chrono} {UU : Uuids} {UL : UuidLaws UU} {HP : HeapParquet} {HL : HeapParquetLaws HP}.
Variable are_done : list (Triggerable * Uuid) -> world -> result (list bool) Error * world.
Variables finished_before finished : Triggerable * Uuid -> Prop.
Context {SL : SchedulerLaws rely are_done finished_before finished}.
Variable content : string -> ETag -> bytes.
Context {EL : ETagLaws OS rely content}.
Variable prefix : string.
Hypothesis rely_keeps : forall m m', rely m m' -> keeps finished m m'.

(** What a computation does from a state with [P]: ETags keep telling
    contents, no task is lost, and a success establishes [Q]. *)
Definition runs {A} (P : Objects -> Prop) (c : H A) (Q : A -> Objects -> Prop) : Prop :=
  forall w r w', tagged content (objects w) -> P (objects w) -> c w = (r, w') ->
    tagged content (objects w') /\ keeps finished (objects w) (objects w') /\
    match r with Ok a => Q a (objects w') | Err _ => True end.

Definition always : Objects -> Prop := fun _ => True.

Lemma runs_ret {A} (a : A) (P : Objects -> Prop) : runs P (ret a) (fun a' m => a' = a /\ P m).
Proof. by intros w r w' Ht Hpre [= <- <-]. Qed.

Lemma runs_throw {A} e P (Q : A -> Objects -> Prop) : runs P (throw e) Q.
Proof. by intros w r w' Ht Hpre [= <- <-]. Qed.

Lemma runs_weaken {A} (P P' : Objects -> Prop) (c : H A) Q Q' :
  runs P' c Q' -> (forall m, P m -> P' m) -> (forall a m, Q' a m -> Q a m) -> runs P c Q.
Proof.
  intros Hc Hpre HQ w r w' Ht Hw Hr. apply Hc in Hr as (Ht1 & Hk1 & Hq); [|done|by apply Hpre].
  split_and!; [done..|]. destruct r; [by apply HQ|done].
Qed.

Lemma runs_always {A} P (c : H A) Q : runs always c Q -> runs P c Q.
Proof. intros Hc. by eapply runs_weaken; [exact Hc| |intros a m Hq; exact Hq]. Qed.

Lemma runs_pure {A} (phi : Prop) P (c : H A) Q : (phi -> runs P c Q) -> runs (fun m => phi /\ P m) c Q.
Proof. intros Hc w r w' Ht [Hphi Hpre]. by apply Hc. Qed.

Lemma runs_bind {A B} P (c : H A) (k : A -> H B) Q R :
  runs P c Q -> (forall a, runs (Q a) (k a) R) -> runs P (bind c k) R.
Proof.
  intros Hc Hk w r w' Ht Hpre. unfold bind. destruct (c w) as [[a|e] w1] eqn:Hw;
    apply Hc in Hw as (Ht1 & Hk1 & Hq); try done; [|by intros [= <- <-]].
  intros Hr. apply Hk in Hr as (Ht2 & Hk2 & Hr); [|done..]. split_and!; [done|by etrans|done].
Qed.

Lemma runs_retry {A} n (c : H A) Q : runs always c Q -> runs always (retry n c) Q.
Proof.
  intros Hc. induction n as [|n IH]; intros w r w' Ht Hpre; cbn [retry];
    destruct (c w) as [[a|e] w1] eqn:Hw; apply Hc in Hw as (Ht1 & Hk1 & Hq); try done.
  1,2,3: by intros [= <- <-].
  intros Hr. apply IH in Hr as (Ht2 & Hk2 & Hr); [|done..]. split_and!; [done|by etrans|done].
Qed.

(** A conditional put that accounts for every bucket it may replace. *)
Lemma runs_put k b o items :
  decode_bucket k b = Ok items ->
  (forall m, tagged content m -> put_allowed o m k ->
     forall x, in_bucket m k x -> finished (trigger_and_nonce x) \/ covered items x) ->
  runs always (request (put_bytes k b o)) (fun _ m => exists t, m !! k = Some (b, t)).
Proof.
  intros Hd Hall w r w' Ht _. unfold request. destruct (put_bytes k b o w) as [x w1] eqn:Hp. intros Hx.
  pose proof (tagged_put _ _ _ _ _ _ Hp Ht) as Ht1. apply put_law in Hp as (pre & Hr & Hp).
  assert (forall t, put_allowed o pre k -> keeps finished (objects w) (<[k := (b, t)]> pre)) as Hwrite.
  { intros t Ha. etrans; [by apply rely_keeps|]. eapply keeps_write; [done|]. apply Hall; [by eapply tagged_rely|done]. }
  destruct x as [t|e]; injection Hx as <- <-.
  - destruct Hp as (Ha & t' & Hw & _). split_and!; [done|rewrite Hw; by apply Hwrite|].
    exists t'. by rewrite Hw, lookup_insert_eq.
  - split_and!; [done| |done].
    assert (objects w1 = pre \/ put_allowed o pre k /\ exists t, objects w1 = <[k := (b, t)]> pre) as Hcases.
    { destruct e; try done. left. by destruct Hp. }
    destruct Hcases as [->|[Ha [t ->]]]; [by apply rely_keeps|by apply Hwrite].
Qed.

Lemma runs_store bucket items e_tag :
  (forall m, tagged content m -> put_allowed (store_options e_tag) m (path_for_bucket prefix bucket) ->
     forall x, in_bucket m (path_for_bucket prefix bucket) x ->
       finished (trigger_and_nonce x) \/ covered items x) ->
  runs always (store_bucket prefix bucket items e_tag) (fun _ m => exists b t,
    m !! path_for_bucket prefix bucket = Some (b, t) /\
    decode_bucket (path_for_bucket prefix bucket) b = Ok items).
Proof.
  intros Hall. unfold store_bucket. destruct (minute_aligned bucket); [|apply runs_throw].
  cbn [negb]. destruct (construct_parquet items) as [b|e] eqn:Hc; [|apply runs_throw].
  pose proof (construct_decode (path_for_bucket prefix bucket) items b Hc) as Hd.
  eapply runs_bind; [by eapply runs_retry, runs_put|]. intros t.
  eapply runs_weaken; [apply runs_ret|by intros m Hm; exact Hm|]. intros _ m [_ [t' Hq]]. eauto.
Qed.

(** The items of a loaded bucket are those of every object that a put with the
    ETag may replace. *)
Definition loaded (bucket : DateTime) (x : list HeapItem * option ETag) : Prop :=
  forall m, tagged content m -> put_allowed (store_options x.2) m (path_for_bucket prefix bucket) ->
    forall y, in_bucket m (path_for_bucket prefix bucket) y -> y ∈ x.1.

Lemma runs_load bucket :
  runs always (load_bucket_or_empty prefix bucket) (fun x m =>
    loaded bucket x /\ forall y, y ∈ x.1 <-> in_bucket m (path_for_bucket prefix bucket) y).
Proof.
  intros w r w' Ht _ Hl. pose proof (load_items _ _ _ _ _ Hl) as Hi. apply load_law in Hl as [Hr Hl].
  split_and!; [by eapply tagged_rely|by apply rely_keeps|]. destruct r as [[items e_tag]|]; [|done]. split; [|done].
  intros m Htm [Hn Hm] y (b0 & t0 & items0 & Hl0 & Hd0 & Hy). cbn [fst snd] in *.
  destruct Hl as [(b & t & Hk & Hd & [->| ->])|(_ & _ & ->)]; [|by specialize (Hn eq_refl); congruence..].
  destruct (Hm t eq_refl) as [b1 Hl1]. rewrite Hl0 in Hl1. injection Hl1 as -> ->.
  apply Htm in Hl0. apply (tagged_rely _ _ Hr Ht) in Hk. congruence.
Qed.

(** What the scheduler said of the items. *)
Definition answered (items : list HeapItem) (ds : list bool) : Prop :=
  length ds = length items /\
  forall i x d, items !! i = Some x -> ds !! i = Some d ->
    if (d : bool) then finished (trigger_and_nonce x) else ~ finished_before (trigger_and_nonce x).

Lemma runs_are_done items P :
  (forall m m', rely m m' -> P m -> P m') ->
  runs P (are_done (trigger_and_nonce <$> items)) (fun ds m => answered items ds /\ P m).
Proof.
  intros Hpre w r w' Ht Hw [Hr Hd]%are_done_law.
  split_and!; [by eapply tagged_rely|by apply rely_keeps|]. destruct r as [ds|]; [|done].
  split; [|by eapply Hpre]. destruct Hd as [Hlen Hd]. rewrite length_fmap in Hlen. split; [done|].
  intros i x d Hi. apply Hd. by rewrite list_lookup_fmap, Hi.
Qed.

(** Items that are not reported as done are kept. *)
Lemma undone_or_finished items ds x :
  answered items ds -> x ∈ items -> finished (trigger_and_nonce x) \/ x ∈ not_done items ds.
Proof.
  intros [Hlen Hds] [i Hi]%list_elem_of_lookup.
  assert (is_Some (ds !! i)) as [d Hd] by (apply lookup_lt_is_Some; rewrite Hlen; by eapply lookup_lt_Some).
  specialize (Hds i x d Hi Hd). destruct d; [by left|right]. by eapply not_done_answer.
Qed.

Lemma undone_unfinished items ds x :
  answered items ds -> x ∈ not_done items ds -> ~ finished_before (trigger_and_nonce x).
Proof.
  intros [_ Hds] ([y d] & [i Hi]%list_elem_of_lookup & Hx)%list_elem_of_omap. cbn in Hx. destruct d; simplify_eq.
  apply lookup_zip_Some in Hi as [Hy Hd]. by apply (Hds i x false).
Qed.

(** The bucket after a merge: sorted, and every entry is in it or superseded. *)
Definition merged (bucket : DateTime) (entries : list HeapItem) (m : Objects) : Prop :=
  exists b t new, m !! path_for_bucket prefix bucket = Some (b, t) /\
    decode_bucket (path_for_bucket prefix bucket) b = Ok new /\
    StronglySorted trigger_lt new /\ forall e, e ∈ entries -> covered new e.

Lemma runs_merge bucket entries :
  runs always (merge_on_s3 are_done prefix bucket entries) (fun _ => merged bucket entries).
Proof.
  apply runs_retry. unfold merge_once. eapply runs_bind; [apply runs_load|]. intros [on_s3 e_tag].
  apply runs_pure. intros Hl. apply runs_always. eapply runs_bind; [apply (runs_are_done on_s3 always); done|]. intros ds.
  apply runs_pure. intros Ha. set (new := merge_items (not_done on_s3 ds) entries).
  eapply runs_weaken; [apply (runs_store bucket new e_tag)|done|].
  - intros m Htm Hal x Hx. apply (Hl m Htm Hal) in Hx. cbn [fst] in Hx.
    destruct (undone_or_finished _ _ _ Ha Hx) as [?|Hu]; [by left|right].
    apply merge_items_covers, elem_of_app. by left.
  - intros _ m (b & t & Hb & Hd). exists b, t, new.
    split_and!; [done..|apply merge_items_spec|]. intros e He. apply merge_items_covers, elem_of_app. by right.
Qed.

(** *** Pushing *)

Lemma merged_accounted bucket entries e m :
  merged bucket entries m -> e ∈ entries -> accounted finished m (path_for_bucket prefix bucket) e.
Proof.
  intros (b & t & new & Hl & Hd & _ & Hall) He. destruct (Hall e He) as (y & Hy & Ht & Hn).
  exists y. split_and!; [done..|right]. by exists b, t, new.
Qed.

Lemma runs_merge_all g :
  runs always (merge_all are_done prefix g) (fun _ m => forall bucket entries e,
    (bucket, entries) ∈ g -> e ∈ entries -> accounted finished m (path_for_bucket prefix bucket) e).
Proof.
  induction g as [|[b es] g IH]; cbn [merge_all].
  { eapply runs_weaken; [apply runs_ret|done|]. by intros _ m _ bucket entries e ?%not_elem_of_nil. }
  intros w r w' Ht Hpre. unfold bind. destruct (merge_on_s3 _ _ b es w) as [[u|e] w1] eqn:Hm;
    apply runs_merge in Hm as (Ht1 & Hk1 & Hq); try done; [|by intros [= <- <-]].
  intros Hr. apply IH in Hr as (Ht2 & Hk2 & Hr); [|done..]. split_and!; [done|by etrans|].
  destruct r as [u'|]; [|done]. intros bucket entries e [[= -> ->]|Hin]%elem_of_cons He; [|by eapply Hr].
  apply Hk2. by eapply merged_accounted.
Qed.

(** *** Pruning *)

(** Nobody else touches the bucket. *)
Definition quiet (bucket : DateTime) : Prop :=
  forall m m', rely m m' -> m' !! path_for_bucket prefix bucket = m !! path_for_bucket prefix bucket.

(** The bucket is not old enough to be deleted. *)
Definition young (bucket : DateTime) : Prop :=
  forall w, (system_time w).1 * 1000 - bucket < MIN_AGE_FOR_DELETION.

Lemma in_bucket_lookup m m' p x : m' !! p = m !! p -> in_bucket m' p x <-> in_bucket m p x.
Proof. intros H. unfold in_bucket. by rewrite H. Qed.

(** When nobody else touches the bucket its items are [items]. *)
Definition holds (bucket : DateTime) (items : list HeapItem) (m : Objects) : Prop :=
  quiet bucket -> forall y, y ∈ items <-> in_bucket m (path_for_bucket prefix bucket) y.

Lemma holds_rely bucket items m m' : rely m m' -> holds bucket items m -> holds bucket items m'.
Proof. intros Hr Hh Hq y. by rewrite (Hh Hq), (in_bucket_lookup m m') by (by apply Hq). Qed.

Lemma tagged_delete k m : tagged content m -> tagged content (base.delete k m).
Proof. intros Ht p b t [_ Hl]%lookup_delete_Some. by apply Ht. Qed.

Lemma runs_clear bucket items :
  quiet bucket -> (forall x, x ∈ items -> finished (trigger_and_nonce x)) ->
  runs (holds bucket items) (clear_bucket prefix bucket) (fun _ => holds bucket []).
Proof.
  intros Hq Hall w r w' Ht Hh. unfold clear_bucket, request. set (k := path_for_bucket prefix bucket).
  destruct (delete k w) as [x w1] eqn:Hd. apply delete_law in Hd as (pre & Hr & Hd).
  assert (tagged content pre) as Htp by by eapply tagged_rely.
  assert (keeps finished (objects w) (base.delete k pre)) as Hdel.
  { etrans; [by apply rely_keeps|]. apply keeps_delete. intros y Hy. apply Hall.
    apply (holds_rely _ _ _ _ Hr Hh Hq). exact Hy. }
  assert (x = Ok tt /\ objects w1 = base.delete k pre \/
          (exists e, x = Err e) /\ (objects w1 = pre \/ objects w1 = base.delete k pre)) as Hcases.
  { destruct x as [[]|e]; [by left|right]. split; [by eauto|]. destruct e; try done. left. by destruct Hd. }
  destruct Hcases as [[-> Hw]|[[e ->] [Hw|Hw]]]; intros [= <- <-]; rewrite Hw;
    (split_and!; [by try apply tagged_delete|first [exact Hdel|by apply rely_keeps]|]); try done.
  intros _ y. rewrite elem_of_nil. split; [done|]. intros (b & t & its & Hl & _). by rewrite lookup_delete_eq in Hl.
Qed.

(** The branch of a bucket whose items are all done. *)
Lemma runs_delete_if_old bucket items ds (keep : list HeapItem) :
  quiet bucket \/ young bucket -> answered items ds -> not_done items ds = [] -> keep = [] ->
  runs (holds bucket items)
    (fun w => let '(t, w) := system_time w in
              if MIN_AGE_FOR_DELETION <=? t * 1000 - bucket
              then bind (clear_bucket prefix bucket) (fun _ => ret (1, 0)%nat) w
              else ret (0, 0)%nat w)
    (fun du m => (du = (1, 0)%nat /\ holds bucket keep m) \/ du = (0, 0)%nat).
Proof.
  intros Hqy Ha Hnone -> w r w' Ht Hh. destruct (system_time w) as [t w1] eqn:Hs.
  pose proof (system_time_law w) as Hr. rewrite Hs in Hr. cbn [snd] in Hr.
  pose proof (tagged_rely _ _ Hr Ht) as Ht1. pose proof (holds_rely _ _ _ _ Hr Hh) as Hh1.
  apply rely_keeps in Hr. destruct (Z.leb_spec MIN_AGE_FOR_DELETION (t * 1000 - bucket)).
  - assert (quiet bucket) as Hq.
    { destruct Hqy as [|Hy]; [done|]. specialize (Hy w). rewrite Hs in Hy. cbn [fst] in Hy. lia. }
    assert (runs (holds bucket items) (bind (clear_bucket prefix bucket) (fun _ => ret (1, 0)%nat))
              (fun du m => (du = (1, 0)%nat /\ holds bucket [] m) \/ du = (0, 0)%nat)) as Hruns.
    { eapply runs_bind.
      - apply (runs_clear bucket items Hq). intros x Hx.
        destruct (undone_or_finished _ _ _ Ha Hx) as [|Hu]; [done|]. rewrite Hnone in Hu. by apply not_elem_of_nil in Hu.
      - intros u. eapply runs_weaken; [apply runs_ret|intros m Hm; exact Hm|]. intros du m [-> Hm]. by left. }
    intros Hc. apply Hruns in Hc as (Ht2 & Hk2 & Hc); [|done..]. split_and!; [done|by etrans|done].
  - intros [= <- <-]. split_and!; [done..|by right].
Qed.

(** What pruning a bucket reports, and what it leaves behind. *)
Definition pruned (bucket : DateTime) (stats : PruneStats) (m : Objects) : Prop :=
  (buckets_deleted stats + buckets_updated stats <= 1)%nat /\
  (buckets_deleted stats = 1%nat -> items_retained stats = 0%nat) /\
  (buckets_updated stats = 1%nat -> 0 < items_pruned stats /\ 0 < items_retained stats)%nat /\
  (quiet bucket -> items_retained stats = 0%nat /\ buckets_deleted stats = 0%nat \/
     forall y, in_bucket m (path_for_bucket prefix bucket) y -> ~ finished_before (trigger_and_nonce y)).

Lemma runs_prune bucket :
  quiet bucket \/ young bucket ->
  runs always (prune_bucket are_done prefix bucket) (pruned bucket).
Proof.
  intros Hqy. apply runs_retry. unfold prune_bucket_inner. eapply runs_bind; [apply runs_load|].
  intros [entries e_tag]. apply runs_pure. intros Hl. cbn [fst].
  case_bool_decide as He.
  { eapply runs_weaken; [apply runs_ret|intros m Hm; exact Hm|]. intros stats m [-> _]. cbn. split_and!; cbn; try lia. }
  eapply runs_bind.
  { eapply runs_weaken; [apply (runs_are_done entries (holds bucket entries))|intros m Hm _; exact Hm|intros ds m Hm; exact Hm].
    intros m m'. apply holds_rely. }
  intros ds. apply runs_pure. intros Ha. rewrite (proj1 Ha), Nat.eqb_refl. cbn [negb]. set (keep := not_done entries ds).
  eapply (runs_bind _ _ _ (fun du m => (du.1 + du.2 <= 1)%nat /\ (du.1 = 1%nat -> keep = []) /\
    (du.2 = 1%nat -> length keep <> length entries /\ keep <> []) /\
    (keep = [] /\ du.1 = 0%nat \/ holds bucket keep m))).
  - case_bool_decide as Hk.
    + eapply runs_weaken; [by apply (runs_delete_if_old bucket entries ds keep)|intros m Hm; exact Hm|].
      intros du m [[-> Hh]| ->]; cbn; split_and!; auto; lia.
    + destruct (Nat.eqb_spec (length keep) (length entries)) as [Heq|Hne]; cbn [negb].
      * eapply runs_weaken; [apply runs_ret|intros m Hm; exact Hm|]. intros du m [-> Hm]. cbn.
        split_and!; [lia|done|done|]. right. subst keep. by rewrite (not_done_all entries ds Heq).
      * eapply runs_bind.
        { apply runs_always, (runs_store bucket keep e_tag). intros m Htm Hal x Hx. apply (Hl m Htm Hal) in Hx.
          destruct (undone_or_finished _ _ _ Ha Hx) as [?|Hu]; [by left|right]. by apply covered_refl. }
        intros u. eapply runs_weaken; [apply runs_ret|intros m Hm; exact Hm|].
        intros du m (-> & b & t & Hb & Hd). cbn. split_and!; [lia|done|done|]. right. intros _ y. split.
        { intros Hy. by exists b, t, keep. }
        intros (b' & t' & items' & Hb' & Hd' & Hy). congruence.
  - intros [del upd]. eapply runs_weaken; [apply runs_ret|intros m Hm; exact Hm|].
    intros stats m (-> & Hle & Hdel & Hupd & Hh). cbn in *. pose proof (not_done_length entries ds) as Hsub. fold keep in Hsub.
    split_and!; cbn; [done| | |].
    + intros Hd. by rewrite (Hdel Hd).
    + intros Hu. destruct (Hupd Hu) as [H1 H2]. destruct keep; [done|]. cbn in *. lia.
    + intros Hq. destruct Hh as [[-> ->]|Hh]; [by left|right]. intros y Hy. apply (Hh Hq) in Hy.
      by eapply undone_unfinished.
Qed.
End Writing.

(** ** Reading *)

Lemma take_due_spec limit bucket items returns res full :
  take_due limit bucket items returns = (res, full) ->
  let undone := omap (fun x => if (x.2 : bool) then None else Some x.1) items in
  exists new, res = returns ++ ((fun x => (bucket, x)) <$> new) /\ new `prefix_of` undone /\
    (full = false -> new = undone) /\ (limit = None -> full = false) /\
    (forall n, limit = Some n -> (length returns < max 1 n)%nat ->
       (length res <= max 1 n)%nat /\ (full = false -> (length res < max 1 n)%nat)).
Proof.
  revert returns. induction items as [|[x d] items IH]; intros returns; cbn [take_due].
  { intros [= <- <-]. exists []. cbn. rewrite app_nil_r. split_and!; try done. intros n _ Hn. lia. }
  cbn. destruct d; [apply IH|].
  assert (length (returns ++ [(bucket, x)]) = S (length returns)) as Hlen by (rewrite length_app; cbn; lia).
  destruct (match limit with Some n => _ | None => _ end) eqn:Hfull.
  - intros [= <- <-]. exists [x]. cbn. split_and!; [done|by apply prefix_cons, prefix_nil|done|by destruct limit|].
    intros n -> Hn. apply Nat.leb_le in Hfull. split; [lia|done].
  - intros Hr. apply IH in Hr as (new & -> & Hp & Hf & Hnone & Hlim). exists (x :: new). cbn.
    split_and!; [by rewrite <- app_assoc|by apply prefix_cons|by intros ->%Hf|done|].
    intros n -> Hn. apply (Hlim n eq_refl). apply Nat.leb_gt in Hfull. rewrite Hlen in *. lia.
Qed.

Lemma string_app_last a b c d : a +:+ String c "" = b +:+ String d "" -> c = d.
Proof.
  revert b. induction a as [|x a IH]; intros [|y b] H; cbn in H; injection H; [done| | |by intros H'%IH].
  - intros H'. by destruct b.
  - intros H'. by destruct a.
Qed.

Section Listing.
Context {CH : Chrono} {CL : ChronoLaws CH}.
Variable prefix : string.

(** A bucket's path parses to the bucket whose name parses. *)
Lemma path_roundtrip bucket :
  parse_from_rfc3339 (format_utc bucket) = Some bucket ->
  ends_with "INIT" (path_for_bucket prefix bucket) = false /\
  parse_bucket_path prefix (path_for_bucket prefix bucket) = Ok bucket.
Proof.
  intros Hp. unfold path_for_bucket, ends_with, parse_bucket_path.
  destruct (format_shape bucket) as (c & s & Hf & Hc). split.
  - destruct (strip_suffix "INIT" _) as [r|] eqn:Hs; [|done]. apply strip_suffix_Some in Hs.
    rewrite Hf, !string_app_assoc in Hs. change "INIT" with ("INI" +:+ "T") in Hs. rewrite string_app_assoc in Hs.
    by apply string_app_last in Hs.
  - rewrite strip_prefix_app. cbv zeta.
    change (trim_start_matches (Ascii.ascii_of_nat 47) ("/" +:+ format_utc bucket)) with
      (trim_start_matches (Ascii.ascii_of_nat 47) (format_utc bucket)).
    assert (trim_start_matches (Ascii.ascii_of_nat 47) (format_utc bucket) = format_utc bucket) as ->.
    { rewrite Hf. change (String c s +:+ "Z") with (String c (s +:+ "Z")). cbn [trim_start_matches]. by destruct (Ascii.eqb_spec c (Ascii.ascii_of_nat 47)). }
    destruct (String.eqb_spec (format_utc bucket) "") as [He|_]; [by rewrite Hf in He|]. by rewrite Hp.
Qed.

Lemma collect_buckets_spec paths ds :
  collect_buckets prefix paths = Ok ds ->
  (length ds <= length paths)%nat /\
  forall p d, p ∈ paths -> ends_with "INIT" p = false -> parse_bucket_path prefix p = Ok d -> d ∈ ds.
Proof.
  revert ds. induction paths as [|p paths IH]; intros ds; cbn [collect_buckets].
  { intros [= <-]. split; [done|]. by intros p d ?%not_elem_of_nil. }
  destruct (ends_with "INIT" p) eqn:Hi.
  - intros [Hl Hall]%IH. split; [cbn; lia|]. intros p' d [->|Hp]%elem_of_cons; [congruence|by apply Hall].
  - intros (d & Hd & (ds' & Hds & [= <-])%result_bind_Ok)%result_bind_Ok. apply IH in Hds as [Hl Hall].
    split; [cbn; lia|]. intros p' d' [->|Hp]%elem_of_cons Hi' Hd'; [|right; by eapply Hall].
    replace d' with d by congruence. by left.
Qed.
End Listing.

Section Peeking.
Context {OS : ObjectStore} {rely : relation Objects} {OL : ObjectStoreLaws OS rely}.
Context {CH : Chrono} {CL : ChronoLaws CH} {UU : Uuids} {HP : HeapParquet}.
Variable are_done : list (Triggerable * Uuid) -> world -> result (list bool) Error * world.
Variables finished_before finished : Triggerable * Uuid -> Prop.
Context {SL : SchedulerLaws rely are_done finished_before finished}.
Variable prefix : string.
Variable should_return : Triggerable -> DateTime -> bool.
Variable limits : Limits.

(** [x] was in the bucket at some moment between [m0] and [m1]. *)
Definition seen (m0 m1 : Objects) (bucket : DateTime) (x : HeapItem) : Prop :=
  exists m, rely m0 m /\ rely m m1 /\ in_bucket m (path_for_bucket prefix bucket) x.

(** [x] was in the bucket at every moment between [m0] and [m1]. *)
Definition stays (m0 m1 : Objects) (bucket : DateTime) (x : HeapItem) : Prop :=
  forall m, rely m0 m -> rely m m1 -> in_bucket m (path_for_bucket prefix bucket) x.

(** An item that may be returned from between [m0] and [m1]. *)
Definition due (m0 m1 : Objects) (bucket : DateTime) (x : HeapItem) : Prop :=
  should_return (trigger x) bucket = true /\ past_cut_off limits bucket = false /\
  ~ finished_before (trigger_and_nonce x) /\ seen m0 m1 bucket x.

Lemma due_mono m0 m0' m1 m1' bucket x :
  rely m0' m0 -> rely m1 m1' -> due m0 m1 bucket x -> due m0' m1' bucket x.
Proof.
  intros H0 H1 (? & ? & ? & m & Hm0 & Hm1 & Hin). split_and!; [done..|]. exists m. split_and!; [by etrans|by etrans|done].
Qed.

(** The items of one bucket that are due. *)
Lemma bucket_due bucket w entries e_tag w1 ds w2 :
  past_cut_off limits bucket = false ->
  load_bucket_or_empty prefix bucket w = (Ok (entries, e_tag), w1) ->
  let candidates := List.filter (fun x => should_return (trigger x) bucket) entries in
  are_done (trigger_and_nonce <$> candidates) w1 = (Ok ds, w2) ->
  rely (objects w) (objects w2) /\
  (forall x, x ∈ not_done candidates ds -> due (objects w) (objects w2) bucket x) /\
  (forall x m1, rely (objects w2) m1 -> stays (objects w) m1 bucket x -> should_return (trigger x) bucket = true ->
     ~ finished (trigger_and_nonce x) -> x ∈ not_done candidates ds).
Proof.
  intros Hcut Hl candidates Hd. pose proof (load_items _ _ _ _ _ Hl) as Hi. apply load_law in Hl as [Hr1 _].
  cbn [fst] in Hi. apply are_done_law in Hd as [Hr2 [Hlen Hds]]. rewrite length_fmap in Hlen.
  assert (answered finished_before finished candidates ds) as Ha.
  { split; [done|]. intros i x d Hx. apply Hds. by rewrite list_lookup_fmap, Hx. }
  assert (forall x, x ∈ candidates <-> should_return (trigger x) bucket = true /\ x ∈ entries) as Hc.
  { intros x. subst candidates. rewrite !list_elem_of_In, filter_In. tauto. }
  split_and!; [by etrans| |].
  - intros x Hx. pose proof (undone_unfinished _ _ _ _ _ Ha Hx) as Hf.
    apply not_done_elem in Hx as [Hs Hx]%Hc. split_and!; [done..|].
    exists (objects w1). split_and!; [done..|]. by apply Hi.
  - intros x m1 Hm1 Hst Hs Hf. destruct (undone_or_finished _ _ _ _ x Ha) as [|]; [|done..].
    apply Hc. split; [done|]. apply Hi, Hst; [done|by etrans].
Qed.

Lemma peek_buckets_spec buckets returns w res w' :
  peek_buckets are_done prefix should_return limits buckets returns w = (Ok res, w') ->
  rely (objects w) (objects w') /\
  (exists new, res = returns ++ new /\
     forall b x, (b, x) ∈ new -> b ∈ buckets /\ due (objects w) (objects w') b x) /\
  (forall n, max_items limits = Some n -> (length returns < max 1 n)%nat -> (length res <= max 1 n)%nat) /\
  (max_items limits = None -> time_cut_off limits = None ->
     forall b x, b ∈ buckets -> stays (objects w) (objects w') b x -> should_return (trigger x) b = true ->
       ~ finished (trigger_and_nonce x) -> (b, x) ∈ res).
Proof.
  revert returns w. induction buckets as [|b buckets IH]; intros returns w; cbn [peek_buckets].
  { intros [= <- <-]. split_and!; [done| |by intros; lia|by intros _ _ b x ?%not_elem_of_nil].
    exists []. rewrite app_nil_r. split; [done|]. by intros b x ?%not_elem_of_nil. }
  destruct (past_cut_off limits b) eqn:Hcut.
  { intros [= <- <-]. split_and!; [done| |by intros; lia|].
    - exists []. rewrite app_nil_r. split; [done|]. by intros b' x ?%not_elem_of_nil.
    - intros _ Hn. unfold past_cut_off in Hcut. by rewrite Hn in Hcut. }
  unfold bind. destruct (load_bucket_or_empty prefix b w) as [[[entries e_tag]|e] w1] eqn:Hl; [|done].
  destruct (are_done _ w1) as [[ds|e] w2] eqn:Hd; [|done].
  destruct (bucket_due b w entries e_tag w1 ds w2 Hcut Hl Hd) as (Hr & Hdue & Hall).
  destruct (negb _); [done|]. destruct (take_due _ _ _ _) as [res1 full] eqn:Ht.
  apply take_due_spec in Ht as (new & -> & Hp & Hf & Hnone & Hlim). fold (not_done (List.filter (fun x => should_return (trigger x) b) entries) ds) in Hp, Hf.
  assert (forall b' x, (b', x) ∈ ((fun x => (b, x)) <$> new) -> b' ∈ b :: buckets /\ due (objects w) (objects w2) b' x) as Hnew.
  { intros b' x (y & [= -> ->] & Hy)%list_elem_of_fmap. split; [by left|]. apply Hdue. by eapply elem_of_prefix. }
  destruct full.
  - intros [= <- <-]. split_and!; [done|by eauto|by intros n Hn Hlt; apply (Hlim n Hn Hlt)|].
    intros Hm. by specialize (Hnone Hm).
  - intros (Hr' & (new' & -> & Hnew') & Hlim' & Hall')%IH. split_and!.
    + by etrans.
    + eexists. split; [by rewrite <- app_assoc|]. intros b' x [Hin|Hin]%elem_of_app.
      * destruct (Hnew b' x Hin). split; [done|]. by eapply due_mono; [reflexivity|exact Hr'|].
      * destruct (Hnew' b' x Hin). split; [by right|]. by eapply due_mono; [exact Hr|reflexivity|].
    + intros n Hn Hlt. apply (Hlim' n Hn). by apply (Hlim n Hn Hlt).
    + intros Hm Hc b' x [->|Hin]%elem_of_cons Hst Hs Hfin.
      * apply elem_of_app. left. apply elem_of_app. right. apply list_elem_of_fmap. exists x. split; [done|].
        rewrite (Hf eq_refl). by eapply Hall.
      * apply (Hall' Hm Hc); [done| |done..]. intros m Hm1 Hm2. apply Hst; [by etrans|done].
Qed.
End Peeking.
