(* ===== verification/BlockFacts.v ===== *)
(** * Facts about blocks

    A binary search finds what a search from the front finds, and the queries
    of a block select exactly the rows of the range. *)

From stdpp Require Import sorting.
From S2P Require Import Prelude Setsum Storage Types BTree BlockKey BlockDelta Block.

(** ** Binary search *)

Section Search.
Context {K V : Type} {KK : Key K}.
Implicit Types (l : list (CompositeKey K * V)) (f : CompositeKey K -> comparison).

(** The comparisons do not decrease from row to row. *)
Definition monotone f l : Prop :=
  forall i j x y, (i <= j)%nat -> l !! i = Some x -> l !! j = Some y ->
    (f y.1 = Lt -> f x.1 = Lt) /\ (f x.1 = Gt -> f y.1 = Gt).

(** Rows from [hi] on are too large, and the one at [base], unless it is the
    first, is not. *)
Definition between f l (base hi : nat) : Prop :=
  (base < hi)%nat /\ (hi <= length l)%nat /\
  (forall i x, (hi <= i)%nat -> l !! i = Some x -> f x.1 = Gt) /\
  (base = 0%nat \/ exists x, l !! base = Some x /\ f x.1 <> Gt).

Lemma search_loop_spec f l : monotone f l -> forall fuel base size,
  (size <= fuel)%nat -> between f l base (base + size) -> between f l (search_loop fuel f l base size) (S (search_loop fuel f l base size)).
Proof.
  intros Hm. induction fuel as [|fuel IH]; intros base size Hf Hb; cbn [search_loop].
  { destruct Hb as (H1 & _). lia. }
  destruct (Nat.leb_spec size 1) as [Hs|Hs].
  { assert (size = 1%nat) as -> by (destruct Hb as (H1 & _); lia). by rewrite Nat.add_1_r in Hb. }
  set (half := (size / 2)%nat). assert (0 < half < size)%nat as Hh.
  { subst half. split; [apply Nat.div_str_pos; lia|apply Nat.div_lt; lia]. }
  destruct Hb as (H1 & H2 & H3 & H4).
  destruct (lookup_lt_is_Some_2 l (base + half)) as [row Hrow]; [lia|]. rewrite Hrow. apply IH; [lia|].
  assert (2 * half <= size)%nat as H2h by (subst half; apply Nat.Div0.mul_div_le).
  destruct (f row.1) eqn:Hc.
  1,2: split_and!; [lia|lia|intros i x Hi; apply H3; lia|]; right; exists row; by rewrite Hc.
  split_and!; [lia|lia| |done]. intros i x Hi Hx.
  destruct (Hm (base + half)%nat i row x) as [_ Hgt]; [lia|done..|]. by apply Hgt.
Qed.

(** The number of rows before the target. *)
Definition point (b : CompositeKey K -> bool) l (n : nat) : Prop :=
  (n <= length l)%nat /\ (forall i x, l !! i = Some x -> (b x.1 = true <-> (i < n)%nat)).

Definition is_lt (c : comparison) : bool := match c with Lt => true | _ => false end.

Lemma is_lt_spec c : is_lt c = true <-> c = Lt.
Proof. by destruct c. Qed.

Lemma binary_search_spec f l :
  monotone f l ->
  match binary_search_by f l with
  | inl i => exists x, l !! i = Some x /\ f x.1 = Eq
  | inr n => point (fun k => is_lt (f k)) l n /\ forall i x, l !! i = Some x -> f x.1 <> Eq
  end.
Proof.
  intros Hm. unfold binary_search_by. destruct l as [|x0 l']; [by split; [split|]|]. set (l := x0 :: l') in *.
  set (base := search_loop (length l) f l 0 (length l)).
  assert (between f l base (S base)) as (H1 & H2 & H3 & H4).
  { apply search_loop_spec; [done|lia|]. split_and!; [cbn; lia|done|cbn; intros i x Hi Hx|by left].
    apply lookup_lt_Some in Hx. cbn in *. lia. }
  destruct (lookup_lt_is_Some_2 l base) as [row Hrow]; [lia|]. rewrite Hrow.
  assert (forall i x, (S base <= i)%nat -> l !! i = Some x -> f x.1 <> Lt /\ f x.1 <> Eq) as Habove.
  { intros i x Hi Hx. by rewrite (H3 i x Hi Hx). }
  destruct (f row.1) eqn:Hc.
  - by exists row.
  - assert (forall i x, (i <= base)%nat -> l !! i = Some x -> f x.1 = Lt) as Hbelow.
    { intros i x Hi Hx. destruct (Hm i base x row) as [Hlt _]; [done..|]. by apply Hlt. }
    split; [split; [lia|]|]; intros i x Hx; rewrite ?is_lt_spec; destruct (decide (i <= base)%nat) as [Hi|Hi].
    + rewrite (Hbelow i x) by done. split; [lia|done].
    + destruct (Habove i x) as [? _]; [lia|done|]. split; [done|lia].
    + by rewrite (Hbelow i x).
    + apply (Habove i x); [lia|done].
  - destruct H4 as [Hb0|(x & Hx & Hn)]; [|congruence]. rewrite Hb0 in *.
    assert (forall i x, l !! i = Some x -> f x.1 = Gt) as Hall.
    { intros i x Hx. destruct (Hm 0%nat i row x) as [_ Hgt]; [lia|done..|]. by apply Hgt. }
    split; [split; [lia|]|]; intros i x Hx; rewrite ?is_lt_spec, (Hall i x Hx); [split; [done|lia]|done].
Qed.

(** ** Points of sorted rows *)

(** Keys up to a point of the order. *)
Definition down (b : CompositeKey K -> bool) : Prop := forall x y, leb x y = true -> b y = true -> b x = true.

Context {KL : KeyLaws K}.

Lemma sorted_lookup l i j x y :
  bt_sorted l -> (i <= j)%nat -> l !! i = Some x -> l !! j = Some y -> leb x.1 y.1 = true.
Proof.
  intros Hs Hij Hx Hy. destruct (decide (i = j)) as [->|Hne].
  { assert (x = y) as -> by congruence. apply leb_refl. }
  apply leb_lt_or_eq. left. rewrite <- (take_drop_middle l i x Hx) in Hs, Hy.
  apply bt_sorted_app in Hs as (_ & _ & [Hf _]%StronglySorted_cons). rewrite Forall_forall in Hf. apply Hf.
  rewrite lookup_app_r in Hy by (rewrite length_take; lia). rewrite length_take in Hy.
  apply lookup_lt_Some in Hx. replace (j - i `min` length l)%nat with (S (j - S i)) in Hy by lia.
  by eapply list_elem_of_lookup_2.
Qed.

(** Rows below the point are found by a comparison that is never equal. *)
Lemma search_point (b : CompositeKey K -> bool) f l :
  bt_sorted l -> down b -> (forall k, f k = if b k then Lt else Gt) -> point b l (expect_err (binary_search_by f l)).
Proof.
  intros Hs Hb Hf. assert (monotone f l) as Hm.
  { intros i j x y Hij Hx Hy. pose proof (sorted_lookup l i j x y Hs Hij Hx Hy) as Hle. rewrite !Hf.
    pose proof (Hb _ _ Hle) as Hd. destruct (b x.1), (b y.1); split; try done; by specialize (Hd eq_refl). }
  pose proof (binary_search_spec f l Hm) as Hspec. destruct (binary_search_by f l) as [i|n].
  - destruct Hspec as (x & _ & Hx). rewrite Hf in Hx. by destruct (b x.1).
  - destruct Hspec as [[Hn Hp] _]. split; [done|]. intros i x Hx. rewrite <- (Hp i x Hx), Hf. by destruct (b x.1).
Qed.

Lemma down_ltb_prefix p : down (fun k => ltb (prefix k) p).
Proof.
  intros x y Hle%composite_le_prefix. rewrite !ltb_lt. intros Hy. by eapply le_lt_trans.
Qed.

Lemma down_leb_prefix p : down (fun k => leb (prefix k) p).
Proof. intros x y Hle%composite_le_prefix Hy. by eapply leb_trans. Qed.

Lemma down_ltb k : down (fun x => ltb x k).
Proof. intros x y Hle. rewrite !ltb_lt. intros Hy. by eapply le_lt_trans. Qed.

Lemma down_leb k : down (fun x => leb x k).
Proof. intros x y Hle Hy. by eapply leb_trans. Qed.

Lemma smallest_prefix_point p l : bt_sorted l -> point (fun k => ltb (prefix k) p) l (find_smallest_index_of_prefix p l).
Proof.
  intros Hs. apply search_point; [done|apply down_ltb_prefix|]. intros k. unfold ltb. by destruct (cmp (prefix k) p).
Qed.

Lemma next_prefix_point p l : bt_sorted l -> point (fun k => leb (prefix k) p) l (find_smallest_index_of_next_prefix p l).
Proof.
  intros Hs. apply search_point; [done|apply down_leb_prefix|]. intros k. unfold leb. by destruct (cmp (prefix k) p).
Qed.

Lemma then_key_cmp p k row : then_key p k row = cmp row (mkCompositeKey p k).
Proof.
  destruct row as [q j]. unfold then_key, cmp at 3, CompositeKey_ordered. cbn.
  destruct (String.eqb_spec q p) as [->|Hne]; [by rewrite cmp_refl|].
  destruct (cmp q p) eqn:Hc; [|done|done]. by apply cmp_eq in Hc.
Qed.

Lemma key_point p k l : bt_sorted l -> point (fun x => ltb x (mkCompositeKey p k)) l (binary_search_prefix_key p k l).
Proof.
  intros Hs. apply search_point; [done|apply down_ltb|]. intros x. rewrite then_key_cmp. unfold ltb.
  by destruct (cmp x _).
Qed.

(** The row at the point of a key is its row, if it has one. *)
Lemma next_key_point p k l :
  bt_sorted l ->
  let i := binary_search_prefix_key p k l in
  point (fun x => leb x (mkCompositeKey p k)) l (i + if match_prefix_key_at_index p k i l then 1 else 0).
Proof.
  intros Hs i. destruct (key_point p k l Hs) as [Hn Hp]. fold i in Hn, Hp.
  assert (forall x, match cmp (prefix x) p, cmp (key x) k with Eq, Eq => true | _, _ => false end = true <->
                    x = mkCompositeKey p k) as Hm.
  { intros [q j]. cbn. split; [|intros [= -> ->]; by rewrite !cmp_refl].
    destruct (cmp q p) eqn:Hq; [|done|done]. destruct (cmp j k) eqn:Hj; [|done|done].
    by apply cmp_eq in Hq as ->; apply cmp_eq in Hj as ->. }
  unfold match_prefix_key_at_index. destruct (l !! i) as [row|] eqn:Hrow.
  2: { apply lookup_ge_None in Hrow. split; [lia|]. intros j x Hx. apply lookup_lt_Some in Hx as Hj.
       rewrite Nat.add_0_r. split; [lia|]. intros Hji. apply leb_lt_or_eq. left. apply ltb_lt. by apply (Hp j). }
  apply lookup_lt_Some in Hrow as Hi. split; [destruct (match _ with Eq => _ | _ => _ end); lia|]. intros j x Hx.
  rewrite leb_lt_or_eq, <- ltb_lt, (Hp j x Hx).
  destruct (match cmp (prefix row.1) p with Eq => _ | _ => _ end) eqn:He.
  - apply Hm in He. split; [intros [?|Heq]; [lia|]|intros Hji].
    + assert (j <= i)%nat; [|lia]. destruct (decide (j <= i)%nat) as [|Hgt]; [done|].
      pose proof (sorted_lookup l (S i) j) as Hlt. destruct (lookup_lt_is_Some_2 l (S i)) as [y Hy].
      { apply lookup_lt_Some in Hx. lia. }
      specialize (Hlt y x Hs ltac:(lia) Hy Hx). rewrite Heq, <- He in Hlt.
      rewrite <- (take_drop_middle l i row Hrow) in Hs, Hy. apply bt_sorted_app in Hs as (_ & _ & [Hf _]%StronglySorted_cons).
      rewrite lookup_app_r in Hy by (rewrite length_take; lia). rewrite length_take in Hy.
      replace (S i - i `min` length l)%nat with 1%nat in Hy by lia. cbn in Hy.
      rewrite Forall_forall in Hf. apply list_elem_of_lookup_2, Hf in Hy.
      exfalso. apply (cmp_lt_irrefl row.1). by eapply lt_le_trans.
    + destruct (decide (j < i)%nat); [by left|]. right. assert (j = i) as -> by lia. congruence.
  - rewrite Nat.add_0_r. split; [intros [?|Heq]; [done|]|by left]. exfalso.
    assert (i <= j)%nat as Hij.
    { destruct (decide (j < i)%nat) as [Hji|]; [|lia]. apply (Hp j x Hx), ltb_lt in Hji. rewrite Heq in Hji.
      by apply cmp_lt_irrefl in Hji. }
    pose proof (sorted_lookup l i j row x Hs Hij Hrow Hx) as Hle. rewrite Heq, leb_lt_or_eq, <- ltb_lt, (Hp i row Hrow) in Hle.
    destruct Hle as [?|Hr]; [lia|]. apply Hm in Hr. congruence.
Qed.

(** ** Slices *)

Lemma drop_filter b l n : point b l n -> drop n l = List.filter (fun x => negb (b x.1)) l.
Proof.
  intros [_ Hp]. revert n Hp. induction l as [|x l IH]; intros n Hp; [by rewrite drop_nil|]. cbn [List.filter].
  pose proof (Hp 0%nat x eq_refl) as H0. destruct n as [|n].
  - destruct (b x.1); [destruct H0 as [H0 _]; specialize (H0 eq_refl); lia|]. cbn [drop negb]. f_equal.
    rewrite <- (IH 0%nat); [done|]. intros i y Hy. rewrite (Hp (S i) y Hy). lia.
  - rewrite (proj2 H0) by lia. cbn [drop negb]. apply IH. intros i y Hy. rewrite (Hp (S i) y Hy). lia.
Qed.

Lemma take_filter b l n : point b l n -> take n l = List.filter (fun x => b x.1) l.
Proof.
  intros [_ Hp]. revert n Hp. induction l as [|x l IH]; intros n Hp; [by rewrite take_nil|]. cbn [List.filter].
  pose proof (Hp 0%nat x eq_refl) as H0. destruct n as [|n].
  - destruct (b x.1); [destruct H0 as [H0 _]; specialize (H0 eq_refl); lia|]. cbn [take].
    rewrite <- (IH 0%nat); [done|]. intros i y Hy. rewrite (Hp (S i) y Hy). lia.
  - rewrite (proj2 H0) by lia. cbn [take]. f_equal. apply IH. intros i y Hy. rewrite (Hp (S i) y Hy). lia.
Qed.

(** The rows between two points: not below the first, and below the second. *)
Lemma slice_filter b c l s e :
  point b l s -> point c l e -> slice s e l = List.filter (fun x => negb (b x.1) && c x.1) l.
Proof.
  intros Hb Hc. unfold slice. rewrite take_drop_commute. destruct (decide (s <= e)%nat) as [Hle|Hgt].
  - replace (s + (e - s))%nat with e by lia. rewrite (take_filter c l e Hc).
    assert (point b (List.filter (fun x => c x.1) l) s) as Hbc.
    { rewrite <- (take_filter c l e Hc). destruct Hb as [Hn Hp], Hc as [Hn' _]. split; [rewrite length_take; lia|].
      intros i x [Hx _]%lookup_take_Some. by apply Hp. }
    rewrite (drop_filter b _ s Hbc). clear. induction l as [|x l IH]; cbn; [done|].
    destruct (c x.1) eqn:Hc; cbn; rewrite ?andb_true_r, ?andb_false_r; [by destruct (negb (b x.1)); [f_equal|]|done].
  - replace (s + (e - s))%nat with s by lia. rewrite drop_ge by (rewrite length_take; lia).
    destruct Hb as [_ Hb], Hc as [_ Hc]. symmetry.
    assert (Forall (fun x => negb (b x.1) && c x.1 = false) l) as Hall.
    { apply Forall_lookup. intros i x Hx. specialize (Hb i x Hx). specialize (Hc i x Hx).
      destruct (b x.1), (c x.1); cbn; try done. destruct Hc as [Hc _]. specialize (Hc eq_refl).
      destruct Hb as [_ Hb]. specialize (Hb ltac:(lia)). done. }
    clear -Hall. induction Hall as [|x l Hx _ IH]; cbn; [done|]. by rewrite Hx.
Qed.
End Search.

(** ** Queries *)

Section Queries.
Context {K V : Type} {KK : Key K} {KL : KeyLaws K}.
Implicit Types (l : list (CompositeKey K * V)).

Lemma filter_ext_elem {A} (f g : A -> bool) (l : list A) :
  (forall x, x ∈ l -> f x = g x) -> List.filter f l = List.filter g l.
Proof.
  induction l as [|x l IH]; intros Hfg; cbn; [done|]. rewrite (Hfg x), IH by set_solver. done.
Qed.

Lemma block_get_sorted p k (b : Block K V) : bt_sorted (rows b) -> block_get p k b = bt_get (mkCompositeKey p k) (rows b).
Proof.
  intros Hs. unfold block_get. set (t := mkCompositeKey p k).
  assert (monotone (then_key p k) (rows b)) as Hm.
  { intros i j x y Hij Hx Hy. pose proof (sorted_lookup _ i j x y Hs Hij Hx Hy) as Hle. rewrite !then_key_cmp. fold t. split.
    - intros Hy'. by eapply le_lt_trans.
    - rewrite !cmp_gt. intros Hx'. by eapply lt_le_trans. }
  pose proof (binary_search_spec _ _ Hm) as Hb. destruct (binary_search_by (then_key p k) (rows b)) as [i|n].
  - destruct Hb as ([k' v] & Hx & He). rewrite then_key_cmp in He. apply cmp_eq in He. cbn in He. subst k'. rewrite Hx. cbn.
    symmetry. apply bt_get_elem; [done|]. by eapply list_elem_of_lookup_2.
  - destruct Hb as [_ Hne]. symmetry. destruct (bt_get t (rows b)) as [v|] eqn:Hg; [|done].
    apply bt_get_elem in Hg; [|done]. apply list_elem_of_lookup in Hg as [i Hi]. exfalso. apply (Hne i (t, v) Hi).
    rewrite then_key_cmp. apply cmp_refl.
Qed.

Lemma eqb_le p q : String.eqb q p = negb (ltb q p) && leb q p.
Proof.
  rewrite <- leb_ltb. apply eq_true_iff_eq. rewrite andb_true_iff, String.eqb_eq.
  split; [intros ->; by rewrite !leb_refl|]. intros [H1 H2]. by apply leb_antisym.
Qed.

Lemma block_get_prefix_sorted p (b : Block K V) :
  bt_sorted (rows b) ->
  block_get_prefix p b = (fun r => (key r.1, r.2)) <$> List.filter (fun x => String.eqb (prefix x.1) p) (rows b).
Proof.
  intros Hs. unfold block_get_prefix, block_len.
  assert (slice (find_smallest_index_of_prefix p (rows b)) (find_smallest_index_of_next_prefix p (rows b)) (rows b) =
          List.filter (fun x => String.eqb (prefix x.1) p) (rows b)) as <-.
  { rewrite (slice_filter (fun k => ltb (prefix k) p) (fun k => leb (prefix k) p));
      [|by apply smallest_prefix_point|by apply next_prefix_point].
    apply filter_ext_elem. intros x _. by rewrite eqb_le. }
  destruct (Nat.leb_spec (length (rows b)) (find_smallest_index_of_prefix p (rows b))) as [Hle|]; [|done].
  unfold slice. by rewrite drop_ge, take_nil.
Qed.

(** *** Ranges *)

Definition selects (plo phi : Bound string) (lo hi : Bound K) (k : CompositeKey K) : bool :=
  in_bounds plo phi (prefix k) && in_bounds lo hi (key k).

Lemma ltb_composite p k x : String.eqb (prefix x) p = true -> ltb x (mkCompositeKey p k) = ltb (key x) k.
Proof.
  intros Hp. unfold ltb, cmp at 1, CompositeKey_ordered. cbn. by rewrite Hp.
Qed.

Lemma leb_composite p k x : String.eqb (prefix x) p = true -> leb x (mkCompositeKey p k) = leb (key x) k.
Proof.
  intros Hp. unfold leb, cmp at 1, CompositeKey_ordered. cbn. by rewrite Hp.
Qed.

(** Keys of the prefix are the ones between its points. *)
Lemma below_prefix p k x : ltb (prefix x) p = true -> ltb x (mkCompositeKey p k) = true.
Proof. rewrite !ltb_lt, composite_lt. by left. Qed.

Lemma above_prefix p k x : leb (prefix x) p = false -> leb x (mkCompositeKey p k) = false.
Proof. intros Hf. apply not_true_iff_false. intros Hle%composite_le_prefix. cbn in Hle. congruence. Qed.

Lemma start_point lo p c l :
  bt_sorted l -> point (fun k => ltb (prefix k) p) l c ->
  exists b, point b l (start_index lo p c l) /\
    (forall x, ltb (prefix x) p = true -> b x = true) /\
    (forall x, String.eqb (prefix x) p = true -> b x = negb (match lo with Included a => leb a (key x) | Excluded a => ltb a (key x) | Unbounded => true end)).
Proof.
  intros Hs Hc. destruct lo as [k|k|]; cbn.
  - exists (fun x => ltb x (mkCompositeKey p k)). split_and!; [by apply key_point|apply below_prefix|].
    intros x Hx. by rewrite ltb_composite, leb_ltb, negb_involutive.
  - exists (fun x => leb x (mkCompositeKey p k)). split_and!; [by apply next_key_point| |].
    + intros x Hx. apply leb_lt_or_eq. left. by apply ltb_lt, below_prefix.
    + intros x Hx. by rewrite leb_composite, leb_ltb.
  - exists (fun k => ltb (prefix k) p). split_and!; [done|done|]. intros x Hx%String.eqb_eq. rewrite Hx.
    unfold ltb. by rewrite cmp_refl.
Qed.

Lemma end_point hi p n l :
  bt_sorted l -> point (fun k => leb (prefix k) p) l n ->
  exists b, point b l (end_index hi p n l) /\
    (forall x, leb (prefix x) p = false -> b x = false) /\
    (forall x, String.eqb (prefix x) p = true -> b x = match hi with Included a => leb (key x) a | Excluded a => ltb (key x) a | Unbounded => true end).
Proof.
  intros Hs Hc. destruct hi as [k|k|]; cbn.
  - exists (fun x => leb x (mkCompositeKey p k)). split_and!; [by apply next_key_point|apply above_prefix|apply leb_composite].
  - exists (fun x => ltb x (mkCompositeKey p k)). split_and!; [by apply key_point| |apply ltb_composite].
    intros x Hx%(above_prefix p k). apply not_true_iff_false. intros Hlt%ltb_lt. unfold leb in Hx. by rewrite Hlt in Hx.
  - exists (fun k => leb (prefix k) p). split_and!; [done|done|]. intros x Hx%String.eqb_eq. rewrite Hx. apply leb_refl.
Qed.

(** The rows that one round of the loop gives. *)
Lemma slice_group lo hi p c n l :
  bt_sorted l -> point (fun k => ltb (prefix k) p) l c -> point (fun k => leb (prefix k) p) l n ->
  slice (start_index lo p c l) (end_index hi p n l) l =
  List.filter (fun x => String.eqb (prefix x.1) p && in_bounds lo hi (key x.1)) l.
Proof.
  intros Hs Hc Hn. destruct (start_point lo p c l Hs Hc) as (b & Hb & Hb1 & Hb2).
  destruct (end_point hi p n l Hs Hn) as (e & He & He1 & He2). rewrite (slice_filter b e) by done.
  apply filter_ext_elem. intros x _. rewrite eqb_le. destruct (ltb (prefix x.1) p) eqn:H1; [by rewrite Hb1|].
  destruct (leb (prefix x.1) p) eqn:H2; [|by rewrite He1, andb_false_r].
  assert (String.eqb (prefix x.1) p = true) as Hx by (by rewrite eqb_le, H1, H2).
  rewrite Hb2, He2, negb_involutive by done. done.
Qed.

(** A filter splits at a point. *)
Lemma filter_split (b : CompositeKey K -> bool) (q : CompositeKey K * V -> bool) l :
  bt_sorted l -> down b ->
  List.filter q l = List.filter (fun x => b x.1 && q x) l ++ List.filter (fun x => negb (b x.1) && q x) l.
Proof.
  intros Hs Hb. induction l as [|[k v] l IH]; [done|]. apply bt_sorted_cons in Hs as [Hk Hs]. cbn. specialize (IH Hs).
  destruct (b k) eqn:Hbk; cbn; [by destruct (q (k, v)); cbn; f_equal|].
  assert (List.filter (fun x => b x.1 && q x) l = []) as Hnil.
  { clear IH Hs. induction Hk as [|x l Hx _ IH]; cbn; [done|]. rewrite IH. destruct (b x.1) eqn:Hbx; [|done].
    rewrite (Hb k x.1) in Hbk; [done| |done]. apply leb_lt_or_eq. by left. }
  rewrite Hnil in *. cbn in *. destruct (q (k, v)); by rewrite IH.
Qed.

(** The two sides of a range. *)
Definition above {A} {O : Ordered A} (lo : Bound A) (x : A) : bool := in_bounds lo Unbounded x.
Definition under {A} {O : Ordered A} (hi : Bound A) (x : A) : bool := in_bounds Unbounded hi x.

Lemma in_bounds_sides {A} {O : Ordered A} (lo hi : Bound A) x : in_bounds lo hi x = above lo x && under hi x.
Proof. unfold above, under, in_bounds. by rewrite andb_true_r. Qed.

Lemma above_up {A} {O : Ordered A} {OL : OrderedLaws A} (lo : Bound A) x y : leb x y = true -> above lo x = true -> above lo y = true.
Proof.
  unfold above, in_bounds. rewrite !andb_true_r. destruct lo as [a|a|]; [|rewrite !ltb_lt|done]; intros Hxy Ha.
  - by eapply leb_trans.
  - by eapply lt_le_trans.
Qed.

Lemma under_down {A} {O : Ordered A} {OL : OrderedLaws A} (hi : Bound A) x y : leb x y = true -> under hi y = true -> under hi x = true.
Proof.
  unfold under, in_bounds. cbn. destruct hi as [a|a|]; [|rewrite !ltb_lt|done]; intros Hxy Ha.
  - by eapply leb_trans.
  - by eapply le_lt_trans.
Qed.

Lemma point_elem b l n x : point b l n -> x ∈ l -> exists i, l !! i = Some x /\ (b x.1 = true <-> (i < n)%nat).
Proof. intros [_ Hp] [i Hi]%list_elem_of_lookup. exists i. split; [done|]. by apply Hp. Qed.

(** The cursor is at the first row of its prefix. *)
Lemma group_start (b : string -> bool) l c row :
  bt_sorted l -> point (fun k => b (prefix k)) l c -> l !! c = Some row ->
  forall x, x ∈ l -> b (prefix x.1) = ltb (prefix x.1) (prefix row.1).
Proof.
  intros Hs [Hc Hp] Hrow x [i Hi]%list_elem_of_lookup. apply eq_true_iff_eq. rewrite (Hp i x Hi). split.
  - intros Hlt. rewrite ltb_lt. pose proof (sorted_lookup l i c x row Hs ltac:(lia) Hi Hrow) as Hle%composite_le_prefix.
    apply leb_lt_or_eq in Hle as [|He]; [done|]. pose proof (Hp c row Hrow) as Hr. rewrite <- He in Hr.
    pose proof (proj2 (Hp i x Hi) Hlt) as Hb. apply Hr in Hb. lia.
  - rewrite ltb_lt. intros Hlt. destruct (decide (i < c)%nat) as [|Hge]; [done|].
    pose proof (sorted_lookup l c i row x Hs ltac:(lia) Hrow Hi) as Hle%composite_le_prefix.
    exfalso. apply (cmp_lt_irrefl (prefix x.1)). by eapply lt_le_trans.
Qed.

Lemma group_start_point (b : string -> bool) l c row :
  bt_sorted l -> point (fun k => b (prefix k)) l c -> l !! c = Some row -> point (fun k => ltb (prefix k) (prefix row.1)) l c.
Proof.
  intros Hs Hp Hrow. split; [apply Hp|]. intros i x Hx.
  rewrite <- (group_start b l c row Hs Hp Hrow) by (by eapply list_elem_of_lookup_2). by apply Hp.
Qed.

Lemma filter_none_elem {A} (f : A -> bool) (l : list A) : (forall x, x ∈ l -> f x = false) -> List.filter f l = [].
Proof. induction l as [|x l IH]; intros Hf; cbn; [done|]. rewrite (Hf x), IH by set_solver. done. Qed.

Lemma range_loop_sorted plo phi lo hi l : bt_sorted l -> forall fuel (b : string -> bool) c,
  point (fun k => b (prefix k)) l c -> (length l <= fuel + c)%nat ->
  (forall q, b q = false -> above plo q = true) ->
  range_loop fuel plo phi lo hi c l = List.filter (fun x => negb (b (prefix x.1)) && selects plo phi lo hi x.1) l.
Proof.
  intros Hs. induction fuel as [|fuel IH]; intros b c Hp Hf Hb; cbn [range_loop].
  all: destruct (l !! c) as [row|] eqn:Hrow; [apply lookup_lt_Some in Hrow as Hlt; try lia|apply lookup_ge_None in Hrow].
  1,3: symmetry; apply filter_none_elem; intros x (i & Hi & Hbi)%(point_elem _ _ _ _ Hp);
    rewrite (proj2 Hbi); [done|apply lookup_lt_Some in Hi; lia].
  set (p := prefix row.1). pose proof (group_start b l c row Hs Hp Hrow) as Hg. fold p in Hg.
  pose proof (group_start_point b l c row Hs Hp Hrow) as Hpc. fold p in Hpc.
  pose proof (Hg row (list_elem_of_lookup_2 _ _ _ Hrow)) as Hbp. fold p in Hbp. unfold ltb in Hbp. rewrite cmp_refl in Hbp.
  pose proof (next_prefix_point p l Hs) as Hn. rewrite (slice_group lo hi p c _ l) by done.
  rewrite in_bounds_sides, (Hb p Hbp). destruct (under phi p) eqn:Hu; cbn [negb andb].
  - rewrite (IH (fun q => leb q p) _ Hn).
    + rewrite (filter_split (fun k => leb (prefix k) p) (fun x => negb (b (prefix x.1)) && selects plo phi lo hi x.1) l Hs
                 (down_leb_prefix p)).
      f_equal; apply filter_ext_elem; intros x Hx; rewrite (Hg x Hx).
      * rewrite eqb_le. unfold selects. destruct (ltb (prefix x.1) p) eqn:H1; cbn; [by rewrite andb_false_r|].
        destruct (leb (prefix x.1) p) eqn:H2; cbn; [|done].
        assert (prefix x.1 = p) as ->. { apply String.eqb_eq. by rewrite eqb_le, H1, H2. }
        by rewrite (in_bounds_sides plo phi), (Hb p Hbp), Hu.
      * destruct (leb (prefix x.1) p) eqn:H2; cbn; [done|].
        assert (ltb (prefix x.1) p = false) as ->; [|done]. apply not_true_iff_false. rewrite ltb_lt. intros H1.
        unfold leb in H2. by rewrite H1 in H2.
    + destruct Hn as [_ Hn]. specialize (Hn c row Hrow). fold p in Hn. rewrite leb_refl in Hn.
      apply proj1 in Hn. specialize (Hn eq_refl). lia.
    + intros q Hq. eapply above_up; [|exact (Hb p Hbp)]. rewrite leb_ltb. apply negb_true_iff, not_true_iff_false.
      rewrite ltb_lt. intros H1. unfold leb in Hq. by rewrite H1 in Hq.
  - symmetry. apply filter_none_elem. intros x Hx. rewrite (Hg x Hx), <- leb_ltb. unfold selects. rewrite (in_bounds_sides plo phi).
    destruct (leb p (prefix x.1)) eqn:Hle; [|done]. destruct (under phi (prefix x.1)) eqn:Hx'; [|by rewrite !andb_false_r].
    by rewrite (under_down phi p _ Hle Hx') in Hu.
Qed.

Lemma cursor_point plo l :
  bt_sorted l ->
  point (fun k => negb (above plo (prefix k))) l
    (match plo with
     | Included p => find_smallest_index_of_prefix p l
     | Excluded p => find_smallest_index_of_next_prefix p l
     | Unbounded => 0%nat
     end).
Proof.
  intros Hs. unfold above, in_bounds. destruct plo as [p|p|].
  - destruct (smallest_prefix_point p l Hs) as [Hn Hp]. split; [done|]. intros i x Hx.
    by rewrite andb_true_r, leb_ltb, negb_involutive, (Hp i x Hx).
  - destruct (next_prefix_point p l Hs) as [Hn Hp]. split; [done|]. intros i x Hx.
    by rewrite andb_true_r, <- leb_ltb, (Hp i x Hx).
  - split; [lia|]. intros i x Hx. cbn. split; [done|lia].
Qed.

Lemma final_point phi l :
  bt_sorted l ->
  point (fun k => under phi (prefix k)) l
    (match phi with
     | Included p => find_smallest_index_of_next_prefix p l
     | Excluded p => find_smallest_index_of_prefix p l
     | Unbounded => length l
     end).
Proof.
  intros Hs. unfold under, in_bounds. cbn. destruct phi as [p|p|].
  - by apply next_prefix_point.
  - by apply smallest_prefix_point.
  - split; [done|]. intros i x Hx%lookup_lt_Some. done.
Qed.

Lemma block_get_range_sorted plo phi lo hi (b : Block K V) :
  bt_sorted (rows b) ->
  block_get_range plo phi lo hi b = List.filter (fun x => selects plo phi lo hi x.1) (rows b).
Proof.
  intros Hs. pose proof (cursor_point plo (rows b) Hs) as Hc.
  assert (forall fuel, (length (rows b) <= fuel)%nat ->
    range_loop fuel plo phi lo hi (match plo with Included p => find_smallest_index_of_prefix p (rows b)
      | Excluded p => find_smallest_index_of_next_prefix p (rows b) | Unbounded => 0%nat end) (rows b) =
    List.filter (fun x => selects plo phi lo hi x.1) (rows b)) as Hl.
  { intros fuel Hf. rewrite (range_loop_sorted plo phi lo hi (rows b) Hs fuel (fun q => negb (above plo q)) _ Hc); [|lia|].
    - apply filter_ext_elem. intros x _. unfold selects. rewrite negb_involutive, (in_bounds_sides plo phi).
      by destruct (above plo (prefix x.1)).
    - intros q. by rewrite negb_false_iff. }
  unfold block_get_range. destruct lo as [k|k|]; [by apply Hl..|]. destruct hi as [k|k|]; [by apply Hl..|].
  unfold block_len. cbv zeta. rewrite (slice_filter _ _ _ _ _ Hc (final_point phi (rows b) Hs)). apply filter_ext_elem. intros x _.
  unfold selects. by rewrite negb_involutive, <- in_bounds_sides, andb_true_r.
Qed.
End Queries.
