(* ===== verification/DeltaFacts.v ===== *)
(** * Facts about block deltas

    A delta is the map of its rows with their sizes, and a split cuts the map in
    pieces that are not empty.  A row that crosses half of the limit ends up in
    the lower piece, and one larger than a block cannot be split off. *)

From S2P Require Import Prelude Setsum Storage Types BTree BlockKey BlockDelta Block.

#[local] Open Scope Z_scope.

(** ** Sums over maps *)

Section Sums.
Context {A V : Type} {O : Ordered A} {OL : OrderedLaws A} (f : A -> V -> Z).

Definition bt_sum (m : btree A V) : Z := foldr (fun x acc => f x.1 x.2 + acc) 0 m.

Lemma bt_sum_app m1 m2 : bt_sum (m1 ++ m2) = bt_sum m1 + bt_sum m2.
Proof. unfold bt_sum. induction m1 as [|x m1 IH]; cbn in *; [done|]. lia. Qed.

Lemma bt_sum_insert k v m : bt_get k m = None -> bt_sum (bt_insert k v m) = bt_sum m + f k v.
Proof.
  unfold bt_sum. induction m as [|[k' v'] m IH]; cbn; [lia|]. destruct (cmp k k'); [done|cbn; lia|].
  intros Hg%IH. cbn in *. lia.
Qed.

Lemma bt_sum_remove k v m : bt_get k m = Some v -> bt_sum (bt_remove k m) = bt_sum m - f k v.
Proof.
  unfold bt_sum. induction m as [|[k' v'] m IH]; cbn; [done|]. destruct (cmp k k') eqn:Hc; [|done|].
  - apply cmp_eq in Hc as ->. intros [= ->]. lia.
  - intros Hg%IH. cbn in *. lia.
Qed.
End Sums.
Arguments bt_sum {A V} f m : simpl never.

Section Facts.
Context {K V : Type} {KK : Key K} {VV : Value V} {KL : KeyLaws K} {VL : ValueLaws V}.
Implicit Types (s : SingleColumnStorage K V) (d : BlockDelta K V).

(** ** Sizes *)

(** The sizes that a tracker keeps are those of the rows. *)
Definition tracks (t : SizeTracker) (m : btree (CompositeKey K) V) : Prop :=
  prefix_size t = bt_sum (fun k _ => prefix_len k) m /\
  key_size t = bt_sum (fun k _ => key_len k) m /\
  column_size t = bt_sum (fun _ v => value_size v) m.

Definition storage_ok s : Prop := bt_sorted (storage s) /\ tracks (size_tracker s) (storage s).

(** The size of rows as a record batch. *)
Definition rows_size (m : btree (CompositeKey K) V) : Z :=
  let n := Z.of_nat (length m) in
  round64 (bt_sum (fun k _ => prefix_len k) m) + round64 (bt_sum (fun k _ => key_len k) m) +
  round64 (bt_sum (fun _ v => value_size v) m) + round64 ((n + 1) * 4) + key_offset_size (K := K) n +
  value_offset_size (V := V) n + value_validity_size (V := V) n.

(** The same with offsets for every value type, as [split] computes it. *)
Definition split_rows_size (m : btree (CompositeKey K) V) : Z :=
  let n := Z.of_nat (length m) in
  round64 (bt_sum (fun k _ => prefix_len k) m) + round64 (bt_sum (fun k _ => key_len k) m) +
  round64 (bt_sum (fun _ v => value_size v) m) + round64 ((n + 1) * 4) + key_offset_size (K := K) n +
  round64 ((n + 1) * 4) + value_validity_size (V := V) n.

Lemma rows_size_le m : rows_size m <= split_rows_size m.
Proof. unfold rows_size, split_rows_size. pose proof (value_offset_size_le (V := V) (Z.of_nat (length m))). lia. Qed.

Lemma storage_size_rows s : storage_ok s -> storage_size s = rows_size (storage s).
Proof. intros [_ (H1 & H2 & H3)]. unfold storage_size, rows_size, storage_len. by rewrite H1, H2, H3. Qed.

(** ** Changes *)

Lemma new_ok : storage_ok SingleColumnStorage_new.
Proof. split; [constructor|done]. Qed.

Lemma storage_add_rows k v s : bt_sorted (storage s) -> storage (storage_add k v s) = bt_insert k v (storage s).
Proof. apply bt_insert_remove. Qed.

Lemma storage_delete_ok k s : storage_ok s -> storage_ok (storage_delete k s).
Proof.
  intros [Hs (H1 & H2 & H3)]. split; [by apply bt_remove_sorted|]. unfold storage_delete, tracks.
  destruct (bt_get k (storage s)) as [old|] eqn:Hg; cbn.
  - rewrite !(bt_sum_remove _ _ _ _ Hg), H1, H2, H3. done.
  - by rewrite (bt_remove_none _ _ Hg).
Qed.

Lemma storage_add_ok k v s : storage_ok s -> storage_ok (storage_add k v s).
Proof.
  intros Hok. destruct (storage_delete_ok k s Hok) as [Hs (H1 & H2 & H3)]. unfold storage_delete in *. cbn in *.
  split; [by apply bt_insert_sorted|]. unfold storage_add, tracks. cbn.
  assert (bt_get k (bt_remove k (storage s)) = None) as Hn.
  { rewrite bt_get_remove by apply Hok. by rewrite cmp_refl. }
  rewrite !(bt_sum_insert _ _ _ _ Hn), <- H1, <- H2, <- H3. done.
Qed.

(** Forking a block copies its rows. *)
Lemma fork_block_rows id (b : Block K V) :
  bt_sorted (rows b) ->
  storage (builder (fork_block id b)) = rows b /\ storage_ok (builder (fork_block id b)) /\ delta_id (fork_block id b) = id.
Proof.
  intros Hs. unfold fork_block, to_block_delta.
  assert (forall l d, bt_sorted (storage (builder d) ++ l) -> storage_ok (builder d) ->
            let d' := foldl (fun d row => delta_add row.1 row.2 d) d l in
            storage (builder d') = storage (builder d) ++ l /\ storage_ok (builder d') /\ delta_id d' = delta_id d) as Hl.
  { induction l as [|[k v] l IH]; intros d Hd Hok; cbn; [by rewrite app_nil_r|].
    assert (storage (builder (delta_add k v d)) = storage (builder d) ++ [(k, v)]) as Ha.
    { cbn. rewrite bt_insert_remove by apply Hok. apply bt_insert_last. apply Forall_forall. intros x Hx.
      apply bt_sorted_app in Hd as (Hd & _). apply (Hd x (k, v)); set_solver. }
    destruct (IH (delta_add k v d)) as (H1 & H2 & H3).
    - by rewrite Ha, <- app_assoc.
    - by apply storage_add_ok.
    - rewrite H1, Ha, <- app_assoc. done. }
  destruct (Hl (rows b) (mkDelta SingleColumnStorage_new id)) as (H1 & H2 & H3); [done|apply new_ok|done].
Qed.

(** ** Splits *)

(** Where the loop of [split] stops: the first item after which the size is
    above the target, or before it if it is the last one. *)
Lemma find_split_spec split_size : forall l n t done_,
  n = Z.of_nat (length done_) -> tracks t done_ ->
  split_size < split_rows_size (done_ ++ l) -> l <> [] ->
  exists l1 k v l2 t',
    find_split split_size n t l = Some (k, t') /\ l = l1 ++ (k, v) :: l2 /\ tracks t' (done_ ++ l1) /\
    (l1 = [] -> l2 = []) /\
    ((exists l0 x, l1 = l0 ++ [x] /\ (l0 = [] \/ split_rows_size (done_ ++ l0) <= split_size)) \/
     (l2 = [] /\ (l1 = [] \/ split_rows_size (done_ ++ l1) <= split_size))).
Proof.
  induction l as [|[k v] l IH]; intros n t done_ Hn (H1 & H2 & H3) Hbig Hne; [done|]. cbn [find_split]. clear Hne.
  set (t' := mkTracker _ _ _ _).
  assert (tracks t' (done_ ++ [(k, v)])) as Ht'.
  { subst t'. unfold tracks. rewrite !bt_sum_app. cbn. rewrite H1, H2, H3. unfold bt_sum; cbn. split_and!; lia. }
  assert (n + 1 = Z.of_nat (length (done_ ++ [(k, v)]))) as Hn' by (rewrite length_app; cbn; lia).
  assert (running_size (K := K) (V := V) (n + 1) t' = split_rows_size (done_ ++ [(k, v)])) as Hr.
  { destruct Ht' as (E1 & E2 & E3). unfold running_size, split_rows_size. by rewrite E1, E2, E3, <- Hn'. }
  rewrite Hr. destruct (Z.ltb_spec split_size (split_rows_size (done_ ++ [(k, v)]))) as [Hlt|Hle].
  - destruct l as [|[k2 v2] l].
    + exists [], k, v, [], (mkTracker (n + 1) (prefix_size t) (key_size t) (column_size t)).
      rewrite app_nil_r. split_and!; [done..|]. right. split; [done|by left].
    + exists [(k, v)], k2, v2, l, t'. split_and!; [done..|]. left. exists [], (k, v). split; [done|by left].
  - destruct l as [|x l]; [lia|]. destruct (IH (n + 1) t' (done_ ++ [(k, v)])) as (l1 & k2 & v2 & l2 & t2 & He & Hl & Ht2 & Hl1 & Hc).
    { done. } { done. } { by rewrite <- app_assoc. } { done. }
    exists ((k, v) :: l1), k2, v2, l2, t2. rewrite <- app_assoc in Ht2. cbn [app] in Ht2. split_and!; [done|by rewrite Hl|done|done|].
    destruct Hc as [(l0 & y & -> & Hc)|[-> Hc]].
    + left. exists ((k, v) :: l0), y. split; [done|]. right. destruct Hc as [->|Hc]; [done|]. by rewrite <- app_assoc in Hc.
    + right. split; [done|]. right. destruct Hc as [->|Hc]; [done|]. by rewrite <- app_assoc in Hc.
Qed.

Lemma storage_split_spec split_size s :
  storage_ok s -> split_size < rows_size (storage s) -> storage s <> [] ->
  exists k low high,
    storage_split split_size s = Some (k, low, high) /\ storage low ++ storage high = storage s /\
    storage_ok low /\ storage_ok high /\ get_min_key high = Some k /\
    (storage low = [] -> length (storage high) = 1%nat) /\
    ((exists l0 x, storage low = l0 ++ [x] /\ (l0 = [] \/ split_rows_size l0 <= split_size)) \/
     (storage low = [] \/ split_rows_size (storage low) <= split_size)).
Proof.
  intros [Hs Ht] Hbig Hne. pose proof (rows_size_le (storage s)).
  destruct (find_split_spec split_size (storage s) 0 SizeTracker_new []) as (l1 & k & v & l2 & t' & He & Hl & Ht' & Hl1 & Hc);
    [done|done|cbn; lia|done|].
  unfold storage_split. rewrite He. cbn [mbind option_bind]. rewrite Hl in Hs, Ht |- *.
  rewrite bt_split_off_middle by done. do 3 eexists. split; [reflexivity|]. cbn.
  apply bt_sorted_app in Hs as (_ & Hs1 & Hs2). destruct Ht as (T1 & T2 & T3), Ht' as (E1 & E2 & E3). cbn in E1, E2, E3.
  rewrite !bt_sum_app in T1, T2, T3. split_and!; [done|split; [done|]|split; [done|]|done| |].
  1,2: unfold tracks; cbn; rewrite T1, T2, T3, E1, E2, E3; split_and!; lia.
  - intros Hnil. by rewrite (Hl1 Hnil).
  - cbn in Hc. destruct Hc as [?|[_ ?]]; [by left|by right].
Qed.

(** An entry that fits in a block. *)
Definition fits (max : Z) (x : CompositeKey K * V) : Prop := rows_size [x] <= max.

(** How large a piece may be: the last entry may take it above half. *)
Definition bounded (max : Z) (m : btree (CompositeKey K) V) : Prop :=
  rows_size m <= max \/ exists l0 x, m = l0 ++ [x] /\ split_rows_size l0 <= max / 2.

Definition piece_ok (max : Z) (x : CompositeKey K * BlockDelta K V) : Prop :=
  get_min_key (builder x.2) = Some x.1 /\ storage_ok (builder x.2) /\ bounded max (storage (builder x.2)).

Definition piece_rows (l : list (CompositeKey K * BlockDelta K V)) : btree (CompositeKey K) V :=
  concat ((fun x => storage (builder x.2)) <$> l).

Section Split.
Variable new_v4 : nat -> Uuid.
Variable max : Z.
Hypothesis max_nonneg : 0 <= max.

(** What one round gives: neither half is empty. *)
Lemma split_round s :
  storage_ok s -> storage s <> [] -> max < rows_size (storage s) -> Forall (fits max) (storage s) ->
  exists k low high k0,
    storage_split (max / 2) s = Some (k, low, high) /\ storage low ++ storage high = storage s /\
    storage_ok low /\ storage_ok high /\ get_min_key low = Some k0 /\ get_min_key high = Some k /\
    bounded max (storage low).
Proof.
  intros Hok Hne Hbig Hf. assert (max / 2 <= max) as Hhalf by (apply Z.div_le_upper_bound; lia).
  destruct (storage_split_spec (max / 2) s) as (k & low & high & He & Happ & Hlow & Hhigh & Hk & Hone & Hc); [done|lia|done|].
  assert (Forall (fits max) (storage low)) as Hfl.
  { rewrite <- Happ in Hf. by apply Forall_app in Hf as [? _]. }
  destruct (storage low) as [|[k0 v0] low'] eqn:Hl.
  { exfalso. cbn in Happ. rewrite <- Happ in Hbig, Hf. specialize (Hone eq_refl).
    destruct (storage high) as [|x [|]]; try done. apply Forall_cons in Hf as [Hx _]. unfold fits in Hx. lia. }
  exists k, low, high, k0. unfold get_min_key in *. rewrite Hl. split_and!; try done.
  destruct Hc as [(l0 & x & Hx & [->|Hc])|[Hc|Hc]]; [|by right; exists l0, x|done|].
  - left. rewrite Hx in Hfl |- *. by apply Forall_cons in Hfl as [? _].
  - left. pose proof (rows_size_le ((k0, v0) :: low')). lia.
Qed.

Definition drawn (next next' : nat) : list Uuid := new_v4 <$> seq next (next' - next).

Lemma drawn_cons next next' : (S next <= next')%nat -> new_v4 next :: drawn (S next) next' = drawn next next'.
Proof. intros Hle. unfold drawn. by replace (next' - next)%nat with (S (next' - S next)) by lia. Qed.

Lemma split_rest_spec : forall fuel next (curr : BlockDelta K V),
  storage_ok (builder curr) -> storage (builder curr) <> [] -> max < rows_size (storage (builder curr)) ->
  Forall (fits max) (storage (builder curr)) -> (length (storage (builder curr)) <= fuel)%nat ->
  exists l next',
    split_rest new_v4 fuel max next curr = Some (l, next') /\ piece_rows l = storage (builder curr) /\
    Forall (piece_ok max) l /\ delta_id ∘ snd <$> l = delta_id curr :: drawn next next' /\ (next <= next')%nat.
Proof.
  induction fuel as [|fuel IH]; intros next curr Hok Hne Hbig Hf Hlen.
  { destruct (storage (builder curr)); [done|cbn in Hlen; lia]. }
  destruct (split_round (builder curr) Hok Hne Hbig Hf) as (k & low & high & k0 & He & Happ & Hlow & Hhigh & Hk0 & Hk & Hb).
  cbn [split_rest]. rewrite He. cbn [mbind option_bind]. rewrite Hk0. cbn [mbind option_bind].
  unfold delta_size. cbn [builder]. rewrite (storage_size_rows high Hhigh).
  destruct (Z.ltb_spec max (rows_size (storage high))) as [Hlt|Hle].
  - rewrite <- Happ in Hf, Hlen. apply Forall_app in Hf as [_ Hfh]. rewrite length_app in Hlen.
    assert (storage low <> []). { intros Hn. unfold get_min_key in Hk0. by rewrite Hn in Hk0. }
    destruct (IH (S next) (mkDelta high (new_v4 next))) as (l & next' & -> & Hr & Hp & Hi & Hn); cbn; try done.
    { intros Hn. unfold get_min_key in Hk. by rewrite Hn in Hk. }
    { destruct (storage low); [done|cbn in *; lia]. }
    cbn. do 2 eexists. split; [reflexivity|]. unfold piece_rows in *. cbn. rewrite Hr. split_and!; [done| | |lia].
    + by constructor.
    + f_equal. cbn in Hi. by rewrite <- drawn_cons, <- Hi by lia.
  - do 2 eexists. split; [reflexivity|]. unfold piece_rows. cbn. rewrite app_nil_r. split_and!; [done| | |lia].
    + constructor; [done|]. constructor; [|done]. split_and!; [done|done|by left].
    + f_equal. unfold drawn. by replace (S next - next)%nat with 1%nat by lia.
Qed.

Lemma delta_split_spec next (d : BlockDelta K V) :
  storage_ok (builder d) -> storage (builder d) <> [] -> max < delta_size d -> Forall (fits max) (storage (builder d)) ->
  exists self l next' k0,
    delta_split new_v4 max next d = Some (self, l, next') /\ delta_id self = delta_id d /\
    piece_ok max (k0, self) /\ storage (builder self) ++ piece_rows l = storage (builder d) /\ Forall (piece_ok max) l /\
    delta_id ∘ snd <$> l = drawn next next' /\ (next <= next')%nat.
Proof.
  intros Hok Hne Hbig Hf. unfold delta_size in Hbig. rewrite storage_size_rows in Hbig by done.
  destruct (split_round (builder d) Hok Hne Hbig Hf) as (k & low & high & k0 & He & Happ & Hlow & Hhigh & Hk0 & Hk & Hb).
  unfold delta_split. rewrite He. cbn [mbind option_bind]. unfold delta_size. cbn [builder].
  rewrite (storage_size_rows high Hhigh).
  destruct (Z.ltb_spec max (rows_size (storage high))) as [Hlt|Hle].
  - assert (Forall (fits max) (storage high)) as Hfh by (rewrite <- Happ in Hf; by apply Forall_app in Hf as [_ ?]).
    destruct (split_rest_spec (delta_len d) (S next) (mkDelta high (new_v4 next))) as (l & next' & -> & Hr & Hp & Hi & Hn);
      cbn; try done.
    { intros Hn. unfold get_min_key in Hk. by rewrite Hn in Hk. }
    { unfold delta_len, storage_len. rewrite <- Happ, length_app. lia. }
    cbn. do 4 eexists. split; [reflexivity|]. cbn in *. split_and!; [done..| |done| |lia].
    + by rewrite Hr.
    + by rewrite Hi, drawn_cons by lia.
  - do 4 eexists. split; [reflexivity|]. unfold piece_rows. cbn. rewrite app_nil_r. split_and!; [done..| | |lia].
    + constructor; [|done]. split_and!; [done|done|by left].
    + unfold drawn. by replace (S next - next)%nat with 1%nat by lia.
Qed.
End Split.
End Facts.

(** ** Bounds *)

(** One more row takes no more than a row of its own. *)
Class SizeLaws (K V : Type) {KK : Key K} {VV : Value V} : Prop := {
  key_offset_succ : forall n, 0 <= n -> key_offset_size (K := K) (n + 1) <= key_offset_size (K := K) n + key_offset_size (K := K) 1;
  validity_succ : forall n, 0 <= n -> value_validity_size (V := V) (n + 1) <= value_validity_size (V := V) n + value_validity_size (V := V) 1;
}.
Arguments SizeLaws K V {KK VV}.

Lemma round64_add a b : round64 (a + b) <= round64 a + round64 b.
Proof. unfold round64. Z.to_euclidean_division_equations; lia. Qed.

Lemma offsets_succ n : 0 <= n -> round64 ((n + 1 + 1) * 4) <= round64 ((n + 1) * 4) + round64 ((1 + 1) * 4).
Proof.
  intros Hn. pose proof (round64_add ((n + 1) * 4) ((1 + 1) * 4)). pose proof (round64_mono ((n + 1 + 1) * 4) ((n + 1) * 4 + (1 + 1) * 4)). lia.
Qed.

#[export] Instance str_str_sizes : SizeLaws string string.
Proof. constructor; cbn; [apply offsets_succ|lia]. Qed.

#[export] Instance u32_u32_sizes : SizeLaws u32 u32.
Proof. constructor; cbn; lia. Qed.

Section Bounds.
Context {K V : Type} {KK : Key K} {VV : Value V} {KL : KeyLaws K} {VL : ValueLaws V} {SL : SizeLaws K V}.

Lemma split_rows_size_snoc (m : btree (CompositeKey K) V) x : split_rows_size (m ++ [x]) <= split_rows_size m + split_rows_size [x].
Proof.
  unfold split_rows_size. rewrite !bt_sum_app, length_app, Nat2Z.inj_add. cbn [length]. change (Z.of_nat 1) with 1.
  pose proof (offsets_succ (Z.of_nat (length m))). pose proof (key_offset_succ (K := K) (V := V) (Z.of_nat (length m))).
  pose proof (validity_succ (K := K) (V := V) (Z.of_nat (length m))).
  pose proof (round64_add (bt_sum (fun k _ => prefix_len k) m) (bt_sum (fun k _ => prefix_len k) [x])).
  pose proof (round64_add (bt_sum (fun k _ => key_len k) m) (bt_sum (fun k _ => key_len k) [x])).
  pose proof (round64_add (bt_sum (fun _ v => value_size v) m) (bt_sum (fun _ v => value_size v) [x])).
  lia.
Qed.

(** Pieces of entries that take at most half a block are not too large. *)
Lemma bounded_size max (m : btree (CompositeKey K) V) :
  bounded max m -> Forall (fun x => split_rows_size [x] <= max / 2) m -> rows_size m <= max.
Proof.
  intros [Hb|(l0 & x & -> & Hl0)] Hf; [done|]. apply Forall_app in Hf as [_ [Hx _]%Forall_cons].
  pose proof (split_rows_size_snoc l0 x). pose proof (rows_size_le (l0 ++ [x])).
  pose proof (Z.mul_div_le max 2). lia.
Qed.
End Bounds.

(** ** Entries larger than half a block *)

(** More rows take no less than fewer do. *)
Class SizeMono (K V : Type) {KK : Key K} {VV : Value V} : Prop := {
  key_offset_mono : forall n m, 0 <= n <= m -> key_offset_size (K := K) n <= key_offset_size (K := K) m;
  value_offset_mono : forall n m, 0 <= n <= m -> value_offset_size (V := V) n <= value_offset_size (V := V) m;
  validity_mono : forall n m, 0 <= n <= m -> value_validity_size (V := V) n <= value_validity_size (V := V) m;
}.
Arguments SizeMono K V {KK VV}.

#[export] Instance str_str_mono : SizeMono string string.
Proof. constructor; cbn; intros n m Hnm; [apply round64_mono; lia..|lia]. Qed.

#[export] Instance u32_u32_mono : SizeMono u32 u32.
Proof. constructor; cbn; intros; lia. Qed.

Section Oversize.
Context {K V : Type} {KK : Key K} {VV : Value V} {KL : KeyLaws K} {VL : ValueLaws V}.
Implicit Types (m : btree (CompositeKey K) V) (s : SingleColumnStorage K V).

Lemma bt_sum_nonneg {W} (f : CompositeKey K -> W -> Z) (m : btree (CompositeKey K) W) : (forall k v, 0 <= f k v) -> 0 <= bt_sum f m.
Proof. intros Hf. unfold bt_sum. induction m as [|[k v] m IH]; cbn; [lia|]. specialize (Hf k v). lia. Qed.

Lemma rows_size_suffix `{SM : !SizeMono K V} m1 m2 : rows_size m2 <= rows_size (m1 ++ m2).
Proof.
  unfold rows_size. rewrite !bt_sum_app, length_app, Nat2Z.inj_add.
  pose proof (bt_sum_nonneg (fun k _ => prefix_len k) m1 ltac:(intros; unfold prefix_len; lia)).
  pose proof (bt_sum_nonneg (fun k _ => key_len k) m1 ltac:(intros k v; unfold key_len; destruct (into_wrapper (key k)); cbn; lia)).
  pose proof (bt_sum_nonneg (fun (_ : CompositeKey K) (v : V) => value_size v) m1 ltac:(intros c v0; exact (value_size_nonneg v0))).
  pose proof (key_offset_mono (K := K) (V := V) (Z.of_nat (length m2)) (Z.of_nat (length m1) + Z.of_nat (length m2)) ltac:(lia)).
  pose proof (value_offset_mono (K := K) (V := V) (Z.of_nat (length m2)) (Z.of_nat (length m1) + Z.of_nat (length m2)) ltac:(lia)).
  pose proof (validity_mono (K := K) (V := V) (Z.of_nat (length m2)) (Z.of_nat (length m1) + Z.of_nat (length m2)) ltac:(lia)).
  set (n1 := Z.of_nat (length m1)) in *. set (n2 := Z.of_nat (length m2)) in *.
  pose proof (round64_mono ((n2 + 1) * 4) ((n1 + n2 + 1) * 4) ltac:(lia)).
  repeat match goal with
         | Hf : 0 <= bt_sum ?f m1 |- _ => pose proof (round64_mono (bt_sum f m2) (bt_sum f m1 + bt_sum f m2) ltac:(lia)); clear Hf
         end.
  lia.
Qed.

(** [x] is the first row after which the size is above half. *)
Definition crosses (half : Z) (l0 : btree (CompositeKey K) V) (x : CompositeKey K * V) : Prop :=
  (forall l1 l2, l0 = l1 ++ l2 -> l1 <> [] -> split_rows_size l1 <= half) /\ half < split_rows_size (l0 ++ [x]).

(** The loop of [split] stops at the row that crosses half: the split is
    after it, or before it when it is the last one, although it was counted. *)
Lemma find_split_crossing half x l : forall l0 n t done_,
  n = Z.of_nat (length done_) -> tracks t done_ ->
  (forall l1 l2, l0 = l1 ++ l2 -> l1 <> [] -> split_rows_size (done_ ++ l1) <= half) ->
  half < split_rows_size (done_ ++ l0 ++ [x]) ->
  exists t', find_split half n t (l0 ++ x :: l) = Some (match l with [] => x.1 | y :: _ => y.1 end, t') /\
    num_items t' = Z.of_nat (length (done_ ++ l0 ++ [x])).
Proof.
  induction l0 as [|[k v] l0 IH]; intros n t done_ Hn Ht Hsmall Hbig.
  all: assert (forall k v, tracks (mkTracker (n + 1) (prefix_size t + prefix_len k) (key_size t + key_len k) (column_size t + value_size v)) (done_ ++ [(k, v)])) as Htr
    by (intros k' v'; destruct Ht as (H1 & H2 & H3); unfold tracks; rewrite !bt_sum_app; cbn; rewrite H1, H2, H3; unfold bt_sum; cbn; split_and!; lia).
  all: assert (forall k v, running_size (K := K) (V := V) (n + 1) (mkTracker (n + 1) (prefix_size t + prefix_len k) (key_size t + key_len k) (column_size t + value_size v))
      = split_rows_size (done_ ++ [(k, v)])) as Hrun
    by (intros k' v'; destruct (Htr k' v') as (E1 & E2 & E3); unfold running_size, split_rows_size; rewrite E1, E2, E3, length_app; cbn [length]; replace (Z.of_nat (length done_ + 1)) with (n + 1) by lia; done).
  - destruct x as [k v]. cbn [app find_split] in *. rewrite Hrun. destruct (Z.ltb_spec half (split_rows_size (done_ ++ [(k, v)]))); [|lia].
    assert (n + 1 = Z.of_nat (length (done_ ++ [(k, v)]))) as Hlen by (rewrite length_app; cbn; lia).
    destruct l as [|[k2 v2] l]; eexists; (split; [reflexivity|done]).
  - cbn [app find_split]. rewrite Hrun. pose proof (Hsmall [(k, v)] l0 eq_refl ltac:(done)).
    destruct (Z.ltb_spec half (split_rows_size (done_ ++ [(k, v)]))); [lia|].
    destruct (IH (n + 1) (mkTracker (n + 1) (prefix_size t + prefix_len k) (key_size t + key_len k) (column_size t + value_size v)) (done_ ++ [(k, v)]))
      as (t' & He & Hi).
    + rewrite length_app. cbn. lia.
    + apply Htr.
    + intros l1 l2 -> Hne. rewrite <- app_assoc. by apply (Hsmall ((k, v) :: l1) l2).
    + by rewrite <- app_assoc.
    + exists t'. split; [done|]. by rewrite <- app_assoc in Hi.
Qed.

Lemma storage_split_crossing half s l0 x l :
  bt_sorted (storage s) -> storage s = l0 ++ x :: l -> crosses half l0 x ->
  exists k low high, storage_split half s = Some (k, low, high) /\
    match l with
    | [] => k = x.1 /\ storage low = l0 /\ storage high = [x] /\
            num_items (size_tracker high) = wrap (num_items (size_tracker s) - Z.of_nat (length (storage s)))
    | _ => storage low = l0 ++ [x] /\ storage high = l
    end.
Proof.
  intros Hs Hl [Hsmall Hbig]. destruct (find_split_crossing half x l l0 0 SizeTracker_new []) as (t' & He & Hi); [done..|].
  unfold storage_split. rewrite Hl in Hs |- *. rewrite He. cbn [mbind option_bind]. destruct l as [|[k v] l].
  - destruct x as [k v]. rewrite bt_split_off_middle by done. do 3 eexists. split; [reflexivity|]. cbn. by rewrite Hi.
  - replace (l0 ++ x :: (k, v) :: l) with ((l0 ++ [x]) ++ (k, v) :: l) in * by by rewrite <- app_assoc.
    rewrite bt_split_off_middle by done. do 3 eexists. split; [reflexivity|]. done.
Qed.

Section Splits.
Variable new_v4 : nat -> Uuid.

(** An entry that is larger than a block and the last of its block is split
    off until nothing is left before it. *)
Lemma split_rest_last `{SM : !SizeMono K V} max x : 0 <= max -> max < rows_size [x] ->
  forall fuel next (curr : BlockDelta K V) m,
  storage_ok (builder curr) -> storage (builder curr) = m ++ [x] -> split_rest new_v4 fuel max next curr = None.
Proof.
  intros H0 Hbig. induction fuel as [|fuel IH]; intros next curr m Hok Hm; [done|]. cbn [split_rest].
  assert (max / 2 <= max) as Hhalf by (apply Z.div_le_upper_bound; lia). pose proof (rows_size_suffix m [x]) as Hsuf.
  destruct (storage_split_spec (max / 2) (builder curr)) as (k & low & high & He & Happ & Hlow & Hhigh & Hk & _);
    [done|rewrite Hm; lia|rewrite Hm; by destruct m|].
  rewrite He. cbn [mbind option_bind]. destruct (get_min_key low); [|done]. cbn [mbind option_bind].
  assert (exists m', storage high = m' ++ [x]) as [m' Hm'].
  { unfold get_min_key in Hk. destruct (storage high) as [|y h _] using rev_ind; [done|].
    rewrite Hm, app_assoc in Happ. apply app_inj_tail in Happ as [_ ->]. by exists h. }
  pose proof (rows_size_suffix m' [x]). unfold delta_size. cbn [builder]. rewrite (storage_size_rows high Hhigh), Hm'.
  destruct (Z.ltb_spec max (rows_size (m' ++ [x]))); [|lia]. by rewrite (IH _ _ m').
Qed.

Lemma delta_split_last `{SM : !SizeMono K V} max x next (d : BlockDelta K V) m :
  0 <= max -> max < rows_size [x] -> storage_ok (builder d) -> storage (builder d) = m ++ [x] -> delta_split new_v4 max next d = None.
Proof.
  intros H0 Hbig Hok Hm. unfold delta_split. assert (max / 2 <= max) as Hhalf by (apply Z.div_le_upper_bound; lia).
  pose proof (rows_size_suffix m [x]) as Hsuf.
  destruct (storage_split_spec (max / 2) (builder d)) as (k & low & high & He & Happ & Hlow & Hhigh & Hk & _);
    [done|rewrite Hm; lia|rewrite Hm; by destruct m|].
  rewrite He. cbn [mbind option_bind].
  assert (exists m', storage high = m' ++ [x]) as [m' Hm'].
  { unfold get_min_key in Hk. destruct (storage high) as [|y h _] using rev_ind; [done|].
    rewrite Hm, app_assoc in Happ. apply app_inj_tail in Happ as [_ ->]. by exists h. }
  pose proof (rows_size_suffix m' [x]). unfold delta_size. cbn [builder]. rewrite (storage_size_rows high Hhigh), Hm'.
  destruct (Z.ltb_spec max (rows_size (m' ++ [x]))); [|lia]. by rewrite (split_rest_last max x H0 Hbig _ _ _ m').
Qed.
End Splits.
End Oversize.
