(* ===== verification/IndexFacts.v ===== *)
(** * Facts about sparse indices

    The index of a writer keeps its maps in sync, and an update replaces one
    delimiter's block or puts new delimiters where they belong. *)

From S2P Require Import Prelude Setsum Storage Types BTree BlockKey SparseIndex.

#[local] Open Scope Z_scope.

Section Writer.
Context {K : Type} {KK : Key K} {KL : KeyLaws K}.
Implicit Types i : SparseIndexWriterData K.

(** The reverse map inverts the forward one, and only delimiters have counts. *)
Record index_ok i : Prop := {
  ok_sorted : bt_sorted (forward i);
  ok_start : exists id rest, forward i = (Start, id) :: rest;
  ok_reverse : forall id d, reverse i !! id = Some d <-> (d, id) ∈ forward i;
  ok_counts : bt_sorted (counts i);
  ok_counted : forall d c, bt_get d (counts i) = Some c -> d ∈ (forward i).*1;
}.

Lemma new_index_ok id : index_ok (SparseIndexWriter_new id).
Proof.
  constructor; cbn; [repeat constructor|by eauto| |constructor|done].
  intros id' d. rewrite lookup_singleton_Some, list_elem_of_singleton. naive_solver.
Qed.

(** Delimiters do not repeat, and neither do blocks. *)
Lemma middle_sorted {V} (l1 l2 : btree (SparseIndexDelimiter K) V) d v :
  bt_sorted (l1 ++ (d, v) :: l2) ->
  Forall (fun x => cmp x.1 d = Lt) l1 /\ Forall (fun x => cmp d x.1 = Lt) l2 /\ bt_sorted l1 /\ bt_sorted l2 /\
  (forall x y, x ∈ l1 -> y ∈ l2 -> cmp x.1 y.1 = Lt).
Proof.
  intros (H12 & H1 & [Hd H2]%bt_sorted_cons)%bt_sorted_app. split_and!; [|done..|].
  - apply Forall_forall. intros x Hx. apply (H12 x (d, v)); set_solver.
  - intros x y Hx Hy. apply H12; set_solver.
Qed.

Lemma index_ids_distinct i l1 l2 d id d' :
  index_ok i -> forward i = l1 ++ (d, id) :: l2 -> (d', id) ∈ l1 ++ l2 -> False.
Proof.
  intros Hok Hf Hin. assert (reverse i !! id = Some d) as Hd by (apply Hok; rewrite Hf; set_solver).
  assert (reverse i !! id = Some d') as Hd' by (apply Hok; rewrite Hf; set_solver).
  assert (d' = d) as -> by congruence. pose proof (ok_sorted i Hok) as Hs. rewrite Hf in Hs.
  destruct (middle_sorted _ _ _ _ Hs) as (H1 & H2 & _). rewrite Forall_forall in H1, H2.
  apply elem_of_app in Hin as [Hin|Hin]; [apply H1 in Hin|apply H2 in Hin]; by apply cmp_lt_irrefl in Hin.
Qed.

Lemma bt_replace_middle {V} (l1 l2 : btree (SparseIndexDelimiter K) V) d v v' :
  bt_sorted (l1 ++ (d, v) :: l2) -> bt_insert d v' (bt_remove d (l1 ++ (d, v) :: l2)) = l1 ++ (d, v') :: l2.
Proof.
  intros Hs. rewrite bt_insert_remove by done. destruct (middle_sorted _ _ _ _ Hs) as (H1 & H2 & _).
  rewrite bt_insert_after by done. cbn. by rewrite cmp_refl.
Qed.

Lemma bt_remove_middle {V} (l1 l2 : btree (SparseIndexDelimiter K) V) d v :
  bt_sorted (l1 ++ (d, v) :: l2) -> bt_remove d (l1 ++ (d, v) :: l2) = l1 ++ l2.
Proof.
  intros Hs. destruct (middle_sorted _ _ _ _ Hs) as (H1 & H2 & _).
  rewrite bt_remove_after by done. cbn. by rewrite cmp_refl.
Qed.

Lemma bt_insert_same {V} (m : btree (SparseIndexDelimiter K) V) d v : bt_sorted m -> bt_get d m = Some v -> bt_insert d v m = m.
Proof.
  intros Hs Hg. apply bt_ext; [by apply bt_insert_sorted|done|]. intros d'. rewrite bt_get_insert.
  destruct (cmp d' d) eqn:Hc; [|done|done]. apply cmp_eq in Hc as ->. done.
Qed.

Lemma replaced_sorted {V} (l1 l2 : btree (SparseIndexDelimiter K) V) d v v' :
  bt_sorted (l1 ++ (d, v) :: l2) -> bt_sorted (l1 ++ (d, v') :: l2).
Proof. intros Hs. rewrite <- (bt_replace_middle l1 l2 d v v' Hs). by apply bt_insert_sorted, bt_remove_sorted. Qed.

(** ** Updates *)

Lemma replace_block_spec i l1 l2 d old new :
  index_ok i -> forward i = l1 ++ (d, old) :: l2 -> reverse i !! new = None -> is_Some (bt_get d (counts i)) ->
  exists i', replace_block old new i = Some i' /\ forward i' = l1 ++ (d, new) :: l2 /\ counts i' = counts i /\ index_ok i'.
Proof.
  intros Hok Hf Hnew [c Hc]. pose proof (ok_sorted i Hok) as Hs. rewrite Hf in Hs.
  assert (reverse i !! old = Some d) as Hd by (apply Hok; rewrite Hf; set_solver).
  unfold replace_block. rewrite Hd, Hc, Hf. cbn. eexists. split; [reflexivity|]. cbn.
  rewrite bt_replace_middle by done. rewrite bt_insert_remove, (bt_insert_same _ _ _ (ok_counts i Hok) Hc) by apply Hok.
  split_and!; [done..|]. constructor; cbn; [by eapply replaced_sorted| | |apply Hok|].
  - destruct (ok_start i Hok) as (id & rest & Hst). rewrite Hf in Hst. destruct l1 as [|x l1]; cbn in *.
    + injection Hst as -> -> ->. by eauto.
    + injection Hst as -> Hst. by eauto.
  - intros id' d'. rewrite lookup_insert_Some, lookup_delete_Some, (ok_reverse i Hok), Hf.
    rewrite !elem_of_app, !elem_of_cons. split.
    + intros [[<- <-]|[Hne [Hne' Hin]]]; [by auto|]. destruct Hin as [?|[[=]|?]]; [by auto|done|by auto].
    + intros Hin. destruct (decide (id' = new)) as [->|Hne].
      * left. split; [done|]. destruct Hin as [Hin|[[= ->]|Hin]]; [|done|].
        all: assert (reverse i !! new = Some d') by (apply Hok; rewrite Hf; set_solver); congruence.
      * right. split; [done|]. assert (forall d0, (d0, id') ∈ l1 ++ l2 -> old <> id') as Hno.
        { intros d0 H0 ->. by eapply index_ids_distinct. }
        destruct Hin as [Hin|[[=]|Hin]]; [|done|]; (split; [apply (Hno d')|]; set_solver).
  - intros d' c' Hc'. apply (ok_counted i Hok) in Hc'. rewrite Hf in Hc'. by rewrite fmap_app in *.
Qed.

Definition delimit (x : CompositeKey K * Uuid) : SparseIndexDelimiter K * Uuid := (DelimiterKey x.1, x.2).

Lemma add_blocks_spec : forall l i l1 l2,
  index_ok i -> forward i = l1 ++ l2 -> l1 <> [] -> bt_sorted (l1 ++ (delimit <$> l) ++ l2) ->
  Forall (fun x => reverse i !! x.2 = None) l -> NoDup l.*2 ->
  exists i', add_blocks l i = (Ok tt, i') /\ forward i' = l1 ++ (delimit <$> l) ++ l2 /\ counts i' = counts i /\ index_ok i'.
Proof.
  induction l as [|[k id] l IH]; intros i l1 l2 Hok Hf Hne Hs Hfresh Hnd; cbn in *; [by eauto|].
  apply Forall_cons in Hfresh as [Hid Hfresh]. apply NoDup_cons in Hnd as [Hnid Hnd]. cbn in Hid.
  unfold add_block. rewrite bool_decide_eq_false_2 by (rewrite Hid; by intros []). rewrite Hf.
  assert (bt_insert (DelimiterKey k) id (l1 ++ l2) = (l1 ++ [(DelimiterKey k, id)]) ++ l2) as Hins.
  { change (delimit (k, id) :: (delimit <$> l) ++ l2) with ((DelimiterKey k, id) :: (delimit <$> l) ++ l2) in Hs.
    destruct (middle_sorted _ _ _ _ Hs) as (H1 & H2 & _). apply Forall_app in H2 as [_ H2].
    rewrite bt_insert_after by done. rewrite <- app_assoc. f_equal. destruct H2 as [|[k2 v2] l2' Hk _]; [done|].
    cbn in *. by rewrite Hk. }
  rewrite Hins.
  destruct (IH (mkSparseIndexWriter ((l1 ++ [(DelimiterKey k, id)]) ++ l2) (<[id:=DelimiterKey k]> (reverse i)) (counts i))
              (l1 ++ [(DelimiterKey k, id)]) l2) as (i' & He & Hf' & Hc' & Hok'); cbn; [|done|by destruct l1| | |done|].
  - constructor; cbn; [rewrite <- Hins, <- Hf; apply bt_insert_sorted, Hok| | |apply Hok|].
    + destruct (ok_start i Hok) as (id' & rest & Hst). rewrite Hf in Hst. destruct l1; [done|]. cbn in *.
      injection Hst as -> Hst. by eauto.
    + intros id' d'. rewrite lookup_insert_Some, (ok_reverse i Hok), Hf, <- app_assoc. rewrite !elem_of_app, !elem_of_cons. cbn.
      rewrite elem_of_nil. split; [naive_solver|]. intros Hin. destruct (decide (id' = id)) as [->|Hne'].
      * left. split; [done|]. destruct Hin as [Hin|[[[= ->]|[]]|Hin]]; [|done|].
        all: assert (reverse i !! id = Some d') by (apply Hok; rewrite Hf; set_solver); congruence.
      * right. split; [done|]. destruct Hin as [Hin|[[[=]|[]]|Hin]]; by auto.
    + intros d' c' Hc. apply (ok_counted i Hok) in Hc. rewrite Hf in Hc. rewrite !fmap_app in *. set_solver.
  - by rewrite <- app_assoc.
  - rewrite Forall_forall in *. intros x Hx. rewrite lookup_insert_ne; [by apply Hfresh|]. intros ->. apply Hnid.
    apply list_elem_of_fmap. by exists x.
  - exists i'. rewrite He, Hf', Hc'. by rewrite <- !app_assoc.
Qed.

Lemma set_count_spec i d id c :
  index_ok i -> (d, id) ∈ forward i ->
  exists i', set_count id c i = (Ok tt, i') /\ forward i' = forward i /\ reverse i' = reverse i /\
    counts i' = bt_insert d c (counts i) /\ index_ok i'.
Proof.
  intros Hok Hin. assert (reverse i !! id = Some d) as Hd by by apply Hok. unfold set_count. rewrite Hd.
  eexists. split_and!; [reflexivity..|]. constructor; cbn; try apply Hok; [apply bt_insert_sorted, Hok|].
  intros d' c'. rewrite bt_get_insert. destruct (cmp d' d) eqn:Hc; [|apply Hok..]. apply cmp_eq in Hc as ->. intros _.
  apply list_elem_of_fmap. by exists (d, id).
Qed.

(** The block of a key. *)
Lemma target_spec k i :
  index_ok i ->
  exists l1 d id l2, get_target_block_id k i = Some id /\ forward i = l1 ++ (d, id) :: l2 /\
    leb d (DelimiterKey k) = true /\ Forall (fun x => cmp (DelimiterKey k) x.1 = Lt) l2.
Proof.
  intros Hok. unfold get_target_block_id, get_target_block.
  destruct (bt_last_le (DelimiterKey k) (forward i)) as [[d id]|] eqn:Hl.
  - apply bt_last_le_spec in Hl as (l1 & l2 & Hf & Hd & Hn); [|apply Hok]. exists l1, d, id, l2. by rewrite Hf.
  - exfalso. apply last_None in Hl. destruct (ok_start i Hok) as (id & rest & Hf). rewrite Hf in Hl. done.
Qed.

(** ** Removing blocks *)

Definition count_of i (id : Uuid) : option Z := d ← reverse i !! id; bt_get d (counts i).

(** What a change that concerns one block leaves alone. *)
Definition others_same (id : Uuid) i i' : Prop :=
  forall id', id' <> id -> count_of i' id' = count_of i id' /\ (is_Some (reverse i' !! id') <-> is_Some (reverse i !! id')).

Lemma start_least (d : SparseIndexDelimiter K) : cmp d Start <> Lt.
Proof. by destruct d. Qed.

Lemma index_start_middle i l1 d id l2 :
  index_ok i -> forward i = l1 ++ (d, id) :: l2 ->
  (l1 = [] /\ d = Start) \/ (exists id0 l1', l1 = (Start, id0) :: l1' /\ d <> Start).
Proof.
  intros Hok Hf. destruct (ok_start i Hok) as (id0 & rest & Hst). pose proof (ok_sorted i Hok) as Hs. rewrite Hf in Hst, Hs.
  destruct l1 as [|x l1]; cbn in *.
  - injection Hst as -> -> ->. by left.
  - injection Hst as -> Hst. right. exists id0, l1. split; [done|]. intros ->.
    apply bt_sorted_cons in Hs as [Hs _]. rewrite Forall_forall in Hs.
    specialize (Hs (Start, id) ltac:(set_solver)). by apply start_least in Hs.
Qed.

Lemma bt_get_notin {V} (m : btree (SparseIndexDelimiter K) V) d : bt_sorted m -> d ∉ m.*1 -> bt_get d m = None.
Proof.
  intros Hs Hn. destruct (bt_get d m) as [v|] eqn:Hg; [|done]. apply bt_get_elem in Hg; [|done]. exfalso. apply Hn.
  apply list_elem_of_fmap. by exists (d, v).
Qed.

(** The first step: the entries of the block go. *)
Lemma removed_ok i l1 d id l2 :
  index_ok i -> forward i = l1 ++ (d, id) :: l2 ->
  let i1 := mkSparseIndexWriter (l1 ++ l2) (base.delete id (reverse i)) (bt_remove d (counts i)) in
  bt_sorted (l1 ++ l2) /\ (forall id' d', reverse i1 !! id' = Some d' <-> (d', id') ∈ l1 ++ l2) /\
  bt_sorted (counts i1) /\ (forall d' c, bt_get d' (counts i1) = Some c -> d' ∈ (l1 ++ l2).*1) /\ others_same id i i1.
Proof.
  intros Hok Hf i1. pose proof (ok_sorted i Hok) as Hs. rewrite Hf in Hs.
  destruct (middle_sorted _ _ _ _ Hs) as (S1 & S2 & S3 & S4 & S5). split_and!.
  - apply bt_sorted_app. done.
  - intros id' d'. cbn. rewrite lookup_delete_Some, (ok_reverse i Hok), Hf, !elem_of_app, elem_of_cons. split.
    + intros [Hne [?|[[=]|?]]]; [by left|done|by right].
    + intros Hin. split; [|by destruct Hin; auto]. intros ->. eapply (index_ids_distinct i l1 l2 d id' d'); [done..|].
      by rewrite elem_of_app.
  - apply bt_remove_sorted, Hok.
  - intros d' c. cbn. rewrite bt_get_remove by apply Hok. destruct (cmp d' d) eqn:Hc; [done|..].
    all: intros Hin%(ok_counted i Hok); rewrite Hf, fmap_app, fmap_cons in Hin; rewrite fmap_app.
    all: cbn in Hin; rewrite elem_of_app, elem_of_cons in Hin; rewrite elem_of_app.
    all: destruct Hin as [?|[->|?]]; [by left|by rewrite cmp_refl in Hc|by right].
  - intros id' Hne. unfold count_of. cbn. rewrite lookup_delete_ne by done. split; [|done].
    destruct (reverse i !! id') as [d'|] eqn:Hr; [cbn|done]. rewrite bt_get_remove by apply Hok.
    destruct (cmp d' d) eqn:Hc; [|done|done]. apply cmp_eq in Hc as ->. exfalso. apply Hok in Hr. rewrite Hf in Hr.
    rewrite elem_of_app, elem_of_cons in Hr. rewrite Forall_forall in S1, S2.
    destruct Hr as [Hr%S1|[[=]|Hr%S2]]; [by apply cmp_lt_irrefl in Hr|done|by apply cmp_lt_irrefl in Hr].
Qed.

(** The view of an index that has lost a block: the first one starts at the
    sentinel. *)
Definition restart (l : btree (SparseIndexDelimiter K) Uuid) : btree (SparseIndexDelimiter K) Uuid :=
  match l with
  | [] => []
  | (_, id) :: l => (Start, id) :: l
  end.

Lemma remove_block_spec i l1 d id l2 :
  index_ok i -> forward i = l1 ++ (d, id) :: l2 -> l1 ++ l2 <> [] ->
  exists i', remove_block id i = (true, i') /\ index_ok i' /\ forward i' = restart (l1 ++ l2) /\ reverse i' !! id = None /\ others_same id i i'.
Proof.
  intros Hok Hf Hne. destruct (removed_ok i l1 d id l2 Hok Hf) as (R1 & R2 & R3 & R4 & R5). cbn in R2, R3, R4.
  pose proof (ok_sorted i Hok) as Hs. rewrite Hf in Hs.
  assert (reverse i !! id = Some d) as Hd by (apply Hok; rewrite Hf; set_solver).
  unfold remove_block, index_len. rewrite Hf, length_app. cbn [length].
  assert (0 < length l1 + length l2)%nat as Hlen. { rewrite <- length_app. destruct (l1 ++ l2); [done|cbn; lia]. }
  destruct (Nat.ltb_spec 1 (length l1 + S (length l2))) as [_|]; [|lia]. rewrite Hd.
  rewrite bt_remove_middle by done. set (i1 := mkSparseIndexWriter (l1 ++ l2) _ _) in *.
  destruct (index_start_middle i l1 d id l2 Hok Hf) as [[-> ->]|(id0 & l1' & -> & Hdne)].
  - destruct l2 as [|[d2 id2] l2]; [done|]. cbn [app] in *.
    destruct d2 as [|k2]. { apply bt_sorted_cons in Hs as [Hs _]. apply Forall_cons in Hs as [Hs _]. by apply start_least in Hs. }
    unfold correct_start_key. cbn [forward i1 reverse counts]. cbn [bt_remove]. rewrite cmp_refl.
    apply bt_sorted_cons in R1 as [Q1 Q2].
    assert (forall id', (Start, id') ∉ (DelimiterKey k2, id2) :: l2) as Hnostart.
    { intros id' [Hin|Hin]%elem_of_cons; [done|]. rewrite Forall_forall in Q1. apply Q1 in Hin. done. }
    assert (bt_insert Start id2 l2 = (Start, id2) :: l2) as Hins.
    { destruct l2 as [|[d3 id3] l2]; [done|]. cbn. destruct d3; [|done]. exfalso. apply (Hnostart id3). set_solver. }
    rewrite Hins. eexists. split; [reflexivity|]. set (cs := match bt_get (DelimiterKey k2) _ with Some _ => _ | None => _ end).
    assert (forall d', bt_get d' cs = match cmp d' Start with
                                      | Eq => bt_get (DelimiterKey k2) (counts i1)
                                      | _ => match cmp d' (DelimiterKey k2) with Eq => None | _ => bt_get d' (counts i1) end
                                      end) as Hcs.
    { assert (bt_get Start (counts i1) = None) as Hst0.
      { cbn. rewrite bt_get_remove by apply Hok. by rewrite cmp_refl. }
      intros d'. subst cs. change (bt_remove Start (counts i)) with (counts i1). destruct (bt_get (DelimiterKey k2) (counts i1)) as [c|] eqn:Hg.
      - rewrite bt_get_insert, bt_get_remove by done. by destruct (cmp d' Start).
      - destruct (cmp d' Start) eqn:H1; [by apply cmp_eq in H1 as ->|..]; destruct (cmp d' (DelimiterKey k2)) eqn:H2; try done;
          by apply cmp_eq in H2 as ->. }
    assert (id2 <> id) as Hne2.
    { intros ->. assert (reverse i1 !! id = Some (DelimiterKey k2)) as Hr by (apply R2; set_solver).
      cbn in Hr. by rewrite lookup_delete_eq in Hr. }
    split_and!; [constructor; cbn| done | |].
    + rewrite <- Hins. apply bt_insert_sorted. done.
    + by eauto.
    + intros id' d'. rewrite lookup_insert_Some, lookup_delete_Some.
      rewrite R2, !elem_of_cons. split; [naive_solver|]. intros [[= -> ->]|Hin]; [by left|]. right.
      assert (id2 <> id'); [|by auto]. intros <-.
      assert (reverse i1 !! id2 = Some d') as E1 by (apply R2; set_solver).
      assert (reverse i1 !! id2 = Some (DelimiterKey k2)) as E2 by (apply R2; set_solver).
      assert (d' = DelimiterKey k2) as -> by congruence. rewrite Forall_forall in Q1. apply Q1 in Hin. by apply cmp_lt_irrefl in Hin.
    + subst cs. change (bt_remove Start (counts i)) with (counts i1).
      destruct (bt_get (DelimiterKey k2) (counts i1)); [|done]. by apply bt_insert_sorted, bt_remove_sorted.
    + intros d' c. rewrite Hcs. destruct (cmp d' Start) eqn:H1; [apply cmp_eq in H1 as ->; set_solver|..].
      all: destruct (cmp d' (DelimiterKey k2)) eqn:H2; [done|..]; intros Hin%R4.
      all: cbn in Hin; rewrite elem_of_cons in Hin; destruct Hin as [->|Hin]; [by rewrite cmp_refl in H2|set_solver].
    + cbn. rewrite lookup_insert_ne, lookup_delete_ne by done. apply lookup_delete_eq.
    + intros id' Hid'. destruct (R5 id' Hid') as [R5a R5b]. rewrite <- R5a, <- R5b. unfold count_of. cbn.
      change (base.delete id (reverse i)) with (reverse i1). destruct (decide (id' = id2)) as [->|Hid2].
      * rewrite lookup_insert_eq. assert (reverse i1 !! id2 = Some (DelimiterKey k2)) as -> by (apply R2; set_solver). cbn.
        rewrite Hcs. cbn. split; [done|]. split; by eauto.
      * rewrite lookup_insert_ne, lookup_delete_ne by done. split; [|done].
        destruct (reverse i1 !! id') as [d'|] eqn:Hr; [cbn|done]. rewrite Hcs.
        assert (d' <> Start /\ d' <> DelimiterKey k2) as [N1 N2].
        { apply R2 in Hr. split; intros ->; [by apply Hnostart in Hr|]. apply elem_of_cons in Hr as [[=]|Hr]; [done|].
          rewrite Forall_forall in Q1. apply Q1 in Hr. by apply cmp_lt_irrefl in Hr. }
        destruct (cmp d' Start) eqn:H1; [by apply cmp_eq in H1|..]; destruct (cmp d' (DelimiterKey k2)) eqn:H2; try done;
          by apply cmp_eq in H2.
  - unfold correct_start_key. cbn [forward i1 app]. eexists. split; [reflexivity|]. cbn [app restart].
    split_and!; [|done|by cbn; rewrite lookup_delete_eq|done]. constructor; cbn; [done|by eauto|done|done|done].
Qed.
End Writer.
