(* ===== verification/BlockfileFacts.v ===== *)
(** * Facts about blockfile writers

    The contents of a writer are the rows of its blocks in the order of the
    index; a change of one key changes the rows of one block. *)

From S2P Require Import Prelude Setsum Storage Types BTree BlockKey SparseIndex BlockDelta Block Blockfile DeltaFacts IndexFacts.

#[local] Open Scope Z_scope.

(** ** Views *)

Section View.
Context {K V : Type} {KK : Key K} {KL : KeyLaws K}.
#[local] Abbreviation view := (list (SparseIndexDelimiter K * btree (CompositeKey K) V)).
Implicit Types (v : view) (m : btree (CompositeKey K) V).

Definition rows_in v : btree (CompositeKey K) V := concat v.*2.
#[local] Arguments rows_in : simpl never.

Lemma rows_in_cons d m v : rows_in ((d, m) :: v) = m ++ rows_in v.
Proof. done. Qed.

(** Rows are not below the delimiter of their block, and below all later ones. *)
Fixpoint placed v : Prop :=
  match v with
  | [] => True
  | (d, m) :: v => bt_sorted m /\
      Forall (fun x => leb d (DelimiterKey x.1) = true /\ Forall (fun y => cmp (DelimiterKey x.1) y.1 = Lt) v) m /\ placed v
  end.

Lemma rows_in_app v1 v2 : rows_in (v1 ++ v2) = rows_in v1 ++ rows_in v2.
Proof. unfold rows_in. by rewrite fmap_app, concat_app. Qed.

Lemma placed_app v1 v2 :
  placed (v1 ++ v2) <->
  placed v1 /\ placed v2 /\ Forall (fun x => Forall (fun y => cmp (DelimiterKey x.1) y.1 = Lt) v2) (rows_in v1).
Proof.
  induction v1 as [|[d m] v1 IH]; cbn; [intuition constructor|]. rewrite IH.
  rewrite rows_in_cons, Forall_app.
  setoid_rewrite Forall_app. split.
  - intros (H1 & H2 & H3 & H4 & H5). split_and!; try done; eapply Forall_impl; try exact H2; intros x Hx; cbn in Hx; intuition.
  - intros ((H1 & H2 & H3) & H4 & H5 & H6). split_and!; try done. apply Forall_forall. intros x Hx.
    rewrite Forall_forall in H2, H5. specialize (H2 x Hx). specialize (H5 x Hx). intuition.
Qed.

(** All rows of a view are at or above its first delimiter. *)
Lemma placed_above v d0 :
  placed v -> Forall (fun y => leb d0 y.1 = true) v -> Forall (fun x => leb d0 (DelimiterKey x.1) = true) (rows_in v).
Proof.
  induction v as [|[d m] v IH]; cbn; [constructor|]. intros (H1 & H2 & H3) [Hd Hv]%Forall_cons.
  rewrite rows_in_cons. apply Forall_app. split; [|by apply IH]. eapply Forall_impl; [exact H2|]. intros x [Hx _]. by eapply leb_trans.
Qed.

Lemma DelimiterKey_cmp (a b : CompositeKey K) : cmp (DelimiterKey a) (DelimiterKey b) = cmp a b.
Proof. done. Qed.

(** The rows of a view are in order. *)
Lemma placed_sorted v : bt_sorted v -> placed v -> bt_sorted (rows_in v).
Proof.
  induction v as [|[d m] v IH]; intros Hs Hp; [constructor|]. apply bt_sorted_cons in Hs as [Hd Hs].
  destruct Hp as (H1 & H2 & H3). rewrite rows_in_cons. apply bt_sorted_app. split_and!; [|done|by apply IH].
  intros x y Hx Hy. rewrite Forall_forall in H2. destruct (H2 x Hx) as [_ Hlt].
  destruct v as [|[d2 m2] v]; [by apply elem_of_nil in Hy|]. apply Forall_cons in Hlt as [Hlt _]. cbn in Hlt.
  assert (Forall (fun x => leb d2 (DelimiterKey x.1) = true) (rows_in ((d2, m2) :: v))) as Hab.
  { apply placed_above; [done|]. constructor; [apply leb_refl|]. apply bt_sorted_cons in Hs as [Hs _].
    eapply Forall_impl; [exact Hs|]. intros z Hz. apply leb_lt_or_eq. by left. }
  rewrite Forall_forall in Hab. specialize (Hab y Hy). rewrite <- DelimiterKey_cmp. by eapply lt_le_trans.
Qed.

(** A key is looked up and changed in the rows of its block alone. *)
Section Middle.
Context (v1 v2 : view) (d : SparseIndexDelimiter K) (m : btree (CompositeKey K) V) (k : CompositeKey K).
Hypothesis Hsorted : bt_sorted (v1 ++ (d, m) :: v2).
Hypothesis Hplaced : placed (v1 ++ (d, m) :: v2).
Hypothesis Hle : leb d (DelimiterKey k) = true.
Hypothesis Hlt : Forall (fun x => cmp (DelimiterKey k) x.1 = Lt) v2.

Lemma middle_below : Forall (fun x => cmp x.1 k = Lt) (rows_in v1).
Proof.
  apply placed_app in Hplaced as (_ & _ & H). eapply Forall_impl; [exact H|]. intros x [Hx _]%Forall_cons. cbn in Hx.
  rewrite <- DelimiterKey_cmp. by eapply lt_le_trans.
Qed.

Lemma middle_above : Forall (fun x => cmp k x.1 = Lt) (rows_in v2).
Proof.
  apply placed_app in Hplaced as (_ & (_ & _ & Hp) & _). destruct v2 as [|[d2 m2] v2']; [constructor|].
  apply Forall_cons in Hlt as [Hk _]. cbn in Hk. apply bt_sorted_app in Hsorted as (_ & _ & [_ Hs]%StronglySorted_cons).
  assert (Forall (fun x => leb d2 (DelimiterKey x.1) = true) (rows_in ((d2, m2) :: v2'))) as Hab.
  { apply placed_above; [done|]. apply StronglySorted_cons in Hs as [Hs _]. constructor; [apply leb_refl|].
    eapply Forall_impl; [exact Hs|]. intros z Hz. apply leb_lt_or_eq. by left. }
  eapply Forall_impl; [exact Hab|]. intros x Hx. cbn in Hx. rewrite <- DelimiterKey_cmp. by eapply lt_le_trans.
Qed.

Lemma middle_rows : rows_in (v1 ++ (d, m) :: v2) = rows_in v1 ++ m ++ rows_in v2.
Proof. by rewrite rows_in_app. Qed.

Lemma middle_get : bt_get k (rows_in (v1 ++ (d, m) :: v2)) = bt_get k m.
Proof. rewrite middle_rows, bt_get_after, bt_get_before; [done|apply middle_above|apply middle_below]. Qed.

Lemma middle_insert x : bt_insert k x (rows_in (v1 ++ (d, m) :: v2)) = rows_in v1 ++ bt_insert k x m ++ rows_in v2.
Proof. rewrite middle_rows, bt_insert_after, bt_insert_before; [done|apply middle_above|apply middle_below]. Qed.

Lemma middle_remove : bt_remove k (rows_in (v1 ++ (d, m) :: v2)) = rows_in v1 ++ bt_remove k m ++ rows_in v2.
Proof. rewrite middle_rows, bt_remove_after, bt_remove_before; [done|apply middle_above|apply middle_below]. Qed.

(** Rows that may be in the block. *)
Definition belongs (k' : CompositeKey K) : Prop :=
  leb d (DelimiterKey k') = true /\ Forall (fun y => cmp (DelimiterKey k') y.1 = Lt) v2.

Lemma middle_belongs : belongs k.
Proof. done. Qed.

Lemma middle_all_belong : Forall (fun x => belongs x.1) m.
Proof. by apply placed_app in Hplaced as (_ & (_ & H & _) & _). Qed.
End Middle.

(** The rows of one block are replaced. *)
Lemma placed_replace v1 v2 d m m' :
  placed (v1 ++ (d, m) :: v2) -> bt_sorted m' -> Forall (fun x => belongs v2 d x.1) m' -> placed (v1 ++ (d, m') :: v2).
Proof.
  intros (H1 & (H2 & H3 & H4) & H5)%placed_app Hm Hb. apply placed_app. split_and!; [done|done|].
  eapply Forall_impl; [exact H5|]. intros x [Hx Hv]%Forall_cons. by constructor.
Qed.

(** ** Pieces *)

#[local] Abbreviation pieces := (list (CompositeKey K * btree (CompositeKey K) V)).

(** A piece starts with its key. *)
Definition headed (x : CompositeKey K * btree (CompositeKey K) V) : Prop := fst <$> head x.2 = Some x.1.
Definition as_view (l : pieces) : view := (fun x => (DelimiterKey x.1, x.2)) <$> l.

Lemma as_view_rows (l : pieces) : rows_in (as_view l) = concat l.*2.
Proof. unfold rows_in, as_view. by rewrite <- list_fmap_compose. Qed.

Lemma headed_elem (l : pieces) x : Forall headed l -> x ∈ l -> exists a : V, (x.1, a) ∈ concat l.*2.
Proof.
  induction l as [|y l IH]; [by intros _ ?%elem_of_nil|]. intros [Hy Hl]%Forall_cons [->|Hx]%elem_of_cons; cbn.
  - destruct y as [k [|[k' v] m]]; [done|]. cbn in Hy. injection Hy as ->. exists v. set_solver.
  - destruct (IH Hl Hx) as [v Hv]. exists v. set_solver.
Qed.

Lemma cut_placed (l : pieces) : Forall headed l -> bt_sorted (concat l.*2) -> placed (as_view l) /\ bt_sorted (as_view l).
Proof.
  induction l as [|[k m] l IH]; intros Hh Hs; cbn in *; [by split; constructor|].
  apply Forall_cons in Hh as [Hk Hh]. apply bt_sorted_app in Hs as (Hml & Hm & Hl). destruct (IH Hh Hl) as [IH1 IH2].
  assert (forall x y, x ∈ m -> y ∈ as_view l -> cmp (DelimiterKey x.1) y.1 = Lt) as Hlt.
  { intros x y Hx (z & -> & Hz)%list_elem_of_fmap. destruct (headed_elem l z Hh Hz) as [v Hv]. by apply (Hml x (z.1, v)). }
  destruct m as [|[k' v'] m]; [done|]. cbn in Hk. injection Hk as ->. split.
  - split_and!; [done| |done]. apply Forall_forall. intros x Hx. split; [|apply Forall_forall; intros y; by apply Hlt].
    apply elem_of_cons in Hx as [->|Hx]; [apply leb_refl|]. apply leb_lt_or_eq. left. rewrite DelimiterKey_cmp.
    apply bt_sorted_cons in Hm as [Hm _]. rewrite Forall_forall in Hm. by apply (Hm x).
  - apply bt_sorted_cons. split; [|done]. apply Forall_forall. intros y Hy. apply (Hlt (k, v')); [set_solver|done].
Qed.

(** A block is cut in pieces. *)
Lemma placed_split v1 v2 d m m' k0 self (l : pieces) :
  bt_sorted (v1 ++ (d, m) :: v2) -> placed (v1 ++ (d, m) :: v2) ->
  bt_sorted m' -> Forall (fun x => belongs v2 d x.1) m' -> m' = self ++ concat l.*2 -> headed (k0, self) -> Forall headed l ->
  bt_sorted (v1 ++ (d, self) :: as_view l ++ v2) /\ placed (v1 ++ (d, self) :: as_view l ++ v2).
Proof.
  intros Hs (H1 & (H2 & H3 & H4) & H5)%placed_app Hm' Hb -> Hk0 Hh.
  destruct (cut_placed ((k0, self) :: l)) as [Hp Ho]; [by constructor|done|].
  destruct Hp as (Hself & Hsl & Hpl). apply bt_sorted_cons in Ho as [Hkl Hol]. fold (as_view l) in *.
  apply Forall_app in Hb as [Hbs Hbl].
  assert (forall x, x ∈ as_view l -> belongs v2 d (match x.1 with DelimiterKey k => k | Start => k0 end) /\
            x.1 = DelimiterKey (match x.1 with DelimiterKey k => k | Start => k0 end)) as Hkb.
  { intros x (z & -> & Hz)%list_elem_of_fmap. cbn. split; [|done]. destruct (headed_elem l z Hh Hz) as [v Hv].
    rewrite Forall_forall in Hbl. by apply (Hbl _ Hv). }
  assert (exists a : V, (k0, a) ∈ self) as [v0 Hv0].
  { destruct self as [|[k v] self']; [done|]. cbn in Hk0. injection Hk0 as ->. exists v. set_solver. }
  assert (leb d (DelimiterKey k0) = true) as Hdk0. { rewrite Forall_forall in Hbs. by apply (Hbs _ Hv0). }
  destruct (middle_sorted _ _ _ _ Hs) as (S1 & S2 & S3 & S4 & S5). split.
  - apply bt_sorted_app. split_and!; [|done|].
    + intros x y Hx [->|[Hy|Hy]%elem_of_app]%elem_of_cons.
      * rewrite Forall_forall in S1. by apply S1.
      * destruct (Hkb y Hy) as [[Hle _] ->]. rewrite Forall_forall in S1. eapply lt_le_trans; [by apply S1|done].
      * by apply S5.
    + apply bt_sorted_cons. split; [|apply bt_sorted_app; split_and!; [|done|done]].
      * apply Forall_app. split; [|done]. eapply Forall_impl; [exact Hkl|]. intros x Hx. by eapply le_lt_trans.
      * intros x y Hx Hy. destruct (Hkb x Hx) as [[_ Hlt] ->]. rewrite Forall_forall in Hlt. by apply Hlt.
  - apply placed_app. split_and!; [done| |].
    + split_and!; [done| |].
      * apply Forall_forall. intros x Hx. rewrite Forall_forall in Hbs, Hsl. destruct (Hbs x Hx) as [Hx1 Hx2].
        split; [done|]. apply Forall_app. split; [by apply Hsl|done].
      * apply placed_app. split_and!; [done..|]. rewrite as_view_rows. eapply Forall_impl; [exact Hbl|]. by intros x [_ Hx].
    + eapply Forall_impl; [exact H5|]. intros x [Hx Hv]%Forall_cons. constructor; [done|]. apply Forall_app. split; [|done].
      apply Forall_forall. intros y Hy. destruct (Hkb y Hy) as [[Hle _] ->]. by eapply lt_le_trans.
Qed.
End View.
Arguments rows_in {K V} v : simpl never.
