(* ===== verification/BlockfileOps.v ===== *)
(** * Operations of blockfile writers

    What a writer holds is a map, and its operations are those of the map: the
    invariant of a writer, and that changing the rows of one block keeps it. *)

From S2P Require Import Prelude Setsum Storage Types BTree BlockKey SparseIndex BlockDelta Block Blockfile DeltaFacts IndexFacts BlockfileFacts.

#[local] Open Scope Z_scope.

Lemma bt_sorted_fmap {A V W} {O : Ordered A} (f : A * V -> W) (m : btree A V) :
  bt_sorted m -> bt_sorted ((fun x => (x.1, f x)) <$> m).
Proof.
  induction m as [|[k v] m IH]; intros Hs; cbn; [constructor|]. apply StronglySorted_inv in Hs as [Hs Hk].
  constructor; [by apply IH|]. rewrite Forall_fmap. exact Hk.
Qed.

Section Ops.
Context {K V : Type} {KK : Key K} {VV : Value V} {BM : BlockManager K V} {KL : KeyLaws K} {VL : ValueLaws V}.
Context (new_v4 : nat -> Uuid) `{new_v4_inj : !Inj (=) (=) new_v4}.
Context (path : string) (stored : Uuid -> option (Block K V)) {BML : BlockManagerLaws BM path stored}.
Implicit Types w : BlockfileWriter K V.

(** ** Contents *)

Definition rows_of w (id : Uuid) : btree (CompositeKey K) V :=
  match block_deltas w !! id with
  | Some st => storage st
  | None => match stored id with Some b => rows b | None => [] end
  end.

Definition view_of w (l : btree (SparseIndexDelimiter K) Uuid) : list (SparseIndexDelimiter K * btree (CompositeKey K) V) :=
  (fun x => (x.1, rows_of w x.2)) <$> l.

Definition contents w : btree (CompositeKey K) V := rows_in (view_of w (forward (index w))).

(** Blocks that were not changed are stored, with their counts; the counts of
    the first version are not known. *)
Definition stored_ok w (d : SparseIndexDelimiter K) (id : Uuid) : Prop :=
  exists b c, stored id = Some b /\ bt_get d (counts (index w)) = Some c /\
    (root_version (root w) <> V1 -> c = Z.of_nat (length (rows b)) mod 2 ^ 32).

Record writer_ok w : Prop := {
  w_index : index_ok (index w);
  w_path : prefix_path (root w) = path;
  w_max : 0 <= max_block_size_bytes (root w);
  w_placed : placed (view_of w (forward (index w)));
  w_deltas : forall id st, block_deltas w !! id = Some st -> storage_ok st /\ is_Some (reverse (index w) !! id);
  w_stored : forall d id, (d, id) ∈ forward (index w) -> block_deltas w !! id = None -> stored_ok w d id;
  w_fresh : forall n, (next_uuid w <= n)%nat -> reverse (index w) !! new_v4 n = None;
  w_fits : Forall (fits (max_block_size_bytes (root w))) (contents w);
}.

Lemma view_sorted w : writer_ok w -> bt_sorted (view_of w (forward (index w))).
Proof. intros Hok. apply bt_sorted_fmap, (ok_sorted _ (w_index w Hok)). Qed.

Lemma contents_sorted w : writer_ok w -> bt_sorted (contents w).
Proof. intros Hok. apply placed_sorted; [by apply view_sorted|apply Hok]. Qed.

(** ** One block changes *)

Lemma insert_deltas_notin (l : list (CompositeKey K * BlockDelta K V)) m id :
  id ∉ delta_id ∘ snd <$> l -> insert_deltas l m !! id = m !! id.
Proof.
  unfold insert_deltas. revert m. induction l as [|x l IH]; intros m Hn; cbn in *; [done|].
  rewrite IH by set_solver. apply lookup_insert_ne. set_solver.
Qed.

Lemma insert_deltas_in (l : list (CompositeKey K * BlockDelta K V)) m x :
  NoDup (delta_id ∘ snd <$> l) -> x ∈ l -> insert_deltas l m !! delta_id x.2 = Some (builder x.2).
Proof.
  unfold insert_deltas. revert m. induction l as [|y l IH]; intros m Hnd Hx; [by apply elem_of_nil in Hx|].
  cbn in Hnd. apply NoDup_cons in Hnd as [Hy Hnd]. apply elem_of_cons in Hx as [->|Hx]; cbn; [|by apply IH].
  pose proof (insert_deltas_notin l (<[delta_id y.2:=builder y.2]> m) (delta_id y.2) Hy) as Hl.
  unfold insert_deltas in Hl. rewrite Hl. apply lookup_insert_eq.
Qed.

Definition added_ids (l : list (CompositeKey K * BlockDelta K V)) : list (CompositeKey K * Uuid) :=
  (fun x => (x.1, delta_id x.2)) <$> l.

(** How a writer changes when the rows of one block do: they are now those of
    [self] and of the blocks [added] after it. *)
Record changed w w' (l1 : btree (SparseIndexDelimiter K) Uuid) d target l2 (new : Uuid)
    (self : SingleColumnStorage K V) (added : list (CompositeKey K * BlockDelta K V)) : Prop := {
  ch_old : forward (index w) = l1 ++ (d, target) :: l2;
  ch_new : forward (index w') = l1 ++ (d, new) :: (delimit <$> added_ids added) ++ l2;
  ch_ok : index_ok (index w');
  ch_counts : counts (index w') = counts (index w);
  ch_path : prefix_path (root w') = prefix_path (root w);
  ch_max : max_block_size_bytes (root w') = max_block_size_bytes (root w);
  ch_version : root_version (root w') = root_version (root w);
  ch_id : root_id (root w') = root_id (root w);
  ch_deltas : block_deltas w' = <[new := self]> (insert_deltas added (block_deltas w));
  ch_target : new = target \/ block_deltas w !! target = None;
  ch_fresh : forall n, (next_uuid w' <= n)%nat -> reverse (index w') !! new_v4 n = None;
}.

#[local] Arguments ch_old {_ _ _ _ _ _ _ _ _} _.
#[local] Arguments ch_new {_ _ _ _ _ _ _ _ _} _.
#[local] Arguments ch_ok {_ _ _ _ _ _ _ _ _} _.
#[local] Arguments ch_counts {_ _ _ _ _ _ _ _ _} _.
#[local] Arguments ch_path {_ _ _ _ _ _ _ _ _} _.
#[local] Arguments ch_max {_ _ _ _ _ _ _ _ _} _.
#[local] Arguments ch_version {_ _ _ _ _ _ _ _ _} _.
#[local] Arguments ch_id {_ _ _ _ _ _ _ _ _} _.
#[local] Arguments ch_deltas {_ _ _ _ _ _ _ _ _} _.
#[local] Arguments ch_target {_ _ _ _ _ _ _ _ _} _.
#[local] Arguments ch_fresh {_ _ _ _ _ _ _ _ _} _.

Section Change.
Context w w' l1 d target l2 new self added (Hch : changed w w' l1 d target l2 new self added) (Hok : writer_ok w).

Lemma change_ids :
  NoDup (delta_id ∘ snd <$> added) /\ new ∉ delta_id ∘ snd <$> added /\
  forall x, x ∈ l1 ++ l2 -> x.2 <> new /\ x.2 ∉ delta_id ∘ snd <$> added.
Proof.
  assert (NoDup (forward (index w')).*2) as Hnd.
  { pose proof (ch_ok Hch) as Hi. pose proof (bt_sorted_nodup _ (ok_sorted _ Hi)) as Hn1.
    apply NoDup_fmap_2_strong; [|by apply NoDup_fmap_1 in Hn1].
    intros [d1 i1] [d2 i2] H1 H2 He. cbn in He. subst i2. apply Hi in H1, H2. congruence. }
  rewrite (ch_new Hch), fmap_app, fmap_cons, fmap_app in Hnd. cbn in Hnd.
  assert ((delimit <$> added_ids added).*2 = delta_id ∘ snd <$> added) as He.
  { unfold added_ids. rewrite <- !list_fmap_compose. done. }
  rewrite He in Hnd. apply NoDup_app in Hnd as (N1 & N2 & [N3 (N4 & N5 & N6)%NoDup_app]%NoDup_cons).
  split_and!; [done|set_solver|]. intros x [Hx|Hx]%elem_of_app.
  - assert (x.2 ∈ l1.*2) as Hx2 by (apply list_elem_of_fmap; eauto). specialize (N2 _ Hx2). set_solver.
  - assert (x.2 ∈ l2.*2) as Hx2 by (apply list_elem_of_fmap; eauto). split; [set_solver|]. intros Hin. by apply (N5 _ Hin).
Qed.

Lemma change_other x : x ∈ l1 ++ l2 -> block_deltas w' !! x.2 = block_deltas w !! x.2.
Proof.
  intros Hx. destruct change_ids as (_ & _ & Hd). destruct (Hd x Hx) as [H1 H2].
  rewrite (ch_deltas Hch), lookup_insert_ne, insert_deltas_notin by done. done.
Qed.

Lemma change_view :
  view_of w' (forward (index w')) =
  view_of w l1 ++ (d, storage self) :: as_view ((fun x => (x.1, storage (builder x.2))) <$> added) ++ view_of w l2.
Proof.
  destruct change_ids as (Hnd & Hnew & _). rewrite (ch_new Hch). unfold view_of.
  rewrite !fmap_app, fmap_cons, fmap_app. assert (forall l : btree (SparseIndexDelimiter K) Uuid, (forall x, x ∈ l -> x ∈ l1 ++ l2) ->
    ((fun x => (x.1, rows_of w' x.2)) <$> l) = ((fun x => (x.1, rows_of w x.2)) <$> l)) as Hsame.
  { intros l Hl. apply list_fmap_ext. intros j x Hj. apply list_elem_of_lookup_2, Hl, change_other in Hj.
    unfold rows_of. by rewrite Hj. }
  rewrite (Hsame l1), (Hsame l2) by set_solver. f_equal. f_equal; [|f_equal].
  - cbn. unfold rows_of. by rewrite (ch_deltas Hch), lookup_insert_eq.
  - unfold as_view, added_ids. rewrite <- !list_fmap_compose. apply list_fmap_ext. intros j x Hj. cbn. f_equal.
    apply list_elem_of_lookup_2 in Hj. assert (delta_id x.2 <> new).
    { intros <-. apply Hnew, list_elem_of_fmap. by exists x. }
    unfold rows_of. rewrite (ch_deltas Hch), lookup_insert_ne, insert_deltas_in by done. done.
Qed.

Context (m' : btree (CompositeKey K) V).
Hypothesis Hrows : m' = storage self ++ piece_rows added.
Hypothesis Hsorted : bt_sorted m'.
Hypothesis Hbelong : Forall (fun x => belongs (view_of w l2) d x.1) m'.
Hypothesis Hfits : Forall (fits (max_block_size_bytes (root w))) m'.
Hypothesis Hself : storage_ok self.
Hypothesis Hadded : Forall (fun x => get_min_key (builder x.2) = Some x.1 /\ storage_ok (builder x.2)) added.
Hypothesis Hhead : added = [] \/ exists k0, get_min_key self = Some k0.

Lemma change_contents : contents w' = rows_in (view_of w l1) ++ m' ++ rows_in (view_of w l2).
Proof.
  unfold contents. rewrite change_view, rows_in_app, rows_in_cons, rows_in_app, as_view_rows, Hrows.
  unfold piece_rows. rewrite <- !app_assoc, <- !list_fmap_compose. done.
Qed.

Lemma change_placed : placed (view_of w' (forward (index w'))).
Proof.
  rewrite change_view. pose proof (view_sorted w Hok) as Hs. pose proof (w_placed w Hok) as Hp.
  rewrite (ch_old Hch) in Hs, Hp. unfold view_of in Hs, Hp. rewrite fmap_app, fmap_cons in Hs, Hp.
  fold (view_of w l1) (view_of w l2) in Hs, Hp. cbn in Hs, Hp.
  destruct Hhead as [He|[k0 Hk0]].
  - rewrite He in Hrows |- *. cbn. unfold piece_rows in Hrows. cbn in Hrows. rewrite app_nil_r in Hrows.
    eapply placed_replace; [exact Hp|by destruct Hself|by rewrite <- Hrows].
  - eapply (placed_split _ _ _ _ m' k0); try done.
    + unfold piece_rows in Hrows. rewrite <- list_fmap_compose. done.
    + rewrite Forall_fmap. eapply Forall_impl; [exact Hadded|]. by intros x [Hx _].
Qed.

Lemma change_ok : writer_ok w'.
Proof.
  destruct change_ids as (Hnd & Hnew & Hids). constructor.
  - apply (ch_ok Hch).
  - rewrite (ch_path Hch). apply Hok.
  - rewrite (ch_max Hch). apply Hok.
  - apply change_placed.
  - intros id st. rewrite (ch_deltas Hch). pose proof (ch_ok Hch) as Hi.
    assert (forall d id, (d, id) ∈ forward (index w') -> is_Some (reverse (index w') !! id)) as Hsome.
    { intros d' id' Hin. exists d'. by apply Hi. }
    rewrite (ch_new Hch) in Hsome. destruct (decide (id = new)) as [->|Hne].
    { rewrite lookup_insert_eq. intros [= <-]. split; [done|]. apply (Hsome d). set_solver. }
    rewrite lookup_insert_ne by done. destruct (decide (id ∈ delta_id ∘ snd <$> added)) as [Hin|Hin].
    { apply list_elem_of_fmap in Hin as (x & -> & Hx). cbn. rewrite insert_deltas_in by done. intros [= <-].
      rewrite Forall_forall in Hadded. split; [by apply Hadded|]. apply (Hsome (DelimiterKey x.1)).
      rewrite elem_of_app, elem_of_cons, elem_of_app. right. right. left. unfold added_ids.
      rewrite <- list_fmap_compose. apply list_elem_of_fmap. by exists x. }
    rewrite insert_deltas_notin by done. intros Hst. apply (w_deltas w Hok) in Hst as Hst'. destruct Hst' as [Hst' [d' Hd']].
    split; [done|]. apply (Hsome d'). apply (w_index w Hok) in Hd'. rewrite (ch_old Hch) in Hd'.
    rewrite elem_of_app, elem_of_cons in Hd'. destruct Hd' as [Hd'|[[= -> ->]|Hd']]; [set_solver| |set_solver].
    destruct (ch_target Hch) as [->|Hn]; [done|congruence].
  - intros d' id Hin Hn. rewrite (ch_new Hch) in Hin.
    assert ((d', id) ∈ l1 ++ l2) as Hin'.
    { rewrite elem_of_app, elem_of_cons, elem_of_app in Hin. rewrite elem_of_app.
      destruct Hin as [?|[[= -> ->]|[Hin|?]]]; [by left| | |by right].
      - rewrite (ch_deltas Hch), lookup_insert_eq in Hn. done.
      - unfold added_ids in Hin. rewrite <- list_fmap_compose in Hin. apply list_elem_of_fmap in Hin as (x & [= -> ->] & Hx).
        assert (delta_id x.2 <> new). { intros <-. apply Hnew, list_elem_of_fmap. by exists x. }
        rewrite (ch_deltas Hch), lookup_insert_ne, insert_deltas_in in Hn by done. done. }
    pose proof (change_other _ Hin') as Ho. cbn in Ho. rewrite Ho in Hn.
    destruct (w_stored w Hok d' id) as (b & c & Hb & Hc & Hcn); [rewrite (ch_old Hch); set_solver|done|].
    exists b, c. by rewrite (ch_counts Hch), (ch_version Hch).
  - apply (ch_fresh Hch).
  - rewrite change_contents, (ch_max Hch). pose proof (w_fits w Hok) as Hf. unfold contents in Hf.
    rewrite (ch_old Hch) in Hf. unfold view_of in Hf. rewrite fmap_app, fmap_cons, rows_in_app in Hf.
    cbn in Hf. rewrite rows_in_cons, !Forall_app in Hf. rewrite !Forall_app. unfold view_of. intuition.
Qed.
End Change.

(** ** Targets *)

Definition manager_error (e : BlockfileError) : Prop :=
  e = BlockNotFound \/ e = ForkBlockNotFound \/ exists g, e = BlockFetchError g.

(** The block of a key, and the rows that may be in it. *)
Lemma target_view w k :
  writer_ok w ->
  exists l1 d target l2, get_target_block_id k (index w) = Some target /\ forward (index w) = l1 ++ (d, target) :: l2 /\
    belongs (view_of w l2) d k /\ Forall (fun x => belongs (view_of w l2) d x.1) (rows_of w target) /\
    bt_sorted (rows_of w target) /\ Forall (fits (max_block_size_bytes (root w))) (rows_of w target) /\
    bt_get k (contents w) = bt_get k (rows_of w target) /\
    (forall v, bt_insert k v (contents w) = rows_in (view_of w l1) ++ bt_insert k v (rows_of w target) ++ rows_in (view_of w l2)) /\
    bt_remove k (contents w) = rows_in (view_of w l1) ++ bt_remove k (rows_of w target) ++ rows_in (view_of w l2).
Proof.
  intros Hok. destruct (target_spec k (index w) (w_index w Hok)) as (l1 & d & target & l2 & Ht & Hf & Hd & Hl2).
  exists l1, d, target, l2. pose proof (view_sorted w Hok) as Hs. pose proof (w_placed w Hok) as Hp.
  pose proof (w_fits w Hok) as Hfit. unfold contents in *. rewrite Hf in *. unfold view_of in Hs, Hp, Hfit |- *.
  rewrite fmap_app, fmap_cons in Hs, Hp, Hfit |- *. cbn [fst snd] in *.
  assert (Forall (fun x => cmp (DelimiterKey k) x.1 = Lt) ((fun x => (x.1, rows_of w x.2)) <$> l2)) as Hl2' by by rewrite Forall_fmap.
  split_and!; [done|done|done| | | | | |].
  - eapply middle_all_belong; [exact Hp].
  - by apply placed_app in Hp as (_ & (? & _) & _).
  - rewrite rows_in_app, rows_in_cons, !Forall_app in Hfit. by destruct Hfit as (_ & ? & _).
  - by apply middle_get.
  - intros v. by apply middle_insert.
  - by apply middle_remove.
Qed.

Lemma fork_target_spec w s d target :
  writer_ok w -> (d, target) ∈ forward (index w) -> block_deltas w !! target = None -> bt_sorted (rows_of w target) ->
  match fork_target new_v4 target w s with
  | (Ok delta, w', _) =>
      w' = mkWriter (block_deltas w) (root w) (S (next_uuid w)) /\ delta_id delta = new_v4 (next_uuid w) /\
      storage (builder delta) = rows_of w target /\ storage_ok (builder delta)
  | (Err e, w', _) => w' = w /\ manager_error e
  end.
Proof.
  intros Hok Hin Hnone Hs. unfold fork_target, manager_error. rewrite (w_path w Hok).
  destruct (get_block path target s) as [[[b|]|e] s1] eqn:Hg; [|by eauto 8..].
  pose proof (get_block_law _ _ _ _ Hg) as Hb. rewrite (stored_block_id _ _ Hb).
  destruct (get_block path target s1) as [[[b'|]|e] s2] eqn:Hg'; [|by eauto 8..].
  pose proof (get_block_law _ _ _ _ Hg') as Hb'. assert (b' = b) as -> by congruence.
  assert (rows_of w target = rows b) as Hr by (unfold rows_of; by rewrite Hnone, Hb). rewrite Hr in *.
  destruct (fork_block_rows (new_v4 (next_uuid w)) b Hs) as (H1 & H2 & H3). done.
Qed.

(** ** Index updates *)

Lemma bt_sorted_keys {A V1 V2} {O : Ordered A} (m1 : btree A V1) (m2 : btree A V2) : m1.*1 = m2.*1 -> bt_sorted m1 -> bt_sorted m2.
Proof.
  revert m2. induction m1 as [|[k v] m1 IH]; intros [|[k2 v2] m2] He Hs; try done; [constructor|].
  cbn in He. injection He as -> He. apply StronglySorted_inv in Hs as [Hs Hk]. constructor; [by apply IH|].
  apply (Forall_fmap fst (fun y => cmp k2 y = Lt) m2). rewrite <- He. by apply (Forall_fmap fst (fun y => cmp k2 y = Lt) m1).
Qed.

Lemma split_index w l1 d target l2 new i0 m' k0 self added next next' :
  writer_ok w -> forward (index w) = l1 ++ (d, target) :: l2 -> index_ok i0 -> forward i0 = l1 ++ (d, new) :: l2 ->
  (forall n, (next <= n)%nat -> reverse i0 !! new_v4 n = None) ->
  bt_sorted m' -> Forall (fun x => belongs (view_of w l2) d x.1) m' -> m' = storage self ++ piece_rows added ->
  get_min_key self = Some k0 -> Forall (fun x => get_min_key (builder x.2) = Some x.1) added ->
  delta_id ∘ snd <$> added = drawn new_v4 next next' -> (next <= next')%nat ->
  exists i', add_blocks (added_ids added) i0 = (Ok tt, i') /\
    forward i' = l1 ++ (d, new) :: (delimit <$> added_ids added) ++ l2 /\ counts i' = counts i0 /\ index_ok i' /\
    (forall n, (next' <= n)%nat -> reverse i' !! new_v4 n = None).
Proof.
  intros Hok Hf Hi0 Hf0 Hfresh Hs Hb Hm Hk0 Hh Hids Hle.
  assert (Forall (fun x => reverse i0 !! x.2 = None) (added_ids added) /\ NoDup (added_ids added).*2) as [Hnew Hnd].
  { unfold added_ids. rewrite <- list_fmap_compose. change ((snd ∘ (fun x => (x.1, delta_id x.2)) <$> added)) with (delta_id ∘ snd <$> added).
    split.
    - rewrite Forall_fmap. apply (Forall_fmap (delta_id ∘ snd) (fun y => reverse i0 !! y = None) added). rewrite Hids. unfold drawn. rewrite Forall_fmap. apply Forall_forall. intros n Hn%elem_of_seq. apply Hfresh. lia.
    - rewrite Hids. apply NoDup_fmap; [done|]. apply NoDup_seq. }
  destruct (add_blocks_spec (added_ids added) i0 (l1 ++ [(d, new)]) l2) as (i' & He & Hf' & Hc' & Hi').
  - done.
  - by rewrite <- app_assoc.
  - by destruct l1.
  - pose proof (view_sorted w Hok) as Hvs. pose proof (w_placed w Hok) as Hvp. rewrite Hf in Hvs, Hvp. unfold view_of in Hvs, Hvp.
    rewrite fmap_app, fmap_cons in Hvs, Hvp.
    destruct (placed_split _ _ _ _ m' k0 (storage self) ((fun x => (x.1, storage (builder x.2))) <$> added) Hvs Hvp) as [Hvs' _]; try done.
    { rewrite Hm. unfold piece_rows. by rewrite <- list_fmap_compose. }
    { by rewrite Forall_fmap. }
    eapply bt_sorted_keys; [|exact Hvs']. rewrite <- app_assoc. cbn. unfold as_view, added_ids.
    rewrite !fmap_app, !fmap_cons, !fmap_app, <- !list_fmap_compose. done.
  - done.
  - done.
  - exists i'. rewrite <- app_assoc in Hf'. split_and!; [done..|]. intros n Hn.
    destruct (reverse i' !! new_v4 n) as [d'|] eqn:Hr; [|done]. exfalso. apply Hi' in Hr. rewrite Hf' in Hr.
    assert ((d', new_v4 n) ∈ forward i0 \/ new_v4 n ∈ drawn new_v4 next next') as [Hin|Hin].
    { rewrite Hf0. cbn in Hr. rewrite elem_of_app, elem_of_cons, elem_of_app in Hr. rewrite elem_of_app, elem_of_cons.
      destruct Hr as [?|[?|[Hr|?]]]; [by auto|by auto| |by auto]. right. rewrite <- Hids.
      unfold added_ids in Hr. rewrite <- list_fmap_compose in Hr. apply list_elem_of_fmap in Hr as (x & [= -> ->] & Hx).
      apply list_elem_of_fmap. by exists x. }
    + apply Hi0 in Hin. rewrite Hfresh in Hin by lia. done.
    + unfold drawn in Hin. apply list_elem_of_fmap in Hin as (j & Hj & Hjs%elem_of_seq). apply new_v4_inj in Hj. lia.
Qed.

(** ** Operations *)

(** New delimiters are keys of the map, and the metadata stays. *)
Definition keeps w w' : Prop :=
  (forall d, d ∈ (forward (index w')).*1 -> d ∈ (forward (index w)).*1 \/ exists x, x ∈ contents w' /\ d = DelimiterKey x.1) /\
  root_version (root w') = root_version (root w) /\ max_block_size_bytes (root w') = max_block_size_bytes (root w) /\
  root_id (root w') = root_id (root w).

Lemma changed_keeps w w' l1 d target l2 new self added :
  changed w w' l1 d target l2 new self added ->
  (forall x, x ∈ added -> get_min_key (builder x.2) = Some x.1) -> (forall x, x ∈ piece_rows added -> x ∈ contents w') -> keeps w w'.
Proof.
  intros Hch Hh Hc. split_and!; [|apply (ch_version Hch)|apply (ch_max Hch)|apply (ch_id Hch)]. intros d'. rewrite (ch_new Hch), (ch_old Hch), !fmap_app, !fmap_cons, fmap_app. cbn [fst].
  rewrite !elem_of_app, !elem_of_cons, elem_of_app. intros [?|[->|[Hin|?]]]; [by auto|by auto| |by auto]. right.
  unfold added_ids in Hin. rewrite <- !list_fmap_compose in Hin. apply list_elem_of_fmap in Hin as (x & -> & Hx). cbn.
  specialize (Hh x Hx). unfold get_min_key in Hh. destruct (storage (builder x.2)) as [|[k v] m] eqn:Hm; [done|].
  cbn in Hh. injection Hh as Hk. exists (k, v). split; [|by rewrite <- Hk]. apply Hc. unfold piece_rows.
  rewrite list_elem_of_In, in_concat. exists ((k, v) :: m). split; [|by left].
  rewrite <- list_elem_of_In. apply list_elem_of_fmap. exists x. by rewrite Hm.
Qed.

Section Target.
Context w l1 d target l2 (Hok : writer_ok w) (Hf : forward (index w) = l1 ++ (d, target) :: l2).

(** The index after the target was forked. *)
Lemma fork_index_spec :
  block_deltas w !! target = None ->
  exists i, replace_block target (new_v4 (next_uuid w)) (index w) = Some i /\
    forward i = l1 ++ (d, new_v4 (next_uuid w)) :: l2 /\ counts i = counts (index w) /\ index_ok i /\
    (forall n, (S (next_uuid w) <= n)%nat -> reverse i !! new_v4 n = None).
Proof.
  intros Hnone. destruct (w_stored w Hok d target) as (b & c & _ & Hc & _); [rewrite Hf; set_solver|done|].
  destruct (replace_block_spec (index w) l1 l2 d target (new_v4 (next_uuid w))) as (i & He & Hfi & Hci & Hi).
  { apply Hok. } { done. } { by apply Hok. } { by eauto. }
  exists i. split_and!; [done..|]. intros n Hn. destruct (reverse i !! new_v4 n) as [d'|] eqn:Hr; [|done]. exfalso.
  apply Hi in Hr. rewrite Hfi, elem_of_app, elem_of_cons in Hr.
  assert ((d', new_v4 n) ∈ forward (index w)) as Hin.
  { rewrite Hf, elem_of_app, elem_of_cons. destruct Hr as [?|[[= -> He']|?]]; [by auto| |by auto]. apply new_v4_inj in He'. lia. }
  apply (w_index w Hok) in Hin. rewrite (w_fresh w Hok) in Hin by lia. done.
Qed.

Lemma changed_in_place self :
  changed w (mkWriter (<[target := self]> (block_deltas w)) (root w) (next_uuid w)) l1 d target l2 target self [].
Proof. constructor; try done; [apply Hok|by left|apply Hok]. Qed.

Lemma changed_fork i self :
  forward i = l1 ++ (d, new_v4 (next_uuid w)) :: l2 -> counts i = counts (index w) -> index_ok i ->
  (forall n, (S (next_uuid w) <= n)%nat -> reverse i !! new_v4 n = None) -> block_deltas w !! target = None ->
  changed w (mkWriter (<[new_v4 (next_uuid w) := self]> (block_deltas w)) (set_index i (root w)) (S (next_uuid w)))
    l1 d target l2 (new_v4 (next_uuid w)) self [].
Proof. intros. constructor; try done. by right. Qed.

(** Rows change without a split. *)
Lemma single_ok w' new self m' :
  changed w w' l1 d target l2 new self [] -> storage self = m' -> storage_ok self ->
  Forall (fun x => belongs (view_of w l2) d x.1) m' -> Forall (fits (max_block_size_bytes (root w))) m' ->
  writer_ok w' /\ contents w' = rows_in (view_of w l1) ++ m' ++ rows_in (view_of w l2) /\ keeps w w'.
Proof.
  intros Hch Hm Hself Hb Hfit. assert (m' = storage self ++ piece_rows []) as Hm' by (by rewrite <- Hm; cbn; rewrite app_nil_r).
  split_and!; [eapply (change_ok _ _ _ _ _ _ _ _ _ Hch Hok m'); try done|by eapply change_contents|].
  3: { eapply changed_keeps; [exact Hch|by intros x ?%elem_of_nil|by intros x ?%elem_of_nil]. }
  - subst m'. apply Hself.
  - by left.
Qed.

(** A delta that was changed is published, split if it is too large. *)
Lemma publish_ok new i0 next replace delta m' :
  changed w (mkWriter (<[new := builder delta]> (block_deltas w)) (set_index i0 (root w)) next) l1 d target l2 new (builder delta) [] ->
  replace_blocks replace (index w) = Some i0 -> delta_id delta = new -> storage (builder delta) = m' -> m' <> [] ->
  storage_ok (builder delta) -> max_block_size_bytes (root w) < delta_size delta ->
  Forall (fun x => belongs (view_of w l2) d x.1) m' -> Forall (fits (max_block_size_bytes (root w))) m' ->
  exists self added next' w',
    delta_split new_v4 (max_block_size_bytes (root w)) next delta = Some (self, added, next') /\
    publish_split replace self added next' (mkWriter (block_deltas w) (root w) next) = (Ok tt, w') /\ writer_ok w' /\
    contents w' = rows_in (view_of w l1) ++ m' ++ rows_in (view_of w l2) /\ keeps w w' /\
    changed w w' l1 d target l2 new (builder self) added /\
    Forall (fun x => bounded (max_block_size_bytes (root w)) (storage (builder x.2))) ((mkCompositeKey EmptyString key_default, self) :: added).
Proof.
  intros Hch Hrep Hid Hm Hne Hdelta Hbig Hb Hfit. set (max := max_block_size_bytes (root w)) in *.
  destruct (delta_split_spec new_v4 max (w_max w Hok) next delta) as (self & added & next' & k0 & He & Hids & Hp0 & Happ & Hp & Hdrawn & Hle);
    [done|by rewrite Hm|done|by rewrite Hm|].
  destruct Hp0 as (Hk0 & Hself & Hb0). cbn in Hk0, Hself, Hb0. rewrite Hm in Happ.
  assert (Forall (fun x => get_min_key (builder x.2) = Some x.1 /\ storage_ok (builder x.2)) added) as Hadded.
  { eapply Forall_impl; [exact Hp|]. intros x (H1 & H2 & _). done. }
  destruct (split_index w l1 d target l2 new i0 m' k0 (builder self) added next next') as (i' & Hadd & Hfi & Hci & Hi & Hfr); try done.
  { apply (ch_ok Hch). } { apply (ch_new Hch). } { apply (ch_fresh Hch). }
  { subst m'. apply Hdelta. }
  { eapply Forall_impl; [exact Hadded|]. by intros x [? _]. }
  set (w' := mkWriter (<[delta_id self := builder self]> (insert_deltas added (block_deltas w))) (set_index i' (root w)) next').
  assert (changed w w' l1 d target l2 new (builder self) added) as Hch'.
  { constructor; try done; [exact (eq_trans Hci (ch_counts Hch))|subst w'; cbn; by rewrite Hids, Hid|apply (ch_target Hch)]. }
  assert (bt_sorted m') as Hsm by (subst m'; apply Hdelta).
  assert (contents w' = rows_in (view_of w l1) ++ m' ++ rows_in (view_of w l2)) as Hcw by by eapply change_contents.
  exists self, added, next', w'. split_and!; [exact He| | |done| |done|].
  - unfold publish_split, apply_updates, index in *. cbn [root block_deltas]. rewrite Hrep. cbn [mbind option_bind].
    fold (added_ids added). by rewrite Hadd.
  - eapply (change_ok _ _ _ _ _ _ _ _ _ Hch' Hok m'); try done. by right; exists k0.
  - eapply changed_keeps; [exact Hch'|rewrite Forall_forall in Hadded; intros x Hx; by apply Hadded|].
    intros x Hx. rewrite Hcw, <- Happ. set_solver.
  - constructor; [done|]. eapply Forall_impl; [exact Hp|]. by intros x (_ & _ & ?).
Qed.
End Target.

Lemma bt_insert_forall (P : CompositeKey K * V -> Prop) k v m : P (k, v) -> Forall P m -> Forall P (bt_insert k v m).
Proof. intros Hk Hm. rewrite Forall_forall in *. intros x [->|Hx]%bt_insert_elem; [done|by apply Hm]. Qed.

Lemma bt_remove_forall (P : CompositeKey K * V -> Prop) k m : Forall P m -> Forall P (bt_remove k m).
Proof. intros Hm. rewrite Forall_forall in *. intros x Hx%bt_remove_elem. by apply Hm. Qed.

Lemma bt_insert_not_nil (k : CompositeKey K) (v : V) m : bt_insert k v m <> [].
Proof. destruct m as [|[k' v'] m]; cbn; [done|]. by destruct (cmp k k'). Qed.

(** Deltas that are new are not too large. *)
Definition grown w w' : Prop :=
  forall id st, block_deltas w' !! id = Some st ->
    block_deltas w !! id = Some st \/ bounded (max_block_size_bytes (root w)) (storage st).

Lemma changed_grown w w' l1 d target l2 new self added :
  writer_ok w -> changed w w' l1 d target l2 new self added -> bounded (max_block_size_bytes (root w)) (storage self) ->
  Forall (fun x => bounded (max_block_size_bytes (root w)) (storage (builder x.2))) added -> grown w w'.
Proof.
  intros Hok Hch Hself Hadded id st. rewrite (ch_deltas Hch). rewrite lookup_insert_Some. intros [[_ <-]|[_ Hl]]; [by right|].
  destruct (change_ids _ _ _ _ _ _ _ _ _ Hch Hok) as (Hnd & _ & _). rewrite Forall_forall in Hadded.
  destruct (decide (id ∈ delta_id ∘ snd <$> added)) as [Hin|Hin]; [|left; by rewrite insert_deltas_notin in Hl].
  apply list_elem_of_fmap in Hin as (x & -> & Hx). cbn in Hl. rewrite insert_deltas_in in Hl by done. injection Hl as <-.
  right. by apply Hadded.
Qed.

Lemma set_spec w s p k v :
  writer_ok w -> fits (max_block_size_bytes (root w)) (mkCompositeKey p k, v) ->
  match set new_v4 p k v w s with
  | (Ok _, w', _) => writer_ok w' /\ contents w' = bt_insert (mkCompositeKey p k) v (contents w) /\ grown w w' /\ keeps w w'
  | (Err e, w', _) => w' = w /\ manager_error e
  end.
Proof.
  intros Hok Hfit. set (key := mkCompositeKey p k).
  destruct (target_view w key Hok) as (l1 & d & target & l2 & Ht & Hf & Hb & Hbs & Hs & Hfs & _ & Hins & _).
  set (m' := bt_insert key v (rows_of w target)). rewrite Hins. fold m'.
  assert (Forall (fun x => belongs (view_of w l2) d x.1) m') as Hb' by by apply bt_insert_forall.
  assert (Forall (fits (max_block_size_bytes (root w))) m') as Hf' by by apply bt_insert_forall.
  unfold set. fold key. rewrite Ht. destruct (block_deltas w !! target) as [st|] eqn:Hd.
  - assert (rows_of w target = storage st) as Hr by (unfold rows_of; by rewrite Hd).
    destruct (w_deltas w Hok target st Hd) as [Hst _]. pose proof (storage_add_ok key v st Hst) as Hadd.
    pose proof (storage_add_rows key v st ltac:(apply Hst)) as Hrows. rewrite <- Hr in Hrows. fold m' in Hrows.
    pose proof (changed_in_place w l1 d target l2 Hok Hf (storage_add key v st)) as Hch.
    destruct (Z.ltb_spec (max_block_size_bytes (root w)) (delta_size (delta_add key v (mkDelta st target)))) as [Hbig|Hsmall].
    + destruct (publish_ok w l1 d target l2 Hok Hf target (index w) (next_uuid w) [] (delta_add key v (mkDelta st target)) m')
        as (self & added & next' & w' & -> & Hpub & Hw' & Hc' & Hdl' & Hch' & [Hb1 Hb2]%Forall_cons); try done; [|apply bt_insert_not_nil|].
      { by destruct w as [? [] ?]. }
      assert (mkWriter (block_deltas w) (root w) (next_uuid w) = w) as Hw by by destruct w. rewrite Hw in Hpub. rewrite Hpub.
      split_and!; [done|done|by eapply changed_grown|done].
    + destruct (single_ok w l1 d target l2 Hok _ _ _ m' Hch) as (H1 & H2 & H3); try done. split_and!; [done|done| |done].
      eapply changed_grown; [exact Hok|exact Hch| |constructor]. left. by rewrite <- (storage_size_rows _ Hadd).
  - pose proof (fork_target_spec w s d target Hok ltac:(rewrite Hf; set_solver) Hd Hs) as Hfork.
    destruct (fork_target new_v4 target w s) as [[[delta|e] w1] s1]; [|done].
    destruct Hfork as (-> & Hid & Hrows & Hst). cbn [root next_uuid block_deltas].
    destruct (fork_index_spec w l1 d target l2 Hok Hf Hd) as (i & Hrep & Hfi & Hci & Hi & Hfr).
    pose proof (storage_add_ok key v _ Hst) as Hadd. pose proof (storage_add_rows key v (builder delta) ltac:(apply Hst)) as Hrows'.
    rewrite Hrows in Hrows'. fold m' in Hrows'.
    pose proof (changed_fork w l1 d target l2 Hf i (storage_add key v (builder delta)) Hfi Hci Hi Hfr Hd) as Hch.
    destruct (Z.ltb_spec (max_block_size_bytes (root w)) (delta_size (delta_add key v delta))) as [Hbig|Hsmall].
    + destruct (publish_ok w l1 d target l2 Hok Hf (new_v4 (next_uuid w)) i (S (next_uuid w)) [(target, new_v4 (next_uuid w))] (delta_add key v delta) m')
        as (self & added & next' & w' & -> & Hpub & Hw' & Hc' & Hdl' & Hch' & [Hb1 Hb2]%Forall_cons); try done; [|apply bt_insert_not_nil|].
      { cbn. by rewrite Hrep. }
      cbn [delta_id delta_add]. rewrite Hid, Hpub. split_and!; [done|done|by eapply changed_grown|done].
    + cbn [delta_id delta_add]. rewrite Hid. unfold index in Hrep |- *. cbn [root]. rewrite Hrep.
      destruct (single_ok w l1 d target l2 Hok _ _ _ m' Hch) as (H1 & H2 & H3); try done. split_and!; [done|done| |done].
      eapply changed_grown; [exact Hok|exact Hch| |constructor]. left. by rewrite <- (storage_size_rows _ Hadd).
Qed.

Lemma with_fork_spec w s f l1 d target l2 m' :
  writer_ok w -> forward (index w) = l1 ++ (d, target) :: l2 -> block_deltas w !! target = None -> bt_sorted (rows_of w target) ->
  (forall delta, storage (builder delta) = rows_of w target -> storage_ok (builder delta) ->
     delta_id (f delta) = delta_id delta /\ storage (builder (f delta)) = m' /\ storage_ok (builder (f delta))) ->
  Forall (fun x => belongs (view_of w l2) d x.1) m' -> Forall (fits (max_block_size_bytes (root w))) m' ->
  match with_fork new_v4 target f w s with
  | (Ok delta, w', _) => storage (builder delta) = m' /\ writer_ok w' /\
      contents w' = rows_in (view_of w l1) ++ m' ++ rows_in (view_of w l2) /\ keeps w w'
  | (Err e, w', _) => w' = w /\ manager_error e
  end.
Proof.
  intros Hok Hf Hd Hs Hfun Hb Hfit. pose proof (fork_target_spec w s d target Hok ltac:(rewrite Hf; set_solver) Hd Hs) as Hfork.
  unfold with_fork. destruct (fork_target new_v4 target w s) as [[[delta|e] w1] s1]; [|done].
  destruct Hfork as (-> & Hid & Hrows & Hst). destruct (Hfun delta Hrows Hst) as (F1 & F2 & F3). rewrite F1, Hid.
  destruct (fork_index_spec w l1 d target l2 Hok Hf Hd) as (i & Hrep & Hfi & Hci & Hi & Hfr).
  unfold index in Hrep |- *. cbn [root]. rewrite Hrep. cbn [next_uuid block_deltas]. split; [done|].
  eapply single_ok; try done. by apply changed_fork.
Qed.

Lemma delete_key_spec w s p k :
  writer_ok w ->
  match delete_key new_v4 p k w s with
  | (Ok _, w', _) => writer_ok w' /\ contents w' = bt_remove (mkCompositeKey p k) (contents w) /\ keeps w w'
  | (Err e, w', _) => w' = w /\ manager_error e
  end.
Proof.
  intros Hok. set (key := mkCompositeKey p k).
  destruct (target_view w key Hok) as (l1 & d & target & l2 & Ht & Hf & Hb & Hbs & Hs & Hfs & _ & _ & Hrem).
  set (m' := bt_remove key (rows_of w target)). rewrite Hrem. fold m'.
  assert (Forall (fun x => belongs (view_of w l2) d x.1) m') as Hb' by by apply bt_remove_forall.
  assert (Forall (fits (max_block_size_bytes (root w))) m') as Hf' by by apply bt_remove_forall.
  unfold delete_key. fold key. rewrite Ht. destruct (block_deltas w !! target) as [st|] eqn:Hd.
  - assert (rows_of w target = storage st) as Hr by (unfold rows_of; by rewrite Hd).
    destruct (w_deltas w Hok target st Hd) as [Hst _]. eapply (single_ok w l1 d target l2 Hok _ target (storage_delete key st) m'); try done.
    + by apply changed_in_place.
    + subst m'. by rewrite Hr.
    + by apply storage_delete_ok.
  - pose proof (with_fork_spec w s (delta_delete key) l1 d target l2 m' Hok Hf Hd Hs) as Hw.
    destruct (with_fork new_v4 target (delta_delete key) w s) as [[[delta|e] w1] s1]; apply Hw; try done.
    all: intros delta' Hr' Hst'; split_and!; [done|subst m'; by rewrite <- Hr'|by apply storage_delete_ok].
Qed.

Lemma get_owned_spec w s p k :
  writer_ok w ->
  match get_owned new_v4 p k w s with
  | (Ok v, w', _) => v = bt_get (mkCompositeKey p k) (contents w) /\ writer_ok w' /\ contents w' = contents w /\ keeps w w'
  | (Err e, w', _) => w' = w /\ manager_error e
  end.
Proof.
  intros Hok. set (key := mkCompositeKey p k).
  destruct (target_view w key Hok) as (l1 & d & target & l2 & Ht & Hf & Hb & Hbs & Hs & Hfs & Hget & _ & _).
  unfold get_owned. fold key. rewrite Ht, Hget. destruct (block_deltas w !! target) as [st|] eqn:Hd.
  - assert (rows_of w target = storage st) as Hr by (unfold rows_of; by rewrite Hd). rewrite Hr. unfold keeps. split_and!; try done. intros d' Hd'. by left.
  - pose proof (with_fork_spec w s id l1 d target l2 (rows_of w target) Hok Hf Hd Hs) as Hw.
    assert (contents w = rows_in (view_of w l1) ++ rows_of w target ++ rows_in (view_of w l2)) as ->.
    { unfold contents. rewrite Hf. unfold view_of. by rewrite fmap_app, fmap_cons, rows_in_app. }
    destruct (with_fork new_v4 target id w s) as [[[delta|e] w1] s1]; [|by apply Hw].
    destruct Hw as (Hrows & Hw & Hc & Hdl); try done. unfold get_owned_value. by rewrite Hrows.
Qed.
End Ops.
