(* ===== verification/BlockfileCommit.v ===== *)
(** * Commits of blockfile writers

    A commit keeps what the writer holds: empty blocks leave the index, and
    every block that stays is counted. *)

From S2P Require Import Prelude Setsum Storage Types BTree BlockKey SparseIndex BlockDelta Block Blockfile DeltaFacts IndexFacts BlockfileFacts BlockfileOps.

#[local] Open Scope Z_scope.

Section Commit.
Context {K V : Type} {KK : Key K} {VV : Value V} {BM : BlockManager K V} {KL : KeyLaws K} {VL : ValueLaws V}.
Context (new_v4 : nat -> Uuid) (path : string) (stored : Uuid -> option (Block K V)) {BML : BlockManagerLaws BM path stored}.
Context (w : BlockfileWriter K V).
Implicit Types i : SparseIndexWriterData K.

#[local] Abbreviation view := (view_of stored w).
#[local] Abbreviation rows_of := (rows_of stored w).

(** What the loop of [commit] keeps. *)
Definition commit_ok i : Prop :=
  index_ok i /\ placed (view (forward i)) /\ rows_in (view (forward i)) = contents stored w /\
  (forall d, d ∈ (forward i).*1 -> d = Start \/ d ∈ (forward (index w)).*1).

Definition len_of (id : Uuid) : Z := Z.of_nat (length (rows_of id)) mod 2 ^ 32.

(** ** Empty blocks *)

Lemma drop_empty l1 d id l2 :
  rows_of id = [] -> placed (view (l1 ++ (d, id) :: l2)) ->
  placed (view (l1 ++ l2)) /\ rows_in (view (l1 ++ l2)) = rows_in (view (l1 ++ (d, id) :: l2)).
Proof.
  intros He. unfold view_of. rewrite !fmap_app, fmap_cons. cbn [fst snd]. rewrite He. intros (H1 & (_ & _ & H2) & H3)%placed_app.
  rewrite !rows_in_app, rows_in_cons. split; [|done]. apply placed_app. split_and!; [done..|].
  eapply Forall_impl; [exact H3|]. by intros x [_ Hx]%Forall_cons.
Qed.

Lemma restart_view l : placed (view l) -> placed (view (restart l)) /\ rows_in (view (restart l)) = rows_in (view l).
Proof.
  destruct l as [|[d id] l]; [done|]. cbn. intros (H1 & H2 & H3). split; [|done]. split_and!; [done| |done].
  eapply Forall_impl; [exact H2|]. intros x [_ Hx]. by split.
Qed.

Lemma others_same_refl id i : others_same id i i.
Proof. done. Qed.

Lemma remove_keeps i d id :
  commit_ok i -> (d, id) ∈ forward i -> rows_of id = [] ->
  exists removed i', remove_block id i = (removed, i') /\ commit_ok i' /\ others_same id i i' /\
    (length (forward i') <= length (forward i))%nat /\
    if removed : bool then reverse i' !! id = None else length (forward i) = 1%nat /\ i' = i.
Proof.
  intros (Hok & Hp & Hr & Hdl) (l1 & l2 & Hf)%list_elem_of_split He. destruct (decide (l1 ++ l2 = [])) as [Hnil|Hne].
  - exists false, i. apply app_eq_nil in Hnil as [-> ->]. cbn in Hf.
    destruct (ok_start i Hok) as (id0 & rest & Hst). rewrite Hf in Hst. simplify_eq.
    assert (remove_block id0 i = (false, correct_start_key i)) as ->. { unfold remove_block, index_len. by rewrite Hf. }
    unfold correct_start_key. rewrite Hf. split_and!; [done|by split_and!|done..].
  - destruct (remove_block_spec i l1 d id l2 Hok Hf Hne) as (i' & Hrem & Hok' & Hf' & Hr' & Ho'). exists true, i'.
    rewrite Hf in Hp, Hr. destruct (drop_empty l1 d id l2 He Hp) as [Hp1 Hr1]. destruct (restart_view _ Hp1) as [Hp2 Hr2].
    split_and!; [done|split_and!; [done|by rewrite Hf'|by rewrite Hf', Hr2, Hr1|]|done| |done].
    { rewrite Hf'. intros d' Hd'. assert (d' = Start \/ d' ∈ (l1 ++ l2).*1) as [?|Hin]; [|by left|].
      - destruct (l1 ++ l2) as [|[d0 id0] l0]; [by apply elem_of_nil in Hd'|]. cbn in *. set_solver.
      - apply Hdl. rewrite Hf. rewrite fmap_app in Hin |- *. set_solver. }
    rewrite Hf', Hf, length_app. cbn. destruct (l1 ++ l2) as [|[d0 id0] l0] eqn:Hl; [done|]. cbn.
    apply (f_equal length) in Hl. rewrite length_app in Hl. cbn in Hl. lia.
Qed.

Lemma set_count_keeps i d id c :
  commit_ok i -> (d, id) ∈ forward i ->
  exists i', set_count id c i = (Ok tt, i') /\ commit_ok i' /\ others_same id i i' /\ forward i' = forward i /\
    reverse i' = reverse i /\ count_of i' id = Some c.
Proof.
  intros (Hok & Hp & Hr & Hdl) Hin. destruct (set_count_spec i d id c Hok Hin) as (i' & He & Hf & Hv & Hc & Hok').
  assert (reverse i !! id = Some d) as Hd by by apply Hok.
  exists i'. unfold commit_ok. rewrite Hf, Hv. split_and!; [done..| |done|done|].
  - intros id' Hne. unfold count_of. rewrite Hv, Hc. split; [|done]. destruct (reverse i !! id') as [d'|] eqn:Hr'; [cbn|done].
    rewrite bt_get_insert. destruct (cmp d' d) eqn:Hcmp; [|done|done]. apply cmp_eq in Hcmp as ->. exfalso.
    apply Hok in Hr'. pose proof (ok_sorted i Hok) as Hs. apply bt_get_elem in Hr'; [|done]. apply bt_get_elem in Hin; [|done]. congruence.
  - unfold count_of. rewrite Hv, Hd, Hc. cbn. by rewrite bt_get_insert, cmp_refl.
Qed.

(** ** The loop *)

Lemma commit_delta_spec i (delta : BlockDelta K V) :
  commit_ok i -> is_Some (reverse i !! delta_id delta) -> rows_of (delta_id delta) = storage (builder delta) ->
  exists removed i', commit_delta i delta = Ok (removed, i') /\ commit_ok i' /\ others_same (delta_id delta) i i' /\
    (length (forward i') <= length (forward i))%nat /\
    if removed : bool then reverse i' !! delta_id delta = None
    else count_of i' (delta_id delta) = Some (len_of (delta_id delta)) /\ (storage (builder delta) <> [] \/ length (forward i') = 1%nat).
Proof.
  intros Hok [d Hd] Hrows. assert ((d, delta_id delta) ∈ forward i) as Hin by by apply (ok_reverse i (proj1 Hok)).
  assert (Z.of_nat (delta_len delta) mod 2 ^ 32 = len_of (delta_id delta)) as Hlen by (unfold len_of; by rewrite Hrows).
  unfold commit_delta. rewrite Hlen. case_bool_decide as He.
  - assert (rows_of (delta_id delta) = []) as Hempty by (rewrite Hrows; by apply nil_length_inv).
    destruct (remove_keeps i d (delta_id delta) Hok Hin Hempty) as (removed & i' & -> & Hok' & Ho & Hl & Hrm).
    destruct removed; [by exists true, i'|]. destruct Hrm as [H1 ->].
    destruct (set_count_keeps i d (delta_id delta) (len_of (delta_id delta)) Hok Hin) as (i2 & -> & Hok2 & Ho2 & Hf2 & _ & Hc2).
    exists false, i2. split_and!; [done|done|done|by rewrite Hf2|done|]. right. by rewrite Hf2.
  - destruct (set_count_keeps i d (delta_id delta) (len_of (delta_id delta)) Hok Hin) as (i2 & -> & Hok2 & Ho2 & Hf2 & _ & Hc2).
    exists false, i2. split_and!; [done|done|done|by rewrite Hf2|done|]. left. intros Hn. apply He. unfold delta_len, storage_len. by rewrite Hn.
Qed.

Lemma index_nonempty i : index_ok i -> (1 <= length (forward i))%nat.
Proof. intros Hok. destruct (ok_start i Hok) as (id & rest & ->). cbn. lia. Qed.

Lemma commit_deltas_spec : forall (l : list (BlockDelta K V)) i,
  commit_ok i -> NoDup (delta_id <$> l) ->
  Forall (fun x => is_Some (reverse i !! delta_id x) /\ rows_of (delta_id x) = storage (builder x)) l ->
  exists kept i', commit_deltas l i = Ok (kept, i') /\ commit_ok i' /\ sublist kept l /\
    (forall id, id ∉ delta_id <$> l -> count_of i' id = count_of i id /\ (is_Some (reverse i' !! id) <-> is_Some (reverse i !! id))) /\
    (forall x, x ∈ l -> reverse i' !! delta_id x = None \/ x ∈ kept) /\
    (forall x, x ∈ kept -> is_Some (reverse i' !! delta_id x) /\ count_of i' (delta_id x) = Some (len_of (delta_id x)) /\
       (storage (builder x) <> [] \/ length (forward i') = 1%nat)) /\
    (length (forward i') <= length (forward i))%nat.
Proof.
  induction l as [|x l IH]; intros i Hok Hnd Hl; cbn [commit_deltas].
  { exists [], i. split_and!; [done..|by intros ? ?%elem_of_nil|by intros ? ?%elem_of_nil|done]. }
  cbn in Hnd. apply NoDup_cons in Hnd as [Hx Hnd]. apply Forall_cons in Hl as [[Hrx Hrows] Hl].
  destruct (commit_delta_spec i x Hok Hrx Hrows) as (removed & i1 & -> & Hok1 & Ho1 & Hl1 & Hres).
  destruct (IH i1 Hok1 Hnd) as (kept & i2 & -> & Hok2 & Hsub & Hoth & Hall & Hkept & Hl2).
  { rewrite Forall_forall in *. intros y Hy. destruct (Hl y Hy) as [Hy1 Hy2]. split; [|done].
    apply (Ho1 (delta_id y)); [|done]. intros He. apply Hx. rewrite <- He. apply list_elem_of_fmap. by exists y. }
  destruct (Hoth (delta_id x) Hx) as [Hcx Hsx].
  exists (if removed then kept else x :: kept), i2. split_and!; [by destruct removed|done|by destruct removed; constructor| | | |lia].
  - intros id Hid. cbn in Hid. rewrite not_elem_of_cons in Hid. destruct Hid as [Hne Hnl]. destruct (Hoth id Hnl) as [E1 E2].
    destruct (Ho1 id Hne) as [E3 E4]. by rewrite E1, E3, E2, E4.
  - intros y [->|Hy]%elem_of_cons.
    + destruct removed; [|right; set_solver]. left. destruct (reverse i2 !! delta_id x) eqn:Hr; [|done].
      rewrite Hres in Hsx. destruct Hsx as [Hsx _]. destruct Hsx; by eauto.
    + destruct (Hall y Hy) as [?|?]; [by left|right]. destruct removed; set_solver.
  - assert (forall y, y ∈ kept -> is_Some (reverse i2 !! delta_id y) /\ count_of i2 (delta_id y) = Some (len_of (delta_id y)) /\
       (storage (builder y) <> [] \/ length (forward i2) = 1%nat)) as Hk by done.
    intros y Hy. destruct removed; [by apply Hk|]. apply elem_of_cons in Hy as [->|Hy]; [|by apply Hk].
    destruct Hres as [Hc Hn]. rewrite Hcx. split_and!; [|done|].
    + apply Hsx. unfold count_of in Hc. destruct (reverse i1 !! delta_id x); [by eauto|done].
    + destruct Hn as [?|H1]; [by left|right]. pose proof (index_nonempty i2 (proj1 Hok2)). lia.
Qed.

(** ** Migrations *)

Definition migration_error (e : BlockfileError) : Prop := e = MigrationBlockNotFound \/ e = MigrationBlockFetchError.

Lemma count_blocks_spec : forall ids i s,
  commit_ok i -> Forall (fun id => is_Some (reverse i !! id) /\ block_deltas w !! id = None) ids ->
  match count_blocks path ids i s with
  | (Ok i', _) => commit_ok i' /\ forward i' = forward i /\ reverse i' = reverse i /\
      (forall id, id ∈ ids -> count_of i' id = Some (len_of id)) /\ (forall id, id ∉ ids -> count_of i' id = count_of i id)
  | (Err e, _) => migration_error e
  end.
Proof.
  unfold migration_error. induction ids as [|id ids IH]; intros i s Hok Hids; cbn [count_blocks].
  { split_and!; [done..|by intros ? ?%elem_of_nil|done]. }
  apply Forall_cons in Hids as [[[d Hd] Hnone] Hids].
  destruct (get_block path id s) as [[[b|]|e] s1] eqn:Hg; [|by auto..].
  assert ((d, id) ∈ forward i) as Hin by by apply (ok_reverse i (proj1 Hok)).
  assert (Z.of_nat (block_len b) mod 2 ^ 32 = len_of id) as ->.
  { apply get_block_law in Hg. unfold len_of, BlockfileOps.rows_of. by rewrite Hnone, Hg. }
  destruct (set_count_keeps i d id (len_of id) Hok Hin) as (i1 & -> & Hok1 & Ho1 & Hf1 & Hr1 & Hc1).
  specialize (IH i1 s1 Hok1). rewrite Hr1 in IH. specialize (IH Hids). destruct (count_blocks path ids i1 s1) as [[i2|e] s2]; [|done].
  destruct IH as (Hok2 & Hf2 & Hr2 & Hin2 & Hout2). rewrite Hf2, Hr2, Hf1. split_and!; [done..| |].
  - intros id' [->|Hid']%elem_of_cons; [|by apply Hin2]. destruct (decide (id ∈ ids)) as [|Hn]; [by apply Hin2|]. by rewrite Hout2.
  - intros id' [Hne Hn]%not_elem_of_cons. rewrite Hout2 by done. by apply Ho1.
Qed.

(** ** Commits *)

(** What a commit gives: an index of the same rows that counts every block, and
    the blocks to flush, which are the changed ones that stay. *)
Record committed (f : Flusher K V) : Prop := {
  c_index : commit_ok (sparse_index (flush_root f));
  c_ids : forall id, is_Some (reverse (sparse_index (flush_root f)) !! id) -> is_Some (reverse (index w) !! id);
  c_counts : counts (sparse_index (flush_root f)) = (fun x => (x.1, len_of x.2)) <$> forward (sparse_index (flush_root f));
  c_flushed : forall d id st, (d, id) ∈ forward (sparse_index (flush_root f)) -> block_deltas w !! id = Some st ->
    mkBlock (storage st) id ∈ flush_blocks f;
  c_blocks : forall b, b ∈ flush_blocks f -> is_Some (block_deltas w !! block_id b) /\ rows b = rows_of (block_id b) /\
    is_Some (reverse (sparse_index (flush_root f)) !! block_id b) /\
    (rows b <> [] \/ length (forward (sparse_index (flush_root f))) = 1%nat);
  c_nodup : NoDup (block_id <$> flush_blocks f);
  c_version : root_version (flush_root f) = V1_2;
  c_path : prefix_path (flush_root f) = prefix_path (root w);
  c_max : max_block_size_bytes (flush_root f) = max_block_size_bytes (root w);
  c_id : root_id (flush_root f) = root_id (root w);
  c_count : flush_count f = foldr (fun x acc => len_of x.2 + acc) 0 (forward (sparse_index (flush_root f)));
}.

(** An order in which a hash map may be drained. *)
Definition drains (order : list Uuid) : Prop := NoDup order /\ forall id, id ∈ order <-> is_Some (block_deltas w !! id).

Lemma drained order :
  drains order ->
  let l := omap (fun id => (fun st => mkDelta st id) <$> block_deltas w !! id) order in
  delta_id <$> l = order /\ (forall x, x ∈ l <-> block_deltas w !! delta_id x = Some (builder x)).
Proof.
  intros [_ Hdom] l. assert (forall o : list Uuid, (forall id, id ∈ o -> is_Some (block_deltas w !! id)) ->
    let l := omap (fun id => (fun st => mkDelta st id) <$> block_deltas w !! id) o in
    delta_id <$> l = o /\ (forall x, x ∈ l <-> delta_id x ∈ o /\ block_deltas w !! delta_id x = Some (builder x))) as Hgen.
  { induction o as [|id o IH]; intros Ho; cbn; [split; [done|]; intros x; set_solver|].
    destruct (Ho id) as [st Hst]; [set_solver|]. rewrite Hst. cbn. destruct IH as [IH1 IH2]; [set_solver|].
    cbn in IH1, IH2. rewrite IH1. split; [done|]. intros x. rewrite !elem_of_cons, IH2. split.
    - intros [->|[H1 H2]]; cbn; auto.
    - intros [[He|H1] H2]; [left|by right]. subst id. destruct x. cbn in *. congruence. }
  destruct (Hgen order) as [H1 H2]; [intros id; by apply Hdom|]. split; [done|]. intros x. subst l. cbn in H2. rewrite (H2 x).
  split; [by intros [_ ?]|]. intros Hx. split; [|done]. apply Hdom. by eauto.
Qed.

(** Every block is counted. *)
Lemma all_counted i :
  index_ok i -> (forall d id, (d, id) ∈ forward i -> count_of i id = Some (len_of id)) ->
  counts i = (fun x => (x.1, len_of x.2)) <$> forward i.
Proof.
  intros Hok Hall. assert (bt_sorted ((fun x => (x.1, len_of x.2)) <$> forward i)) as Hs.
  { apply (bt_sorted_fmap (fun x => len_of x.2)), Hok. }
  apply bt_ext; [apply Hok|done|]. intros d. destruct (bt_get d (counts i)) as [c|] eqn:Hc.
  - symmetry. apply bt_get_elem; [done|]. pose proof (ok_counted i Hok d c Hc) as ([d' id] & He & Hin)%list_elem_of_fmap. cbn in He. subst d'.
    apply list_elem_of_fmap. exists (d, id). split; [|done]. cbn. f_equal. pose proof (Hall d id Hin) as Hcount.
    unfold count_of in Hcount. apply (ok_reverse i Hok) in Hin. rewrite Hin in Hcount. cbn in Hcount. congruence.
  - symmetry. destruct (bt_get d ((fun x => (x.1, len_of x.2)) <$> forward i)) as [c|] eqn:Hg; [|done]. exfalso.
    apply bt_get_elem in Hg; [|done]. apply list_elem_of_fmap in Hg as ([d' id] & [= -> ->] & Hin). cbn in *.
    pose proof (Hall d' id Hin) as Hcount. unfold count_of in Hcount. apply (ok_reverse i Hok) in Hin. rewrite Hin in Hcount. cbn in Hcount. congruence.
Qed.

Lemma commit_spec order s :
  writer_ok new_v4 path stored w -> drains order ->
  match commit order w s with
  | (Ok f, _) => committed f
  | (Err e, _) => root_version (root w) = V1 /\ migration_error e
  end.
Proof.
  intros Hw Hdr. destruct (drained order Hdr) as [Hids Hmem]. unfold commit.
  set (l := omap (fun id => (fun st => mkDelta st id) <$> block_deltas w !! id) order) in *. cbn in Hids, Hmem.
  assert (forall x, x ∈ l -> rows_of (delta_id x) = storage (builder x)) as Hrows.
  { intros x Hx%Hmem. unfold BlockfileOps.rows_of. by rewrite Hx. }
  destruct (commit_deltas_spec l (index w)) as (kept & i & -> & Hok & Hsub & Hoth & Hall & Hkept & _).
  { split_and!; [apply Hw|apply (w_placed _ _ _ _ Hw)|done|by right]. } { rewrite Hids. apply Hdr. }
  { apply Forall_forall. intros x Hx. split; [|by apply Hrows]. apply Hmem in Hx. by apply (w_deltas _ _ _ _ Hw) in Hx as [_ ?]. }
  (** A block without a delta has the count it had. *)
  assert (forall d id, (d, id) ∈ forward i -> block_deltas w !! id = None ->
            exists c, count_of i id = Some c /\ (root_version (root w) <> V1 -> c = len_of id)) as Hold.
  { intros d id Hin Hn. assert (id ∉ delta_id <$> l) as Hnl.
    { rewrite Hids. intros Hin'%Hdr. rewrite Hn in Hin'. by destruct Hin'. }
    destruct (Hoth id Hnl) as [-> Hs]. assert (is_Some (reverse (index w) !! id)) as [d' Hd'].
    { apply Hs. exists d. by apply (ok_reverse i (proj1 Hok)). }
    apply (ok_reverse _ (w_index _ _ _ _ Hw)) in Hd' as Hin'. destruct (w_stored _ _ _ _ Hw d' id Hin' Hn) as (b & c & Hb & Hc & Hex).
    exists c. unfold count_of. rewrite Hd'. split; [done|]. intros Hv. rewrite (Hex Hv). unfold len_of, BlockfileOps.rows_of. by rewrite Hn, Hb. }
  assert (forall d id st, (d, id) ∈ forward i -> block_deltas w !! id = Some st -> mkDelta st id ∈ kept) as Hnew.
  { intros d id st Hin Hst. destruct (Hall (mkDelta st id)) as [Hn|]; [by apply Hmem| |done]. cbn in Hn.
    apply (ok_reverse i (proj1 Hok)) in Hin. congruence. }
  (** What holds of any index with the same blocks and every count. *)
  assert (forall i' f, commit_ok i' -> forward i' = forward i -> reverse i' = reverse i ->
    (forall d id, (d, id) ∈ forward i -> count_of i' id = Some (len_of id)) ->
    f = mkFlusher (finish <$> kept) (mkRootWriter i' (root_id (root w)) V1_2 (prefix_path (root w)) (max_block_size_bytes (root w)))
          (foldr (fun x acc => x.2 + acc) 0 (counts i')) -> committed f) as Hdone.
  { intros i' f Hok' Hf Hr Hc ->. assert (counts i' = (fun x => (x.1, len_of x.2)) <$> forward i') as Hcs.
    { apply all_counted; [apply Hok'|]. by rewrite Hf. }
    constructor; cbn; try done.
    - rewrite Hr. intros id Hid. destruct (decide (id ∈ delta_id <$> l)) as [Hin|Hn]; [|by apply Hoth].
      apply list_elem_of_fmap in Hin as (x & -> & Hx%Hmem). by apply (w_deltas _ _ _ _ Hw) in Hx as [_ ?].
    - rewrite Hf. intros d id st Hin Hst. apply list_elem_of_fmap. by exists (mkDelta st id); eauto.
    - rewrite Hr, Hf. intros b (x & -> & Hx)%list_elem_of_fmap. cbn. destruct (Hkept x Hx) as (H1 & H2 & H3).
      assert (x ∈ l) as Hxl by (by eapply elem_of_sublist). split_and!; [apply Hmem in Hxl; by eauto|by rewrite Hrows|done|done].
    - assert (block_id <$> (finish <$> kept) = delta_id <$> kept) as -> by (by rewrite <- list_fmap_compose).
      eapply (sublist_NoDup _ (delta_id <$> l)); [rewrite Hids; apply Hdr|by apply fmap_sublist].
    - rewrite Hcs. clear. induction (forward i') as [|x l IH]; cbn; [done|]. by rewrite IH. }
  unfold apply_migrations. cbn [root_version set_index sparse_index root_id prefix_path max_block_size_bytes].
  destruct (root_version (root w)) eqn:Hv.
  2,3: apply (Hdone i); try done; intros d id Hin;
    destruct (block_deltas w !! id) as [st|] eqn:Hst; [by apply (Hkept (mkDelta st id)); eauto|];
    destruct (Hold d id Hin Hst) as (c & -> & Hex); rewrite Hex by done; done.
  set (ids := List.filter _ _).
  assert (forall id, id ∈ ids <-> block_deltas w !! id = None /\ id ∈ (forward i).*2) as Hidsmem.
  { intros id. subst ids. rewrite list_elem_of_In, filter_In, <- list_elem_of_In, negb_true_iff, bool_decide_eq_false, elem_of_list_to_set, Hids.
    destruct Hdr as [_ Hdom]. rewrite Hdom, <- eq_None_not_Some. tauto. }
  pose proof (count_blocks_spec ids i s Hok) as Hcb. rewrite (w_path _ _ _ _ Hw). destruct (count_blocks path ids i s) as [[i'|e] s'].
  2: { split; [done|]. apply Hcb. apply Forall_forall. intros id [Hn ([d id'] & -> & Hin)%list_elem_of_fmap]%Hidsmem.
       split; [|done]. exists d. by apply (ok_reverse i (proj1 Hok)). }
  destruct Hcb as (Hok' & Hf & Hr & Hin & Hout).
  { apply Forall_forall. intros id [Hn ([d id'] & -> & Hin)%list_elem_of_fmap]%Hidsmem.
    split; [|done]. exists d. by apply (ok_reverse i (proj1 Hok)). }
  apply (Hdone i'); try done.
  - intros d id Hd. destruct (block_deltas w !! id) as [st|] eqn:Hst.
    + rewrite Hout by (rewrite Hidsmem, Hst; by intros [? _]). apply (Hkept (mkDelta st id)). by eauto.
    + apply Hin, Hidsmem. split; [done|]. apply list_elem_of_fmap. by exists (d, id).
  - by rewrite (w_path _ _ _ _ Hw).
Qed.
End Commit.
