(* ===== verification/BlockfileReads.v ===== *)
(** * Facts about blockfile readers

    The blocks that an index lists for a query hold all rows of the query, and a
    reader returns what a search of the whole map would.  Then the lists of blocks to prefetch: those
    of keys are the targets of the keys, those of prefixes the blocks that are
    searched for any of them. *)

From stdpp Require Import sorting.
From S2P Require Import Prelude Setsum Storage Types BTree BlockKey SparseIndex BlockDelta Block Blockfile BlockFacts IndexFacts BlockfileFacts BlockfileOps.

#[local] Open Scope Z_scope.

(** ** Blocks of a range *)

Section Index.
Context {K V : Type} {KK : Key K} {KL : KeyLaws K}.
Implicit Types (r : SparseIndexReader K) (d : SparseIndexDelimiter K) (k : CompositeKey K).

(** A key is between the delimiter of its block and the later ones. *)
Definition inside d r k : Prop := leb d (DelimiterKey k) = true /\ Forall (fun y => cmp (DelimiterKey k) y.1 = Lt) r.

Lemma overlaps_point lo hi q : above lo q = true -> under hi q = true -> overlaps lo hi = true.
Proof.
  unfold above, under, in_bounds, overlaps. rewrite andb_true_r. cbn.
  destruct lo as [a|a|], hi as [b|b|]; rewrite ?ltb_lt; try done; intros H1 H2.
  - by eapply leb_trans.
  - by eapply le_lt_trans.
  - by eapply lt_le_trans.
  - by eapply cmp_trans.
Qed.

Lemma inside_start_prefix d r k lo : inside d r k -> above lo (prefix k) = true -> above (max_start_prefix lo d) (prefix k) = true.
Proof.
  intros [Hd _] Hlo. destruct d as [|dk]; [done|]. assert (leb (prefix dk) (prefix k) = true) as Hp by by apply composite_le_prefix.
  assert (above (Included (prefix dk)) (prefix k) = true) as Ha by (unfold above, in_bounds; by rewrite Hp).
  cbn. destruct lo as [a|a|]; [destruct (ltb a (prefix dk))..|]; done.
Qed.

Lemma inside_end_prefix d r k hi :
  inside d r k -> under hi (prefix k) = true -> under (min_end_prefix hi (end_prefix r)) (prefix k) = true.
Proof.
  intros [_ Hr] Hhi. destruct r as [|[d' v'] r]; [done|]. apply Forall_cons in Hr as [Hd _]. cbn in Hd.
  destruct d' as [|dk]; [done|]. assert (leb (prefix k) (prefix dk) = true) as Hp.
  { apply composite_le_prefix, leb_lt_or_eq. by left. }
  assert (under (Included (prefix dk)) (prefix k) = true) as Ha by (unfold under, in_bounds; by rewrite Hp).
  cbn. destruct hi as [a|a|]; [destruct (ltb (prefix dk) a)..|]; done.
Qed.

Lemma range_lists d r k lo hi :
  inside d r k -> in_bounds lo hi (prefix k) = true -> overlaps (max_start_prefix lo d) (min_end_prefix hi (end_prefix r)) = true.
Proof.
  rewrite in_bounds_sides, andb_true_iff. intros Hin [Hlo Hhi].
  eapply overlaps_point; [by eapply inside_start_prefix|by eapply inside_end_prefix].
Qed.

(** The blocks up to a prefix are the first ones. *)
Definition starts_by (p : string) d : bool := match d with Start => true | DelimiterKey k => leb (prefix k) p end.

Lemma range_up_to p r :
  bt_sorted r -> get_block_ids_range Unbounded (Included p) r = (fun x => siv_id x.2) <$> List.filter (fun x => starts_by p x.1) r.
Proof.
  intros Hs. induction r as [|[d v] r IH]; [done|]. apply bt_sorted_cons in Hs as [Hd Hs]. cbn [get_block_ids_range List.filter fst snd].
  rewrite IH by done.
  assert (overlaps (max_start_prefix Unbounded d) (min_end_prefix (Included p) (end_prefix r)) = starts_by p d) as ->.
  { destruct d as [|dk]; [done|]. destruct r as [|[d' v'] r]; [done|].
    apply Forall_cons in Hd as [Hd _]. cbn in Hd. destruct d' as [|dk']; [done|]. cbn.
    assert (leb (prefix dk) (prefix dk') = true) as Hle. { apply composite_le_prefix, leb_lt_or_eq. by left. }
    destruct (ltb (prefix dk') p) eqn:Hlt; cbn; [|done]. rewrite Hle. symmetry. apply leb_lt_or_eq. left.
    apply ltb_lt in Hlt. by eapply le_lt_trans. }
  by destruct (starts_by p d).
Qed.
End Index.

(** ** Readers *)

Section Reads.
Context {K V : Type} {KK : Key K} {BM : BlockManager K V} {KL : KeyLaws K}.
Context (path : string) (stored : Uuid -> option (Block K V)) {BML : BlockManagerLaws BM path stored}.
Implicit Types (r : BlockfileReader K V) (idx : SparseIndexReader K).

Definition stored_rows (id : Uuid) : btree (CompositeKey K) V := match stored id with Some b => rows b | None => [] end.

Definition index_view idx : list (SparseIndexDelimiter K * btree (CompositeKey K) V) :=
  (fun x => (x.1, stored_rows (siv_id x.2))) <$> idx.

(** An index of stored blocks, in order. *)
Record blocks_ok idx : Prop := {
  b_sorted : bt_sorted idx;
  b_start : exists v rest, idx = (Start, v) :: rest;
  b_placed : placed (index_view idx);
  b_stored : forall d v, (d, v) ∈ idx -> is_Some (stored (siv_id v));
  b_distinct : NoDup ((fun x => siv_id x.2) <$> idx);
}.

Record reader_ok r : Prop := {
  r_index : blocks_ok (reader_index (read_root r));
  r_path : reader_prefix_path (read_root r) = path;
  r_loaded : forall id b, loaded_blocks r !! id = Some b -> stored id = Some b;
}.

Definition reader_contents r : btree (CompositeKey K) V := rows_in (index_view (reader_index (read_root r))).

(** A read that returns [Q], or fails to fetch a block, and keeps the reader. *)
Definition reads {A} (c : Reading A) (Q : A -> Prop) : Prop :=
  forall r s, reader_ok r ->
    match c r s with
    | (Ok a, r', _) => Q a /\ reader_ok r' /\ read_root r' = read_root r
    | (Err e, r', _) => (exists g, e = BlockFetchError g) /\ reader_ok r' /\ read_root r' = read_root r
    end.

Lemma reads_ret {A} (a : A) (Q : A -> Prop) : Q a -> reads (r_ret a) Q.
Proof. by intros Ha r s Hr. Qed.

Lemma reads_bind {A B} (c : Reading A) (f : A -> Reading B) Q R :
  reads c Q -> (forall a, Q a -> reads (f a) R) -> reads (r_bind c f) R.
Proof.
  intros Hc Hf r s Hr. unfold r_bind. specialize (Hc r s Hr). destruct (c r s) as [[[a|e] r1] s1]; [|done].
  destruct Hc as (Ha & Hr1 & He). specialize (Hf a Ha r1 s1 Hr1). destruct (f a r1 s1) as [[[b|e] r2] s2]; by rewrite <- He.
Qed.

Lemma reads_impl {A} (c : Reading A) (Q R : A -> Prop) : (forall a, Q a -> R a) -> reads c Q -> reads c R.
Proof.
  intros HQR Hc r s Hr. specialize (Hc r s Hr). destruct (c r s) as [[[a|e] r1] s1]; [|done]. destruct Hc. by split; [apply HQR|].
Qed.

Lemma get_block_reads id : reads (reader_get_block id) (fun b => exists b', b = Some b' /\ stored id = Some b').
Proof.
  intros r s Hr. unfold reader_get_block. destruct (loaded_blocks r !! id) as [b|] eqn:Hl.
  { split; [|done]. exists b. split; [done|]. by apply Hr. }
  rewrite (r_path r Hr). destruct (get_block path id s) as [[[b|]|e] s1] eqn:Hg.
  - apply get_block_law in Hg. split; [by eauto|]. split; [|done]. constructor; cbn; [apply Hr..|].
    intros id' b'. rewrite lookup_insert_Some. intros [[<- <-]|[_ Hb]]; [done|]. by apply (r_loaded r Hr).
  - by apply get_block_found in Hg.
  - by eauto.
Qed.

Lemma require_block_reads id : reads (require_block id) (fun b => stored id = Some b).
Proof.
  unfold require_block. eapply reads_bind; [apply get_block_reads|]. intros b (b' & -> & Hb). by apply reads_ret.
Qed.

Lemma require_blocks_reads ids : reads (require_blocks ids) (fun bs => Forall2 (fun id b => stored id = Some b) ids bs).
Proof.
  induction ids as [|id ids IH]; cbn [require_blocks]; [by apply reads_ret|].
  eapply reads_bind; [apply require_block_reads|]. intros b Hb. eapply reads_bind; [exact IH|]. intros bs Hbs.
  apply reads_ret. by constructor.
Qed.

Lemma load_blocks_ok ids : forall r s, reader_ok r ->
  reader_ok (load_blocks ids r s).1 /\ read_root (load_blocks ids r s).1 = read_root r.
Proof.
  induction ids as [|id ids IH]; intros r s Hr; cbn [load_blocks]; [done|]. destruct (is_cached id s) as [hit s1].
  destruct (negb hit && _); [|by apply IH]. pose proof (get_block_reads id r s1 Hr) as Hg.
  destruct (reader_get_block id r s1) as [[res r2] s2]. assert (reader_ok r2 /\ read_root r2 = read_root r) as [Hr2 He].
  { destruct res; by destruct Hg. }
  destruct (IH r2 s2 Hr2) as [H1 H2]. by rewrite H2, He.
Qed.

Lemma prefetch_reads ids : reads (prefetch ids) (fun _ => True).
Proof.
  intros r s Hr. unfold prefetch. pose proof (load_blocks_ok ids r s Hr) as [H1 H2].
  by destruct (load_blocks ids r s) as [r' s'].
Qed.

(** ** Rows of an index *)

Lemma index_view_sorted idx : blocks_ok idx -> bt_sorted (index_view idx).
Proof. intros Hb. apply (bt_sorted_fmap (fun x => stored_rows (siv_id x.2))), Hb. Qed.

Lemma target_rows idx k :
  blocks_ok idx ->
  exists id, reader_target_block_id k idx = Some id /\ bt_get k (rows_in (index_view idx)) = bt_get k (stored_rows id) /\
    bt_sorted (stored_rows id) /\
    exists l1 d v l2, idx = l1 ++ (d, v) :: l2 /\ siv_id v = id /\ inside d l2 k.
Proof.
  intros Hb. unfold reader_target_block_id, get_target_block.
  destruct (bt_last_le (DelimiterKey k) idx) as [[d v]|] eqn:Hl.
  - apply bt_last_le_spec in Hl as (l1 & l2 & Hi & Hd & Hn); [|apply Hb]. exists (siv_id v). split; [done|].
    pose proof (index_view_sorted idx Hb) as Hs. pose proof (b_placed idx Hb) as Hp. rewrite Hi in Hs, Hp.
    unfold index_view in Hs, Hp. rewrite fmap_app, fmap_cons in Hs, Hp. split_and!.
    + rewrite Hi. unfold index_view. rewrite fmap_app, fmap_cons. apply middle_get; [done..|]. by rewrite Forall_fmap.
    + by apply placed_app in Hp as (_ & (? & _) & _).
    + exists l1, d, v, l2. done.
  - exfalso. apply last_None in Hl. destruct (b_start idx Hb) as (v & rest & ->). done.
Qed.

Lemma get_reads p k r s :
  reader_ok r ->
  match reader_get p k r s with
  | (Ok v, r', _) => v = bt_get (mkCompositeKey p k) (reader_contents r) /\ reader_ok r' /\ read_root r' = read_root r
  | (Err e, r', _) => (exists g, e = BlockFetchError g) /\ reader_ok r' /\ read_root r' = read_root r
  end.
Proof.
  intros Hr. destruct (target_rows _ (mkCompositeKey p k) (r_index r Hr)) as (id & Ht & Hg & Hs & _).
  unfold reader_get, r_bind at 1, target_block. rewrite Ht.
  pose proof (reads_bind (reader_get_block id) (fun b => r_ret (match b with Some b => block_get p k b | None => None end))
                _ (fun v => v = bt_get (mkCompositeKey p k) (reader_contents r)) (get_block_reads id)) as Hb.
  apply Hb; [|done]. intros b (b' & -> & Hst). apply reads_ret. unfold reader_contents. rewrite Hg. unfold stored_rows in *.
  rewrite Hst in *. by apply block_get_sorted.
Qed.

Lemma contains_reads p k r s :
  reader_ok r ->
  match reader_contains p k r s with
  | (Ok b, r', _) => b = bool_decide (is_Some (bt_get (mkCompositeKey p k) (reader_contents r))) /\ reader_ok r' /\ read_root r' = read_root r
  | (Err e, r', _) => (exists g, e = BlockFetchError g) /\ reader_ok r' /\ read_root r' = read_root r
  end.
Proof.
  intros Hr. destruct (target_rows _ (mkCompositeKey p k) (r_index r Hr)) as (id & Ht & Hg & Hs & _).
  unfold reader_contains, r_bind at 1, target_block. rewrite Ht.
  pose proof (reads_bind (reader_get_block id)
    (fun b => r_ret (match b with Some b => bool_decide (is_Some (block_get p k b)) | None => false end))
    _ (fun v => v = bool_decide (is_Some (bt_get (mkCompositeKey p k) (reader_contents r)))) (get_block_reads id)) as Hb.
  apply Hb; [|done]. intros b (b' & -> & Hst). apply reads_ret. unfold reader_contents. rewrite Hg. unfold stored_rows in *.
  rewrite Hst in *. by rewrite block_get_sorted.
Qed.

(** ** Ranges *)

(** The rows of a range are in the blocks that the index lists for it. *)
Lemma range_rows lo hi (q : CompositeKey K * V -> bool) idx :
  (forall x, q x = true -> in_bounds lo hi (prefix x.1) = true) -> bt_sorted idx -> placed (index_view idx) ->
  concat ((fun id => List.filter q (stored_rows id)) <$> get_block_ids_range lo hi idx) = List.filter q (rows_in (index_view idx)).
Proof.
  intros Hq. induction idx as [|[d v] idx IH]; intros Hs Hp; [done|]. apply bt_sorted_cons in Hs as [Hd Hs].
  cbn in Hp. destruct Hp as (Hm & Hin & Hp). change (index_view ((d, v) :: idx)) with ((d, stored_rows (siv_id v)) :: index_view idx). rewrite rows_in_cons, List.filter_app, <- IH by done. cbn [get_block_ids_range].
  destruct (overlaps _ _) eqn:Ho; [done|]. rewrite (filter_none_elem q (stored_rows (siv_id v))); [done|].
  intros x Hx. destruct (q x) eqn:Hqx; [|done]. exfalso. rewrite Forall_forall in Hin. destruct (Hin x Hx) as [H1 H2].
  rewrite (range_lists d idx x.1 lo hi) in Ho; [done| |by apply Hq]. split; [done|]. by rewrite Forall_fmap in H2.
Qed.

Lemma blocks_rows {B} (f : Block K V -> list B) (g : btree (CompositeKey K) V -> list B) ids bs :
  Forall2 (fun id b => stored id = Some b) ids bs -> (forall id b, id ∈ ids -> stored id = Some b -> f b = g (rows b)) ->
  concat (f <$> bs) = concat ((fun id => g (stored_rows id)) <$> ids).
Proof.
  induction 1 as [|id b ids bs Hb _ IH]; intros Hfg; [done|]. cbn. rewrite IH by (intros; apply (Hfg id0); set_solver).
  rewrite (Hfg id b) by set_solver. unfold stored_rows. by rewrite Hb.
Qed.

Lemma range_ids_sorted lo hi idx id : placed (index_view idx) -> id ∈ get_block_ids_range lo hi idx -> bt_sorted (stored_rows id).
Proof.
  induction idx as [|[d v] idx IH]; [by intros _ ?%elem_of_nil|]. intros (Hm & _ & Hp). cbn [get_block_ids_range].
  destruct (overlaps _ _); [|by apply IH]. intros [->|Hin]%elem_of_cons; [done|by apply IH].
Qed.

Lemma get_range_reads plo phi lo hi r s :
  reader_ok r ->
  match reader_get_range plo phi lo hi r s with
  | (Ok l, r', _) => l = List.filter (fun x => selects plo phi lo hi x.1) (reader_contents r) /\ reader_ok r' /\ read_root r' = read_root r
  | (Err e, r', _) => (exists g, e = BlockFetchError g) /\ reader_ok r' /\ read_root r' = read_root r
  end.
Proof.
  intros Hr. pose proof (r_index r Hr) as Hi. set (idx := reader_index (read_root r)) in *. unfold reader_get_range. fold idx.
  set (ids := get_block_ids_range plo phi idx).
  pose proof (reads_bind (require_blocks ids) (fun bs => r_ret (concat (block_get_range plo phi lo hi <$> bs))) _
    (fun l => l = List.filter (fun x => selects plo phi lo hi x.1) (reader_contents r)) (require_blocks_reads ids)) as Hb.
  apply Hb; [|done]. intros bs Hbs. apply reads_ret. unfold reader_contents. fold idx.
  rewrite <- (range_rows plo phi _ idx); [|by intros x [? _]%andb_true_iff|apply Hi|apply Hi].
  rewrite (blocks_rows _ (List.filter (fun x => selects plo phi lo hi x.1)) ids bs Hbs); [done|].
  intros id b Hin Hst. apply block_get_range_sorted. pose proof (range_ids_sorted _ _ _ id (b_placed idx Hi) Hin) as Hs.
  unfold stored_rows in Hs. by rewrite Hst in Hs.
Qed.

Lemma get_prefix_reads p r s :
  reader_ok r ->
  match reader_get_prefix p r s with
  | (Ok l, r', _) => l = (fun x => (key x.1, x.2)) <$> List.filter (fun x => String.eqb (prefix x.1) p) (reader_contents r) /\
      reader_ok r' /\ read_root r' = read_root r
  | (Err e, r', _) => (exists g, e = BlockFetchError g) /\ reader_ok r' /\ read_root r' = read_root r
  end.
Proof.
  intros Hr. pose proof (r_index r Hr) as Hi. set (idx := reader_index (read_root r)) in *. unfold reader_get_prefix. fold idx.
  set (ids := get_block_ids_range (Included p) (Included p) idx). set (q := fun x : CompositeKey K * V => String.eqb (prefix x.1) p).
  set (proj := fun x : CompositeKey K * V => (key x.1, x.2)).
  pose proof (reads_bind (require_blocks ids) (fun bs => r_ret (concat (block_get_prefix p <$> bs))) _
    (fun l => l = proj <$> List.filter q (reader_contents r)) (require_blocks_reads ids)) as Hb.
  apply Hb; [|done]. intros bs Hbs. apply reads_ret. unfold reader_contents. fold idx.
  rewrite <- (range_rows (Included p) (Included p) q idx); [| |apply Hi|apply Hi].
  2: { intros x Hx%String.eqb_eq. rewrite Hx. unfold in_bounds. by rewrite leb_refl. }
  rewrite (blocks_rows _ (fun l => proj <$> List.filter q l) ids bs Hbs).
  - fold ids. clear. induction ids as [|id ids IH]; cbn; [done|]. by rewrite fmap_app, IH.
  - intros id b Hin Hst. apply block_get_prefix_sorted. pose proof (range_ids_sorted _ _ _ id (b_placed idx Hi) Hin) as Hs.
    unfold stored_rows in Hs. by rewrite Hst in Hs.
Qed.

(** ** Counts and ranks *)

(** From version 1.1 on an index has the number of rows of each block. *)
Definition counts_ok (root : RootReader K) : Prop :=
  forall d v, (d, v) ∈ reader_index root -> siv_count v = Z.of_nat (length (stored_rows (siv_id v))) mod 2 ^ 32.

Definition total (idx : SparseIndexReader K) : Z := Z.of_nat (length (rows_in (index_view idx))).

Lemma total_cons d v idx : total ((d, v) :: idx) = Z.of_nat (length (stored_rows (siv_id v))) + total idx.
Proof. unfold total. change (index_view ((d, v) :: idx)) with ((d, stored_rows (siv_id v)) :: index_view idx). rewrite rows_in_cons, length_app. lia. Qed.

Lemma sum_u32_total idx :
  (forall d v, (d, v) ∈ idx -> siv_count v = Z.of_nat (length (stored_rows (siv_id v))) mod 2 ^ 32) ->
  sum_u32 ((fun x => siv_count x.2) <$> idx) = total idx mod 2 ^ 32.
Proof.
  unfold sum_u32. intros Hc.
  assert (forall l acc, (forall d v, (d, v) ∈ l -> siv_count v = Z.of_nat (length (stored_rows (siv_id v))) mod 2 ^ 32) ->
    foldl (fun acc x => (acc + x) mod 2 ^ 32) (acc mod 2 ^ 32) ((fun x : SparseIndexDelimiter K * SparseIndexValue => siv_count x.2) <$> l) = (acc + total l) mod 2 ^ 32) as Hgen.
  { induction l as [|[d v] l IH]; intros acc Hl; [by rewrite Z.add_0_r|]. cbn [fmap list_fmap foldl snd].
    rewrite (Hl d v), <- Zplus_mod by set_solver. rewrite IH by (intros; apply (Hl d0); set_solver). rewrite total_cons. f_equal. lia. }
  specialize (Hgen idx 0 Hc). by rewrite Z.mod_0_l in Hgen.
Qed.

Lemma blocks_total ids bs :
  Forall2 (fun id b => stored id = Some b) ids bs ->
  foldr (fun b acc => Z.of_nat (block_len b) + acc) 0 bs = foldr (fun id acc => Z.of_nat (length (stored_rows id)) + acc) 0 ids.
Proof. induction 1 as [|id b ids bs Hb _ IH]; cbn in *; [done|]. rewrite IH. unfold stored_rows, block_len. by rewrite Hb. Qed.

Lemma ids_total idx : foldr (fun id acc => Z.of_nat (length (stored_rows id)) + acc) 0 ((fun x => siv_id x.2) <$> idx) = total idx.
Proof. induction idx as [|[d v] idx IH]; [done|]. cbn [fmap list_fmap foldr snd]. rewrite IH. by rewrite total_cons. Qed.

Definition counted_version (root : RootReader K) : bool := version_number V1_1 <=? version_number (reader_version root).

Lemma count_reads r s :
  reader_ok r -> (counted_version (read_root r) = true -> counts_ok (read_root r)) ->
  match reader_count r s with
  | (Ok n, r', _) =>
      n = (if counted_version (read_root r) then Z.of_nat (length (reader_contents r)) mod 2 ^ 32 else Z.of_nat (length (reader_contents r))) /\
      reader_ok r' /\ read_root r' = read_root r
  | (Err e, r', _) => (exists g, e = BlockFetchError g) /\ reader_ok r' /\ read_root r' = read_root r
  end.
Proof.
  intros Hr Hc. unfold reader_count. fold (counted_version (read_root r)). destruct (counted_version (read_root r)).
  - split; [|done]. by apply sum_u32_total, Hc.
  - set (ids := (fun x => siv_id x.2) <$> reader_index (read_root r)).
    pose proof (reads_bind (prefetch ids) (fun _ => r_bind (require_blocks ids) (fun bs =>
      r_ret (foldr (fun b acc => Z.of_nat (block_len b) + acc) 0 bs))) _ (fun n => n = Z.of_nat (length (reader_contents r))) (prefetch_reads ids)) as Hb.
    apply Hb; [|done]. intros _ _. eapply reads_bind; [apply require_blocks_reads|]. intros bs Hbs. apply reads_ret.
    rewrite (blocks_total ids bs Hbs). apply ids_total.
Qed.

(** The blocks before the one of a key. *)
Lemma preceding_ids p k idx l1 d v l2 :
  blocks_ok idx -> idx = l1 ++ (d, v) :: l2 -> inside d l2 (mkCompositeKey p k) ->
  take_while (fun id => negb (id =? siv_id v)) (get_block_ids_range Unbounded (Included p) idx) = (fun x => siv_id x.2) <$> l1.
Proof.
  intros Hb Hi [Hd _]. rewrite range_up_to by apply Hb. pose proof (b_sorted idx Hb) as Hs. pose proof (b_distinct idx Hb) as Hn.
  rewrite Hi in Hs, Hn |- *. destruct (middle_sorted _ _ _ _ Hs) as (H1 & _).
  assert (forall d', leb d' d = true -> starts_by p d' = true) as Hst.
  { intros [|dk] Hle; [done|]. cbn. assert (leb (DelimiterKey dk) (DelimiterKey (mkCompositeKey p k)) = true) as Hk by (by eapply leb_trans).
    change p with (prefix (mkCompositeKey p k)). by apply composite_le_prefix. }
  rewrite List.filter_app. cbn [List.filter fst]. rewrite (Hst d) by apply leb_refl. rewrite fmap_app, fmap_cons. cbn [snd].
  rewrite fmap_app, fmap_cons in Hn. cbn [snd] in Hn. apply NoDup_app in Hn as (_ & Hn & _).
  assert (Forall (fun x => siv_id x.2 <> siv_id v) l1) as Hne.
  { apply Forall_forall. intros x Hx He. apply (Hn (siv_id x.2)); [by apply (list_elem_of_fmap_2 (fun x => siv_id x.2))|]. rewrite He. set_solver. }
  clear Hi Hs Hn Hd Hb. induction l1 as [|x l1 IH]; cbn.
  - by rewrite Z.eqb_refl.
  - apply Forall_cons in H1 as [Hx H1], Hne as [Hnx Hne]. rewrite (Hst x.1) by (apply leb_lt_or_eq; by left). cbn.
    apply Z.eqb_neq in Hnx. rewrite Hnx. cbn. by rewrite IH.
Qed.

(** The rows below a key are those of the blocks before its block and the first
    ones of its block. *)
Lemma rank_rows p k idx l1 d v l2 b :
  blocks_ok idx -> idx = l1 ++ (d, v) :: l2 -> inside d l2 (mkCompositeKey p k) -> stored (siv_id v) = Some b ->
  Z.of_nat (length (List.filter (fun x => ltb x.1 (mkCompositeKey p k)) (rows_in (index_view idx)))) =
  total l1 + Z.of_nat (binary_search_prefix_key p k (rows b)).
Proof.
  intros Hb Hi [Hd Hl2] Hst. pose proof (index_view_sorted idx Hb) as Hs. pose proof (b_placed idx Hb) as Hp. rewrite Hi in Hs, Hp |- *.
  unfold index_view in Hs, Hp |- *. rewrite fmap_app, fmap_cons in Hs, Hp |- *. cbn [fst snd] in *.
  assert (stored_rows (siv_id v) = rows b) as Hr by (unfold stored_rows; by rewrite Hst). rewrite Hr in *.
  rewrite middle_rows, !List.filter_app, !length_app.
  assert (forall l, Forall (fun x => cmp x.1 (mkCompositeKey p k) = Lt) l -> List.filter (fun x : CompositeKey K * V => ltb x.1 (mkCompositeKey p k)) l = l) as Hall.
  { intros l Hl. induction Hl as [|x l Hx _ IH]; cbn; [done|]. apply ltb_lt in Hx. by rewrite Hx, IH. }
  rewrite Hall by (by eapply middle_below).
  rewrite (filter_none_elem _ (rows_in (_ <$> l2))).
  2: { intros x Hx. apply not_true_iff_false. rewrite ltb_lt. intros Hlt.
       assert (Forall (fun x : CompositeKey K * V => cmp (mkCompositeKey p k) x.1 = Lt) (rows_in ((fun x => (x.1, stored_rows (siv_id x.2))) <$> l2))) as Hab.
       { eapply middle_above; [exact Hs|exact Hp|]. by rewrite Forall_fmap. }
       rewrite Forall_forall in Hab. apply (cmp_lt_irrefl x.1). eapply cmp_trans; [exact Hlt|by apply Hab]. }
  assert (bt_sorted (rows b)) as Hsb by by apply placed_app in Hp as (_ & (? & _) & _).
  pose proof (key_point p k (rows b) Hsb) as Hk. rewrite <- (take_filter _ _ _ Hk), length_take. destruct Hk as [Hk _].
  unfold total, index_view. cbn [length]. lia.
Qed.

Lemma rank_reads p k r s :
  reader_ok r -> (counted_version (read_root r) = true -> counts_ok (read_root r)) ->
  let below := Z.of_nat (length (List.filter (fun x => ltb x.1 (mkCompositeKey p k)) (reader_contents r))) in
  match reader_rank p k r s with
  | (Ok n, r', _) =>
      (exists l1 d v l2, reader_index (read_root r) = l1 ++ (d, v) :: l2 /\ inside d l2 (mkCompositeKey p k) /\
        n = below - total l1 + if counted_version (read_root r) then total l1 mod 2 ^ 32 else total (take (length l1 - 1) l1)) /\
      reader_ok r' /\ read_root r' = read_root r
  | (Err e, r', _) => (exists g, e = BlockFetchError g) /\ reader_ok r' /\ read_root r' = read_root r
  end.
Proof.
  intros Hr Hc below. pose proof (r_index r Hr) as Hi. set (idx := reader_index (read_root r)) in *.
  destruct (target_rows idx (mkCompositeKey p k) Hi) as (id & Ht & _ & _ & l1 & d & v & l2 & Hidx & Hid & Hin).
  unfold reader_rank, r_bind at 1, target_block. fold idx. rewrite Ht. subst id. fold (counted_version (read_root r)).
  rewrite (preceding_ids p k idx l1 d v l2 Hi Hidx Hin). set (ids := (fun x => siv_id x.2) <$> l1).
  set (before := if counted_version (read_root r) then total l1 mod 2 ^ 32 else total (take (length l1 - 1) l1)).
  assert (reads (if counted_version (read_root r) then r_ret (sum_u32 ((fun x => siv_count x.2) <$> take (length ids) idx))
     else r_bind (prefetch ids) (fun _ => r_bind (require_blocks (all_but_last ids)) (fun bs =>
            r_ret (foldr (fun b acc => Z.of_nat (block_len b) + acc) 0 bs)))) (fun n => n = before)) as Hbefore.
  { subst before. destruct (counted_version (read_root r)).
    - apply reads_ret. subst ids. rewrite length_fmap, Hidx, take_app_length. apply sum_u32_total.
      intros d' v' Hin'. apply (Hc eq_refl d' v'). fold idx. rewrite Hidx. set_solver.
    - eapply reads_bind; [apply prefetch_reads|]. intros _ _. eapply reads_bind; [apply require_blocks_reads|]. intros bs Hbs. apply reads_ret.
      rewrite (blocks_total _ bs Hbs). unfold all_but_last. subst ids. by rewrite <- fmap_take, length_fmap, ids_total. }
  pose proof (reads_bind _ (fun rank => r_bind (require_block (siv_id v)) (fun b => r_ret (rank + Z.of_nat (binary_search_prefix_key p k (rows b)))))
    _ (fun n => exists l1 d v l2, idx = l1 ++ (d, v) :: l2 /\ inside d l2 (mkCompositeKey p k) /\
        n = below - total l1 + if counted_version (read_root r) then total l1 mod 2 ^ 32 else total (take (length l1 - 1) l1)) Hbefore) as Hb.
  apply Hb; [|done]. intros n ->. eapply reads_bind; [apply require_block_reads|]. intros b Hst. apply reads_ret.
  exists l1, d, v, l2. split_and!; [done..|]. pose proof (rank_rows p k idx l1 d v l2 b Hi Hidx Hin Hst) as Hrk.
  subst below. unfold reader_contents. fold idx. rewrite Hrk. subst before. lia.
Qed.
End Reads.

(** ** Sorting *)

Section Sort.
Context {A : Type} {O : Ordered A} {OL : OrderedLaws A}.

Definition ascending (l : list A) : Prop := StronglySorted (fun x y => leb x y = true) l.

Lemma leb_total (x y : A) : leb x y = false -> leb y x = true.
Proof. rewrite (leb_ltb x y), negb_false_iff, ltb_lt. intros H. apply leb_lt_or_eq. by left. Qed.

Lemma insert_sorted_elem x y (l : list A) : y ∈ insert_sorted x l <-> y = x \/ y ∈ l.
Proof.
  induction l as [|z l IH]; cbn; [set_solver|]. destruct (leb x z); [set_solver|]. rewrite !elem_of_cons, IH. tauto.
Qed.

Lemma insert_sorted_ascending x (l : list A) : ascending l -> ascending (insert_sorted x l).
Proof.
  induction l as [|z l IH]; intros Hs; cbn; [repeat constructor|]. apply StronglySorted_inv in Hs as [Hs Hz].
  destruct (leb x z) eqn:Hxz.
  - constructor; [by constructor|]. constructor; [done|]. eapply Forall_impl; [exact Hz|]. intros y Hy. by eapply leb_trans.
  - constructor; [by apply IH|]. apply Forall_forall. intros y [->|Hy]%insert_sorted_elem; [by apply leb_total|].
    rewrite Forall_forall in Hz. by apply Hz.
Qed.

Lemma sort_elem x (l : list A) : x ∈ sort l <-> x ∈ l.
Proof. induction l as [|y l IH]; cbn; [done|]. by rewrite insert_sorted_elem, elem_of_cons, IH. Qed.

Lemma sort_ascending (l : list A) : ascending (sort l).
Proof. induction l as [|y l IH]; cbn; [constructor|]. by apply insert_sorted_ascending. Qed.

(** What is skipped is at the front. *)
Lemma skip_while_app (p : A -> bool) (l : list A) :
  exists l1, l = l1 ++ skip_while p l /\ Forall (fun x => p x = true) l1 /\
    match skip_while p l with [] => True | x :: _ => p x = false end.
Proof.
  induction l as [|x l (l1 & Hl & Hf & Hh)]; cbn; [by exists []|]. destruct (p x) eqn:Hp; [|by exists []].
  exists (x :: l1). cbn. rewrite <- Hl. split_and!; [done|by constructor|done].
Qed.
End Sort.

Section Lists.
Context {K : Type} {KK : Key K} {KL : KeyLaws K}.
Implicit Types (idx : SparseIndexReader K) (d : SparseIndexDelimiter K) (k : CompositeKey K).

(** A block of the index that a test of its delimiter and the rest selects. *)
Definition listed (P : SparseIndexDelimiter K -> SparseIndexReader K -> Prop) idx (id : Uuid) : Prop :=
  exists l1 d v l2, idx = l1 ++ (d, v) :: l2 /\ siv_id v = id /\ P d l2.

Lemma listed_cons P d v idx id : listed P ((d, v) :: idx) id <-> (siv_id v = id /\ P d idx) \/ listed P idx id.
Proof.
  split.
  - intros (l1 & d' & v' & l2 & Hi & He & HP). destruct l1 as [|x l1]; cbn in Hi.
    + injection Hi as -> -> ->. by left.
    + injection Hi as <- ->. right. by exists l1, d', v', l2.
  - intros [[He HP]|(l1 & d' & v' & l2 & -> & He & HP)]; [by exists [], d, v, idx|by exists ((d, v) :: l1), d', v', l2].
Qed.

Lemma listed_nowhere P id : ~ listed P [] id.
Proof. intros (l1 & d & v & l2 & Hi & _). by destruct l1. Qed.

(** ** Keys *)

Lemma target_listed idx k id :
  bt_sorted idx -> reader_target_block_id k idx = Some id -> listed (fun d l2 => inside d l2 k) idx id.
Proof.
  unfold reader_target_block_id, get_target_block. intros Hs. destruct (bt_last_le (DelimiterKey k) idx) as [[d v]|] eqn:Hl; [|done].
  intros [= <-]. apply bt_last_le_spec in Hl as (l1 & l2 & Hi & Hd & Hn); [|done]. by exists l1, d, v, l2.
Qed.

Lemma listed_target idx k id :
  bt_sorted idx -> listed (fun d l2 => inside d l2 k) idx id -> reader_target_block_id k idx = Some id.
Proof.
  intros Hs (l1 & d & v & l2 & Hi & <- & Hd & Hl2). unfold reader_target_block_id, get_target_block, bt_last_le.
  rewrite Hi, List.filter_app. cbn [List.filter fst]. rewrite Hd.
  rewrite (filter_none_elem _ l2).
  2: { intros x Hx. rewrite Forall_forall in Hl2. specialize (Hl2 x Hx). unfold leb. apply cmp_gt in Hl2. by rewrite Hl2. }
  by rewrite last_snoc.
Qed.

Definition above_head idx k : Prop := match idx with [] => True | (d, _) :: _ => leb d (DelimiterKey k) = true end.

Lemma all_targets_spec : forall idx search,
  bt_sorted idx -> ascending search -> Forall (above_head idx) search ->
  forall id, id ∈ all_target_ids search idx <-> exists k, k ∈ search /\ listed (fun d l2 => inside d l2 k) idx id.
Proof.
  induction idx as [|[d v] idx IH]; intros search Hs Ha Hh id.
  { cbn. split; [by intros ?%elem_of_nil|]. intros (k & _ & Hl). by apply listed_nowhere in Hl. }
  setoid_rewrite listed_cons. apply bt_sorted_cons in Hs as [Hd Hs]. cbn [all_target_ids].
  destruct search as [|k0 search]; [split; [by intros ?%elem_of_nil|by intros (k & ?%elem_of_nil & _)]|].
  cbn [above_head] in Hh. destruct idx as [|[n v'] idx'].
  { apply Forall_cons in Hh as [Hk0 Hh]. rewrite list_elem_of_singleton. split.
    - intros ->. exists k0. split; [set_solver|]. left. split; [done|]. split; [done|constructor].
    - intros (k & Hk & [[-> _]|Hl]); [done|by apply listed_nowhere in Hl]. }
  set (ins := fun k => leb d (DelimiterKey k) && ltb (DelimiterKey k) n).
  assert (forall k, leb d (DelimiterKey k) = true -> (ins k = true <-> inside d ((n, v') :: idx') k)) as Hins.
  { intros k Hk. unfold ins. rewrite Hk. cbn. rewrite ltb_lt. split; [|by intros [_ [? _]%Forall_cons]].
    intros Hlt. split; [done|]. constructor; [done|]. apply bt_sorted_cons in Hs as [Hn _]. eapply Forall_impl; [exact Hn|].
    intros y Hy. by eapply cmp_trans. }
  assert (forall k, leb d (DelimiterKey k) = true -> ins k = false -> above_head ((n, v') :: idx') k) as Hab.
  { intros k Hk. unfold ins. rewrite Hk. cbn. intros Hlt. by rewrite leb_ltb, Hlt. }
  assert (forall k, ins k = true -> forall id, ~ listed (fun d l2 => inside d l2 k) ((n, v') :: idx') id) as Hnot.
  { intros k Hk id' (l1 & d1 & v1 & l2 & Hi & _ & Hd1 & _). unfold ins in Hk. apply andb_true_iff in Hk as [_ Hlt%ltb_lt].
    assert (leb n d1 = true) as Hn.
    { destruct l1 as [|x l1]; simplify_eq/=; [apply leb_refl|]. apply leb_lt_or_eq. left.
      apply bt_sorted_cons in Hs as [Hn _]. rewrite Forall_forall in Hn. apply (Hn (d1, v1)). set_solver. }
    apply (cmp_lt_irrefl (DelimiterKey k)). eapply lt_le_trans; [exact Hlt|]. by eapply leb_trans. }
  cbv zeta. fold ins. change (leb d (DelimiterKey k0) && ltb (DelimiterKey k0) n) with (ins k0). pose proof Hh as [Hk0 Hh']%Forall_cons. destruct (ins k0) eqn:Hi0.
  - destruct (skip_while_app ins search) as (skipped & Hsk & Hall & Hhead).
    assert (Forall (fun k => ins k = false) (skip_while ins search)) as Hrest.
    { destruct (skip_while ins search) as [|k1 rest] eqn:Hr; [constructor|]. unfold ins in Hhead.
      apply StronglySorted_inv in Ha as [Ha _]. rewrite Hsk in Ha, Hh'. apply Forall_app in Hh' as [_ [Hk1 _]%Forall_cons].
      rewrite Hk1 in Hhead. cbn in Hhead. apply StronglySorted_app in Ha as (_ & _ & Ha).
      apply StronglySorted_inv in Ha as [_ Ha]. constructor; [unfold ins; by rewrite Hk1|]. eapply Forall_impl; [exact Ha|].
      intros k Hk. unfold ins. apply andb_false_iff. right. apply not_true_iff_false in Hhead. apply not_true_iff_false.
      rewrite ltb_lt in *. intros Hlt. apply Hhead.
      exact (le_lt_trans (DelimiterKey k1) (DelimiterKey k) n Hk Hlt). }
    rewrite elem_of_cons, IH; [|done| |].
    + split.
      * intros [->|(k & Hk & Hl)]; [exists k0; split; [set_solver|]; left; split; [done|by apply Hins]|].
        exists k. split; [rewrite Hsk; set_solver|by right].
      * intros (k & Hk & [[-> _]|Hl]); [by left|]. right. exists k. split; [|done].
        apply elem_of_cons in Hk as [->|Hk]; [by apply Hnot in Hl|]. rewrite Hsk in Hk. apply elem_of_app in Hk as [Hk|Hk]; [|done].
        rewrite Forall_forall in Hall. by apply (Hnot k (Hall k Hk)) in Hl.
    + apply StronglySorted_inv in Ha as [Ha _]. rewrite Hsk in Ha. by apply StronglySorted_app in Ha as (_ & _ & ?).
    + rewrite Forall_forall in *. intros k Hk. apply Hab; [|by apply Hrest]. apply Hh'. rewrite Hsk. set_solver.
  - assert (Forall (fun k => ins k = false) (k0 :: search)) as Hrest.
    { constructor; [done|]. apply StronglySorted_inv in Ha as [_ Ha]. eapply Forall_impl; [exact Ha|]. intros k Hk.
      unfold ins in Hi0 |- *. rewrite Hk0 in Hi0. cbn in Hi0. apply andb_false_iff. right.
      apply not_true_iff_false in Hi0. apply not_true_iff_false. rewrite ltb_lt in *. intros Hlt. apply Hi0.
      exact (le_lt_trans (DelimiterKey k0) (DelimiterKey k) n Hk Hlt). }
    rewrite IH; [|done|done|].
    + split; intros (k & Hk & Hl); exists k; (split; [done|]); [by right|]. destruct Hl as [[_ Hl]|]; [|done].
      exfalso. rewrite Forall_forall in Hrest, Hh. apply Hins in Hl; [|by apply Hh]. by rewrite Hrest in Hl.
    + rewrite Forall_forall in *. intros k Hk. apply Hab; [by apply Hh|by apply Hrest].
Qed.

Lemma all_targets_sublist : forall idx search, sublist (all_target_ids search idx) ((fun x => siv_id x.2) <$> idx).
Proof.
  induction idx as [|[d v] idx IH]; intros search; cbn [all_target_ids]; [constructor|].
  destruct search as [|k search]; [apply sublist_nil_l|]. destruct idx as [|[n v'] idx']; [cbn; by repeat constructor|].
  cbv zeta. destruct (_ && _); [by apply sublist_skip|by apply sublist_cons].
Qed.

(** ** Prefixes *)

(** Whether a block may hold rows of a prefix. *)
Definition holds (p : string) d idx : Prop :=
  starts_by p d = true /\ match end_prefix idx with None => True | Some e => leb p e = true end.

Lemma start_bound p d :
  exists a, max_start_prefix (Included p) d = Included a /\ forall x, leb a x = true <-> leb p x = true /\ starts_by x d = true.
Proof.
  destruct d as [|dk]; cbn; [exists p; split; [done|]; intuition|]. destruct (ltb p (prefix dk)) eqn:Hlt.
  - exists (prefix dk). split; [done|]. intros x. split; [|by intros [_ ?]]. intros Hx. split; [|done].
    apply ltb_lt in Hlt. apply leb_lt_or_eq. left. by eapply lt_le_trans.
  - exists p. split; [done|]. intros x. split; [|by intros [? _]]. intros Hx. split; [done|].
    eapply leb_trans; [|exact Hx]. by rewrite leb_ltb, Hlt.
Qed.

Lemma end_bound p (e' : option string) :
  exists e, min_end_prefix (Included p) e' = Included e /\
    forall x, leb x e = true <-> leb x p = true /\ match e' with None => True | Some e' => leb x e' = true end.
Proof.
  destruct e' as [e'|]; cbn; [|exists p; split; [done|]; intuition]. destruct (ltb e' p) eqn:Hlt.
  - exists e'. split; [done|]. intros x. split; [|by intros [_ ?]]. intros Hx. split; [|done].
    apply ltb_lt in Hlt. apply leb_lt_or_eq. left. by eapply le_lt_trans.
  - exists p. split; [done|]. intros x. split; [|by intros [? _]]. intros Hx. split; [done|].
    eapply leb_trans; [exact Hx|]. by rewrite leb_ltb, Hlt.
Qed.

Lemma single_prefix_range p idx id :
  bt_sorted idx -> id ∈ get_block_ids_range (Included p) (Included p) idx <-> listed (holds p) idx id.
Proof.
  induction idx as [|[d v] idx IH]; intros Hs.
  { cbn. split; [by intros ?%elem_of_nil|by intros ?%listed_nowhere]. }
  apply bt_sorted_cons in Hs as [Hd Hs]. rewrite listed_cons, <- IH by done. cbn [get_block_ids_range].
  assert (overlaps (max_start_prefix (Included p) d) (min_end_prefix (Included p) (end_prefix idx)) = true <-> holds p d idx) as Ho.
  { destruct (start_bound p d) as (a & -> & Ha). destruct (end_bound p (end_prefix idx)) as (e & -> & He). cbn. rewrite Ha.
    unfold holds. split.
    - intros [Hpe Hst]. destruct (proj1 (He e) (leb_refl e)) as [Hep _]. assert (e = p) as -> by by apply leb_antisym.
      split; [done|]. apply (He p), leb_refl.
    - intros [Hst Hend]. assert (leb p e = true) as Hpe. { apply He. split; [apply leb_refl|done]. }
      destruct (proj1 (He e) (leb_refl e)) as [Hep _]. assert (e = p) as -> by by apply leb_antisym. done. }
  destruct (overlaps _ _); rewrite ?elem_of_cons; naive_solver.
Qed.

Lemma prefix_ids_spec : forall idx ps,
  bt_sorted idx -> ascending ps -> forall id, id ∈ prefix_ids ps idx <-> exists p, p ∈ ps /\ listed (holds p) idx id.
Proof.
  induction idx as [|[d v] idx IH]; intros ps Hs Ha id.
  { cbn. split; [by intros ?%elem_of_nil|]. intros (k & _ & Hl). by apply listed_nowhere in Hl. }
  setoid_rewrite listed_cons. pose proof Hs as [Hd Hs']%bt_sorted_cons. cbn [prefix_ids].
  set (ps' := match d with Start => ps | DelimiterKey k => _ end).
  assert (exists skipped, ps = skipped ++ ps' /\ Forall (fun p => starts_by p d = false) skipped /\
            match ps' with [] => True | p :: _ => starts_by p d = true end) as (skipped & Hsk & Hskip & Hhead).
  { subst ps'. destruct d as [|dk]; [exists []; by destruct ps|].
    destruct (skip_while_app (fun p => negb (leb (prefix dk) p)) ps) as (l1 & Hl & Hf & Hh). exists l1. split_and!; [done| |].
    - eapply Forall_impl; [exact Hf|]. intros p. cbn. by rewrite negb_true_iff.
    - destruct (skip_while _ ps); [done|]. cbn. by apply negb_false_iff. }
  assert (ascending ps') as Ha' by (rewrite Hsk in Ha; by apply StronglySorted_app in Ha as (_ & _ & ?)).
  (** A skipped prefix is below this block and all later ones. *)
  assert (forall p, p ∈ skipped -> forall id, ~ (siv_id v = id /\ holds p d idx \/ listed (holds p) idx id)) as Hnone.
  { intros p Hp id' Hl. rewrite Forall_forall in Hskip. specialize (Hskip p Hp). destruct Hl as [[_ [Hh _]]|(l1 & d1 & v1 & l2 & Hi & _ & Hh & _)]; [congruence|].
    assert (cmp d d1 = Lt) as Hlt. { rewrite Forall_forall in Hd. apply (Hd (d1, v1)). rewrite Hi. set_solver. }
    destruct d as [|dk]; [done|]. destruct d1 as [|dk1]; [done|]. cbn in Hskip, Hh.
    assert (leb (prefix dk) (prefix dk1) = true) as Hle by (apply composite_le_prefix, leb_lt_or_eq; by left).
    by rewrite (leb_trans _ _ _ Hle Hh) in Hskip. }
  destruct ps' as [|p ps''] eqn:Hps.
  { split; [by intros ?%elem_of_nil|]. intros (q & Hq & Hl). rewrite Hsk, app_nil_r in Hq. by apply Hnone in Hl. }
  assert (match end_prefix idx with None => true | Some e => leb p e end = true <-> holds p d idx) as Hhold.
  { unfold holds. rewrite Hhead. destruct (end_prefix idx); intuition. }
  assert (forall q, q ∈ p :: ps'' -> holds q d idx -> holds p d idx) as Hfirst.
  { intros q Hq [_ Hh2]. split; [done|]. destruct (end_prefix idx) as [e|]; [|done].
    apply elem_of_cons in Hq as [->|Hq]; [done|]. apply StronglySorted_inv in Ha' as [_ Hp]. rewrite Forall_forall in Hp.
    eapply leb_trans; [by apply Hp|done]. }
  rewrite <- Hps in *. assert (id ∈ prefix_ids ps' idx <-> exists q, q ∈ ps' /\ listed (holds q) idx id) as IH' by by apply IH.
  assert ((exists q, q ∈ ps /\ (siv_id v = id /\ holds q d idx \/ listed (holds q) idx id)) <->
          (siv_id v = id /\ holds p d idx) \/ exists q, q ∈ ps' /\ listed (holds q) idx id) as ->.
  { split.
    - intros (q & Hq & Hl). rewrite Hsk in Hq. apply elem_of_app in Hq as [Hq|Hq]; [by apply Hnone in Hl|].
      destruct Hl as [[He Hh]|Hl]; [left; split; [done|by eapply Hfirst]|right; by exists q].
    - intros [[He Hh]|(q & Hq & Hl)]; [exists p|exists q]; (split; [rewrite Hsk, Hps in *; set_solver|]); [by left|by right]. }
  rewrite <- IH', <- Hhold. destruct (match end_prefix idx with None => true | Some e => leb p e end); rewrite ?elem_of_cons; naive_solver.
Qed.
End Lists.
