(* ===== verification/RootFacts.v ===== *)
(** * Facts about roots

    A root that is written and read again is the same, unless a block starts at
    a key whose prefix is the text of the sentinel; and a writer that was
    committed and opened again reads what it held.  With such a block the first
    one is not found again. *)

From stdpp Require Import sorting.
From Stdlib Require Import DecimalString DecimalN.
From S2P Require Import Prelude Setsum Storage Types BTree BlockKey SparseIndex BlockDelta Block Blockfile Root BlockFacts DeltaFacts IndexFacts BlockfileFacts BlockfileOps BlockfileCommit BlockfileReads.

#[local] Open Scope Z_scope.

Lemma usize_roundtrip n : 0 <= n < 2 ^ 64 -> usize_from_str (usize_to_string n) = Some n.
Proof.
  intros Hn. unfold usize_to_string. set (d := N.to_uint (Z.to_N n)).
  assert (d <> Decimal.Nil) as Hd.
  { intros He. pose proof (DecimalN.Unsigned.to_of d) as Hu. unfold d in Hu at 1. rewrite He in Hu. unfold d in He.
    destruct (Z.to_N n) as [|p] eqn:Hz; [done|]. cbn in He. pose proof (DecimalPos.Unsigned.to_uint_nonnil p). done. }
  assert (usize_digits (NilZero.string_of_uint d) = Some n) as Hdig.
  { unfold usize_digits. rewrite NilZero.usu by done. cbn. unfold d. rewrite DecimalN.Unsigned.of_to, Z2N.id by lia.
    destruct (Z.ltb_spec n (2 ^ 64)); [done|lia]. }
  rewrite <- Hdig. clearbody d. by destruct d.
Qed.

Section Roots.
Context {UU : Uuids} {UL : UuidLaws UU} {K : Type} {KK : Key K} {KL : KeyLaws K}.

(** A delimiter that is not taken for the sentinel. *)
Definition readable (d : SparseIndexDelimiter K) : Prop :=
  match d with Start => True | DelimiterKey k => prefix k <> "START"%string end.

Definition entry_of (x : (SparseIndexDelimiter K * Uuid) * Z) : SparseIndexDelimiter K * SparseIndexValue :=
  (x.1.1, mkSparseIndexValue x.1.2 x.2).

Lemma read_entries_spec : forall (l : btree (SparseIndexDelimiter K) Uuid) cs acc,
  length cs = length l -> Forall (fun x => readable x.1) l -> bt_sorted (acc ++ (entry_of <$> zip l cs)) ->
  read_entries (delimiter_prefix <$> l.*1) (delimiter_key <$> l.*1) l.*2 cs acc = acc ++ (entry_of <$> zip l cs).
Proof.
  induction l as [|[d id] l IH]; intros cs acc Hlen Hr Hs; [by destruct cs; cbn; rewrite app_nil_r|].
  destruct cs as [|c cs]; [done|]. cbn in *. apply Forall_cons in Hr as [Hd Hr]. cbn in Hd.
  assert ((if String.eqb (delimiter_prefix d) "START" then Start else DelimiterKey (mkCompositeKey (delimiter_prefix d) (delimiter_key d))) = d) as ->.
  { destruct d as [|[p k]]; [done|]. cbn in *. by apply String.eqb_neq in Hd as ->. }
  assert (bt_insert d (mkSparseIndexValue id c) acc = acc ++ [(d, mkSparseIndexValue id c)]) as ->.
  { apply bt_insert_last. apply bt_sorted_app in Hs as (Hs & _ & _). apply Forall_forall. intros x Hx.
    apply (Hs x (d, mkSparseIndexValue id c)); [done|]. unfold entry_of. set_solver. }
  rewrite IH; [by rewrite <- app_assoc|lia|done|by rewrite <- app_assoc].
Qed.

Lemma mapM_uuids (l : list Uuid) : mapM uuid_from_str (uuid_to_string <$> l) = Some l.
Proof. induction l as [|u l IH]; cbn; [done|]. by rewrite uuid_roundtrip, IH. Qed.

Definition counts_of (r : RootWriter K) : list Z :=
  if version_number V1_1 <=? version_number (root_version r) then (counts (sparse_index r)).*2
  else replicate (length (forward (sparse_index r))) 0.

(** The index that a reader of a root has. *)
Definition read_index (r : RootWriter K) : SparseIndexReader K := entry_of <$> zip (forward (sparse_index r)) (counts_of r).

Lemma read_index_keys r : length (counts_of r) = length (forward (sparse_index r)) -> (read_index r).*1 = (forward (sparse_index r)).*1.
Proof.
  unfold read_index. generalize (forward (sparse_index r)) as l, (counts_of r) as cs. clear.
  induction l as [|x l IH]; intros [|c cs] Hlen; try done. cbn in *. rewrite IH by lia. done.
Qed.

(** The index that [from_bytes] rebuilds from the columns of a root. *)
Definition rebuilt (r : RootWriter K) : SparseIndexReader K :=
  let l := forward (sparse_index r) in read_entries (delimiter_prefix <$> l.*1) (delimiter_key <$> l.*1) l.*2 (counts_of r) [].

Lemma root_reads (r : RootWriter K) default_max :
  length (counts (sparse_index r)) = length (forward (sparse_index r)) -> 0 <= max_block_size_bytes r < 2 ^ 64 ->
  exists b, root_to_batch r = Ok b /\
    root_from_batch b (prefix_path r) (root_id r) default_max =
      Ok (mkRootReader (rebuilt r) (root_id r) (root_version r) (prefix_path r)
            (match root_version r with V1_2 => max_block_size_bytes r | _ => default_max end)) /\
    get_all_block_ids b (root_id r) = Ok (forward (sparse_index r)).*2.
Proof.
  intros Hlen Hmax. unfold root_to_batch. set (b := mkRootBatch _ _ _ _ _).
  assert (try_new b = Ok b) as Htry.
  { unfold try_new, b, ids_as_arrow. cbn. rewrite !length_fmap, Nat.eqb_refl. cbn. destruct (root_version r); cbn; rewrite ?length_fmap, ?Hlen, ?Nat.eqb_refl; done. }
  exists b. split; [done|].
  assert (version_and_id b (root_id r) = Ok (root_version r, root_id r)) as Hv.
  { unfold version_and_id, b. cbn. destruct (root_version r); cbn; simplify_map_eq; cbn; by rewrite uuid_roundtrip. }
  assert (block_ids b (root_version r) = Ok (forward (sparse_index r)).*2) as Hids.
  { unfold block_ids, b, ids_as_arrow. cbn. destruct (root_version r); [by rewrite mapM_uuids|done|done]. }
  unfold root_from_batch, get_all_block_ids. rewrite Hv, Z.eqb_refl, Hids. cbn [negb].
  assert (block_size_bytes b (root_version r) default_max =
            Ok (match root_version r with V1_2 => max_block_size_bytes r | _ => default_max end)) as ->.
  { unfold block_size_bytes, b. cbn. destruct (root_version r); cbn; simplify_map_eq; [done|done|]. by rewrite usize_roundtrip. }
  assert ((if version_number V1_1 <=? version_number (root_version r) then count_column b else Some (replicate (length (prefix_column b)) 0)) =
            Some (counts_of r)) as ->.
  { unfold counts_of, b. cbn. destruct (_ <=? _); [done|]. by rewrite !length_fmap. }
  done.
Qed.

Lemma counts_of_length r :
  length (counts (sparse_index r)) = length (forward (sparse_index r)) -> length (counts_of r) = length (forward (sparse_index r)).
Proof. intros Hlen. unfold counts_of. destruct (_ <=? _); [by rewrite length_fmap|apply length_replicate]. Qed.

Lemma root_roundtrip (r : RootWriter K) default_max :
  index_ok (sparse_index r) -> length (counts (sparse_index r)) = length (forward (sparse_index r)) ->
  Forall (fun x => readable x.1) (forward (sparse_index r)) -> 0 <= max_block_size_bytes r < 2 ^ 64 ->
  exists b, root_to_batch r = Ok b /\
    root_from_batch b (prefix_path r) (root_id r) default_max =
      Ok (mkRootReader (read_index r) (root_id r) (root_version r) (prefix_path r)
            (match root_version r with V1_2 => max_block_size_bytes r | _ => default_max end)) /\
    get_all_block_ids b (root_id r) = Ok (forward (sparse_index r)).*2.
Proof.
  intros Hi Hlen Hr Hmax. replace (read_index r) with (rebuilt r); [by apply root_reads|].
  pose proof (counts_of_length r Hlen) as Hc. unfold rebuilt. rewrite read_entries_spec; [done|done|done|].
  cbn. eapply bt_sorted_keys; [|apply (ok_sorted _ Hi)]. symmetry. by apply read_index_keys.
Qed.

(** *** A delimiter that is taken for the sentinel *)

Lemma bt_insert_elem_sorted {W} (d : SparseIndexDelimiter K) (v : W) m x :
  bt_sorted m -> x ∈ bt_insert d v m -> x = (d, v) \/ (x ∈ m /\ x.1 <> d).
Proof.
  intros Hs Hin. destruct x as [d' v']. assert (bt_get d' (bt_insert d v m) = Some v') as Hg.
  { apply bt_get_elem; [by apply bt_insert_sorted|done]. }
  rewrite bt_get_insert in Hg. destruct (cmp d' d) eqn:Hc.
  - apply cmp_eq in Hc as ->. left. congruence.
  - right. split; [by apply bt_get_elem in Hg|]. cbn; intros ->; by rewrite cmp_refl in Hc.
  - right. split; [by apply bt_get_elem in Hg|]. cbn; intros ->; by rewrite cmp_refl in Hc.
Qed.

(** The ids of an index are among those that were read. *)
Lemma read_entries_ids : forall (l : btree (SparseIndexDelimiter K) Uuid) cs acc x,
  x ∈ read_entries (delimiter_prefix <$> l.*1) (delimiter_key <$> l.*1) l.*2 cs acc -> x ∈ acc \/ siv_id x.2 ∈ l.*2.
Proof.
  induction l as [|[d id] l IH]; intros cs acc x; [by left|]. destruct cs as [|c cs]; [by left|]. cbn.
  intros [[->|Hx]%bt_insert_elem|Hx]%IH; set_solver.
Qed.

(** A block that is read under the sentinel is gone after another one was read
    under it. *)
Lemma read_entries_lost i0 : forall (l : btree (SparseIndexDelimiter K) Uuid) cs acc,
  length cs = length l -> bt_sorted acc -> i0 ∉ l.*2 ->
  (forall x, x ∈ acc -> siv_id x.2 = i0 -> x.1 = Start) ->
  (exists d, d ∈ l.*1 /\ delimiter_prefix d = "START"%string) \/ (forall x, x ∈ acc -> siv_id x.2 <> i0) ->
  forall x, x ∈ read_entries (delimiter_prefix <$> l.*1) (delimiter_key <$> l.*1) l.*2 cs acc -> siv_id x.2 <> i0.
Proof.
  induction l as [|[d id] l IH]; intros cs acc Hlen Hs Hi Hstart Hlost.
  { destruct Hlost as [(d & Hd%elem_of_nil & _)|Hlost]; [done|by destruct cs]. }
  destruct cs as [|c cs]; [done|]. cbn in *. apply not_elem_of_cons in Hi as [Hid Hi].
  set (d' := if String.eqb (delimiter_prefix d) "START" then Start else _).
  assert (forall x, x ∈ bt_insert d' (mkSparseIndexValue id c) acc -> siv_id x.2 = i0 -> x ∈ acc /\ x.1 = Start /\ x.1 <> d') as Hold.
  { intros x Hx He. apply bt_insert_elem_sorted in Hx as [->|[Hx Hne]]; [|by auto|done]. by symmetry in He. }
  apply IH; [lia|by apply bt_insert_sorted|done|by intros x Hx He; apply (Hold x)|].
  destruct Hlost as [(e & [->|He]%elem_of_cons & Hp)|Hlost]; [|by left; exists e|].
  - right. intros x Hx He. destruct (Hold x Hx He) as (_ & Hxs & Hne). apply Hne. subst d'. by rewrite Hp.
  - right. intros x Hx He. destruct (Hold x Hx He) as (Hxa & _). by apply (Hlost x).
Qed.
End Roots.

(** ** Writers that are opened again *)

Section Reopen.
Context {UU : Uuids} {UL : UuidLaws UU}.
Context {K V : Type} {KK : Key K} {VV : Value V} {BM : BlockManager K V} {KL : KeyLaws K} {VL : ValueLaws V}.
Context (new_v4 : nat -> Uuid) (path : string) (stored : Uuid -> option (Block K V)) {BML : BlockManagerLaws BM path stored}.
Context (w : BlockfileWriter K V) (f : Flusher K V).
Hypothesis Hw : writer_ok new_v4 path stored w.
Hypothesis Hf : committed stored w f.

#[local] Abbreviation r := (flush_root f).
#[local] Abbreviation fwd := (forward (sparse_index r)).

(** What is stored after the blocks of the commit were flushed. *)
Definition flushed (id : Uuid) : option (Block K V) :=
  match List.find (fun b => block_id b =? id) (flush_blocks f) with
  | Some b => Some b
  | None => stored id
  end.

Lemma flushed_rows d id : (d, id) ∈ fwd -> is_Some (flushed id) /\ stored_rows flushed id = rows_of stored w id.
Proof.
  intros Hin. unfold stored_rows, flushed. destruct (List.find _ _) as [b|] eqn:Hb.
  - apply List.find_some in Hb as [Hb He%Z.eqb_eq]. split; [by eauto|]. apply list_elem_of_In in Hb.
    apply (c_blocks _ _ _ Hf) in Hb as (_ & Hb & _). by rewrite Hb, He.
  - destruct (block_deltas w !! id) as [st|] eqn:Hst.
    { pose proof (c_flushed _ _ _ Hf d id st Hin Hst) as Hfl. apply list_elem_of_In in Hfl.
      apply (List.find_none _ _ Hb) in Hfl. cbn in Hfl. by rewrite Z.eqb_refl in Hfl. }
    assert (is_Some (reverse (index w) !! id)) as [d' Hd'].
    { apply (c_ids _ _ _ Hf). exists d. by apply (c_index _ _ _ Hf). }
    apply (w_index _ _ _ _ Hw) in Hd'. destruct (w_stored _ _ _ _ Hw d' id Hd' Hst) as (b & c & Hs & _).
    split; [by rewrite Hs; eauto|]. unfold rows_of. by rewrite Hst, Hs.
Qed.

Lemma flushed_id id b : flushed id = Some b -> block_id b = id.
Proof.
  unfold flushed. destruct (List.find _ _) as [b'|] eqn:Hb.
  - intros [= <-]. by apply List.find_some in Hb as [_ He%Z.eqb_eq].
  - apply stored_block_id.
Qed.

Lemma reopened_index :
  read_index r = (fun x => (x.1, mkSparseIndexValue x.2 (len_of stored w x.2))) <$> fwd.
Proof.
  unfold read_index, counts_of. rewrite (c_version _ _ _ Hf). cbn. rewrite (c_counts _ _ _ Hf). clear.
  induction fwd as [|x l IH]; cbn; [done|]. by rewrite IH.
Qed.

Lemma counts_length : length (counts (sparse_index r)) = length fwd.
Proof. rewrite (c_counts _ _ _ Hf). by rewrite length_fmap. Qed.

Lemma reopened_view : index_view flushed (read_index r) = view_of stored w fwd.
Proof.
  rewrite reopened_index. unfold index_view, view_of. rewrite <- list_fmap_compose. apply list_fmap_ext.
  intros j [d id] Hj. cbn. f_equal. by apply (flushed_rows d), (list_elem_of_lookup_2 _ j).
Qed.

Lemma reopened_blocks : blocks_ok flushed (read_index r).
Proof.
  destruct (c_index _ _ _ Hf) as (Hi & Hp & _). constructor.
  - rewrite reopened_index. apply (bt_sorted_fmap (fun x => mkSparseIndexValue x.2 (len_of stored w x.2))), Hi.
  - rewrite reopened_index. destruct (ok_start _ Hi) as (id & rest & ->). cbn. by eauto.
  - by rewrite reopened_view.
  - rewrite reopened_index. intros d v ([d' id] & [= -> ->] & Hin)%list_elem_of_fmap. cbn. by apply (flushed_rows d').
  - rewrite reopened_index, <- list_fmap_compose. change (NoDup (snd <$> fwd)).
    pose proof (bt_sorted_nodup _ (ok_sorted _ Hi)) as Hn. apply NoDup_fmap_2_strong; [|by apply NoDup_fmap_1 in Hn].
    intros [d1 i1] [d2 i2] H1 H2 He. cbn in He. subst i2. apply Hi in H1, H2. congruence.
Qed.

Lemma reopened_contents : rows_in (index_view flushed (read_index r)) = contents stored w.
Proof. rewrite reopened_view. by destruct (c_index _ _ _ Hf) as (_ & _ & ? & _). Qed.

Lemma reopened_counts d v :
  (d, v) ∈ read_index r -> siv_count v = Z.of_nat (length (stored_rows flushed (siv_id v))) mod 2 ^ 32.
Proof.
  rewrite reopened_index. intros ([d' id] & [= -> ->] & Hin)%list_elem_of_fmap. cbn.
  destruct (flushed_rows d' id Hin) as [_ ->]. done.
Qed.

(** *** When a block starts at a key that is read as the sentinel *)

Section Lost.
Context (i0 : Uuid) (fwd' : btree (SparseIndexDelimiter K) Uuid) (d0 : SparseIndexDelimiter K).
Hypothesis Hfwd : fwd = (Start, i0) :: fwd'.
Hypothesis Hd0 : d0 ∈ fwd'.*1.
Hypothesis Hprefix : delimiter_prefix d0 = "START"%string.

Lemma forward_ids_distinct : NoDup fwd.*2.
Proof.
  destruct (c_index _ _ _ Hf) as (Hi & _). pose proof (bt_sorted_nodup _ (ok_sorted _ Hi)) as Hn.
  apply NoDup_fmap_2_strong; [|by apply NoDup_fmap_1 in Hn].
  intros [d1 i1] [d2 i2] H1 H2 He. cbn in He. subst i2. apply Hi in H1, H2. congruence.
Qed.

Lemma first_lost x : x ∈ rebuilt r -> siv_id x.2 ∈ fwd'.*2 /\ siv_id x.2 <> i0.
Proof.
  intros Hx. assert (siv_id x.2 <> i0) as Hne.
  { unfold rebuilt in Hx. pose proof forward_ids_distinct as Hn. rewrite Hfwd in Hn, Hx. cbn in Hn. apply NoDup_cons in Hn as [Hi _].
    pose proof (counts_of_length r counts_length) as Hc. rewrite Hfwd in Hc. destruct (counts_of r) as [|c cs]; [done|]. cbn in Hc.
    cbn [fmap list_fmap fst snd read_entries delimiter_prefix delimiter_key] in Hx. rewrite String.eqb_refl in Hx.
    eapply (read_entries_lost i0 fwd' cs); [lia| |exact Hi| |by left; exists d0|exact Hx].
    - repeat constructor.
    - intros y Hy _. cbn in Hy. apply list_elem_of_singleton in Hy as ->. done. }
  split; [|done]. apply read_entries_ids in Hx as [Hx%elem_of_nil|Hx]; [done|]. rewrite Hfwd in Hx. cbn in Hx. set_solver.
Qed.

Lemma first_rows_alone k id :
  id ∈ fwd'.*2 -> k ∈ (stored_rows flushed i0).*1 -> k ∉ (stored_rows flushed id).*1.
Proof.
  intros ([d id'] & -> & Hin)%list_elem_of_fmap Hk Hk'. cbn in *.
  assert ((d, id') ∈ fwd) as Hin' by (rewrite Hfwd; by right).
  destruct (flushed_rows d id' Hin') as [_ H1]. destruct (flushed_rows Start i0) as [_ H0]; [rewrite Hfwd; by left|].
  rewrite H1 in Hk'. rewrite H0 in Hk. destruct (c_index _ _ _ Hf) as (Hi & Hp & _).
  pose proof (placed_sorted (view_of stored w fwd)) as Hs. rewrite Hfwd in Hs, Hp. unfold view_of in Hs, Hp. cbn [fmap list_fmap] in Hs, Hp.
  rewrite rows_in_cons in Hs. assert (bt_sorted ((Start, rows_of stored w i0) :: ((fun x => (x.1, rows_of stored w x.2)) <$> fwd'))) as Hkeys.
  { pose proof (ok_sorted _ Hi) as Hs'. rewrite Hfwd in Hs'. by apply (bt_sorted_fmap (fun x => rows_of stored w x.2)) in Hs'. }
  specialize (Hs Hkeys Hp). apply bt_sorted_app in Hs as (Hs' & _). apply list_elem_of_fmap in Hk as (x & -> & Hx), Hk' as (y & Hy & Hyin).
  specialize (Hs' x y Hx). rewrite Hy in Hs'. apply (cmp_lt_irrefl y.1), Hs'. unfold rows_in.
  apply list_elem_of_In, in_concat. exists (rows_of stored w id'). rewrite <- !list_elem_of_In. split; [|done].
  apply list_elem_of_fmap. exists (d, rows_of stored w id'). split; [done|]. apply list_elem_of_fmap. by exists (d, id').
Qed.

(** The keys of the first block are among those of the writer. *)
Lemma first_contents k : k ∈ (stored_rows flushed i0).*1 -> is_Some (bt_get k (contents stored w)).
Proof.
  intros ([k' v] & -> & Hin)%list_elem_of_fmap. cbn. exists v. destruct (c_index _ _ _ Hf) as (Hi & Hp & Hr & _).
  apply bt_get_elem; [by apply (contents_sorted new_v4 path)|]. rewrite <- Hr, Hfwd. unfold view_of. cbn [fmap list_fmap].
  rewrite rows_in_cons. apply elem_of_app. left. destruct (flushed_rows Start i0) as [_ H0]; [rewrite Hfwd; by left|]. cbn [fst snd]. by rewrite <- H0.
Qed.

Lemma first_nonempty : stored i0 = None -> stored_rows flushed i0 <> [].
Proof.
  intros Hnone. destruct (flushed_rows Start i0) as [[b Hb] _]; [rewrite Hfwd; by left|]. unfold stored_rows. rewrite Hb.
  unfold flushed in Hb. destruct (List.find _ _) as [b'|] eqn:Hfind; [|congruence]. injection Hb as ->.
  apply List.find_some in Hfind as [Hfind _]. apply list_elem_of_In in Hfind.
  destruct (c_blocks _ _ _ Hf b Hfind) as (_ & _ & _ & [Hn|Hlen]); [done|]. rewrite Hfwd in Hlen.
  destruct fwd'; [by apply elem_of_nil in Hd0|done].
Qed.

Lemma later_sorted id b : id ∈ fwd'.*2 -> flushed id = Some b -> bt_sorted (rows b).
Proof.
  intros ([d id'] & -> & Hin)%list_elem_of_fmap Hb. cbn in *.
  assert ((d, id') ∈ fwd) as Hin' by (rewrite Hfwd; by right).
  destruct (flushed_rows d id' Hin') as [_ H1]. unfold stored_rows in H1. rewrite Hb in H1. rewrite H1.
  apply list_elem_of_split in Hin' as (l1 & l2 & Hl). destruct (c_index _ _ _ Hf) as (_ & Hp & _).
  rewrite Hl in Hp. unfold view_of in Hp. rewrite fmap_app, fmap_cons in Hp. by apply placed_app in Hp as (_ & (? & _) & _).
Qed.

Lemma first_not_found {BM' : BlockManager K V} {BML' : BlockManagerLaws BM' path flushed} id0 v0 max p k s v rd s' :
  mkCompositeKey p k ∈ (stored_rows flushed i0).*1 ->
  reader_get p k (Reader_new (mkRootReader (rebuilt r) id0 v0 path max)) s <> (Ok (Some v), rd, s').
Proof.
  intros Hk. unfold reader_get, r_bind, target_block. cbn [read_root Reader_new reader_index].
  destruct (reader_target_block_id _ _) as [id|] eqn:Ht; [|done].
  assert (id ∈ fwd'.*2) as Hid.
  { unfold reader_target_block_id, get_target_block in Ht. destruct (bt_last_le _ _) as [x|] eqn:Hl; [|done]. injection Ht as <-.
    apply (first_lost x). unfold bt_last_le in Hl. apply last_Some_elem_of, list_elem_of_In, List.filter_In in Hl as [Hl _]. by apply list_elem_of_In. }
  unfold reader_get_block. cbn [loaded_blocks Reader_new read_root reader_prefix_path]. rewrite lookup_empty.
  destruct (get_block path id s) as [[[b|]|e] s1] eqn:Hg; [|done..]. apply get_block_law in Hg.
  intros [= Hb _ _]. apply (first_rows_alone _ id Hid Hk). unfold stored_rows. rewrite Hg.
  rewrite block_get_sorted in Hb.
  - apply bt_get_elem in Hb; [apply list_elem_of_fmap; by exists (mkCompositeKey p k, v)|]. by apply (later_sorted _ _ Hid).
  - by apply (later_sorted _ _ Hid).
Qed.
End Lost.
End Reopen.

(** ** Roots that are forked *)

Section Fork.
Context {K : Type} {KK : Key K} {KL : KeyLaws K}.

Lemma fork_index_maps (idx : SparseIndexReader K) :
  bt_sorted idx -> forward (fork_index idx) = (fun x => (x.1, siv_id x.2)) <$> idx /\ counts (fork_index idx) = (fun x => (x.1, siv_count x.2)) <$> idx.
Proof.
  intros Hs. unfold fork_index.
  assert (forall l d0 done_, bt_sorted (done_ ++ l) -> forward d0 = (fun x => (x.1, siv_id x.2)) <$> done_ ->
    counts d0 = (fun x => (x.1, siv_count x.2)) <$> done_ ->
    let d1 := foldl (fun d x => mkSparseIndexWriter (bt_insert x.1 (siv_id x.2) (forward d))
                      (<[siv_id x.2 := x.1]> (reverse d)) (bt_insert x.1 (siv_count x.2) (counts d))) d0 l in
    forward d1 = (fun x : SparseIndexDelimiter K * SparseIndexValue => (x.1, siv_id x.2)) <$> done_ ++ l /\
    counts d1 = (fun x => (x.1, siv_count x.2)) <$> done_ ++ l) as Hl.
  { induction l as [|x l IH]; intros d0 done_ Hd Hf Hc; cbn; [by rewrite app_nil_r|].
    assert (Forall (fun y => cmp y.1 x.1 = Lt) done_) as Hlt.
    { apply Forall_forall. intros y Hy. apply bt_sorted_app in Hd as (Hd & _). apply (Hd y x); set_solver. }
    replace (done_ ++ x :: l) with ((done_ ++ [x]) ++ l) by by rewrite <- app_assoc. apply IH; cbn.
    - by rewrite <- app_assoc.
    - rewrite Hf, fmap_app. apply bt_insert_last. by rewrite Forall_fmap.
    - rewrite Hc, fmap_app. apply bt_insert_last. by rewrite Forall_fmap. }
  by apply (Hl idx (mkSparseIndexWriter [] ∅ []) []).
Qed.

Lemma fork_index_reverse (idx : SparseIndexReader K) id d :
  NoDup ((fun x => siv_id x.2) <$> idx) -> reverse (fork_index idx) !! id = Some d <-> exists v, (d, v) ∈ idx /\ siv_id v = id.
Proof.
  unfold fork_index. assert (forall l d0, NoDup ((fun x : SparseIndexDelimiter K * SparseIndexValue => siv_id x.2) <$> l) ->
    reverse (foldl (fun d x => mkSparseIndexWriter (bt_insert x.1 (siv_id x.2) (forward d))
                      (<[siv_id x.2 := x.1]> (reverse d)) (bt_insert x.1 (siv_count x.2) (counts d))) d0 l) !! id = Some d <->
    (exists v, (d, v) ∈ l /\ siv_id v = id) \/ (id ∉ ((fun x => siv_id x.2) <$> l) /\ reverse d0 !! id = Some d)) as Hl.
  { induction l as [|[dx vx] l IH]; intros d0 Hn; cbn [foldl].
    { cbn. split; [by intros; right; split; [apply not_elem_of_nil|]|]. by intros [(v & Hv%elem_of_nil & _)|[_ ?]]. }
    cbn in Hn. apply NoDup_cons in Hn as [Hx Hn]. rewrite IH by done. cbn. rewrite lookup_insert_Some. split.
    - intros [(v & Hv & He)|[Hnin [[He ->]|[Hne Hr]]]].
      + left. exists v. set_solver.
      + left. exists vx. split; [set_solver|done].
      + right. split; [set_solver|done].
    - intros [(v & Hv & He)|[Hnin Hr]].
      + apply elem_of_cons in Hv as [[= -> ->]|Hv]; [right; subst id; by auto|left; by exists v].
      + right. split; [set_solver|]. right. split; [set_solver|done]. }
  intros Hn. rewrite Hl by done. cbn. split; [|by left]. intros [?|[_ Hr]]; [done|]. by rewrite lookup_empty in Hr.
Qed.

Lemma fork_index_ok (idx : SparseIndexReader K) :
  bt_sorted idx -> (exists v rest, idx = (Start, v) :: rest) -> NoDup ((fun x => siv_id x.2) <$> idx) -> index_ok (fork_index idx).
Proof.
  intros Hs Hst Hn. destruct (fork_index_maps idx Hs) as [Hf Hc]. constructor.
  - rewrite Hf. by apply (bt_sorted_fmap (fun x => siv_id x.2)).
  - destruct Hst as (v & rest & Hidx). rewrite Hf, Hidx. cbn. by eauto.
  - intros id d. rewrite fork_index_reverse, Hf by done. split.
    + intros (v & Hin & <-). apply list_elem_of_fmap. by exists (d, v).
    + intros ([d' v] & [= -> ->] & Hin)%list_elem_of_fmap. by exists v.
  - rewrite Hc. by apply (bt_sorted_fmap (fun x => siv_count x.2)).
  - rewrite Hf, Hc. intros d c Hg. apply bt_get_elem in Hg; [|by apply (bt_sorted_fmap (fun x => siv_count x.2))].
    apply list_elem_of_fmap in Hg as (x & [= -> ->] & Hin). rewrite <- list_fmap_compose. apply list_elem_of_fmap. by exists x.
Qed.
End Fork.

(** ** New writers *)

Section New.
Context {K V : Type} {KK : Key K} {VV : Value V} {BM : BlockManager K V} {KL : KeyLaws K} {VL : ValueLaws V}.
Context (new_v4 : nat -> Uuid) `{new_v4_inj : !Inj (=) (=) new_v4}.
Context (path : string) (stored : Uuid -> option (Block K V)).

Lemma new_writer_ok id max next :
  0 <= max -> let w := Blockfile_new new_v4 id path max next in writer_ok new_v4 path stored w /\ contents stored w = [].
Proof.
  intros Hmax w. assert (view_of stored w (forward (index w)) = [(Start, [])]) as Hv.
  { unfold view_of. cbn. unfold rows_of. cbn. by rewrite lookup_singleton_eq. }
  assert (contents stored w = []) as Hc by (unfold contents; by rewrite Hv).
  split; [|done]. constructor; try done.
  - apply new_index_ok.
  - rewrite Hv. repeat constructor.
  - intros id' st. cbn. rewrite lookup_singleton_Some. intros [<- <-]. split; [apply new_ok|]. rewrite lookup_singleton_eq. by eauto.
  - intros d id' [= -> ->]%list_elem_of_singleton. cbn. by rewrite lookup_singleton_eq.
  - intros n Hn. cbn in Hn |- *. apply lookup_singleton_ne. intros He%new_v4_inj. lia.
  - rewrite Hc. constructor.
Qed.

Lemma forked_writer_ok (root : RootReader K) new_id next :
  blocks_ok stored (reader_index root) -> reader_prefix_path root = path -> 0 <= reader_max_block_size_bytes root ->
  (reader_version root <> V1 -> counts_ok stored root) ->
  Forall (fits (reader_max_block_size_bytes root)) (rows_in (index_view stored (reader_index root))) ->
  (forall n d v, (next <= n)%nat -> (d, v) ∈ reader_index root -> siv_id v <> new_v4 n) ->
  let w := from_root (root_fork new_id root) next in
  writer_ok new_v4 path stored w /\ contents stored w = rows_in (index_view stored (reader_index root)).
Proof.
  intros Hb Hpath Hmax Hcounts Hfits Hfresh w. destruct (fork_index_maps _ (b_sorted _ _ Hb)) as [Hf Hc].
  assert (view_of stored w (forward (index w)) = index_view stored (reader_index root)) as Hv.
  { unfold index, w. cbn [sparse_index BlockfileReads.stored_rows from_root Blockfile.root root_fork]. rewrite Hf. unfold view_of, index_view.
    rewrite <- list_fmap_compose. done. }
  assert (contents stored w = rows_in (index_view stored (reader_index root))) as Hcont by (unfold contents; by rewrite Hv).
  split; [|done]. constructor; try done.
  - apply fork_index_ok; apply Hb.
  - rewrite Hv. apply Hb.
  - unfold index, w. cbn. rewrite Hf. intros d id Hin _. apply list_elem_of_fmap in Hin as ([d' v] & [= -> ->] & Hin). cbn [fst snd].
    destruct (b_stored _ _ Hb _ _ Hin) as [b Hst]. exists b, (siv_count v). split_and!; [done| |].
    + unfold index, w. cbn. rewrite Hc. apply bt_get_elem; [apply (bt_sorted_fmap (fun x => siv_count x.2)), Hb|].
      apply list_elem_of_fmap. by exists (d', v).
    + cbn. intros Hver. rewrite (Hcounts Hver d' v Hin). unfold stored_rows. by rewrite Hst.
  - intros n Hn. unfold index, w. cbn. destruct (reverse (fork_index (reader_index root)) !! new_v4 n) as [d|] eqn:Hr; [|done].
    apply fork_index_reverse in Hr as (v & Hin & He); [|apply Hb]. by apply (Hfresh n) in Hin.
  - by rewrite Hcont.
Qed.
End New.
