(* ===== verification/Sessions.v ===== *)
(** * Sessions of blockfile writers

    Sequences of operations of a writer, the map that they describe, and that
    the writer implements it. *)

From S2P Require Import Prelude Setsum Storage Types BTree BlockKey SparseIndex BlockDelta Block Blockfile Root DeltaFacts IndexFacts BlockfileFacts BlockfileOps BlockfileCommit BlockfileReads RootFacts.

#[local] Open Scope Z_scope.

(** ** Operations *)

Inductive Op (K V : Type) :=
| OpSet (p : string) (k : K) (v : V)
| OpDelete (p : string) (k : K)
| OpGet (p : string) (k : K).
Arguments OpSet {K V} p k v.
Arguments OpDelete {K V} p k.
Arguments OpGet {K V} p k.

Definition op_key {K V} (o : Op K V) : CompositeKey K :=
  match o with OpSet p k _ | OpDelete p k | OpGet p k => mkCompositeKey p k end.

Section Run.
Context {K V : Type} {KK : Key K} {VV : Value V} {BM : BlockManager K V}.
Variable new_v4 : nat -> Uuid.

Definition run_op (o : Op K V) : Writing (option V) := fun w s =>
  match o with
  | OpSet p k v => match set new_v4 p k v w s with
                   | (Ok _, w, s) => (Ok None, w, s)
                   | (Err e, w, s) => (Err e, w, s)
                   end
  | OpDelete p k => match delete_key new_v4 p k w s with
                    | (Ok _, w, s) => (Ok None, w, s)
                    | (Err e, w, s) => (Err e, w, s)
                    end
  | OpGet p k => get_owned new_v4 p k w s
  end.

Fixpoint run_ops (ops : list (Op K V)) : Writing (list (option V)) := fun w s =>
  match ops with
  | [] => (Ok [], w, s)
  | o :: ops =>
      match run_op o w s with
      | (Err e, w, s) => (Err e, w, s)
      | (Ok r, w, s) =>
          match run_ops ops w s with
          | (Err e, w, s) => (Err e, w, s)
          | (Ok rs, w, s) => (Ok (r :: rs), w, s)
          end
      end
  end.
End Run.

(** ** The map *)

Section Map.
Context {K V : Type} {KK : Key K}.
Implicit Types m : btree (CompositeKey K) V.

Definition map_op (o : Op K V) m : option V * btree (CompositeKey K) V :=
  match o with
  | OpSet p k v => (None, bt_insert (mkCompositeKey p k) v m)
  | OpDelete p k => (None, bt_remove (mkCompositeKey p k) m)
  | OpGet p k => (bt_get (mkCompositeKey p k) m, m)
  end.

Fixpoint map_ops (ops : list (Op K V)) m : list (option V) * btree (CompositeKey K) V :=
  match ops with
  | [] => ([], m)
  | o :: ops => let '(r, m) := map_op o m in let '(rs, m) := map_ops ops m in (r :: rs, m)
  end.
End Map.

(** ** The writer implements the map *)

Section Refines.
Context {K V : Type} {KK : Key K} {VV : Value V} {BM : BlockManager K V} {KL : KeyLaws K} {VL : ValueLaws V}.
Context (new_v4 : nat -> Uuid) `{new_v4_inj : !Inj (=) (=) new_v4}.
Context (path : string) (stored : Uuid -> option (Block K V)) {BML : BlockManagerLaws BM path stored}.
Implicit Types w : BlockfileWriter K V.

(** A value that is written fits in a block. *)
Definition op_fits (max : Z) (o : Op K V) : Prop :=
  match o with OpSet p k v => fits max (mkCompositeKey p k, v) | _ => True end.

Lemma run_op_spec o w s :
  writer_ok new_v4 path stored w -> op_fits (max_block_size_bytes (root w)) o ->
  match run_op new_v4 o w s with
  | (Ok r, w', _) => writer_ok new_v4 path stored w' /\ (r, contents stored w') = map_op o (contents stored w) /\ keeps stored w w'
  | (Err e, w', _) => w' = w /\ manager_error e
  end.
Proof.
  intros Hw Hf. destruct o as [p k v|p k|p k]; cbn in *.
  - pose proof (set_spec new_v4 path stored w s p k v Hw Hf) as Hs. destruct (set new_v4 p k v w s) as [[[u|e] w'] s']; [|done].
    destruct Hs as (H1 & H2 & _ & H3). by rewrite H2.
  - pose proof (delete_key_spec new_v4 path stored w s p k Hw) as Hs. destruct (delete_key new_v4 p k w s) as [[[u|e] w'] s']; [|done].
    destruct Hs as (H1 & H2 & H3). by rewrite H2.
  - pose proof (get_owned_spec new_v4 path stored w s p k Hw) as Hs. destruct (get_owned new_v4 p k w s) as [[[u|e] w'] s']; [|done].
    destruct Hs as (-> & H1 & H2 & H3). by rewrite H2.
Qed.

(** Metadata and where delimiters come from, after a session. *)
Definition session_keeps (ops : list (Op K V)) w w' : Prop :=
  (forall d, d ∈ (forward (index w')).*1 -> d ∈ (forward (index w)).*1 \/
     exists k, d = DelimiterKey k /\ (k ∈ (contents stored w).*1 \/ k ∈ op_key <$> ops)) /\
  root_version (root w') = root_version (root w) /\ max_block_size_bytes (root w') = max_block_size_bytes (root w) /\
  root_id (root w') = root_id (root w).

Lemma map_op_keys o (m : btree (CompositeKey K) V) x : x ∈ (map_op o m).2 -> x ∈ m \/ x.1 = op_key o.
Proof.
  destruct o as [p k v|p k|p k]; cbn; [|by intros ?%bt_remove_elem; left|by left].
  intros [->|?]%bt_insert_elem; [by right|by left].
Qed.

Lemma run_ops_spec : forall ops w s,
  writer_ok new_v4 path stored w -> Forall (op_fits (max_block_size_bytes (root w))) ops ->
  match run_ops new_v4 ops w s with
  | (Ok rs, w', _) => writer_ok new_v4 path stored w' /\ (rs, contents stored w') = map_ops ops (contents stored w) /\ session_keeps ops w w'
  | (Err e, w', _) => writer_ok new_v4 path stored w' /\ manager_error e
  end.
Proof.
  induction ops as [|o ops IH]; intros w s Hw Hf; cbn [run_ops map_ops].
  { split_and!; [done..|]. split_and!; [by left|done..]. }
  apply Forall_cons in Hf as [Ho Hf]. pose proof (run_op_spec o w s Hw Ho) as H1.
  destruct (run_op new_v4 o w s) as [[[r|e] w1] s1]; [|by destruct H1 as [-> ?]].
  destruct H1 as (Hw1 & Hm1 & (Hd1 & Hv1 & Hmax1 & Hid1)). rewrite <- Hmax1 in Hf. specialize (IH w1 s1 Hw1 Hf).
  destruct (run_ops new_v4 ops w1 s1) as [[[rs|e] w2] s2]; [|done].
  destruct IH as (Hw2 & Hm2 & (Hd2 & Hv2 & Hmax2 & Hid2)). rewrite <- Hm1, <- Hm2.
  assert (forall k, k ∈ (contents stored w1).*1 -> k ∈ (contents stored w).*1 \/ k = op_key o) as Hkeys.
  { intros k (x & -> & Hx)%list_elem_of_fmap. assert (contents stored w1 = (map_op o (contents stored w)).2) as Hc by by rewrite <- Hm1.
    rewrite Hc in Hx. apply map_op_keys in Hx as [Hx|Hx]; [left; apply list_elem_of_fmap; by exists x|by right]. }
  split_and!; [done..|]. split_and!; [|congruence..]. intros d Hd. apply Hd2 in Hd as [Hd|(k & -> & Hk)].
  - apply Hd1 in Hd as [Hd|(x & Hx & ->)]; [by left|]. right. exists x.1. split; [done|].
    destruct (Hkeys x.1) as [?|Heq]; [apply list_elem_of_fmap; by exists x|by left|]. right. cbn. rewrite Heq. set_solver.
  - right. exists k. split; [done|]. cbn. destruct Hk as [Hk|Hk]; [|set_solver]. destruct (Hkeys k Hk) as [?|Heq]; [by left|]. right. set_solver.
Qed.
End Refines.
