(* ===== verification/ArrowApi.v ===== *)
(** * Arrow blockfiles as segments use them

    The writer and the reader of [rust/blockstore/src/arrow/blockfile.rs] behind
    the operations of [BlockfileApi], together with the manager of their blocks,
    and that they keep its laws: the rows of a writer are its contents, the rows
    of a flusher those of the blocks it flushes and of those that are stored. *)

From S2P Require Import Prelude Setsum Types BTree BlockKey SparseIndex BlockDelta Block Blockfile BlockFacts DeltaFacts IndexFacts BlockfileFacts BlockfileOps BlockfileCommit BlockfileReads BlockfileApi.

#[local] Open Scope Z_scope.

Section Arrow.
Context {K V : Type} {KK : Key K} {VV : Value V} {BM : BlockManager K V} {KL : KeyLaws K} {VL : ValueLaws V}.
Context (new_v4 : nat -> Uuid) `{new_v4_inj : !Inj (=) (=) new_v4}.
Context (path : string) (stored : Uuid -> option (Block K V)) {BML : BlockManagerLaws BM path stored}.

Abbreviation arrow_writer := (BlockfileWriter K V * blocks_world)%type.
Abbreviation arrow_reader := (BlockfileReader K V * blocks_world)%type.

(** ** Writers *)

Definition arrow_writer_api : WriterApi K V arrow_writer := {|
  api_set p k v := fun x => let '(r, w, s) := set new_v4 p k v x.1 x.2 in (r, (w, s));
  api_delete p k := fun x => let '(r, w, s) := delete_key new_v4 p k x.1 x.2 in (r, (w, s));
|}.

(** A writer whose blocks may have [max] bytes. *)
Definition arrow_ok (max : Z) (x : arrow_writer) : Prop :=
  writer_ok new_v4 path stored x.1 /\ max_block_size_bytes (root x.1) = max.
Definition arrow_rows (x : arrow_writer) : btree (CompositeKey K) V := contents stored x.1.
Definition arrow_fit (max : Z) (p : string) (k : K) (v : V) : Prop := fits max (mkCompositeKey p k, v).

Lemma arrow_writer_laws max : WriterLaws arrow_writer_api (arrow_ok max) arrow_rows (arrow_fit max).
Proof.
  constructor.
  - intros x [Hok _]. by eapply contents_sorted.
  - intros p k v [w s] [Hok Hmax] Hfit. cbn in *. unfold arrow_fit in Hfit. rewrite <- Hmax in Hfit.
    pose proof (set_spec new_v4 path stored w s p k v Hok Hfit) as Hs. destruct (set new_v4 p k v w s) as [[[[]|e] w'] s'].
    + destruct Hs as (H1 & H2 & _ & _ & _ & H3 & _). unfold arrow_ok, arrow_rows. cbn. by rewrite H3.
    + destruct Hs as [-> _]. done.
  - intros p k [w s] [Hok Hmax]. cbn in *. pose proof (delete_key_spec new_v4 path stored w s p k Hok) as Hs.
    destruct (delete_key new_v4 p k w s) as [[[[]|e] w'] s'].
    + destruct Hs as (H1 & H2 & _ & _ & H3 & _). unfold arrow_ok, arrow_rows. cbn. by rewrite H3.
    + destruct Hs as [-> _]. done.
Qed.

(** ** Commits *)

(** [order] is the order in which the deltas of a writer are drained. *)
Definition arrow_commit (order : BlockfileWriter K V -> list Uuid) : CommitApi arrow_writer (Flusher K V) := {|
  api_commit x := (commit (order x.1) x.1 x.2).1;
  api_flush_count f := flush_count f;
|}.

Definition flushed_block (f : Flusher K V) (id : Uuid) : option (Block K V) :=
  match List.find (fun b => block_id b =? id) (flush_blocks f) with
  | Some b => Some b
  | None => stored id
  end.

Definition flushed_rows (f : Flusher K V) : btree (CompositeKey K) V :=
  rows_in ((fun x => (x.1, match flushed_block f x.2 with Some b => rows b | None => [] end)) <$> forward (sparse_index (flush_root f))).

Lemma find_block (l : list (Block K V)) b : NoDup (block_id <$> l) -> b ∈ l -> List.find (fun b' => block_id b' =? block_id b) l = Some b.
Proof.
  induction l as [|b0 l IH]; intros Hnd Hin; [by apply elem_of_nil in Hin|]. cbn in *. apply NoDup_cons in Hnd as [Hn Hnd].
  apply elem_of_cons in Hin as [->|Hin]; [by rewrite Z.eqb_refl|]. destruct (Z.eqb_spec (block_id b0) (block_id b)) as [He|_]; [|by apply IH].
  exfalso. apply Hn, list_elem_of_fmap. by exists b.
Qed.

Lemma arrow_commit_laws order max : (forall w, drains w (order w)) -> CommitLaws (arrow_commit order) (arrow_ok max) arrow_rows flushed_rows.
Proof.
  intros Hord [w s] f [Hok _] Hc. cbn in *. pose proof (commit_spec new_v4 path stored w (order w) s Hok (Hord w)) as Hs.
  destruct (commit (order w) w s) as [[f'|e] s']; [|done]. cbn in Hc. injection Hc as <-.
  destruct (c_index _ _ _ Hs) as (_ & _ & Hrows & _). unfold arrow_rows. cbn. rewrite <- Hrows. unfold flushed_rows. f_equal. unfold view_of.
  apply list_fmap_ext. intros i [d id] Hin%list_elem_of_lookup_2. cbn. f_equal. unfold flushed_block, rows_of.
  destruct (block_deltas w !! id) as [st|] eqn:Hd.
  - pose proof (find_block _ _ (c_nodup _ _ _ Hs) (c_flushed _ _ _ Hs d id st Hin Hd)) as Hf. cbn in Hf. by rewrite Hf.
  - destruct (List.find _ (flush_blocks f')) as [b|] eqn:Hf; [|done]. apply List.find_some in Hf as [Hb%list_elem_of_In He%Z.eqb_eq].
    destruct (c_blocks _ _ _ Hs b Hb) as [[st Hst] _]. congruence.
Qed.

(** ** Readers *)

Definition on_arrow {A} (c : Reading A) : ST arrow_reader BlockfileError A := fun x => let '(r, b, s) := c x.1 x.2 in (r, (b, s)).

Definition arrow_reader_api : ReaderApi K V arrow_reader := {|
  api_get p k := on_arrow (reader_get p k);
  api_contains p k := on_arrow (reader_contains p k);
  api_get_range plo phi lo hi := on_arrow (reader_get_range plo phi lo hi);
  api_count := on_arrow reader_count;
  api_rank p k := on_arrow (reader_rank p k);
  api_load_blocks_for_keys keys := on_arrow (load_blocks_for_keys keys);
|}.

Definition arrow_reads (x : arrow_reader) (m : btree (CompositeKey K) V) : Prop :=
  reader_ok path stored x.1 /\ reader_contents stored x.1 = m /\ counted_version (read_root x.1) = true /\ counts_ok stored (read_root x.1).

Lemma on_arrow_reads {A} (c : Reading A) (Q : btree (CompositeKey K) V -> A -> Prop) x m :
  arrow_reads x m ->
  (match c x.1 x.2 with
   | (Ok a, r', _) => Q (reader_contents stored x.1) a /\ reader_ok path stored r' /\ read_root r' = read_root x.1
   | (Err e, r', _) => (exists g, e = BlockFetchError g) /\ reader_ok path stored r' /\ read_root r' = read_root x.1
   end) ->
  match on_arrow c x with
  | (Ok a, x') => Q m a /\ arrow_reads x' m
  | (Err _, x') => arrow_reads x' m
  end.
Proof.
  intros (_ & Hm & Hv & Hcnt) Hc. unfold on_arrow. destruct (c x.1 x.2) as [[[a|e] r'] s']; destruct Hc as (H1 & H2 & H3); unfold arrow_reads, reader_contents in *; cbn;
    rewrite H3; subst m; done.
Qed.

Lemma arrow_reader_laws : ReaderLaws arrow_reader_api arrow_reads.
Proof.
  constructor.
  - intros x m (Hok & <- & _). unfold reader_contents. pose proof (r_index _ _ _ Hok) as Hi.
    apply placed_sorted; [apply (bt_sorted_fmap (fun v => stored_rows stored (siv_id v.2))), Hi|apply Hi].
  - intros p k x m Hx. apply (on_arrow_reads _ (fun m v => v = bt_get (mkCompositeKey p k) m) x m Hx). apply (get_reads path stored), Hx.
  - intros p k x m Hx. apply (on_arrow_reads _ (fun m b => b = bool_decide (is_Some (bt_get (mkCompositeKey p k) m))) x m Hx). apply (contains_reads path stored), Hx.
  - intros plo phi lo hi x m Hx.
    apply (on_arrow_reads _ (fun m l => l = List.filter (fun y => selects plo phi lo hi y.1) m) x m Hx). apply (get_range_reads path stored), Hx.
  - intros x m Hx Hlt. apply (on_arrow_reads _ (fun m n => n = Z.of_nat (length m)) x m Hx). destruct Hx as (Hok & <- & Hv & Hc).
    pose proof (count_reads path stored x.1 x.2 Hok (fun _ => Hc)) as Hr. rewrite Hv, Z.mod_small in Hr by lia. exact Hr.
  - intros p k x m Hx Hlt. apply (on_arrow_reads _ (fun m n => n = Z.of_nat (length (List.filter (fun y => ltb y.1 (mkCompositeKey p k)) m))) x m Hx).
    destruct Hx as (Hok & <- & Hv & Hc). pose proof (rank_reads path stored p k x.1 x.2 Hok (fun _ => Hc)) as Hr. cbn zeta in Hr.
    destruct (reader_rank p k x.1 x.2) as [[[n|e] r'] s']; [|done]. destruct Hr as [(l1 & d & v & l2 & Hi & _ & ->) Hr]. split; [|done].
    rewrite Hv, Z.mod_small; [lia|]. split; [unfold total; lia|]. eapply Z.le_lt_trans; [|exact Hlt]. unfold total, reader_contents. rewrite Hi.
    unfold index_view. rewrite fmap_app, rows_in_app, length_app. lia.
  - intros keys x m Hx. pose proof (on_arrow_reads (load_blocks_for_keys keys) (fun _ _ => True) x m Hx) as H. cbn.
    specialize (H (prefetch_reads path stored _ x.1 x.2 (proj1 Hx))). destruct (on_arrow (load_blocks_for_keys keys) x) as [[] x']; by destruct H.
Qed.
End Arrow.
