(* ===== verification/LedgerFacts.v ===== *)
(** * Materialization of logs: facts

    The reference for a log is a map from user ids to documents, which every
    operation changes.  The materialized record of a chunk stands for all its
    operations on one record, and the two maps of [materialize_logs] for the
    collection after the operations that were processed. *)

From S2P Require Import Prelude Setsum Types BTree BlockKey SparseIndex BlockDelta Block Blockfile BlockfileApi Records RecordSegment.

#[local] Open Scope Z_scope.

(** ** Traversals of hash maps *)

Section Hash.
Context {HO : HashOrder}.

Lemma hash_iter_elem {A} (m : gmap string A) k v : (k, v) ∈ hash_iter m <-> m !! k = Some v.
Proof. rewrite hash_iter_perm. apply elem_of_map_to_list. Qed.

Lemma hash_iter_nodup {A} (m : gmap string A) : NoDup (hash_iter m).*1.
Proof. rewrite hash_iter_perm. apply NoDup_fst_map_to_list. Qed.

Lemma hash_iter_to_map {A} (m : gmap string A) : list_to_map (hash_iter m) = m.
Proof.
  rewrite <- (list_to_map_to_list m) at 2. apply list_to_map_proper; [apply hash_iter_nodup|apply hash_iter_perm].
Qed.

Lemma hash_set_iter_elem (X : gset string) k : k ∈ hash_set_iter X <-> k ∈ X.
Proof.
  unfold hash_set_iter. rewrite list_elem_of_fmap. split.
  - intros ([k' []] & -> & Hk%hash_iter_elem). by apply lookup_gset_to_gmap_Some in Hk as [? _].
  - intros Hk. exists (k, tt). split; [done|]. apply hash_iter_elem. by apply lookup_gset_to_gmap_Some.
Qed.

Lemma fold_insert {A} (l : list (string * A)) : NoDup l.*1 ->
  forall (b : gmap string A) k, foldl (fun acc x => <[x.1 := x.2]> acc) b l !! k = match (list_to_map l : gmap string A) !! k with Some v => Some v | None => b !! k end.
Proof.
  induction l as [|[k0 v0] l IH]; intros Hn b k; cbn; [by rewrite lookup_empty|]. apply NoDup_cons in Hn as [Hk0 Hn].
  rewrite IH by done. destruct (decide (k0 = k)) as [->|Hne].
  - rewrite lookup_insert_eq, not_elem_of_list_to_map_1 by done. by rewrite lookup_insert_eq.
  - by rewrite !lookup_insert_ne by done.
Qed.

Lemma fold_hash_insert {A} (m b : gmap string A) : foldl (fun acc x => <[x.1 := x.2]> acc) b (hash_iter m) = m ∪ b.
Proof.
  apply map_eq. intros k. rewrite fold_insert by apply hash_iter_nodup. rewrite hash_iter_to_map, lookup_union.
  by destruct (m !! k), (b !! k).
Qed.

Lemma fold_delete {A} (l : list string) : forall (b : gmap string A) k,
  foldl (fun acc k => base.delete k acc) b l !! k = if decide (k ∈ l) then None else b !! k.
Proof.
  induction l as [|k0 l IH]; intros b k; cbn; [done|]. rewrite IH. destruct (decide (k0 = k)) as [->|Hne].
  - rewrite lookup_delete_eq. repeat case_decide; set_solver.
  - rewrite lookup_delete_ne by done. repeat case_decide; set_solver.
Qed.

(** ** Updates of metadata *)

Definition value_of (v : UpdateMetadataValue) : option MetadataValue :=
  match MetadataValue_try_from v with Ok v => Some v | Err _ => None end.

(** The reference: a key of the update is set, or removed when it has no value. *)
Definition update_metadata (u : option UpdateMetadata) (m : Metadata) : Metadata :=
  match u with
  | None => m
  | Some u => merge (fun new old => match new with Some v => value_of v | None => old end) u m
  end.

Lemma update_metadata_lookup u m k :
  update_metadata u m !! k = match u ≫= (.!! k) with Some v => value_of v | None => m !! k end.
Proof.
  destruct u as [u|]; cbn; [|done]. rewrite lookup_merge. by destruct (u !! k), (m !! k).
Qed.

Lemma materialize_updates_spec l : NoDup l.*1 -> forall m0 d0,
  exists m d, materialize_updates l m0 d0 = Ok (m, d) /\
    (forall k, m !! k = match ((list_to_map l : UpdateMetadata) !! k) ≫= value_of with Some v => Some v | None => m0 !! k end) /\
    (forall k, k ∈ d <-> (list_to_map l : UpdateMetadata) !! k = Some UNone \/ k ∈ d0).
Proof.
  induction l as [|[k0 v0] l IH]; intros Hn m0 d0; cbn [materialize_updates].
  { exists m0, d0. split; [done|]. cbn. split; intros k; rewrite lookup_empty; naive_solver. }
  apply NoDup_cons in Hn as [Hk0 Hn]. cbn in Hk0. apply (not_elem_of_list_to_map_1 (M := gmap string)) in Hk0.
  assert (forall k, (list_to_map ((k0, v0) :: l) : UpdateMetadata) !! k = if decide (k0 = k) then Some v0 else (list_to_map l : UpdateMetadata) !! k) as Hl.
  { intros k. cbn. apply lookup_insert. }
  case_bool_decide as Hv.
  - subst v0. destruct (IH Hn m0 ({[k0]} ∪ d0)) as (m & d & He & Hm & Hd). exists m, d. split; [done|]. split; intros k; rewrite Hl.
    + rewrite Hm. case_decide as Hk; [|done]. subst. by rewrite Hk0.
    + rewrite Hd, elem_of_union, elem_of_singleton. case_decide as Hk; [subst; naive_solver|]. naive_solver.
  - assert (exists v, MetadataValue_try_from v0 = Ok v) as [v Hc] by (destruct v0; eauto; done). rewrite Hc.
    destruct (IH Hn (<[k0 := v]> m0) d0) as (m & d & He & Hm & Hd). exists m, d. split; [done|]. split; intros k; rewrite Hl.
    + rewrite Hm. case_decide as Hk.
      * subst. rewrite Hk0. cbn. rewrite lookup_insert_eq. unfold value_of. by rewrite Hc.
      * by rewrite lookup_insert_ne by done.
    + rewrite Hd. case_decide as Hk; [|done]. subst. rewrite Hk0. split; [intros [?|?]; [done|by right]|].
      intros [[= ?]|?]; [done|by right].
Qed.

Lemma materialize_update_metadata_spec u :
  exists m d, materialize_update_metadata u = Ok (m, d) /\
    (forall k, m !! k = u !! k ≫= value_of) /\ (forall k, k ∈ d <-> u !! k = Some UNone).
Proof.
  destruct (materialize_updates_spec (hash_iter u) (hash_iter_nodup u) ∅ ∅) as (m & d & He & Hm & Hd).
  rewrite hash_iter_to_map in Hm, Hd. exists m, d. split; [done|]. split; intros k.
  - rewrite Hm, lookup_empty. by destruct (u !! k ≫= value_of).
  - rewrite Hd. set_solver.
Qed.

(** ** Metadata that is merged into the metadata of the segment *)

(** The changes [m] and [d] on top of [base]. *)
Definition overlay (m : option Metadata) (d : option DeletedMetadata) (base : Metadata) : Metadata :=
  filter (fun x => x.1 ∉ default ∅ d) (default ∅ m ∪ base).

Lemma overlay_lookup m d base k :
  overlay m d base !! k =
    if decide (k ∈ default ∅ d) then None else match default ∅ m !! k with Some v => Some v | None => base !! k end.
Proof.
  unfold overlay. rewrite map_lookup_filter, lookup_union. destruct (default ∅ m !! k) as [v|], (base !! k) as [v'|]; cbn;
    repeat case_guard; repeat case_decide; try done.
Qed.

Lemma overlay_none base : overlay None None base = base.
Proof. apply map_eq. intros k. rewrite overlay_lookup. cbn. rewrite lookup_empty. case_decide; [set_solver|done]. Qed.

(** The keys to merge and the keys to delete are different keys. *)
Definition disjoint_keys (m : option Metadata) (d : option DeletedMetadata) : Prop :=
  forall k, is_Some (default ∅ m !! k) -> k ∉ default ∅ d.

Lemma materialized_overlay u m d base :
  materialize_update_metadata u = Ok (m, d) -> overlay (Some m) (Some d) base = update_metadata (Some u) base /\ disjoint_keys (Some m) (Some d).
Proof.
  intros He. destruct (materialize_update_metadata_spec u) as (m' & d' & He' & Hm & Hd). rewrite He in He'. injection He' as <- <-. split.
  - apply map_eq. intros k. rewrite overlay_lookup, update_metadata_lookup. cbn. rewrite Hm. destruct (u !! k) as [v|] eqn:Hk; cbn.
    + case_decide as Hin; [by apply Hd in Hin; rewrite Hk in Hin; injection Hin as ->|].
      rewrite Hd, Hk in Hin. by destruct v.
    + rewrite decide_False; [done|]. rewrite Hd. by rewrite Hk.
  - intros k. cbn. rewrite Hm, Hd. intros [v Hv] Hk. by rewrite Hk in Hv.
Qed.

Lemma fold_merge (l : list (string * MetadataValue)) : forall (b : Metadata) (D : DeletedMetadata),
  foldl (fun acc x => (<[x.1 := x.2]> acc.1, acc.2 ∖ {[x.1]})) (b, D) l =
    (foldl (fun acc x => <[x.1 := x.2]> acc) b l, D ∖ list_to_set l.*1).
Proof.
  induction l as [|x l IH]; intros b D; cbn; [f_equal; set_solver|]. rewrite IH. f_equal. set_solver.
Qed.

Lemma fold_unmerge (l : list string) : forall (b : Metadata) (D : DeletedMetadata),
  foldl (fun acc k => (base.delete k acc.1, {[k]} ∪ acc.2)) (b, D) l = (foldl (fun acc k => base.delete k acc) b l, list_to_set l ∪ D).
Proof.
  induction l as [|x l IH]; intros b D; cbn; [f_equal; set_solver|]. rewrite IH. f_equal. set_solver.
Qed.

Lemma normalized {C} `{Empty C, EqDecision C} (x : C) : default ∅ (if bool_decide (x = ∅) then None else Some x) = x.
Proof. by case_bool_decide. Qed.

Lemma merge_update_metadata_spec m d u :
  exists m' d', merge_update_metadata (m, d) u = Ok (m', d') /\
    (forall base, overlay m' d' base = update_metadata u (overlay m d base)) /\
    (disjoint_keys m d -> disjoint_keys m' d').
Proof.
  unfold merge_update_metadata. cbn [fst snd]. destruct u as [u|]; cbn [result_bind].
  - destruct (materialize_update_metadata_spec u) as (mt & dt & -> & Hm & Hd). cbn [result_bind].
    rewrite fold_merge. cbn beta iota. rewrite fold_unmerge. cbn [result_bind]. cbn beta iota. rewrite fold_hash_insert.
    set (M := foldl _ (mt ∪ _) _). set (D := list_to_set _ ∪ _). do 2 eexists. split; [done|].
    assert (forall k, M !! k = match u !! k with Some UNone => None | Some v => value_of v | None => default ∅ m !! k end) as HM.
    { intros k. unfold M. rewrite fold_delete, lookup_union, Hm. case_decide as Hk.
      - apply hash_set_iter_elem, Hd in Hk. by rewrite Hk.
      - rewrite hash_set_iter_elem, Hd in Hk. destruct (u !! k) as [[]|]; cbn; try done; by destruct (default ∅ m !! k). }
    assert (forall k, k ∈ D <-> u !! k = Some UNone \/ (u !! k = None /\ k ∈ default ∅ d)) as HD.
    { intros k. unfold D. rewrite elem_of_union, elem_of_difference, !elem_of_list_to_set, hash_set_iter_elem, Hd.
      assert (k ∈ (hash_iter mt).*1 <-> exists v, u !! k = Some v /\ v <> UNone) as ->.
      { rewrite list_elem_of_fmap. split.
        - intros ([k' v] & -> & Hv%hash_iter_elem). cbn. rewrite Hm in Hv. destruct (u !! k') as [w|]; [|done]. exists w. split; [done|]. by intros ->.
        - intros (v & Hv & Hne). assert (exists w, value_of v = Some w) as [w Hw] by (destruct v; cbn; eauto; done).
          exists (k, w). split; [done|]. apply hash_iter_elem. by rewrite Hm, Hv. }
      destruct (u !! k) as [v|]; [|naive_solver]. destruct (decide (v = UNone)); naive_solver. }
    split.
    + intros base. apply map_eq. intros k. rewrite overlay_lookup, update_metadata_lookup, overlay_lookup, !normalized. cbn. rewrite HM.
      destruct (u !! k) as [v|] eqn:Hk.
      * case_decide as Hin; [apply HD in Hin as [Hin|[Hin _]]; [by rewrite Hk in Hin; injection Hin as ->|by rewrite Hk in Hin]|].
        rewrite HD, Hk in Hin. destruct v; try done. naive_solver.
      * assert (k ∈ D <-> k ∈ default ∅ d) as Hiff by (rewrite HD, Hk; naive_solver). repeat case_decide; tauto.
    + intros Hdis k. rewrite !normalized, HM, HD. destruct (u !! k) as [v|] eqn:Hk.
      * intros [w Hw] [[= ->]|[? _]]; done.
      * intros Hs [?|[_ Hin]]; [done|]. by apply (Hdis k Hs).
  - do 2 eexists. split; [done|]. split.
    + intros base. cbn [update_metadata]. apply map_eq. intros k. by rewrite !overlay_lookup, !normalized.
    + intros Hdis k. rewrite !normalized. apply Hdis.
Qed.
End Hash.

(** ** The reference *)

Record Doc := mkDoc {
  doc_embedding : list Z;
  doc_metadata : Metadata;
  doc_document : option string;
}.

Definition doc_of (d : DataRecord) : Doc := mkDoc (dr_embedding d) (default ∅ (dr_metadata d)) (dr_document d).

(** The document that an operation creates; it must have an embedding. *)
Definition new_doc (r : OperationRecord) : option Doc :=
  e ← rec_embedding r; Some (mkDoc e (update_metadata (rec_metadata r) ∅) (rec_document r)).

Definition patch_doc (r : OperationRecord) (d : Doc) : Doc :=
  mkDoc (default (doc_embedding d) (rec_embedding r)) (update_metadata (rec_metadata r) (doc_metadata d))
    (match rec_document r with Some x => Some x | None => doc_document d end).

(** What an operation does to its record; [None] is an operation that has to
    create the record and has no embedding. *)
Definition record_step (r : OperationRecord) (d : option Doc) : option (option Doc) :=
  match rec_operation r, d with
  | Delete, _ => Some None
  | Add, Some d => Some (Some d)
  | Update, None => Some None
  | Update, Some d | Upsert, Some d => Some (Some (patch_doc r d))
  | Add, None | Upsert, None => Some <$> new_doc r
  end.

Definition put (id : string) (d : option Doc) (c : gmap string Doc) : gmap string Doc := partial_alter (fun _ => d) id c.

Definition log_step (r : OperationRecord) (c : gmap string Doc) : option (gmap string Doc) :=
  d ← record_step r (c !! rec_id r); Some (put (rec_id r) d c).

Fixpoint log_steps (l : list OperationRecord) (c : gmap string Doc) : option (gmap string Doc) :=
  match l with
  | [] => Some c
  | r :: l => c ← log_step r c; log_steps l c
  end.

Lemma put_eq id d c : put id d c !! id = d.
Proof. apply lookup_partial_alter_eq. Qed.

Lemma put_ne id id' d c : id <> id' -> put id d c !! id' = c !! id'.
Proof. apply lookup_partial_alter_ne. Qed.

(** ** Hydrated records *)

Section Ledger.
Context {HO : HashOrder}.
Implicit Types (m : MaterializedLogRecord) (logs : Chunk LogRecord).

Definition doc_of_hydrated (h : HydratedMaterializedLogRecord) : option Doc :=
  e ← merged_embeddings_ref h; d ← merged_document_ref h; Some (mkDoc e (merged_metadata h) d).

Definition segment_metadata (h : HydratedMaterializedLogRecord) : Metadata :=
  if discards_segment h then ∅
  else match segment_data_record h with Some d => default ∅ (dr_metadata d) | None => ∅ end.

Lemma merged_metadata_overlay h :
  merged_metadata h = overlay (metadata_to_be_merged (materialized_log_record h)) (metadata_to_be_deleted (materialized_log_record h)) (segment_metadata h).
Proof.
  apply map_eq. intros k. rewrite overlay_lookup. unfold merged_metadata. fold (segment_metadata h).
  set (b := segment_metadata h). set (mm := metadata_to_be_merged _). set (dd := metadata_to_be_deleted _).
  assert (forall x : Metadata, (match dd with Some keys => foldl (fun acc k => base.delete k acc) x (hash_set_iter keys) | None => x end) !! k =
            if decide (k ∈ default ∅ dd) then None else x !! k) as ->.
  { intros x. destruct dd as [D|]; cbn; [|by rewrite decide_False by set_solver]. rewrite fold_delete.
    pose proof (hash_set_iter_elem D k). repeat case_decide; tauto. }
  case_decide; [done|]. destruct mm as [mt|]; cbn; [|by rewrite lookup_empty].
  rewrite fold_hash_insert, lookup_union. by destruct (mt !! k), (b !! k).
Qed.

(** The documents and the embeddings that a record refers to are in the log. *)
Record refs_ok logs m : Prop := {
  ref_document : forall i, final_document_at_log_index m = Some i -> exists l, chunk_get logs i = Some l /\ is_Some (rec_document (record l));
  ref_embedding : forall i, final_embedding_at_log_index m = Some i -> exists l, chunk_get logs i = Some l /\ is_Some (rec_embedding (record l));
  ref_disjoint : disjoint_keys (metadata_to_be_merged m) (metadata_to_be_deleted m);
}.

Lemma refs_ok_none logs b oid u op : refs_ok logs (mkMaterialized b oid u op None None None None).
Proof. constructor; [done..|]. intros k [v Hv]. cbn in Hv. by rewrite lookup_empty in Hv. Qed.

(** The operation matters only in that it may discard the segment's data. *)
Lemma doc_of_set_operation logs m d op :
  discards_segment (mkHydrated (set_final_operation op m) d logs) = discards_segment (mkHydrated m d logs) ->
  doc_of_hydrated (mkHydrated (set_final_operation op m) d logs) = doc_of_hydrated (mkHydrated m d logs).
Proof.
  intros Hd. unfold doc_of_hydrated, merged_embeddings_ref, merged_document_ref, merged_metadata. by rewrite Hd.
Qed.

Lemma update_fields_spec logs i l m d0 d :
  chunk_get logs i = Some l -> refs_ok logs m -> doc_of_hydrated (mkHydrated m d0 logs) = Some d ->
  exists m', update_fields i l m = Ok m' /\ refs_ok logs m' /\
    doc_of_hydrated (mkHydrated m' d0 logs) = Some (patch_doc (record l) d) /\
    offset_id_exists_in_segment m' = offset_id_exists_in_segment m /\ offset_id m' = offset_id m /\
    user_id_at_log_index m' = user_id_at_log_index m /\ final_operation m' = final_operation m.
Proof.
  intros Hi Hrefs Hd. unfold update_fields.
  destruct (merge_update_metadata_spec (metadata_to_be_merged m) (metadata_to_be_deleted m) (rec_metadata (record l))) as (mm & dd & -> & Hov & Hdis).
  cbn [map_err result_bind fst snd]. eexists. split; [done|]. split; [|split; [|done]].
  - constructor; cbn.
    + intros j. destruct (rec_document (record l)) eqn:Hdoc; [|apply Hrefs]. intros [= <-]. exists l. by rewrite Hdoc.
    + intros j. destruct (rec_embedding (record l)) eqn:Hemb; [|apply Hrefs]. intros [= <-]. exists l. by rewrite Hemb.
    + apply Hdis, Hrefs.
  - unfold doc_of_hydrated in Hd |- *. destruct (merged_embeddings_ref (mkHydrated m d0 logs)) as [e|] eqn:He; [|done]. cbn in Hd.
    destruct (merged_document_ref (mkHydrated m d0 logs)) as [doc|] eqn:Hdoc; [|done]. cbn in Hd. injection Hd as <-.
    set (h' := mkHydrated _ d0 logs).
    assert (merged_embeddings_ref h' = Some (default e (rec_embedding (record l)))) as ->.
    { unfold merged_embeddings_ref, embeddings_ref_from_log in He |- *. cbn in He |- *. destruct (rec_embedding (record l)) eqn:Hemb; [|exact He].
      rewrite Hi. cbn. by rewrite Hemb. }
    assert (merged_document_ref h' = Some (match rec_document (record l) with Some x => Some x | None => doc end)) as ->.
    { unfold merged_document_ref, document_ref_from_log in Hdoc |- *. cbn in Hdoc |- *. destruct (rec_document (record l)) eqn:Hr; [|exact Hdoc].
      rewrite Hi. cbn. by rewrite Hr. }
    cbn. unfold patch_doc. cbn. do 2 f_equal. rewrite !merged_metadata_overlay. cbn. apply Hov.
Qed.

Lemma apply_update_spec logs i l m d0 d :
  chunk_get logs i = Some l -> refs_ok logs m -> final_operation m <> DeleteExisting -> doc_of_hydrated (mkHydrated m d0 logs) = Some d ->
  exists m', apply_update i l m = Ok m' /\ refs_ok logs m' /\
    doc_of_hydrated (mkHydrated m' d0 logs) = Some (patch_doc (record l) d) /\
    offset_id_exists_in_segment m' = offset_id_exists_in_segment m /\ offset_id m' = offset_id m /\
    user_id_at_log_index m' = user_id_at_log_index m /\
    final_operation m' = (if bool_decide (final_operation m = Initial) then UpdateExisting else final_operation m).
Proof.
  intros Hi Hrefs Hop Hd. destruct (update_fields_spec logs i l m d0 d Hi Hrefs Hd) as (m' & Hu & Hr & Hdoc & H1 & H2 & H3 & H4).
  unfold apply_update. rewrite Hu. cbn. unfold after_update. rewrite H4. destruct (final_operation m) eqn:Ho; try done; try by exists m'.
  eexists. split; [done|]. split; [by destruct Hr; constructor|]. split; [|done]. rewrite doc_of_set_operation; [done|].
  unfold discards_segment, get_operation. cbn. by rewrite H4.
Qed.

Lemma from_log_record_spec logs oid i l :
  chunk_get logs i = Some l ->
  match new_doc (record l) with
  | None => from_log_record oid i l = Err EmbeddingMaterialization
  | Some d => exists m, from_log_record oid i l = Ok m /\ refs_ok logs m /\
      offset_id_exists_in_segment m = false /\ offset_id m = oid /\ user_id_at_log_index m = Some i /\ final_operation m = AddNew /\
      (forall b op d0, op = AddNew \/ op = OverwriteExisting ->
         doc_of_hydrated (mkHydrated (mkMaterialized b (offset_id m) (user_id_at_log_index m) op (metadata_to_be_merged m)
           (metadata_to_be_deleted m) (final_document_at_log_index m) (final_embedding_at_log_index m)) d0 logs) = Some d)
  end.
Proof.
  intros Hi. unfold new_doc, from_log_record. destruct (rec_embedding (record l)) as [e|] eqn:He; cbn; [|done].
  assert (exists mm dd, overlay mm dd ∅ = update_metadata (rec_metadata (record l)) ∅ /\ disjoint_keys mm dd /\
    match rec_metadata (record l) with
    | Some metadata => match materialize_update_metadata metadata with
                       | Ok m => Ok (mkMaterialized false oid (Some i) AddNew (Some m.1) (Some m.2)
                                       (match rec_document (record l) with Some _ => Some i | None => None end) (Some i))
                       | Err e => Err (MetadataMaterialization e)
                       end
    | None => Ok (mkMaterialized false oid (Some i) AddNew None None (match rec_document (record l) with Some _ => Some i | None => None end) (Some i))
    end = Ok (mkMaterialized false oid (Some i) AddNew mm dd (match rec_document (record l) with Some _ => Some i | None => None end) (Some i)))
    as (mm & dd & Hov & Hdis & ->).
  { destruct (rec_metadata (record l)) as [u|].
    - destruct (materialize_update_metadata u) as [[mt dt]|e'] eqn:Hu.
      + exists (Some mt), (Some dt). destruct (materialized_overlay u mt dt ∅ Hu) as [-> ?]. done.
      + destruct (materialize_update_metadata_spec u) as (? & ? & Hu' & _). by rewrite Hu' in Hu.
    - exists None, None. split; [apply overlay_none|]. split; [|done]. intros k [v Hv]. cbn in Hv. by rewrite lookup_empty in Hv. }
  eexists. split; [done|]. split; [|split_and!; [done..|]].
  - constructor; cbn.
    + intros j. destruct (rec_document (record l)) eqn:Hr; [|done]. intros [= <-]. exists l. by rewrite Hr.
    + intros j [= <-]. exists l. by rewrite He.
    + done.
  - intros b op d0 Hop. cbn [offset_id user_id_at_log_index metadata_to_be_merged metadata_to_be_deleted final_document_at_log_index final_embedding_at_log_index].
    unfold doc_of_hydrated. set (h := mkHydrated _ d0 logs).
    assert (discards_segment h = true) as Hdis'. { unfold discards_segment, get_operation. cbn. by destruct Hop as [-> | ->]. }
    assert (merged_embeddings_ref h = Some e) as ->. { unfold merged_embeddings_ref, embeddings_ref_from_log. cbn. by rewrite Hi; cbn; rewrite He. }
    assert (merged_document_ref h = Some (rec_document (record l))) as ->.
    { unfold merged_document_ref. rewrite Hdis'. cbn. unfold document_ref_from_log. cbn. destruct (rec_document (record l)) eqn:Hr; [|done].
      rewrite Hi. cbn. by rewrite Hr. }
    cbn. do 2 f_equal. rewrite merged_metadata_overlay. unfold segment_metadata. rewrite Hdis'. done.
Qed.

(** ** Entries of the two maps *)

(** The entry [m] of a record that has [d0] in the segment stands for [o]. *)
Definition stands logs m (d0 : option DataRecord) (o : option Doc) : Prop :=
  match final_operation m with
  | DeleteExisting => o = None
  | _ => exists d, o = Some d /\ doc_of_hydrated (mkHydrated m d0 logs) = Some d
  end.

Definition names logs (uid : string) (i : nat) : Prop := exists l, chunk_get logs i = Some l /\ rec_id (record l) = uid.

Record existing_ok logs (uid : string) (oid : Z) m : Prop := {
  e_exists : offset_id_exists_in_segment m = true;
  e_offset : offset_id m = oid;
  e_operation : final_operation m <> AddNew;
  e_refs : refs_ok logs m;
  e_user : forall i, user_id_at_log_index m = Some i -> names logs uid i;
  e_initial : final_operation m = Initial -> m = from_segment_offset_id oid;
}.

Record fresh_ok logs (uid : string) m : Prop := {
  f_exists : offset_id_exists_in_segment m = false;
  f_operation : final_operation m = AddNew;
  f_refs : refs_ok logs m;
  f_user : exists i, user_id_at_log_index m = Some i /\ names logs uid i;
}.

(** The maps after a part of the log, when the segment has [base], the chunk
    mentions [ids], and the collection has become [c]. *)
Record ledger_ok logs (base : string -> option (Z * DataRecord)) (ids : gset string) (start : Z) (c : gmap string Doc) (s : Ledger) : Prop := {
  l_old : forall uid oid d0, base uid = Some (oid, d0) -> fresh s !! uid = None /\
    match existing s !! uid with
    | Some m => existing_ok logs uid oid m /\ stands logs m (Some d0) (c !! uid)
    | None => uid ∉ ids /\ c !! uid = Some (doc_of d0)
    end;
  l_new : forall uid, base uid = None -> existing s !! uid = None /\
    match fresh s !! uid with
    | Some m => fresh_ok logs uid m /\ stands logs m None (c !! uid)
    | None => c !! uid = None
    end;
  l_range : forall uid m, fresh s !! uid = Some m -> start <= offset_id m < next_offset s;
  l_inj : forall uid uid' m m', fresh s !! uid = Some m -> fresh s !! uid' = Some m' -> offset_id m = offset_id m' -> uid = uid';
  l_start : start <= next_offset s;
  l_ids : forall uid, is_Some (existing s !! uid) \/ is_Some (fresh s !! uid) -> uid ∈ ids;
}.

(** An entry of [existing] changes. *)
Lemma ledger_set_existing logs base ids start c s uid oid d0 m o :
  uid ∈ ids -> ledger_ok logs base ids start c s -> base uid = Some (oid, d0) -> existing_ok logs uid oid m -> stands logs m (Some d0) o ->
  ledger_ok logs base ids start (put uid o c) (mkLedger (<[uid := m]> (existing s)) (fresh s) (next_offset s)).
Proof.
  intros Hu [Ho Hn Hr Hi Hs Hids] Hb He Hst. constructor; cbn; [| |done..|].
  - intros uid' oid' d0' Hb'. split; [by apply (Ho uid' oid' d0')|]. destruct (decide (uid = uid')) as [<-|Hne].
    + rewrite lookup_insert_eq, put_eq. rewrite Hb in Hb'. by injection Hb' as <- <-.
    + rewrite lookup_insert_ne, put_ne by done. by apply Ho.
  - intros uid' Hb'. assert (uid <> uid') as Hne by (intros ->; congruence). rewrite lookup_insert_ne, put_ne by done. by apply Hn.
  - intros uid'. destruct (decide (uid = uid')) as [<-|Hne]; [done|]. rewrite lookup_insert_ne by done. apply Hids.
Qed.

(** An entry of [fresh] changes and keeps its offset id. *)
Lemma ledger_set_fresh logs base ids start c s uid m m' o :
  uid ∈ ids -> ledger_ok logs base ids start c s -> base uid = None -> fresh s !! uid = Some m -> offset_id m' = offset_id m ->
  fresh_ok logs uid m' -> stands logs m' None o ->
  ledger_ok logs base ids start (put uid o c) (mkLedger (existing s) (<[uid := m']> (fresh s)) (next_offset s)).
Proof.
  intros Hu [Ho Hn Hr Hi Hs Hids] Hb Hm Hid Hf Hst. constructor; cbn; [| | | |done|].
  - intros uid' oid' d0' Hb'. assert (uid <> uid') as Hne by (intros ->; congruence). rewrite lookup_insert_ne, put_ne by done. by apply Ho.
  - intros uid' Hb'. split; [by apply Hn|]. destruct (decide (uid = uid')) as [<-|Hne].
    + by rewrite lookup_insert_eq, put_eq.
    + rewrite lookup_insert_ne, put_ne by done. by apply Hn.
  - intros uid' m1. rewrite lookup_insert_Some. intros [[<- <-]|[_ H1]]; [rewrite Hid|]; eauto.
  - intros u1 u2 m1 m2. rewrite !lookup_insert_Some. intros [[<- <-]|[_ H1]] [[<- <-]|[_ H2]]; rewrite ?Hid; eauto.
  - intros uid'. destruct (decide (uid = uid')) as [<-|Hne]; [done|]. rewrite lookup_insert_ne by done. apply Hids.
Qed.

(** A record is created. *)
Lemma ledger_insert_fresh logs base ids start c s uid m o :
  uid ∈ ids -> ledger_ok logs base ids start c s -> base uid = None -> fresh s !! uid = None -> offset_id m = next_offset s -> next_offset s + 1 < 2 ^ 32 -> 0 <= start ->
  fresh_ok logs uid m -> stands logs m None o ->
  ledger_ok logs base ids start (put uid o c) (mkLedger (existing s) (<[uid := m]> (fresh s)) (u32_wrap (next_offset s + 1))).
Proof.
  intros Hu [Ho Hn Hr Hi Hs Hids] Hb Hm Hid Hlt H0 Hf Hst. unfold u32_wrap. rewrite Z.mod_small by lia. constructor; cbn; [| | | |lia|].
  - intros uid' oid' d0' Hb'. assert (uid <> uid') as Hne by (intros ->; congruence). rewrite lookup_insert_ne, put_ne by done. by apply Ho.
  - intros uid' Hb'. split; [by apply Hn|]. destruct (decide (uid = uid')) as [<-|Hne].
    + by rewrite lookup_insert_eq, put_eq.
    + rewrite lookup_insert_ne, put_ne by done. by apply Hn.
  - intros uid' m1. rewrite lookup_insert_Some. intros [[<- <-]|[_ H1]]; [lia|]. apply Hr in H1. lia.
  - intros u1 u2 m1 m2. rewrite !lookup_insert_Some. intros [[<- <-]|[_ H1]] [[<- <-]|[_ H2]]; [done|apply Hr in H2; lia|apply Hr in H1; lia|eauto].
  - intros uid'. destruct (decide (uid = uid')) as [<-|Hne]; [done|]. rewrite lookup_insert_ne by done. apply Hids.
Qed.

(** A record that was created is deleted again. *)
Lemma ledger_remove_fresh logs base ids start c s uid :
  ledger_ok logs base ids start c s -> base uid = None ->
  ledger_ok logs base ids start (put uid None c) (mkLedger (existing s) (base.delete uid (fresh s)) (next_offset s)).
Proof.
  intros [Ho Hn Hr Hi Hs Hids] Hb. constructor; cbn; [| | | |done|].
  - intros uid' oid' d0' Hb'. assert (uid <> uid') as Hne by (intros ->; congruence). rewrite lookup_delete_ne, put_ne by done. by apply Ho.
  - intros uid' Hb'. split; [by apply Hn|]. destruct (decide (uid = uid')) as [<-|Hne].
    + by rewrite lookup_delete_eq, put_eq.
    + rewrite lookup_delete_ne, put_ne by done. by apply Hn.
  - intros uid' m1 [_ H1]%lookup_delete_Some. eauto.
  - intros u1 u2 m1 m2 [_ H1]%lookup_delete_Some [_ H2]%lookup_delete_Some. eauto.
  - intros uid' [Hx|[m1 [_ Hx]%lookup_delete_Some]]; apply Hids; eauto.
Qed.

Lemma ledger_unchanged logs base ids start c s uid o :
  c !! uid = o -> ledger_ok logs base ids start c s -> ledger_ok logs base ids start (put uid o c) s.
Proof.
  intros <- Hl. assert (put uid (c !! uid) c = c) as ->; [|done]. apply map_eq. intros k.
  destruct (decide (uid = k)) as [<-|Hne]; [by rewrite put_eq|by rewrite put_ne].
Qed.

(** ** One operation *)

Section Step.
Context logs (base : string -> option (Z * DataRecord)) (ids : gset string) (start : Z) (Hstart : 0 <= start).
Context (c : gmap string Doc) (s : Ledger) (Hl : ledger_ok logs base ids start c s).
Context (i : nat) (l : LogRecord) (Hget : chunk_get logs i = Some l) (Hid : rec_id (record l) ∈ ids).
Context (Hlt : next_offset s + 1 < 2 ^ 32).
Let uid := rec_id (record l).

(** The computation does what the reference does to the record. *)
Definition does (r : result unit LogMaterializerError * Ledger) (o : option (option Doc)) : Prop :=
  match o with
  | Some o => exists s', r = (Ok tt, s') /\ ledger_ok logs base ids start (put uid o c) s' /\ next_offset s <= next_offset s' <= next_offset s + 1
  | None => r.1 = Err EmbeddingMaterialization
  end.

Lemma names_self : names logs uid i.
Proof. by exists l. Qed.

Lemma does_nothing : does (st_ret tt s) (Some (c !! uid)).
Proof. exists s. split; [done|]. split; [by apply ledger_unchanged|lia]. Qed.

Lemma does_insert : base uid = None -> fresh s !! uid = None -> does (insert_fresh i l s) (Some <$> new_doc (record l)).
Proof.
  intros Hb Hf. unfold insert_fresh, st_bind, fetch_add, lift. pose proof (from_log_record_spec logs (next_offset s) i l Hget) as Hspec.
  destruct (new_doc (record l)) as [d|]; cbn [fmap option_fmap option_map does]; [|by rewrite Hspec].
  destruct Hspec as (m & -> & Hr & H1 & H2 & H3 & H4 & Hdoc). cbn. eexists. split; [done|]. cbn. split.
  - apply ledger_insert_fresh; try done.
    + constructor; [done..|]. exists i. split; [done|]. apply names_self.
    + unfold stands. rewrite H4. exists d. split; [done|]. specialize (Hdoc false AddNew None (or_introl eq_refl)).
      destruct m; cbn in *; subst; done.
  - unfold u32_wrap. pose proof (l_start _ _ _ _ _ _ Hl). rewrite Z.mod_small by lia. lia.
Qed.

Lemma does_overwrite oid d0 m : base uid = Some (oid, d0) -> existing s !! uid = Some m -> existing_ok logs uid oid m ->
  does (overwrite_existing i l m s) (Some <$> new_doc (record l)).
Proof.
  intros Hb Hm He. unfold overwrite_existing, st_bind, remove_existing, lift, overwrite_record.
  pose proof (from_log_record_spec logs (offset_id m) i l Hget) as Hspec. fold uid.
  destruct (new_doc (record l)) as [d|]; cbn [fmap option_fmap option_map does]; [|by rewrite Hspec].
  destruct Hspec as (m' & -> & Hr & H1 & H2 & H3 & H4 & Hdoc). cbn. eexists. split; [done|]. cbn. rewrite insert_delete_eq. split; [|lia].
  eapply ledger_set_existing; [done|done|done| |].
  - constructor; cbn; [done|by rewrite H2, (e_offset _ _ _ _ He)|done|by destruct Hr; constructor| |done].
    intros j Hj. rewrite H3 in Hj. injection Hj as <-. apply names_self.
  - cbn. exists d. split; [done|]. apply (Hdoc true OverwriteExisting). by right.
Qed.

Lemma does_update_existing oid d0 m d :
  base uid = Some (oid, d0) -> existing s !! uid = Some m -> existing_ok logs uid oid m -> final_operation m <> DeleteExisting ->
  doc_of_hydrated (mkHydrated m (Some d0) logs) = Some d ->
  does (st_bind (lift (apply_update i l m)) (fun m => set_existing uid m) s) (Some (Some (patch_doc (record l) d))).
Proof.
  intros Hb Hm He Hop Hd. destruct (apply_update_spec logs i l m (Some d0) d Hget (e_refs _ _ _ _ He) Hop Hd)
    as (m' & Hu & Hr & Hdoc & H1 & H2 & H3 & H4).
  unfold st_bind, lift. rewrite Hu. eexists. split; [done|]. cbn. split; [|lia]. eapply ledger_set_existing; [done|done|done| |].
  - constructor; [by rewrite H1; apply He|by rewrite H2; apply He| |done|by rewrite H3; apply He|];
      rewrite H4; case_bool_decide; [done|apply He|done|done].
  - unfold stands. assert (final_operation m' <> DeleteExisting) as Hne by (rewrite H4; by case_bool_decide).
    destruct (final_operation m'); try done; by eexists.
Qed.

Lemma does_update_fresh m m' d :
  base uid = None -> fresh s !! uid = Some m -> fresh_ok logs uid m -> doc_of_hydrated (mkHydrated m None logs) = Some d ->
  refs_ok logs m' -> doc_of_hydrated (mkHydrated m' None logs) = Some (patch_doc (record l) d) ->
  offset_id_exists_in_segment m' = offset_id_exists_in_segment m -> offset_id m' = offset_id m ->
  user_id_at_log_index m' = user_id_at_log_index m -> final_operation m' = AddNew ->
  does (set_fresh uid m' s) (Some (Some (patch_doc (record l) d))).
Proof.
  intros Hb Hm Hf Hd Hr Hdoc H1 H2 H3 H4. eexists. split; [done|]. split; [|cbn; lia].
  eapply ledger_set_fresh; try done.
  - constructor; [by rewrite H1; apply Hf|done..|]. rewrite H3. apply Hf.
  - unfold stands. rewrite H4. by eexists.
Qed.

(** What the maps have for the record. *)
Lemma entry_cases :
  (exists oid d0 m, base uid = Some (oid, d0) /\ fresh s !! uid = None /\ existing s !! uid = Some m /\ existing_ok logs uid oid m /\
     stands logs m (Some d0) (c !! uid)) \/
  (exists m, base uid = None /\ existing s !! uid = None /\ fresh s !! uid = Some m /\ fresh_ok logs uid m /\ stands logs m None (c !! uid)) \/
  (base uid = None /\ existing s !! uid = None /\ fresh s !! uid = None /\ c !! uid = None).
Proof.
  destruct (base uid) as [[oid d0]|] eqn:Hb.
  - destruct (l_old _ _ _ _ _ _ Hl uid oid d0 Hb) as [Hf He]. left. exists oid, d0.
    destruct (existing s !! uid) as [m|]; [exists m; by destruct He|]. by destruct He.
  - right. destruct (l_new _ _ _ _ _ _ Hl uid Hb) as [He Hf]. destruct (fresh s !! uid) as [m|]; [left; exists m; by destruct Hf|by right].
Qed.

Lemma process_record_does : does (process_record (l, i) s) (record_step (record l) (c !! uid)).
Proof.
  unfold process_record, record_step. destruct entry_cases as [(oid & d0 & m & Hb & Hf & He & Hok & Hst)|[(m & Hb & He & Hf & Hok & Hst)|(Hb & He & Hf & Hc)]].
  - (** The segment has the record. *)
    assert (final_operation m = DeleteExisting /\ c !! uid = None \/
            (final_operation m <> DeleteExisting /\ exists d, c !! uid = Some d /\ doc_of_hydrated (mkHydrated m (Some d0) logs) = Some d))
      as [[Hdel Hc]|[Hop (d & Hc & Hd)]].
    { unfold stands in Hst. destruct (final_operation m); [right|right|right|right|left]; done. }
    + rewrite Hc. destruct (rec_operation (record l)).
      * unfold process_add, st_bind, st_get. fold uid. rewrite He, Hdel. by eapply does_overwrite.
      * unfold process_update, st_bind, st_get. fold uid. rewrite He, Hdel. rewrite <- Hc. apply does_nothing.
      * unfold process_upsert, st_bind, st_get. fold uid. rewrite He, Hdel. by eapply does_overwrite.
      * unfold process_delete, st_bind, st_get. fold uid. rewrite Hf, He. eexists. split; [done|]. split; [|cbn; lia].
        eapply ledger_set_existing; [done..| |done]. constructor; cbn; [apply Hok|apply Hok|done|apply refs_ok_none|done|done].
    + rewrite Hc. pose proof (e_operation _ _ _ _ Hok) as Hna. destruct (rec_operation (record l)).
      * unfold process_add, st_bind, st_get. fold uid. rewrite He. rewrite <- Hc. destruct (final_operation m); try done; apply does_nothing.
      * unfold process_update. fold uid. unfold st_bind at 1, st_get. rewrite He.
        pose proof (does_update_existing oid d0 m d Hb He Hok Hop Hd). by destruct (final_operation m).
      * unfold process_upsert. fold uid. unfold st_bind at 1, st_get. rewrite He.
        pose proof (does_update_existing oid d0 m d Hb He Hok Hop Hd). by destruct (final_operation m).
      * unfold process_delete, st_bind, st_get. fold uid. rewrite Hf, He. eexists. split; [done|]. split; [|cbn; lia].
        eapply ledger_set_existing; [done..| |done]. constructor; cbn; [apply Hok|apply Hok|done|apply refs_ok_none|done|done].
  - (** Only the log has it. *)
    unfold stands in Hst. rewrite (f_operation _ _ _ Hok) in Hst. destruct Hst as (d & Hc & Hd). rewrite Hc.
    destruct (rec_operation (record l)).
    + unfold process_add, st_bind, st_get. fold uid. rewrite He, Hf, <- Hc. apply does_nothing.
    + destruct (apply_update_spec logs i l m None d Hget (f_refs _ _ _ Hok)) as (m' & Hu & Hr & Hdoc & H1 & H2 & H3 & H4); [by rewrite (f_operation _ _ _ Hok)|done|].
      unfold process_update, st_bind, st_get, lift. fold uid. rewrite He, Hf, Hu. rewrite (f_operation _ _ _ Hok) in H4. by eapply does_update_fresh.
    + destruct (update_fields_spec logs i l m None d Hget (f_refs _ _ _ Hok) Hd) as (m' & Hu & Hr & Hdoc & H1 & H2 & H3 & H4).
      unfold process_upsert, st_bind, st_get, lift. fold uid. rewrite He, Hf, Hu. rewrite (f_operation _ _ _ Hok) in H4. eapply does_update_fresh; try done.
      * by destruct Hr; constructor.
      * rewrite doc_of_set_operation; [done|]. unfold discards_segment, get_operation. cbn. by rewrite H4.
    + unfold process_delete, st_bind, st_get. fold uid. rewrite Hf. eexists. split; [done|]. split; [|cbn; lia]. by apply ledger_remove_fresh.
  - rewrite Hc. destruct (rec_operation (record l)).
    + unfold process_add, st_bind, st_get. fold uid. rewrite He, Hf. by apply does_insert.
    + unfold process_update, st_bind, st_get. fold uid. rewrite He, Hf, <- Hc. apply does_nothing.
    + unfold process_upsert, st_bind, st_get. fold uid. rewrite He, Hf. by apply does_insert.
    + unfold process_delete, st_bind, st_get. fold uid. rewrite Hf, He, <- Hc. apply does_nothing.
Qed.
End Step.

(** ** The loop *)

Lemma process_records_spec logs base ids start l : 0 <= start ->
  forall c s, ledger_ok logs base ids start c s ->
  Forall (fun x => chunk_get logs x.2 = Some x.1 /\ rec_id (record x.1) ∈ ids) l -> next_offset s + Z.of_nat (length l) < 2 ^ 32 ->
  match log_steps ((fun x => record x.1) <$> l) c with
  | Some c' => exists s', process_records l s = (Ok tt, s') /\ ledger_ok logs base ids start c' s' /\
      next_offset s <= next_offset s' <= next_offset s + Z.of_nat (length l)
  | None => (process_records l s).1 = Err EmbeddingMaterialization
  end.
Proof.
  intros Hstart. induction l as [|[lr i] l IH]; intros c s Hl Hall Hlt; cbn [process_records log_steps fmap list_fmap].
  { exists s. split; [done|]. split; [done|]. cbn. lia. }
  apply Forall_cons in Hall as [[Hget Hid] Hall]. cbn [fst snd] in *. cbn [length] in Hlt.
  pose proof (process_record_does logs base ids start Hstart c s Hl i lr Hget Hid ltac:(lia)) as Hdoes.
  unfold log_step. destruct (record_step (record lr) (c !! rec_id (record lr))) as [o|]; cbn [does] in Hdoes; cbn [mbind option_bind].
  - destruct Hdoes as (s1 & Hp & Hl1 & Hn). specialize (IH _ s1 Hl1 Hall ltac:(lia)). unfold st_bind. rewrite Hp.
    destruct (log_steps _ _) as [c'|]; [|done]. destruct IH as (s' & Hp' & Hl' & Hn'). exists s'. split; [done|]. split; [done|]. cbn [length]. lia.
  - unfold st_bind. destruct (process_record (lr, i) s) as [[?|?] s1]; cbn in Hdoes; [done|]. by injection Hdoes as ->.
Qed.
End Ledger.
