(* ===== verification/RecordFacts.v ===== *)
(** * The record segment: facts

    The rows of the three blockfiles of a record segment, what it means that
    they agree, what the reads of the segment return, and what one materialized
    record does to the rows: a consistent segment stays consistent and has the
    documents that the records of the chunk stand for. *)

From S2P Require Import Prelude Setsum Types BTree BlockKey SparseIndex BlockDelta Block Blockfile BlockfileApi Records RecordSegment LedgerFacts.

#[local] Open Scope Z_scope.

(** ** Rows *)

Record SegmentRows := mkSegmentRows {
  offset_rows : btree (CompositeKey string) u32;
  user_rows : btree (CompositeKey u32) string;
  data_rows : btree (CompositeKey u32) DataRecord;
}.

Definition off (S : SegmentRows) (uid : string) : option Z := u32_value <$> bt_get (mkCompositeKey "" uid) (offset_rows S).
Definition usr (S : SegmentRows) (oid : Z) : option string := bt_get (mkCompositeKey "" (mkU32 oid)) (user_rows S).
Definition dat (S : SegmentRows) (oid : Z) : option DataRecord := bt_get (mkCompositeKey "" (mkU32 oid)) (data_rows S).

(** The record of a user: its offset id and its data. *)
Definition stored_record (S : SegmentRows) (uid : string) : option (Z * DataRecord) :=
  oid ← off S uid; d ← dat S oid; Some (oid, d).

(** Offset ids and user ids are in bijection, every record has its data, and
    offset ids are at most [mx]. *)
Record segment_ok (S : SegmentRows) (mx : Z) : Prop := {
  s_sorted : bt_sorted (offset_rows S) /\ bt_sorted (user_rows S) /\ bt_sorted (data_rows S);
  s_bijection : forall uid oid, off S uid = Some oid <-> usr S oid = Some uid;
  s_data : forall uid oid, off S uid = Some oid -> exists d, dat S oid = Some d /\ dr_id d = uid;
  s_owner : forall oid d, dat S oid = Some d -> off S (dr_id d) = Some oid;
  s_bound : forall uid oid, off S uid = Some oid -> 0 <= oid <= mx;
}.

(** The segment has the documents of [c]. *)
Definition shows (S : SegmentRows) (c : gmap string Doc) : Prop :=
  forall uid, c !! uid = (fun x => doc_of x.2) <$> stored_record S uid.

Lemma stored_record_off S mx uid : segment_ok S mx -> off S uid = fst <$> stored_record S uid.
Proof.
  intros HS. unfold stored_record. destruct (off S uid) as [oid|] eqn:Ho; [|done]. cbn.
  destruct (s_data S mx HS uid oid Ho) as (d & -> & _). done.
Qed.

Lemma stored_record_some S mx uid oid d : segment_ok S mx -> stored_record S uid = Some (oid, d) -> off S uid = Some oid /\ dat S oid = Some d /\ dr_id d = uid.
Proof.
  intros HS. unfold stored_record. destruct (off S uid) as [oid'|] eqn:Ho; [|done]. cbn.
  destruct (s_data S mx HS uid oid' Ho) as (d' & Hd & Hid). rewrite Hd. cbn. by intros [= <- <-].
Qed.

(** ** Reads *)

Section Reads.
Context {SR : SegmentReaders} {SL : SegmentReadersLaws SR}.

Definition reader_reads (r : RecordSegmentReader) (S : SegmentRows) : Prop :=
  offset_reads (rd_user_id_to_id r) (offset_rows S) /\ user_reads (rd_id_to_user_id r) (user_rows S) /\
  data_reads (rd_id_to_data r) (data_rows S).

(** A read of the segment that returns [Q], or fails to read a blockfile. *)
Definition seg_reads {A} (S : SegmentRows) (c : Reads A) (Q : A -> Prop) : Prop :=
  forall r, reader_reads r S ->
    match c r with
    | (Ok a, r') => Q a /\ reader_reads r' S /\ rd_max_offset_id r' = rd_max_offset_id r
    | (Err e, r') => (exists b, e = BoxedBlockfileError b) /\ reader_reads r' S /\ rd_max_offset_id r' = rd_max_offset_id r
    end.

Lemma seg_reads_ret {A} S (a : A) (Q : A -> Prop) : Q a -> seg_reads S (st_ret a) Q.
Proof. by intros Ha r Hr. Qed.

Lemma seg_reads_bind {A B} S (c : Reads A) (f : A -> Reads B) Q R :
  seg_reads S c Q -> (forall a, Q a -> seg_reads S (f a) R) -> seg_reads S (st_bind c f) R.
Proof.
  intros Hc Hf r Hr. unfold st_bind. specialize (Hc r Hr). destruct (c r) as [[a|e] r1]; [|done].
  destruct Hc as (Ha & Hr1 & He). specialize (Hf a Ha r1 Hr1). destruct (f a r1) as [[b|e] r2]; by rewrite <- He.
Qed.

Lemma offset_get_reads S uid : seg_reads S (on_offsets (api_get "" uid)) (fun v => u32_value <$> v = off S uid).
Proof.
  intros r (H1 & H2 & H3). unfold on_offsets, st_zoom, st_map_err. pose proof (api_get_law ""%string uid _ _ H1) as Hg.
  destruct (api_get "" uid (rd_user_id_to_id r)) as [[v|e] x]; cbn; unfold reader_reads; cbn; [destruct Hg as [-> Hg]|]; by eauto 10.
Qed.

Lemma offset_contains_reads S uid : seg_reads S (on_offsets (api_contains "" uid)) (fun b => b = bool_decide (is_Some (off S uid))).
Proof.
  intros r (H1 & H2 & H3). unfold on_offsets, st_zoom, st_map_err. pose proof (api_contains_law ""%string uid _ _ H1) as Hg.
  destruct (api_contains "" uid (rd_user_id_to_id r)) as [[v|e] x]; cbn; unfold reader_reads; cbn; [destruct Hg as [-> Hg]|by eauto 10].
  split; [|done]. apply bool_decide_ext. unfold off. by rewrite fmap_is_Some.
Qed.

Lemma data_get_reads S oid : seg_reads S (get_data_for_offset_id oid) (fun v => v = dat S oid).
Proof.
  intros r (H1 & H2 & H3). unfold get_data_for_offset_id, on_data, st_zoom, st_map_err. pose proof (api_get_law ""%string (mkU32 oid) _ _ H3) as Hg.
  destruct (api_get "" (mkU32 oid) (rd_id_to_data r)) as [[v|e] x]; cbn; unfold reader_reads; cbn; [destruct Hg as [-> Hg]|]; by eauto 10.
Qed.

Lemma data_contains_reads S oid : seg_reads S (on_data (api_contains "" oid)) (fun b => b = bool_decide (is_Some (dat S (u32_value oid)))).
Proof.
  intros r (H1 & H2 & H3). unfold on_data, st_zoom, st_map_err. pose proof (api_contains_law ""%string oid _ _ H3) as Hg.
  destruct (api_contains "" oid (rd_id_to_data r)) as [[v|e] x]; cbn; unfold reader_reads; cbn; [destruct Hg as [-> Hg]|by eauto 10].
  split; [|done]. unfold dat. by destruct oid.
Qed.

(** A user id is found exactly when the segment has it. *)
Lemma data_exists_reads S mx uid :
  segment_ok S mx -> seg_reads S (data_exists_for_user_id uid) (fun b => b = bool_decide (is_Some (off S uid))).
Proof.
  intros HS. unfold data_exists_for_user_id. eapply seg_reads_bind; [apply offset_contains_reads|]. intros b ->.
  case_bool_decide as Ho; cbn [negb]; [|by apply seg_reads_ret]. eapply seg_reads_bind; [apply offset_get_reads|]. intros v Hv.
  destruct v as [oid|]; cbn in Hv.
  - intros r Hr. pose proof (data_contains_reads S oid r Hr) as Hd. destruct (on_data _ r) as [[b|e] r']; [|done].
    destruct Hd as [-> Hd]. split; [|done]. destruct (s_data S mx HS uid (u32_value oid) (eq_sym Hv)) as (d & -> & _). done.
  - exfalso. rewrite <- Hv in Ho. by destruct Ho.
Qed.

(** The first loop of [materialize_logs]. *)
Lemma find_existing_spec S mx l : segment_ok S mx -> forall found r, reader_reads r S ->
  match find_existing l found r with
  | (Ok found', r') => reader_reads r' S /\ rd_max_offset_id r' = rd_max_offset_id r /\
      forall uid, found' !! uid =
        match off S uid with
        | Some oid => if decide (uid ∈ (fun x => rec_id (record x.1)) <$> l) then Some (from_segment_offset_id oid) else found !! uid
        | None => found !! uid
        end
  | (Err e, _) => exists b, e = RecordSegment (BoxedBlockfileError b)
  end.
Proof.
  intros HS. induction l as [|[lr i] l IH]; intros found r Hr; cbn [find_existing].
  { cbn. split; [done|]. split; [done|]. intros uid. destruct (off S uid); [|done]. case_decide as Hin; [by apply elem_of_nil in Hin|done]. }
  set (id := rec_id (record lr)). unfold st_bind at 1, st_map_err at 1.
  pose proof (data_exists_reads S mx id HS r Hr) as He. destruct (data_exists_for_user_id id r) as [[b|e] r1]; cbn [map_err];
    [|destruct He as [(b & ->) _]; by eauto]. destruct He as (-> & Hr1 & Hm1).
  case_bool_decide as Ho.
  - unfold st_bind at 1, st_map_err at 1. pose proof (offset_get_reads S id r1 Hr1) as Hg. unfold get_offset_id_for_user_id.
    destruct (on_offsets (api_get "" id) r1) as [[v|e] r2]; cbn [map_err]; [|destruct Hg as [(b & ->) _]; by eauto].
    destruct Hg as (Hv & Hr2 & Hm2). destruct v as [oid|]; cbn in Hv; [|rewrite <- Hv in Ho; by destruct Ho].
    specialize (IH (<[id := from_segment_offset_id (u32_value oid)]> found) r2 Hr2). destruct (find_existing l _ r2) as [[found'|e] r']; [|done].
    destruct IH as (Hr' & Hm' & Hf). split; [done|]. split; [congruence|]. intros uid. rewrite Hf. cbn. fold id.
    destruct (off S uid) as [o|] eqn:Hou.
    + destruct (decide (id = uid)) as [<-|Hne].
      * rewrite (decide_True (P := id ∈ id :: _)) by set_solver. case_decide; [done|]. rewrite lookup_insert_eq. congruence.
      * rewrite lookup_insert_ne by done. repeat case_decide; set_solver.
    + rewrite lookup_insert_ne; [done|]. intros ->. congruence.
  - specialize (IH found r1 Hr1). destruct (find_existing l found r1) as [[found'|e] r']; [|done].
    destruct IH as (Hr' & Hm' & Hf). split; [done|]. split; [congruence|]. intros uid. rewrite Hf. cbn. fold id.
    destruct (off S uid) as [o|] eqn:Hou; [|done]. assert (uid <> id) as Hne by (intros ->; rewrite Hou in Ho; apply Ho; eauto).
    repeat case_decide; set_solver.
Qed.

(** A segment that was never written has no reader and no rows. *)
Definition option_reads (reader : option RecordSegmentReader) (S : SegmentRows) : Prop :=
  match reader with
  | Some r => reader_reads r S
  | None => S = mkSegmentRows [] [] []
  end.

Lemma hydrate_spec S logs m reader :
  option_reads reader S ->
  match hydrate logs m reader with
  | (Ok h, reader') => h = mkHydrated m (if offset_id_exists_in_segment m then dat S (offset_id m) else None) logs /\ option_reads reader' S
  | (Err e, reader') => (exists b, e = RecordSegment (BoxedBlockfileError b)) /\ option_reads reader' S
  end.
Proof.
  intros Hr. unfold hydrate. destruct (offset_id_exists_in_segment m); [|done]. destruct reader as [r|]; cbn in Hr.
  - pose proof (data_get_reads S (offset_id m) r Hr) as Hd. destruct (get_data_for_offset_id (offset_id m) r) as [[d|e] r'].
    + destruct Hd as (-> & Hr' & _). done.
    + destruct Hd as ((b & ->) & Hr' & _). eauto.
  - subst S. done.
Qed.
End Reads.

(** What the writers of the blockfiles promise. *)
Class SegmentWritersLaws (SW : SegmentWriters) := {
  offset_wok : offset_writer -> Prop;
  offset_wrows : offset_writer -> btree (CompositeKey string) u32;
  offset_fit : string -> string -> u32 -> Prop;
  user_wok : user_writer -> Prop;
  user_wrows : user_writer -> btree (CompositeKey u32) string;
  user_fit : string -> u32 -> string -> Prop;
  data_wok : data_writer -> Prop;
  data_wrows : data_writer -> btree (CompositeKey u32) DataRecord;
  data_fit : string -> u32 -> DataRecord -> Prop;
  offset_wlaws :: WriterLaws offset_wapi offset_wok offset_wrows offset_fit;
  user_wlaws :: WriterLaws user_wapi user_wok user_wrows user_fit;
  data_wlaws :: WriterLaws data_wapi data_wok data_wrows data_fit;
}.

(** ** Lookups after a change *)

Section Lookups.
Context {K V : Type} {KK : Key K} {KL : KeyLaws K}.
Implicit Types (k : K) (v : V) (m : btree (CompositeKey K) V).

Lemma cmp_composite_ne (p : string) k k' : k <> k' -> match cmp (mkCompositeKey p k) (mkCompositeKey p k') with Eq => False | _ => True end.
Proof. intros Hne. destruct (cmp _ _) eqn:Hc; [|done..]. apply cmp_eq in Hc. by injection Hc. Qed.

Lemma bt_insert_get_eq k v m : bt_get (mkCompositeKey "" k) (bt_insert (mkCompositeKey "" k) v m) = Some v.
Proof. by rewrite bt_get_insert, cmp_refl. Qed.

Lemma bt_insert_get_ne k k' v m : k <> k' -> bt_get (mkCompositeKey "" k') (bt_insert (mkCompositeKey "" k) v m) = bt_get (mkCompositeKey "" k') m.
Proof.
  intros Hne. rewrite bt_get_insert. pose proof (cmp_composite_ne ""%string k' k ltac:(done)) as H. by destruct (cmp _ _).
Qed.

Lemma bt_remove_get_eq k m : bt_sorted m -> bt_get (mkCompositeKey "" k) (bt_remove (mkCompositeKey "" k) m) = None.
Proof. intros Hs. by rewrite bt_get_remove, cmp_refl. Qed.

Lemma bt_remove_get_ne k k' m : bt_sorted m -> k <> k' -> bt_get (mkCompositeKey "" k') (bt_remove (mkCompositeKey "" k) m) = bt_get (mkCompositeKey "" k') m.
Proof.
  intros Hs Hne. rewrite bt_get_remove by done. pose proof (cmp_composite_ne ""%string k' k ltac:(done)) as H. by destruct (cmp _ _).
Qed.
End Lookups.

(** ** One record *)

(** The rows after a record with offset id [oid] of the user [uid], whose data
    becomes [d]. *)
Definition rows_apply (op : MaterializedLogOperation) (uid : string) (oid : Z) (d : DataRecord) (S : SegmentRows) : SegmentRows :=
  let o := mkCompositeKey "" (mkU32 oid) in
  let u := mkCompositeKey ""%string uid in
  match op with
  | AddNew => mkSegmentRows (bt_insert u (mkU32 oid) (offset_rows S)) (bt_insert o uid (user_rows S)) (bt_insert o d (data_rows S))
  | UpdateExisting | OverwriteExisting => mkSegmentRows (offset_rows S) (user_rows S) (bt_insert o d (bt_remove o (data_rows S)))
  | DeleteExisting => mkSegmentRows (bt_remove u (offset_rows S)) (bt_remove o (user_rows S)) (bt_remove o (data_rows S))
  | Initial => S
  end.

Definition rows_sorted_ok (S : SegmentRows) : Prop := bt_sorted (offset_rows S) /\ bt_sorted (user_rows S) /\ bt_sorted (data_rows S).

Section Views.
Context (op : MaterializedLogOperation) (uid : string) (oid : Z) (d : DataRecord) (S : SegmentRows) (HS : rows_sorted_ok S).
Let S' := rows_apply op uid oid d S.

Lemma rows_apply_sorted : rows_sorted_ok S'.
Proof.
  destruct HS as (H1 & H2 & H3). unfold S', rows_sorted_ok. destruct op; cbn;
    split_and!; repeat first [done | apply bt_insert_sorted | apply bt_remove_sorted].
Qed.

Lemma off_other uid' : uid' <> uid -> off S' uid' = off S uid'.
Proof.
  intros Hne. destruct HS as (H1 & H2 & H3). unfold off, S'. destruct op; cbn; try done; f_equal.
  - by apply bt_insert_get_ne.
  - by apply bt_remove_get_ne.
Qed.

Lemma usr_other oid' : oid' <> oid -> usr S' oid' = usr S oid'.
Proof.
  intros Hne. destruct HS as (H1 & H2 & H3). unfold usr, S'. assert (mkU32 oid <> mkU32 oid') by congruence. destruct op; cbn; try done.
  - by apply bt_insert_get_ne.
  - by apply bt_remove_get_ne.
Qed.

Lemma dat_other oid' : oid' <> oid -> dat S' oid' = dat S oid'.
Proof.
  intros Hne. destruct HS as (H1 & H2 & H3). unfold dat, S'. assert (mkU32 oid <> mkU32 oid') by congruence. destruct op; cbn; try done.
  - by apply bt_insert_get_ne.
  - rewrite bt_insert_get_ne by done. by apply bt_remove_get_ne.
  - rewrite bt_insert_get_ne by done. by apply bt_remove_get_ne.
  - by apply bt_remove_get_ne.
Qed.

(** At the record itself. *)
Lemma rows_apply_self :
  match op with
  | AddNew => off S' uid = Some oid /\ usr S' oid = Some uid /\ dat S' oid = Some d
  | UpdateExisting | OverwriteExisting => off S' uid = off S uid /\ usr S' oid = usr S oid /\ dat S' oid = Some d
  | DeleteExisting => off S' uid = None /\ usr S' oid = None /\ dat S' oid = None
  | Initial => True
  end.
Proof.
  destruct HS as (H1 & H2 & H3). unfold off, usr, dat, S'. destruct op; cbn; rewrite ?bt_insert_get_eq; try done.
  rewrite !bt_remove_get_eq by done. done.
Qed.
End Views.

(** When the segment is consistent with the record, it stays consistent. *)
Definition record_fits (op : MaterializedLogOperation) (uid : string) (oid : Z) (S : SegmentRows) : Prop :=
  match op with
  | AddNew => off S uid = None /\ usr S oid = None /\ 0 <= oid
  | UpdateExisting | OverwriteExisting | DeleteExisting => off S uid = Some oid
  | Initial => False
  end.

Lemma rows_apply_ok op uid oid d S mx :
  segment_ok S mx -> record_fits op uid oid S -> dr_id d = uid ->
  segment_ok (rows_apply op uid oid d S) (match op with AddNew => Z.max mx oid | _ => mx end).
Proof.
  intros [Hsort Hbij Hdata Hown Hbound] Hfit Hid. fold (rows_sorted_ok S) in Hsort.
  pose proof (rows_apply_sorted op uid oid d S Hsort) as Hsort'. pose proof (rows_apply_self op uid oid d S Hsort) as Hself.
  pose proof (off_other op uid oid d S Hsort) as Hoff. pose proof (usr_other op uid oid d S Hsort) as Husr. pose proof (dat_other op uid oid d S Hsort) as Hdat.
  set (S' := rows_apply op uid oid d S) in *. unfold record_fits in Hfit.
  (** Nobody else has the offset id. *)
  assert (forall uid', off S uid' = Some oid -> op <> AddNew /\ uid' = uid) as Hmine.
  { intros uid' Ho. apply Hbij in Ho. destruct op; try done; [destruct Hfit as (_ & Hu & _); congruence|..];
      apply Hbij in Hfit; split; [done|congruence|done|congruence|done|congruence]. }
  constructor; [done| | | |].
  - intros uid' oid'. destruct (decide (uid' = uid)) as [->|Hu], (decide (oid' = oid)) as [->|Ho].
    + destruct op; try done; destruct Hself as (-> & -> & _); [done|apply Hbij|apply Hbij|by split].
    + rewrite Husr by done. destruct op; try done; destruct Hself as (-> & _ & _).
      * destruct Hfit as (Hn & _). rewrite <- Hbij. split; [congruence|]. by rewrite Hn.
      * apply Hbij.
      * apply Hbij.
      * rewrite <- Hbij, Hfit. split; [done|congruence].
    + rewrite Hoff by done. destruct op; try done; destruct Hself as (_ & -> & _).
      * destruct Hfit as (_ & Hn & _). rewrite Hbij, Hn. split; [done|congruence].
      * apply Hbij in Hfit. rewrite Hbij, Hfit. split; [congruence|done].
    + by rewrite Hoff, Husr.
  - intros uid' oid'. destruct (decide (uid' = uid)) as [->|Hu].
    + destruct op; try done; destruct Hself as (-> & _ & Hd).
      * intros [= <-]. eauto.
      * rewrite Hfit. intros [= <-]. eauto.
      * rewrite Hfit. intros [= <-]. eauto.
      * done.
    + rewrite Hoff by done. intros Ho. assert (oid' <> oid) as Hne by (intros ->; by apply Hmine in Ho as [_ ?]).
      rewrite Hdat by done. by apply Hdata.
  - intros oid' d'. destruct (decide (oid' = oid)) as [->|Ho].
    + destruct op; try done; destruct Hself as (Hou & _ & ->); intros [= <-]; rewrite Hid, Hou; done.
    + rewrite Hdat by done. intros Hd. apply Hown in Hd. destruct (decide (dr_id d' = uid)) as [He|Hu]; [|by rewrite Hoff].
      rewrite He in Hd |- *. destruct op; try done; try (destruct Hfit; congruence); try congruence.
  - intros uid' oid'. destruct (decide (uid' = uid)) as [->|Hu].
    + destruct op; try done; destruct Hself as (-> & _ & _); [intros [= <-]; destruct Hfit as (_ & _ & ?); lia|..].
      * apply Hbound.
      * apply Hbound.
      * done.
    + rewrite Hoff by done. intros Ho%Hbound. destruct op; lia.
Qed.

(** The records of the other users are as before. *)
Lemma rows_apply_other op uid oid d S mx uid' :
  segment_ok S mx -> record_fits op uid oid S -> uid' <> uid -> stored_record (rows_apply op uid oid d S) uid' = stored_record S uid'.
Proof.
  intros HS Hfit Hne. pose proof (s_sorted S mx HS) as Hsort. fold (rows_sorted_ok S) in Hsort. unfold stored_record.
  rewrite off_other by done. destruct (off S uid') as [oid'|] eqn:Ho; [|done]. cbn. rewrite dat_other; [done..|].
  intros ->. apply (s_bijection S mx HS) in Ho. unfold record_fits in Hfit. destruct op; try done.
  - destruct Hfit as (_ & Hu & _). congruence.
  - apply (s_bijection S mx HS) in Hfit. congruence.
  - apply (s_bijection S mx HS) in Hfit. congruence.
  - apply (s_bijection S mx HS) in Hfit. congruence.
Qed.

Lemma rows_apply_record op uid oid d S mx :
  segment_ok S mx -> record_fits op uid oid S ->
  stored_record (rows_apply op uid oid d S) uid = match op with DeleteExisting => None | _ => Some (oid, d) end.
Proof.
  intros HS Hfit. pose proof (s_sorted S mx HS) as Hsort. pose proof (rows_apply_self op uid oid d S Hsort) as Hself.
  set (S' := rows_apply op uid oid d S) in *. clearbody S'. unfold stored_record, record_fits in *.
  destruct op; [done|..]; destruct Hself as (-> & _ & Hd); try rewrite Hfit; cbn; by rewrite ?Hd.
Qed.

(** ** The writer *)

Section Writer.
Context {HO : HashOrder} {SR : SegmentReaders} {SW : SegmentWriters} {WL : SegmentWritersLaws SW} {SL : SegmentReadersLaws SR}.

Definition writer_has (w : RecordSegmentWriter) (S : SegmentRows) : Prop :=
  (offset_wok (user_id_to_id w) /\ offset_wrows (user_id_to_id w) = offset_rows S) /\
  (user_wok (id_to_user_id w) /\ user_wrows (id_to_user_id w) = user_rows S) /\
  (data_wok (id_to_data w) /\ data_wrows (id_to_data w) = data_rows S).

Definition same_max (w w' : RecordSegmentWriter) : Prop :=
  max_offset_id w' = max_offset_id w /\ max_new_offset_id w' = max_new_offset_id w /\ record_segment_id w' = record_segment_id w.

(** A change of the writer that does [f] to the rows, or fails to write. *)
Definition writes (c : Writes) (f : SegmentRows -> SegmentRows) : Prop :=
  forall w S, writer_has w S ->
    match c w with
    | (Ok _, w') => writer_has w' (f S) /\ same_max w w'
    | (Err e, _) => e = BlockfileSet \/ e = BlockfileDelete
    end.

Lemma writes_bind c1 c2 f1 f2 : writes c1 f1 -> writes c2 f2 -> writes (st_bind c1 (fun _ => c2)) (fun S => f2 (f1 S)).
Proof.
  intros H1 H2 w S Hw. unfold st_bind. specialize (H1 w S Hw). destruct (c1 w) as [[[]|e] w1]; [|done]. destruct H1 as [Hw1 (E1 & E2 & E3)].
  specialize (H2 w1 (f1 S) Hw1). destruct (c2 w1) as [[[]|e] w2]; [|done]. destruct H2 as [Hw2 (E4 & E5 & E6)].
  split; [done|]. unfold same_max. rewrite E4, E5, E6. done.
Qed.

Lemma writes_ext c f g : (forall S, f S = g S) -> writes c f -> writes c g.
Proof. intros He Hc w S Hw. rewrite <- He. by apply Hc. Qed.

Lemma offsets_set uid oid : offset_fit "" uid oid ->
  writes (on_user_id_to_id BlockfileSet (api_set "" uid oid))
    (fun S => mkSegmentRows (bt_insert (mkCompositeKey "" uid) oid (offset_rows S)) (user_rows S) (data_rows S)).
Proof.
  intros Hf w S [[Hok Hr] Hrest]. unfold on_user_id_to_id, st_zoom, st_map_err. pose proof (api_set_law ""%string uid oid _ Hok Hf) as Hs.
  destruct (api_set "" uid oid (user_id_to_id w)) as [[[]|e] x]; cbn; [|by left]. rewrite Hr in Hs. done.
Qed.

Lemma offsets_delete uid :
  writes (on_user_id_to_id BlockfileDelete (api_delete "" uid))
    (fun S => mkSegmentRows (bt_remove (mkCompositeKey ""%string uid) (offset_rows S)) (user_rows S) (data_rows S)).
Proof.
  intros w S [[Hok Hr] Hrest]. unfold on_user_id_to_id, st_zoom, st_map_err. pose proof (api_delete_law ""%string uid _ Hok) as Hs.
  destruct (api_delete "" uid (user_id_to_id w)) as [[[]|e] x]; cbn; [|by right]. rewrite Hr in Hs. done.
Qed.

Lemma users_set oid uid : user_fit "" oid uid ->
  writes (on_id_to_user_id BlockfileSet (api_set "" oid uid))
    (fun S => mkSegmentRows (offset_rows S) (bt_insert (mkCompositeKey "" oid) uid (user_rows S)) (data_rows S)).
Proof.
  intros Hf w S (H1 & [Hok Hr] & H3). unfold on_id_to_user_id, st_zoom, st_map_err. pose proof (api_set_law ""%string oid uid _ Hok Hf) as Hs.
  destruct (api_set "" oid uid (id_to_user_id w)) as [[[]|e] x]; cbn; [|by left]. rewrite Hr in Hs. done.
Qed.

Lemma users_delete oid :
  writes (on_id_to_user_id BlockfileDelete (api_delete "" oid))
    (fun S => mkSegmentRows (offset_rows S) (bt_remove (mkCompositeKey ""%string oid) (user_rows S)) (data_rows S)).
Proof.
  intros w S (H1 & [Hok Hr] & H3). unfold on_id_to_user_id, st_zoom, st_map_err. pose proof (api_delete_law ""%string oid _ Hok) as Hs.
  destruct (api_delete "" oid (id_to_user_id w)) as [[[]|e] x]; cbn; [|by right]. rewrite Hr in Hs. done.
Qed.

Lemma data_set oid d : data_fit "" oid d ->
  writes (on_id_to_data BlockfileSet (api_set "" oid d))
    (fun S => mkSegmentRows (offset_rows S) (user_rows S) (bt_insert (mkCompositeKey "" oid) d (data_rows S))).
Proof.
  intros Hf w S (H1 & H2 & [Hok Hr]). unfold on_id_to_data, st_zoom, st_map_err. pose proof (api_set_law ""%string oid d _ Hok Hf) as Hs.
  destruct (api_set "" oid d (id_to_data w)) as [[[]|e] x]; cbn; [|by left]. rewrite Hr in Hs. done.
Qed.

Lemma data_delete oid :
  writes (on_id_to_data BlockfileDelete (api_delete "" oid))
    (fun S => mkSegmentRows (offset_rows S) (user_rows S) (bt_remove (mkCompositeKey ""%string oid) (data_rows S))).
Proof.
  intros w S (H1 & H2 & [Hok Hr]). unfold on_id_to_data, st_zoom, st_map_err. pose proof (api_delete_law ""%string oid _ Hok) as Hs.
  destruct (api_delete "" oid (id_to_data w)) as [[[]|e] x]; cbn; [|by right]. rewrite Hr in Hs. done.
Qed.

(** The values that a record writes are not too large for a block. *)
Definition values_fit (uid : string) (oid : Z) (d : DataRecord) : Prop :=
  offset_fit "" uid (mkU32 oid) /\ user_fit "" (mkU32 oid) uid /\ data_fit "" (mkU32 oid) d.

Lemma apply_record_writes h uid d :
  get_user_id h = Some uid -> get_operation h <> Initial ->
  (get_operation h <> DeleteExisting -> construct_data_record h = Some d /\ values_fit uid (get_offset_id h) d) ->
  writes (apply_record h) (rows_apply (get_operation h) uid (get_offset_id h) d).
Proof.
  intros Hu Hi Hd. unfold apply_record, construct_and_set_data_record. rewrite Hu. destruct (get_operation h); [done|..].
  - destruct Hd as (-> & F1 & F2 & F3); [done|]. eapply writes_ext; [|eapply writes_bind; [by apply offsets_set|eapply writes_bind; [by apply users_set|by apply data_set]]]. done.
  - destruct Hd as (-> & F1 & F2 & F3); [done|]. eapply writes_ext; [|eapply writes_bind; [apply data_delete|by apply data_set]]. done.
  - destruct Hd as (-> & F1 & F2 & F3); [done|]. eapply writes_ext; [|eapply writes_bind; [apply data_delete|by apply data_set]]. done.
  - eapply writes_ext; [|eapply writes_bind; [apply offsets_delete|eapply writes_bind; [apply users_delete|apply data_delete]]]. done.
Qed.

(** ** Entries *)

Context (logs : Chunk LogRecord) (S0 : SegmentRows) (mx0 : Z) (HS0 : segment_ok S0 mx0).

(** The entry [m] of the user [uid], to be applied to the segment [S]. *)
Record entry_ok (S : SegmentRows) (uid : string) (m : MaterializedLogRecord) : Prop := {
  en_hydrated : exists d0, stored_record S0 uid = d0 /\
    match d0 with
    | Some (oid, _) => existing_ok logs uid oid m /\ off S uid = Some oid
    | None => fresh_ok logs uid m /\ off S uid = None /\ usr S (offset_id m) = None /\ 0 <= offset_id m
    end;
  en_operation : final_operation m <> Initial;
}.

(** The data that the segment has for an entry. *)
Definition entry_data (uid : string) : option DataRecord := snd <$> stored_record S0 uid.

Lemma entry_hydrated S uid m : entry_ok S uid m ->
  (if offset_id_exists_in_segment m then dat S0 (offset_id m) else None) = entry_data uid.
Proof.
  intros [(d0 & Hs & Hd) _]. unfold entry_data. rewrite Hs. destruct d0 as [[oid d0]|].
  - destruct Hd as [He _]. rewrite (e_exists _ _ _ _ He), (e_offset _ _ _ _ He). by apply (stored_record_some S0 mx0 uid oid d0 HS0) in Hs as (_ & -> & _).
  - destruct Hd as [Hf _]. by rewrite (f_exists _ _ _ Hf).
Qed.

Lemma entry_user S uid m : entry_ok S uid m -> get_user_id (mkHydrated m (entry_data uid) logs) = Some uid.
Proof.
  intros [(d0 & Hs & Hd) _]. unfold get_user_id, entry_data. cbn. rewrite Hs. destruct d0 as [[oid d0]|].
  - destruct Hd as [He _]. destruct (user_id_at_log_index m) as [i|] eqn:Hu.
    + apply (e_user _ _ _ _ He) in Hu as (l & -> & <-). done.
    + cbn. apply (stored_record_some S0 mx0 uid oid d0 HS0) in Hs as (_ & _ & <-). done.
  - destruct Hd as [Hf _]. destruct (f_user _ _ _ Hf) as (i & -> & l & -> & <-). done.
Qed.

Lemma entry_record_fits S uid m : entry_ok S uid m -> record_fits (final_operation m) uid (offset_id m) S.
Proof.
  intros [(d0 & Hs & Hd) Hop]. unfold record_fits. destruct d0 as [[oid d0]|].
  - destruct Hd as [He Ho]. rewrite (e_offset _ _ _ _ He). pose proof (e_operation _ _ _ _ He). by destruct (final_operation m).
  - destruct Hd as [Hf Ho]. by rewrite (f_operation _ _ _ Hf).
Qed.

(** The data record that is written has the document that the entry stands for. *)
Lemma construct_spec m d0 uid d : get_user_id (mkHydrated m d0 logs) = Some uid -> doc_of_hydrated (mkHydrated m d0 logs) = Some d ->
  exists dr, construct_data_record (mkHydrated m d0 logs) = Some dr /\ dr_id dr = uid /\ doc_of dr = d.
Proof.
  intros Hu. unfold doc_of_hydrated, construct_data_record. rewrite Hu.
  destruct (merged_embeddings_ref (mkHydrated m d0 logs)) as [e|]; [|done]. destruct (merged_document_ref (mkHydrated m d0 logs)) as [doc|]; [|done].
  cbn -[merged_metadata]. intros [= <-]. eexists. split; [done|]. split; [done|]. unfold doc_of. cbn -[merged_metadata]. by rewrite normalized.
Qed.

(** A blockfile could not be read or written. *)
Definition storage_error (e : ApplyMaterializedLogError) : Prop :=
  e = BlockfileSet \/ e = BlockfileDelete \/ exists b, e = Materialization (RecordSegment (BoxedBlockfileError b)).

(** ** One entry *)

Lemma hydrate_entry S uid m reader : option_reads reader S0 -> entry_ok S uid m ->
  match hydrate logs m reader with
  | (Ok h, reader') => h = mkHydrated m (entry_data uid) logs /\ option_reads reader' S0
  | (Err e, reader') => (exists b, e = RecordSegment (BoxedBlockfileError b)) /\ option_reads reader' S0
  end.
Proof.
  intros Hr He. pose proof (hydrate_spec S0 logs m reader Hr) as Hh. destruct (hydrate logs m reader) as [[h|e] reader']; [|done].
  destruct Hh as [-> Hr']. by rewrite (entry_hydrated S uid m He).
Qed.

Lemma apply_entry S mw w uid m o :
  segment_ok S mw -> writer_has w S -> entry_ok S uid m -> stands logs m (entry_data uid) o ->
  (forall d, dr_id d = uid -> Some (doc_of d) = o -> values_fit uid (offset_id m) d) ->
  match apply_record (mkHydrated m (entry_data uid) logs) w with
  | (Ok _, w') => exists d, dr_id d = uid /\ (fun x => doc_of x.2) <$> stored_record (rows_apply (final_operation m) uid (offset_id m) d S) uid = o /\
      writer_has w' (rows_apply (final_operation m) uid (offset_id m) d S) /\ same_max w w'
  | (Err e, _) => storage_error e
  end.
Proof.
  intros HS Hw He Hst Hfit. set (h := mkHydrated m (entry_data uid) logs). pose proof (entry_user S uid m He) as Hu. fold h in Hu.
  pose proof (entry_record_fits S uid m He) as Hrf. pose proof (en_operation S uid m He) as Hop.
  assert (exists d, dr_id d = uid /\ (final_operation m <> DeleteExisting -> construct_data_record h = Some d /\ o = Some (doc_of d))) as (d & Hid & Hd).
  { destruct (decide (final_operation m = DeleteExisting)) as [Hdel|Hdel].
    - exists (mkDataRecord uid [] None None). by split.
    - assert (exists d, o = Some d /\ doc_of_hydrated h = Some d) as (dd & -> & Hdd) by (unfold stands in Hst; by destruct (final_operation m)).
      destruct (construct_spec m (entry_data uid) uid dd Hu Hdd) as (dr & Hc & Hid & <-). exists dr. split; [done|]. done. }
  pose proof (apply_record_writes h uid d Hu Hop) as Hwr. change (get_operation h) with (final_operation m) in Hwr.
  change (get_offset_id h) with (offset_id m) in Hwr. specialize (Hwr ltac:(intros Hne; destruct (Hd Hne) as [? ->]; split; [done|by apply Hfit]) w S Hw).
  destruct (apply_record h w) as [[[]|e] w']; [|unfold storage_error; tauto]. destruct Hwr as [Hw' Hsm].
  exists d. split_and!; [done| |done..]. rewrite (rows_apply_record _ _ _ _ _ _ HS Hrf). unfold stands in Hst.
  destruct (final_operation m); try done; cbn; by destruct Hd as [_ ->].
Qed.

(** The other entries still fit. *)
Lemma entry_ok_after S mw uid m d uid' m' :
  segment_ok S mw -> entry_ok S uid m -> entry_ok S uid' m' -> uid' <> uid ->
  (stored_record S0 uid = None -> stored_record S0 uid' = None -> offset_id m <> offset_id m') ->
  entry_ok (rows_apply (final_operation m) uid (offset_id m) d S) uid' m'.
Proof.
  intros HS He [(d0 & Hs & Hd0) Hop] Hne Hinj. pose proof (s_sorted S mw HS) as Hsort. constructor; [|done]. exists d0. split; [done|].
  destruct d0 as [[oid d0]|]; [by rewrite off_other|]. destruct Hd0 as (Hf & Ho & Hu & H0). rewrite off_other by done. split_and!; try done.
  rewrite usr_other; [done..|]. intros Heq. destruct (en_hydrated S uid m He) as ([[oid d1]|] & Hs1 & Hd1).
  - destruct Hd1 as [He1 Ho1]. apply (s_bijection S mw HS) in Ho1. rewrite (e_offset _ _ _ _ He1) in Heq. congruence.
  - by apply (Hinj Hs1 Hs).
Qed.

(** ** The loop *)

Lemma apply_records_spec (o : string -> option Doc) (L : list (string * MaterializedLogRecord)) : forall S mw w reader mx,
  segment_ok S mw -> writer_has w S -> option_reads reader S0 -> NoDup L.*1 ->
  (forall uid m, (uid, m) ∈ L -> entry_ok S uid m /\ stands logs m (entry_data uid) (o uid)) ->
  (forall uid m uid' m', (uid, m) ∈ L -> (uid', m') ∈ L -> stored_record S0 uid = None -> stored_record S0 uid' = None ->
     offset_id m = offset_id m' -> uid = uid') ->
  (forall uid m d, (uid, m) ∈ L -> dr_id d = uid -> Some (doc_of d) = o uid -> values_fit uid (offset_id m) d) ->
  match apply_records logs L.*2 mx (mkApplying reader w) with
  | (Ok mx', st) => exists S', segment_ok S' (Z.max mw mx') /\ writer_has (applying_writer st) S' /\ same_max w (applying_writer st) /\
      option_reads (applying_reader st) S0 /\ mx <= mx' /\
      (mx' = mx \/ exists uid m, (uid, m) ∈ L /\ stored_record S0 uid = None /\ mx' = offset_id m) /\
      (forall uid, uid ∉ L.*1 -> stored_record S' uid = stored_record S uid) /\
      (forall uid m, (uid, m) ∈ L -> (fun x => doc_of x.2) <$> stored_record S' uid = o uid /\
         forall oid d, stored_record S' uid = Some (oid, d) -> oid = offset_id m)
  | (Err e, _) => storage_error e
  end.
Proof.
  induction L as [|[uid m] L IH]; intros S mw w reader mx HS Hw Hr Hnd Hen Hinj Hfit; cbn [apply_records fmap list_fmap].
  { cbn. exists S. split_and!; try done; [|by left|by intros ? ? ?%elem_of_nil].
    destruct HS as [H1 H2 H3 H4 H5]. constructor; try done. intros uid oid Ho. apply H5 in Ho. lia. }
  destruct (Hen uid m ltac:(set_solver)) as [He Hst]. apply NoDup_cons in Hnd as [Hnew Hnd]. cbn [fst snd] in *.
  unfold st_bind at 1, on_reader, st_zoom at 1, st_map_err at 1. cbn [applying_reader applying_writer].
  pose proof (hydrate_entry S uid m reader Hr He) as Hh. destruct (hydrate logs m reader) as [[h|e] reader1]; cbn [map_err];
    [|destruct Hh as [(b & ->) _]; unfold storage_error; by eauto]. destruct Hh as [-> Hr1].
  unfold st_bind at 1, on_writer, st_zoom at 1. cbn [applying_reader applying_writer].
  pose proof (apply_entry S mw w uid m (o uid) HS Hw He Hst) as Happ.
  specialize (Happ ltac:(intros d Hid Hd; eapply Hfit; [set_solver|done..])).
  destruct (apply_record _ w) as [[[]|e] w1]; [|done]. destruct Happ as (d & Hid & Hdoc & Hw1 & Hsm1).
  set (S1 := rows_apply (final_operation m) uid (offset_id m) d S) in *. pose proof (entry_record_fits S uid m He) as Hrf.
  pose proof (rows_apply_ok _ uid _ d S mw HS Hrf Hid) as HS1. fold S1 in HS1.
  set (mw1 := match final_operation m with AddNew => _ | _ => mw end) in HS1. change (get_operation (mkHydrated m (entry_data uid) logs)) with (final_operation m).
  change (get_offset_id (mkHydrated m (entry_data uid) logs)) with (offset_id m). set (mx1 := match final_operation m with AddNew => _ | _ => mx end).
  specialize (IH S1 mw1 w1 reader1 mx1 HS1 Hw1 Hr1 Hnd).
  specialize (IH ltac:(intros uid' m' Hin; assert (uid' <> uid) as Hne by (intros ->; apply Hnew, list_elem_of_fmap; by exists (uid, m'));
    destruct (Hen uid' m' ltac:(set_solver)) as [He' Hst']; split; [|done];
    eapply entry_ok_after; [done..|]; intros Hs1 Hs2 Heq; apply Hne, eq_sym; eapply (Hinj uid m uid' m'); set_solver)).
  specialize (IH ltac:(intros u1 m1 u2 m2 H1 H2; apply Hinj; set_solver) ltac:(intros u1 m1 d1 H1; apply Hfit; set_solver)).
  destruct (apply_records logs L.*2 mx1 _) as [[mx'|e] st]; [|done].
  destruct IH as (S' & HS' & Hw' & (E1 & E2 & E3) & Hr' & Hmx & Hmxo & Hout & Hin). exists S'.
  assert (mx <= mx1 /\ Z.max mw1 mx' = Z.max mw mx') as [Hmx1 Hmax].
  { unfold mw1, mx1 in *. destruct (final_operation m); lia. }
  rewrite Hmax in HS'. split_and!; [done|done| |done|lia| | |].
  - destruct Hsm1 as (E4 & E5 & E6). unfold same_max. rewrite E1, E2, E3. done.
  - destruct Hmxo as [->|(u1 & m1 & H1 & H2 & ->)]; [|right; exists u1, m1; set_solver]. unfold mx1. destruct (final_operation m) eqn:Hop; try by left.
    destruct (Z.max_spec mx (offset_id m)) as [[_ ->]|[_ ->]]; [|by left]. right. exists uid, m. split; [set_solver|]. split; [|done].
    destruct (en_hydrated S uid m He) as ([[oid d1]|] & Hs1 & Hd1); [|done]. destruct Hd1 as [He1 _]. by destruct (e_operation _ _ _ _ He1).
  - intros uid' Hn. rewrite Hout by set_solver. eapply rows_apply_other; [done..|set_solver].
  - intros uid' m' [[= -> ->]|Hin']%elem_of_cons; [|by apply Hin]. rewrite Hout by done. split; [done|]. intros oid dd.
    unfold S1. rewrite (rows_apply_record _ _ _ _ _ _ HS Hrf). destruct (final_operation m); try done; by intros [= <- _].
Qed.
End Writer.
