(* ===== verification/CompactionFlow.v ===== *)
(** * The orchestrator of compactions: facts

    The counters of the orchestrator against the tasks that are pending, the
    end of every run, and which runs end with a registration. *)

From S2P Require Import Prelude Compaction.
From stdpp Require Import relations.

Import Orchestrator.

#[global] Instance Task_eq_dec : EqDecision Task.
Proof. solve_decision. Defined.

(** ** Occurrences of a task *)

Definition occ (t : Task) (l : list Task) : nat := length (filter (t =.) l).

Lemma occ_app t l1 l2 : occ t (l1 ++ l2) = (occ t l1 + occ t l2)%nat.
Proof. unfold occ. by rewrite filter_app, length_app. Qed.

Lemma occ_nil t : occ t [] = 0%nat.
Proof. done. Qed.

Lemma occ_cons t x l : occ t (x :: l) = ((if decide (t = x) then 1 else 0) + occ t l)%nat.
Proof. unfold occ. rewrite filter_cons. by destruct (decide (t = x)). Qed.

Lemma remove_at_perm {A} (l : list A) i x : l !! i = Some x -> l ≡ₚ x :: remove_at i l.
Proof.
  intros Hi. unfold remove_at. rewrite <- (take_drop_middle l i x Hi) at 1. by rewrite Permutation_middle.
Qed.

Lemma occ_remove t l i x : l !! i = Some x -> occ t l = ((if decide (t = x) then 1 else 0) + occ t (remove_at i l))%nat.
Proof. intros Hi. rewrite <- occ_cons. unfold occ. by rewrite (remove_at_perm l i x Hi) at 1. Qed.

Lemma occ_none l : (forall t, occ t l = 0%nat) -> l = [].
Proof. destruct l as [|x l]; [done|]. intros H. specialize (H x). rewrite occ_cons, decide_True in H by done. lia. Qed.

(** The materializations that are pending. *)
Definition materializing (l : list Task) : nat := (occ (Materialize true) l + occ (Materialize false) l)%nat.

#[local] Arguments occ : simpl never.
#[local] Arguments materializing : simpl never.

(** ** Every run ends *)

Definition weight (t : Task) : nat :=
  match t with Materialize _ => 10 | Apply _ => 3 | Commit _ => 2 | Flush _ => 1 end.
Definition work (s : State) : nat := sum_list_with weight (tasks s).

Lemma handle_work t s : (work (handle t s) < weight t + work s)%nat.
Proof.
  unfold work. destruct t as [[]| | |]; cbn.
  - unfold handle_materialized. destruct (_ && _); cbn; lia.
  - unfold handle_materialized, dispatch_apply_log_to_segment_writer_tasks, dispatch_apply. cbn.
    rewrite !sum_list_with_app. cbn. lia.
  - unfold handle_applied. destruct (alter _ _ _ !! _); [|cbn; lia]. destruct (_ && _); cbn; [|lia].
    rewrite sum_list_with_app. cbn. lia.
  - unfold handle_committed. cbn. rewrite sum_list_with_app. cbn. lia.
  - unfold handle_flushed. destruct (bool_decide _); cbn; lia.
Qed.

Lemma step_work s s' : step s s' -> (work s' < work s)%nat.
Proof.
  intros [i s0 s1 Hc]. unfold complete in Hc. destruct (tasks s0 !! i) as [t|] eqn:Ht; [|done]. cbn in Hc.
  injection Hc as <-. eapply Nat.lt_le_trans; [apply handle_work|]. unfold work. cbn.
  assert (forall l1 l2, l1 ≡ₚ l2 -> sum_list_with weight l1 = sum_list_with weight l2) as Hp.
  { induction 1; cbn; lia. }
  rewrite (Hp _ _ (remove_at_perm _ _ _ Ht)). cbn. lia.
Qed.

(** ** The counters *)

(** [started] compactions have had a partition. *)
Record counted (s : State) : Prop := {
  c_mat : num_uncompleted_materialization_tasks s = materializing (tasks s);
  c_seg : forall k, match num_uncompleted_tasks_by_segment s !! k with
                    | Some n => occ (Apply k) (tasks s) = n /\
                        (occ (Commit k) (tasks s) + occ (Flush k) (tasks s) <= 1)%nat /\
                        (occ (Commit k) (tasks s) + occ (Flush k) (tasks s) = 1%nat ->
                           n = 0%nat /\ num_uncompleted_materialization_tasks s = 0%nat)
                    | None => occ (Apply k) (tasks s) = 0%nat /\ occ (Commit k) (tasks s) = 0%nat /\ occ (Flush k) (tasks s) = 0%nat
                    end;
  c_reg : if decide (num_uncompleted_tasks_by_segment s = ∅)
          then registrations s = (if decide (num_uncompleted_materialization_tasks s = 0%nat) then 1 else 0)%nat
          else registrations s = 0%nat;
}.

(** No segment waits for a commit that nothing will send. *)
Definition committing (s : State) : Prop :=
  occ (Materialize true) (tasks s) = 0%nat /\
  forall k, num_uncompleted_tasks_by_segment s !! k = Some 0%nat -> num_uncompleted_materialization_tasks s = 0%nat ->
    (occ (Commit k) (tasks s) + occ (Flush k) (tasks s) = 1)%nat.

Lemma dispatch_counts s k :
  num_uncompleted_tasks_by_segment (dispatch_apply_log_to_segment_writer_tasks s) !! k =
    Some (S (default 0%nat (num_uncompleted_tasks_by_segment s !! k))).
Proof.
  unfold dispatch_apply_log_to_segment_writer_tasks, dispatch_apply. cbn.
  destruct k; repeat (rewrite lookup_partial_alter_eq || (rewrite lookup_partial_alter_ne by done));
    by destruct (num_uncompleted_tasks_by_segment s !! _).
Qed.

Lemma dispatch_tasks s : tasks (dispatch_apply_log_to_segment_writer_tasks s) = tasks s ++ [Apply RecordWriter; Apply MetadataWriter; Apply VectorWriter].
Proof. cbn. by rewrite <- !app_assoc. Qed.

(** The occurrences in a list that is partly known. *)
Ltac count_occ :=
  rewrite ?occ_app, ?occ_cons, ?occ_nil; repeat ((rewrite decide_False by congruence) || (rewrite decide_True by done)).

Section Preserved.
Context (s : State) (l : list Task) (t : Task).
Context (Hocc : forall x, occ x (tasks s) = ((if decide (x = t) then 1 else 0) + occ x l)%nat).
Let s0 := mkState (num_uncompleted_materialization_tasks s) (num_uncompleted_tasks_by_segment s) l (registrations s).

Lemma counted_materialized b : t = Materialize b -> counted s -> counted (handle_materialized b s0).
Proof.
  intros Ht [Hm Hs Hr]. subst t. unfold materializing in Hm. rewrite !Hocc in Hm.
  assert (num_uncompleted_materialization_tasks s = S (materializing l)) as Hnum.
  { rewrite Hm. unfold materializing. destruct b; repeat case_decide; simplify_eq; lia. }
  rewrite Hnum in Hr. assert (registrations s = 0%nat) as Hr0 by by case_decide.
  unfold handle_materialized. destruct b.
  - assert (forall c r, counted (mkState (materializing l) c l r) <->
              (forall k, match c !! k with
                         | Some n => occ (Apply k) l = n /\ (occ (Commit k) l + occ (Flush k) l <= 1)%nat /\
                             (occ (Commit k) l + occ (Flush k) l = 1%nat -> n = 0%nat /\ materializing l = 0%nat)
                         | None => occ (Apply k) l = 0%nat /\ occ (Commit k) l = 0%nat /\ occ (Flush k) l = 0%nat
                         end) /\ if decide (c = ∅) then r = (if decide (materializing l = 0%nat) then 1 else 0)%nat else r = 0%nat) as Hc.
    { intros c r. split; [by intros [_ H1 H2]|]. by intros [H1 H2]; constructor. }
    assert (forall k, match num_uncompleted_tasks_by_segment s !! k with
                         | Some n => occ (Apply k) l = n /\ (occ (Commit k) l + occ (Flush k) l <= 1)%nat /\
                             (occ (Commit k) l + occ (Flush k) l = 1%nat -> n = 0%nat /\ materializing l = 0%nat)
                         | None => occ (Apply k) l = 0%nat /\ occ (Commit k) l = 0%nat /\ occ (Flush k) l = 0%nat
                         end) as Hs'.
    { intros k. specialize (Hs k). rewrite !Hocc in Hs. rewrite !decide_False in Hs by done. cbn in Hs.
      destruct (num_uncompleted_tasks_by_segment s !! k); [|done]. destruct Hs as (? & ? & Hone). split_and!; [done..|].
      intros He. apply Hone in He as [_ He]. lia. }
    cbn [num_uncompleted_materialization_tasks num_uncompleted_tasks_by_segment s0]. rewrite Hnum.
    destruct (Nat.eqb_spec (S (materializing l)) 1) as [H1|H1]; cbn [andb].
    + case_bool_decide as He; cbn; rewrite Hnum; cbn [Nat.sub]; rewrite Nat.sub_0_r; apply Hc; (split; [exact Hs'|]).
      * rewrite (decide_True (P := _ = ∅)) by done. rewrite Hr0. by rewrite decide_True by lia.
      * by rewrite decide_False by done.
    + cbn; rewrite Hnum; cbn [Nat.sub]; rewrite Nat.sub_0_r; apply Hc; split; [exact Hs'|].
      case_decide; [|done]. by rewrite decide_False by lia.
  - constructor; cbn -[dispatch_apply_log_to_segment_writer_tasks];
      change (num_uncompleted_materialization_tasks (dispatch_apply_log_to_segment_writer_tasks s0)) with (num_uncompleted_materialization_tasks s).
    + rewrite dispatch_tasks. unfold materializing. count_occ. change (tasks s0) with l. rewrite Hnum. unfold materializing. lia.
    + intros k. rewrite dispatch_counts, dispatch_tasks, !occ_app. change (tasks s0) with l.
      change (num_uncompleted_tasks_by_segment s0) with (num_uncompleted_tasks_by_segment s).
      specialize (Hs k). rewrite !Hocc in Hs. rewrite !decide_False in Hs by done. cbn in Hs.
      assert (occ (Apply k) [Apply RecordWriter; Apply MetadataWriter; Apply VectorWriter] = 1%nat /\
              occ (Commit k) [Apply RecordWriter; Apply MetadataWriter; Apply VectorWriter] = 0%nat /\
              occ (Flush k) [Apply RecordWriter; Apply MetadataWriter; Apply VectorWriter] = 0%nat) as (-> & -> & ->) by by destruct k.
      destruct (num_uncompleted_tasks_by_segment s !! k); cbn [default]; [|lia]. destruct Hs as (? & ? & Hone). split_and!; [cbn; lia|lia|].
      intros He. rewrite !Nat.add_0_r in He. apply Hone in He as [_ He]. lia.
    + rewrite decide_False; [done|]. intros He. pose proof (dispatch_counts s0 RecordWriter) as Hd. by rewrite He in Hd.
Qed.

Lemma counted_applied k : t = Apply k -> counted s -> counted (handle_applied k s0).
Proof.
  intros Ht [Hm Hs Hr]. subst t. unfold materializing in Hm. rewrite !Hocc in Hm. rewrite !decide_False in Hm by done. cbn in Hm.
  assert (exists n, num_uncompleted_tasks_by_segment s !! k = Some (S n) /\ occ (Apply k) l = n /\ occ (Commit k) l = 0%nat /\ occ (Flush k) l = 0%nat)
    as (n & Hn & Ha & Hco & Hfl).
  { specialize (Hs k). destruct (num_uncompleted_tasks_by_segment s !! k) as [n|]; rewrite !Hocc in Hs; rewrite decide_True in Hs by done;
      [|by destruct Hs]. rewrite !decide_False in Hs by done. cbn in Hs. destruct Hs as (Hs1 & Hs2 & Hs3). exists (occ (Apply k) l).
    rewrite Hs1. destruct (decide (occ (Commit k) l + occ (Flush k) l = 1)%nat) as [He|He]; [apply Hs3 in He; lia|]. split_and!; [done..|lia|lia]. }
  assert (num_uncompleted_tasks_by_segment s <> ∅) as Hne by (intros He; by rewrite He in Hn). rewrite decide_False in Hr by done.
  unfold handle_applied. cbn. rewrite lookup_alter_eq, Hn. cbn. rewrite Nat.sub_0_r.
  assert (alter (fun v => v - 1)%nat k (num_uncompleted_tasks_by_segment s) <> ∅) as Hne'.
  { intros He. apply (f_equal (.!! k)) in He. by rewrite lookup_alter_eq, Hn in He. }
  assert (forall k', k' <> k -> match num_uncompleted_tasks_by_segment s !! k' with
            | Some n => occ (Apply k') l = n /\ (occ (Commit k') l + occ (Flush k') l <= 1)%nat /\
                (occ (Commit k') l + occ (Flush k') l = 1%nat -> n = 0%nat /\ num_uncompleted_materialization_tasks s = 0%nat)
            | None => occ (Apply k') l = 0%nat /\ occ (Commit k') l = 0%nat /\ occ (Flush k') l = 0%nat
            end) as Hother.
  { intros k' Hk'. specialize (Hs k'). rewrite !Hocc in Hs. by rewrite !decide_False in Hs by congruence. }
  destruct (Nat.eqb_spec n 0) as [Hz|Hz]; [destruct (Nat.eqb_spec (num_uncompleted_materialization_tasks s) 0) as [Hz'|Hz']|];
    cbn; (constructor; cbn; [|intros k'|by rewrite decide_False by done]).
  - unfold materializing. count_occ. lia.
  - rewrite !occ_app, !occ_cons, !occ_nil. destruct (decide (k' = k)) as [->|Hk'].
    + rewrite lookup_alter_eq, Hn. cbn. rewrite (decide_False (P := Apply k = Commit k)), decide_True, decide_False by done.
      split_and!; [lia|lia|]. intros _. lia.
    + rewrite lookup_alter_ne by done. rewrite !decide_False by congruence. cbn. rewrite !Nat.add_0_r. by apply Hother.
  - unfold materializing. lia.
  - destruct (decide (k' = k)) as [->|Hk'].
    + rewrite lookup_alter_eq, Hn. cbn. split_and!; lia.
    + rewrite lookup_alter_ne by done. by apply Hother.
  - unfold materializing. lia.
  - destruct (decide (k' = k)) as [->|Hk'].
    + rewrite lookup_alter_eq, Hn. cbn. split_and!; lia.
    + rewrite lookup_alter_ne by done. by apply Hother.
Qed.

Lemma counted_committed k : t = Commit k -> counted s -> counted (handle_committed k s0).
Proof.
  intros Ht [Hm Hs Hr]. subst t. unfold materializing in Hm. rewrite !Hocc in Hm. rewrite !decide_False in Hm by done. cbn in Hm.
  constructor; cbn; [|intros k'|done].
  - unfold materializing. count_occ. lia.
  - specialize (Hs k'). rewrite !Hocc in Hs. rewrite !occ_app, !occ_cons, !occ_nil. cbn in *.
    rewrite (decide_False (P := Apply k' = Commit k)) in Hs by done. rewrite (decide_False (P := Flush k' = Commit k)) in Hs by done.
    rewrite (decide_False (P := Apply k' = Flush k)), (decide_False (P := Commit k' = Flush k)) by done. cbn in *.
    destruct (num_uncompleted_tasks_by_segment s !! k'); repeat case_decide; simplify_eq; intuition lia.
Qed.

Lemma counted_flushed k : t = Flush k -> counted s -> counted (handle_flushed k s0).
Proof.
  intros Ht [Hm Hs Hr]. subst t. unfold materializing in Hm. rewrite !Hocc in Hm. rewrite !decide_False in Hm by done. cbn in Hm.
  assert (num_uncompleted_tasks_by_segment s !! k = Some 0%nat /\ num_uncompleted_materialization_tasks s = 0%nat /\
          occ (Apply k) l = 0%nat /\ occ (Commit k) l = 0%nat /\ occ (Flush k) l = 0%nat) as (Hn & Hz & Ha & Hco & Hfl).
  { specialize (Hs k). destruct (num_uncompleted_tasks_by_segment s !! k) as [n|]; rewrite !Hocc in Hs.
    - rewrite !decide_False in Hs by done. rewrite decide_True in Hs by done. cbn in Hs. destruct Hs as (H1 & H2 & H3).
      destruct (H3 ltac:(lia)) as [-> ?]. split_and!; [done..|lia|lia].
    - rewrite (decide_True (P := Flush k = Flush k)) in Hs by done. lia. }
  assert (num_uncompleted_tasks_by_segment s <> ∅) as Hne by (intros He; by rewrite He in Hn). rewrite decide_False in Hr by done.
  assert (forall k', match base.delete k (num_uncompleted_tasks_by_segment s) !! k' with
            | Some n => occ (Apply k') l = n /\ (occ (Commit k') l + occ (Flush k') l <= 1)%nat /\
                (occ (Commit k') l + occ (Flush k') l = 1%nat -> n = 0%nat /\ num_uncompleted_materialization_tasks s = 0%nat)
            | None => occ (Apply k') l = 0%nat /\ occ (Commit k') l = 0%nat /\ occ (Flush k') l = 0%nat
            end) as Hall.
  { intros k'. destruct (decide (k' = k)) as [->|Hk']; [by rewrite lookup_delete_eq|]. rewrite lookup_delete_ne by done.
    specialize (Hs k'). rewrite !Hocc in Hs. by rewrite !decide_False in Hs by congruence. }
  unfold handle_flushed. cbn. case_bool_decide as He; constructor; cbn; try done.
  - by rewrite decide_True, decide_True, Hr by done.
  - by rewrite decide_False by done.
Qed.
End Preserved.

Lemma counted_step s s' : step s s' -> counted s -> counted s'.
Proof.
  intros [i s0 s1 Hc] Hs. unfold complete in Hc. destruct (tasks s0 !! i) as [t|] eqn:Ht; [|done]. cbn in Hc.
  injection Hc as <-. pose proof (fun x => occ_remove x _ _ _ Ht) as Hocc. destruct t as [b|k|k|k]; cbn [handle].
  - by eapply (counted_materialized s0 _ _ Hocc).
  - by eapply (counted_applied s0 _ _ Hocc).
  - by eapply (counted_committed s0 _ _ Hocc).
  - by eapply (counted_flushed s0 _ _ Hocc).
Qed.

Lemma committing_step s s' : step s s' -> counted s -> committing s -> committing s'.
Proof.
  intros [i s0 s1 Hc] Hs [Hmt Hk]. unfold complete in Hc. destruct (tasks s0 !! i) as [t|] eqn:Ht; [|done]. cbn in Hc.
  injection Hc as <-. pose proof (fun x => occ_remove x _ _ _ Ht) as Hocc. set (l := remove_at i (tasks s0)) in *.
  destruct t as [[]|k|k|k]; cbn [handle].
  - rewrite Hocc, decide_True in Hmt by done. lia.
  - rewrite Hocc, decide_False in Hmt by done. split; unfold handle_materialized; cbn [tasks num_uncompleted_tasks_by_segment].
    + rewrite dispatch_tasks. count_occ. cbn. lia.
    + intros k. by rewrite dispatch_counts.
  - rewrite Hocc, decide_False in Hmt by done. pose proof (c_seg s0 Hs k) as Hsk. pose proof (c_mat s0 Hs) as Hm.
    destruct (num_uncompleted_tasks_by_segment s0 !! k) as [n|] eqn:Hn; [|rewrite Hocc, decide_True in Hsk by done; lia].
    unfold handle_applied. cbn. rewrite lookup_alter_eq, Hn. cbn.
    assert (forall k' n', k' <> k -> num_uncompleted_tasks_by_segment s0 !! k' = Some n' -> n' = 0%nat ->
              num_uncompleted_materialization_tasks s0 = 0%nat -> (occ (Commit k') l + occ (Flush k') l = 1)%nat) as Hother.
    { intros k' n' Hne Hn' -> Hz. specialize (Hk k' Hn' Hz). rewrite !Hocc in Hk. by rewrite !decide_False in Hk by done. }
    destruct (Nat.eqb_spec (n - 1) 0) as [Hz|Hz]; [destruct (Nat.eqb_spec (num_uncompleted_materialization_tasks s0) 0) as [Hz'|Hz']|];
      cbn; (split; [cbn; count_occ; lia|]); cbn; intros k'; (destruct (decide (k' = k)) as [->|Hne];
        [rewrite lookup_alter_eq, Hn; cbn; intros [= He] Hz''|rewrite lookup_alter_ne by done; intros Hn' Hz'']); try lia.
    + rewrite !Hocc in Hsk. rewrite decide_True in Hsk by done. rewrite !(decide_False (P := _ = Apply k)) in Hsk by done. cbn in Hsk.
      count_occ. destruct Hsk as (H1 & H2 & H3). destruct (decide (occ (Commit k) l + occ (Flush k) l = 1)%nat) as [H4|H4]; [apply H3 in H4; lia|lia].
    + count_occ. rewrite !Nat.add_0_r. by eapply Hother.
    + by eapply Hother.
  - rewrite Hocc, decide_False in Hmt by done. split; cbn; [count_occ; lia|]. intros k' Hn' Hz.
    specialize (Hk k' Hn' Hz). rewrite !Hocc in Hk. rewrite (decide_False (P := Flush k' = Commit k)) in Hk by done.
    rewrite !occ_app, !occ_cons, !occ_nil. repeat case_decide; simplify_eq; lia.
  - rewrite Hocc, decide_False in Hmt by done. unfold handle_flushed. cbn. assert (forall k',
        base.delete k (num_uncompleted_tasks_by_segment s0) !! k' = Some 0%nat -> num_uncompleted_materialization_tasks s0 = 0%nat ->
        (occ (Commit k') l + occ (Flush k') l = 1)%nat) as Hdel.
    { intros k' [Hne Hn']%lookup_delete_Some Hz. specialize (Hk k' Hn' Hz). rewrite !Hocc in Hk.
      by rewrite !decide_False in Hk by congruence. }
    case_bool_decide; by split.
Qed.

(** ** Compactions without a partition that materializes to nothing, or with
    only such partitions *)

Lemma occ_start t ps : occ t (Materialize <$> ps) =
  match t with Materialize b => length (filter (b =.) ps) | _ => 0%nat end.
Proof.
  induction ps as [|b ps IH]; [by destruct t|]. rewrite fmap_cons, occ_cons, IH. destruct t; try done.
  rewrite filter_cons. repeat case_decide; simplify_eq; done.
Qed.

Lemma start_counted ps : ps <> [] -> counted (materialize_log ps).
Proof.
  intros Hne. constructor; cbn.
  - unfold materializing. rewrite !occ_start. clear. induction ps as [|[] ps IH]; [done| |]; rewrite !filter_cons; repeat case_decide; simplify_eq; cbn [length]; lia.
  - intros k. by rewrite lookup_empty, !occ_start.
  - rewrite decide_True by done. rewrite decide_False; [done|]. by destruct ps.
Qed.

Lemma start_committing ps : Forall (fun b => b = false) ps -> committing (materialize_log ps).
Proof.
  intros Hf. split; cbn; [|intros k; by rewrite lookup_empty]. rewrite occ_start. apply length_zero_iff_nil, filter_none_in.
  rewrite Forall_forall in Hf. intros b Hb <-. by apply Hf in Hb.
Qed.

(** Nothing was dispatched. *)
Definition idle (s : State) : Prop := occ (Materialize false) (tasks s) = 0%nat /\ num_uncompleted_tasks_by_segment s = ∅.

Lemma idle_step s s' : step s s' -> counted s -> idle s -> idle s'.
Proof.
  intros [i s0 s1 Hc] Hs [Hmt Hk]. unfold complete in Hc. destruct (tasks s0 !! i) as [t|] eqn:Ht; [|done]. cbn in Hc.
  injection Hc as <-. pose proof (fun x => occ_remove x _ _ _ Ht) as Hocc. set (l := remove_at i (tasks s0)) in *.
  assert (forall k, occ (Apply k) (tasks s0) = 0%nat /\ occ (Commit k) (tasks s0) = 0%nat /\ occ (Flush k) (tasks s0) = 0%nat) as Hz.
  { intros k. pose proof (c_seg s0 Hs k) as Hsk. by rewrite Hk, lookup_empty in Hsk. }
  destruct t as [[]|k|k|k]; cbn [handle]; try (specialize (Hz k); rewrite !Hocc in Hz; repeat case_decide; simplify_eq; lia).
  - rewrite Hocc, decide_False in Hmt by done. unfold handle_materialized. cbn. rewrite (bool_decide_true _ Hk), andb_true_r.
    destruct (Nat.eqb _ 1); by split.
  - rewrite Hocc, decide_True in Hmt by done. lia.
Qed.

(** Whoever has nothing left to do has registered once. *)
Lemma quiescent_registered s : counted s -> (committing s \/ idle s) -> tasks s = [] -> registrations s = 1%nat.
Proof.
  intros Hs Hci Ht. pose proof (c_mat s Hs) as Hm. pose proof (c_reg s Hs) as Hr. rewrite Ht in Hm. unfold materializing in Hm. rewrite !occ_nil in Hm.
  rewrite Hm in Hr. cbn in Hr. case_decide as He; [done|]. exfalso. destruct Hci as [[_ Hk]|[_ Hk]]; [|done].
  apply map_choose in He as (k & n & Hn). pose proof (c_seg s Hs k) as Hsk. rewrite Hn, Ht, occ_nil in Hsk. destruct Hsk as [<- _].
  specialize (Hk k Hn Hm). by rewrite Ht in Hk.
Qed.

(** A registration is the last thing that is done. *)
Lemma registered_quiescent s : counted s -> registrations s <= 1 /\ (registrations s = 1%nat -> tasks s = []).
Proof.
  intros Hs. pose proof (c_reg s Hs) as Hr. case_decide as He; [|lia]. case_decide as Hz; [|lia]. split; [lia|]. intros _.
  apply occ_none. pose proof (c_mat s Hs) as Hm. unfold materializing in Hm. intros t.
  destruct t as [[]|k|k|k]; [lia|lia|..]; pose proof (c_seg s Hs k) as Hk; rewrite He, lookup_empty in Hk; lia.
Qed.
