(* ===== verification/CompactionFacts.v ===== *)
(** * Compaction of a log: facts

    The materialization of a chunk against the reference, the segment that it
    is applied to, the partitions of a log, and the size of the collection;
    and what becomes of a new record when the largest offset id was not read. *)

From S2P Require Import Prelude Setsum Types BTree BlockKey SparseIndex BlockDelta Block Blockfile BlockfileApi Records RecordSegment Compaction LedgerFacts RecordFacts.

#[local] Open Scope Z_scope.
#[local] Open Scope wal_scope.

(** The operations and the user ids of the visible records of a chunk. *)
Definition ops_of (logs : Chunk LogRecord) : list OperationRecord := (fun x => record x.1) <$> chunk_iter logs.
Definition ids_of (logs : Chunk LogRecord) : gset string := list_to_set (rec_id <$> ops_of logs).

Lemma elem_of_ids logs uid : uid ∈ ids_of logs <-> uid ∈ (fun x => rec_id (record x.1)) <$> chunk_iter logs.
Proof. unfold ids_of, ops_of. rewrite elem_of_list_to_set, <- list_fmap_compose. done. Qed.

(** ** Materialization *)

Section Materialize.
Context {HO : HashOrder}.

Lemma result_iter_new logs l : result_iter (mkMaterializeLogsResult logs (Chunk_new l)) = l.
Proof.
  unfold result_iter. cbn [materialized]. rewrite chunk_new_len.
  assert (forall l1 l2 : list MaterializedLogRecord, omap (fun i => chunk_get (Chunk_new (l1 ++ l2)) i) (seq (length l1) (length l2)) = l2) as H; [|apply (H [] l)].
  intros l1 l2. revert l1. induction l2 as [|x l2 IH]; intros l1; [done|]. cbn [length seq omap list_omap].
  rewrite chunk_get_lookup. cbn [chunk_data Chunk_new]. rewrite (list_lookup_middle l1 l2 x) by done.
  f_equal. specialize (IH (l1 ++ [x])). rewrite <- app_assoc in IH. cbn in IH. rewrite length_app in IH. cbn in IH. by rewrite Nat.add_1_r in IH.
Qed.

(** The entries of the two maps that are materialized. *)
Definition entries (s : Ledger) : list (string * MaterializedLogRecord) :=
  List.filter (fun x => negb (bool_decide (final_operation x.2 = Initial))) (hash_iter (existing s)) ++ hash_iter (fresh s).

Lemma collect_entries s : exists L, L ≡ₚ entries s /\ collect_materialized s = L.*2.
Proof.
  assert (forall l : list (string * MaterializedLogRecord),
    List.filter (fun m => negb (bool_decide (final_operation m = Initial))) l.*2 =
    (List.filter (fun x => negb (bool_decide (final_operation x.2 = Initial))) l).*2) as Hf.
  { induction l as [|[u m] l IH]; cbn; [done|]. rewrite IH. by case_bool_decide. }
  pose proof (sort_by_key_perm offset_id ((entries s).*2)) as Hp. apply Permutation_map_inv in Hp as (L & HL & HP).
  exists L. split; [done|]. unfold collect_materialized. rewrite Hf, <- fmap_app. exact HL.
Qed.

Lemma elem_of_entries s uid m :
  (uid, m) ∈ entries s <-> (existing s !! uid = Some m /\ final_operation m <> Initial) \/ fresh s !! uid = Some m.
Proof.
  unfold entries. rewrite elem_of_app, !hash_iter_elem, list_elem_of_In, List.filter_In, <- list_elem_of_In, hash_iter_elem. cbn.
  by rewrite negb_true_iff, bool_decide_eq_false.
Qed.

Context {SR : SegmentReaders} {SL : SegmentReadersLaws SR}.

Lemma ledger_start logs S mx c next found :
  segment_ok S mx -> shows S c -> 0 <= next ->
  (forall uid, found !! uid = match off S uid with
                              | Some oid => if decide (uid ∈ ids_of logs) then Some (from_segment_offset_id oid) else None
                              | None => None
                              end) ->
  ledger_ok logs (stored_record S) (ids_of logs) next c (mkLedger found ∅ next).
Proof.
  intros HS Hc Hn Hfound. constructor; cbn.
  - intros uid oid d0 Hb. split; [apply lookup_empty|]. rewrite Hfound, (Hc uid), Hb. rewrite (stored_record_off S mx uid HS), Hb. cbn.
    case_decide; [|done]. split.
    + constructor; cbn; [done..|apply refs_ok_none|done|done].
    + exists (doc_of d0). split; [done|]. unfold doc_of_hydrated. rewrite merged_metadata_overlay.
      by rewrite (overlay_none (segment_metadata _)).
  - intros uid Hb. rewrite Hfound, (Hc uid), lookup_empty, Hb. by rewrite (stored_record_off S mx uid HS), Hb.
  - intros uid m. by rewrite lookup_empty.
  - intros uid uid' m m'. by rewrite lookup_empty.
  - lia.
  - intros uid [Hs|Hs]; [|by rewrite lookup_empty in Hs; destruct Hs]. rewrite Hfound in Hs.
    destruct (off S uid); [|by destruct Hs]. by case_decide; [|destruct Hs].
Qed.

(** [materialize_logs] computes what the log does to the records it mentions,
    unless the segment cannot be read. *)
Lemma materialize_spec reader S mx logs next c :
  option_reads reader S -> segment_ok S mx -> shows S c -> 0 <= next -> next + Z.of_nat (length (chunk_iter logs)) < 2 ^ 32 ->
  match materialize_logs reader logs (Some next) with
  | (Ok res, reader', next') => exists c' s, log_steps (ops_of logs) c = Some c' /\
      ledger_ok logs (stored_record S) (ids_of logs) next c' s /\ result_logs res = logs /\ result_iter res = collect_materialized s /\
      option_reads reader' S /\ next' = next_offset s /\ next <= next' <= next + Z.of_nat (length (chunk_iter logs))
  | (Err e, _, _) => (e = EmbeddingMaterialization /\ log_steps (ops_of logs) c = None) \/ exists b, e = RecordSegment (BoxedBlockfileError b)
  end.
Proof.
  intros Hr HS Hc Hn Hlt. unfold materialize_logs. cbn [first_offset_id].
  assert (forall found reader', option_reads reader' S ->
    (forall uid, found !! uid = match off S uid with
                                | Some oid => if decide (uid ∈ ids_of logs) then Some (from_segment_offset_id oid) else None
                                | None => None
                                end) ->
    match (let '(r, s) := process_records (chunk_iter logs) (mkLedger found ∅ next) in
      match r with
      | Err e => (Err e, reader', next_offset s)
      | Ok _ => (Ok (mkMaterializeLogsResult logs (Chunk_new (collect_materialized s))), reader', next_offset s)
      end) with
    | (Ok res, reader', next') => exists c' s, log_steps (ops_of logs) c = Some c' /\
        ledger_ok logs (stored_record S) (ids_of logs) next c' s /\ result_logs res = logs /\ result_iter res = collect_materialized s /\
        option_reads reader' S /\ next' = next_offset s /\ next <= next' <= next + Z.of_nat (length (chunk_iter logs))
    | (Err e, _, _) => (e = EmbeddingMaterialization /\ log_steps (ops_of logs) c = None) \/ exists b, e = RecordSegment (BoxedBlockfileError b)
    end) as Hrest.
  { intros found reader' Hr' Hfound. pose proof (ledger_start logs S mx c next found HS Hc Hn Hfound) as Hl.
    pose proof (process_records_spec logs (stored_record S) (ids_of logs) next (chunk_iter logs) Hn c _ Hl) as Hp.
    specialize (Hp ltac:(apply Forall_forall; intros [lr i] Hin; cbn; split; [by eapply chunk_iter_get|apply elem_of_ids, list_elem_of_fmap; by exists (lr, i)]) Hlt).
    cbn [next_offset] in Hp. fold (ops_of logs) in Hp. destruct (log_steps (ops_of logs) c) as [c'|].
    - destruct Hp as (s' & -> & Hl' & Hb). exists c', s'. split_and!; try done; [apply result_iter_new|lia|lia].
    - destruct (process_records (chunk_iter logs) _) as [[?|e] s']; cbn in Hp; [done|]. injection Hp as ->. by left. }
  destruct reader as [r|]; cbn [option_reads] in Hr.
  - pose proof (find_existing_spec S mx (chunk_iter logs) HS ∅ r Hr) as Hf. destruct (find_existing (chunk_iter logs) ∅ r) as [[found|e] r'];
      [|by right]. destruct Hf as (Hr' & _ & Hf). apply (Hrest found (Some r') Hr'). intros uid. rewrite Hf, lookup_empty.
    pose proof (elem_of_ids logs uid). destruct (off S uid); [|done]. repeat case_decide; tauto.
  - apply (Hrest ∅ None Hr). intros uid. by subst S.
Qed.
End Materialize.

(** ** Applying a chunk *)

Section Apply.
Context {HO : HashOrder} {SR : SegmentReaders} {SL : SegmentReadersLaws SR} {SW : SegmentWriters} {WL : SegmentWritersLaws SW}.

Lemma entries_nodup logs base ids start c s : ledger_ok logs base ids start c s -> NoDup (entries s).*1.
Proof.
  intros Hl. unfold entries. rewrite fmap_app. apply NoDup_app. split_and!.
  - eapply sublist_NoDup; [apply (hash_iter_nodup (existing s))|].
    generalize (hash_iter (existing s)). intros l. induction l as [|x l IH]; cbn; [constructor|]. case_bool_decide; cbn; by constructor.
  - intros uid ([u1 m1] & -> & Hin)%list_elem_of_fmap ([u2 m2] & Heq & Hin2%hash_iter_elem)%list_elem_of_fmap. cbn in *. subst u2.
    apply list_elem_of_In, List.filter_In in Hin as [Hin%list_elem_of_In%hash_iter_elem _].
    destruct (base u1) as [[oid d0]|] eqn:Hb.
    + destruct (l_old _ _ _ _ _ _ Hl u1 oid d0 Hb) as [Hf _]. congruence.
    + destruct (l_new _ _ _ _ _ _ Hl u1 Hb) as [He _]. congruence.
  - apply hash_iter_nodup.
Qed.

(** What the entries do to a segment that has the same records as the one that
    was read, where the log mentions them. *)
Section Entries.
Context (logs : Chunk LogRecord) (S : SegmentRows) (mx : Z) (HS : segment_ok S mx).
Context (ids : gset string) (start : Z) (Hstart : 0 <= start) (c' : gmap string Doc) (s : Ledger).
Context (Hl : ledger_ok logs (stored_record S) ids start c' s).
Context (Sw : SegmentRows) (mw : Z) (HSw : segment_ok Sw mw) (Hfresh : forall uid oid, off Sw uid = Some oid -> oid < start).
Context (Hagree : forall uid, uid ∈ ids -> stored_record Sw uid = stored_record S uid).

Lemma off_agree uid : uid ∈ ids -> off Sw uid = off S uid.
Proof. intros Hu. by rewrite (stored_record_off Sw mw uid HSw), (stored_record_off S mx uid HS), Hagree. Qed.

Lemma entry_cases_of uid m : (uid, m) ∈ entries s ->
  uid ∈ ids /\ final_operation m <> Initial /\
  ((exists oid d0, stored_record S uid = Some (oid, d0) /\ existing_ok logs uid oid m /\ stands logs m (Some d0) (c' !! uid)) \/
   (stored_record S uid = None /\ fresh s !! uid = Some m /\ fresh_ok logs uid m /\ stands logs m None (c' !! uid) /\ start <= offset_id m < next_offset s)).
Proof.
  intros [[He Hop]|Hf]%elem_of_entries.
  - split; [apply (l_ids _ _ _ _ _ _ Hl); left; by eexists|]. split; [done|]. left. destruct (stored_record S uid) as [[oid d0]|] eqn:Hb.
    + destruct (l_old _ _ _ _ _ _ Hl uid oid d0 Hb) as [_ Ho]. rewrite He in Ho. destruct Ho. by exists oid, d0.
    + destruct (l_new _ _ _ _ _ _ Hl uid Hb) as [Hn _]. congruence.
  - split; [apply (l_ids _ _ _ _ _ _ Hl); right; by eexists|]. destruct (stored_record S uid) as [[oid d0]|] eqn:Hb.
    + destruct (l_old _ _ _ _ _ _ Hl uid oid d0 Hb) as [Hn _]. congruence.
    + destruct (l_new _ _ _ _ _ _ Hl uid Hb) as [_ Hn]. rewrite Hf in Hn. destruct Hn as [Hn1 Hn2]. split; [by rewrite (f_operation _ _ _ Hn1)|].
      right. pose proof (l_range _ _ _ _ _ _ Hl uid m Hf). split_and!; try done; lia.
Qed.

Lemma entries_ok uid m : (uid, m) ∈ entries s -> entry_ok logs S Sw uid m /\ stands logs m (entry_data S uid) (c' !! uid).
Proof.
  intros Hin. destruct (entry_cases_of uid m Hin) as (Hu & Hop & [(oid & d0 & Hb & He & Hst)|(Hb & Hf0 & Hf & Hst & Hr)]).
  - split; [|by unfold entry_data; rewrite Hb]. constructor; [|done]. exists (Some (oid, d0)). split; [done|]. split; [done|].
    rewrite off_agree by done. by rewrite (stored_record_off S mx uid HS), Hb.
  - split; [|by unfold entry_data; rewrite Hb]. constructor; [|done]. exists None. split; [done|]. split_and!; [done| | |lia].
    + rewrite off_agree by done. by rewrite (stored_record_off S mx uid HS), Hb.
    + destruct (usr Sw (offset_id m)) as [u|] eqn:Hus; [|done]. apply (s_bijection Sw mw HSw), Hfresh in Hus. lia.
Qed.

Lemma entries_inj uid m uid' m' : (uid, m) ∈ entries s -> (uid', m') ∈ entries s -> stored_record S uid = None -> stored_record S uid' = None ->
  offset_id m = offset_id m' -> uid = uid'.
Proof.
  intros H1 H2 Hb1 Hb2. destruct (entry_cases_of uid m H1) as (_ & _ & [(? & ? & ? & _)|(_ & Hf1 & _)]); [congruence|].
  destruct (entry_cases_of uid' m' H2) as (_ & _ & [(? & ? & ? & _)|(_ & Hf2 & _)]); [congruence|].
  by apply (l_inj _ _ _ _ _ _ Hl).
Qed.

(** The user ids without an entry keep their record. *)
Lemma no_entry uid : uid ∈ ids -> uid ∉ (entries s).*1 -> (fun x => doc_of x.2) <$> stored_record S uid = c' !! uid.
Proof.
  intros Hu Hn. destruct (stored_record S uid) as [[oid d0]|] eqn:Hb; cbn.
  - destruct (l_old _ _ _ _ _ _ Hl uid oid d0 Hb) as [_ Ho]. destruct (existing s !! uid) as [m|] eqn:He; [|by destruct Ho].
    destruct Ho as [Hok Hst]. destruct (decide (final_operation m = Initial)) as [Hi|Hi].
    + rewrite (e_initial _ _ _ _ Hok Hi) in Hst. destruct Hst as (d & -> & Hd). rewrite <- Hd. unfold doc_of_hydrated. rewrite merged_metadata_overlay.
      by rewrite (overlay_none (segment_metadata _)).
    + exfalso. apply Hn, list_elem_of_fmap. exists (uid, m). split; [done|]. apply elem_of_entries. by left.
  - destruct (l_new _ _ _ _ _ _ Hl uid Hb) as [_ Ho]. destruct (fresh s !! uid) as [m|] eqn:Hf; [|done].
    exfalso. apply Hn, list_elem_of_fmap. exists (uid, m). split; [done|]. apply elem_of_entries. by right.
Qed.

(** The values of the log fit into blocks. *)
Hypothesis Hfit : forall uid oid d, uid ∈ ids -> dr_id d = uid -> Some (doc_of d) = c' !! uid -> values_fit uid oid d.

Lemma apply_chunk_spec res w reader :
  result_logs res = logs -> result_iter res = collect_materialized s -> writer_has w Sw -> option_reads reader S ->
  match apply_materialized_log_chunk res (mkApplying reader w) with
  | (Ok _, st) => exists Sw' mx', segment_ok Sw' (Z.max mw mx') /\ writer_has (applying_writer st) Sw' /\ option_reads (applying_reader st) S /\
      max_offset_id (applying_writer st) = max_offset_id w /\ max_new_offset_id (applying_writer st) = Z.max (max_new_offset_id w) mx' /\
      (mx' = 0 \/ start <= mx' < next_offset s) /\ (forall uid oid, off Sw' uid = Some oid -> oid < next_offset s) /\
      (forall uid, uid ∉ ids -> stored_record Sw' uid = stored_record Sw uid) /\
      (forall uid, uid ∈ ids -> (fun x => doc_of x.2) <$> stored_record Sw' uid = c' !! uid /\
         forall oid d oid' d', stored_record S uid = Some (oid, d) -> stored_record Sw' uid = Some (oid', d') -> oid' = oid)
  | (Err e, _) => storage_error e
  end.
Proof.
  intros Hlogs Hiter Hw Hr. destruct (collect_entries s) as (L & HL & Hcol).
  assert (forall x, x ∈ L <-> x ∈ entries s) as HLe by (intros x; by rewrite HL).
  assert (forall uid, uid ∈ L.*1 <-> uid ∈ (entries s).*1) as HLu by (intros uid; by rewrite HL).
  unfold apply_materialized_log_chunk, st_bind. rewrite Hlogs, Hiter, Hcol.
  pose proof (apply_records_spec logs S mx HS (fun uid => c' !! uid) L Sw mw w reader 0 HSw Hw Hr) as Ha.
  specialize (Ha ltac:(rewrite HL; by eapply entries_nodup)).
  specialize (Ha ltac:(intros uid m Hin%HLe; by apply entries_ok)).
  specialize (Ha ltac:(intros u1 m1 u2 m2 H1%HLe H2%HLe; by apply entries_inj)).
  specialize (Ha ltac:(intros uid m d Hin%HLe; apply Hfit; by apply entry_cases_of in Hin as [? _])).
  destruct (apply_records logs L.*2 0 _) as [[mx'|e] st]; [|done].
  destruct Ha as (Sw' & HS' & Hw' & (E1 & E2 & E3) & Hr' & Hmx & Hmxo & Hout & Hin). cbn. exists Sw', mx'.
  assert (forall uid, uid ∉ ids -> stored_record Sw' uid = stored_record Sw uid) as Houtside.
  { intros uid Hu. apply Hout. rewrite HLu. intros ([u m] & -> & Hm)%list_elem_of_fmap. by apply entry_cases_of in Hm as [? _]. }
  pose proof (l_start _ _ _ _ _ _ Hl) as Hnext. split_and!; try done; [by rewrite E2| | |].
  - destruct Hmxo as [->|(uid & m & H1%HLe & H2 & ->)]; [by left|]. right.
    destruct (entry_cases_of uid m H1) as (_ & _ & [(? & ? & ? & _)|(_ & _ & _ & _ & ?)]); [congruence|done].
  - intros uid oid Ho. rewrite (stored_record_off Sw' _ uid HS') in Ho. destruct (decide (uid ∈ L.*1)) as [Hl1|Hl1].
    + apply list_elem_of_fmap in Hl1 as ([u m] & -> & Hm). cbn in *. destruct (Hin u m Hm) as [_ Hoff].
      destruct (stored_record Sw' u) as [[o d]|]; [|done]. injection Ho as ->. rewrite (Hoff oid d eq_refl).
      apply HLe, entry_cases_of in Hm as (Hu & _ & [(o1 & d1 & Hb1 & He1 & _)|(_ & _ & _ & _ & ?)]); [|lia].
      rewrite (e_offset _ _ _ _ He1). enough (o1 < start) by lia. apply (Hfresh u). rewrite off_agree by done. by rewrite (stored_record_off S mx u HS), Hb1.
    + rewrite Hout in Ho by done. rewrite <- (stored_record_off Sw mw uid HSw) in Ho. apply Hfresh in Ho. lia.
  - intros uid Hu. destruct (decide (uid ∈ L.*1)) as [Hl1|Hl1].
    + apply list_elem_of_fmap in Hl1 as ([u m] & -> & Hm). cbn in *. destruct (Hin u m Hm) as [Hd Ho]. split; [done|].
      intros oid d oid' d' Hb Hb'. rewrite (Ho oid' d' Hb'). apply HLe, entry_cases_of in Hm as (_ & _ & [(o1 & d1 & Hb1 & He1 & _)|(Hb1 & _)]); [|congruence].
      rewrite Hb in Hb1. injection Hb1 as <- <-. apply He1.
    + rewrite Hout by done. split; [rewrite Hagree by done; apply no_entry; [done|by rewrite <- HLu]|].
      intros oid d oid' d'. rewrite Hagree by done. congruence.
Qed.
End Entries.
End Apply.

(** ** The log, record by record *)

Fixpoint record_steps (l : list OperationRecord) (d : option Doc) : option (option Doc) :=
  match l with
  | [] => Some d
  | r :: l => d ← record_step r d; record_steps l d
  end.

(** The operations on one record. *)
Definition ops_for (uid : string) (l : list OperationRecord) : list OperationRecord :=
  List.filter (fun r => bool_decide (rec_id r = uid)) l.

Lemma ops_for_cons uid r l : ops_for uid (r :: l) = if decide (rec_id r = uid) then r :: ops_for uid l else ops_for uid l.
Proof. unfold ops_for. cbn. by case_bool_decide; case_decide. Qed.

Lemma log_steps_lookup l : forall c c' uid, log_steps l c = Some c' -> record_steps (ops_for uid l) (c !! uid) = Some (c' !! uid).
Proof.
  induction l as [|r l IH]; intros c c' uid; cbn [log_steps]; [by intros [= ->]|]. unfold log_step.
  destruct (record_step r (c !! rec_id r)) as [d|] eqn:Hd; [|done]. cbn [mbind option_bind]. intros Hl. apply (IH _ _ uid) in Hl. rewrite ops_for_cons.
  case_decide as He.
  - subst uid. rewrite put_eq in Hl. cbn. by rewrite Hd.
  - by rewrite put_ne in Hl.
Qed.

Lemma log_steps_total l : forall c, (forall uid, is_Some (record_steps (ops_for uid l) (c !! uid))) -> is_Some (log_steps l c).
Proof.
  induction l as [|r l IH]; intros c Hall; cbn [log_steps]; [by eexists|]. pose proof (Hall (rec_id r)) as Hr.
  rewrite ops_for_cons, decide_True in Hr by done. cbn in Hr. unfold log_step. destruct (record_step r (c !! rec_id r)) as [d|]; [|by destruct Hr].
  cbn. apply IH. intros uid. destruct (decide (rec_id r = uid)) as [<-|Hne]; [by rewrite put_eq|].
  rewrite put_ne by done. specialize (Hall uid). by rewrite ops_for_cons, decide_False in Hall.
Qed.

(** ** Partitions *)

Section Partition.
Context {HO : HashOrder} (logs : Chunk LogRecord).
Implicit Types (G : list string) (x : LogRecord * nat).

Definition rec_in G (lr : LogRecord) : bool := bool_decide (rec_id (record lr) ∈ G).
Definition id_in G x : bool := rec_in G x.1.
Definition ids_filter G : list (LogRecord * nat) := List.filter (id_in G) (chunk_iter logs).

Lemma group_indices_spec l k :
  group_indices l !! k = match List.filter (fun x => bool_decide (rec_id (record x.1) = k)) l with [] => None | v => Some v.*2 end.
Proof.
  unfold group_indices. induction l as [|[lr i] l IH] using rev_ind; [done|]. rewrite foldl_app, List.filter_app. cbn [foldl].
  destruct (decide (rec_id (record lr) = k)) as [He|Hne].
  - subst k. rewrite lookup_insert_eq. cbn. rewrite bool_decide_true by done. rewrite IH.
    destruct (List.filter _ l) as [|y v]; cbn; [done|]. by rewrite fmap_app.
  - rewrite lookup_insert_ne by done. cbn. rewrite bool_decide_false by done. by rewrite app_nil_r.
Qed.

Lemma groups_spec k v : (k, v) ∈ hash_iter (group_indices (chunk_iter logs)) ->
  v = (ids_filter [k]).*2 /\ v <> [].
Proof.
  rewrite hash_iter_elem, group_indices_spec.
  assert (List.filter (fun x => bool_decide (rec_id (record x.1) = k)) (chunk_iter logs) = ids_filter [k]) as ->.
  { unfold ids_filter. apply List.filter_ext. intros x. unfold id_in, rec_in. apply bool_decide_ext. set_solver. }
  destruct (ids_filter [k]); [done|]. intros [= <-]. done.
Qed.

Lemma groups_ids k : k ∈ (hash_iter (group_indices (chunk_iter logs))).*1 <-> k ∈ ids_of logs.
Proof.
  rewrite list_elem_of_fmap, elem_of_ids, list_elem_of_fmap. split.
  - intros ([k' v] & -> & Hin%hash_iter_elem). rewrite group_indices_spec in Hin. cbn.
    destruct (List.filter _ (chunk_iter logs)) as [|y l] eqn:Hf; [done|]. exists y.
    assert (List.In y (y :: l)) as Hy by by left. rewrite <- Hf in Hy. apply List.filter_In in Hy as [Hy He%bool_decide_eq_true].
    split; [done|by apply list_elem_of_In].
  - intros (y & -> & Hy). destruct (group_indices (chunk_iter logs) !! rec_id (record y.1)) as [v|] eqn:Hg.
    + exists (rec_id (record y.1), v). split; [done|by apply hash_iter_elem].
    + rewrite group_indices_spec in Hg. destruct (List.filter _ (chunk_iter logs)) eqn:Hf; [|done].
      apply list_elem_of_In in Hy. assert (List.In y []) as []. rewrite <- Hf. apply List.filter_In. split; [done|by apply bool_decide_eq_true].
Qed.

(** The visibility shows the records with ids in [G]. *)
Definition visible_ok (vis : list bool) G : Prop :=
  length vis = total_len logs /\ forall i, vis !! i = Some true <-> i ∈ (ids_filter G).*2.

Lemma elem_of_ids_filter G x : x ∈ ids_filter G <-> x ∈ chunk_iter logs /\ rec_id (record x.1) ∈ G.
Proof. unfold ids_filter. rewrite list_elem_of_In, List.filter_In, <- list_elem_of_In. unfold id_in, rec_in. by rewrite bool_decide_eq_true. Qed.

Lemma visible_from_filter (P : LogRecord -> bool) data : forall vis vis' i,
  length vis' = length data ->
  (forall j (lr : LogRecord), data !! j = Some lr -> vis' !! j = Some true <-> vis !! j = Some true /\ P lr = true) ->
  visible_from i data vis' = List.filter (fun x => P x.1) (visible_from i data vis).
Proof.
  induction data as [|y data IH]; intros vis [|v' vis'] i Hlen Hv; cbn; [done..|]. injection Hlen as Hlen.
  pose proof (Hv 0%nat y eq_refl) as Hv0. cbn in Hv0. destruct vis as [|v vis].
  - cbn in Hv0. assert (v' = false) as -> by (destruct v'; [|done]; by destruct Hv0 as [[? _] _]). cbn.
    rewrite (IH [] vis' (S i) Hlen); [by destruct data|]. intros j x Hj. specialize (Hv (S j) x Hj). cbn in Hv. rewrite Hv. done.
  - rewrite List.filter_app, <- (IH vis vis' (S i) Hlen); [|intros j x Hj; apply (Hv (S j) x Hj)]. f_equal. cbn in Hv0.
    destruct v', v; cbn; [| | |done].
    + destruct Hv0 as [Hv0 _]. destruct (Hv0 eq_refl) as [_ ->]. done.
    + destruct Hv0 as [Hv0 _]. by destruct (Hv0 eq_refl).
    + destruct (P y); [|done]. destruct Hv0 as [_ Hv0]. by specialize (Hv0 (conj eq_refl eq_refl)).
Qed.

Lemma elem_of_iter (x : LogRecord) i : (x, i) ∈ chunk_iter logs <-> chunk_data logs !! i = Some x /\ visibility logs !! i = Some true.
Proof.
  rewrite chunk_iter_visible. split; [intros (_ & H1 & H2)%visible_from_lookup; by rewrite Nat.sub_0_r in *|].
  assert (forall data vis k j, data !! j = Some x -> vis !! j = Some true -> (x, (k + j)%nat) ∈ visible_from k data vis) as H.
  { induction data as [|y data IH]; intros [|v vis] k [|j] Hd Hv; cbn in *; try done.
    - injection Hd as ->. injection Hv as ->. rewrite Nat.add_0_r. set_solver.
    - apply elem_of_app. right. rewrite <- Nat.add_succ_comm. by apply IH. }
  intros [H1 H2]. apply (H _ _ 0%nat i H1 H2).
Qed.

Lemma visible_iter vis G : visible_ok vis G -> chunk_iter (set_visibility vis logs) = ids_filter G.
Proof.
  intros [Hlen Hv]. rewrite chunk_iter_visible. unfold ids_filter. rewrite chunk_iter_visible. cbn [set_visibility chunk_data visibility].
  apply (visible_from_filter (rec_in G)); [done|].
  intros j x Hj. unfold rec_in. rewrite Hv, bool_decide_eq_true, list_elem_of_fmap. split.
  - intros ([x' j'] & -> & [Hin Hg]%elem_of_ids_filter). cbn in *. apply elem_of_iter in Hin as [Hd Hvis]. split; [done|]. congruence.
  - intros [Hvis Hg]. exists (x, j). split; [done|]. apply elem_of_ids_filter. split; [|done]. by apply elem_of_iter.
Qed.

Lemma set_visible_lookup v : forall vis i, Forall (fun j => (j < length vis)%nat) v -> set_visible v vis !! i = Some true <-> i ∈ v \/ vis !! i = Some true.
Proof.
  induction v as [|j v IH]; intros vis i Hv; cbn; [set_solver|]. apply Forall_cons in Hv as [Hj Hv].
  unfold set_visible in IH. rewrite IH by by rewrite length_insert. rewrite elem_of_cons. destruct (decide (i = j)) as [->|Hne].
  - rewrite list_lookup_insert_eq by done. naive_solver.
  - rewrite list_lookup_insert_ne by done. naive_solver.
Qed.

Lemma set_visible_length v : forall vis, length (set_visible v vis) = length vis.
Proof. induction v as [|j v IH]; intros vis; cbn; [done|]. unfold set_visible in IH. by rewrite IH, length_insert. Qed.

Lemma visible_group vis G k : visible_ok vis G -> visible_ok (set_visible (ids_filter [k]).*2 vis) (G ++ [k]).
Proof.
  intros [Hlen Hv]. split; [by rewrite set_visible_length|]. intros i. rewrite set_visible_lookup, Hv.
  - rewrite !list_elem_of_fmap. setoid_rewrite elem_of_ids_filter. setoid_rewrite elem_of_app. naive_solver.
  - apply Forall_forall. intros j ([x j'] & -> & [Hin _]%elem_of_ids_filter)%list_elem_of_fmap. cbn. rewrite Hlen.
    apply elem_of_iter in Hin as [Hin _]. by apply lookup_lt_Some in Hin.
Qed.

Lemma visible_nothing : visible_ok (replicate (total_len logs) false) [].
Proof.
  split; [by rewrite length_replicate|]. intros i. rewrite lookup_replicate, list_elem_of_fmap. split; [naive_solver|].
  intros (x & _ & [_ H]%elem_of_ids_filter). by apply elem_of_nil in H.
Qed.

Lemma ids_filter_app G G' : (forall k, k ∈ G -> k ∉ G') -> length (ids_filter (G ++ G')) = (length (ids_filter G) + length (ids_filter G'))%nat.
Proof.
  intros Hk. unfold ids_filter. induction (chunk_iter logs) as [|x l IH]; cbn; [done|].
  assert (id_in (G ++ G') x = id_in G x || id_in G' x) as ->.
  { unfold id_in, rec_in. rewrite <- bool_decide_or. apply bool_decide_ext. set_solver. }
  assert (id_in G x = true -> id_in G' x = false) as Hd.
  { unfold id_in, rec_in. rewrite bool_decide_eq_true, bool_decide_eq_false. apply Hk. }
  destruct (id_in G x) eqn:H1; [rewrite Hd by done; cbn; lia|]. destruct (id_in G' x); cbn; lia.
Qed.

Lemma ids_filter_length G k : k ∉ G -> length (ids_filter (G ++ [k])) = (length (ids_filter G) + length (ids_filter [k]))%nat.
Proof. intros Hk. apply ids_filter_app. intros k' Hk' ->%list_elem_of_singleton. done. Qed.

(** A partition has all records of its user ids, in order, and without its last
    user id it would not be full. *)
Record partition_ok (size : nat) (p : Chunk LogRecord) G : Prop := {
  p_data : chunk_data p = chunk_data logs;
  p_iter : chunk_iter p = ids_filter G;
  p_size : exists G' k, G = G' ++ [k] /\ (G' = [] \/ (length (ids_filter G') < size)%nat);
}.

Lemma partition_groups_spec size groups : forall bs (new : bool) vis G0,
  NoDup (G0 ++ groups.*1) -> Forall (fun g : string * list nat => g.2 = (ids_filter [g.1]).*2) groups ->
  (if new then G0 = [] else visible_ok vis G0 /\ exists G' k, G0 = G' ++ [k] /\ (G' = [] \/ (length (ids_filter G') < size)%nat)) ->
  bs = length (ids_filter G0) -> (G0 = [] \/ (bs < size)%nat) ->
  exists Gs, Forall2 (partition_ok size) (partition_groups logs size groups bs new vis) Gs /\ concat Gs = G0 ++ groups.*1.
Proof.
  induction groups as [|[k v] groups IH]; intros bs new vis G0 Hnd Hgr Hnew Hbs Hlt; cbn [partition_groups].
  - destruct new.
    + subst G0. exists []. by split; [constructor|].
    + destruct Hnew as [Hvis Hsz]. exists [G0]. split; [|by cbn; rewrite !app_nil_r].
      repeat constructor; [by apply visible_iter|done].
  - apply Forall_cons in Hgr as [Hv Hgr]. cbn [fst snd] in Hv. subst v.
    set (vis1 := if new then _ else vis). set (vis2 := set_visible _ vis1).
    assert (visible_ok vis2 (G0 ++ [k])) as Hvis2.
    { apply visible_group. unfold vis1. destruct new; [subst G0; apply visible_nothing|apply Hnew]. }
    assert (k ∉ G0) as Hk. { apply NoDup_app in Hnd as (_ & Hd & _). intros Hin. apply (Hd k Hin). set_solver. }
    assert ((bs + length (ids_filter [k]).*2)%nat = length (ids_filter (G0 ++ [k]))) as Hbs'.
    { rewrite ids_filter_length by done. rewrite length_fmap. lia. }
    assert (NoDup ((G0 ++ [k]) ++ groups.*1)) as Hnd' by by rewrite <- app_assoc.
    destruct (Nat.leb_spec size (bs + length (ids_filter [k]).*2)) as [Hle|Hgt].
    + destruct (IH 0%nat true vis2 []) as (Gs & Hf & Hc); [by apply NoDup_app in Hnd' as (_ & _ & ?)|done|done| |by left|].
      { unfold ids_filter. by rewrite filter_none by (apply Forall_forall; intros x Hx; unfold id_in, rec_in; apply bool_decide_eq_false; set_solver). }
      exists ((G0 ++ [k]) :: Gs). split; [|cbn; rewrite Hc; by rewrite <- app_assoc]. constructor; [|done].
      constructor; [done|by apply visible_iter|]. exists G0, k. split; [done|]. destruct Hlt as [?|?]; [by left|right; lia].
    + destruct (IH (bs + length (ids_filter [k]).*2)%nat false vis2 (G0 ++ [k])) as (Gs & Hf & Hc); [done|done| |done|right; lia|].
      { split; [done|]. exists G0, k. split; [done|]. destruct Hlt as [?|?]; [by left|right; lia]. }
      exists Gs. split; [done|]. rewrite Hc. by rewrite <- app_assoc.
Qed.

Lemma partition_spec size :
  exists Gs, Forall2 (partition_ok size) (partition logs size) Gs /\ NoDup (concat Gs) /\ forall uid, uid ∈ concat Gs <-> uid ∈ ids_of logs.
Proof.
  destruct (partition_groups_spec size (hash_iter (group_indices (chunk_iter logs))) 0 true (replicate (total_len logs) false) []) as (Gs & Hf & Hc).
  - apply hash_iter_nodup.
  - apply Forall_forall. intros [k v] Hin. by apply groups_spec.
  - done.
  - unfold ids_filter. by rewrite filter_none by (apply Forall_forall; intros x Hx; unfold id_in, rec_in; apply bool_decide_eq_false; set_solver).
  - by left.
  - cbn in Hc. exists Gs. split; [done|]. rewrite Hc. split; [apply hash_iter_nodup|]. apply groups_ids.
Qed.

(** The operations of a partition on one of its records are those of the log. *)
Lemma partition_ops size p G uid : partition_ok size p G -> uid ∈ G -> ops_for uid (ops_of p) = ops_for uid (ops_of logs).
Proof.
  intros Hp Hu. unfold ops_of, ops_for. rewrite (p_iter _ _ _ Hp). unfold ids_filter. induction (chunk_iter logs) as [|x l IH]; cbn; [done|].
  unfold id_in at 1, rec_in at 1. case_bool_decide as Hx; cbn; rewrite IH; [done|]. rewrite bool_decide_false; [done|]. by intros <-.
Qed.

Lemma partition_ids size p G uid : partition_ok size p G -> uid ∈ ids_of p <-> uid ∈ G /\ uid ∈ ids_of logs.
Proof.
  intros Hp. rewrite !elem_of_ids, (p_iter _ _ _ Hp), !list_elem_of_fmap. setoid_rewrite elem_of_ids_filter. naive_solver.
Qed.
End Partition.

(** ** Sizes *)

Lemma as_i64_mod a b : a mod 2 ^ 64 = b mod 2 ^ 64 -> as_i64 a = as_i64 b.
Proof. intros Hab. unfold as_i64. by rewrite <- (Zplus_mod_idemp_l a), <- (Zplus_mod_idemp_l b), Hab. Qed.

Lemma as_i64_cong a : as_i64 a mod 2 ^ 64 = a mod 2 ^ 64.
Proof. unfold as_i64. rewrite Zminus_mod_idemp_l. f_equal. lia. Qed.

Lemma as_i64_add a b : as_i64 (as_i64 a + as_i64 b) = as_i64 (a + b).
Proof. apply as_i64_mod. by rewrite Zplus_mod, !as_i64_cong, <- Zplus_mod. Qed.

Lemma as_i64_sub a b : as_i64 (as_i64 a - as_i64 b) = as_i64 (a - b).
Proof. apply as_i64_mod. by rewrite Zminus_mod, !as_i64_cong, <- Zminus_mod. Qed.

Lemma as_i64_small a : - 2 ^ 63 <= a < 2 ^ 63 -> as_i64 a = a.
Proof. intros Ha. unfold as_i64. rewrite Z.mod_small; lia. Qed.

Section Sizes.
Context {HO : HashOrder}.

Definition doc_size (uid : string) (d : Doc) : Z := logical_size_of_record uid (doc_embedding d) (doc_metadata d) (doc_document d).
Definition osize (uid : string) (o : option Doc) : Z := match o with Some d => doc_size uid d | None => 0 end.

(** The size of a collection. *)
Definition coll_size (c : gmap string Doc) : Z := map_fold (fun uid d acc => doc_size uid d + acc) 0 c.

Lemma metadata_size_empty : logical_size_of_metadata ∅ = 0.
Proof.
  unfold logical_size_of_metadata. pose proof (hash_iter_perm MetadataValue ∅) as Hp. rewrite map_to_list_empty in Hp.
  by rewrite (proj1 (Permutation_nil_r _) Hp).
Qed.

Lemma coll_size_insert c uid d : c !! uid = None -> coll_size (<[uid := d]> c) = doc_size uid d + coll_size c.
Proof. intros Hn. unfold coll_size. rewrite map_fold_insert_L; [done| |done]. intros. lia. Qed.

Lemma coll_size_lookup c uid : coll_size c = osize uid (c !! uid) + coll_size (base.delete uid c).
Proof.
  destruct (c !! uid) as [d|] eqn:Hd; cbn; [|by rewrite delete_id].
  rewrite <- (insert_delete_id c uid d Hd) at 1. apply coll_size_insert, lookup_delete_eq.
Qed.

(** Collections that differ in the records of [l] only. *)
Lemma coll_size_diff l : NoDup l -> forall c c', (forall uid, uid ∉ l -> c' !! uid = c !! uid) ->
  coll_size c' - coll_size c = sum_z ((fun uid => osize uid (c' !! uid) - osize uid (c !! uid)) <$> l).
Proof.
  induction 1 as [|uid l Hn Hnd IH]; intros c c' Heq.
  - rewrite (map_eq c' c); [cbn; lia|]. intros u. apply Heq. by intros ?%elem_of_nil.
  - cbn. fold (sum_z ((fun uid => osize uid (c' !! uid) - osize uid (c !! uid)) <$> l)).
    rewrite (coll_size_lookup c uid), (coll_size_lookup c' uid).
    assert (sum_z ((fun u => osize u (c' !! u) - osize u (c !! u)) <$> l) =
            sum_z ((fun u => osize u (base.delete uid c' !! u) - osize u (base.delete uid c !! u)) <$> l)) as ->.
    { f_equal. apply list_fmap_ext. intros i u Hu%list_elem_of_lookup_2. rewrite !lookup_delete_ne by (intros ->; done). done. }
    rewrite <- IH; [lia|]. intros u Hu. destruct (decide (u = uid)) as [->|Hne]; [by rewrite !lookup_delete_eq|].
    rewrite !lookup_delete_ne by done. apply Heq. by rewrite elem_of_cons; intros [?|?].
Qed.

Lemma coll_size_nonneg c : 0 <= coll_size c.
Proof.
  assert (forall l acc, 0 <= acc -> 0 <= foldl (fun acc '(k, v) => acc + (str_len k + size_of_value v)) acc l) as Hm.
  { induction l as [|[k v] l IH]; intros acc Ha; cbn; [done|]. apply IH. unfold str_len, size_of_value, size_of_slice, str_len. destruct v; lia. }
  unfold coll_size. apply (map_fold_weak_ind (fun r m => 0 <= r)); [done|]. intros uid d m r _ Hr.
  unfold doc_size, logical_size_of_record, str_len, size_of_slice, logical_size_of_metadata.
  specialize (Hm (hash_iter (doc_metadata d)) 0 ltac:(done)). destruct (doc_document d); lia.
Qed.

Context {SR : SegmentReaders} {SL : SegmentReadersLaws SR}.

(** The size that an entry adds. *)
Lemma entry_delta logs m d0 uid o :
  get_user_id (mkHydrated m d0 logs) = Some uid -> stands logs m d0 o -> final_operation m <> Initial ->
  (forall d, d0 = Some d -> dr_id d = uid) ->
  compute_logical_size_delta_bytes (mkHydrated m d0 logs) = Some (as_i64 (osize uid o - osize uid (doc_of <$> d0))).
Proof.
  intros Hu Hst Hop Hd0. unfold compute_logical_size_delta_bytes. set (old := match get_data_record _ with Some _ => _ | None => 0 end).
  assert (old = osize uid (doc_of <$> d0)) as ->.
  { unfold old, get_data_record. cbn. destruct d0 as [d|]; cbn; [|done]. rewrite (Hd0 d eq_refl). unfold doc_size, logical_size_of_record. cbn.
    destruct (dr_metadata d); cbn; [done|]. by rewrite metadata_size_empty. }
  unfold stands, doc_of_hydrated in Hst. change (get_operation (mkHydrated m d0 logs)) with (final_operation m). rewrite Hu.
  destruct (final_operation m); try done;
    try (destruct Hst as (d & -> & Hd); destruct (merged_embeddings_ref (mkHydrated m d0 logs)) as [e|]; [|done]; cbn [mbind option_bind] in Hd;
         destruct (merged_document_ref (mkHydrated m d0 logs)) as [doc|]; [|done]; cbn [mbind option_bind] in Hd; injection Hd as <-;
         f_equal; apply as_i64_sub).
  subst o. cbn. f_equal. apply (as_i64_sub 0).
Qed.

Lemma sum_deltas_spec logs S mx (HS : segment_ok S mx) (c' : gmap string Doc) (L : list (string * MaterializedLogRecord)) : forall a reader,
  option_reads reader S ->
  (forall uid m, (uid, m) ∈ L -> entry_ok logs S S uid m /\ stands logs m (entry_data S uid) (c' !! uid)) ->
  match sum_deltas logs L.*2 (as_i64 a) reader with
  | (Ok delta, reader') => option_reads reader' S /\
      delta = as_i64 (a + sum_z ((fun x => osize x.1 (c' !! x.1) - osize x.1 (doc_of <$> entry_data S x.1)) <$> L))
  | (Err e, _) => exists b, e = RecordSegment (BoxedBlockfileError b)
  end.
Proof.
  induction L as [|[uid m] L IH]; intros a reader Hr Hen; cbn [sum_deltas fmap list_fmap fst snd].
  { cbn. by rewrite Z.add_0_r. }
  unfold st_bind at 1. destruct (Hen uid m ltac:(set_solver)) as [He Hst].
  pose proof (hydrate_entry logs S mx HS S uid m reader Hr He) as Hh. destruct (hydrate logs m reader) as [[h|e] r1]; [|by destruct Hh as [? _]].
  destruct Hh as [-> Hr1]. rewrite (entry_delta logs m (entry_data S uid) uid (c' !! uid)).
  - rewrite as_i64_add. specialize (IH (a + (osize uid (c' !! uid) - osize uid (doc_of <$> entry_data S uid))) r1 Hr1).
    specialize (IH ltac:(intros; apply Hen; set_solver)). destruct (sum_deltas logs L.*2 _ r1) as [[delta|e] r2]; [|done].
    destruct IH as [Hr2 ->]. split; [done|]. unfold sum_z. cbn. f_equal. lia.
  - by eapply entry_user.
  - done.
  - apply He.
  - unfold entry_data. intros d. destruct (stored_record S uid) as [[oid d1]|] eqn:Hs; [|done]. intros [= <-].
    by apply (stored_record_some S mx uid oid d1 HS) in Hs as (_ & _ & ?).
Qed.
End Sizes.

(** ** Materialization of one partition *)

Lemma log_steps_other l c c' uid : log_steps l c = Some c' -> uid ∉ rec_id <$> l -> c' !! uid = c !! uid.
Proof.
  intros Hl Hu. apply (log_steps_lookup l c c' uid) in Hl.
  enough (ops_for uid l = []) as He by (rewrite He in Hl; cbn in Hl; congruence).
  unfold ops_for. apply filter_none. apply Forall_forall. intros r Hr. apply bool_decide_eq_false. intros <-. apply Hu, list_elem_of_fmap. eauto.
Qed.

Section Chain.
Context {HO : HashOrder} {SR : SegmentReaders} {SL : SegmentReadersLaws SR} {SW : SegmentWriters} {WL : SegmentWritersLaws SW}.
Context (S : SegmentRows) (mx : Z) (HS : segment_ok S mx) (c : gmap string Doc) (Hc : shows S c).

(** What the materialization of a chunk returns when the next offset id is [n]. *)
Record output_of (logs : Chunk LogRecord) (n : Z) (out : MaterializeLogOutput) (c' : gmap string Doc) (s : Ledger) : Prop := {
  o_steps : log_steps (ops_of logs) c = Some c';
  o_ledger : ledger_ok logs (stored_record S) (ids_of logs) n c' s;
  o_logs : result_logs (output_result out) = logs;
  o_iter : result_iter (output_result out) = collect_materialized s;
  o_delta : collection_logical_size_delta out = as_i64 (coll_size c' - coll_size c);
  o_next : n <= next_offset s <= n + Z.of_nat (length (chunk_iter logs));
}.

Definition operator_error (e : LogMaterializerError) (logs : Chunk LogRecord) : Prop :=
  (e = EmbeddingMaterialization /\ log_steps (ops_of logs) c = None) \/ exists b, e = RecordSegment (BoxedBlockfileError b).

Lemma shown_data uid : doc_of <$> entry_data S uid = c !! uid.
Proof. rewrite (Hc uid). unfold entry_data. by destruct (stored_record S uid) as [[]|]. Qed.

Lemma log_steps_ids logs c' uid : log_steps (ops_of logs) c = Some c' -> uid ∉ ids_of logs -> c' !! uid = c !! uid.
Proof. intros Hl Hu. eapply log_steps_other; [done|]. unfold ids_of in Hu. by rewrite elem_of_list_to_set in Hu. Qed.

Lemma operator_spec reader logs n :
  option_reads reader S -> 0 <= n -> (forall uid oid, off S uid = Some oid -> oid < n) -> n + Z.of_nat (length (chunk_iter logs)) < 2 ^ 32 ->
  match MaterializeLogOperator_run reader logs n with
  | (Ok out, reader', n') => option_reads reader' S /\ exists c' s, output_of logs n out c' s /\ n' = next_offset s
  | (Err e, _, _) => operator_error e logs
  end.
Proof.
  intros Hr Hn Hfresh Hlt. unfold MaterializeLogOperator_run. pose proof (materialize_spec reader S mx logs n c Hr HS Hc Hn Hlt) as Hm.
  destruct (materialize_logs reader logs (Some n)) as [[[res|e] r1] n1]; [|done].
  destruct Hm as (c' & s & Hsteps & Hl & Hlogs & Hiter & Hr1 & -> & Hb). rewrite Hlogs, Hiter.
  destruct (collect_entries s) as (L & HL & Hcol). rewrite Hcol.
  assert (forall uid m, (uid, m) ∈ L -> entry_ok logs S S uid m /\ stands logs m (entry_data S uid) (c' !! uid)) as Hen.
  { intros uid m Hin. eapply (entries_ok logs S mx HS); [exact Hn|exact Hl|exact HS|exact Hfresh|done|]. by rewrite <- HL. }
  pose proof (sum_deltas_spec logs S mx HS c' L 0 r1 Hr1 Hen) as Hs. change (as_i64 0) with 0 in Hs.
  destruct (sum_deltas logs L.*2 0 r1) as [[delta|e] r2]; [|by right]. destruct Hs as [Hr2 ->]. split; [done|]. exists c', s.
  split; [|done]. constructor; cbn; [done|done|done|done| |done].
  - f_equal. rewrite (coll_size_diff L.*1).
    + rewrite <- list_fmap_compose. rewrite (list_fmap_ext _ ((fun uid => osize uid (c' !! uid) - osize uid (c !! uid)) ∘ fst) L); [done|].
      intros i [uid m] _. cbn. by rewrite shown_data.
    + rewrite HL. by eapply entries_nodup.
    + intros uid Hu. rewrite HL in Hu. destruct (decide (uid ∈ ids_of logs)) as [Hi|Hi]; [|by eapply log_steps_ids].
      rewrite (Hc uid). symmetry. by eapply (no_entry logs S).
Qed.

(** ** Materialization of the partitions *)

Inductive outputs_of : list (Chunk LogRecord) -> Z -> list MaterializeLogOutput -> Z -> Prop :=
| outputs_nil n : outputs_of [] n [] n
| outputs_cons p ps n out outs c' s n' :
    output_of p n out c' s -> outputs_of ps (next_offset s) outs n' -> outputs_of (p :: ps) n (out :: outs) n'.

Abbreviation total_records := (sum_list_with (fun p : Chunk LogRecord => length (chunk_iter p))).

Lemma outputs_le ps n outs n' : outputs_of ps n outs n' -> n <= n' <= n + Z.of_nat (total_records ps).
Proof. induction 1 as [|p ps n out outs c' s n' Ho _ IH]; cbn [sum_list_with]; [lia|]. pose proof (o_next _ _ _ _ _ Ho). lia. Qed.

Lemma materialize_partitions_spec ps : forall reader n,
  option_reads reader S -> 0 <= n -> (forall uid oid, off S uid = Some oid -> oid < n) -> n + Z.of_nat (total_records ps) < 2 ^ 32 ->
  match materialize_partitions reader ps n with
  | (Ok outs, reader', n') => option_reads reader' S /\ outputs_of ps n outs n'
  | (Err e, _, _) => exists p, p ∈ ps /\ operator_error e p
  end.
Proof.
  induction ps as [|p ps IH]; intros reader n Hr Hn Hfresh Hlt; cbn [materialize_partitions sum_list_with] in *; [split; [done|constructor]|].
  pose proof (operator_spec reader p n Hr Hn Hfresh ltac:(lia)) as Hp.
  destruct (MaterializeLogOperator_run reader p n) as [[[out|e] r1] n1]; [|exists p; split; [left|done]].
  destruct Hp as (Hr1 & c' & s & Ho & ->). pose proof (o_next _ _ _ _ _ Ho) as Hnext.
  specialize (IH r1 (next_offset s) Hr1 ltac:(lia) ltac:(intros uid oid Hu%Hfresh; lia) ltac:(lia)).
  destruct (materialize_partitions r1 ps (next_offset s)) as [[[outs|e] r2] n2].
  - destruct IH as [Hr2 Hos]. split; [done|]. by econstructor.
  - destruct IH as (q & Hq & He). exists q. split; [by right|done].
Qed.

(** ** Applying the outputs *)

(** [c'] where [ids] are concerned, [cw] otherwise. *)
Definition splice (ids : gset string) (c' cw : gmap string Doc) : gmap string Doc :=
  filter (fun x => x.1 ∈ ids) c' ∪ filter (fun x => x.1 ∉ ids) cw.

Lemma splice_lookup ids c' cw uid : splice ids c' cw !! uid = if decide (uid ∈ ids) then c' !! uid else cw !! uid.
Proof.
  unfold splice. rewrite lookup_union, !map_lookup_filter. destruct (c' !! uid), (cw !! uid); cbn; repeat case_guard; repeat case_decide; done.
Qed.

Lemma splice_size logs c' cw : log_steps (ops_of logs) c = Some c' -> (forall uid, uid ∈ ids_of logs -> cw !! uid = c !! uid) ->
  coll_size (splice (ids_of logs) c' cw) - coll_size cw = coll_size c' - coll_size c.
Proof.
  intros Hsteps Hagree. pose proof (NoDup_elements (ids_of logs)) as Hnd. rewrite !(coll_size_diff (elements (ids_of logs)) Hnd).
  - f_equal. apply list_fmap_ext. intros i uid Hu%list_elem_of_lookup_2%elem_of_elements. rewrite splice_lookup, decide_True, Hagree by done. done.
  - intros uid Hu. rewrite elem_of_elements in Hu. by eapply log_steps_ids.
  - intros uid Hu. rewrite elem_of_elements in Hu. by rewrite splice_lookup, decide_False.
Qed.

(** An empty result is skipped: the records are as they were. *)
Definition apply_output (out : MaterializeLogOutput) : Applies unit :=
  if result_is_empty (output_result out) then st_ret tt else apply_materialized_log_chunk (output_result out).

Lemma empty_entries out s : result_is_empty (output_result out) = true -> result_iter (output_result out) = collect_materialized s -> entries s = [].
Proof.
  unfold result_is_empty, chunk_is_empty, result_iter. rewrite Nat.eqb_eq. intros -> Hi. cbn in Hi. destruct (collect_entries s) as (L & HL & He).
  rewrite He in Hi. symmetry in Hi. apply fmap_nil_inv in Hi. subst L. by apply Permutation_nil_l in HL.
Qed.

Section OneOutput.
Context (p : Chunk LogRecord) (n : Z) (out : MaterializeLogOutput) (c' : gmap string Doc) (s : Ledger) (Ho : output_of p n out c' s) (Hn : 0 <= n).
Context (Hfit : forall uid oid d, uid ∈ ids_of p -> dr_id d = uid -> Some (doc_of d) = c' !! uid -> values_fit uid oid d).
Context (Sw : SegmentRows) (mw : Z) (HSw : segment_ok Sw mw) (Hmw : 0 <= mw) (Hfresh : forall uid oid, off Sw uid = Some oid -> oid < n).
Context (Hagree : forall uid, uid ∈ ids_of p -> stored_record Sw uid = stored_record S uid).

Lemma apply_output_spec w reader : writer_has w Sw -> option_reads reader S -> 0 <= max_new_offset_id w ->
  match apply_output out (mkApplying reader w) with
  | (Ok _, st) => exists Sw' mx', segment_ok Sw' (Z.max mw mx') /\ writer_has (applying_writer st) Sw' /\ option_reads (applying_reader st) S /\
      max_offset_id (applying_writer st) = max_offset_id w /\ max_new_offset_id (applying_writer st) = Z.max (max_new_offset_id w) mx' /\
      (mx' = 0 \/ n <= mx' < next_offset s) /\ (forall uid oid, off Sw' uid = Some oid -> oid < next_offset s) /\
      (forall uid, uid ∉ ids_of p -> stored_record Sw' uid = stored_record Sw uid) /\
      (forall uid, uid ∈ ids_of p -> (fun x => doc_of x.2) <$> stored_record Sw' uid = c' !! uid /\
         forall oid d oid' d', stored_record S uid = Some (oid, d) -> stored_record Sw' uid = Some (oid', d') -> oid' = oid)
  | (Err e, _) => storage_error e
  end.
Proof.
  intros Hw Hr Hmn. pose proof (o_ledger _ _ _ _ _ Ho) as Hl. unfold apply_output. destruct (result_is_empty (output_result out)) eqn:He.
  - pose proof (empty_entries out s He (o_iter _ _ _ _ _ Ho)) as Hnil. pose proof (o_next _ _ _ _ _ Ho). cbn. exists Sw, 0.
    rewrite !Z.max_l by done. split_and!; try done; [by left|intros uid oid Hu%Hfresh; lia|]. intros uid Hu. rewrite Hagree by done. split.
    + eapply (no_entry p S); [done..|]. rewrite Hnil. by intros ?%elem_of_nil.
    + intros. congruence.
  - by apply (apply_chunk_spec p S mx HS (ids_of p) n Hn c' s Hl Sw mw HSw Hfresh Hagree Hfit); [apply Ho..| |].
Qed.

(** What a reader of the segment sees after it. *)
Lemma apply_output_shows cw Sw' : shows Sw cw ->
  (forall uid, uid ∉ ids_of p -> stored_record Sw' uid = stored_record Sw uid) ->
  (forall uid, uid ∈ ids_of p -> (fun x => doc_of x.2) <$> stored_record Sw' uid = c' !! uid) ->
  shows Sw' (splice (ids_of p) c' cw) /\ coll_size (splice (ids_of p) c' cw) - coll_size cw = coll_size c' - coll_size c.
Proof.
  intros Hcw Hout Hin. split.
  - intros uid. rewrite splice_lookup. case_decide as Hu; [by rewrite Hin|]. by rewrite Hout.
  - apply splice_size; [apply Ho|]. intros uid Hu. by rewrite (Hcw uid), (Hc uid), Hagree.
Qed.
End OneOutput.

(** ** Applying all outputs *)

Fixpoint disjoint_parts (ps : list (Chunk LogRecord)) : Prop :=
  match ps with
  | [] => True
  | p :: ps => (forall q, q ∈ ps -> ids_of p ## ids_of q) /\ disjoint_parts ps
  end.

Definition mentioned (ps : list (Chunk LogRecord)) (uid : string) : Prop := exists p, p ∈ ps /\ uid ∈ ids_of p.

Lemma mentioned_cons p ps uid : mentioned (p :: ps) uid <-> uid ∈ ids_of p \/ mentioned ps uid.
Proof. unfold mentioned. setoid_rewrite elem_of_cons. naive_solver. Qed.

(** The collection that the log leads to, in which every value fits. *)
Context (c2 : gmap string Doc) (Hfit : forall uid oid d, dr_id d = uid -> Some (doc_of d) = c2 !! uid -> values_fit uid oid d).

(** What has happened to a segment [Sw], shown as [cw], when the records of [ps] have been applied. *)
Record applied (ps : list (Chunk LogRecord)) (n n' : Z) (Sw : SegmentRows) (cw : gmap string Doc) (mw : Z) (w : RecordSegmentWriter)
    (Sw' : SegmentRows) (cw' : gmap string Doc) (M : Z) (w' : RecordSegmentWriter) : Prop := {
  a_ok : segment_ok Sw' (Z.max mw M);
  a_shows : shows Sw' cw';
  a_has : writer_has w' Sw';
  a_max : max_offset_id w' = max_offset_id w;
  a_new : max_new_offset_id w' = Z.max (max_new_offset_id w) M;
  a_range : M = 0 \/ n <= M < n';
  a_other : forall uid, ~ mentioned ps uid -> stored_record Sw' uid = stored_record Sw uid;
  a_record : forall uid, mentioned ps uid -> cw' !! uid = c2 !! uid;
  a_stable : forall uid oid d oid' d', stored_record Sw uid = Some (oid, d) -> stored_record Sw' uid = Some (oid', d') -> oid' = oid;
}.

Lemma applied_cons p ps n n1 n' Sw cw mw w Sw1 cw1 M1 w1 Sw' cw' M2 w' :
  0 <= n -> n <= n1 <= n' -> 0 <= mw -> (forall q, q ∈ ps -> ids_of p ## ids_of q) ->
  applied [p] n n1 Sw cw mw w Sw1 cw1 M1 w1 -> applied ps n1 n' Sw1 cw1 (Z.max mw M1) w1 Sw' cw' M2 w' ->
  applied (p :: ps) n n' Sw cw mw w Sw' cw' (Z.max M1 M2) w'.
Proof.
  intros H0 Hle Hmw Hdis [A1 A2 A3 A4 A5 A6 A7 A8 A9] [B1 B2 B3 B4 B5 B6 B7 B8 B9].
  assert (forall uid, mentioned [p] uid <-> uid ∈ ids_of p) as Hp by (intros uid; rewrite mentioned_cons; unfold mentioned; set_solver).
  assert (forall uid, uid ∈ ids_of p -> ~ mentioned ps uid) as Hd by (intros uid Hu (q & Hq & Hin); specialize (Hdis q Hq); set_solver).
  constructor; try done; [by rewrite Z.max_assoc|congruence|rewrite B5, A5; lia|lia|..].
  - intros uid Hu. rewrite mentioned_cons in Hu. rewrite B7, A7; rewrite ?Hp; tauto.
  - intros uid [Hu|Hu]%mentioned_cons; [|by apply B8]. rewrite (B2 uid), B7, <- (A2 uid) by by apply Hd. apply A8. by apply Hp.
  - intros uid oid d oid' d' Hs Hs'. destruct (decide (uid ∈ ids_of p)) as [Hu|Hu].
    + rewrite B7 in Hs' by by apply Hd. by eapply A9.
    + rewrite <- A7 in Hs by by rewrite Hp. by eapply B9.
Qed.

Lemma apply_outputs_spec ps n outs n' : outputs_of ps n outs n' -> forall Sw mw w reader a cw,
  0 <= n -> segment_ok Sw mw -> 0 <= mw -> shows Sw cw -> writer_has w Sw -> option_reads reader S -> 0 <= max_new_offset_id w ->
  (forall uid oid, off Sw uid = Some oid -> oid < n) -> (forall uid, mentioned ps uid -> stored_record Sw uid = stored_record S uid) ->
  disjoint_parts ps -> (forall p uid, p ∈ ps -> uid ∈ ids_of p -> record_steps (ops_for uid (ops_of p)) (c !! uid) = Some (c2 !! uid)) ->
  match apply_outputs outs (as_i64 a) (mkApplying reader w) with
  | (Ok delta, st) => exists Sw' cw' M, applied ps n n' Sw cw mw w Sw' cw' M (applying_writer st) /\
      delta = as_i64 (a + (coll_size cw' - coll_size cw))
  | (Err e, _) => storage_error e
  end.
Proof.
  induction 1 as [n|p ps n out outs c' s n' Ho Hos IH]; intros Sw mw w reader a cw Hn HSw Hmw Hcw Hw Hr Hmn Hfresh Hagree Hdis Hrec.
  { cbn. exists Sw, cw, 0. split; [|f_equal; lia]. constructor; rewrite ?Z.max_l by done; try done; [by left| |congruence]. by intros uid (q & ?%elem_of_nil & _). }
  cbn [disjoint_parts] in Hdis. destruct Hdis as [Hdp Hdis]. pose proof (o_next _ _ _ _ _ Ho) as Hnext. pose proof (outputs_le _ _ _ _ Hos) as Hle.
  assert (forall uid, uid ∈ ids_of p -> c' !! uid = c2 !! uid) as Hc2.
  { intros uid Hu. pose proof (log_steps_lookup _ _ _ uid (o_steps _ _ _ _ _ Ho)) as Hl. rewrite (Hrec p uid) in Hl by set_solver. congruence. }
  assert (forall uid, uid ∈ ids_of p -> stored_record Sw uid = stored_record S uid) as Hagp by (intros uid Hu; apply Hagree, mentioned_cons; by left).
  pose proof (apply_output_spec p n out c' s Ho Hn ltac:(intros uid oid d Hu Hid Hd; rewrite Hc2 in Hd by done; by apply Hfit)
    Sw mw HSw Hmw Hfresh Hagp w reader Hw Hr Hmn) as Hone.
  assert (apply_outputs (out :: outs) (as_i64 a) (mkApplying reader w) =
    match apply_output out (mkApplying reader w) with
    | (Ok _, st) => apply_outputs outs (if result_is_empty (output_result out) then as_i64 a else as_i64 (as_i64 a + collection_logical_size_delta out)) st
    | (Err e, st) => (Err e, st)
    end) as ->.
  { cbn [apply_outputs]. unfold apply_output. by destruct (result_is_empty (output_result out)). }
  destruct (apply_output out (mkApplying reader w)) as [[u|e] st] eqn:Hst; [|done].
  destruct Hone as (Sw1 & M1 & HS1 & Hw1 & Hr1 & E1 & E2 & Hrange & Hf1 & Hout & Hin). destruct st as [r1 w1]. cbn [applying_reader applying_writer] in *.
  destruct (apply_output_shows p n out c' s Ho Sw Hagp cw Sw1 Hcw Hout ltac:(intros; by apply Hin)) as [Hcw1 Hsize].
  set (cw1 := splice (ids_of p) c' cw) in *.
  assert ((if result_is_empty (output_result out) then as_i64 a else as_i64 (as_i64 a + collection_logical_size_delta out)) =
          as_i64 (a + (coll_size cw1 - coll_size cw))) as ->.
  { rewrite (o_delta _ _ _ _ _ Ho), as_i64_add, Hsize. destruct (result_is_empty (output_result out)) eqn:He; [|done].
    pose proof (empty_entries out s He (o_iter _ _ _ _ _ Ho)) as Hnil. rewrite (map_eq c' c); [f_equal; lia|]. intros uid.
    destruct (decide (uid ∈ ids_of p)) as [Hu|Hu]; [|eapply log_steps_ids; [apply Ho|done]]. rewrite (Hc uid). symmetry.
    eapply (no_entry p S); [apply Ho|done|]. rewrite Hnil. by intros ?%elem_of_nil. }
  assert (applied [p] n (next_offset s) Sw cw mw w Sw1 cw1 M1 w1) as Happ.
  { assert (forall uid, mentioned [p] uid <-> uid ∈ ids_of p) as Hp by (intros uid; rewrite mentioned_cons; unfold mentioned; set_solver).
    constructor; try done; [intros uid; rewrite Hp; apply Hout|..].
    - intros uid Hu%Hp. unfold cw1. by rewrite splice_lookup, decide_True, Hc2.
    - intros uid oid d oid' d' Hs Hs'. destruct (decide (uid ∈ ids_of p)) as [Hu|Hu].
      + rewrite Hagp in Hs by done. by eapply (Hin uid Hu).
      + rewrite Hout in Hs' by done. congruence. }
  specialize (IH Sw1 (Z.max mw M1) w1 r1 (a + (coll_size cw1 - coll_size cw)) cw1 ltac:(lia) HS1 ltac:(lia) Hcw1 Hw1 Hr1 ltac:(lia) Hf1).
  specialize (IH ltac:(intros uid Hu; rewrite Hout; [apply Hagree, mentioned_cons; by right|]; destruct Hu as (q & Hq & Hu); specialize (Hdp q Hq); set_solver) Hdis).
  specialize (IH ltac:(intros q uid Hq; apply Hrec; by right)).
  destruct (apply_outputs outs _ (mkApplying r1 w1)) as [[delta|e] st']; [|done]. destruct IH as (Sw' & cw' & M2 & Ha & ->).
  exists Sw', cw', (Z.max M1 M2). split; [|f_equal; lia]. eapply (applied_cons p ps n (next_offset s)); try done. lia.
Qed.
End Chain.

(** ** The partitions of a log *)

Abbreviation count_records := (sum_list_with (fun p : Chunk LogRecord => length (chunk_iter p))).

Section Parts.
Context {HO : HashOrder} (logs : Chunk LogRecord).

Lemma parts_spec size ps Gs : Forall2 (partition_ok logs size) ps Gs -> NoDup (concat Gs) -> (forall uid, uid ∈ concat Gs -> uid ∈ ids_of logs) ->
  disjoint_parts ps /\ (forall uid, mentioned ps uid <-> uid ∈ concat Gs) /\ count_records ps = length (ids_filter logs (concat Gs)) /\
  (forall p uid, p ∈ ps -> uid ∈ ids_of p -> ops_for uid (ops_of p) = ops_for uid (ops_of logs)).
Proof.
  induction 1 as [|p G ps Gs Hp Hps IH]; cbn [concat disjoint_parts sum_list_with].
  { intros _ _. split_and!; [done|..].
    - intros uid. split; [by intros (q & ?%elem_of_nil & _)|by intros ?%elem_of_nil].
    - unfold ids_filter. by rewrite filter_none by (apply Forall_forall; intros x Hx; unfold id_in, rec_in; apply bool_decide_eq_false; set_solver).
    - by intros q uid ?%elem_of_nil. }
  intros (Hnd1 & Hdis & Hnd)%NoDup_app Hids. destruct IH as (H1 & H2 & H3 & H4); [done|intros uid Hu; apply Hids; set_solver|].
  assert (forall uid, uid ∈ ids_of p <-> uid ∈ G) as HG by (intros uid; rewrite (partition_ids logs size p G uid Hp); split; [by intros [? _]|intros; split; [done|apply Hids; set_solver]]).
  split_and!.
  - intros q Hq uid Hu1%HG Hu2. apply (Hdis uid Hu1), H2. by exists q.
  - done.
  - intros uid. rewrite mentioned_cons, H2, HG, elem_of_app. done.
  - rewrite ids_filter_app by done. by rewrite (p_iter _ _ _ _ Hp), H3.
  - intros q uid [->|Hq]%elem_of_cons Hu; [|by apply H4]. apply (partition_ops logs size p G uid Hp). by apply HG.
Qed.

Lemma partition_parts size : let ps := PartitionOperator_run logs size in
  disjoint_parts ps /\ (forall uid, mentioned ps uid <-> uid ∈ ids_of logs) /\ (count_records ps <= length (chunk_iter logs))%nat /\
  (forall p uid, p ∈ ps -> uid ∈ ids_of p -> ops_for uid (ops_of p) = ops_for uid (ops_of logs)).
Proof.
  intros ps. destruct (partition_spec logs (determine_partition_size (chunk_len logs) size)) as (Gs & HGs & Hnd & Hin).
  destruct (parts_spec _ _ _ HGs Hnd) as (H1 & H2 & H3 & H4); [intros uid; apply Hin|]. split_and!; [done| | |done].
  - intros uid. unfold ps, PartitionOperator_run. by rewrite H2.
  - unfold ps, PartitionOperator_run. rewrite H3. apply List.filter_length_le.
Qed.

Lemma ops_for_absent uid p : uid ∉ ids_of p -> ops_for uid (ops_of p) = [].
Proof.
  intros Hu. unfold ops_for. apply filter_none, Forall_forall. intros r Hr. apply bool_decide_eq_false. intros <-.
  apply Hu. unfold ids_of. apply elem_of_list_to_set, list_elem_of_fmap. eauto.
Qed.

(** A log fails exactly when one of its partitions does. *)
Lemma parts_fail (ps : list (Chunk LogRecord)) c p : (forall q uid, q ∈ ps -> uid ∈ ids_of q -> ops_for uid (ops_of q) = ops_for uid (ops_of logs)) ->
  p ∈ ps -> log_steps (ops_of p) c = None -> log_steps (ops_of logs) c = None.
Proof.
  intros Hops Hp Hn. destruct (log_steps (ops_of logs) c) as [c2|] eqn:Hl; [|done]. exfalso.
  destruct (log_steps_total (ops_of p) c) as [x Hx]; [|congruence]. intros uid. destruct (decide (uid ∈ ids_of p)) as [Hu|Hu].
  - rewrite (Hops p uid Hp Hu), (log_steps_lookup _ _ _ uid Hl). by eexists.
  - rewrite ops_for_absent by done. by eexists.
Qed.

Lemma parts_succeed (ps : list (Chunk LogRecord)) c : (forall q uid, q ∈ ps -> uid ∈ ids_of q -> ops_for uid (ops_of q) = ops_for uid (ops_of logs)) ->
  (forall uid, mentioned ps uid <-> uid ∈ ids_of logs) -> (forall p, p ∈ ps -> is_Some (log_steps (ops_of p) c)) -> is_Some (log_steps (ops_of logs) c).
Proof.
  intros Hops Hm Hall. apply log_steps_total. intros uid. destruct (decide (uid ∈ ids_of logs)) as [Hu|Hu].
  - apply Hm in Hu as (p & Hp & Hu). rewrite <- (Hops p uid Hp Hu). destruct (Hall p Hp) as [x Hx]. rewrite (log_steps_lookup _ _ _ uid Hx). by eexists.
  - rewrite ops_for_absent by done. by eexists.
Qed.
End Parts.

(** ** The compaction of a record segment *)

(** What a reader of the flushed blockfiles has. *)
Class SegmentCommitLaws (SW : SegmentWriters) (WL : SegmentWritersLaws SW) := {
  offset_flushed : offset_flusher -> btree (CompositeKey string) u32;
  user_flushed : user_flusher -> btree (CompositeKey u32) string;
  data_flushed : data_flusher -> btree (CompositeKey u32) DataRecord;
  offset_claws :: CommitLaws offset_capi offset_wok offset_wrows offset_flushed;
  user_claws :: CommitLaws user_capi user_wok user_wrows user_flushed;
  data_claws :: CommitLaws data_capi data_wok data_wrows data_flushed;
}.

(** The largest offset id that a reader finds. *)
Definition max_of (rows : btree (CompositeKey string) u32) : Z :=
  match bt_get (mkCompositeKey ""%string MAX_OFFSET_ID) rows with Some v => u32_value v | None => 0 end.

Section Compact.
Context {HO : HashOrder} {SR : SegmentReaders} {SL : SegmentReadersLaws SR} {SW : SegmentWriters} {WL : SegmentWritersLaws SW} {CL : SegmentCommitLaws SW WL}.

Definition flusher_has (f : RecordSegmentFlusher) (S : SegmentRows) (mx : Z) : Prop :=
  offset_flushed (user_id_to_id_flusher f) = offset_rows S /\ user_flushed (id_to_user_id_flusher f) = user_rows S /\
  data_flushed (id_to_data_flusher f) = data_rows S /\ max_of (offset_flushed (max_offset_id_flusher f)) = mx.

Lemma commit_writer_spec w S : writer_has w S -> offset_wok (max_offset_id w) -> (forall v, offset_fit "" MAX_OFFSET_ID v) ->
  forall f, commit_writer w = Ok f ->
  flusher_has f S (if 0 <? max_new_offset_id w then max_new_offset_id w else max_of (offset_wrows (max_offset_id w))).
Proof.
  intros ([H1 R1] & [H2 R2] & [H3 R3]) H4 Hfit f. unfold commit_writer.
  assert (forall x, offset_wok x -> max_of (offset_wrows x) = (if 0 <? max_new_offset_id w then max_new_offset_id w else max_of (offset_wrows (max_offset_id w))) ->
    (let? f1 := map_err CommitBlockfile (api_commit (user_id_to_id w)) in
     let? f2 := map_err CommitBlockfile (api_commit (id_to_user_id w)) in
     let? f3 := map_err CommitBlockfile (api_commit (id_to_data w)) in
     let? f4 := map_err CommitBlockfile (api_commit x) in
     Ok (mkRecordFlusher (record_segment_id w) f1 f2 f3 f4)) = Ok f ->
    flusher_has f S (if 0 <? max_new_offset_id w then max_new_offset_id w else max_of (offset_wrows (max_offset_id w)))) as Hx.
  { intros x Hok Hmx. destruct (api_commit (user_id_to_id w)) as [f1|] eqn:C1; [|done]. destruct (api_commit (id_to_user_id w)) as [f2|] eqn:C2; [|done].
    destruct (api_commit (id_to_data w)) as [f3|] eqn:C3; [|done]. destruct (api_commit x) as [f4|] eqn:C4; [|done]. cbn. intros [= <-]. unfold flusher_has. cbn.
    apply offset_claws in C1, C4; [|done..]. apply user_claws in C2; [|done]. apply data_claws in C3; [|done]. split_and!; congruence. }
  destruct (Z.ltb_spec 0 (max_new_offset_id w)) as [Hlt|Hle].
  - pose proof (api_set_law ""%string MAX_OFFSET_ID (mkU32 (max_new_offset_id w)) (max_offset_id w) H4 (Hfit _)) as Hs.
    destruct (api_set "" MAX_OFFSET_ID _ (max_offset_id w)) as [[[]|e] x]; [|done]. destruct Hs as [Hok Hrows]. apply Hx; [done|].
    unfold max_of. rewrite Hrows. by rewrite bt_insert_get_eq.
  - by apply Hx.
Qed.

Definition reader_max (reader : option RecordSegmentReader) : Z := match reader with Some r => get_max_offset_id r | None => 0 end.

(** The reader and the writer of a segment that shows [c], as they are opened. *)
Record opened (reader : option RecordSegmentReader) (w : RecordSegmentWriter) (S : SegmentRows) (c : gmap string Doc) : Prop := {
  op_reads : option_reads reader S;
  op_ok : segment_ok S (reader_max reader);
  op_shows : shows S c;
  op_has : writer_has w S;
  op_wok : offset_wok (max_offset_id w);
  op_max : max_of (offset_wrows (max_offset_id w)) = reader_max reader;
  op_bound : 0 <= reader_max reader;
  op_new : max_new_offset_id w = 0;
}.

(** A blockfile could not be read, written or committed. *)
Definition storage_failure (e : CompactionError) : Prop :=
  match e with
  | MaterializeLogs e => exists b, e = RecordSegment (BoxedBlockfileError b)
  | ApplyLog e => storage_error e
  | CommitSegment _ => True
  end.

(** Records that were there keep their offset ids. *)
Definition ids_stable (S S' : SegmentRows) : Prop :=
  forall uid oid d oid' d', stored_record S uid = Some (oid, d) -> stored_record S' uid = Some (oid', d') -> oid' = oid.

Lemma first_fresh reader S c w : opened reader w S c -> reader_max reader + 1 < 2 ^ 32 ->
  let n := next_max_offset_id reader in 0 <= n <= reader_max reader + 1 /\ (forall uid oid, off S uid = Some oid -> oid < n) /\
  (forall M, M = 0 \/ n <= M -> Z.max (reader_max reader) M = if 0 <? M then M else reader_max reader).
Proof.
  intros [H1 H2 _ _ _ _ H3 _] Hlt. destruct reader as [r|]; cbn in *.
  - unfold u32_wrap. rewrite Z.mod_small by lia. split; [lia|]. split; [intros uid oid Ho%(s_bound _ _ H2); lia|].
    intros M HM. destruct (Z.ltb_spec 0 M); lia.
  - subst S. split; [lia|]. split; [done|]. intros M HM. destruct (Z.ltb_spec 0 M); lia.
Qed.

Lemma outputs_succeed S c ps n outs n' : outputs_of S c ps n outs n' -> forall p, p ∈ ps -> is_Some (log_steps (ops_of p) c).
Proof.
  induction 1 as [|p ps n out outs c' s n' Ho _ IH]; intros q; [by intros ?%elem_of_nil|]. intros [->|Hq]%elem_of_cons; [|by apply IH].
  rewrite (o_steps _ _ _ _ _ _ _ Ho). by eexists.
Qed.

Lemma compact_spec reader w S c logs size :
  opened reader w S c -> reader_max reader + 1 + Z.of_nat (length (chunk_iter logs)) < 2 ^ 32 -> (forall v, offset_fit "" MAX_OFFSET_ID v) ->
  (forall c2 uid oid d, log_steps (ops_of logs) c = Some c2 -> dr_id d = uid -> Some (doc_of d) = c2 !! uid -> values_fit uid oid d) ->
  match compact_record_segment reader w logs size with
  | Ok (f, delta) => exists c2 S2 mx2, log_steps (ops_of logs) c = Some c2 /\ flusher_has f S2 mx2 /\ segment_ok S2 mx2 /\ shows S2 c2 /\
      ids_stable S S2 /\ 0 <= mx2 < 2 ^ 32 /\ delta = as_i64 (coll_size c2 - coll_size c)
  | Err e => (e = MaterializeLogs EmbeddingMaterialization /\ log_steps (ops_of logs) c = None) \/ storage_failure e
  end.
Proof.
  intros Hop Hlt Hmaxfit Hfit. unfold compact_record_segment. destruct (partition_parts logs size) as (Hdis & Hment & Hcount & Hops).
  set (ps := PartitionOperator_run logs size) in *. destruct (first_fresh reader S c w Hop ltac:(lia)) as (Hn & Hfresh & Hmax).
  set (n := next_max_offset_id reader) in *. destruct Hop as [Hr HS Hc Hw Hwok Hwmax Hbound Hnew].
  pose proof (materialize_partitions_spec S (reader_max reader) HS c Hc ps reader n Hr ltac:(lia) Hfresh ltac:(lia)) as Hm.
  destruct (materialize_partitions reader ps n) as [[[outs|e] r1] n'];
    [|destruct Hm as (p & Hp & [[-> He]|He]); [left; split; [done|by eapply parts_fail]|by right]].
  destruct Hm as [Hr1 Hos]. destruct (parts_succeed logs ps c Hops Hment (outputs_succeed S c ps n outs n' Hos)) as [c2 Hc2].
  pose proof (outputs_le _ _ _ _ _ _ Hos) as Hle.
  pose proof (apply_outputs_spec S (reader_max reader) HS c Hc c2 ltac:(intros; by eapply Hfit) ps n outs n' Hos S (reader_max reader) w r1 0 c ltac:(lia)
    HS Hbound Hc Hw Hr1 ltac:(lia) Hfresh ltac:(done) Hdis) as Ha.
  specialize (Ha ltac:(intros p uid Hp Hu; rewrite (Hops p uid Hp Hu); by apply log_steps_lookup)). change (as_i64 0) with 0 in Ha.
  destruct (apply_outputs outs 0 (mkApplying r1 w)) as [[delta|e] st]; [|by right].
  destruct Ha as (S2 & cw & M & [A1 A2 A3 A4 A5 A6 A7 A8 A9] & ->).
  assert (cw = c2) as ->.
  { apply map_eq. intros uid. destruct (decide (uid ∈ ids_of logs)) as [Hu|Hu]; [by apply A8, Hment|].
    rewrite (A2 uid), A7 by by rewrite Hment. rewrite <- (Hc uid). symmetry. by eapply log_steps_ids. }
  pose proof (commit_writer_spec (applying_writer st) S2 A3 ltac:(by rewrite A4) Hmaxfit) as Hcommit. rewrite A4, A5, Hnew, Hwmax, (Z.max_r 0) in Hcommit by lia.
  destruct (commit_writer (applying_writer st)) as [f|e]; cbn; [|by right]. exists c2, S2, (Z.max (reader_max reader) M).
  split_and!; try done; [rewrite Hmax by lia; by apply Hcommit|lia|lia].
Qed.
End Compact.

(** ** One record that is added by a compaction that does not know the maximum *)

Section LostMaximum.
Context {HO : HashOrder} {SR : SegmentReaders} {SL : SegmentReadersLaws SR} {SW : SegmentWriters} {WL : SegmentWritersLaws SW} {CL : SegmentCommitLaws SW WL}.
Context (S : SegmentRows) (mx : Z) (HS : segment_ok S mx) (c : gmap string Doc) (Hc : shows S c).
Context (lr : LogRecord) (Hadd : rec_operation (record lr) = Add).

#[local] Abbreviation uid := (rec_id (record lr)).
Hypothesis Hnew : off S uid = None.

Lemma one_iter : chunk_iter (Chunk_new [lr]) = [(lr, 0%nat)].
Proof. done. Qed.

(** A log of one record has one partition, with that record. *)
Lemma one_partition size : exists p, PartitionOperator_run (Chunk_new [lr]) size = [p] /\ chunk_iter p = [(lr, 0%nat)].
Proof.
  destruct (partition_spec (Chunk_new [lr]) (determine_partition_size (chunk_len (Chunk_new [lr])) size)) as (Gs & HGs & Hnd & Hin).
  assert (forall u, u ∈ concat Gs <-> u = uid) as Hu by (intros u; rewrite Hin, elem_of_ids, one_iter; cbn; apply list_elem_of_singleton).
  unfold PartitionOperator_run. destruct HGs as [|p G ps Gs Hp HGs]; [by assert (uid ∈ concat []) as []%elem_of_nil by by apply Hu|].
  assert (forall q H, partition_ok (Chunk_new [lr]) (determine_partition_size (chunk_len (Chunk_new [lr])) size) q H -> uid ∉ H -> exists u, u ∈ H /\ u <> uid) as Hne.
  { intros q H Hq Hn. destruct (p_size _ _ _ _ Hq) as (G' & k & -> & _). exists k. split; [set_solver|]. intros ->. set_solver. }
  cbn in Hnd, Hu. apply NoDup_app in Hnd as (_ & Hdis & _).
  assert (uid ∈ G) as HuG.
  { destruct (decide (uid ∈ G)) as [|Hn]; [done|]. destruct (Hne p G Hp Hn) as (u & Hu1 & Hu2). exfalso. apply Hu2, Hu. set_solver. }
  destruct HGs as [|q H ps Gs Hq HGs].
  - exists p. split; [done|]. rewrite (p_iter _ _ _ _ Hp). unfold ids_filter. rewrite one_iter. cbn. unfold id_in, rec_in. cbn.
    by rewrite bool_decide_eq_true_2.
  - exfalso. cbn in Hu, Hdis. destruct (Hne q H Hq) as (u & Hu1 & Hu2); [intros HuH; apply (Hdis uid HuG); set_solver|].
    apply Hu2, Hu. set_solver.
Qed.

Lemma new_record : stored_record S uid = None.
Proof. pose proof (stored_record_off S mx uid HS) as Ho. rewrite Hnew in Ho. by destruct (stored_record S uid). Qed.

(** The only entry of its materialization. *)
Lemma one_entry p n c' s : chunk_iter p = [(lr, 0%nat)] -> log_steps (ops_of p) c = Some c' ->
  ledger_ok p (stored_record S) (ids_of p) n c' s -> next_offset s <= n + 1 ->
  exists m d, collect_materialized s = [m] /\ new_doc (record lr) = Some d /\ fresh_ok p uid m /\ offset_id m = n /\
    doc_of_hydrated (mkHydrated m None p) = Some d.
Proof.
  intros Hp Hsteps Hl Hn. unfold ops_of in Hsteps. rewrite Hp in Hsteps. cbn in Hsteps. unfold log_step, record_step in Hsteps. rewrite Hadd in Hsteps.
  assert (c !! uid = None) as Hcu by (rewrite (Hc uid), new_record; done). rewrite Hcu in Hsteps.
  destruct (new_doc (record lr)) as [d|] eqn:Hd; [|done]. cbn in Hsteps. injection Hsteps as <-.
  destruct (l_new _ _ _ _ _ _ Hl uid new_record) as [Hex Hfr]. rewrite put_eq in Hfr. destruct (fresh s !! uid) as [m|] eqn:Hm; [|done].
  destruct Hfr as [Hok Hst]. unfold stands in Hst. rewrite (f_operation _ _ _ Hok) in Hst. destruct Hst as (d' & [= <-] & Hdoc).
  destruct (collect_entries s) as (L & HL & ->). exists m, d.
  assert (forall x, x ∈ entries s <-> x = (uid, m)) as Hent.
  { intros [u m']. split.
    - intros Hin. apply elem_of_entries in Hin.
      assert (u ∈ ids_of p) as Hu by (apply (l_ids _ _ _ _ _ _ Hl); destruct Hin as [[Hin _]|Hin]; [left|right]; by eexists).
      rewrite elem_of_ids, Hp in Hu. cbn in Hu. apply list_elem_of_singleton in Hu as ->. destruct Hin as [[Hin _]|Hin]; congruence.
    - intros [= -> ->]. apply elem_of_entries. by right. }
  assert (L = [(uid, m)]) as ->.
  { assert (NoDup L.*1) as Hnd by (rewrite HL; by eapply entries_nodup).
    assert (forall x, x ∈ L <-> x = (uid, m)) as HLe by (intros x; by rewrite HL, Hent).
    destruct L as [|x L]; [by assert ((uid, m) ∈ []) as []%elem_of_nil by by apply HLe|].
    assert (x = (uid, m)) as -> by (apply HLe; by left). destruct L as [|y L]; [done|].
    assert (y = (uid, m)) as -> by (apply HLe; right; by left). cbn in Hnd. apply NoDup_cons in Hnd as [Hnd _]. exfalso. apply Hnd. by left. }
  pose proof (l_range _ _ _ _ _ _ Hl uid m Hm). split_and!; [done|done|done|lia|done].
Qed.

Lemma hydrate_fresh p m reader : fresh_ok p uid m -> hydrate p m reader = (Ok (mkHydrated m None p), reader).
Proof. intros Hm. unfold hydrate. by rewrite (f_exists _ _ _ Hm). Qed.

Lemma fresh_user p m : fresh_ok p uid m -> get_user_id (mkHydrated m None p) = Some uid.
Proof. intros Hm. unfold get_user_id. cbn. by destruct (f_user _ _ _ Hm) as (i & -> & l & -> & <-). Qed.

(** The compaction of one new record against a reader that has 0 for the
    maximum writes the record under the offset id 1, whatever is there. *)
Lemma lost_maximum_spec r w size f delta :
  reader_reads r S -> get_max_offset_id r = 0 -> writer_has w S -> offset_wok (max_offset_id w) -> max_new_offset_id w = 0 ->
  (forall v, offset_fit "" MAX_OFFSET_ID v) ->
  (forall d, dr_id d = uid -> Some (doc_of d) = new_doc (record lr) -> values_fit uid 1 d) ->
  compact_record_segment (Some r) w (Chunk_new [lr]) size = Ok (f, delta) ->
  exists d, dr_id d = uid /\ Some (doc_of d) = new_doc (record lr) /\ flusher_has f (rows_apply AddNew uid 1 d S) 1.
Proof.
  intros Hr Hmax Hw Hwok Hwnew Hmaxfit Hfit. unfold compact_record_segment. destruct (one_partition size) as (p & -> & Hp).
  cbn [materialize_partitions next_max_offset_id]. rewrite Hmax. change (u32_wrap (0 + 1)) with 1. unfold MaterializeLogOperator_run.
  pose proof (materialize_spec (Some r) S mx p 1 c Hr HS Hc) as Hm. rewrite Hp in Hm. cbn [length] in Hm. specialize (Hm ltac:(lia) ltac:(lia)).
  destruct (materialize_logs (Some r) p (Some 1)) as [[[res|e] r1] n1]; [|done].
  destruct Hm as (c' & s & Hsteps & Hl & Hlogs & Hiter & _ & -> & Hb).
  destruct (one_entry p 1 c' s Hp Hsteps Hl ltac:(lia)) as (m & d & Hcol & Hd & Hok & Hid & Hdoc).
  rewrite Hlogs, Hiter, Hcol. cbn [sum_deltas]. unfold st_bind. rewrite (hydrate_fresh p m r1 Hok).
  destruct (compute_logical_size_delta_bytes _) as [x|]; [|done]. cbn [sum_deltas st_ret apply_outputs output_result].
  assert (result_is_empty res = false) as ->.
  { apply not_true_is_false. unfold result_is_empty, chunk_is_empty. rewrite Nat.eqb_eq. intros He. unfold result_iter in Hiter. by rewrite He, Hcol in Hiter. }
  unfold st_bind at 1, apply_materialized_log_chunk. unfold st_bind at 1. rewrite Hlogs, Hiter, Hcol. cbn [apply_records].
  unfold st_bind at 1, on_reader at 1, st_zoom at 1, st_map_err at 1. cbn [applying_reader]. rewrite (hydrate_fresh p m r1 Hok). cbn [map_err].
  destruct (construct_spec p m None uid d (fresh_user p m Hok) Hdoc) as (dr & Hcons & Hdr & Hdoc').
  pose proof (apply_record_writes (mkHydrated m None p) uid dr (fresh_user p m Hok)) as Hwr.
  change (get_operation (mkHydrated m None p)) with (final_operation m) in *. change (get_offset_id (mkHydrated m None p)) with (offset_id m) in *.
  rewrite (f_operation _ _ _ Hok), Hid in *. specialize (Hwr ltac:(done)).
  specialize (Hwr ltac:(intros _; split; [done|]; apply Hfit; [done|by rewrite Hdoc', Hd]) w S Hw).
  unfold st_bind at 1, on_writer at 1, st_zoom at 1. cbn [applying_writer].
  destruct (apply_record (mkHydrated m None p) w) as [[[]|e] w1]; [|done]. destruct Hwr as [Hw1 (E1 & E2 & E3)].
  cbn. intros H. exists dr. split; [done|]. split; [by rewrite Hdoc', Hd|].
  set (w2 := mkRecordWriter _ _ _ _ _ _) in H.
  pose proof (commit_writer_spec w2 (rows_apply AddNew uid 1 dr S) Hw1 ltac:(cbn; by rewrite E1) Hmaxfit) as Hcommit.
  destruct (commit_writer w2) as [f'|e]; cbn in H; [|done]. injection H as <- _. specialize (Hcommit f' eq_refl).
  cbn in Hcommit. rewrite E2, Hwnew in Hcommit. exact Hcommit.
Qed.
End LostMaximum.
