(* ===== verification/Limit.v ===== *)
(** * Pages of a collection

    [rust/worker/src/execution/operators/limit.rs], which selects a page of the
    offset ids that the log and the record segment have together, what
    [filter.rs] does without a condition, and the signed bitmaps of
    [rust/types/src/signed_rbm.rs].  The crate of bitmaps is the parameter
    [Roaring], with its documented behaviour as laws.  A stream of offset ids is
    read to its end before it is scanned.

    The rest shows that the binary search for the start of the page and the
    merge of the two sources select exactly that page of the merged list
    ([Scanner]), and that without a condition the merged list has the ids of the
    collection as the log leaves it ([Live], [Whole]). *)

From stdpp Require Import sorting.
From S2P Require Import Prelude Setsum Types BTree BlockKey SparseIndex BlockDelta Block Blockfile BlockfileApi Records RecordSegment LedgerFacts RecordFacts BlockFacts CompactionFacts.

#[local] Open Scope Z_scope.
#[local] Open Scope wal_scope.

(** ** Bitmaps *)

(** [roaring::RoaringBitmap]. *)
Class Roaring := {
  RoaringBitmap : Type;
  rb_iter : RoaringBitmap -> list Z;
  rb_new : RoaringBitmap;
  rb_insert : Z -> RoaringBitmap -> RoaringBitmap;
  rb_contains : Z -> RoaringBitmap -> bool;
  (** The number of elements that are at most the argument. *)
  rb_rank : Z -> RoaringBitmap -> Z;
  rb_select : Z -> RoaringBitmap -> option Z;
  rb_max : RoaringBitmap -> option Z;
  rb_len : RoaringBitmap -> Z;
  rb_or : RoaringBitmap -> RoaringBitmap -> RoaringBitmap;
  rb_and : RoaringBitmap -> RoaringBitmap -> RoaringBitmap;
  rb_sub : RoaringBitmap -> RoaringBitmap -> RoaringBitmap;
  rb_remove_smallest : Z -> RoaringBitmap -> RoaringBitmap;
  rb_remove_biggest : Z -> RoaringBitmap -> RoaringBitmap;
  rb_collect : list Z -> RoaringBitmap;
  rb_from_sorted_iter : list Z -> option RoaringBitmap;
}.

Class RoaringLaws (RB : Roaring) : Prop := {
  rb_sorted : forall b, StronglySorted Z.lt (rb_iter b);
  rb_u32 : forall b, Forall (fun x => 0 <= x < 2 ^ 32) (rb_iter b);
  rb_new_law : rb_iter rb_new = [];
  rb_contains_law : forall x b, rb_contains x b = bool_decide (x ∈ rb_iter b);
  rb_rank_law : forall x b, rb_rank x b = Z.of_nat (length (List.filter (fun y => y <=? x) (rb_iter b)));
  rb_select_law : forall n b, 0 <= n -> rb_select n b = rb_iter b !! Z.to_nat n;
  rb_max_law : forall b, rb_max b = last (rb_iter b);
  rb_len_law : forall b, rb_len b = Z.of_nat (length (rb_iter b));
  rb_or_law : forall a b x, x ∈ rb_iter (rb_or a b) <-> x ∈ rb_iter a \/ x ∈ rb_iter b;
  rb_and_law : forall a b x, x ∈ rb_iter (rb_and a b) <-> x ∈ rb_iter a /\ x ∈ rb_iter b;
  rb_sub_law : forall a b x, x ∈ rb_iter (rb_sub a b) <-> x ∈ rb_iter a /\ x ∉ rb_iter b;
  rb_smallest_law : forall n b, 0 <= n -> rb_iter (rb_remove_smallest n b) = drop (Z.to_nat n) (rb_iter b);
  rb_biggest_law : forall n b, 0 <= n -> rb_iter (rb_remove_biggest n b) = take (length (rb_iter b) - Z.to_nat n) (rb_iter b);
  rb_insert_law : forall x b y, 0 <= x < 2 ^ 32 -> y ∈ rb_iter (rb_insert x b) <-> y = x \/ y ∈ rb_iter b;
  rb_collect_law : forall l x, Forall (fun x => 0 <= x < 2 ^ 32) l -> x ∈ rb_iter (rb_collect l) <-> x ∈ l;
  rb_from_sorted_law : forall l, Forall (fun x => 0 <= x < 2 ^ 32) l -> StronglySorted Z.lt l -> exists b, rb_from_sorted_iter l = Some b /\ rb_iter b = l;
}.

(** ** Signed bitmaps *)

Section Signed.
Context {RB : Roaring}.

Inductive SignedRoaringBitmap :=
| Include (rbm : RoaringBitmap)
| Exclude (rbm : RoaringBitmap).

Definition signed_empty : SignedRoaringBitmap := Include rb_new.
Definition signed_full : SignedRoaringBitmap := Exclude rb_new.

Definition signed_contains (value : Z) (b : SignedRoaringBitmap) : bool :=
  match b with
  | Include rbm => rb_contains value rbm
  | Exclude rbm => negb (rb_contains value rbm)
  end.

Definition flip (b : SignedRoaringBitmap) : SignedRoaringBitmap :=
  match b with Include rbm => Exclude rbm | Exclude rbm => Include rbm end.

Definition bitand (a b : SignedRoaringBitmap) : SignedRoaringBitmap :=
  match a, b with
  | Include lhs, Include rhs => Include (rb_and lhs rhs)
  | Include lhs, Exclude rhs => Include (rb_sub lhs rhs)
  | Exclude lhs, Include rhs => Include (rb_sub rhs lhs)
  | Exclude lhs, Exclude rhs => Exclude (rb_or lhs rhs)
  end.

Definition bitor (a b : SignedRoaringBitmap) : SignedRoaringBitmap :=
  match a, b with
  | Include lhs, Include rhs => Include (rb_or lhs rhs)
  | Include lhs, Exclude rhs => Exclude (rb_sub rhs lhs)
  | Exclude lhs, Include rhs => Exclude (rb_sub lhs rhs)
  | Exclude lhs, Exclude rhs => Exclude (rb_and lhs rhs)
  end.
End Signed.

(** ** The operator *)

Inductive LimitError :=
| LimitLogMaterializer (e : LogMaterializerError)
| LimitOutOfBound
| LimitRecordReader (e : RecordSegmentReaderCreationError)
| LimitRecordSegment (e : SegmentError)
| LimitPanic.

Section Limit.
Context {RB : Roaring} {SR : SegmentReaders} {HO : HashOrder}.

(** [SeekScanner]; the record segment is the state. *)
Record SeekScanner := mkSeekScanner {
  log_offset_ids : RoaringBitmap;
  scan_mask : RoaringBitmap;
}.

Definition Scans (A : Type) : Type := ST RecordSegmentReader LimitError A.

Definition rank_below (target : Z) (b : RoaringBitmap) : Z := rb_rank target b - Z.b2z (rb_contains target b).

Definition joint_rank (sc : SeekScanner) (target : Z) : Scans Z :=
  let log_rank := rank_below target (log_offset_ids sc) in
  let* record_rank := st_map_err LimitRecordSegment (get_offset_id_rank target) in
  let mask_rank := rank_below target (scan_mask sc) in
  st_ret (u64_wrap (log_rank + record_rank - mask_rank)).

(** The loop of [seek_starting_offset]: [size] is halved in each turn, and it has
    32 bits. *)
Fixpoint seek_loop (fuel : nat) (sc : SeekScanner) (offset base size : Z) : Scans Z :=
  match fuel with
  | O => st_ret base
  | S fuel =>
      if 1 <? size then
        let half := size / 2 in
        let mid := base + half in
        let* rank := joint_rank sc mid in
        seek_loop fuel sc offset (if offset <? rank then base else mid) (size - half)
      else st_ret base
  end.

Definition seek_starting_offset (sc : SeekScanner) (offset : Z) : Scans Z :=
  if offset =? 0 then st_ret 0 else
  let* reader := st_get in
  let size := Z.max (get_max_offset_id reader) (default 0 (rb_max (log_offset_ids sc))) in
  if size =? 0 then st_ret 0 else
  let* base := seek_loop 33 sc offset 0 size in
  let* rank := joint_rank sc base in
  st_ret (base + Z.b2z (rank <? offset)).

Definition select_log (sc : SeekScanner) (log_index : Z) : result (option Z) LimitError :=
  if log_index <? 2 ^ 32 then Ok (rb_select log_index (log_offset_ids sc)) else Err LimitOutOfBound.

(** The loop of [seek_and_scan]; every turn takes an offset id from one of the
    two sources. *)
Fixpoint scan_loop (fuel : nat) (sc : SeekScanner) (limit log_index : Z) (log_offset_id : option Z) (records : list Z) : result (list Z) LimitError :=
  match fuel with
  | O => Ok []
  | S fuel =>
      if limit =? 0 then Ok [] else
      match log_offset_id, records with
      | None, [] => Ok []
      | Some oid, [] =>
          let? next := select_log sc (log_index + 1) in
          let? rest := scan_loop fuel sc (limit - 1) (log_index + 1) next [] in
          Ok (oid :: rest)
      | _, record_oid :: records' =>
          if rb_contains record_oid (scan_mask sc) then scan_loop fuel sc limit log_index log_offset_id records' else
          match log_offset_id with
          | None =>
              let? rest := scan_loop fuel sc (limit - 1) log_index None records' in
              Ok (record_oid :: rest)
          | Some log_oid =>
              if log_oid <? record_oid then
                let? next := select_log sc (log_index + 1) in
                let? rest := scan_loop fuel sc (limit - 1) (log_index + 1) next records in
                Ok (log_oid :: rest)
              else
                let? rest := scan_loop fuel sc (limit - 1) log_index log_offset_id records' in
                Ok (record_oid :: rest)
          end
      end
  end.

Definition scan_fuel (sc : SeekScanner) (records : list Z) : nat :=
  S (length records + Z.to_nat (rb_len (log_offset_ids sc))).

Definition lift_result {A} (r : result A LimitError) : Scans A := fun s => (r, s).

Definition seek_and_scan (sc : SeekScanner) (offset limit : Z) : Scans RoaringBitmap :=
  let* starting_offset := seek_starting_offset sc offset in
  let log_index := rank_below starting_offset (log_offset_ids sc) in
  let* log_offset_id := lift_result (select_log sc log_index) in
  let* records := st_map_err LimitRecordSegment (get_offset_stream (Included starting_offset) Unbounded) in
  let* merged := lift_result (scan_loop (scan_fuel sc records) sc limit log_index log_offset_id records) in
  match rb_from_sorted_iter merged with
  | Some b => st_ret b
  | None => st_fail LimitPanic
  end.

(** The offset ids of the log that match. *)
Definition materialized_log_offset_ids (reader : option RecordSegmentReader) (logs : Chunk LogRecord) (b : SignedRoaringBitmap) :
    result RoaringBitmap LimitError * option RecordSegmentReader :=
  match b with
  | Include rbm => (Ok rbm, reader)
  | Exclude rbm =>
      match materialize_logs reader logs None with
      | (Err e, reader, _) => (Err (LimitLogMaterializer e), reader)
      | (Ok res, reader, _) =>
          let active := List.filter (fun m => negb (bool_decide (final_operation m = DeleteExisting))) (result_iter res) in
          (Ok (rb_sub (rb_collect (offset_id <$> active)) rbm), reader)
      end
  end.

(** The page of the offset ids of the log and of the segment. *)
Definition select_page (reader : option RecordSegmentReader) (log_ids : RoaringBitmap) (compact : SignedRoaringBitmap)
    (offset : Z) (limit : option Z) : result RoaringBitmap LimitError :=
  match compact with
  | Include rbm =>
      let merged := rb_remove_smallest offset (rb_or log_ids rbm) in
      match limit with
      | Some limit_count =>
          let truncated_limit_count := Z.min (rb_len merged) limit_count in
          Ok (rb_remove_biggest (rb_len merged - truncated_limit_count) merged)
      | None => Ok merged
      end
  | Exclude rbm =>
      match reader with
      | Some r =>
          match st_map_err LimitRecordSegment reader_record_count r with
          | (Err e, _) => Err e
          | (Ok record_count, r) =>
              let filter_match_count := u64_wrap (rb_len log_ids + record_count - rb_len rbm) in
              let truncated_offset := Z.min offset filter_match_count in
              let truncated_limit := Z.min (default (2 ^ 32 - 1) limit) (filter_match_count - truncated_offset) in
              fst (seek_and_scan (mkSeekScanner log_ids rbm) truncated_offset truncated_limit r)
          end
      | None =>
          let rest := rb_remove_smallest offset log_ids in
          match limit with
          | Some limit_count => Ok (rb_collect (take (Z.to_nat limit_count) (rb_iter rest)))
          | None => Ok rest
          end
      end
  end.

(** What [Limit::run] does with the reader. *)
Definition limit_page (reader : option RecordSegmentReader) (logs : Chunk LogRecord) (log_ids compact : SignedRoaringBitmap)
    (offset : Z) (limit : option Z) : result RoaringBitmap LimitError :=
  let '(ids, reader) := materialized_log_offset_ids reader logs log_ids in
  let? ids := ids in
  select_page reader ids compact offset limit.

(** [Limit::run]. *)
Definition Limit_run {UU : Uuids} {RP : ReadProvider SR} (segment : Segment) (logs : Chunk LogRecord) (log_ids compact : SignedRoaringBitmap)
    (offset : Z) (limit : option Z) : result RoaringBitmap LimitError :=
  match Reader_from_segment segment with
  | Ok reader => limit_page (Some reader) logs log_ids compact offset limit
  | Err UninitializedSegment => limit_page None logs log_ids compact offset limit
  | Err e => Err (LimitRecordReader e)
  end.

(** The loop of [MetadataLogReader::create], as far as it concerns
    [updated_offset_ids], the records it hydrates, and what it can panic on. *)
Fixpoint touch_logs (logs : Chunk LogRecord) (l : list MaterializedLogRecord) (updated_offset_ids : RoaringBitmap) :
    ST (option RecordSegmentReader) LogMaterializerError RoaringBitmap :=
  match l with
  | [] => st_ret updated_offset_ids
  | m :: l =>
      let updated_offset_ids :=
        match final_operation m with
        | Initial | AddNew => updated_offset_ids
        | _ => rb_insert (offset_id m) updated_offset_ids
        end in
      match final_operation m with
      | DeleteExisting => touch_logs logs l updated_offset_ids
      | _ =>
          let* h := hydrate logs m in
          match get_user_id h, merged_document_ref h with
          | Some _, Some _ => touch_logs logs l updated_offset_ids
          | _, _ => st_fail MaterializerPanic
          end
      end
  end.

(** [Filter::run] without a condition: what matches in the log, and what
    matches in the segment. *)
Definition filter_none_given (reader : option RecordSegmentReader) (logs : Chunk LogRecord) :
    result (SignedRoaringBitmap * SignedRoaringBitmap) LogMaterializerError :=
  match materialize_logs reader logs None with
  | (Err e, _, _) => Err e
  | (Ok res, _, _) =>
      match touch_logs logs (result_iter res) rb_new reader with
      | (Err e, _) => Err e
      | (Ok updated_offset_ids, _) => Ok (signed_full, bitand signed_full (Exclude updated_offset_ids))
      end
  end.
End Limit.

(** ** Signed bitmaps as predicates *)

Section SignedLaws.
Context {RB : Roaring} {RL : RoaringLaws RB}.

Lemma signed_contains_empty x : signed_contains x signed_empty = false /\ signed_contains x signed_full = true.
Proof. cbn. rewrite rb_contains_law, rb_new_law, bool_decide_false by (by intros ?%elem_of_nil). done. Qed.

Lemma signed_contains_flip x a : signed_contains x (flip a) = negb (signed_contains x a).
Proof. destruct a; cbn; by rewrite ?negb_involutive. Qed.

Lemma signed_contains_bitand x a b : signed_contains x (bitand a b) = signed_contains x a && signed_contains x b.
Proof.
  apply eq_true_iff_eq. destruct a, b; cbn; rewrite ?andb_true_iff, ?negb_true_iff, !rb_contains_law, ?bool_decide_eq_true, ?bool_decide_eq_false;
    rewrite ?rb_and_law, ?rb_sub_law, ?rb_or_law; tauto.
Qed.

Lemma signed_contains_bitor x a b : signed_contains x (bitor a b) = signed_contains x a || signed_contains x b.
Proof.
  apply eq_true_iff_eq. destruct a, b; cbn; rewrite ?orb_true_iff, ?negb_true_iff, !rb_contains_law, ?bool_decide_eq_true, ?bool_decide_eq_false;
    rewrite ?rb_and_law, ?rb_sub_law, ?rb_or_law; try tauto; destruct (decide (x ∈ rb_iter rbm)), (decide (x ∈ rb_iter rbm0)); tauto.
Qed.
End SignedLaws.

(** ** Sorted lists of numbers *)

(** The number of elements below [t]. *)
Definition below (t : Z) (l : list Z) : nat := length (List.filter (fun y => y <? t) l).

Lemma below_perm t l1 l2 : l1 ≡ₚ l2 -> below t l1 = below t l2.
Proof.
  unfold below. induction 1 as [|x l1 l2 _ IH|x y l|l1 l2 l3 _ IH1 _ IH2]; cbn; [done| | |congruence].
  - destruct (x <? t); cbn; congruence.
  - by destruct (x <? t), (y <? t).
Qed.

Lemma below_app t l1 l2 : below t (l1 ++ l2) = (below t l1 + below t l2)%nat.
Proof. unfold below. by rewrite List.filter_app, length_app. Qed.

Lemma below_mono t t' l : t <= t' -> (below t l <= below t' l)%nat.
Proof.
  intros Ht. unfold below. induction l as [|x l IH]; cbn; [done|]. destruct (Z.ltb_spec x t), (Z.ltb_spec x t'); cbn; lia.
Qed.

Lemma below_le t l : (below t l <= length l)%nat.
Proof. apply List.filter_length_le. Qed.

Lemma sorted_lt_nodup l : StronglySorted Z.lt l -> NoDup l.
Proof.
  induction 1 as [|x l _ IH Hx]; [constructor|]. constructor; [|done]. intros Hin. rewrite Forall_forall in Hx. apply Hx in Hin. lia.
Qed.

Lemma sorted_lt_le l : StronglySorted Z.lt l -> StronglySorted Z.le l.
Proof. induction 1 as [|x l _ IH Hx]; constructor; [done|]. eapply Forall_impl; [exact Hx|]. cbn. lia. Qed.

Lemma same_sorted_ids l1 l2 : StronglySorted Z.lt l1 -> StronglySorted Z.lt l2 -> (forall x, x ∈ l1 <-> x ∈ l2) -> l1 = l2.
Proof.
  intros H1 H2 Heq. eapply (StronglySorted_unique Z.le); [by apply sorted_lt_le|by apply sorted_lt_le|].
  apply NoDup_Permutation; [by apply sorted_lt_nodup|by apply sorted_lt_nodup|done].
Qed.

Lemma sorted_filter (P : Z -> bool) l : StronglySorted Z.lt l -> StronglySorted Z.lt (List.filter P l).
Proof.
  induction 1 as [|x l _ IH Hx]; cbn; [constructor|]. destruct (P x); [|done]. constructor; [done|].
  apply Forall_forall. intros y [Hy _]%list_elem_of_In%List.filter_In. rewrite Forall_forall in Hx. by apply Hx, list_elem_of_In.
Qed.

Lemma sorted_drop n l : StronglySorted Z.lt l -> StronglySorted Z.lt (drop n l).
Proof. intros Hs. revert n. induction Hs as [|x l Hs IH Hx]; intros [|n]; cbn; [constructor..|by constructor|apply IH]. Qed.

Lemma sorted_take n l : StronglySorted Z.lt l -> StronglySorted Z.lt (take n l).
Proof.
  intros Hs. revert n. induction Hs as [|x l Hs IH Hx]; intros [|n]; cbn; [constructor..|]. constructor; [apply IH|]. by apply Forall_take.
Qed.

(** One step further there is at most one element more. *)
Lemma below_succ t l : NoDup l -> (below (t + 1) l <= S (below t l))%nat.
Proof.
  unfold below. induction 1 as [|x l Hx Hnd IH]; cbn; [lia|].
  destruct (Z.ltb_spec x (t + 1)), (Z.ltb_spec x t); cbn; try lia. assert (x = t) as -> by lia.
  enough (List.filter (fun y => y <? t + 1) l = List.filter (fun y => y <? t) l) as -> by lia.
  apply List.filter_ext_in. intros y Hy%list_elem_of_In. destruct (Z.ltb_spec y (t + 1)), (Z.ltb_spec y t); try done; try lia.
  exfalso. assert (y = t) as -> by lia. done.
Qed.

(** The elements from [t] on. *)
Lemma drop_below t l : StronglySorted Z.lt l -> drop (below t l) l = List.filter (fun y => t <=? y) l.
Proof.
  unfold below. induction 1 as [|x l Hs IH Hx]; cbn; [done|]. destruct (Z.ltb_spec x t), (Z.leb_spec t x); try lia; cbn; [done|].
  assert (forall y, y ∈ l -> (y <? t) = false /\ (t <=? y) = true) as Hl.
  { intros y Hy. rewrite Forall_forall in Hx. apply Hx in Hy. split; [apply Z.ltb_ge|apply Z.leb_le]; lia. }
  rewrite filter_none, filter_all; [done|apply Forall_forall; intros y Hy; by apply Hl|apply Forall_forall; intros y Hy; by apply Hl].
Qed.

Lemma below_all t l : Forall (fun x => x < t) l -> below t l = length l.
Proof. intros Hl. unfold below. rewrite filter_all; [done|]. eapply Forall_impl; [exact Hl|]. intros y. by rewrite Z.ltb_lt. Qed.

Lemma below_zero l : Forall (Z.le 0) l -> below 0 l = 0%nat.
Proof. intros Hl. unfold below. rewrite filter_none; [done|]. eapply Forall_impl; [exact Hl|]. intros y. by rewrite Z.ltb_ge. Qed.

Lemma sorted_le_lt l : StronglySorted Z.le l -> NoDup l -> StronglySorted Z.lt l.
Proof.
  induction 1 as [|x l _ IH Hx]; [constructor|]. intros [Hn Hnd]%NoDup_cons. constructor; [by apply IH|].
  rewrite Forall_forall in Hx |- *. intros y Hy. specialize (Hx y Hy). assert (x <> y) by (intros ->; done). lia.
Qed.

(** The elements of two sorted lists in order. *)
Definition merged (l r : list Z) : list Z := list_merge Z.le l r.

Lemma merged_perm l r : merged l r ≡ₚ l ++ r.
Proof. apply merge_Permutation. Qed.

Lemma merged_sorted l r : StronglySorted Z.lt l -> StronglySorted Z.lt r -> (forall x, x ∈ l -> x ∉ r) -> StronglySorted Z.lt (merged l r).
Proof.
  intros Hl Hr Hd. apply sorted_le_lt.
  - apply Sorted_StronglySorted; [intros a b c; lia|]. apply Sorted_list_merge; [intros a b; lia|..]; by apply StronglySorted_Sorted, sorted_lt_le.
  - rewrite merged_perm. apply NoDup_app. split_and!; [by apply sorted_lt_nodup|done|by apply sorted_lt_nodup].
Qed.

(** ** The rows of the segment *)

Definition segment_ids (S : SegmentRows) : list Z := (fun x => u32_value (key x.1)) <$> user_rows S.

(** Every row has the prefix that the segment uses. *)
Definition plain (S : SegmentRows) : Prop := Forall (fun x => prefix x.1 = ""%string) (user_rows S).

Section SegmentIds.
Context (S : SegmentRows) (mx : Z) (HS : segment_ok S mx) (Hplain : plain S).

Lemma segment_ids_sorted : StronglySorted Z.lt (segment_ids S).
Proof.
  destruct (s_sorted S mx HS) as (_ & Hs & _). unfold segment_ids, plain in *. induction (user_rows S) as [|[k v] m IH]; cbn; [constructor|].
  apply bt_sorted_cons in Hs as [Hk Hs]. apply Forall_cons in Hplain as [Hp Hm]. constructor; [by apply IH|].
  apply Forall_fmap, Forall_forall. intros [k' v'] Hin. apply (proj1 (Forall_forall _ _) Hk) in Hin as Hlt. apply (proj1 (Forall_forall _ _) Hm) in Hin as Hp'. cbn in *.
  apply composite_lt in Hlt as [Hlt|[_ Hlt]]; [rewrite Hp, Hp', cmp_refl in Hlt; done|]. unfold cmp, u32_ordered in Hlt. by apply Z.compare_lt_iff.
Qed.

Lemma segment_ids_elem oid : oid ∈ segment_ids S <-> exists uid, usr S oid = Some uid.
Proof.
  destruct (s_sorted S mx HS) as (_ & Hs & _). unfold segment_ids, usr. rewrite list_elem_of_fmap. split.
  - intros ([[p [o]] uid] & -> & Hin). pose proof Hplain as Hp. unfold plain in Hp. rewrite Forall_forall in Hp. specialize (Hp _ Hin). cbn in *. subst p.
    exists uid. by apply bt_get_elem.
  - intros [uid Hu]. apply bt_get_elem in Hu; [|done]. by exists (mkCompositeKey "" (mkU32 oid), uid).
Qed.

Lemma segment_ids_bound oid : oid ∈ segment_ids S -> 0 <= oid <= mx.
Proof. intros [uid Hu]%segment_ids_elem. apply (s_bijection S mx HS), (s_bound S mx HS) in Hu. lia. Qed.

Lemma segment_rank t :
  length (List.filter (fun x => ltb x.1 (mkCompositeKey "" (mkU32 t))) (user_rows S)) = below t (segment_ids S).
Proof.
  unfold segment_ids, below, plain in *. induction (user_rows S) as [|[k v] m IH]; cbn; [done|]. apply Forall_cons in Hplain as [Hp Hm]. cbn in Hp.
  assert (ltb k (mkCompositeKey "" (mkU32 t)) = (u32_value (key k) <? t)) as ->.
  { rewrite ltb_composite by (rewrite Hp; reflexivity). unfold ltb, cmp. cbn. unfold u32_ordered, Z.ltb. cbn. by destruct (u32_value (key k) ?= t). }
  specialize (IH Hm). destruct (u32_value (key k) <? t); cbn; congruence.
Qed.

Lemma segment_from t :
  (fun x => u32_value (key x.1)) <$> List.filter (fun x => in_bounds (Included ""%string) (Included ""%string) (prefix x.1) && in_bounds (Included (mkU32 t)) Unbounded (key x.1)) (user_rows S) =
  List.filter (fun y => t <=? y) (segment_ids S).
Proof.
  unfold segment_ids, plain in *. induction (user_rows S) as [|[k v] m IH]; cbn [List.filter fmap list_fmap fst]; [done|]. apply Forall_cons in Hplain as [Hp Hm]. cbn in Hp.
  assert (in_bounds (Included ""%string) (Included ""%string) (prefix k) && in_bounds (Included (mkU32 t)) Unbounded (key k) = (t <=? u32_value (key k))) as ->.
  { rewrite Hp. unfold in_bounds, leb, cmp. cbn. unfold u32_ordered, Z.leb. cbn. by destruct (t ?= u32_value (key k)). }
  specialize (IH Hm). destruct (t <=? u32_value (key k)); cbn; congruence.
Qed.
End SegmentIds.

Lemma sorted_length n l : StronglySorted Z.lt l -> Forall (fun x => 0 <= x < n) l -> Z.of_nat (length l) <= Z.max 0 n.
Proof.
  intros Hs Hl. assert (length l <= length (seqZ 0 n))%nat as Hle; [|rewrite length_seqZ in Hle; lia].
  apply submseteq_length, NoDup_submseteq; [by apply sorted_lt_nodup|]. intros x Hx. rewrite Forall_forall in Hl. apply Hl in Hx. apply elem_of_seqZ. lia.
Qed.

(** ** The scanner *)

(** The page of a list. *)
Definition page (offset : Z) (limit : option Z) (l : list Z) : list Z :=
  match limit with
  | Some n => take (Z.to_nat n) (drop (Z.to_nat offset) l)
  | None => drop (Z.to_nat offset) l
  end.

(** A blockfile of the segment could not be read. *)
Definition limit_storage_error (e : LimitError) : Prop := exists b, e = LimitRecordSegment (BoxedBlockfileError b).

Section Scanner.
Context {RB : Roaring} {RL : RoaringLaws RB} {SR : SegmentReaders} {SL : SegmentReadersLaws SR}.
Context (S : SegmentRows) (mx : Z) (HS : segment_ok S mx) (Hplain : plain S) (Hmx : 0 <= mx < 2 ^ 32 - 1).

Lemma rank_below_spec t b : rank_below t b = Z.of_nat (below t (rb_iter b)).
Proof.
  unfold rank_below, below. rewrite rb_rank_law, rb_contains_law. pose proof (sorted_lt_nodup _ (rb_sorted b)) as Hnd.
  induction Hnd as [|x l Hx Hnd IH]; cbn; [done|]. destruct (decide (x = t)) as [->|Hne].
  - rewrite Z.leb_refl, Z.ltb_irrefl, bool_decide_true by set_solver. rewrite bool_decide_false in IH by done. cbn in *. lia.
  - rewrite (bool_decide_ext (t ∈ x :: l) (t ∈ l)) by set_solver. destruct (Z.leb_spec x t), (Z.ltb_spec x t); cbn [length] in *; lia.
Qed.

Lemma user_read_spec {A} (c : ST user_reader BlockfileError A) (Q : A -> Prop) :
  (forall x, user_reads x (user_rows S) -> match c x with
                                           | (Ok a, x') => Q a /\ user_reads x' (user_rows S)
                                           | (Err _, x') => user_reads x' (user_rows S)
                                           end) -> seg_reads S (on_users c) Q.
Proof.
  intros Hc r (H1 & H2 & H3). specialize (Hc _ H2). unfold on_users, st_zoom, st_map_err. destruct (c (rd_id_to_user_id r)) as [[a|e] x]; cbn.
  - destruct Hc as [Ha Hx]. by split_and!.
  - split; [by eexists|]. by split_and!.
Qed.

Lemma segment_ids_length : length (user_rows S) = length (segment_ids S) /\ Z.of_nat (length (segment_ids S)) < 2 ^ 32.
Proof.
  split; [symmetry; apply length_fmap|]. pose proof (sorted_length (mx + 1) (segment_ids S) (segment_ids_sorted S mx HS Hplain)) as Hl.
  rewrite Forall_forall in Hl. specialize (Hl ltac:(intros x Hx%(segment_ids_bound S mx HS Hplain); lia)). lia.
Qed.

(** A computation of the scanner that returns [Q], unless a blockfile cannot be
    read. *)
Definition scans {A} (c : Scans A) (Q : A -> Prop) : Prop :=
  forall r, reader_reads r S -> rd_max_offset_id r = mx ->
    match c r with
    | (Ok a, r') => Q a /\ reader_reads r' S /\ rd_max_offset_id r' = mx
    | (Err e, _) => limit_storage_error e
    end.

Lemma scans_ret {A} (a : A) (Q : A -> Prop) : Q a -> scans (st_ret a) Q.
Proof. by intros Ha r Hr Hm. Qed.

Lemma scans_bind {A B} (c : Scans A) (f : A -> Scans B) P Q : scans c P -> (forall a, P a -> scans (f a) Q) -> scans (st_bind c f) Q.
Proof.
  intros Hc Hf r Hr Hm. unfold st_bind. specialize (Hc r Hr Hm). destruct (c r) as [[a|e] r1]; [|done]. destruct Hc as (Ha & Hr1 & Hm1). by apply Hf.
Qed.

Lemma scans_read {A} (c : Reads A) Q : seg_reads S c Q -> scans (st_map_err LimitRecordSegment c) Q.
Proof.
  intros Hc r Hr Hm. unfold st_map_err. specialize (Hc r Hr). destruct (c r) as [[a|e] r1]; cbn.
  - destruct Hc as (Ha & Hr1 & He). split_and!; [done..|congruence].
  - destruct Hc as [(b & ->) _]. by exists b.
Qed.

Lemma scans_lift {A} (x : result A LimitError) a (Q : A -> Prop) : x = Ok a -> Q a -> scans (lift_result x) Q.
Proof. by intros -> Ha r Hr Hm. Qed.

Lemma scans_get (Q : RecordSegmentReader -> Prop) : (forall r, rd_max_offset_id r = mx -> Q r) -> scans st_get Q.
Proof. intros HQ r Hr Hm. split; [by apply HQ|done]. Qed.

Lemma offset_id_rank_reads t : seg_reads S (get_offset_id_rank t) (fun n => n = Z.of_nat (below t (segment_ids S))).
Proof.
  apply user_read_spec. intros x Hx. destruct segment_ids_length as [Hl Hl']. rewrite <- Hl in Hl'. pose proof (api_rank_law ""%string (mkU32 t) x _ Hx Hl') as Hr.
  destruct (api_rank "" (mkU32 t) x) as [[n|e] x']; [|done]. destruct Hr as [-> Hr]. by rewrite segment_rank.
Qed.

Lemma segment_count_reads : seg_reads S reader_record_count (fun n => n = Z.of_nat (length (segment_ids S))).
Proof.
  apply user_read_spec. intros x Hx. destruct segment_ids_length as [Hl Hl']. rewrite <- Hl in Hl' |- *. pose proof (api_count_law x _ Hx Hl') as Hr.
  by destruct (api_count x) as [[n|e] x'].
Qed.

Lemma offset_stream_reads t : seg_reads S (get_offset_stream (Included t) Unbounded) (fun l => l = List.filter (fun y => t <=? y) (segment_ids S)).
Proof.
  unfold get_offset_stream. eapply seg_reads_bind; [apply user_read_spec|].
  - intros x Hx. pose proof (api_get_range_law (Included ""%string) (Included ""%string) (Included (mkU32 t)) Unbounded x _ Hx) as Hr. cbn [as_u32].
    destruct (api_get_range _ _ _ _ x) as [[n|e] x']; [|done]. exact Hr.
  - intros rows ->. apply seg_reads_ret. by apply segment_from.
Qed.

Section Joint.
Context (sc : SeekScanner).
Let L := rb_iter (log_offset_ids sc).
Let M := rb_iter (scan_mask sc).
Let R := segment_ids S.
(** The mask has ids of the segment, among them those that the log has too. *)
Context (HM : forall x, x ∈ M -> x ∈ R) (HD : forall x, x ∈ L -> x ∈ R -> x ∈ M) (HL : Forall (fun x => x < 2 ^ 32 - 1) L).

Definition unmasked (l : list Z) : list Z := List.filter (fun x => negb (rb_contains x (scan_mask sc))) l.

(** The ids of both. *)
Definition joint : list Z := merged L (unmasked R).

Lemma unmasked_elem l x : x ∈ unmasked l <-> x ∈ l /\ x ∉ M.
Proof. unfold unmasked. rewrite !list_elem_of_In, List.filter_In, <- !list_elem_of_In, rb_contains_law. by rewrite negb_true_iff, bool_decide_eq_false. Qed.

Lemma joint_elem x : x ∈ joint <-> x ∈ L \/ (x ∈ R /\ x ∉ M).
Proof. unfold joint. by rewrite merged_perm, elem_of_app, unmasked_elem. Qed.

Lemma joint_sorted : StronglySorted Z.lt joint.
Proof.
  apply merged_sorted; [apply rb_sorted|by eapply sorted_filter, segment_ids_sorted|]. intros x Hx [Hr Hm]%unmasked_elem. by apply Hm, HD.
Qed.

Lemma joint_range x : x ∈ joint -> 0 <= x < 2 ^ 32 - 1.
Proof.
  pose proof (rb_u32 (log_offset_ids sc)) as Hu. rewrite Forall_forall in HL, Hu. intros [Hx|[Hx _]]%joint_elem.
  - specialize (HL x Hx). specialize (Hu x Hx). cbn in *. lia.
  - apply (segment_ids_bound S mx HS Hplain) in Hx. lia.
Qed.

Lemma mask_split : R ≡ₚ M ++ unmasked R.
Proof.
  apply NoDup_Permutation; [by eapply sorted_lt_nodup, segment_ids_sorted| |].
  - apply NoDup_app. split_and!; [apply sorted_lt_nodup, rb_sorted|by intros x Hx [_ Hn]%unmasked_elem|].
    by eapply sorted_lt_nodup, sorted_filter, segment_ids_sorted.
  - intros x. rewrite elem_of_app, unmasked_elem. destruct (decide (x ∈ M)) as [Hm|Hm]; [|tauto]. pose proof (HM x Hm). tauto.
Qed.

Lemma joint_length : (length joint + length M = length L + length R)%nat /\ Z.of_nat (length joint) < 2 ^ 32.
Proof.
  split.
  - rewrite mask_split at 1. unfold joint. rewrite merged_perm, !length_app. lia.
  - pose proof (sorted_length (2 ^ 32 - 1) joint joint_sorted) as Hl. rewrite Forall_forall in Hl. specialize (Hl joint_range). lia.
Qed.

Lemma log_length : Z.of_nat (length L) < 2 ^ 32.
Proof. destruct joint_length as [H1 H2]. pose proof (Permutation_length (merged_perm L (unmasked R))) as Hp. rewrite length_app in Hp. fold joint in Hp. lia. Qed.

Lemma joint_rank_spec t : scans (joint_rank sc t) (fun n => n = Z.of_nat (below t joint)).
Proof.
  unfold joint_rank. eapply scans_bind; [apply scans_read, offset_id_rank_reads|]. intros n ->. apply scans_ret. rewrite !rank_below_spec. fold L M R.
  assert (below t R = below t M + below t (unmasked R))%nat as HR by (rewrite (below_perm t _ _ mask_split); apply below_app).
  assert (below t joint = below t L + below t (unmasked R))%nat as HJ by (unfold joint; rewrite (below_perm t _ _ (merged_perm L _)); apply below_app).
  pose proof (below_le t joint). destruct joint_length as [_ Hj]. unfold u64_wrap. rewrite Z.mod_small; lia.
Qed.

(** The largest id. *)
Definition top : Z := Z.max mx (default 0 (rb_max (log_offset_ids sc))).

Lemma last_is_max l x : StronglySorted Z.lt l -> x ∈ l -> exists y, last l = Some y /\ x <= y.
Proof.
  intros Hs. revert x. induction Hs as [|a l Hs IH Ha]; intros x; [by intros ?%elem_of_nil|]. destruct l as [|b l].
  - intros [->|?%elem_of_nil]%elem_of_cons; [|done]. exists a. split; [done|lia].
  - rewrite last_cons_cons. intros [->|Hx]%elem_of_cons; [|by apply IH]. destruct (IH b ltac:(by left)) as (y & Hy & Hle). exists y. split; [done|].
    apply Forall_inv in Ha. lia.
Qed.

Lemma joint_top x : x ∈ joint -> x <= top.
Proof.
  unfold top. rewrite rb_max_law. fold L. intros [Hx|[Hx _]]%joint_elem.
  - destruct (last_is_max L x (rb_sorted _) Hx) as (y & -> & Hle). cbn. lia.
  - apply (segment_ids_bound S mx HS Hplain) in Hx. lia.
Qed.

Lemma top_range : 0 <= top < 2 ^ 32 - 1.
Proof.
  unfold top. rewrite rb_max_law. fold L. destruct (last L) as [y|] eqn:Hy; cbn; [|lia]. apply last_Some_elem_of in Hy. rewrite Forall_forall in HL.
  apply HL in Hy. lia.
Qed.

(** The binary search: [offset] ids or fewer are below the result, and more than
    that below the next, unless it is the largest. *)
Lemma seek_loop_spec fuel offset : 0 <= offset -> forall base size, 0 <= base -> 0 < size <= 2 ^ Z.of_nat fuel -> base + size <= top ->
  Z.of_nat (below base joint) <= offset -> base + size = top \/ offset < Z.of_nat (below (base + size) joint) ->
  scans (seek_loop fuel sc offset base size) (fun b => 0 <= b /\ b < top /\ Z.of_nat (below b joint) <= offset /\
    (b + 1 = top \/ offset < Z.of_nat (below (b + 1) joint))).
Proof.
  intros Ho. induction fuel as [|fuel IH]; intros base size Hb Hs Ht Hlo Hhi; cbn [seek_loop].
  - assert (size = 1) as -> by lia. apply scans_ret. split_and!; [lia..|done].
  - destruct (Z.ltb_spec 1 size).
    + eapply scans_bind; [apply joint_rank_spec|]. intros rank ->. rewrite Nat2Z.inj_succ, Z.pow_succ_r in Hs by lia.
      pose proof (Z.div_mod size 2 ltac:(lia)). pose proof (Z.mod_pos_bound size 2 ltac:(lia)).
      destruct (Z.ltb_spec offset (Z.of_nat (below (base + size / 2) joint))).
      * apply IH; [lia..|done|right]. pose proof (below_mono (base + size / 2) (base + (size - size / 2)) joint ltac:(lia)). lia.
      * apply IH; [lia..|]. by replace (base + size / 2 + (size - size / 2)) with (base + size) by lia.
    + assert (size = 1) as -> by lia. apply scans_ret. split_and!; [lia..|done].
Qed.

Lemma seek_spec offset : 0 <= offset < Z.of_nat (length joint) ->
  scans (seek_starting_offset sc offset) (fun start => Z.of_nat (below start joint) = offset).
Proof.
  intros Ho. unfold seek_starting_offset. destruct (Z.eqb_spec offset 0) as [->|Hne].
  { apply scans_ret. rewrite below_zero; [done|]. apply Forall_forall. intros x Hx%joint_range. lia. }
  eapply scans_bind; [apply (scans_get (fun r => rd_max_offset_id r = mx)); done|]. intros r Hr. unfold get_max_offset_id. rewrite Hr. fold top.
  pose proof top_range as Ht. destruct (Z.eqb_spec top 0) as [H0|H0].
  { exfalso. pose proof (sorted_length 1 joint joint_sorted) as Hl. rewrite Forall_forall in Hl.
    specialize (Hl ltac:(intros x Hx; pose proof (joint_top x Hx); apply joint_range in Hx; lia)). lia. }
  eapply scans_bind.
  { apply seek_loop_spec; [lia|lia|split; [lia|cbn; lia]|lia| |by left]. rewrite below_zero; [lia|]. apply Forall_forall. intros x Hx%joint_range. lia. }
  intros b (Hb0 & Hbt & Hlo & Hhi). cbn beta. eapply scans_bind; [apply joint_rank_spec|]. intros rank ->. apply scans_ret.
  destruct (Z.ltb_spec (Z.of_nat (below b joint)) offset); cbn [Z.b2z]; [|rewrite Z.add_0_r; lia].
  pose proof (below_succ b joint (sorted_lt_nodup _ joint_sorted)). destruct Hhi as [He|Hhi]; [|lia]. rewrite He in *.
  pose proof (below_succ top joint (sorted_lt_nodup _ joint_sorted)) as Hn. rewrite (below_all (top + 1)) in Hn; [lia|].
  apply Forall_forall. intros x Hx%joint_top. lia.
Qed.

(** The search reads, whatever it is asked for. *)
Lemma seek_any offset : scans (seek_starting_offset sc offset) (fun _ => True).
Proof.
  unfold seek_starting_offset. destruct (offset =? 0); [by apply scans_ret|]. eapply scans_bind; [by apply (scans_get (fun _ => True))|]. intros r _.
  destruct (_ =? 0); [by apply scans_ret|]. apply (scans_bind _ _ (fun _ => True)).
  - generalize 33%nat, 0, (Z.max (get_max_offset_id r) (default 0 (rb_max (log_offset_ids sc)))). intros fuel.
    induction fuel as [|fuel IH]; intros base size; cbn [seek_loop]; [by apply scans_ret|]. destruct (1 <? size); [|by apply scans_ret].
    eapply scans_bind; [apply joint_rank_spec|]. intros rank _. apply IH.
  - intros base _. eapply scans_bind; [apply joint_rank_spec|]. intros rank _. by apply scans_ret.
Qed.

Lemma select_log_spec i : (i <= length L)%nat -> select_log sc (Z.of_nat i) = Ok (L !! i).
Proof.
  intros Hi. pose proof log_length. unfold select_log. destruct (Z.ltb_spec (Z.of_nat i) (2 ^ 32)); [|lia]. by rewrite rb_select_law, Nat2Z.id by lia.
Qed.

Lemma take_pred (limit : Z) (x : Z) l : 0 < limit -> x :: take (Z.to_nat (limit - 1)) l = take (Z.to_nat limit) (x :: l).
Proof. intros Hl. replace (Z.to_nat limit) with (Datatypes.S (Z.to_nat (limit - 1))) by lia. done. Qed.

Lemma drop_log i oid : L !! i = Some oid -> drop i L = oid :: drop (Datatypes.S i) L /\ (Datatypes.S i <= length L)%nat.
Proof. intros Hi. split; [by apply drop_S|]. by apply lookup_lt_Some in Hi. Qed.

(** The merge takes the ids in order, up to the limit. *)
Lemma scan_loop_spec fuel : forall limit i records, (i <= length L)%nat -> (length records + (length L - i) < fuel)%nat -> 0 <= limit ->
  (forall x, x ∈ records -> x ∉ M -> x ∉ L) ->
  scan_loop fuel sc limit (Z.of_nat i) (L !! i) records = Ok (take (Z.to_nat limit) (merged (drop i L) (unmasked records))).
Proof.
  induction fuel as [|fuel IH]; intros limit i records Hi Hfuel Hlim Hdis; [lia|]. cbn [scan_loop].
  destruct (Z.eqb_spec limit 0) as [->|Hne]; [done|].
  assert (forall oid, L !! i = Some oid ->
    (let? next := select_log sc (Z.of_nat i + 1) in
     let? rest := scan_loop fuel sc (limit - 1) (Z.of_nat i + 1) next records in Ok (oid :: rest)) =
    Ok (take (Z.to_nat limit) (oid :: merged (drop (Datatypes.S i) L) (unmasked records)))) as Hlog.
  { intros oid Hoid. destruct (drop_log i oid Hoid) as [_ Hlt]. replace (Z.of_nat i + 1) with (Z.of_nat (Datatypes.S i)) by lia.
    rewrite select_log_spec by done. cbn [result_bind]. rewrite IH by (done || lia). cbn [result_bind]. by rewrite take_pred by lia. }
  destruct records as [|x records].
  - destruct (L !! i) as [oid|] eqn:Hoid.
    + rewrite Hlog by done. destruct (drop_log i oid Hoid) as [-> _]. unfold merged. cbn [unmasked List.filter]. by rewrite !list_merge_nil_r.
    + apply lookup_ge_None in Hoid. rewrite drop_ge by done. by destruct (Z.to_nat limit).
  - assert (forall y, y ∈ records -> y ∉ M -> y ∉ L) as Hdis' by (intros y Hy; apply Hdis; by right). cbn [length] in Hfuel.
    assert (Ok (take (Z.to_nat limit) (x :: merged (drop i L) (unmasked records))) =
      (let? rest := scan_loop fuel sc (limit - 1) (Z.of_nat i) (L !! i) records in Ok (x :: rest))) as Hrec.
    { rewrite IH by (done || lia). cbn [result_bind]. by rewrite take_pred by lia. }
    unfold unmasked. cbn [List.filter]. fold (unmasked records). destruct (rb_contains x (scan_mask sc)) eqn:Hx; cbn [negb].
    { rewrite <- (IH limit i records Hi ltac:(lia) Hlim Hdis'). by destruct (L !! i). }
    assert (x ∉ L) as HxL.
    { apply Hdis; [by left|]. rewrite rb_contains_law in Hx. by apply bool_decide_eq_false in Hx. }
    destruct (L !! i) as [oid|] eqn:Hoid.
    + destruct (drop_log i oid Hoid) as [Hdrop _]. unfold merged. rewrite Hdrop, list_merge_cons. rewrite <- Hdrop.
      assert (oid <> x) as Hneq by (intros ->; apply HxL; by eapply list_elem_of_lookup_2).
      assert (unmasked (x :: records) = x :: unmasked records) as Hcons by (unfold unmasked; cbn [List.filter]; by rewrite Hx).
      destruct (Z.ltb_spec oid x), (decide (oid <= x)); try lia.
      * rewrite Hlog by done. by rewrite Hcons.
      * exact (eq_sym Hrec).
    + rewrite <- Hrec. apply lookup_ge_None in Hoid. unfold merged. by rewrite drop_ge, !list_merge_nil_l.
Qed.

Lemma joint_from t : merged (drop (below t L) L) (unmasked (List.filter (fun y => t <=? y) R)) = drop (below t joint) joint.
Proof.
  rewrite !drop_below by (apply joint_sorted || apply rb_sorted).
  assert (forall (P : Z -> bool) (l : list Z) x, x ∈ List.filter P l <-> x ∈ l /\ P x = true) as Hf by (intros P l x; by rewrite !list_elem_of_In, List.filter_In).
  apply same_sorted_ids.
  - apply merged_sorted; [apply sorted_filter, rb_sorted|by eapply sorted_filter, sorted_filter, segment_ids_sorted|].
    intros x [Hx _]%Hf [[Hr _]%Hf Hm]%unmasked_elem. by apply Hm, HD.
  - apply sorted_filter, joint_sorted.
  - intros x. rewrite merged_perm, elem_of_app, unmasked_elem, !Hf, joint_elem. tauto.
Qed.

Lemma seek_and_scan_spec offset limit : 0 <= offset -> 0 <= limit -> offset + limit <= Z.of_nat (length joint) ->
  scans (seek_and_scan sc offset limit) (fun b => rb_iter b = take (Z.to_nat limit) (drop (Z.to_nat offset) joint)).
Proof.
  intros Ho Hl Hle. unfold seek_and_scan.
  apply (scans_bind _ _ (fun start => limit = 0 \/ Z.of_nat (below start joint) = offset)).
  { destruct (decide (limit = 0)) as [->|Hn].
    - intros r Hr Hm. pose proof (seek_any offset r Hr Hm) as Hs. destruct (seek_starting_offset sc offset r) as [[a|e] r']; [|done]. destruct Hs as [_ Hs]. by split; [left|].
    - intros r Hr Hm. pose proof (seek_spec offset ltac:(lia) r Hr Hm) as Hs. destruct (seek_starting_offset sc offset r) as [[a|e] r']; [|done]. destruct Hs as [He Hs]. by split; [right|]. }
  intros start Hstart. rewrite rank_below_spec. fold L.
  apply (scans_bind _ _ (fun next => next = L !! below start L)); [eapply scans_lift; [apply select_log_spec, below_le|done]|]. intros next ->.
  eapply scans_bind; [apply scans_read, offset_stream_reads|]. intros records ->. fold R.
  apply (scans_bind _ _ (fun ids => ids = take (Z.to_nat limit) (merged (drop (below start L) L) (unmasked (List.filter (fun y => start <=? y) R)))));
    [eapply scans_lift; [apply scan_loop_spec|reflexivity]|].
  - apply below_le.
  - unfold scan_fuel. rewrite rb_len_law, Nat2Z.id. fold L. lia.
  - done.
  - intros x [Hx _]%list_elem_of_In%List.filter_In Hm Hin. apply Hm, HD; [done|by apply list_elem_of_In].
  - intros ids ->. rewrite joint_from.
    destruct (rb_from_sorted_law (take (Z.to_nat limit) (drop (below start joint) joint))) as (b & -> & Hb).
    + apply Forall_take, Forall_drop, Forall_forall. intros x Hx%joint_range. lia.
    + apply sorted_take, sorted_drop, joint_sorted.
    + apply scans_ret. rewrite Hb. destruct Hstart as [->|<-]; [done|]. by rewrite Nat2Z.id.
Qed.
End Joint.

Definition limit_ok (limit : option Z) : Prop := match limit with Some n => 0 <= n | None => True end.

Lemma page_of_list reader log_ids rbm offset limit : 0 <= offset -> limit_ok limit ->
  exists b, select_page reader log_ids (Include rbm) offset limit = Ok b /\ rb_iter b = page offset limit (rb_iter (rb_or log_ids rbm)).
Proof.
  intros Ho Hl. cbn [select_page]. destruct limit as [n|]; cbn [page limit_ok] in *; eexists; (split; [reflexivity|]); [|by apply rb_smallest_law].
  pose proof (rb_smallest_law offset (rb_or log_ids rbm) Ho) as Hd. set (m := rb_remove_smallest offset (rb_or log_ids rbm)) in *.
  rewrite rb_biggest_law, rb_len_law, <- Hd by (rewrite rb_len_law; lia). set (l := rb_iter m). destruct (Z.min_spec (Z.of_nat (length l)) n) as [[H ->]|[H ->]].
  - rewrite Z.sub_diag. rewrite !take_ge by lia. done.
  - f_equal. lia.
Qed.

Lemma page_of_log log_ids rbm offset limit : 0 <= offset -> limit_ok limit ->
  exists b, select_page None log_ids (Exclude rbm) offset limit = Ok b /\ rb_iter b = page offset limit (rb_iter log_ids).
Proof.
  intros Ho Hl. cbn [select_page]. destruct limit as [n|]; cbn [page limit_ok] in *; eexists; (split; [reflexivity|]); [|by apply rb_smallest_law].
  rewrite rb_smallest_law by done. apply same_sorted_ids; [apply rb_sorted|apply sorted_take, sorted_drop, rb_sorted|]. intros x. apply rb_collect_law.
  apply Forall_take, Forall_drop, rb_u32.
Qed.

Lemma page_of_scan log_ids rbm offset limit r :
  (forall x, x ∈ rb_iter rbm -> x ∈ segment_ids S) -> (forall x, x ∈ rb_iter log_ids -> x ∈ segment_ids S -> x ∈ rb_iter rbm) ->
  Forall (fun x => x < 2 ^ 32 - 1) (rb_iter log_ids) -> reader_reads r S -> rd_max_offset_id r = mx -> 0 <= offset -> limit_ok limit ->
  match select_page (Some r) log_ids (Exclude rbm) offset limit with
  | Ok b => rb_iter b = page offset limit (joint (mkSeekScanner log_ids rbm))
  | Err e => limit_storage_error e
  end.
Proof.
  intros HM HD HL Hr Hm Ho Hl. cbn [select_page]. set (sc := mkSeekScanner log_ids rbm). pose proof (scans_read _ _ segment_count_reads r Hr Hm) as Hc.
  destruct (st_map_err LimitRecordSegment reader_record_count r) as [[n|e] r1]; [|done]. destruct Hc as (-> & Hr1 & Hm1).
  destruct (joint_length sc HM HD HL) as [Hj Hj32]. cbn [log_offset_ids scan_mask sc] in Hj. rewrite !rb_len_law.
  assert (u64_wrap (Z.of_nat (length (rb_iter log_ids)) + Z.of_nat (length (segment_ids S)) - Z.of_nat (length (rb_iter rbm))) = Z.of_nat (length (joint sc))) as ->
    by (unfold u64_wrap; rewrite Z.mod_small; lia).
  set (o := Z.min offset _). set (l := Z.min _ (_ - o)).
  assert (0 <= l /\ o + l <= Z.of_nat (length (joint sc))) as [Hl0 Hol] by (subst l o; destruct limit as [n|]; cbn [default limit_ok id] in *; unfold id; lia).
  pose proof (seek_and_scan_spec sc HM HD HL o l ltac:(lia) Hl0 Hol r1 Hr1 Hm1) as Hs.
  destruct (seek_and_scan sc o l r1) as [[b|e] r2]; cbn [fst]; [|done]. destruct Hs as [-> _].
  assert (l = Z.min (default (2 ^ 32 - 1) limit) (Z.of_nat (length (joint sc)) - o)) as El by done. assert (o = Z.min offset (Z.of_nat (length (joint sc)))) as Eo by done.
  clearbody l o. destruct (Z.le_gt_cases (Z.of_nat (length (joint sc))) offset) as [Hge|Hlt].
  - unfold page. rewrite !drop_ge by lia. by destruct limit; rewrite !take_nil.
  - assert (o = offset) as -> by lia. destruct limit as [n|]; cbn [page default limit_ok] in *; unfold id in *; [|rewrite take_ge; [done|rewrite length_drop; lia]].
    destruct (Z.le_gt_cases n (Z.of_nat (length (joint sc)) - offset)); [by replace l with n by lia|]. rewrite !take_ge by (rewrite length_drop; lia). done.
Qed.
End Scanner.

(** ** A page of the whole collection *)

Section Live.
Context {HO : HashOrder} (logs : Chunk LogRecord) (S : SegmentRows) (mx : Z) (HS : segment_ok S mx).
Context (ids : gset string) (start : Z) (c' : gmap string Doc) (s : Ledger).
Context (Hl : ledger_ok logs (stored_record S) ids start c' s) (Hstart : forall uid oid, off S uid = Some oid -> oid < start).

(** The offset id of a user id that the collection has after the log. *)
Definition live_id (uid : string) : option Z :=
  match c' !! uid with
  | Some _ =>
      match off S uid with
      | Some oid => Some oid
      | None => offset_id <$> fresh s !! uid
      end
  | None => None
  end.

Lemma stored_off uid oid : off S uid = Some oid -> exists d, stored_record S uid = Some (oid, d).
Proof.
  intros Ho. rewrite (stored_record_off S mx uid HS) in Ho. destruct (stored_record S uid) as [[o d]|]; [|done]. injection Ho as <-. by exists d.
Qed.

Lemma not_stored uid : off S uid = None -> stored_record S uid = None.
Proof. intros Ho. rewrite (stored_record_off S mx uid HS) in Ho. by destruct (stored_record S uid). Qed.

Lemma live_id_some uid : is_Some (live_id uid) <-> is_Some (c' !! uid).
Proof.
  unfold live_id. destruct (c' !! uid) as [d|] eqn:Hc; [|by split; intros [? ?]]. split; [by eexists|]. intros _.
  destruct (off S uid) as [oid|] eqn:Ho; [by eexists|]. destruct (l_new _ _ _ _ _ _ Hl uid (not_stored uid Ho)) as [_ Hn].
  destruct (fresh s !! uid) as [m|]; [by eexists|congruence].
Qed.

Lemma live_id_inj uid uid' x : live_id uid = Some x -> live_id uid' = Some x -> uid = uid'.
Proof.
  unfold live_id. destruct (c' !! uid); [|done]. destruct (c' !! uid'); [|done].
  destruct (off S uid) as [o|] eqn:Ho, (off S uid') as [o'|] eqn:Ho'; cbn.
  - intros [= ->] [= ->]. apply (s_bijection S mx HS) in Ho, Ho'. congruence.
  - intros [= ->] (m & Hf & Hx)%fmap_Some. apply Hstart in Ho. apply (l_range _ _ _ _ _ _ Hl) in Hf. lia.
  - intros (m & Hf & Hx)%fmap_Some [= ->]. apply Hstart in Ho'. apply (l_range _ _ _ _ _ _ Hl) in Hf. lia.
  - intros (m & Hf & ->)%fmap_Some (m' & Hf' & Hx)%fmap_Some. by apply (l_inj _ _ _ _ _ _ Hl uid uid' m m').
Qed.

Lemma entry_off uid m : (uid, m) ∈ entries s ->
  match off S uid with
  | Some oid => offset_id m = oid /\ existing s !! uid = Some m /\ final_operation m <> AddNew
  | None => fresh s !! uid = Some m /\ final_operation m = AddNew /\ start <= offset_id m < next_offset s
  end.
Proof.
  intros Hin. pose proof (entry_cases_of logs S ids start c' s Hl uid m Hin) as (_ & _ & [(oid & d0 & Hb & He & _)|(Hb & Hf & Hok & _ & Hr)]);
    rewrite (stored_record_off S mx uid HS), Hb; cbn.
  - split_and!; [apply He| |apply He]. apply elem_of_entries in Hin as [[Hin _]|Hin]; [done|]. destruct (l_old _ _ _ _ _ _ Hl uid oid d0 Hb). congruence.
  - split_and!; [done|apply Hok|lia..].
Qed.

(** A record of the log that is not deleted is in the collection. *)
Lemma entry_live uid m : (uid, m) ∈ entries s -> final_operation m <> DeleteExisting <-> is_Some (c' !! uid).
Proof.
  intros Hin. pose proof (entry_cases_of logs S ids start c' s Hl uid m Hin) as (_ & _ & [(oid & d0 & _ & _ & Hst)|(_ & _ & _ & Hst & _)]);
    unfold stands in Hst; destruct (final_operation m); (destruct Hst as (d & -> & _) || rewrite Hst); split; try done; by intros [? ?].
Qed.

(** The ids that the log has, and those of the segment that it touches. *)
Definition log_has (x : Z) : Prop := exists uid m, (uid, m) ∈ entries s /\ final_operation m <> DeleteExisting /\ offset_id m = x.
Definition log_touches (x : Z) : Prop := exists uid m, (uid, m) ∈ entries s /\ final_operation m <> AddNew /\ offset_id m = x.

Lemma touches_stored x : log_touches x -> exists uid m, (uid, m) ∈ entries s /\ off S uid = Some x.
Proof.
  intros (uid & m & Hin & Hop & <-). exists uid, m. split; [done|]. pose proof (entry_off uid m Hin) as He. destruct (off S uid); [by destruct He as [-> _]|].
  by destruct He as (_ & He & _).
Qed.

Lemma has_stored_touches x uid : log_has x -> off S uid = Some x -> log_touches x.
Proof.
  intros (uid' & m & Hin & _ & Hx) Ho. exists uid', m. split_and!; [done| |done]. pose proof (entry_off uid' m Hin) as He.
  destruct (off S uid'); [apply He|]. apply Hstart in Ho. destruct He as (_ & _ & He). lia.
Qed.

Lemma untouched uid oid : off S uid = Some oid -> ~ log_touches oid <-> forall m, (uid, m) ∉ entries s.
Proof.
  intros Ho. split.
  - intros Hn m Hin. apply Hn. pose proof (entry_off uid m Hin) as He. rewrite Ho in He. destruct He as (He & _ & Hop). by exists uid, m.
  - intros Hn (uid' & m & Hin & Ho')%touches_stored. apply (s_bijection S mx HS) in Ho, Ho'. assert (uid' = uid) as -> by congruence. by eapply Hn.
Qed.

(** A record of the segment without an entry stays. *)
Lemma entry_or_stays uid oid : off S uid = Some oid -> (exists m, (uid, m) ∈ entries s) \/ ((forall m, (uid, m) ∉ entries s) /\ is_Some (c' !! uid)).
Proof.
  intros Ho. destruct (stored_off uid oid Ho) as [d0 Hb]. destruct (l_old _ _ _ _ _ _ Hl uid oid d0 Hb) as [_ He].
  assert (forall m, (uid, m) ∈ entries s -> existing s !! uid = Some m /\ final_operation m <> Initial) as Hent.
  { intros m Hin. pose proof (entry_off uid m Hin) as H. rewrite Ho in H. split; [apply H|].
    by destruct (entry_cases_of logs S ids start c' s Hl uid m Hin) as (_ & H' & _). }
  destruct (existing s !! uid) as [m|] eqn:Hm; [|right; split; [by intros m [? _]%Hent|destruct He as [_ ->]; by eexists]].
  destruct (decide (final_operation m = Initial)) as [Hi|Hi]; [right|left; exists m; apply elem_of_entries; by left].
  destruct He as [_ Hst]. unfold stands in Hst. rewrite Hi in Hst. destruct Hst as (d & -> & _). split; [|by eexists]. intros m' [[= <-] ?]%Hent. done.
Qed.

Lemma live_elem x : (exists uid, live_id uid = Some x) <-> log_has x \/ ((exists uid, off S uid = Some x) /\ ~ log_touches x).
Proof.
  split.
  - intros [uid Hx]. pose proof (proj1 (live_id_some uid) ltac:(by rewrite Hx)) as Hc. unfold live_id in Hx. destruct (c' !! uid) as [d|] eqn:Hd; [|done].
    rewrite <- Hd in Hc. destruct (off S uid) as [oid|] eqn:Ho.
    + injection Hx as ->. destruct (entry_or_stays uid x Ho) as [[m Hin]|[Hn _]]; [left|right; split; [by exists uid|by apply (untouched uid)]].
      exists uid, m. split_and!; [done|by eapply entry_live|]. pose proof (entry_off uid m Hin) as He. rewrite Ho in He. apply He.
    + apply fmap_Some in Hx as (m & Hf & ->). left. exists uid, m. assert ((uid, m) ∈ entries s) as Hin by (apply elem_of_entries; by right).
      split_and!; [done|by eapply entry_live|done].
  - intros [(uid & m & Hin & Hop & <-)|[[uid Ho] Hn]]; exists uid; unfold live_id.
    + apply (entry_live uid m Hin) in Hop as [d ->]. pose proof (entry_off uid m Hin) as He. destruct (off S uid); [by destruct He as [-> _]|].
      by destruct He as [-> _].
    + destruct (entry_or_stays uid x Ho) as [[m Hin]|[_ [d ->]]]; [by apply (untouched uid) with (m := m) in Hn|]. by rewrite Ho.
Qed.
End Live.

Section Whole.
Context {RB : Roaring} {RL : RoaringLaws RB} {HO : HashOrder} {SR : SegmentReaders} {SL : SegmentReadersLaws SR}.

(** What the loop asks of an entry: a hydrated one names its user and its document. *)
Definition touchable logs S m : Prop :=
  0 <= offset_id m < 2 ^ 32 /\ exists uid o, entry_ok logs S S uid m /\ stands logs m (entry_data S uid) o.

Lemma touchable_hydrated logs S mx m reader : segment_ok S mx -> option_reads reader S -> touchable logs S m -> final_operation m <> DeleteExisting ->
  match hydrate logs m reader with
  | (Ok h, reader') => is_Some (get_user_id h) /\ is_Some (merged_document_ref h) /\ option_reads reader' S
  | (Err e, _) => exists bf, e = RecordSegment (BoxedBlockfileError bf)
  end.
Proof.
  intros HS Hr (_ & uid & o & He & Hst) Hop. pose proof (hydrate_entry logs S mx HS S uid m reader Hr He) as Hh.
  destruct (hydrate logs m reader) as [[h|e] r1]; [|by destruct Hh as [? _]]. destruct Hh as [-> Hr1].
  split_and!; [exists uid; by eapply entry_user| |done]. unfold stands in Hst.
  assert (exists d, doc_of_hydrated (mkHydrated m (entry_data S uid) logs) = Some d) as [d Hd] by (destruct (final_operation m); naive_solver).
  unfold doc_of_hydrated in Hd. destruct (merged_embeddings_ref _); [|done]. cbn [mbind option_bind] in Hd.
  by destruct (merged_document_ref (mkHydrated m (entry_data S uid) logs)) as [doc|].
Qed.

Lemma touch_logs_spec logs S mx (HS : segment_ok S mx) l : Forall (touchable logs S) l -> forall b reader, option_reads reader S ->
  match touch_logs logs l b reader with
  | (Ok b', _) => forall x, x ∈ rb_iter b' <-> x ∈ rb_iter b \/ exists m, m ∈ l /\ final_operation m <> Initial /\ final_operation m <> AddNew /\ offset_id m = x
  | (Err e, _) => exists bf, e = RecordSegment (BoxedBlockfileError bf)
  end.
Proof.
  induction 1 as [|m l Hm _ IH]; intros b reader Hr.
  { cbn. intros x. split; [by left|]. intros [?|(m & ?%elem_of_nil & _)]; done. }
  cbn [touch_logs]. set (b1 := match final_operation m with Initial | AddNew => b | _ => rb_insert (offset_id m) b end).
  assert (forall x, x ∈ rb_iter b1 <-> x ∈ rb_iter b \/ (final_operation m <> Initial /\ final_operation m <> AddNew /\ offset_id m = x)) as Hb1.
  { intros x. subst b1. destruct (final_operation m); rewrite ?rb_insert_law by apply Hm; naive_solver. }
  assert (forall P, (exists m', m' ∈ m :: l /\ P m') <-> P m \/ exists m', m' ∈ l /\ P m') as Hcons.
  { intros P. split; [intros (m' & [->|Hin]%elem_of_cons & HP); eauto|]. intros [HP|(m' & Hin & HP)]; [exists m|exists m']; (split; [by constructor|done]). }
  assert (forall reader1, option_reads reader1 S -> match touch_logs logs l b1 reader1 with
    | (Ok b', _) => forall x, x ∈ rb_iter b' <-> x ∈ rb_iter b \/ exists m', m' ∈ m :: l /\ final_operation m' <> Initial /\ final_operation m' <> AddNew /\ offset_id m' = x
    | (Err e, _) => exists bf, e = RecordSegment (BoxedBlockfileError bf)
    end) as Hnext.
  { intros reader1 Hr1. specialize (IH b1 reader1 Hr1). destruct (touch_logs logs l b1 reader1) as [[b'|e] r2]; [|done]. intros x. rewrite IH, Hb1, Hcons. tauto. }
  destruct (decide (final_operation m = DeleteExisting)) as [Hd|Hd]; [rewrite Hd; by apply Hnext|].
  pose proof (touchable_hydrated logs S mx m reader HS Hr Hm Hd) as Hh.
  destruct (final_operation m); try done; unfold st_bind; destruct (hydrate logs m reader) as [[h|e] reader1]; try done;
    destruct Hh as ([u ->] & [d ->] & Hr1); by apply Hnext.
Qed.

Lemma first_offset_next reader : 0 <= reader_max reader -> reader_max reader + 1 < 2 ^ 32 -> first_offset_id reader None = reader_max reader + 1.
Proof. intros H0 Hlt. destruct reader as [r|]; cbn in *; [|done]. unfold u32_wrap. by rewrite Z.mod_small by lia. Qed.

(** Materializing changes nothing of the reader that a client can see. *)
Lemma materialize_keeps_max reader S mx logs n res reader' n' : option_reads reader S -> segment_ok S mx ->
  materialize_logs reader logs n = (Ok res, reader', n') -> reader_max reader' = reader_max reader /\ (reader = None <-> reader' = None).
Proof.
  intros Hr HS. unfold materialize_logs. destruct reader as [r|]; cbn [option_reads] in Hr.
  - pose proof (find_existing_spec S mx (chunk_iter logs) HS ∅ r Hr) as Hf. destruct (find_existing (chunk_iter logs) ∅ r) as [[found|e] r1]; [|done].
    destruct Hf as (_ & Hm & _). destruct (process_records _ _) as [[?|e] s]; [|done]. intros [= _ <- _]. by split.
  - destruct (process_records _ _) as [[?|e] s]; [|done]. intros [= _ <- _]. by split.
Qed.

(** The offset ids of a collection: one of each document, the one that the
    segment has of it if it has one. *)
Record offset_ids_of (S : SegmentRows) (c : gmap string Doc) (id_of : string -> option Z) (l : list Z) : Prop := {
  oi_some : forall uid, is_Some (id_of uid) <-> is_Some (c !! uid);
  oi_inj : forall uid uid' x, id_of uid = Some x -> id_of uid' = Some x -> uid = uid';
  oi_stable : forall uid oid, off S uid = Some oid -> is_Some (c !! uid) -> id_of uid = Some oid;
  oi_sorted : StronglySorted Z.lt l;
  oi_elem : forall x, x ∈ l <-> exists uid, id_of uid = Some x;
}.

Section Page.
Context (reader : option RecordSegmentReader) (S : SegmentRows) (c : gmap string Doc) (logs : Chunk LogRecord).
Context (Hr : option_reads reader S) (HS : segment_ok S (reader_max reader)) (Hc : shows S c) (Hplain : plain S) (H0 : 0 <= reader_max reader).
Context (Hlt : reader_max reader + 1 + Z.of_nat (length (chunk_iter logs)) < 2 ^ 32).
Context (c' : gmap string Doc) (s : Ledger) (Hl : ledger_ok logs (stored_record S) (ids_of logs) (reader_max reader + 1) c' s).
Context (Hnext : next_offset s <= reader_max reader + 1 + Z.of_nat (length (chunk_iter logs))).

Lemma stored_below uid oid : off S uid = Some oid -> oid < reader_max reader + 1.
Proof. intros Ho%(s_bound S _ HS). lia. Qed.

Lemma live_offset_ids l : StronglySorted Z.lt l -> (forall x, x ∈ l <-> exists uid, live_id S c' s uid = Some x) -> offset_ids_of S c' (live_id S c' s) l.
Proof.
  intros Hs He. constructor; [by eapply live_id_some|intros uid uid' x; by eapply (live_id_inj logs S _ HS _ _ c' s Hl stored_below)| |done|done].
  intros uid oid Ho [d Hd]. unfold live_id. by rewrite Hd, Ho.
Qed.

Lemma entry_range uid m : (uid, m) ∈ entries s -> 0 <= offset_id m < 2 ^ 32 - 1.
Proof.
  intros Hin. pose proof (entry_off logs S _ HS _ _ c' s Hl uid m Hin) as He. destruct (off S uid) as [oid|] eqn:Ho.
  - destruct He as (-> & _). apply (s_bound S _ HS) in Ho. lia.
  - destruct He as (_ & _ & He). lia.
Qed.

Lemma collected m : m ∈ collect_materialized s <-> exists uid, (uid, m) ∈ entries s.
Proof.
  destruct (collect_entries s) as (l & Hp & ->). rewrite list_elem_of_fmap. split.
  - intros ([uid m'] & -> & Hin). exists uid. by rewrite <- Hp.
  - intros [uid Hin]. exists (uid, m). by rewrite Hp.
Qed.

(** What the log has, as [Limit] computes it. *)
Lemma active_ids x :
  x ∈ rb_iter (rb_sub (rb_collect (offset_id <$> List.filter (fun m => negb (bool_decide (final_operation m = DeleteExisting))) (collect_materialized s))) rb_new) <->
  log_has s x.
Proof.
  assert (forall m, m ∈ List.filter (fun m => negb (bool_decide (final_operation m = DeleteExisting))) (collect_materialized s) <->
    final_operation m <> DeleteExisting /\ exists uid, (uid, m) ∈ entries s) as Hm.
  { intros m. rewrite list_elem_of_In, List.filter_In, <- list_elem_of_In, collected, negb_true_iff, bool_decide_eq_false. tauto. }
  rewrite rb_sub_law, rb_new_law, rb_collect_law.
  - rewrite list_elem_of_fmap. unfold log_has. split.
    + intros [(m & -> & [Hop [uid Hin]]%Hm) _]. by exists uid, m.
    + intros (uid & m & Hin & Hop & <-). split; [|by apply not_elem_of_nil]. exists m. split; [done|]. apply Hm. split; [done|by exists uid].
  - apply Forall_fmap, Forall_forall. intros m [_ [uid Hin%entry_range]]%Hm. cbn. lia.
Qed.

Lemma touched_ids b : (forall x, x ∈ rb_iter b <-> x ∈ rb_iter rb_new \/
    exists m, m ∈ collect_materialized s /\ final_operation m <> Initial /\ final_operation m <> AddNew /\ offset_id m = x) ->
  forall x, x ∈ rb_iter (rb_or rb_new b) <-> log_touches s x.
Proof.
  intros Hb x. rewrite rb_or_law, Hb, rb_new_law. unfold log_touches. split.
  - intros [?%elem_of_nil|[?%elem_of_nil|(m & [uid Hin]%collected & _ & Hop & <-)]]; [done..|]. by exists uid, m.
  - intros (uid & m & Hin & Hop & <-). right. right. exists m. split_and!; [apply collected; by exists uid| |done..].
    by destruct (entry_cases_of logs S _ _ c' s Hl uid m Hin) as (_ & Hi & _).
Qed.

Lemma stored_ids x : x ∈ segment_ids S <-> exists uid, off S uid = Some x.
Proof.
  rewrite (segment_ids_elem S _ HS Hplain). split; intros [uid Hu]; exists uid; by apply (s_bijection S _ HS).
Qed.

Lemma page_selected log_ids rbm offset limit reader' :
  (forall x, x ∈ rb_iter log_ids <-> log_has s x) -> (forall x, x ∈ rb_iter rbm <-> log_touches s x) ->
  option_reads reader' S -> reader_max reader' = reader_max reader -> 0 <= offset -> limit_ok limit ->
  match select_page reader' log_ids (Exclude rbm) offset limit with
  | Ok b => exists l, offset_ids_of S c' (live_id S c' s) l /\ rb_iter b = page offset limit l
  | Err e => limit_storage_error e
  end.
Proof.
  intros HL HM Hr' Hm' Ho Hlim. pose proof (live_elem logs S _ HS _ _ c' s Hl) as Hlive. destruct reader' as [r|]; cbn [option_reads] in Hr'.
  - assert (forall x, x ∈ rb_iter log_ids -> x ∈ segment_ids S -> x ∈ rb_iter rbm) as HD.
    { intros x Hx%HL [uid Hu]%stored_ids. apply HM. by eapply (has_stored_touches logs S _ HS _ _ c' s Hl stored_below). }
    assert (forall x, x ∈ rb_iter rbm -> x ∈ segment_ids S) as HMR.
    { intros x Hx%HM. apply stored_ids. destruct (touches_stored logs S _ HS _ _ c' s Hl x Hx) as (uid & _ & _ & Hu). by exists uid. }
    assert (Forall (fun x => x < 2 ^ 32 - 1) (rb_iter log_ids)) as Hbig.
    { apply Forall_forall. intros x (uid & m & Hin%entry_range & _ & <-)%HL. lia. }
    pose proof (page_of_scan S (reader_max reader) HS Hplain ltac:(lia) log_ids rbm offset limit r HMR HD Hbig Hr' Hm' Ho Hlim) as Hs.
    destruct (select_page (Some r) log_ids (Exclude rbm) offset limit) as [b|e]; [|done]. eexists. split; [|exact Hs].
    apply live_offset_ids; [by apply (joint_sorted S _ HS Hplain)|]. intros x. rewrite joint_elem, Hlive, <- HL, <- HM, stored_ids. done.
  - destruct (page_of_log log_ids rbm offset limit Ho Hlim) as (b & -> & Hb). exists (rb_iter log_ids). split; [|done].
    apply live_offset_ids; [apply rb_sorted|]. intros x. rewrite Hlive, HL. split; [by left|]. intros [Hx|[[uid Hu] _]]; [done|]. by subst S.
Qed.
End Page.

Lemma whole_page_spec reader S c logs offset limit :
  option_reads reader S -> segment_ok S (reader_max reader) -> shows S c -> plain S -> 0 <= reader_max reader ->
  reader_max reader + 1 + Z.of_nat (length (chunk_iter logs)) < 2 ^ 32 -> 0 <= offset -> limit_ok limit ->
  match filter_none_given reader logs with
  | Ok (log_ids, compact) =>
      match limit_page reader logs log_ids compact offset limit with
      | Ok b => exists c' id_of l, log_steps (ops_of logs) c = Some c' /\ offset_ids_of S c' id_of l /\ rb_iter b = page offset limit l
      | Err e => limit_storage_error e
      end
  | Err e => (e = EmbeddingMaterialization /\ log_steps (ops_of logs) c = None) \/ exists bf, e = RecordSegment (BoxedBlockfileError bf)
  end.
Proof.
  intros Hr HS Hc Hplain H0 Hlt Ho Hlim. unfold filter_none_given, limit_page, materialized_log_offset_ids, signed_full.
  pose proof (materialize_spec reader S (reader_max reader) logs (reader_max reader + 1) c Hr HS Hc ltac:(lia) Hlt) as Hm.
  assert (materialize_logs reader logs None = materialize_logs reader logs (Some (reader_max reader + 1))) as Hn
    by (rewrite <- (first_offset_next reader) by lia; reflexivity).
  rewrite Hn. destruct (materialize_logs reader logs (Some (reader_max reader + 1))) as [[[res|e] reader'] n] eqn:Hmat; [|done].
  destruct Hm as (c' & s & Hc' & Hl & _ & Hres & Hr' & -> & Hnext). rewrite Hres.
  destruct (materialize_keeps_max reader S _ logs _ res reader' _ Hr HS Hmat) as [Hmax _].
  assert (Forall (touchable logs S) (collect_materialized s)) as Hrange.
  { apply Forall_forall. intros m [uid Hin]%collected.
    pose proof (entry_range reader S logs HS H0 Hlt c' s Hl ltac:(lia) uid m Hin). split; [lia|]. exists uid, (c' !! uid).
    eapply (entries_ok logs S (reader_max reader) HS); [|exact Hl|exact HS| |done|exact Hin]; [lia|].
    intros u oid Hoid%(s_bound S _ HS). lia. }
  pose proof (touch_logs_spec logs S _ HS _ Hrange rb_new reader Hr) as Ht.
  destruct (touch_logs logs (collect_materialized s) rb_new reader) as [[upd|e] r2]; [|by right]. cbn [bitand result_bind].
  pose proof (page_selected reader S c logs Hr HS Hc Hplain H0 Hlt c' s Hl ltac:(lia) _ _ offset limit reader'
    (active_ids reader S logs HS H0 Hlt c' s Hl ltac:(lia)) (touched_ids reader S logs c' s Hl upd Ht) Hr' Hmax Ho Hlim) as Hp.
  destruct (select_page reader' _ _ offset limit) as [b|e]; [|done]. destruct Hp as (l & Hids & Hb). by exists c', (live_id S c' s), l.
Qed.
End Whole.
