(* ===== verification/S3Facts.v ===== *)
(** * What the S3 client guarantees

    The documented behaviour of the service as laws of [S3Client], the cutting
    of an object into parts and ranges, and the proof that the operations of
    [S3Storage] implement the object store that wal3 relies on.
    [MemS3] is an executable service, with faults, that keeps these laws. *)

From stdpp Require Import pretty.
From S2P Require Import Prelude Float64 Setsum Storage S3.

#[local] Open Scope Z_scope.

(** ** The service *)

(** What a body delivers when its stream does not fail. *)
Definition delivered (body : Body) : option bytes :=
  @concat _ <$> mapM (fun r => match r with Ok c => Some c | Err _ => None end) body.

Definition conditions_hold (c : Conditions) (m : Objects) (k : string) : Prop :=
  (if_none_match c = Some "*" -> m !! k = None) /\
  (forall t, if_match c = Some t -> exists b, m !! k = Some (b, mkETag t)).

(** The object that the parts of an upload make up, if the ETags are right. *)
Definition part_bytes (ps : gmap Z (bytes * string)) (p : CompletedPart) : option bytes :=
  match ps !! part_number p with
  | Some (b, t) => if bool_decide (t = part_e_tag p) then Some b else None
  | None => None
  end.

Definition assembled (us : Uploads) (id key : string) (parts : list CompletedPart) : option bytes :=
  match us !! id with
  | Some (key', ps) => if bool_decide (key' = key) then @concat _ <$> mapM (part_bytes ps) parts else None
  | None => None
  end.

(** Whether the answer [t] of a request is the tag [t'] of the object. *)
Definition tag_of (t : option string) (t' : ETag) : Prop := t = Some (e_tag_value t') \/ t = None.

Class S3ClientLaws (C : S3Client) (bkt : string) (rely : relation Objects) : Prop := {
  s3_rely :: PreOrder rely;
  get_object_law : forall k w r w',
    send_get_object k None w = (r, w') ->
    rely (s3_objects w) (s3_objects w') /\
    match r with
    | Ok (body, t) => exists b t', s3_objects w' !! k = Some (b, t') /\ tag_of t t' /\
                                   forall d, delivered body = Some d -> d = b
    | Err (ServiceError NoSuchKey) => s3_objects w' !! k = None
    | Err _ => True
    end;
  put_object_law : forall k b c w r w',
    send_put_object k b c w = (r, w') ->
    exists pre, rely (s3_objects w) pre /\
    match r with
    | Ok t => conditions_hold c pre k /\ exists t', s3_objects w' = <[k := (b, t')]> pre /\ tag_of t t'
    | Err e =>
        if bool_decide (sdk_code e = Some "PreconditionFailed")
        then ~ conditions_hold c pre k /\ s3_objects w' = pre
        else s3_objects w' = pre \/ (conditions_hold c pre k /\ exists t', s3_objects w' = <[k := (b, t')]> pre)
    end;
  create_multipart_upload_law : forall k w r w',
    send_create_multipart_upload k w = (r, w') ->
    rely (s3_objects w) (s3_objects w') /\
    forall id, r = Ok (Some id) -> s3_uploads w' !! id = Some (k, ∅);
  (** Parts are numbered from 1 to 10000, and a part replaces one with its number. *)
  upload_part_law : forall k id n b w r w',
    send_upload_part k id n b w = (r, w') ->
    rely (s3_objects w) (s3_objects w') /\
    forall t, r = Ok t -> 1 <= n <= 10000 /\ exists ps tag,
      s3_uploads w !! id = Some (k, ps) /\ s3_uploads w' !! id = Some (k, <[n := (b, tag)]> ps);
  complete_multipart_upload_law : forall k id parts c w r w',
    send_complete_multipart_upload k id parts c w = (r, w') ->
    exists pre, rely (s3_objects w) pre /\
    let done t' := exists b, assembled (s3_uploads w) id k parts = Some b /\
                             conditions_hold c pre k /\ s3_objects w' = <[k := (b, t')]> pre in
    match r with
    | Ok t => exists t', done t' /\ tag_of t t'
    | Err _ => s3_objects w' = pre \/ exists t', done t'
    end;
  delete_object_law : forall k w r w',
    send_delete_object k None w = (r, w') ->
    exists pre, rely (s3_objects w) pre /\
    match r with
    | Ok _ => s3_objects w' = base.delete k pre
    | Err e =>
        if bool_decide (sdk_code e = Some "NotFound") then pre !! k = None /\ s3_objects w' = pre
        else s3_objects w' = pre \/ s3_objects w' = base.delete k pre
    end;
  copy_object_law : forall src dst w r w',
    send_copy_object (bkt +:+ "/" +:+ src) dst w = (r, w') ->
    exists pre, rely (s3_objects w) pre /\
    let copied := exists b t t', pre !! src = Some (b, t) /\ s3_objects w' = <[dst := (b, t')]> pre in
    match r with
    | Ok _ => copied
    | Err _ => s3_objects w' = pre \/ copied
    end;
  (** The pages list keys with the prefix; when none of them failed, a key that
      is on no page was absent at some moment. *)
  list_objects_law : forall n p w pages w',
    send_list_objects_v2 n p w = (pages, w') ->
    rely (s3_objects w) (s3_objects w') /\
    (forall page k, Ok page ∈ pages -> Some k ∈ page -> String.prefix p k = true) /\
    forall k, String.prefix p k = true ->
      (exists e, Err e ∈ pages) \/ (exists page, Ok page ∈ pages /\ Some k ∈ page) \/
      exists m, rely (s3_objects w) m /\ rely m (s3_objects w') /\ m !! k = None;
  s3_backoff_law : forall w, rely (s3_objects w) (s3_objects (s3_backoff_next w).2);
  s3_now_law : forall w, rely (s3_objects w) (s3_objects (s3_now w).2);
  s3_system_time_law : forall w, rely (s3_objects w) (s3_objects (s3_system_time w).2);
}.

(** ** Cutting an object *)

Lemma slice_app b lo mid hi :
  0 <= lo <= mid -> mid <= hi -> slice b lo mid ++ slice b mid hi = slice b lo hi.
Proof.
  intros. unfold slice.
  replace (Z.to_nat (hi - lo)) with (Z.to_nat (mid - lo) + Z.to_nat (hi - mid))%nat by lia.
  rewrite <- take_take_drop, drop_drop. do 3 f_equal. lia.
Qed.

Lemma slice_all b hi : Z.of_nat (length b) <= hi -> slice b 0 hi = b.
Proof. intros. unfold slice. rewrite drop_0. apply take_ge. lia. Qed.

Lemma slice_empty b lo : slice b lo lo = [].
Proof. unfold slice. by rewrite Z.sub_diag. Qed.

(** The pieces between the multiples of [sz] and the end. *)
Definition piece (b : bytes) (sz n i : Z) : bytes :=
  slice b (i * sz) (if i =? n - 1 then Z.of_nat (length b) else (i + 1) * sz).

(** The numbers below [n]. *)
Lemma range_0_S n : 0 <= n -> range_u64 0 (n + 1) = range_u64 0 n ++ [n].
Proof.
  intros Hn. unfold range_u64. rewrite !Z.sub_0_r. replace (Z.to_nat (n + 1)) with (S (Z.to_nat n)) by lia.
  rewrite seq_S, fmap_app. cbn. by rewrite Z2Nat.id.
Qed.

Lemma pieces_concat b sz n :
  0 < sz -> 1 <= n -> (n - 1) * sz <= Z.of_nat (length b) ->
  concat (piece b sz n <$> range_u64 0 n) = b.
Proof.
  intros Hsz Hn Hlen.
  assert (forall k, 0 <= k -> k <= n - 1 ->
    concat (piece b sz n <$> range_u64 0 k) = slice b 0 (k * sz)) as Hk.
  { apply (natlike_ind (fun k => k <= n - 1 -> _)); [by rewrite slice_empty|].
    intros k Hk0 IH Hk. rewrite <- Z.add_1_r, range_0_S, fmap_app, concat_app, IH by lia.
    cbn [fmap list_fmap concat]. rewrite app_nil_r. unfold piece.
    destruct (Z.eqb_spec k (n - 1)); [lia|]. apply slice_app; nia. }
  replace (range_u64 0 n) with (range_u64 0 (n - 1 + 1)) by (f_equal; lia).
  rewrite range_0_S, fmap_app, concat_app, Hk by lia. cbn [fmap list_fmap concat].
  rewrite app_nil_r. unfold piece. rewrite Z.eqb_refl, slice_app by nia. by apply slice_all.
Qed.

(** The layout of a multipart upload. *)
Lemma part_layout_spec self (b : bytes) count last :
  0 < upload_part_size_bytes self <= Z.of_nat (length b) -> part_layout self (Z.of_nat (length b)) = (count, last) ->
  1 <= count /\ (count - 1) * upload_part_size_bytes self + last = Z.of_nat (length b) /\ 0 <= last.
Proof.
  unfold part_layout. set (sz := upload_part_size_bytes self). set (n := Z.of_nat (length b)). intros Hsz.
  pose proof (Z.div_mod n sz ltac:(lia)). pose proof (Z.mod_pos_bound n sz ltac:(lia)).
  assert (1 <= n / sz) by (apply Z.div_le_lower_bound; lia).
  destruct (Z.eqb_spec (n mod sz) 0); intros [= <- <-]; split_and!; nia.
Qed.

(** ** Reading *)

Lemma read_stream_delivered body buf d :
  read_stream body buf = Ok d -> exists x, delivered body = Some x /\ d = buf ++ x.
Proof.
  revert buf. induction body as [|[c|] body IH]; intros buf; cbn [read_stream]; [|intros H|done].
  - intros [= <-]. exists []. by rewrite app_nil_r.
  - apply IH in H as (x & Hx & ->). exists (c ++ x). rewrite <- app_assoc. split; [|done].
    unfold delivered in *. cbn. destruct (mapM _ body) as [l|]; [|done]. cbn in *. by injection Hx as <-.
Qed.

Lemma page_keys_elem p contents paths ks :
  page_keys p contents paths = Ok ks -> forall k, k ∈ ks <-> k ∈ paths \/ Some k ∈ contents.
Proof.
  revert paths. induction contents as [|[key|] contents IH]; intros paths; cbn [page_keys]; [|intros H k|done].
  - intros [= <-] k. rewrite elem_of_nil. tauto.
  - rewrite (IH _ H k), elem_of_app, list_elem_of_singleton, elem_of_cons.
    split; [intros [[?|<-]|?]|intros [?|[[= ->]|?]]]; auto.
Qed.

Lemma read_pages_elem p pages paths ks :
  read_pages p pages paths = Ok ks ->
  (forall e, Err e ∉ pages) /\
  forall k, k ∈ ks <-> k ∈ paths \/ exists page, Ok page ∈ pages /\ Some k ∈ page.
Proof.
  revert paths. induction pages as [|[page|e] pages IH]; intros paths; cbn [read_pages]; [|intros H|done].
  - intros [= <-]. split; [intros e; apply not_elem_of_nil|]. intros k.
    split; [auto|]. intros [?|(? & []%elem_of_nil & _)]; auto.
  - destruct (page_keys p page paths) as [paths'|] eqn:Hp; [|done]. apply IH in H as [Hne Hk].
    split; [intros e [[=]|He]%elem_of_cons; by eapply Hne|]. intros k.
    rewrite Hk, (page_keys_elem _ _ _ _ Hp k). setoid_rewrite elem_of_cons. split.
    + intros [[?|?]|(pg & ? & ?)]; [by left|right; exists page; auto|right; exists pg; auto].
    + intros [?|(pg & [[= ->]|?] & ?)]; [auto|auto|right; eauto].
Qed.

(** ** The store *)

Lemma conditions_allowed o m k : conditions_hold (conditions o) m k <-> put_allowed o m k.
Proof.
  unfold conditions_hold, put_allowed, conditions. cbn. split; intros [Hn Hm]; split.
  - intros Ho. apply Hn. by rewrite Ho.
  - intros [t] Ht. apply Hm. by rewrite Ht.
  - destruct (put_if_not_exists o); [auto|done].
  - intros t. destruct (put_if_match o) as [[t']|]; [|done]. intros [= <-]. by apply Hm.
Qed.

Lemma i32_wrap_small z : - 2 ^ 31 <= z < 2 ^ 31 -> i32_wrap z = z.
Proof. intros. unfold i32_wrap. rewrite Z.mod_small; lia. Qed.

Section Laws.
Context {C : S3Client} {rely : relation Objects}.
Variable self : S3Storage.
Context {L : S3ClientLaws C (bucket self) rely}.
Hypothesis Hsize : 0 < upload_part_size_bytes self.

Lemma upload_part_spec key id count i last f w p w' :
  0 <= i <= 10000 -> upload_part self key id count i last f w = (Ok p, w') ->
  rely (s3_objects w) (s3_objects w') /\
  exists b ps tag, part_number p = i + 1 /\ i + 1 <= 10000 /\
    f (i * upload_part_size_bytes self)
      (i * upload_part_size_bytes self + (if count - 1 =? i then last else upload_part_size_bytes self)) = Ok b /\
    s3_uploads w !! id = Some (key, ps) /\ s3_uploads w' !! id = Some (key, <[i + 1 := (b, tag)]> ps).
Proof.
  intros Hi. unfold upload_part, s3_bind, s3_ret, send.
  assert (i32_wrap (i32_wrap i + 1) = i + 1) as -> by (by rewrite (i32_wrap_small i), i32_wrap_small by lia).
  destruct (f _ _) as [b|] eqn:Hf; [|done].
  destruct (send_upload_part _ _ _ _ w) as [r w1] eqn:Hs. apply upload_part_law in Hs as [Hr Hok].
  destruct r as [t|e]; [|done]. intros [= <- <-]. split; [done|].
  destruct (Hok t eq_refl) as (Hn & ps & tag & Hps & Hps'). exists b, ps, tag. split_and!; [done|lia|done..].
Qed.

(** The parts that were uploaded are the pieces asked for, in order. *)
Lemma upload_parts_spec key id count last f n :
  forall i w ps0 parts w', 0 <= i <= 10000 ->
  s3_uploads w !! id = Some (key, ps0) ->
  upload_parts self key id count last f ((fun j : nat => Z.of_nat j) <$> seq (Z.to_nat i) n) w = (Ok parts, w') ->
  rely (s3_objects w) (s3_objects w') /\
  exists ps, s3_uploads w' !! id = Some (key, ps) /\
    (forall j, j <= i -> ps !! j = ps0 !! j) /\
    Forall2 (fun (j : nat) p => exists b tag, part_number p = Z.of_nat j + 1 /\ ps !! (Z.of_nat j + 1) = Some (b, tag) /\
      f (Z.of_nat j * upload_part_size_bytes self)
        (Z.of_nat j * upload_part_size_bytes self +
         (if count - 1 =? Z.of_nat j then last else upload_part_size_bytes self)) = Ok b) (seq (Z.to_nat i) n) parts.
Proof.
  induction n as [|n IH]; intros i w ps0 parts w' Hi Hup; cbn [seq fmap list_fmap upload_parts].
  - intros [= <- <-]. split; [reflexivity|]. exists ps0. split_and!; [done|done|constructor].
  - unfold s3_bind, s3_ret. rewrite Z2Nat.id by lia.
    destruct (upload_part _ _ _ _ _ _ _ w) as [[p|e] w1] eqn:Hp; [|done].
    apply upload_part_spec in Hp as [Hr1 (b & ps & tag & Hn & Hle & Hf & Hps & Hps1)]; [|lia].
    rewrite Hup in Hps. injection Hps as <-.
    replace (S (Z.to_nat i)) with (Z.to_nat (i + 1)) by lia.
    destruct (upload_parts _ _ _ _ _ _ _ w1) as [[parts'|e] w2] eqn:Hps; [|done]. intros [= <- <-].
    apply (IH (i + 1)) with (ps0 := <[i + 1 := (b, tag)]> ps0) in Hps as [Hr2 (ps & Hup2 & Hold & Hall)]; [|lia|done].
    split; [by etrans|]. exists ps. split_and!; [done| |constructor; [|done]].
    + intros j Hj. rewrite Hold by lia. by rewrite lookup_insert_ne by lia.
    + exists b, tag. rewrite Z2Nat.id by lia. split_and!; [done| |done]. rewrite Hold by lia. by rewrite lookup_insert_eq.
Qed.
(** When a part fails, nothing was put. *)
Lemma upload_parts_err key id count last (b : bytes) indices w e w' :
  upload_parts self key id count last (fun lo hi => Ok (slice b lo hi)) indices w = (Err e, w') ->
  rely (s3_objects w) (s3_objects w') /\ forall p, e <> Precondition p.
Proof.
  revert w. induction indices as [|i indices IH]; intros w; cbn [upload_parts]; [done|].
  unfold upload_part, s3_bind, s3_ret, send.
  destruct (send_upload_part _ _ _ _ w) as [r w1] eqn:Hs. apply upload_part_law in Hs as [Hr _].
  destruct r as [t|]; [|intros [= <- <-]; by split].
  destruct (upload_parts _ _ _ _ _ _ _ w1) as [[ps|e'] w2] eqn:Hps; [done|]. intros [= <- <-].
  apply IH in Hps as [Hr2 He]. split; [by etrans|done].
Qed.

(** What the completion of an upload makes of the parts is the object. *)
Lemma assembled_pieces (b : bytes) count last id key ps parts w x :
  upload_part_size_bytes self <= Z.of_nat (length b) ->
  part_layout self (Z.of_nat (length b)) = (count, last) ->
  s3_uploads w !! id = Some (key, ps) ->
  Forall2 (fun (j : nat) p => exists y tag, part_number p = Z.of_nat j + 1 /\ ps !! (Z.of_nat j + 1) = Some (y, tag) /\
    Ok (slice b (Z.of_nat j * upload_part_size_bytes self)
          (Z.of_nat j * upload_part_size_bytes self +
           (if count - 1 =? Z.of_nat j then last else upload_part_size_bytes self))) = @Ok _ StorageError y)
    (seq 0 (Z.to_nat count)) parts ->
  assembled (s3_uploads w) id key parts = Some x -> x = b.
Proof.
  intros Hlen Hlay Hup Hall. apply part_layout_spec in Hlay as (Hc & Hend & Hlast); [|lia].
  unfold assembled. rewrite Hup, bool_decide_eq_true_2 by done.
  destruct (mapM (part_bytes ps) parts) as [l|] eqn:Hm; [|done]. intros [= <-]. apply mapM_Some in Hm.
  rewrite <- (pieces_concat b (upload_part_size_bytes self) count) by lia. f_equal.
  unfold range_u64. rewrite Z.sub_0_r, <- list_fmap_compose.
  revert l Hm. induction Hall as [|j p js parts (y & tag & Hn & Hy & [= Hs]) _ IH]; intros l Hm;
    inversion Hm as [|? z ? l' Hz Hl]; subst; [done|]. cbn [fmap list_fmap]. f_equal; [|by apply IH].
  unfold part_bytes in Hz. rewrite Hn, Hy in Hz. case_bool_decide; [|done]. injection Hz as <-.
  cbn [compose]. unfold piece. rewrite ?Z.add_0_l, (Z.eqb_sym (count - 1)). f_equal.
  destruct (Z.eqb_spec (Z.of_nat j) (count - 1)) as [->|]; lia.
Qed.

(** The effect of a put, as the object store states it. *)
Definition put_effect (key : string) (b : bytes) (o : PutOptions) (w w' : s3_world)
    (r : result (option ETag) StorageError) : Prop :=
  exists pre, rely (s3_objects w) pre /\
  match r with
  | Ok t => put_allowed o pre key /\
            exists t', s3_objects w' = <[key := (b, t')]> pre /\ (t = Some t' \/ t = None)
  | Err (Precondition _) => ~ put_allowed o pre key /\ s3_objects w' = pre
  | Err _ => s3_objects w' = pre \/
             (put_allowed o pre key /\ exists t', s3_objects w' = <[key := (b, t')]> pre)
  end.

Lemma put_effect_nothing key b o w w' e :
  rely (s3_objects w) (s3_objects w') -> (forall p, e <> Precondition p) -> put_effect key b o w w' (Err e).
Proof. intros Hr He. exists (s3_objects w'). split; [done|]. destruct e; try by left. by destruct (He path). Qed.

Lemma tag_of_fmap t t' : tag_of t t' -> mkETag <$> t = Some t' \/ mkETag <$> t = None.
Proof. intros [->| ->]; [left|by right]. by destruct t'. Qed.

Lemma finish_effect (b : bytes) key id parts o w w' r :
  (forall x, assembled (s3_uploads w) id key parts = Some x -> x = b) ->
  finish_multipart_upload key id parts o w = (r, w') -> put_effect key b o w w' r.
Proof.
  intros Hb. unfold finish_multipart_upload, send.
  destruct (send_complete_multipart_upload _ _ _ _ w) as [s w1] eqn:Hs.
  apply complete_multipart_upload_law in Hs as (pre & Hr & Hs). intros [= <- <-]. exists pre. split; [done|].
  cbv zeta in Hs. destruct s as [t|e].
  - destruct Hs as (t' & (x & ->%Hb & Ha%conditions_allowed & Hw) & Ht). split; [done|]. exists t'. split; [done|by apply tag_of_fmap].
  - destruct Hs as [?|(t' & x & ->%Hb & Ha%conditions_allowed & Hw)]; [by left|right; eauto].
Qed.

Lemma multipart_effect (b : bytes) key o w w' r :
  upload_part_size_bytes self <= Z.of_nat (length b) ->
  multipart_upload self key (Z.of_nat (length b)) (fun lo hi => Ok (slice b lo hi)) o w = (r, w') ->
  put_effect key b o w w' r.
Proof.
  intros Hlen. unfold multipart_upload, s3_bind at 1, prepare_multipart_upload, send.
  destruct (send_create_multipart_upload key w) as [s w1] eqn:Hs.
  apply create_multipart_upload_law in Hs as [Hr1 Hid].
  destruct s as [[id|]|e]; try (intros [= <- <-]; by apply put_effect_nothing).
  specialize (Hid id eq_refl). destruct (part_layout self _) as [count last] eqn:Hlay.
  pose proof (part_layout_spec self b count last ltac:(lia) Hlay) as (Hc & _ & _). unfold s3_bind.
  assert (range_u64 0 count = (fun j : nat => Z.of_nat j) <$> seq (Z.to_nat 0) (Z.to_nat count)) as ->
    by (unfold range_u64; rewrite Z.sub_0_r; by apply list_fmap_ext).
  destruct (upload_parts _ _ _ _ _ _ _ w1) as [[parts|e] w2] eqn:Hps.
  - apply upload_parts_spec with (ps0 := ∅) in Hps as [Hr2 (ps & Hps & _ & Hall)]; [|lia|done].
    intros H. apply (finish_effect b) in H as (pre & Hr3 & H).
    + exists pre. split; [|done]. etrans; [exact Hr1|]. by etrans.
    + intros x. by apply (assembled_pieces b count last id key ps parts).
  - intros [= <- <-]. apply upload_parts_err in Hps as [Hr2 Hne]. apply put_effect_nothing; [by etrans|done].
Qed.
Lemma oneshot_effect (b : bytes) key o w w' r :
  oneshot_upload key (Z.of_nat (length b)) (fun lo hi => Ok (slice b lo hi)) o w = (r, w') ->
  put_effect key b o w w' r.
Proof.
  unfold oneshot_upload, s3_bind, s3_ret, send. rewrite slice_all by lia.
  destruct (send_put_object _ _ _ w) as [s w1] eqn:Hs. apply put_object_law in Hs as (pre & Hr & Hs).
  intros [= <- <-]. exists pre. split; [done|]. destruct s as [t|e]; [|case_bool_decide].
  - destruct Hs as (Ha%conditions_allowed & t' & Hw & Ht). split; [done|]. exists t'.
    split; [done|by apply tag_of_fmap].
  - by rewrite conditions_allowed in Hs.
  - rewrite conditions_allowed in Hs. by case_bool_decide.
Qed.

Lemma put_bytes_effect key b o w w' r : s3_put_bytes self key b o w = (r, w') -> put_effect key b o w w' r.
Proof.
  unfold s3_put_bytes, s3_put_object, is_oneshot_upload.
  destruct (Z.ltb_spec (Z.of_nat (length b)) (upload_part_size_bytes self)).
  - apply oneshot_effect.
  - by apply multipart_effect.
Qed.

Lemma get_effect k w r w' :
  s3_get_with_e_tag k w = (r, w') ->
  rely (s3_objects w) (s3_objects w') /\
  match r with
  | Ok (b, t) => exists t', s3_objects w' !! k = Some (b, t') /\ (t = Some t' \/ t = None)
  | Err (NotFound _) => s3_objects w' !! k = None
  | Err _ => True
  end.
Proof.
  unfold s3_get_with_e_tag, get_stream_and_e_tag, s3_bind, s3_ret, send.
  destruct (send_get_object k None w) as [s w1] eqn:Hs. apply get_object_law in Hs as [Hr Hs].
  destruct s as [[body t]|[[| |code]|]].
  - destruct (read_stream body []) as [buf|e] eqn:Hb; intros [= <- <-]; (split; [done|]).
    + apply read_stream_delivered in Hb as (x & Hx & ->). destruct Hs as (b & t' & Hk & Ht & Hd).
      apply Hd in Hx as ->. exists t'. split; [done|by apply tag_of_fmap].
    + clear -Hb. revert Hb. generalize (@nil Byte.byte).
      induction body as [|[c|] body IH]; intros buf Hb; cbn [read_stream] in Hb; [done|by apply IH in Hb|by injection Hb as <-].
  - by intros [= <- <-].
  - by intros [= <- <-].
  - repeat case_bool_decide; by intros [= <- <-].
  - by intros [= <- <-].
Qed.

Lemma delete_effect k w r w' :
  s3_delete k DeleteOptions_default w = (r, w') ->
  exists pre, rely (s3_objects w) pre /\
  match r with
  | Ok _ => s3_objects w' = base.delete k pre
  | Err (NotFound _) => pre !! k = None /\ s3_objects w' = pre
  | Err _ => s3_objects w' = pre \/ s3_objects w' = base.delete k pre
  end.
Proof.
  unfold s3_delete, send. cbn [DeleteOptions_default delete_if_match fmap option_fmap option_map].
  destruct (send_delete_object k None w) as [s w1] eqn:Hs. apply delete_object_law in Hs as (pre & Hr & Hs).
  intros [= <- <-]. exists pre. split; [done|]. destruct s as [[]|[code|]]; cbn [sdk_code] in Hs; [done| |].
  - case_bool_decide; [done|]. by case_bool_decide.
  - by case_bool_decide.
Qed.

Lemma list_effect p w r w' :
  s3_list_prefix p w = (r, w') ->
  rely (s3_objects w) (s3_objects w') /\
  match r with
  | Ok ks => forall k,
      (k ∈ ks -> String.prefix p k = true) /\
      (String.prefix p k = true -> k ∉ ks ->
       exists m, rely (s3_objects w) m /\ rely m (s3_objects w') /\ m !! k = None)
  | Err _ => True
  end.
Proof.
  unfold s3_list_prefix. destruct (send_list_objects_v2 1000 p w) as [pages w1] eqn:Hs.
  apply list_objects_law in Hs as (Hr & Hpre & Hall). intros [= <- <-]. split; [done|].
  destruct (read_pages p pages []) as [ks|] eqn:Hk; [|done]. apply read_pages_elem in Hk as [Hne Hks].
  intros k. rewrite (Hks k). split.
  - intros [[]%elem_of_nil|(page & ? & ?)]. by eapply Hpre.
  - intros Hp Hnot. destruct (Hall k Hp) as [(e & He)|[(page & ? & ?)|?]]; [by destruct (Hne e)| |done].
    destruct Hnot. right. eauto.
Qed.

Lemma s3_laws : ObjectStoreLaws (s3_store self) rely.
Proof.
  constructor; cbn [objects s3_store world get_with_e_tag put_bytes delete copy_object list_prefix
                    backoff_next now system_time].
  - apply _.
  - apply get_effect.
  - intros k b o w r w' H. by apply put_bytes_effect.
  - apply delete_effect.
  - intros src dst w r w'. unfold s3_copy, send. destruct (send_copy_object _ dst w) as [s w1] eqn:Hs.
    apply copy_object_law in Hs as (pre & Hr & Hs). intros [= <- <-]. exists pre. split; [done|]. by destruct s.
  - apply list_effect.
  - apply s3_backoff_law.
  - apply s3_now_law.
  - apply s3_system_time_law.
Qed.
End Laws.

Module MemS3.
Inductive fault :=
| Works       (** the request is served *)
| SlowDown    (** the service refuses it *)
| Lost        (** the request does not arrive *)
| Unanswered. (** the request is served and the response is lost *)

Record mem := mkMem {
  mem_objects : Objects;
  mem_uploads : Uploads;
  mem_next : nat;
  mem_script : list fault;
  mem_clock : Z;
}.

Definition next_fault (w : mem) : fault * mem :=
  match mem_script w with
  | [] => (Works, w)
  | f :: fs => (f, mkMem (mem_objects w) (mem_uploads w) (mem_next w) fs (mem_clock w))
  end.

Definition fresh_name (p : string) (w : mem) : string := p +:+ pretty (mem_next w).

Definition set_objects (m : Objects) (w : mem) : mem :=
  mkMem m (mem_uploads w) (S (mem_next w)) (mem_script w) (mem_clock w).
Definition set_uploads (us : Uploads) (w : mem) : mem :=
  mkMem (mem_objects w) us (S (mem_next w)) (mem_script w) (mem_clock w).

(** An answer of the service under a fault. *)
Definition answer {A} (f : fault) (a : A) : result A (SdkError Code) :=
  match f with
  | Works => Ok a
  | SlowDown => Err (ServiceError (Some "SlowDown"))
  | _ => Err OtherSdkError
  end.

Definition serves (f : fault) : bool := match f with Works | Unanswered => true | _ => false end.

Definition holdsb (c : Conditions) (m : Objects) (k : string) : bool :=
  (negb (bool_decide (if_none_match c = Some "*")) || bool_decide (m !! k = None)) &&
  match if_match c with
  | None => true
  | Some t => match m !! k with Some (_, t') => bool_decide (mkETag t = t') | None => false end
  end.

Lemma holdsb_spec c m k : holdsb c m k = true <-> conditions_hold c m k.
Proof.
  unfold holdsb, conditions_hold. rewrite andb_true_iff, orb_true_iff, negb_true_iff, bool_decide_eq_false, bool_decide_eq_true.
  split.
  - intros [Hn Hm]. split; [by destruct Hn|]. intros t Ht. rewrite Ht in Hm.
    destruct (m !! k) as [[b t']|]; [|done]. apply bool_decide_eq_true in Hm as <-. eauto.
  - intros [Hn Hm]. split; [destruct (decide (if_none_match c = Some "*")); auto|].
    destruct (if_match c) as [t|]; [|done]. destruct (Hm t eq_refl) as [b ->]. by apply bool_decide_eq_true.
Qed.

(** Decimal digits. *)
Fixpoint parse_digits (s : string) (acc : Z) : Z :=
  match s with
  | EmptyString => acc
  | String c s => parse_digits s (acc * 10 + (Z.of_nat (Ascii.nat_of_ascii c) - 48))
  end.

Fixpoint split_at (c : Ascii.ascii) (s : string) (acc : string) : string * string :=
  match s with
  | EmptyString => (acc, EmptyString)
  | String d s => if Ascii.eqb c d then (acc, s) else split_at c s (acc +:+ String d EmptyString)
  end.

(** The bytes of an object that a range header asks for. *)
Definition ranged (h : option string) (b : bytes) : bytes :=
  match h with
  | None => b
  | Some h => let '(lo, hi) := split_at (Ascii.ascii_of_nat 45) (String.substring 6 (String.length h - 6) h) EmptyString in
              slice b (parse_digits lo 0) (parse_digits hi 0 + 1)
  end.

Definition head (k : string) (w : mem) : result (option Z * option string) (SdkError Code) * mem :=
  let '(f, w) := next_fault w in
  (match mem_objects w !! k with
   | Some (b, t) => answer f (Some (Z.of_nat (length b)), Some (e_tag_value t))
   | None => Err (ServiceError (Some "NotFound"))
   end, w).

Definition get (k : string) (h : option string) (w : mem) :
    result (Body * option string) (SdkError GetObjectError) * mem :=
  let '(f, w) := next_fault w in
  (match f, mem_objects w !! k with
   | Works, Some (b, t) => Ok ([Ok (ranged h b)], Some (e_tag_value t))
   | Works, None => Err (ServiceError NoSuchKey)
   | SlowDown, _ => Err (ServiceError (UnhandledGet (Some "SlowDown")))
   | Unanswered, Some (b, t) => Ok ([Ok (take 1 (ranged h b)); Err tt], Some (e_tag_value t))
   | _, _ => Err OtherSdkError
   end, w).

(** The effect of writing [b] under the conditions [c]. *)
Definition write (k : string) (b : bytes) (c : Conditions) (w : mem) :
    result (option string) (SdkError Code) * mem :=
  let '(f, w) := next_fault w in
  if serves f then
    if holdsb c (mem_objects w) k
    then (answer f (Some (fresh_name "tag" w)), set_objects (<[k := (b, mkETag (fresh_name "tag" w))]> (mem_objects w)) w)
    else (match f with Works => Err (ServiceError (Some "PreconditionFailed")) | _ => Err OtherSdkError end, w)
  else (answer f None, w).

Definition create (k : string) (w : mem) : result (option string) (SdkError Code) * mem :=
  let '(f, w) := next_fault w in
  if serves f then
    (answer f (Some (fresh_name "upload" w)), set_uploads (<[fresh_name "upload" w := (k, ∅)]> (mem_uploads w)) w)
  else (answer f None, w).

Definition part (k id : string) (n : Z) (b : bytes) (w : mem) : result (option string) (SdkError Code) * mem :=
  let '(f, w) := next_fault w in
  match mem_uploads w !! id with
  | Some (k', ps) =>
      if bool_decide (k' = k) && (1 <=? n) && (n <=? 10000) && serves f then
        (answer f (Some (fresh_name "part" w)),
         set_uploads (<[id := (k, <[n := (b, fresh_name "part" w)]> ps)]> (mem_uploads w)) w)
      else (match answer f tt with Ok _ => Err (ServiceError (Some "InvalidArgument")) | Err e => Err e end, w)
  | None => (Err (ServiceError (Some "NoSuchUpload")), w)
  end.

Definition finish (k id : string) (parts : list CompletedPart) (c : Conditions) (w : mem) :
    result (option string) (SdkError Code) * mem :=
  match assembled (mem_uploads w) id k parts with
  | Some b => write k b c w
  | None => (Err (ServiceError (Some "InvalidPart")), w)
  end.

Definition remove (k : string) (t : option string) (w : mem) : result unit (SdkError Code) * mem :=
  let '(f, w) := next_fault w in
  if serves f && holdsb (mkConditions None t) (mem_objects w) k
  then (answer f tt, set_objects (base.delete k (mem_objects w)) w)
  else (match answer f tt with Ok _ => Err (ServiceError (Some "PreconditionFailed")) | Err e => Err e end, w).

Definition remove_many (ks : list string) (w : mem) :
    result (list (option string) * list DeleteError) (SdkError Code) * mem :=
  let '(f, w) := next_fault w in
  if serves f then (answer f (Some <$> ks, []), set_objects (foldr base.delete (mem_objects w) ks) w)
  else (answer f ([], []), w).

Definition copy (bkt : string) (src dst : string) (w : mem) : result unit (SdkError Code) * mem :=
  let '(f, w) := next_fault w in
  match mem_objects w !! String.substring (String.length bkt + 1) (String.length src - (String.length bkt + 1)) src with
  | Some (b, _) =>
      if serves f then (answer f tt, set_objects (<[dst := (b, mkETag (fresh_name "tag" w))]> (mem_objects w)) w)
      else (answer f tt, w)
  | None => (match answer f tt with Ok _ => Err (ServiceError (Some "NoSuchKey")) | Err e => Err e end, w)
  end.

(** A page for every key. *)
Definition pages (n : Z) (p : string) (w : mem) : list (result (list (option string)) (SdkError Code)) * mem :=
  let '(f, w) := next_fault w in
  match f with
  | Works => ((fun k => Ok [Some k]) <$> filter (fun k => String.prefix p k = true) (map_to_list (mem_objects w)).*1, w)
  | _ => ([Err OtherSdkError], w)
  end.

Definition tick (w : mem) : Z * mem :=
  (mem_clock w, mkMem (mem_objects w) (mem_uploads w) (mem_next w) (mem_script w) (mem_clock w + 1000)).

Definition client (bkt : string) : S3Client := {|
  s3_world := mem;
  s3_objects := mem_objects;
  s3_uploads := mem_uploads;
  send_head_object := head;
  send_get_object := get;
  send_put_object := write;
  send_create_multipart_upload := create;
  send_upload_part := part;
  send_complete_multipart_upload := finish;
  send_delete_object := remove;
  send_delete_objects := remove_many;
  send_copy_object := copy bkt;
  send_list_objects_v2 := pages;
  s3_backoff_next := tick;
  s3_now := tick;
  s3_system_time := tick;
|}.

Lemma next_fault_same w f w' :
  next_fault w = (f, w') -> mem_objects w' = mem_objects w /\ mem_uploads w' = mem_uploads w.
Proof. unfold next_fault. destruct (mem_script w); by intros [= <- <-]. Qed.

Lemma substring_rest (a s : string) :
  String.substring (String.length a) (String.length (a +:+ s) - String.length a) (a +:+ s) = s.
Proof.
  induction a as [|c a IH]; [|exact IH].
  change (String.substring 0 (String.length s - 0) s = s). rewrite Nat.sub_0_r.
  induction s as [|d s IHs]; [done|]. exact (f_equal (String d) IHs).
Qed.

(** Writing under conditions, whatever the fault. *)
Lemma write_law k b c w r w' :
  write k b c w = (r, w') ->
  match r with
  | Ok t => conditions_hold c (mem_objects w) k /\
            exists t', mem_objects w' = <[k := (b, t')]> (mem_objects w) /\ tag_of t t'
  | Err e =>
      if bool_decide (sdk_code e = Some "PreconditionFailed")
      then ~ conditions_hold c (mem_objects w) k /\ mem_objects w' = mem_objects w
      else mem_objects w' = mem_objects w \/
           (conditions_hold c (mem_objects w) k /\ exists t', mem_objects w' = <[k := (b, t')]> (mem_objects w))
  end.
Proof.
  unfold write. destruct (next_fault w) as [f w1] eqn:Hf. apply next_fault_same in Hf as [<- _].
  pose proof (holdsb_spec c (mem_objects w1) k) as Hc.
  destruct f; cbn [serves answer]; [|by intros [= <- <-]; left|by intros [= <- <-]; left|];
    destruct (holdsb c (mem_objects w1) k); intros [= <- <-]; cbn [sdk_code].
  - split; [by apply Hc|]. eexists. split; [done|by left].
  - rewrite bool_decide_eq_true_2 by done. split; [|done]. by intros ?%Hc.
  - rewrite bool_decide_eq_false_2 by done. right. split; [by apply Hc|eauto].
  - rewrite bool_decide_eq_false_2 by done. by left.
Qed.

#[export] Instance client_laws bkt : S3ClientLaws (client bkt) bkt eq.
Proof.
  constructor; cbn [client s3_world s3_objects s3_uploads send_get_object send_put_object send_create_multipart_upload
    send_upload_part send_complete_multipart_upload send_delete_object send_copy_object send_list_objects_v2];
    [apply _| | | | | | | | |done|done|done].
  - intros k w r w'. unfold get. destruct (next_fault w) as [f w1] eqn:Hf. apply next_fault_same in Hf as [Hw _].
    intros [= <- <-]. split; [done|].
    destruct f, (mem_objects w1 !! k) as [[b t]|] eqn:Hk; try done; eexists _, _; (split; [done|]); (split; [by left|]).
    + intros d [= <-]. by rewrite app_nil_r.
    + by intros d [=].
  - intros k b c w r w' H. exists (mem_objects w). split; [done|]. by apply write_law.
  - intros k w r w'. unfold create. destruct (next_fault w) as [f w1] eqn:Hf. apply next_fault_same in Hf as [Hw _].
    destruct f; cbn [serves answer]; intros [= <- <-]; (split; [done|]); intros id [=]; subst.
    cbn. by rewrite lookup_insert_eq.
  - intros k id n b w r w'. unfold part. destruct (next_fault w) as [f w1] eqn:Hf. apply next_fault_same in Hf as [Hw Hu].
    rewrite <- Hu. destruct (mem_uploads w1 !! id) as [[k' ps]|] eqn:Hid; [|by intros [= <- <-]].
    case_bool_decide as Hk; cbn [andb]; [subst k'|destruct f; by intros [= <- <-]].
    destruct (Z.leb_spec 1 n), (Z.leb_spec n 10000); cbn [andb]; try (destruct f; by intros [= <- <-]).
    destruct f; cbn [serves answer]; intros [= <- <-]; (split; [done|]); intros t [=].
    split; [lia|]. eexists ps, _. split; [done|]. cbn. by rewrite lookup_insert_eq.
  - intros k id parts c w r w'. unfold finish. destruct (assembled (mem_uploads w) id k parts) as [b|] eqn:Ha.
    + intros H%write_law. exists (mem_objects w). split; [done|]. cbv zeta. destruct r as [t|e].
      * destruct H as (Hc & t' & Hw & Ht). exists t'. split; [|done]. eauto.
      * case_bool_decide; [left; by destruct H|]. destruct H as [?|(Hc & t' & Hw)]; [by left|right; eauto 10].
    + intros [= <- <-]. exists (mem_objects w). by split; [|left].
  - intros k w r w'. unfold remove. destruct (next_fault w) as [f w1] eqn:Hf. apply next_fault_same in Hf as [Hw _].
    replace (holdsb (mkConditions None None) (mem_objects w1) k) with true by done. rewrite andb_true_r.
    intros H. exists (mem_objects w1). split; [done|].
    destruct f; injection H as <- <-; cbn; [done|rewrite bool_decide_eq_false_2 by done; by left|by left|by right].
  - intros src dst w r w'. unfold copy. destruct (next_fault w) as [f w1] eqn:Hf. apply next_fault_same in Hf as [Hw _].
    pose proof (substring_rest (bkt +:+ "/") src) as Hsub. rewrite <- string_app_assoc in Hsub.
    replace (String.length (bkt +:+ "/")) with (String.length bkt + 1)%nat in Hsub by
      (clear; induction bkt as [|c s IH]; cbn; [done|]; by rewrite IH).
    rewrite Hsub. intros H. exists (mem_objects w1). split; [done|]. cbv zeta.
    destruct (mem_objects w1 !! src) as [[b t]|] eqn:Hs; destruct f; injection H as <- <-; cbn; eauto 10.
  - intros n p w ps w'. unfold pages. destruct (next_fault w) as [f w1] eqn:Hf. apply next_fault_same in Hf as [Hw _].
    destruct f; intros [= <- <-]; (split; [done|]).
    2-4: split; [intros page k [=]%list_elem_of_singleton|intros k _; left; exists OtherSdkError; by left].
    split.
    + intros page k (k' & [= ->] & [Hp _]%list_elem_of_filter)%list_elem_of_fmap [= ->]%list_elem_of_singleton. done.
    + intros k Hp. right. destruct (mem_objects w1 !! k) as [x|] eqn:Hk; [left|right; rewrite Hw in Hk; eauto].
      exists [Some k]. split; [|by left]. apply list_elem_of_fmap. exists k. split; [done|].
      apply list_elem_of_filter. split; [done|]. apply list_elem_of_fmap. exists (k, x). split; [done|].
      by apply elem_of_map_to_list.
Qed.
End MemS3.
