(* ===== verification/AdmissionFacts.v ===== *)
(** * Shared requests

    The interleavings of callers and tasks of the admission controller, and
    what they keep: every caller waits on exactly one request or was answered
    once, with what was fetched for its keys, and the priority of a request is
    the highest one that a live caller asked for. *)

From S2P Require Import Prelude Setsum Storage S3 Admission.

#[local] Open Scope Z_scope.

Section Steps.
Context {V : Type}.

(** The state, the calls that were made and the fetches that ended. *)
Record ASys := mkASys {
  adm : Adm V;
  calls : list Call;
  fetches : list (Call * result (@Fetched V) StorageError);
}.

Definition adm_empty : Adm V := mkAdm ∅ ∅ [] [] [].
Definition astart : ASys := mkASys adm_empty [] [].

Inductive astep : relation ASys :=
| astep_enter c s :
    caller c ∉ (caller <$> calls s) ->
    astep s (mkASys (ac_enter c (adm s)) (c :: calls s) (fetches s))
| astep_finish id c res a s :
    (id, c) ∈ tasks (adm s) ->
    (forall x, res = Ok x -> x.1.1 = return_type c) ->
    ac_finish id c res (adm s) = Some a ->
    astep s (mkASys a (calls s) ((c, res) :: fetches s))
| astep_drop g s :
    g ∈ guards (adm s) ->
    astep s (mkASys (drop_guard g (adm s)) (calls s) (fetches s)).

(** Everyone who waits. *)
Definition waiting_senders (m : gmap string Inflight) : list nat :=
  concat ((fun kr => senders kr.2) <$> map_to_list m).

Definition guard_count (p : StorageRequestPriority) (id : nat)
    (gs : list (nat * nat * StorageRequestPriority)) : Z :=
  Z.of_nat (length (List.filter (fun g => bool_decide (g.1.2 = id /\ g.2 = p)) gs)).

(** The counters of an unfinished request count its guards. *)
Definition counts (gs : list (nat * nat * StorageRequestPriority)) (id : nat) (c : Context) : Prop :=
  p0 (holder c) = u64_wrap (guard_count P0 id gs) /\ p1 (holder c) = u64_wrap (guard_count P1 id gs).

(** Requests and the tasks that serve them. *)
Record requests_ok (s : ASys) : Prop := {
  ok_task_ids : NoDup (tasks (adm s)).*1;
  ok_tasks : forall id c, (id, c) ∈ tasks (adm s) ->
    exists r, outstanding (adm s) !! composite_key (keys c) = Some r /\ context r = id;
  ok_outstanding : forall k r, outstanding (adm s) !! k = Some r ->
    exists c, (context r, c) ∈ tasks (adm s) /\ composite_key (keys c) = k;
  ok_spawned : forall id c, (id, c) ∈ tasks (adm s) -> c ∈ calls s;
}.

(** Contexts and guards. *)
Record priorities_ok (s : ASys) : Prop := {
  ok_unfinished : forall k r, outstanding (adm s) !! k = Some r ->
    exists x, contexts (adm s) !! context r = Some x /\ finished x = false;
  ok_guards : forall g, g ∈ guards (adm s) -> is_Some (contexts (adm s) !! g.1.2);
  ok_guard_callers : NoDup (guards (adm s)).*1.*1;
  ok_guards_called : forall g, g ∈ guards (adm s) -> g.1.1 ∈ (caller <$> calls s);
  ok_counts : forall id x, contexts (adm s) !! id = Some x -> finished x = false -> counts (guards (adm s)) id x;
}.

(** Callers and answers. *)
Record answers_ok (s : ASys) : Prop := {
  ok_callers : caller <$> calls s ≡ₚ waiting_senders (outstanding (adm s)) ++ (answered (adm s)).*1;
  ok_distinct : NoDup (caller <$> calls s);
  ok_senders : forall k r tx, outstanding (adm s) !! k = Some r -> tx ∈ senders r ->
    exists c, c ∈ calls s /\ caller c = tx /\ composite_key (keys c) = k;
  ok_answers : forall tx res, (tx, res) ∈ answered (adm s) ->
    exists c c0, c ∈ calls s /\ caller c = tx /\ (c0, res) ∈ fetches s /\
                 composite_key (keys c0) = composite_key (keys c);
  ok_fetches : forall c res, (c, res) ∈ fetches s ->
    c ∈ calls s /\ forall x, res = Ok x -> x.1.1 = return_type c;
}.

Record adm_ok (s : ASys) : Prop := {
  ok_requests : requests_ok s;
  ok_priorities : priorities_ok s;
  ok_all_answers : answers_ok s;
}.

(** ** Lists of senders *)

Lemma waiting_insert m k r :
  m !! k = None -> waiting_senders (<[k := r]> m) ≡ₚ senders r ++ waiting_senders m.
Proof. intros Hk. unfold waiting_senders. by rewrite map_to_list_insert. Qed.

Lemma waiting_delete m k r :
  m !! k = Some r -> waiting_senders m ≡ₚ senders r ++ waiting_senders (base.delete k m).
Proof.
  intros Hk. rewrite <- (insert_id m k r Hk) at 1. rewrite <- insert_delete_eq.
  apply waiting_insert. apply lookup_delete_eq.
Qed.

Lemma waiting_update m k r r' :
  m !! k = Some r -> waiting_senders (<[k := r']> m) ≡ₚ senders r' ++ waiting_senders (base.delete k m).
Proof. intros Hk. rewrite <- insert_delete_eq. apply waiting_insert. apply lookup_delete_eq. Qed.

(** ** Counting guards *)

Lemma guard_count_cons p id g gs :
  guard_count p id (g :: gs) = (if bool_decide (g.1.2 = id /\ g.2 = p) then 1 else 0) + guard_count p id gs.
Proof. unfold guard_count. cbn [List.filter]. case_bool_decide; cbn [length]; lia. Qed.

Lemma guard_count_drop p id g gs :
  NoDup gs.*1.*1 -> g ∈ gs ->
  guard_count p id gs =
  (if bool_decide (g.1.2 = id /\ g.2 = p) then 1 else 0) +
  guard_count p id (List.filter (fun h => negb (bool_decide (h.1.1 = g.1.1))) gs).
Proof.
  induction gs as [|h gs IH]; [by intros _ []%elem_of_nil|]. cbn [fmap list_fmap].
  intros [Hh Hnd]%NoDup_cons [->|Hg]%elem_of_cons; rewrite guard_count_cons; cbn [List.filter].
  - rewrite (bool_decide_eq_true_2 (h.1.1 = h.1.1)) by done. cbn [negb]. f_equal. f_equal. symmetry. apply filter_all.
    apply Forall_forall. intros x Hx. rewrite negb_true_iff, bool_decide_eq_false. intros He. apply Hh.
    rewrite <- He. apply list_elem_of_fmap. exists x.1. split; [done|]. by apply list_elem_of_fmap_2.
  - rewrite (bool_decide_eq_false_2 (h.1.1 = g.1.1)); cbn [negb].
    + rewrite guard_count_cons, (IH Hnd Hg). lia.
    + intros He. apply Hh. rewrite He. apply list_elem_of_fmap. exists g.1. split; [done|]. by apply list_elem_of_fmap_2.
Qed.

Lemma guard_count_fresh p id gs : (forall g, g ∈ gs -> g.1.2 <> id) -> guard_count p id gs = 0.
Proof.
  intros H. unfold guard_count. rewrite filter_none; [done|]. apply Forall_forall. intros g Hg.
  apply bool_decide_eq_false. intros [? _]. by apply (H g).
Qed.

Lemma wrap_add z : wrapping_add (u64_wrap z) 1 = u64_wrap (z + 1).
Proof. unfold wrapping_add, u64_wrap. by rewrite Zplus_mod_idemp_l. Qed.

Lemma wrap_sub z : wrapping_sub (u64_wrap (1 + z)) 1 = u64_wrap z.
Proof. unfold wrapping_sub, u64_wrap. rewrite Zminus_mod_idemp_l. f_equal. lia. Qed.

(** ** The invariant holds *)

Lemma alter_finished (f : Context -> Context) i (m : gmap nat Context) j x :
  (forall y, finished (f y) = finished y) -> m !! j = Some x ->
  exists y, alter f i m !! j = Some y /\ finished y = finished x.
Proof.
  intros Hf Hx. destruct (decide (i = j)) as [->|Hne].
  - exists (f x). rewrite lookup_alter_eq, Hx. by split.
  - exists x. by rewrite lookup_alter_ne.
Qed.

Lemma counts_add p id c (g : nat * nat * StorageRequestPriority) gs :
  g.1.2 = id -> g.2 = p -> counts gs id c ->
  counts (g :: gs) id (maybe_update_priority p c).
Proof.
  destruct g as [[tx id'] q]. cbn [fst snd]. intros -> -> [H0 H1].
  unfold counts, maybe_update_priority. cbn [holder]. rewrite !guard_count_cons. cbn [fst snd].
  destruct p; cbn [add_priority p0 p1]; rewrite H0, H1, ?wrap_add.
  - rewrite bool_decide_eq_true_2, bool_decide_eq_false_2 by (done || by intros [_ ?]). split; f_equal; lia.
  - rewrite bool_decide_eq_false_2, bool_decide_eq_true_2 by (done || by intros [_ ?]). split; f_equal; lia.
Qed.

Lemma counts_other id c (g : nat * nat * StorageRequestPriority) gs :
  g.1.2 <> id -> counts gs id c -> counts (g :: gs) id c.
Proof.
  intros Hid [H0 H1]. unfold counts. rewrite !guard_count_cons, !bool_decide_eq_false_2 by naive_solver. done.
Qed.

(** *** A call *)

Lemma enter_requests c s :
  adm_ok s -> requests_ok (mkASys (ac_enter c (adm s)) (c :: calls s) (fetches s)).
Proof.
  intros [[Hti Ht Ho Hsp] [Hu _ _ _ _] _]. unfold ac_enter. set (k0 := composite_key (keys c)).
  destruct (outstanding (adm s) !! k0) as [r|] eqn:Hr;
    constructor; cbn [adm calls outstanding contexts tasks].
  - done.
  - intros id c' Hin. destruct (Ht id c' Hin) as (r' & Hr' & Hid).
    destruct (decide (k0 = composite_key (keys c'))) as [He|He].
    + rewrite <- He in Hr' |- *. rewrite lookup_insert_eq. eexists. split; [done|].
      rewrite Hr in Hr'. by injection Hr' as <-.
    + rewrite lookup_insert_ne by done. eauto.
  - intros k r' Hk. destruct (decide (k0 = k)) as [<-|He].
    + rewrite lookup_insert_eq in Hk. injection Hk as <-. exact (Ho _ _ Hr).
    + rewrite lookup_insert_ne in Hk by done. by apply Ho.
  - intros id c' Hin. right. by eapply Hsp.
  - cbn. apply NoDup_cons. split; [|done]. intros ([id c'] & He & Hin)%list_elem_of_fmap.
    destruct (Ht _ _ Hin) as (r' & Hr' & Hid). destruct (Hu _ _ Hr') as (x & Hx & _).
    apply (is_fresh (dom (contexts (adm s)))). rewrite He. cbn [fst]. rewrite <- Hid. by apply elem_of_dom_2 in Hx.
  - intros id c' [[= -> ->]|Hin]%elem_of_cons; [fold k0; rewrite lookup_insert_eq; eauto|].
    destruct (Ht id c' Hin) as (r' & Hr' & Hid). exists r'. split; [|done].
    rewrite lookup_insert_ne; [done|]. intros He. fold k0 in Hr'. congruence.
  - intros k r' Hk. destruct (decide (k0 = k)) as [<-|He].
    + rewrite lookup_insert_eq in Hk. injection Hk as <-. exists c. by split; [left|].
    + rewrite lookup_insert_ne in Hk by done. destruct (Ho _ _ Hk) as (c' & ? & ?). exists c'. by split; [right|].
  - intros id c' [[= -> ->]|Hin]%elem_of_cons; [by left|]. right. by eapply Hsp.
Qed.

Lemma new_guard_callers c id s :
  priorities_ok s -> caller c ∉ (caller <$> calls s) ->
  NoDup ((caller c, id, call_priority c) :: guards (adm s)).*1.*1 /\
  forall g, g ∈ (caller c, id, call_priority c) :: guards (adm s) -> g.1.1 ∈ (caller <$> (c :: calls s)).
Proof.
  intros [_ _ Hgc Hgd _] Hc. split.
  - cbn. apply NoDup_cons. split; [|done].
    intros (x & He & (g & -> & Hin)%list_elem_of_fmap)%list_elem_of_fmap. apply Hc. rewrite He. by apply Hgd.
  - intros g [->|Hin]%elem_of_cons; cbn; [by left|right; by apply Hgd].
Qed.

Lemma enter_join_priorities c s r :
  adm_ok s -> caller c ∉ (caller <$> calls s) -> outstanding (adm s) !! composite_key (keys c) = Some r ->
  priorities_ok (mkASys (ac_enter c (adm s)) (c :: calls s) (fetches s)).
Proof.
  intros [_ Hp _] Hc Hr. pose proof (new_guard_callers c (context r) s Hp Hc) as [Hnd Hcalled].
  destruct Hp as [Hu Hg _ _ Hcn]. unfold ac_enter. rewrite Hr.
  assert (forall j x, contexts (adm s) !! j = Some x -> exists y,
    alter (maybe_update_priority (call_priority c)) (context r) (contexts (adm s)) !! j = Some y /\ finished y = finished x)
    as Halter by (intros; by apply alter_finished).
  constructor; cbn [adm calls outstanding contexts guards].
  - intros k r' Hk. assert (exists r0, outstanding (adm s) !! k = Some r0 /\ context r0 = context r') as (r0 & Hr0 & <-).
    { destruct (decide (composite_key (keys c) = k)) as [<-|He].
      - rewrite lookup_insert_eq in Hk. injection Hk as <-. eauto.
      - rewrite lookup_insert_ne in Hk by done. eauto. }
    destruct (Hu k r0 Hr0) as (x & Hx & Hf). destruct (Halter _ _ Hx) as (y & Hy & Hfy).
    exists y. split; [done|congruence].
  - intros g [->|[x Hx]%Hg]%elem_of_cons; [destruct (Hu _ _ Hr) as (x & Hx & _)|];
      destruct (Halter _ _ Hx) as (y & Hy & _); eauto.
  - exact Hnd.
  - exact Hcalled.
  - intros id x [[<- (x0 & Hx0 & ->)]|[Hne Hx]]%lookup_alter_Some Hf.
    + apply counts_add; [done|done|]. by apply Hcn.
    + apply counts_other; [done|]. by apply Hcn.
Qed.

Lemma enter_new_priorities c s :
  adm_ok s -> caller c ∉ (caller <$> calls s) -> outstanding (adm s) !! composite_key (keys c) = None ->
  priorities_ok (mkASys (ac_enter c (adm s)) (c :: calls s) (fetches s)).
Proof.
  intros [_ Hp _] Hc Hr. set (id := fresh (dom (contexts (adm s)))).
  pose proof (new_guard_callers c id s Hp Hc) as [Hnd Hcalled]. destruct Hp as [Hu Hg _ _ Hcn].
  assert (contexts (adm s) !! id = None) as Hid by (apply not_elem_of_dom, is_fresh).
  unfold ac_enter. rewrite Hr. fold id. constructor; cbn [adm calls outstanding contexts guards].
  - intros k r Hk. destruct (decide (composite_key (keys c) = k)) as [<-|He].
    + rewrite lookup_insert_eq in Hk. injection Hk as <-. cbn [context]. rewrite lookup_insert_eq. eauto.
    + rewrite lookup_insert_ne in Hk by done. destruct (Hu k r Hk) as (x & Hx & Hf). exists x.
      rewrite lookup_insert_ne by congruence. by split.
  - intros g [->|[x Hx]%Hg]%elem_of_cons; cbn [fst snd]; [by rewrite lookup_insert_eq|].
    rewrite lookup_insert_ne by congruence. eauto.
  - exact Hnd.
  - exact Hcalled.
  - intros j x [[<- <-]|[Hne Hx]]%lookup_insert_Some Hf.
    + assert (forall p, guard_count p id (guards (adm s)) = 0) as H0.
      { intros p. apply guard_count_fresh. intros g [x Hx]%Hg He. congruence. }
      unfold counts. rewrite !guard_count_cons, !H0. cbn [fst snd holder PriorityHolder_new].
      destruct (call_priority c); repeat case_bool_decide; naive_solver.
    + apply counts_other; [done|]. by apply Hcn.
Qed.

Lemma enter_answers c s :
  adm_ok s -> caller c ∉ (caller <$> calls s) ->
  answers_ok (mkASys (ac_enter c (adm s)) (c :: calls s) (fetches s)).
Proof.
  intros [_ _ [Hca Hdi Hse Han Hft]] Hc. unfold ac_enter. set (k0 := composite_key (keys c)).
  constructor; cbn [adm calls fetches].
  - destruct (outstanding (adm s) !! k0) as [r|] eqn:Hr; cbn [outstanding answered fmap list_fmap]; rewrite Hca.
    + rewrite (waiting_update _ _ _ _ Hr), (waiting_delete _ _ _ Hr). cbn [senders]. solve_Permutation.
    + by rewrite (waiting_insert _ _ _ Hr).
  - cbn [fmap list_fmap]. by apply NoDup_cons.
  - assert (forall k r tx, outstanding (adm s) !! k = Some r -> tx ∈ senders r ->
              exists c', c' ∈ c :: calls s /\ caller c' = tx /\ composite_key (keys c') = k) as Hold.
    { intros k r tx Hk Hin. destruct (Hse _ _ _ Hk Hin) as (c' & ? & ? & ?). exists c'. split_and!; [by right|done..]. }
    intros k r' tx. destruct (outstanding (adm s) !! k0) as [r|] eqn:Hr; cbn [outstanding];
      (destruct (decide (k0 = k)) as [<-|He]; [|rewrite lookup_insert_ne by done; apply Hold]);
      rewrite lookup_insert_eq; intros [= <-]; cbn [senders].
    + intros [Hin| ->%list_elem_of_singleton]%elem_of_app; [by eapply Hold|]. exists c. split_and!; [by left|done..].
    + intros ->%list_elem_of_singleton. exists c. split_and!; [by left|done..].
  - intros tx res Hin. destruct (Han tx res) as (c' & c0 & ? & ? & ? & ?).
    { by destruct (outstanding (adm s) !! k0). }
    exists c', c0. split_and!; [by right|done..].
  - intros c' res Hin. destruct (Hft _ _ Hin) as [? ?]. split; [by right|done].
Qed.

(** *** The end of a task *)

Lemma elem_of_other_tasks id (ts : list (nat * Call)) x :
  x ∈ List.filter (fun t => negb (bool_decide (t.1 = id))) ts <-> x ∈ ts /\ x.1 <> id.
Proof.
  rewrite !list_elem_of_In, filter_In, negb_true_iff, bool_decide_eq_false. done.
Qed.

Lemma NoDup_filter_fst id (ts : list (nat * Call)) :
  NoDup ts.*1 -> NoDup (List.filter (fun t => negb (bool_decide (t.1 = id))) ts).*1.
Proof.
  induction ts as [|t ts IH]; [done|]. cbn. intros [Ht Hnd]%NoDup_cons. case_bool_decide; cbn; [by apply IH|].
  apply NoDup_cons. split; [|by apply IH]. intros (x & He & [Hin _]%elem_of_other_tasks)%list_elem_of_fmap.
  apply Ht. rewrite He. by apply list_elem_of_fmap_2.
Qed.

Lemma task_call id c c' (ts : list (nat * Call)) : NoDup ts.*1 -> (id, c) ∈ ts -> (id, c') ∈ ts -> c = c'.
Proof.
  induction ts as [|t ts IH]; [by intros _ []%elem_of_nil|]. cbn. intros [Ht Hnd]%NoDup_cons.
  intros [<-|H]%elem_of_cons [He|H']%elem_of_cons; [by injection He| | |by apply IH].
  - destruct Ht. cbn. apply list_elem_of_fmap. by exists (id, c').
  - destruct Ht. rewrite <- He. cbn. apply list_elem_of_fmap. by exists (id, c).
Qed.

(** A task whose keys are those of another is that other task. *)
Lemma same_task s id id' c c' :
  requests_ok s -> (id, c) ∈ tasks (adm s) -> (id', c') ∈ tasks (adm s) ->
  composite_key (keys c) = composite_key (keys c') -> id = id'.
Proof.
  intros [_ Ht _ _] H H' He. destruct (Ht _ _ H) as (r & Hr & <-), (Ht _ _ H') as (r' & Hr' & <-).
  rewrite He, Hr' in Hr. by injection Hr as ->.
Qed.

Lemma finish_requests id c res a s :
  adm_ok s -> (id, c) ∈ tasks (adm s) -> ac_finish id c res (adm s) = Some a ->
  requests_ok (mkASys a (calls s) ((c, res) :: fetches s)).
Proof.
  intros [Hreq _ _] Hin. pose proof Hreq as [Hti Ht Ho Hsp]. unfold ac_finish.
  destruct (Ht _ _ Hin) as (r & Hr & Hid). rewrite Hr. intros [= <-].
  constructor; cbn [adm calls tasks outstanding].
  - by apply NoDup_filter_fst.
  - intros id' c' [Hin' Hne]%elem_of_other_tasks. cbn [fst] in Hne. destruct (Ht _ _ Hin') as (r' & Hr' & Hid').
    exists r'. split; [|done]. rewrite lookup_delete_ne; [done|]. intros He. apply Hne.
    symmetry. by apply (same_task s id id' c c').
  - intros k r' [Hne Hk]%lookup_delete_Some. destruct (Ho _ _ Hk) as (c' & Hc' & He). exists c'. split; [|done].
    apply elem_of_other_tasks. split; [done|]. cbn [fst]. intros Heq. rewrite Heq in Hc'.
    apply Hne. rewrite <- He.
    by rewrite (task_call _ _ _ _ Hti Hc' Hin).
  - intros id' c' [Hin' _]%elem_of_other_tasks. by eapply Hsp.
Qed.

Lemma finish_priorities id c res a s :
  adm_ok s -> (id, c) ∈ tasks (adm s) -> ac_finish id c res (adm s) = Some a ->
  priorities_ok (mkASys a (calls s) ((c, res) :: fetches s)).
Proof.
  intros [Hreq [Hu Hg Hgc Hgd Hcn] _] Hin. pose proof Hreq as [_ Ht Ho _]. unfold ac_finish.
  destruct (Ht _ _ Hin) as (r & Hr & Hid). rewrite Hr. intros [= <-].
  constructor; cbn [adm calls outstanding contexts guards]; [|intros g [x Hx]%Hg|done|done|].
  - intros k r' [Hne Hk]%lookup_delete_Some. destruct (Hu _ _ Hk) as (x & Hx & Hf). exists x. split; [|done].
    rewrite lookup_alter_ne; [done|]. intros He. apply Hne. destruct (Ho _ _ Hk) as (c' & Hc' & <-).
    rewrite <- He, Hid in Hc'. pose proof (ok_task_ids _ Hreq) as Hti.
    by rewrite (task_call _ _ _ _ Hti Hc' Hin).
  - destruct (decide (context r = g.1.2)) as [->|Hne];
      [rewrite lookup_alter_eq, Hx; eauto|rewrite lookup_alter_ne by done; eauto].
  - intros j x [[_ (y & _ & ->)]|[_ Hx]]%lookup_alter_Some Hf; [done|]. by apply Hcn.
Qed.

Lemma finish_answers id c res a s :
  adm_ok s -> (id, c) ∈ tasks (adm s) -> (forall x, res = Ok x -> x.1.1 = return_type c) ->
  ac_finish id c res (adm s) = Some a ->
  answers_ok (mkASys a (calls s) ((c, res) :: fetches s)).
Proof.
  intros [[_ Ht _ Hsp] _ [Hca Hdi Hse Han Hft]] Hin Hty. unfold ac_finish.
  destruct (Ht _ _ Hin) as (r & Hr & Hid). rewrite Hr. intros [= <-].
  constructor; cbn [adm calls fetches outstanding answered].
  - rewrite Hca, (waiting_delete _ _ _ Hr), fmap_app, <- list_fmap_compose. unfold compose. cbn [fst].
    rewrite list_fmap_id. solve_Permutation.
  - exact Hdi.
  - intros k r' tx [_ Hk]%lookup_delete_Some. by apply Hse.
  - intros tx res' [Hold|(tx' & [= -> ->] & Hs)%list_elem_of_fmap]%elem_of_app.
    + destruct (Han _ _ Hold) as (c' & c0 & ? & ? & ? & ?). exists c', c0. split_and!; [done|done|by right|done].
    + destruct (Hse _ _ _ Hr Hs) as (c' & ? & ? & ?). exists c', c. split_and!; [done|done|by left|done].
  - intros c' res' [[= -> ->]|Hf]%elem_of_cons; [split; [by eapply Hsp|done]|by apply Hft].
Qed.

(** *** A guard is dropped *)

Lemma counts_drop g gs x :
  NoDup gs.*1.*1 -> g ∈ gs -> finished x = false -> counts gs g.1.2 x ->
  counts (List.filter (fun h => negb (bool_decide (h.1.1 = g.1.1))) gs) g.1.2 (cleanup_priority g.2 x).
Proof.
  intros Hnd Hg Hf [H0 H1]. unfold counts, cleanup_priority. rewrite Hf.
  rewrite (guard_count_drop P0 g.1.2 g gs Hnd Hg) in H0. rewrite (guard_count_drop P1 g.1.2 g gs Hnd Hg) in H1.
  destruct (g.2); cbn [remove_priority holder p0 p1];
    rewrite ?bool_decide_eq_true_2 in H0 by done; rewrite ?bool_decide_eq_true_2 in H1 by done;
    rewrite ?bool_decide_eq_false_2 in H0 by (by intros [_ ?]); rewrite ?bool_decide_eq_false_2 in H1 by (by intros [_ ?]);
    rewrite H0, H1, wrap_sub; by split.
Qed.

Lemma counts_drop_other g gs id x :
  NoDup gs.*1.*1 -> g ∈ gs -> g.1.2 <> id -> counts gs id x ->
  counts (List.filter (fun h => negb (bool_decide (h.1.1 = g.1.1))) gs) id x.
Proof.
  intros Hnd Hg Hne [H0 H1]. unfold counts.
  rewrite (guard_count_drop P0 id g gs Hnd Hg), bool_decide_eq_false_2 in H0 by (by intros [? _]).
  rewrite (guard_count_drop P1 id g gs Hnd Hg), bool_decide_eq_false_2 in H1 by (by intros [? _]). by split.
Qed.

Lemma elem_of_other_guards (g x : nat * nat * StorageRequestPriority) gs :
  x ∈ List.filter (fun h => negb (bool_decide (h.1.1 = g.1.1))) gs -> x ∈ gs.
Proof. rewrite !list_elem_of_In, filter_In. by intros [? _]. Qed.

Lemma NoDup_other_guards (g : nat * nat * StorageRequestPriority) (gs : list (nat * nat * StorageRequestPriority)) :
  NoDup gs.*1.*1 -> NoDup (List.filter (fun h => negb (bool_decide (h.1.1 = g.1.1))) gs).*1.*1.
Proof.
  induction gs as [|h gs IH]; [done|]. cbn. intros [Hh Hnd]%NoDup_cons. case_bool_decide; cbn; [by apply IH|].
  apply NoDup_cons. split; [|by apply IH]. intros (x & He & (y & -> & Hy%elem_of_other_guards)%list_elem_of_fmap)%list_elem_of_fmap.
  apply Hh. rewrite He. apply list_elem_of_fmap. exists y.1. split; [done|]. by apply list_elem_of_fmap_2.
Qed.

Lemma drop_priorities g s :
  adm_ok s -> g ∈ guards (adm s) -> priorities_ok (mkASys (drop_guard g (adm s)) (calls s) (fetches s)).
Proof.
  intros [_ [Hu Hg Hgc Hgd Hcn] _] Hin.
  assert (forall y, finished (cleanup_priority g.2 y) = finished y) as Hfin.
  { intros y. unfold cleanup_priority. destruct (finished y) eqn:E; [done|]. by destruct (remove_priority _ _). }
  constructor; cbn [adm calls drop_guard outstanding contexts guards].
  - intros k r Hk. destruct (Hu _ _ Hk) as (x & Hx & Hf).
    destruct (alter_finished (cleanup_priority g.2) g.1.2 _ _ x Hfin Hx) as (y & Hy & Hfy). exists y. split; congruence.
  - intros h [x Hx]%elem_of_other_guards%Hg.
    destruct (alter_finished (cleanup_priority g.2) g.1.2 _ _ x Hfin Hx) as (y & Hy & _). eauto.
  - by apply NoDup_other_guards.
  - intros h Hh%elem_of_other_guards. by apply Hgd.
  - intros id x [[<- (y & Hy & ->)]|[Hne Hx]]%lookup_alter_Some Hf.
    + rewrite Hfin in Hf. apply counts_drop; [done..|]. by apply Hcn.
    + apply counts_drop_other; [done..|]. by apply Hcn.
Qed.

Lemma astep_ok s s' : adm_ok s -> astep s s' -> adm_ok s'.
Proof.
  intros Hok Hs. revert Hok. destruct Hs as [c s1 Hc|id c res a s1 Hin Hty Hfin|g s1 Hg]; intros Hok.
  - constructor; [by apply enter_requests| |by apply enter_answers].
    destruct (outstanding (adm s1) !! composite_key (keys c)) as [r|] eqn:Hr;
      [by eapply enter_join_priorities|by apply enter_new_priorities].
  - constructor; [by eapply finish_requests|by eapply finish_priorities|by eapply finish_answers].
  - constructor; [|by apply drop_priorities|]; destruct Hok as [[] _ []]; by constructor.
Qed.

Lemma areachable_ok s : rtc astep astart s -> adm_ok s.
Proof.
  enough (forall a, adm_ok a -> rtc astep a s -> adm_ok s) as H.
  { apply H. constructor; constructor; cbn;
      first [done|by constructor|intros; exfalso; by eapply not_elem_of_nil]. }
  intros a Ha Hr. induction Hr as [|? ? ? Hs _ IH]; [done|]. apply IH. by eapply astep_ok.
Qed.

(** ** Keys *)

Fixpoint no_bar (s : string) : bool :=
  match s with
  | EmptyString => true
  | String c s => negb (Ascii.eqb c (Ascii.ascii_of_nat 124)) && no_bar s
  end.

(** A rest of a composite key. *)
Definition bar_or_empty (s : string) : Prop := s = "" \/ exists s', s = "|" +:+ s'.

Lemma no_bar_app_inj a b x y :
  no_bar a = true -> no_bar b = true -> bar_or_empty x -> bar_or_empty y -> a +:+ x = b +:+ y -> a = b /\ x = y.
Proof.
  revert b. induction a as [|c a IH]; intros [|d b] Ha Hb Hx Hy He; cbn in *.
  - done.
  - destruct Hx as [->|[x' ->]]; [done|]. injection He as <- _. done.
  - destruct Hy as [->|[y' ->]]; [done|]. injection He as -> _. done.
  - apply andb_prop in Ha as [_ Ha], Hb as [_ Hb]. injection He as <- He.
    destruct (IH b Ha Hb Hx Hy He) as [-> ->]. done.
Qed.

Lemma composite_key_cons k ks :
  composite_key (k :: ks) = k +:+ match ks with [] => "" | _ => "|" +:+ composite_key ks end.
Proof.
  cbn [composite_key]. destruct ks as [|k' ks]; cbn [foldl]; [by rewrite string_app_nil_r|].
  cbn [composite_key]. revert k'. induction ks as [|k'' ks IH]; intros k'; cbn [foldl]; [done|].
  rewrite <- !string_app_assoc. apply IH.
Qed.

(** Lists of keys without a bar have different composite keys. *)
Lemma composite_key_inj ks ks' :
  ks <> [] -> ks' <> [] -> Forall (fun k => no_bar k = true) ks -> Forall (fun k => no_bar k = true) ks' ->
  composite_key ks = composite_key ks' -> ks = ks'.
Proof.
  revert ks'. induction ks as [|k ks IH]; intros [|k' ks'] Hne Hne' Hk Hk'; [done..|].
  apply Forall_cons in Hk as [Hk Hks], Hk' as [Hk' Hks'].
  rewrite !composite_key_cons. intros He. apply no_bar_app_inj in He as [-> He]; [|done|done|..].
  - f_equal. destruct ks as [|a ks], ks' as [|b ks']; [done|done|done|]. injection He as He. by apply IH.
  - destruct ks; [by left|right; eauto].
  - destruct ks'; [by left|right; eauto].
Qed.

(** ** Priorities *)

(** The counters of a request that is in flight give the highest priority
    among its live callers. *)
Lemma counts_priority gs id c :
  Z.of_nat (length gs) <= u64_max -> (exists g, g ∈ gs /\ g.1.2 = id) -> counts gs id c ->
  (holder_priority (holder c) = P0 <-> exists g, g ∈ gs /\ g.1.2 = id /\ g.2 = P0).
Proof.
  intros Hlen (g & Hg & Hid) [H0 H1].
  assert (forall p, 0 <= guard_count p id gs <= u64_max) as Hb.
  { intros p. unfold guard_count. split; [lia|]. etrans; [|exact Hlen]. apply Nat2Z.inj_le, filter_length_le. }
  assert (forall p, 0 < guard_count p id gs <-> exists g, g ∈ gs /\ g.1.2 = id /\ g.2 = p) as Hpos.
  { intros p. unfold guard_count. split.
    - intros Hp. destruct (List.filter _ gs) as [|h l] eqn:Hf; [cbn in Hp; lia|].
      assert (h ∈ List.filter (fun g => bool_decide (g.1.2 = id /\ g.2 = p)) gs) as Hh by (rewrite Hf; by left).
      rewrite list_elem_of_In, filter_In, <- list_elem_of_In, bool_decide_eq_true in Hh. exists h. tauto.
    - intros (h & Hh & He). destruct (List.filter _ gs) as [|x l] eqn:Hf; [|cbn; lia].
      exfalso. apply (not_elem_of_nil h). rewrite <- Hf.
      rewrite list_elem_of_In, filter_In, <- list_elem_of_In, bool_decide_eq_true. done. }
  unfold holder_priority. rewrite H0, H1, !u64_wrap_small by apply Hb. rewrite <- Hpos.
  destruct (Z.ltb_spec 0 (guard_count P0 id gs)); [tauto|].
  destruct (Z.ltb_spec 0 (guard_count P1 id gs)); [split; [done|lia]|].
  exfalso. destruct (g.2) eqn:Hp; [assert (0 < guard_count P0 id gs)|assert (0 < guard_count P1 id gs)];
    try (apply Hpos; eauto); lia.
Qed.
End Steps.
