(* ===== verification/Sample.v ===== *)
(** * Concrete logs

    Six fragments, the first four of them rolled up in a tree of depth two, in
    an in-memory store with integer setsums: the data on which the statements
    of the development are evaluated.  [Live] is a log that is written, read
    and collected, with the columns of a fragment encoded by the codec in place
    of Parquet. *)

From S2P Require Import Prelude Setsum Storage Types Paths Effects Codec Manifest ManifestFacts Persist Gc GcFacts GcApply Reader.
From S2P Require Import ReaderFacts ManifestManager BatchManager Cursors Writer LogWriter Instances.

#[local] Open Scope Z_scope.
#[local] Open Scope wal_scope.
Import IntSetsum MemStore.

#[global] Existing Instance int_setsum.
#[global] Existing Instance mem_store.

Module Sample.
Definition frag (n start limit : Z) : Fragment :=
  mkFragment (unprefixed_fragment_path (mkSeqNo n)) (mkSeqNo n) (from_offset start) (from_offset limit)
    (100 * n) (7 * n).

Definition f1 := frag 1 1 11.
Definition f2 := frag 2 11 14.
Definition f3 := frag 3 14 20.
Definition f4 := frag 4 20 22.
Definition f5 := frag 5 22 30.
Definition f6 := frag 6 30 31.

Definition leaf1 : Snapshot := remnant [] [f1; f2].
Definition leaf2 : Snapshot := remnant [] [f3; f4].
Definition top : Snapshot := remnant [to_pointer leaf1; to_pointer leaf2] [].

Definition manifest : Manifest :=
  mkManifest 147 0 2100 "writer" [to_pointer top] [f5; f6] None None.

Definition log : list Fragment := [f1; f2; f3; f4; f5; f6].

Definition prefix : string := "logs".

(** The contents of the fragments do not matter to what is done here. *)
Definition object {A} `{Codec A} (a : A) (tag : string) : bytes * ETag := (Codec.put a, mkETag tag).

Definition contents : Objects :=
  <[prefix +:+ "/" +:+ snap_path leaf1 := object leaf1 "leaf1"]>
  (<[prefix +:+ "/" +:+ snap_path leaf2 := object leaf2 "leaf2"]>
  (<[prefix +:+ "/" +:+ snap_path top := object top "top"]>
  (<[manifest_path prefix := object manifest "manifest"]>
  (list_to_map ((fun f => (fragment_path prefix (frag_path f), ([], mkETag "fragment"))) <$> log))))).

(** A store in which every request works. *)
Definition store0 : world := mkMem contents 0 [] 0.
Definition in_store (w : world) : Prop := w = store0.
Definition no_error (e : Error) : Prop := False.

#[global] Instance cache : SnapshotCache := unit_cache.

Lemma loads_sample p s :
  fetch_snapshot prefix p store0 = (Ret s, store0) -> loads prefix in_store no_error p s.
Proof.
  intros H w Hw. left. exists s, store0. rewrite Hw. exact (conj H (conj eq_refl eq_refl)).
Qed.

Ltac fetch := apply loads_sample; by_vm.

Lemma canonical_sample ps fs : 0 <= max_depth ps < 255 -> canonical (remnant ps fs).
Proof. apply remnant_canonical. Qed.

Lemma tree_leaf1 n : tree (loads prefix in_store no_error) (S n) (to_pointer leaf1) [f1; f2].
Proof.
  exists leaf1. split_and!; [fetch|reflexivity|by apply remnant_canonical|left]. done.
Qed.

Lemma tree_leaf2 n : tree (loads prefix in_store no_error) (S n) (to_pointer leaf2) [f3; f4].
Proof.
  exists leaf2. split_and!; [fetch|reflexivity|by apply remnant_canonical|left]. done.
Qed.

Lemma tree_top : tree (loads prefix in_store no_error) 2 (to_pointer top) [f1; f2; f3; f4].
Proof.
  exists top. split_and!; [fetch|reflexivity|by apply remnant_canonical|right].
  split_and!; [done|done|]. exists [[f1; f2]; [f3; f4]]. split; [|done].
  repeat constructor; [apply tree_leaf1|apply tree_leaf2].
Qed.

Lemma manifest_is_ok : manifest_ok manifest.
Proof.
  constructor; [reflexivity| |done].
  replace (offset (oldest_timestamp manifest)) with 1 by reflexivity.
  replace (offset (next_write_timestamp manifest)) with 31 by reflexivity.
  unfold intervals. cbn. repeat (constructor; [reflexivity|]). constructor.
Qed.

Lemma good : good_log (loads prefix in_store no_error) 2 manifest 1 log.
Proof.
  constructor.
  - apply manifest_is_ok.
  - exists [[f1; f2; f3; f4]]. split; [|done]. constructor; [apply tree_top|constructor].
  - replace (offset (oldest_timestamp manifest)) with 1 by reflexivity.
    replace (offset (next_write_timestamp manifest)) with 31 by reflexivity.
    repeat (constructor; [reflexivity|]). constructor.
  - by repeat constructor.
  - cbn. lia.
  - unfold u64_max. cbn. lia.
Qed.

Definition f7 := frag 7 31 40.
Definition options : SnapshotOptions := mkSnapshotOptions 2 1.

Lemma f7_chain : chain (offset (next_write_timestamp manifest)) (frag_iv <$> [f7]) 40.
Proof.
  replace (offset (next_write_timestamp manifest)) with 31 by reflexivity.
  cbn. constructor; [reflexivity|constructor].
Qed.
Lemma f7_seqs : seqs_from (1 + Z.of_nat (length log)) [f7].
Proof. split; [reflexivity|exact Logic.I]. Qed.

(** The garbage below a position, computed in the sample store. *)
Definition garbage (keep : Z) : Garbage :=
  match Garbage_new prefix 2 manifest (from_offset keep) store0 with
  | (Ret (Some g), _) => g
  | _ => Garbage_empty
  end.

Definition collected_at (keep : Z) : Manifest :=
  match apply_garbage manifest (garbage keep) with
  | Ok (Some m) => m
  | _ => manifest
  end.

(** The same trees, as the reader resolves them. *)
Lemma resolves_sample p s :
  Snapshot_load prefix p store0 = (Ret (Some s), store0) -> resolves prefix None in_store no_error p s.
Proof.
  intros H w Hw. left. exists (Some s), store0. rewrite Hw. exact (conj H (conj eq_refl eq_refl)).
Qed.

Ltac resolve_it := apply resolves_sample; by_vm.

Lemma log_resolves : log_of (resolves prefix None in_store no_error) 2 manifest log.
Proof.
  exists [[f1; f2; f3; f4]]. split; [|done]. constructor; [|constructor].
  exists top. split_and!; [resolve_it|reflexivity|by apply remnant_canonical|right].
  split_and!; [done|done|]. exists [[f1; f2]; [f3; f4]]. split; [|done].
  constructor; [|constructor; [|constructor]].
  - exists leaf1. split_and!; [resolve_it|reflexivity|by apply remnant_canonical|left]. done.
  - exists leaf2. split_and!; [resolve_it|reflexivity|by apply remnant_canonical|left]. done.
Qed.
End Sample.

Module Live.
#[export] Instance dirty : MarkDirty := unit_mark_dirty.

Definition options : LogWriterOptions :=
  mkLogWriterOptions (mkThrottleOptions 1000 100 10000 5000) (mkThrottleOptions 1000 100 10000 5000)
    (mkSnapshotOptions 2 2).
Definition prefix : string := "log".
Definition message (s : string) : bytes := String.list_byte_of_string s.

Definition empty_store : world := mkMem ∅ 0 [] 0.
Definition nobody : LogWriter := mkLogWriter options prefix "writer" EpochWriter_default.

Definition opened : res LogWriter * world := open_or_initialize 5 options prefix "writer" empty_store.

(** Append messages one by one; what each append returned is collected. *)
Fixpoint append_all (ms : list string) (lw : LogWriter) (w : world) (acc : list (result LogPosition Error)) :
    list (result LogPosition Error) * LogWriter * world :=
  match ms with
  | [] => (acc, lw, w)
  | m :: ms =>
      match append 5 (message m) lw w with
      | (Ret (r, lw), w) => append_all ms lw w (acc ++ [r])
      | (_, w) => (acc, lw, w)
      end
  end.

Definition start : LogWriter * world :=
  match opened with (Ret lw, w) => (lw, w) | (_, w) => (nobody, w) end.
Definition history := append_all ["one"; "two"; "three"; "four"; "five"] start.1 start.2 [].
Definition positions : list (result LogPosition Error) := history.1.1.
Definition writer : LogWriter := history.1.2.
Definition store : world := history.2.

(** A reader has read up to position 4. *)
Definition cursors : CursorStore := mkCursorStore prefix "reader".
Definition name : CursorName.t := CursorName.mk "compaction".
Definition with_cursor : world := (cursor_init cursors name (mkCursor (from_offset 4) 7 "reader") store).2.

Definition outcome {A} (x : res (result A Error * LogWriter) * world) : option (result A Error) * LogWriter * world :=
  match x with
  | (Ret (r, lw), w) => (Some r, lw, w)
  | (_, w) => (None, writer, w)
  end.

(** The phases of a collection; the process stops before the third. *)
Definition phase1 := outcome (lw_phase1 5 None writer with_cursor).
Definition phase2 := outcome (lw_phase2 5 phase1.1.2 phase1.2).
(** Another process takes over and collects. *)
Definition takeover := outcome (lw_garbage_collect 5 None nobody phase2.2).
(** The collection without an interruption. *)
Definition collection := outcome (lw_garbage_collect 5 None writer with_cursor).

(** The store after a fragment was lost. *)
Definition damaged : world := (del (prefixed_fragment_path prefix (mkSeqNo 1)) store).2.

Definition fragment_file (n : Z) : string := prefixed_fragment_path prefix (mkSeqNo n).
Definition exists_in (w : world) (path : string) : bool := bool_decide (is_Some (objects w !! path)).
Definition garbage_in (w : world) : option Garbage :=
  '(b, _) ← objects w !! garbage_path prefix; from_slice b.
End Live.
