(* ===== verification/StorageProps.v ===== *)
(** * Properties of the storage layer

    The S3 client and the admission controller implement the object store that
    wal3 relies on; reads in parallel ranges; shared requests, their priorities
    and the permits they wait for. *)

From stdpp Require Import pretty.
From S2P Require Import Prelude Float64 Setsum Storage S3 Admission S3Facts AdmissionFacts.
From S2P Require Import Types Paths Effects Codec Manifest Persist Sample.

#[local] Open Scope Z_scope.
#[local] Open Scope wal_scope.

(** ** The object stores *)

Section Stores.
Context {C : S3Client} {rely : relation Objects}.
Variable self : S3Storage.

(** C20: the S3 client implements the object store that wal3 is verified
    against: conditional puts, in one request or in parts, replace an object
    only when their condition holds, and with exactly the bytes given, a failed precondition changed nothing,
    and reads, deletions, copies and listings tell what the bucket holds, given
    what the service documents of its requests. *)
Theorem s3_store_lawful :
  S3ClientLaws C (bucket self) rely -> 0 < upload_part_size_bytes self ->
  ObjectStoreLaws (s3_store self) rely.
Proof. intros HL Hsize. by apply s3_laws. Qed.

Lemma ac_get_is_get k w : ac_get_strong k w = s3_get_with_e_tag k w.
Proof.
  unfold ac_get_strong, strongly_consistent_get_with_e_tag, read_from_storage. cbn [fetch_all].
  destruct (s3_get_with_e_tag k w) as [[[b t]|e] w1]; done.
Qed.

Lemma ac_put_effect (HL : S3ClientLaws C (bucket self) rely) (Hsize : 0 < upload_part_size_bytes self) k b o w r w' :
  ac_put_bytes self k b o w = (r, w') ->
  put_effect (rely := rely) k b o w w' r /\
  (forall t, upload_part_size_bytes self <= Z.of_nat (length b) -> r = Ok t -> t = None).
Proof.
  unfold ac_put_bytes, ac_put_object, is_oneshot_upload.
  destruct (Z.ltb_spec (Z.of_nat (length b)) (upload_part_size_bytes self)).
  - intros Hp. split; [by eapply oneshot_effect|lia].
  - unfold s3_bind, s3_ret. destruct (multipart_upload _ _ _ _ _ w) as [[t|e] w1] eqn:Hm.
    all: apply (multipart_effect self Hsize) in Hm as (pre & Hr & Hm); [|done]; intros [= <- <-].
    + split; [|by intros t' _ [= <-]]. exists pre. split; [done|]. destruct Hm as (Ha & t' & Hw & _). eauto 10.
    + split; [|done]. by exists pre.
Qed.

(** The admission controller, with strongly consistent reads, implements the
    same object store; but a put in parts succeeds without an ETag. *)
Theorem ac_store_lawful :
  S3ClientLaws C (bucket self) rely -> 0 < upload_part_size_bytes self ->
  ObjectStoreLaws (ac_store self) rely /\
  forall k b o w t w', upload_part_size_bytes self <= Z.of_nat (length b) ->
    ac_put_bytes self k b o w = (Ok t, w') -> t = None.
Proof.
  intros HL Hsize. destruct (s3_laws self Hsize) as [? Hget Hput Hdel Hcopy Hlist Hb Hn Hs]. split.
  - constructor; [done| | |exact Hdel|exact Hcopy|exact Hlist|exact Hb|exact Hn|exact Hs].
    + intros k w r w'. cbn [ac_store get_with_e_tag objects world]. rewrite ac_get_is_get. apply Hget.
    + intros k b o w r w' Hp. by apply (ac_put_effect HL Hsize) in Hp as [Hp _].
  - intros k b o w t w' Hlen Hp. apply (ac_put_effect HL Hsize) in Hp as [_ Hnone]. by apply (Hnone t).
Qed.

(** over the admission controller a manifest that is as large as one part
    is never installed successfully: the put replaces the manifest, but
    without the ETag the install reports contention. *)
Theorem large_manifest_contention {SS : SetsumSig} {SM : Serde Manifest} prefix current new b w r w' :
  to_vec new = Some b -> 0 < upload_part_size_bytes self <= Z.of_nat (length b) ->
  S3ClientLaws C (bucket self) rely ->
  Manifest_install (OS := ac_store self) prefix current new w = (r, w') -> exists e, r = Fail e.
Proof.
  intros Hb [Hsize Hlen] HL. unfold Manifest_install, encode_or. rewrite Hb.
  unfold bind at 1. cbv beta iota delta [ret].
  generalize RETRIES. intros n. revert w. induction n as [|n IH]; intros w; cbn [put_retrying];
    unfold bind, request; cbn [ac_store put_bytes world];
    destruct (ac_put_bytes self _ b _ w) as [[t|e] w1] eqn:Hp.
  1,3: apply (ac_put_effect HL Hsize) in Hp as [_ Hnone]; rewrite (Hnone t Hlen eq_refl); intros [= <- <-]; eauto.
  all: destruct (is_precondition e); [intros [= <- <-]; eauto|]; unfold next_backoff; cbn [ac_store backoff_next];
    destruct (s3_backoff_next w1) as [d w2].
  { intros [= <- <-]. eauto. }
  destruct (60000000 <? d); [intros [= <- <-]; eauto|]. apply IH.
Qed.
End Stores.

(** ** Parallel reads *)

Lemma chunks_seq {A} (sz n : nat) (l : list A) fuel :
  (0 < sz)%nat -> (length l <= fuel)%nat -> (n * sz < length l + sz)%nat -> (length l <= n * sz)%nat ->
  chunks fuel sz l = (fun i => take sz (drop (i * sz) l)) <$> seq 0 n.
Proof.
  revert l fuel. induction n as [|n IH]; intros l fuel Hsz Hf Hlo Hhi; cbn in Hhi.
  - destruct l; [|cbn in Hhi; lia]. by destruct fuel.
  - destruct l as [|x l]; [cbn in Hlo; lia|]. destruct fuel as [|fuel]; [cbn in Hf; lia|].
    change (chunks (S fuel) sz (x :: l)) with (take sz (x :: l) :: chunks fuel sz (drop sz (x :: l))).
    rewrite IH; [|done|rewrite length_drop; cbn in *; lia..].
    cbn [seq fmap list_fmap]. rewrite drop_0. f_equal. rewrite <- seq_shift, <- list_fmap_compose.
    apply list_fmap_ext. intros i j _. unfold compose. by rewrite drop_drop.
Qed.

Section Parallel.
Context {C : S3Client}.
Variable self : S3Storage.
Variable key : string.
Variable b : bytes.
Variable I : s3_world -> Prop.
Hypothesis Hranges : forall lo hi w, I w -> 0 <= lo <= hi -> hi < Z.of_nat (length b) ->
  exists body w', fetch_range key (range_header (lo, hi)) w = (Ok body, w') /\ I w' /\
                  available body = slice b lo (hi + 1).

Lemma fetch_slices_exact (parts : list ((Z * Z) * bytes)) w :
  I w ->
  (forall range s, (range, s) ∈ parts ->
     0 <= range.1 <= range.2 /\ range.2 < Z.of_nat (length b) /\ Z.of_nat (length s) = range.2 + 1 - range.1) ->
  exists w', fetch_slices key parts w = (concat ((fun p => slice b p.1.1 (p.1.2 + 1)) <$> parts), w') /\ I w'.
Proof.
  revert w. induction parts as [|[[lo hi] s] parts IH]; intros w Hw Hall; cbn [fetch_slices fmap list_fmap concat]; [eauto|].
  destruct (Hall (lo, hi) s ltac:(by left)) as (Hlo & Hhi & Hlen). cbn [fst snd] in *.
  destruct (Hranges lo hi w Hw Hlo Hhi) as (body & w1 & Hf & Hw1 & Hb). unfold fetch_slice. rewrite Hf.
  unfold read_exact. rewrite Hb.
  destruct (IH w1 Hw1) as (w2 & -> & Hw2); [intros range s' Hin; apply Hall; by right|]. exists w2. split; [|done].
  assert (length (slice b lo (hi + 1)) = length s) as Hl.
  { unfold slice. rewrite length_take, length_drop. lia. }
  rewrite <- Hl, firstn_all, (drop_ge s) by lia. by rewrite app_nil_r.
Qed.

Hypothesis Hsize : 0 < download_part_size_bytes self < 2 ^ 53.
Hypothesis Hlen : 0 < Z.of_nat (length b) < 2 ^ 53.

(** The ranges of the parts cover the object. *)
Lemma fill_ranges_exact w :
  I w -> exists w',
    fill_ranges self key (Z.of_nat (length b)) (key_ranges (Z.of_nat (length b)) (download_part_size_bytes self)) w =
    (b, w') /\ I w'.
Proof.
  intros Hw. set (sz := download_part_size_bytes self) in *. set (len := Z.of_nat (length b)) in *.
  unfold fill_ranges, key_ranges. fold sz. rewrite ceil_div_f64_exact by lia. set (n := (len + sz - 1) / sz).
  assert ((n - 1) * sz < len <= n * sz) as Hn.
  { subst n. pose proof (Z.div_mod (len + sz - 1) sz ltac:(lia)). pose proof (Z.mod_pos_bound (len + sz - 1) sz ltac:(lia)).
    split; nia. }
  assert (1 <= n) as Hn1 by nia.
  rewrite (chunks_seq (Z.to_nat sz) (Z.to_nat n)) by (rewrite ?length_replicate; nia).
  unfold range_u64. rewrite Z.sub_0_r, <- list_fmap_compose.
  rewrite zip_with_fmap_l, zip_with_fmap_r, zip_with_diag.
  edestruct fetch_slices_exact as (w' & -> & Hw'); [exact Hw| |exists w'; split; [|done]].
  - intros range s (i & [= -> ->] & Hi%elem_of_seq)%list_elem_of_fmap. unfold compose. cbn [fst snd].
    rewrite length_take, length_drop, length_replicate, Z.add_0_l.
    destruct (Z.eqb_spec (Z.of_nat i) (n - 1)); split_and!; nia.
  - f_equal. rewrite <- list_fmap_compose. etrans; [|apply (pieces_concat b sz n); lia]. f_equal.
    unfold range_u64. rewrite Z.sub_0_r, <- list_fmap_compose. apply list_fmap_ext. intros i j _.
    unfold compose, piece. cbn [fst snd]. fold len. f_equal. rewrite Z.add_0_l.
    destruct (Z.eqb_spec (Z.of_nat j) (n - 1)); lia.
Qed.
End Parallel.

(** a read in parallel ranges returns the object, byte for byte, when the
    head request and the ranges are served: the ranges, whose number is
    computed with floating point numbers, tile the object and fit the slices
    of the buffer. *)
Theorem get_parallel_exact {C : S3Client} self key b t (I : s3_world -> Prop) w :
  0 < download_part_size_bytes self < 2 ^ 53 -> 0 < Z.of_nat (length b) < 2 ^ 53 ->
  (forall w, I w -> exists w', send_head_object key w = (Ok (Some (Z.of_nat (length b)), t), w') /\ I w') ->
  (forall lo hi w, I w -> 0 <= lo <= hi -> hi < Z.of_nat (length b) ->
   exists body w', fetch_range key (range_header (lo, hi)) w = (Ok body, w') /\ I w' /\
                   available body = slice b lo (hi + 1)) ->
  I w ->
  (exists w', get_parallel self key w = (Ok (b, mkETag <$> t), w') /\ I w') /\
  (exists w', parallel_fetch self key w = (Ok (b, mkETag <$> t), w') /\ I w').
Proof.
  intros Hsize Hlen Hhead Hranges Hw. destruct (Hhead w Hw) as (w1 & Hh & Hw1).
  destruct (fill_ranges_exact self key b I Hranges Hsize Hlen w1 Hw1) as (w2 & Hf & Hw2).
  assert (get_key_ranges self key w =
    (Ok (Z.of_nat (length b), key_ranges (Z.of_nat (length b)) (download_part_size_bytes self), mkETag <$> t), w1)) as Hk
    by (unfold get_key_ranges, send; by rewrite Hh).
  split; exists w2; (split; [|done]); unfold get_parallel, parallel_fetch, s3_bind; rewrite Hk;
    (destruct (Z.eqb_spec (Z.of_nat (length b)) 0); [lia|]); by rewrite Hf.
Qed.

(** ** Shared requests *)

(** In every interleaving of calls, tasks and cancellations, every caller
    waits on exactly one request or was answered exactly once, a task always
    finds its entry, and the answer is what some task fetched: for the
    caller's own keys, if keys do not contain the separator. *)
Theorem shared_requests_answer {V : Type} (s : ASys) :
  rtc (astep (V := V)) astart s ->
  (forall id c res, (id, c) ∈ tasks (adm s) -> is_Some (ac_finish id c res (adm s))) /\
  caller <$> calls s ≡ₚ waiting_senders (outstanding (adm s)) ++ (answered (adm s)).*1 /\
  NoDup (caller <$> calls s) /\
  forall tx res, (tx, res) ∈ answered (adm s) ->
    exists c c0, c ∈ calls s /\ caller c = tx /\ c0 ∈ calls s /\ (c0, res) ∈ fetches s /\
      ((forall c, c ∈ calls s -> keys c <> [] /\ Forall (fun k => no_bar k = true) (keys c)) -> keys c0 = keys c).
Proof.
  intros [[_ Ht _ _] _ [Hca Hdi _ Han Hft]]%areachable_ok. split_and!; [|done|done|].
  - intros id c res Hin. destruct (Ht _ _ Hin) as (r & Hr & _). unfold ac_finish. rewrite Hr. eauto.
  - intros tx res Hin. destruct (Han _ _ Hin) as (c & c0 & Hc & Htx & Hf & He). destruct (Hft _ _ Hf) as [Hc0 _].
    exists c, c0. split_and!; [done..|]. intros Hkeys. destruct (Hkeys c Hc), (Hkeys c0 Hc0).
    by apply composite_key_inj.
Qed.

(** The priority at which a request waits for a permit is the highest one
    that one of its live callers asked for, however callers come and go. *)
Theorem priority_follows_callers {V : Type} (s : ASys) k r :
  rtc (astep (V := V)) astart s -> outstanding (adm s) !! k = Some r ->
  Z.of_nat (length (guards (adm s))) <= u64_max ->
  (exists g, g ∈ guards (adm s) /\ g.1.2 = context r) ->
  exists c, contexts (adm s) !! context r = Some c /\ finished c = false /\
    (holder_priority (holder c) = P0 <-> exists g, g ∈ guards (adm s) /\ g.1.2 = context r /\ g.2 = P0).
Proof.
  intros [_ [Hu _ _ _ Hcn] _]%areachable_ok Hr Hlen Hex. destruct (Hu _ _ Hr) as (c & Hc & Hf).
  exists c. split_and!; [done|done|]. apply counts_priority; [done|done|]. by apply Hcn.
Qed.

(** ** Permits *)

(** Requests take permits and return them. *)
Inductive pstep : relation (Tokens * list nat) :=
| pstep_acquire h tokens held pri tokens' :
    acquire_round h tokens = Some (Token pri tokens') -> pstep (tokens, held) (tokens', pri :: held)
| pstep_release tokens l1 pri l2 :
    pstep (tokens, l1 ++ pri :: l2) (release pri tokens, l1 ++ l2).

Definition held_at (i : nat) (held : list nat) : nat := length (List.filter (Nat.eqb i) held).

Lemma held_at_app i l1 l2 : held_at i (l1 ++ l2) = (held_at i l1 + held_at i l2)%nat.
Proof. unfold held_at. by rewrite List.filter_app, length_app. Qed.

Lemma held_at_cons i pri l : held_at i (pri :: l) = ((if (i =? pri)%nat then 1 else 0) + held_at i l)%nat.
Proof. unfold held_at. cbn [List.filter]. by destruct (i =? pri)%nat. Qed.

Lemma try_acquire_from_spec pri n tokens :
  match try_acquire_from pri n tokens with
  | Some (p, tokens') => (pri <= p < pri + n)%nat /\ exists k, tokens !! p = Some (S k) /\ tokens' = <[p := k]> tokens
  | None => forall j k, (pri <= j < pri + n)%nat -> tokens !! j = Some k -> k = 0%nat
  end.
Proof.
  revert pri. induction n as [|n IH]; intros pri; cbn [try_acquire_from]; [intros; lia|].
  specialize (IH (S pri)). destruct (tokens !! pri) as [[|k]|] eqn:Hp.
  2: { split; [lia|]. eauto. }
  all: destruct (try_acquire_from (S pri) n tokens) as [[p tokens']|];
    [destruct IH as [Hb Hk]; split; [lia|done]|];
    intros j k Hj Hk; destruct (decide (j = pri)) as [->|]; [congruence|apply (IH j); [lia|done]].
Qed.

(** What is left and what is held add up. *)
Definition balanced (caps : Tokens) (s : Tokens * list nat) : Prop :=
  forall i cap, caps !! i = Some cap -> exists n, s.1 !! i = Some n /\ (n + held_at i s.2)%nat = cap.

Lemma acquire_round_spec h tokens r :
  acquire_round h tokens = Some r ->
  match r with
  | Token pri tokens' => (as_usize (holder_priority h) <= pri)%nat /\
      exists k, tokens !! pri = Some (S k) /\ tokens' = <[pri := k]> tokens
  | WaitAt i => forall j k, (i <= j <= as_usize lowest)%nat -> tokens !! j = Some k -> k = 0%nat
  end.
Proof.
  unfold acquire_round. destruct (_ <=? _)%nat eqn:Hle; [done|]. apply Nat.leb_gt in Hle.
  pose proof (try_acquire_from_spec (as_usize (holder_priority h))
    (S (Nat.min (as_usize lowest) (length tokens - 1)) - as_usize (holder_priority h)) tokens) as Hspec.
  destruct (try_acquire_from _ _ tokens) as [[p t']|]; intros [= <-]; [destruct Hspec; split; [lia|done]|].
  intros j k Hj Hk. apply (Hspec j); [|done]. pose proof (lookup_lt_Some _ _ _ Hk).
  unfold lowest in *. destruct (holder_priority h); cbn [as_usize] in *; lia.
Qed.

Lemma pstep_balanced caps s s' : balanced caps s -> pstep s s' -> balanced caps s'.
Proof.
  intros Hb Hs i cap Hi. destruct (Hb i cap Hi) as (n & Hn & Hsum). clear Hb Hi.
  destruct Hs as [h tokens held pri tokens' Ha|tokens l1 pri l2]; cbn [fst snd] in *.
  - apply acquire_round_spec in Ha as [_ (k & Hk & ->)]. rewrite held_at_cons.
    destruct (Nat.eqb_spec i pri) as [->|Hne].
    + exists k. rewrite list_lookup_insert_eq by (by eapply lookup_lt_Some). split; [done|].
      rewrite Hn in Hk. injection Hk as ->. lia.
    + exists n. rewrite list_lookup_insert_ne by done. by split.
  - rewrite held_at_app, held_at_cons in Hsum. rewrite held_at_app. unfold release.
    destruct (Nat.eqb_spec i pri) as [->|Hne].
    + exists (S n). rewrite list_lookup_alter_eq, Hn. split; [done|lia].
    + exists n. rewrite list_lookup_alter_ne by done. split; [done|lia].
Qed.

(** Permits are neither lost nor made: at each priority the permits left and
    those held add up to the capacity, so that no more requests run than it
    allows; a request gets a permit of its priority or of a lower one, and
    waits only when there is none. *)
Theorem permits_bounded caps s :
  rtc pstep (caps, []) s ->
  balanced caps s /\
  forall h r, acquire_round h s.1 = Some r ->
    match r with
    | Token pri _ => (as_usize (holder_priority h) <= pri)%nat
    | WaitAt i => forall j k, (i <= j <= as_usize lowest)%nat -> s.1 !! j = Some k -> k = 0%nat
    end.
Proof.
  intros Hr. split.
  - assert (balanced caps (caps, [])) as H0 by (intros i cap Hi; exists cap; split; [done|cbn; lia]).
    revert H0 Hr. generalize (caps, @nil nat). intros s0 H0 Hs. induction Hs as [|x y z Hstep _ IH]; [done|]. apply IH. by eapply pstep_balanced.
  - intros h r Ha%acquire_round_spec. destruct r; [by destruct Ha|done].
Qed.

(** ** Concrete requests *)

Module Requests.
Import MemS3.

Definition storage : S3Storage := mkS3Storage "bucket" 4 4.

(** An object of ten bytes: three parts. *)
Definition ten : bytes := [Byte.x61; Byte.x62; Byte.x63; Byte.x64; Byte.x65; Byte.x66; Byte.x67; Byte.x68; Byte.x69; Byte.x6a].

Definition world_with (script : list fault) : mem := mkMem {["k" := (ten, mkETag "t")]} ∅ 0 script 0.

(** A put in parts and the read that follows it. *)
Example put_in_parts :
  let w := (s3_put_bytes (C := client "bucket") storage "new" ten if_not_exists (world_with [])).2 in
  (s3_get_with_e_tag (C := client "bucket") "new" w).1 = Ok (ten, Some (mkETag "tag4")).
Proof. cbv zeta. by_vm. Qed.

Lemma range_served lo hi w : w = world_with [] -> 0 <= lo <= hi -> hi < Z.of_nat (length ten) ->
  exists body w', fetch_range (C := client "bucket") "k" (range_header (lo, hi)) w = (Ok body, w') /\
    w' = world_with [] /\ available body = slice ten lo (hi + 1).
Proof.
  intros -> Hlo Hhi. cbn in Hhi.
  assert (lo ∈ seqZ 0 10 /\ hi ∈ seqZ 0 10) as [Hl Hh] by (split; apply elem_of_seqZ; lia).
  vm_compute in Hl, Hh. repeat setoid_rewrite elem_of_cons in Hl. repeat setoid_rewrite elem_of_cons in Hh.
  rewrite elem_of_nil in Hl, Hh.
  exists [Ok (slice ten lo (hi + 1))], (world_with []).
  destruct_or! Hl; destruct_or! Hh; subst; try done; try lia; (split; [by_vm|]); (split; [reflexivity|by_vm]).
Qed.
End Requests.

(** A read in parallel ranges hides the errors of the ranges: when a range is
    refused the read succeeds, with the tag of the object and with zeros in
    the place of its bytes. *)
Theorem parallel_read_hides_errors :
  (get_parallel (C := MemS3.client "bucket") Requests.storage "k"
     (Requests.world_with [MemS3.Works; MemS3.Works; MemS3.SlowDown])).1 =
    Ok (take 4 Requests.ten ++ [Byte.x00; Byte.x00; Byte.x00; Byte.x00] ++ drop 8 Requests.ten, Some (mkETag "t")).
Proof. by_vm. Qed.

Lemma s3_store_lawful_witness :
  ObjectStoreLaws (s3_store (C := MemS3.client "bucket") Requests.storage) eq.
Proof. apply (@s3_store_lawful (MemS3.client "bucket") eq Requests.storage (MemS3.client_laws "bucket")). reflexivity. Defined.

Lemma ac_store_lawful_witness :
  ac_put_bytes (C := MemS3.client "bucket") Requests.storage "new" Requests.ten if_not_exists (Requests.world_with []) =
    (Ok None, (ac_put_bytes (C := MemS3.client "bucket") Requests.storage "new" Requests.ten if_not_exists (Requests.world_with [])).2) /\
  ObjectStoreLaws (ac_store (C := MemS3.client "bucket") Requests.storage) eq.
Proof.
  destruct (@ac_store_lawful (MemS3.client "bucket") eq Requests.storage (MemS3.client_laws "bucket") eq_refl) as [Hlaws Hnone].
  split; [|exact Hlaws].
  destruct (ac_put_bytes _ _ _ _ _) as [[t|e] w'] eqn:Hp.
  - rewrite (Hnone "new" Requests.ten if_not_exists (Requests.world_with []) t w' ltac:(cbn; lia) Hp). reflexivity.
  - exfalso. apply (f_equal fst) in Hp. vm_compute in Hp. discriminate Hp.
Defined.

(** The manifest is there, and the install failed. *)
Lemma large_manifest_contention_witness :
  let r := Manifest_install (OS := ac_store (C := MemS3.client "bucket") Requests.storage) "logs" None Sample.manifest
             (Requests.world_with []) in
  bool_decide (is_Some (MemS3.mem_objects r.2 !! manifest_path "logs")) = true /\ exists e, r.1 = Fail e.
Proof.
  cbv zeta. split; [vm_compute; reflexivity|].
  destruct (Manifest_install (OS := ac_store (C := MemS3.client "bucket") Requests.storage) "logs" None Sample.manifest
              (Requests.world_with [])) as [r w'] eqn:Hi.
  exact (@large_manifest_contention (MemS3.client "bucket") eq Requests.storage _ codec_serde "logs" None Sample.manifest
           (Codec.put Sample.manifest) (Requests.world_with []) r w' eq_refl
           ltac:(split; [reflexivity|vm_compute; discriminate]) (MemS3.client_laws "bucket") Hi).
Defined.

Lemma get_parallel_exact_witness :
  exists w', get_parallel (C := MemS3.client "bucket") Requests.storage "k" (Requests.world_with []) =
             (Ok (Requests.ten, Some (mkETag "t")), w') /\ w' = Requests.world_with [].
Proof.
  apply (@get_parallel_exact (MemS3.client "bucket") Requests.storage "k" Requests.ten (Some "t")
           (fun w => w = Requests.world_with []) (Requests.world_with [])).
  - cbn. lia.
  - cbn. lia.
  - intros w ->. exists (Requests.world_with []). split; [vm_compute; reflexivity|reflexivity].
  - exact Requests.range_served.
  - reflexivity.
Defined.

(** Two callers share a request, which rises from the lower priority to the
    higher one. *)
Module Shared.
Definition c1 : Call := mkCall 1 ["a"] 0 P1.
Definition c2 : Call := mkCall 2 ["a"] 0 P0.
Definition res : result (@Fetched nat) StorageError := Ok ((0%nat, 7%nat), [None]).
Definition s1 : ASys := mkASys (ac_enter (V := nat) c1 adm_empty) [c1] [].
Definition s2 : ASys := mkASys (ac_enter c2 (adm s1)) [c2; c1] [].
Definition s3 : ASys := mkASys (default adm_empty (ac_finish 0 c1 res (adm s2))) [c2; c1] [(c1, res)].

Lemma shared_s2_reached : rtc astep astart s2.
Proof.
  eapply rtc_l; [apply (astep_enter c1 astart); by apply not_elem_of_nil|].
  eapply rtc_l; [apply (astep_enter c2 s1); cbn; rewrite list_elem_of_singleton; lia|]. apply rtc_refl.
Qed.

Lemma shared_s3_reached : rtc astep astart s3.
Proof.
  eapply rtc_r; [exact shared_s2_reached|]. apply (astep_finish 0 c1 res).
  - vm_compute. left.
  - intros x [= <-]. reflexivity.
  - vm_compute. reflexivity.
Qed.
End Shared.

Lemma shared_requests_answer_witness :
  (answered (adm Shared.s3)).*1 = [1; 2]%nat /\
  exists c c0, c ∈ calls Shared.s3 /\ caller c = 2%nat /\ c0 ∈ calls Shared.s3 /\ (c0, Shared.res) ∈ fetches Shared.s3 /\
    keys c0 = keys c.
Proof.
  split; [vm_compute; reflexivity|].
  destruct (@shared_requests_answer nat Shared.s3 Shared.shared_s3_reached) as (_ & _ & _ & Hall).
  destruct (Hall 2%nat Shared.res) as (c & c0 & Hc & Ht & Hc0 & Hf & Hk); [vm_compute; right; left|].
  exists c, c0. split_and!; [exact Hc|exact Ht|exact Hc0|exact Hf|]. apply Hk. cbn.
  intros c' [->|[->|[]%elem_of_nil]%elem_of_cons]%elem_of_cons; (split; [discriminate|by repeat constructor]).
Defined.

Lemma priority_follows_callers_witness :
  exists c, contexts (adm Shared.s2) !! 0%nat = Some c /\ holder_priority (holder c) = P0.
Proof.
  destruct (@priority_follows_callers nat Shared.s2 "a" (mkInflight 0 [1; 2]%nat) Shared.shared_s2_reached) as (c & Hc & _ & Hp).
  - vm_compute. reflexivity.
  - vm_compute. discriminate.
  - exists (2%nat, 0%nat, P0). split; [vm_compute; left|reflexivity].
  - exists c. split; [exact Hc|]. apply Hp. exists (2%nat, 0%nat, P0). split; [vm_compute; left|split; reflexivity].
Defined.

(** Two permits for each priority, one of them taken. *)
Lemma permits_bounded_witness :
  balanced [2; 2]%nat ([1; 2]%nat, [0]%nat).
Proof.
  apply (permits_bounded [2; 2]%nat ([1; 2]%nat, [0]%nat)).
  eapply rtc_l; [|apply rtc_refl]. apply (pstep_acquire (mkPriorityHolder 1 0)). reflexivity.
Defined.
