(* ===== verification/ManifestProps.v ===== *)
(** * Properties of paths and manifests

    The theorems about the names of a log's objects, about scrubbing, about
    appending and rolling up fragments, and about applying garbage to a
    manifest, each with an evaluation on a concrete log. *)

From S2P Require Import Prelude Setsum Storage Types Paths Effects Codec Manifest ManifestFacts Rollup.
From S2P Require Import Persist Gc GcFacts GcApply Sample.
From Stdlib Require Import Ascii.

#[local] Open Scope Z_scope.
#[local] Open Scope wal_scope.

(** ** Paths *)

Section PathLemmas.
Lemma parse_fragment_basename dir s :
  is_u64 (fsn s) ->
  parse_fragment_path (dir +:+ "/FragmentSeqNo=" +:+ fmt_016x (fsn s) +:+ ".parquet") = Some s.
Proof.
  intros Hs. unfold parse_fragment_path.
  change ("/FragmentSeqNo=" +:+ fmt_016x (fsn s) +:+ ".parquet")
    with (String "/"%char ("FragmentSeqNo=" +:+ fmt_016x (fsn s) +:+ ".parquet")).
  rewrite rsplit_once_app.
  - cbn [mbind option_bind]. rewrite string_app_assoc, strip_suffix_app. cbn [mbind option_bind].
    rewrite strip_prefix_app. cbn [mbind option_bind]. rewrite parse_fmt_016x by done.
    cbn. by destruct s.
  - rewrite !string_forall_app. unfold fmt_016x. by rewrite fmt_hex_no_slash.
Qed.

Lemma parse_prefixed prefix s :
  is_u64 (fsn s) -> parse_fragment_path (prefixed_fragment_path prefix s) = Some s.
Proof.
  intros Hs. unfold prefixed_fragment_path.
  rewrite (string_app_assoc "Bucket="), (string_app_assoc fragment_prefix), (string_app_assoc "/"),
    (string_app_assoc prefix). by apply parse_fragment_basename.
Qed.

Lemma parse_unprefixed s : is_u64 (fsn s) -> parse_fragment_path (unprefixed_fragment_path s) = Some s.
Proof.
  intros Hs. unfold unprefixed_fragment_path. rewrite (string_app_assoc "log/Bucket=").
  by apply parse_fragment_basename.
Qed.

Lemma prefixed_fragment_path_inj prefix s t :
  is_u64 (fsn s) -> is_u64 (fsn t) ->
  prefixed_fragment_path prefix s = prefixed_fragment_path prefix t -> s = t.
Proof.
  intros Hs Ht Heq. pose proof (parse_prefixed prefix s Hs) as H1. rewrite Heq, parse_prefixed in H1 by done.
  congruence.
Qed.

Lemma cursor_from_path c : CursorName.is_valid c = true -> CursorName.from_path (CursorName.path c) = Some c.
Proof.
  unfold CursorName.from_path, CursorName.is_valid, CursorName.path, CursorName.new. intros Hv.
  rewrite strip_prefix_app. cbn [mbind option_bind]. rewrite strip_suffix_app.
  cbn [mbind option_bind]. rewrite Hv. by destruct c.
Qed.
End PathLemmas.

(** reading the path of a fragment back gives its sequence number, whatever
    the prefix of the log, for every 64-bit sequence number; hence two fragments
    of one log never share a path. *)
Theorem fragment_path_roundtrip prefix s t :
  is_u64 (fsn s) -> is_u64 (fsn t) ->
  parse_fragment_path (prefixed_fragment_path prefix s) = Some s /\
  parse_fragment_path (fragment_path prefix (unprefixed_fragment_path s)) = Some s /\
  (prefixed_fragment_path prefix s = prefixed_fragment_path prefix t -> s = t).
Proof.
  intros Hs Ht. split_and!; [by apply parse_prefixed| |by apply prefixed_fragment_path_inj].
  unfold fragment_path, unprefixed_fragment_path.
  rewrite (string_app_assoc "log/Bucket="), (string_app_assoc "/"), (string_app_assoc prefix).
  by apply parse_fragment_basename.
Qed.

Lemma fragment_path_roundtrip_witness :
  parse_fragment_path (prefixed_fragment_path "logs" (mkSeqNo u64_max)) = Some (mkSeqNo u64_max).
Proof.
  apply (fragment_path_roundtrip "logs" (mkSeqNo u64_max) (mkSeqNo 1)); unfold is_u64, u64_max; cbn; lia.
Defined.

(** A path is read as a cursor name exactly when it is the path of a valid
    name, so names and paths of cursors correspond one to one. *)
Theorem cursor_name_roundtrip path c :
  CursorName.from_path path = Some c <-> CursorName.is_valid c = true /\ path = CursorName.path c.
Proof.
  split; [|intros [Hv ->]; by apply cursor_from_path].
  unfold CursorName.from_path, CursorName.is_valid, CursorName.path, CursorName.new.
  - intros H. destruct (strip_prefix "cursor/" path) as [rest|] eqn:Hp; [|done].
    cbn [mbind option_bind] in H. destruct (strip_suffix ".json" rest) as [n|] eqn:Hs; [|done].
    cbn [mbind option_bind] in H. destruct (CursorName.validate n) eqn:Hv; [|done]. injection H as <-.
    split; [done|]. apply strip_prefix_Some in Hp as ->. by apply strip_suffix_Some in Hs as ->.
Qed.

(** ** Scrubbing *)

Section ManifestTheorems.
Context {SS : SetsumSig} {SL : SetsumLaws SS}.

(** C31: for every manifest, a scrub succeeds if and only if the setsum is the
    sum of the parts and of what was collected, every snapshot and fragment
    ends where the next one starts, and the initial offset, if any, is the
    oldest position; it does not look for empty intervals. A manifest is well
    formed, its intervals tiling the log from the oldest position to the next
    one, if and only if it passes the scrub and none of its intervals is
    empty. *)
Theorem scrub_iff m :
  (is_ok (scrub m) <-> scrubbed m) /\
  (manifest_ok m <-> is_ok (scrub m) /\ nonempty_intervals (snapshots m) (fragments m)).
Proof.
  split; [apply scrub_scrubbed|]. split.
  - intros Hm. split; [by apply scrub_complete|]. destruct Hm as [_ Hc _]. by eapply chain_nonempty.
  - intros [Hs Hne]. by apply scrub_sound.
Qed.

(** A fragment that has the next sequence number and starts at the next
    position can be appended: the manifest stays well formed, keeps its oldest
    position, ends where the fragment does, and expects the successor of the
    fragment's sequence number next. *)
Theorem apply_fragment_preserves m f n :
  manifest_ok m -> seqs_from n (fragments m ++ [f]) -> 0 <= n ->
  n + Z.of_nat (length (fragments m)) < u64_max ->
  can_apply_fragment m f = true -> frag_start f = next_write_timestamp m ->
  manifest_ok (apply_fragment m f) /\
  oldest_timestamp (apply_fragment m f) = oldest_timestamp m /\
  next_write_timestamp (apply_fragment m f) = frag_limit f /\
  next_fragment_seq_no (apply_fragment m f) = FragmentSeqNo.successor (frag_seq_no f).
Proof.
  intros Hok Hs Hn Hb Hcan Hstart. destruct (apply_fragment_ok m f Hok (can_apply_nonempty _ _ Hcan) Hstart) as (H1 & H2 & H3).
  split_and!; try done.
  rewrite (next_fragment_seq_no_seqs _ n); cbn; rewrite ?length_app; cbn; [|done|by destruct (fragments m)|done|lia].
  apply seqs_from_app in Hs as [_ [Hf _]]. unfold FragmentSeqNo.successor.
  destruct (Z.eqb_spec (fsn (frag_seq_no f)) u64_max); [lia|]. do 2 f_equal. lia.
Qed.

(** C27: rolling up with the thresholds that the log has always been written
    with never fails: the snapshot that is generated passes its own scrub and
    applies, and the manifest still spans the same positions, has the same
    setsums and the same next sequence number, and is again in the shape that
    the next rollup relies on. *)
Theorem rollup_succeeds m o w n s :
  (1 <= snapshot_rollover_threshold o)%nat -> (1 <= fragment_rollover_threshold o)%nat ->
  manifest_ok m -> seqs_from n (fragments m) ->
  depth_inv (snapshot_rollover_threshold o) (snapshots m) -> max_depth (snapshots m) < 255 ->
  NoDup (ptr_setsum <$> snapshots m) ->
  generate_snapshot m o w = Some s ->
  exists m', apply_snapshot m s = (Ok tt, m') /\
             rolled_up (snapshot_rollover_threshold o) m m' /\ is_ok (snap_scrub s).
Proof. apply generate_apply. Qed.
End ManifestTheorems.

Lemma scrub_iff_witness : manifest_ok Sample.manifest /\ is_ok (scrub Sample.manifest).
Proof.
  assert (is_ok (scrub Sample.manifest)) as Hok by (eexists; vm_compute; reflexivity).
  split; [|exact Hok]. apply (@scrub_iff _ IntSetsum.int_setsum_laws). split; [exact Hok|].
  unfold nonempty_intervals, intervals. cbn. repeat constructor; cbn; lia.
Defined.

Lemma apply_fragment_preserves_witness :
  next_write_timestamp (apply_fragment Sample.manifest Sample.f7) = from_offset 40.
Proof.
  apply (@apply_fragment_preserves _ IntSetsum.int_setsum_laws Sample.manifest Sample.f7 5);
    [apply Sample.manifest_is_ok|by repeat constructor|lia|unfold u64_max; cbn; lia|reflexivity|reflexivity].
Defined.

Lemma depth_inv_sample : depth_inv 2 (snapshots Sample.manifest).
Proof.
  constructor.
  - repeat constructor.
  - repeat constructor; cbn; unfold u8_add; vm_compute; discriminate.
  - intros d. unfold at_depth. etransitivity; [apply length_filter|]. cbn. lia.
  - intros d _. unfold at_depth. eapply Nat.le_lt_trans; [apply length_filter|]. cbn. lia.
Qed.

Lemma rollup_succeeds_witness :
  exists s m', generate_snapshot Sample.manifest Sample.options "w" = Some s /\
    apply_snapshot Sample.manifest s = (Ok tt, m') /\ is_ok (snap_scrub s).
Proof.
  eexists. assert (generate_snapshot Sample.manifest Sample.options "w" = Some _) as Hg by (vm_compute; reflexivity).
  destruct (@rollup_succeeds _ IntSetsum.int_setsum_laws Sample.manifest Sample.options "w" 5 _
              ltac:(cbn; lia) ltac:(cbn; lia) Sample.manifest_is_ok ltac:(by repeat constructor)
              depth_inv_sample ltac:(vm_compute; reflexivity)
              ltac:(cbn; repeat constructor; set_solver) Hg) as (m' & Happ & _ & Hs).
  exists m'. split; [exact Hg|]. split; [exact Happ|exact Hs].
Defined.

(** ** Rolling up with other thresholds *)

Module Lowered.
Definition ptr (depth start limit sum : Z) : SnapshotPointer :=
  mkSnapshotPointer sum (unprefixed_snapshot_path sum) depth (from_offset start) (from_offset limit) 100.

(** What three rollups with a snapshot threshold of three can leave. *)
Definition manifest : Manifest :=
  mkManifest 10 0 400 "writer" [ptr 2 1 5 1; ptr 2 5 9 2; ptr 1 9 11 3]
    [mkFragment (unprefixed_fragment_path (mkSeqNo 6)) (mkSeqNo 6) (from_offset 11) (from_offset 12) 100 4]
    None None.
Definition options : SnapshotOptions := mkSnapshotOptions 2 100.

Lemma lowered_is_ok : manifest_ok manifest.
Proof.
  constructor; [reflexivity| |done].
  replace (offset (oldest_timestamp manifest)) with 1 by reflexivity.
  replace (offset (next_write_timestamp manifest)) with 12 by reflexivity.
  unfold intervals. cbn. repeat (constructor; [reflexivity|]). constructor.
Qed.
End Lowered.

(** rolling up with a lower snapshot threshold than the log was written
    with can fail for good: on this well-formed manifest, whose depths are those
    that a threshold of three leaves, [generate_snapshot] with a threshold of two
    returns a snapshot that [apply_snapshot] rejects, because the new pointer is
    pushed after a shallower snapshot it should precede. *)
Theorem lowered_threshold_rejects :
  manifest_ok Lowered.manifest /\
  ptr_depth <$> snapshots Lowered.manifest = [2; 2; 1] /\
  exists s, generate_snapshot Lowered.manifest Lowered.options "w" = Some s /\
    (apply_snapshot Lowered.manifest s).1 =
      Err (ScrubError_ (ScrubCorruptManifest "expected snapshots to be sequential within the manifest")).
Proof.
  split; [apply Lowered.lowered_is_ok|]. split; [reflexivity|].
  eexists. split; [vm_compute; reflexivity|vm_compute; reflexivity].
Qed.

(** ** Applying garbage *)

Section GarbageTheorems.
Context {SS : SetsumSig} {SL : SetsumLaws SS}.

Lemma scrub_ok_setsum m :
  is_ok (scrub m) ->
  setsum m = setsum_of ptr_setsum (snapshots m) +ₛ setsum_of frag_setsum (fragments m) +ₛ collected m /\
  (forall o, initial_offset m = Some o -> o = oldest_timestamp m).
Proof.
  intros [ss Hok]. unfold scrub in Hok. rewrite scrub_sum in Hok.
  destruct (bool_decide (setsum m <> _)) eqn:Hsum in Hok; [done|].
  destruct (existsb _ (windows (snapshots m))) in Hok; [done|].
  destruct (existsb _ (windows (fragments m))) in Hok; [done|].
  destruct (match last (snapshots m) with Some _ => _ | None => _ end) in Hok; [done|].
  destruct (match initial_offset m with Some _ => _ | None => _ end) eqn:Hio in Hok; [done|].
  split; [apply bool_decide_eq_false in Hsum; by apply dec_stable|].
  intros o Ho. rewrite Ho in Hio. apply bool_decide_eq_false in Hio. by apply dec_stable.
Qed.

(** The shape of a successful application. *)
Lemma apply_garbage_Some m g m' :
  apply_garbage m g = Ok (Some m') ->
  exists snaps frags,
    m' = mkManifest (setsum m) (collected m +ₛ setsum_to_discard g) (acc_bytes m) (writer m)
           snaps frags (Some (first_to_keep g)) (Some (fragments_to_drop_limit g)) /\
    is_ok (scrub m') /\ next_write_timestamp m' = next_write_timestamp m /\
    frags = (foldl discard_fragment (setsum_default, fragments m)
               (range_u64 (fsn (fragments_to_drop_start g)) (fsn (fragments_to_drop_limit g)))).2 /\
    exists kept, kept = (foldl (discard_snapshot (snapshot_for_root g)) (setsum_default, snapshots m)
                           (snapshots_to_drop g)).2 /\
      (snaps = kept \/ exists p, snapshot_for_root g = Some p /\ snaps = p :: kept).
Proof.
  unfold apply_garbage. destruct (is_empty g); [done|]. destruct (_ && _ && _); [done|].
  destruct (FragmentSeqNo.ltb _ _); [done|]. destruct (bool_decide (_ = mkSeqNo 0)); [done|].
  destruct (foldl (discard_snapshot _) _ _) as [sum snaps].
  destruct (foldl discard_fragment _ _) as [sum' frags] eqn:Hf.
  assert (frags = (foldl discard_fragment (setsum_default, fragments m)
            (range_u64 (fsn (fragments_to_drop_start g)) (fsn (fragments_to_drop_limit g)))).2) as Hfr.
  { clear -Hf. revert Hf. generalize (range_u64 (fsn (fragments_to_drop_start g)) (fsn (fragments_to_drop_limit g))).
    generalize (@setsum_default SS). generalize (fragments m). intros l s0 ns. revert sum s0 l.
    induction ns as [|n ns IH]; intros sum s0 l; cbn [foldl]; [by intros [= _ ->]|].
    unfold discard_fragment at 2 4. cbn [fst snd]. destruct (position _ l) as [i|]; [|apply IH].
    destruct (l !! i); apply IH. }
  set (pr := match snapshot_for_root g with Some _ => _ | None => _ end).
  assert (pr.2 = snaps \/ exists p, snapshot_for_root g = Some p /\ pr.2 = p :: snaps) as Hpr.
  { unfold pr. destruct (snapshot_for_root g) as [p|]; [|by left]. destruct (bool_decide _); [by left|right; eauto]. }
  destruct pr as [root snaps']. cbn in Hpr. destruct (bool_decide (_ <> setsum_to_discard g)); [done|].
  destruct (scrub _) as [ss|] eqn:Hss; [|done]. destruct (LogPosition.ltb _ _); [done|].
  destruct (bool_decide (_ <> next_write_timestamp m)) eqn:Hn; [done|]. intros [= <-].
  exists snaps', frags. split; [done|]. split; [by exists ss|]. split.
  { apply bool_decide_eq_false in Hn. by apply dec_stable. }
  split; [done|]. exists snaps. done.
Qed.

(** C3: whatever the garbage, a manifest that [apply_garbage] returns passes
    its scrub, starts at the position the garbage keeps first, ends where the
    old one does, still accounts for the whole history of the log, and holds
    less by exactly the setsum that was discarded. *)
Theorem apply_garbage_safe m g m' :
  manifest_ok m -> apply_garbage m g = Ok (Some m') ->
  is_ok (scrub m') /\ oldest_timestamp m' = first_to_keep g /\
  next_write_timestamp m' = next_write_timestamp m /\ setsum m' = setsum m /\
  collected m' = collected m +ₛ setsum_to_discard g /\
  setsum_of ptr_setsum (snapshots m) +ₛ setsum_of frag_setsum (fragments m) =
    setsum_of ptr_setsum (snapshots m') +ₛ setsum_of frag_setsum (fragments m') +ₛ setsum_to_discard g.
Proof.
  intros Hok (snaps & frags & -> & Hs & Hn & _)%apply_garbage_Some.
  destruct (scrub_ok_setsum _ Hs) as [Hsum Hi]. split_and!; try done.
  - symmetry. by apply Hi.
  - cbn in Hsum |- *. rewrite (ok_setsum _ Hok) in Hsum.
    apply (setsum_add_cancel_r (collected m)). rewrite Hsum, <- !setsum_add_assoc. do 2 f_equal.
    apply setsum_add_comm.
Qed.

(** Applying the same garbage again is a no-op: a garbage that makes no
    new snapshot, once applied, is recognised as applied. *)
Theorem apply_garbage_again m g m' :
  NoDup (snapshots m) -> snapshots_to_make g = [] ->
  (forall p, snapshot_for_root g = Some p -> p ∉ snapshots_to_drop g) ->
  apply_garbage m g = Ok (Some m') -> apply_garbage m' g = Ok None.
Proof.
  intros Hnd Hmk Hroot Happ. assert (is_empty g = false) as Hemp.
  { unfold apply_garbage in Happ. by destruct (is_empty g). }
  apply apply_garbage_Some in Happ as (snaps & frags & -> & _ & _ & _ & kept & Hkept & Hsn).
  rewrite discard_snapshots in Hkept; [|done|].
  - unfold apply_garbage. rewrite Hemp. cbn [initial_seq_no snapshots default].
    unfold FragmentSeqNo.leb. cbn. rewrite Z.leb_refl, Hmk, (bool_decide_eq_true_2 ([] = [])), andb_true_r by done.
    replace (existsb _ (snapshots_to_drop g)) with false; [done|]. symmetry.
    apply not_true_iff_false. intros (q & Hq%list_elem_of_In & Hin%bool_decide_eq_true)%existsb_exists.
    assert (q ∉ kept) as Hni by (rewrite Hkept; cbn; rewrite list_elem_of_filter; tauto).
    destruct Hsn as [->|(p & Hp & ->)]; [done|]. apply elem_of_cons in Hin as [->|]; [|done].
    by apply (Hroot p).
  - intros q Hq _ Heq. symmetry in Heq. by apply (Hroot q).
Qed.
End GarbageTheorems.

Lemma apply_garbage_safe_witness :
  oldest_timestamp (Sample.collected_at 13) = from_offset 11 /\
  collected (Sample.collected_at 13) = 7.
Proof.
  destruct (@apply_garbage_safe _ IntSetsum.int_setsum_laws Sample.manifest (Sample.garbage 13)
              (Sample.collected_at 13) Sample.manifest_is_ok ltac:(vm_compute; reflexivity))
    as (_ & Ho & _ & _ & Hc & _).
  rewrite Ho, Hc. split; vm_compute; reflexivity.
Defined.

Lemma apply_garbage_again_witness :
  apply_garbage (Sample.collected_at 24) (Sample.garbage 24) = Ok None.
Proof.
  apply (@apply_garbage_again _ IntSetsum.int_setsum_laws Sample.manifest).
  - repeat constructor; set_solver.
  - vm_compute; reflexivity.
  - replace (snapshot_for_root (Sample.garbage 24)) with (@None SnapshotPointer) by (vm_compute; reflexivity).
    intros p [=].
  - vm_compute; reflexivity.
Defined.
