(* ===== verification/PersistProps.v ===== *)
(** * Properties of installs and loads

    What the conditional writes of a manifest and of snapshots guarantee
    against a shared store that may lose requests or responses. *)

From S2P Require Import Prelude Setsum Storage Types Paths Effects Codec Manifest ManifestFacts Persist Gc.
From S2P Require Import GcFacts GcApply Sample.

#[local] Open Scope Z_scope.
#[local] Open Scope wal_scope.

Section Theorems.
Context {SS : SetsumSig} {OS : ObjectStore} {rely : relation Objects} {OL : ObjectStoreLaws OS rely}.
Context {serde_manifest : Serde Manifest} {serde_snapshot : Serde Snapshot}.

Lemma put_allowed_matches t m k :
  put_allowed (put_options (Some t)) m k <-> exists b, m !! k = Some (b, t).
Proof.
  unfold put_allowed. cbn. split; [|intros [b Hb]].
  - intros [_ H]. by apply H.
  - split; [done|]. intros ? [= <-]. eauto.
Qed.

(** Steps of a put that is never allowed are steps of others. *)
Lemma put_steps_stale k b t m m' :
  (forall m m', rely m m' -> (forall x, m !! k <> Some (x, t)) -> forall x, m' !! k <> Some (x, t)) ->
  put_steps (rely := rely) k b (put_options (Some t)) m m' -> (forall x, m !! k <> Some (x, t)) ->
  rely m m' /\ forall x, m' !! k <> Some (x, t).
Proof.
  intros Hfresh Hs. induction Hs as [m m' Hr|m t' Hal|m1 m2 m3 _ IH1 _ IH2]; intros Hno.
  - split; [done|]. by eapply Hfresh.
  - apply put_allowed_matches in Hal as [x Hx]. by apply Hno in Hx.
  - destruct (IH1 Hno) as [H1 Hno2]. destruct (IH2 Hno2) as [H2 Hno3]. split; [by etrans|done].
Qed.

(** C7: installing a manifest is a compare-and-swap: it returns an ETag only
    if the manifest that carried the expected ETag (or the absence of one) was
    replaced by the new one in a single step, and every failure is one of the
    two contention errors, after which the store has only moved by steps of
    others and by such replacements. *)
Theorem manifest_install_cas prefix current new b w r w' :
  to_vec new = Some b -> Manifest_install prefix current new w = (r, w') ->
  put_steps (rely := rely) (manifest_path prefix) b (put_options current) (objects w) (objects w') /\
  match r with
  | Ret t => exists pre,
      put_steps (rely := rely) (manifest_path prefix) b (put_options current) (objects w) pre /\
      match current with
      | Some t0 => exists b0, pre !! manifest_path prefix = Some (b0, t0)
      | None => pre !! manifest_path prefix = None
      end /\
      objects w' = <[manifest_path prefix := (b, t)]> pre
  | Fail e => e = LogContentionDurable \/ e = LogContentionFailure
  | NoFuel => False
  end.
Proof.
  intros Hb Hi. pose proof (Manifest_install_outcome prefix current new w r w' Hi) as Ho. rewrite Hb in Ho.
  destruct Ho as [Hs Hr]. split; [done|]. destruct r as [t|e|]; [|done..].
  destruct Hr as (pre & Hpre & Hal & Hw). exists pre. split_and!; [done| |done].
  destruct current as [t0|]; [by apply put_allowed_matches|]. destruct Hal as [Hal _]. by apply Hal.
Qed.

(** A writer that holds a stale ETag cannot install: if no ETag of the
    manifest is ever reused, then once the manifest carries another one, an
    install over the old one fails and leaves the store to the others.  So of
    the writers that read one version at most one replaces it. *)
Theorem stale_install_fails prefix t0 new b w r w' :
  to_vec new = Some b ->
  (forall m m', rely m m' -> (forall x, m !! manifest_path prefix <> Some (x, t0)) ->
                forall x, m' !! manifest_path prefix <> Some (x, t0)) ->
  (forall x, objects w !! manifest_path prefix <> Some (x, t0)) ->
  Manifest_install prefix (Some t0) new w = (r, w') ->
  (exists e, r = Fail e) /\ rely (objects w) (objects w').
Proof.
  intros Hb Hfresh Hno Hi.
  pose proof (Manifest_install_outcome prefix (Some t0) new w r w' Hi) as Ho. rewrite Hb in Ho.
  destruct Ho as [Hs Hr]. split; [|by eapply put_steps_stale].
  destruct r as [t|e|]; [|by eauto|done]. exfalso. destruct Hr as (pre & Hpre & Hal & _).
  apply put_allowed_matches in Hal as [x Hx].
  destruct (put_steps_stale _ _ _ _ _ Hfresh Hpre Hno) as [_ Hno']. by apply Hno' in Hx.
Qed.

(** A manifest that is loaded is the one the store holds, with its ETag,
    and in the state an install left behind it is the manifest installed. *)
Theorem manifest_load_sound {SM : SerdeLaws Manifest} prefix w x w' :
  Manifest_load prefix w = (Ret x, w') ->
  rely (objects w) (objects w') /\
  match x with
  | None => objects w' !! manifest_path prefix = None
  | Some (m, t) => exists b, objects w' !! manifest_path prefix = Some (b, t) /\ from_slice b = Some m /\
      forall m0 b0 pre, to_vec m0 = Some b0 -> objects w' = <[manifest_path prefix := (b0, t)]> pre -> m = m0
  end.
Proof.
  intros H. apply get_retrying_Ret in H.
  - destruct H as [Hr Hx]. split; [done|]. destruct x as [[m t]|]; [|done].
    destruct Hx as (b & t1 & t2 & Hk & Ht & Hd). destruct Ht as [->| ->]; [|done].
    unfold bind, decode_or in Hd. destruct (from_slice b) as [m'|] eqn:Hs; [|done].
    injection Hd as -> ->. exists b. split_and!; [done..|].
    intros m0 b0 pre Hb0 Hw. rewrite Hw, lookup_insert_eq in Hk. injection Hk as <-.
    apply from_slice_to_vec in Hb0. congruence.
  - intros b t w1. destruct t as [t|]; [|done]. unfold bind, decode_or. by destruct (from_slice b).
Qed.

(** Installing a snapshot is idempotent: it returns the pointer of the
    snapshot only when an object is at the snapshot's path, and it never
    overwrites an object that is already there. *)
Theorem snapshot_install_present prefix s w p w' :
  (forall m m' k, rely m m' -> is_Some (m !! k) -> m' !! k = m !! k) ->
  Snapshot_install prefix s w = (Ret p, w') ->
  p = to_pointer s /\ is_Some (objects w' !! (prefix +:+ "/" +:+ snap_path s)) /\
  forall k, is_Some (objects w !! k) -> objects w' !! k = objects w !! k.
Proof.
  intros Hrely. unfold Snapshot_install, encode_or, bind, ret, throw.
  destruct (to_vec s) as [b|]; cbv beta iota; [|done].
  intros (w1 & Hs & Hcases)%put_retrying_outcome.
  assert (forall m m', put_steps (rely := rely) (prefix +:+ "/" +:+ snap_path s) b if_not_exists m m' ->
            forall k, is_Some (m !! k) -> m' !! k = m !! k) as Hkeep.
  { induction 1 as [m m' Hr|m t [Hal _]|m1 m2 m3 _ IH1 _ IH2]; intros k Hk; [by eapply Hrely| |].
    - specialize (Hal eq_refl). rewrite lookup_insert_ne; [done|]. intros <-. rewrite Hal in Hk. by destruct Hk.
    - rewrite IH2, IH1; [done|done|by rewrite IH1]. }
  destruct Hcases as [(pre & t & t' & _ & _ & Hw & _ & Hk)|[[Hno Hk]|(e & _ & Hk)]]; [| |done];
    injection Hk as <- <-; (split; [done|]; split; [|by apply Hkeep]).
  - rewrite Hw, lookup_insert_eq. eauto.
  - destruct (objects w1 !! _) eqn:Hl; [eauto|]. exfalso. apply Hno. split; [done|]. intros t [=].
Qed.
End Theorems.

(** The store after an install of the sample manifest over the ETag [t]. *)
Definition installed (t : string) (w : @world MemStore.mem_store) : res ETag * @world MemStore.mem_store :=
  Manifest_install Sample.prefix (Some (mkETag t)) Sample.manifest w.

Lemma manifest_install_cas_witness :
  (installed "manifest" Sample.store0).1 = Ret (mkETag "tag0") /\
  exists pre, objects (installed "manifest" Sample.store0).2 =
    <[manifest_path Sample.prefix := (Codec.put Sample.manifest, mkETag "tag0")]> pre.
Proof.
  assert ((installed "manifest" Sample.store0).1 = Ret (mkETag "tag0")) as H1 by (vm_compute; reflexivity).
  split; [exact H1|].
  destruct (@manifest_install_cas _ _ _ MemStore.mem_store_laws codec_serde Sample.prefix
              (Some (mkETag "manifest")) Sample.manifest (Codec.put Sample.manifest) Sample.store0
              (Ret (mkETag "tag0")) (installed "manifest" Sample.store0).2 eq_refl) as (_ & pre & _ & _ & Hw).
  - rewrite <- H1. unfold installed. apply surjective_pairing.
  - exists pre. exact Hw.
Defined.

Lemma stale_install_fails_witness : exists e, (installed "stale" Sample.store0).1 = Fail e.
Proof.
  destruct (@stale_install_fails _ _ _ MemStore.mem_store_laws codec_serde Sample.prefix
              (mkETag "stale") Sample.manifest (Codec.put Sample.manifest) Sample.store0
              (installed "stale" Sample.store0).1 (installed "stale" Sample.store0).2 eq_refl) as [He _].
  - intros m m' <- Hm. exact Hm.
  - intros x. replace (objects Sample.store0 !! manifest_path Sample.prefix)
      with (Some (Sample.object Sample.manifest "manifest")) by (vm_compute; reflexivity).
    unfold Sample.object. intros [=].
  - unfold installed. apply surjective_pairing.
  - exact He.
Defined.

Lemma manifest_load_sound_witness :
  exists w', Manifest_load Sample.prefix Sample.store0 = (Ret (Some (Sample.manifest, mkETag "manifest")), w') /\
    exists b, objects w' !! manifest_path Sample.prefix = Some (b, mkETag "manifest").
Proof.
  exists Sample.store0.
  assert (Manifest_load Sample.prefix Sample.store0 =
          (Ret (Some (Sample.manifest, mkETag "manifest")), Sample.store0)) as Hl by (vm_compute; reflexivity).
  split; [exact Hl|].
  destruct (@manifest_load_sound _ _ _ MemStore.mem_store_laws codec_serde codec_serde_laws _ _ _ _ Hl)
    as (_ & b & Hb & _). exists b. exact Hb.
Defined.

Lemma snapshot_install_present_witness :
  is_Some (objects (Snapshot_install Sample.prefix Sample.top Sample.store0).2 !!
             (Sample.prefix +:+ "/" +:+ snap_path Sample.top)).
Proof.
  apply (@snapshot_install_present _ _ _ MemStore.mem_store_laws codec_serde Sample.prefix Sample.top
           Sample.store0 (to_pointer Sample.top)).
  - intros m m' k <- _. reflexivity.
  - replace (Ret (to_pointer Sample.top)) with (Snapshot_install Sample.prefix Sample.top Sample.store0).1
      by (vm_compute; reflexivity).
    apply surjective_pairing.
Defined.
