(* ===== verification/GcProps.v ===== *)
(** * Properties of garbage collection

    Computing garbage, applying it and deleting files, against a store whose
    loads may fail. *)

From S2P Require Import Prelude Setsum Storage Types Paths Effects Codec Manifest ManifestFacts Persist Gc.
From S2P Require Import GcFacts GcApply Sample ManifestProps.

#[local] Open Scope Z_scope.
#[local] Open Scope wal_scope.

Section Theorems.
Context {SS : SetsumSig} {SL : SetsumLaws SS} {OS : ObjectStore} {cache : SnapshotCache}.
Context {serde_snapshot : Serde Snapshot}.
Variable prefix : string.
Variable I : world -> Prop.
Variable E : Error -> Prop.
#[local] Abbreviation loads := (loads prefix I E).

(** C2: on a well-formed log [Garbage::new] terminates and either fails
    because a snapshot could not be loaded, or returns nothing exactly when
    the first fragment is not below the cutoff, or returns garbage that the
    manifest accepts: a non-empty prefix of the log, all below the cutoff, is
    dropped; the rest is still reachable, in order, from the new manifest and
    the snapshots the garbage makes; and the setsum of what was dropped moves
    to the collected one. *)
Theorem garbage_new_correct n m k l keep :
  good_log loads n m k l ->
  wp I E (Garbage_new prefix n m keep) (fun r =>
    match r with
    | None => forall f, list.head l = Some f -> offset keep < offset (frag_limit f)
    | Some g => exists dl kp m',
        l = dl ++ kp /\ dl <> [] /\ Forall (fun f => offset (frag_limit f) <= offset keep) dl /\
        apply_garbage m g = Ok (Some m') /\
        good_log (or_made loads (snapshots_to_make g)) n m' (k + Z.of_nat (length dl)) kp /\
        collected m' = collected m +ₛ setsum_of frag_setsum dl /\
        next_write_timestamp m' = next_write_timestamp m
    end).
Proof.
  intros Hgood. eapply wp_mono; [by apply (Garbage_new_wp prefix I E n m k l keep)|].
  intros [g|] Hg; [|done]. destruct Hg as (dl & kp & dr & ks & fd & fk & new & kpss & Hl & Hexp & Hcol).
  exists dl, kp, (collected_manifest m g (option_list new ++ ks) fk).
  destruct (collected_good loads n m k l g dl kp dr ks fd fk new kpss Hgood Hl Hcol) as (Hgood' & _ & Hn).
  split_and!; try done; [apply Hcol|by eapply apply_collects|].
  cbn. by rewrite (col_setsum _ _ _ _ _ _ _ _ _ _ _ _ _ Hcol).
Qed.

(** Garbage stays valid while the log is appended to: garbage that was
    computed on a manifest applies to the manifest with further fragments, and
    drops the same prefix of the log. *)
Theorem garbage_survives_appends n m k l keep frs e :
  good_log loads n m k l ->
  chain (offset (next_write_timestamp m)) (frag_iv <$> frs) e -> seqs_from (k + Z.of_nat (length l)) frs ->
  k + Z.of_nat (length l) + Z.of_nat (length frs) <= u64_max ->
  wp I E (Garbage_new prefix n m keep) (fun r =>
    match r with
    | None => True
    | Some g => exists dl kp m',
        l = dl ++ kp /\ dl <> [] /\ apply_garbage (foldl apply_fragment m frs) g = Ok (Some m') /\
        good_log (or_made loads (snapshots_to_make g)) n m' (k + Z.of_nat (length dl)) (kp ++ frs)
    end).
Proof.
  intros Hgood Hch Hs Hmax. eapply wp_mono; [by apply (Garbage_new_wp prefix I E n m k l keep)|].
  intros [g|] Hg; [|done]. destruct Hg as (dl & kp & dr & ks & fd & fk & new & kpss & Hl & Hexp & Hcol).
  pose proof (good_log_appended loads n m k l frs e Hgood Hch Hs Hmax) as Hgood1.
  pose proof (collects_appended loads n m k g dl kp dr ks fd fk new kpss frs Hcol) as Hcol1.
  assert (l ++ frs = dl ++ kp ++ frs) as Hl1 by (by rewrite Hl, app_assoc).
  exists dl, kp, (collected_manifest (foldl apply_fragment m frs) g (option_list new ++ ks) (fk ++ frs)).
  split_and!; [done|apply Hcol|by eapply apply_collects|]. by eapply collected_good.
Qed.


End Theorems.

Lemma garbage_new_correct_witness :
  exists g dl kp, (Garbage_new Sample.prefix 2 Sample.manifest (from_offset 13) Sample.store0).1 = Ret (Some g) /\
    Sample.log = dl ++ kp /\ dl <> [] /\ is_ok (apply_garbage Sample.manifest g).
Proof.
  destruct (@garbage_new_correct _ IntSetsum.int_setsum_laws _ Sample.cache _ Sample.prefix Sample.in_store
              Sample.no_error 2 Sample.manifest 1 Sample.log (from_offset 13) Sample.good Sample.store0 eq_refl)
    as [(r & w' & Hr & _ & Hpost)|(e & w' & _ & [])].
  apply (f_equal fst) in Hr. cbn [fst] in Hr. destruct r as [g|].
  - destruct Hpost as (dl & kp & m' & Hl & Hne & _ & Happ & _).
    exists g, dl, kp. split; [exact Hr|]. split; [exact Hl|]. split; [exact Hne|]. by exists (Some m').
  - exfalso. specialize (Hpost Sample.f1 eq_refl). cbn in Hpost. lia.
Defined.


Lemma garbage_survives_appends_witness :
  exists dl kp m', Sample.log = dl ++ kp /\ dl <> [] /\
    apply_garbage (apply_fragment Sample.manifest Sample.f7) (Sample.garbage 13) = Ok (Some m').
Proof.
  destruct (@garbage_survives_appends _ IntSetsum.int_setsum_laws _ Sample.cache _ Sample.prefix Sample.in_store
              Sample.no_error 2 Sample.manifest 1 Sample.log (from_offset 13) [Sample.f7] 40 Sample.good
              Sample.f7_chain Sample.f7_seqs
              ltac:(unfold u64_max; cbn; lia) Sample.store0 eq_refl)
    as [(r & w' & Hr & _ & Hpost)|(e & w' & _ & [])].
  apply (f_equal fst) in Hr. cbn [fst] in Hr.
  assert (Ret r = Ret (Some (Sample.garbage 13))) as Hg by (rewrite <- Hr; vm_compute; reflexivity).
  injection Hg as ->. destruct Hpost as (dl & kp & m' & Hl & Hne & Happ & _). exists dl, kp, m'. split; [exact Hl|]. split; [exact Hne|exact Happ].
Defined.
