(* ===== verification/ReaderProps.v ===== *)
(** * Properties of reads

    What scans return, with and without limits, and when a scan of the manifest
    alone is the same as one that resolves snapshots. *)

From S2P Require Import Prelude Setsum Storage Types Paths Effects Codec Manifest ManifestFacts Persist Gc.
From S2P Require Import GcFacts GcApply Reader ReaderFacts Sample.

#[local] Open Scope Z_scope.
#[local] Open Scope wal_scope.

Section Lemmas.
Context {SS : SetsumSig}.

Lemma pop_while_fst cond rl s1 s2 : (pop_while cond rl s1).1 = (pop_while cond rl s2).1.
Proof.
  revert s1 s2. induction rl as [|x rl IH]; intros s1 s2; [done|]. cbn. destruct rl; [done|].
  destruct (cond _); [apply IH|done].
Qed.

Lemma post_process_fst frags from limits s1 s2 :
  (post_process_fragments frags from limits s1).1 = (post_process_fragments frags from limits s2).1.
Proof.
  unfold post_process_fragments.
  set (pr1 := match max_files limits with Some _ => _ | None => _ end).
  set (pr2 := match max_files limits with Some _ => _ | None => _ end).
  assert (pr1.1 = pr2.1) as Hpr by (unfold pr1, pr2; destruct (max_files limits); [destruct (_ <? _)|]; done).
  destruct pr1 as [l1 b1], pr2 as [l2 b2]. cbn in Hpr. subst l2.
  pose proof (pop_while_fst (starts_too_late from limits) (reverse l1) b1 b2) as Hp.
  destruct (pop_while _ _ b1) as [l2 b1'], (pop_while _ _ b2) as [l2' b2']. cbn in Hp. subst l2'.
  pose proof (pop_while_fst (too_many_bytes limits) l2 b1' b2') as Hq.
  destruct (pop_while _ _ b1') as [l3 b1''], (pop_while _ _ b2') as [l3' b2'']. cbn in Hq. by subst l3'.
Qed.

Lemma saturating_fold_le l a : a <= u64_max -> foldl saturating_add a l <= u64_max.
Proof.
  revert a. induction l as [|x l IH]; intros a Ha; [done|]. cbn. apply IH. unfold saturating_add. lia.
Qed.

Lemma trimmed_unlimited frags from short res rest short' :
  trimmed frags from UNLIMITED short res rest short' -> res = frags /\ short' = short.
Proof.
  intros [Hsplit _ _ Hshort Hreason]. destruct rest as [|x rest].
  - rewrite app_nil_r in Hsplit. rewrite bool_decide_eq_false_2, orb_false_r in Hshort by (intros Hx; by apply Hx).
    done.
  - exfalso. destruct (Hreason x rest eq_refl) as [(n & [=] & _)|[Hd|Hb]]; cbn in *.
    + pose proof (u64_wrap_range (offset (frag_start x) - offset from)) as [_ Hle].
      unfold LogPosition.diff, wrapping_sub in Hd. lia.
    + pose proof (saturating_fold_le (frag_num_bytes <$> res ++ [x]) 0 ltac:(unfold u64_max; lia)). lia.
Qed.
End Lemmas.

Section Theorems.
Context {SS : SetsumSig} {SL : SetsumLaws SS} {OS : ObjectStore}.
Context {serde_snapshot : Serde Snapshot}.
Variable prefix : string.
Variable cache : option SnapshotCache.
Variable I : world -> Prop.
Variable E : Error -> Prop.
#[local] Abbreviation log_of := (log_of (resolves prefix cache I E)).

Lemma scan_unlimited_wp n m l from short :
  0 <= offset from <= u64_max -> log_of n m l ->
  chain (offset (oldest_timestamp m)) (frag_iv <$> l) (offset (next_write_timestamp m)) ->
  offset (next_write_timestamp m) <= u64_max ->
  wp I E (scan_with_cache prefix cache n m from UNLIMITED short)
    (fun r => r = (List.filter (fun f => LogPosition.ltb from (frag_limit f)) l, short)).
Proof.
  intros Hf Hlog Hch Hmax. eapply wp_mono; [by apply scan_with_cache_wp|].
  intros [res short'] (fetched & beyond & rest & Hpast & Htr & Hb). cbn in Htr.
  apply trimmed_unlimited in Htr as [-> ->].
  assert (beyond = []) as ->; [|by rewrite app_nil_r in Hpast; rewrite <- Hpast].
  destruct beyond; [done|]. inversion Hb as [|? ? (k & [=] & _)].
Qed.

(** C4: a scan without limits terminates within as many rounds as the
    snapshots are deep and, unless a load fails, returns exactly the fragments
    of the log that hold or follow the position, each once and in order. *)
Theorem scan_unlimited_exact n m l from short :
  0 <= offset from <= u64_max -> log_of n m l ->
  chain (offset (oldest_timestamp m)) (frag_iv <$> l) (offset (next_write_timestamp m)) ->
  offset (next_write_timestamp m) <= u64_max ->
  wp I E (scan_with_cache prefix cache n m from UNLIMITED short)
    (fun r => r = (List.filter (fun f => LogPosition.ltb from (frag_limit f)) l, short)).
Proof. apply scan_unlimited_wp. Qed.

(** A scan with limits returns a prefix of what the scan without limits
    returns: never more files than asked for, and more bytes than asked for
    only in a single fragment; where it stops before the end of the log, one
    of the limits would be exceeded, or the records asked for have all been
    returned. *)
Theorem scan_limited_prefix n m l from limits short :
  limits_ok from limits -> log_of n m l ->
  chain (offset (oldest_timestamp m)) (frag_iv <$> l) (offset (next_write_timestamp m)) ->
  offset (next_write_timestamp m) <= u64_max ->
  wp I E (scan_with_cache prefix cache n m from limits short) (fun '(res, short') =>
    exists rest,
      List.filter (fun f => LogPosition.ltb from (frag_limit f)) l = res ++ rest /\
      (forall k, max_files limits = Some k -> Z.of_nat (length res) <= k) /\
      ((length res <= 1)%nat \/
       foldl saturating_add 0 (frag_num_bytes <$> res) <= default u64_max (max_bytes limits)) /\
      (forall x r, rest = x :: r ->
         stopped from limits res x \/
         exists k, max_records limits = Some k /\ offset from + k <= offset (frag_start x))).
Proof.
  intros Hlim Hlog Hch Hmax. eapply wp_mono; [by apply scan_with_cache_wp|].
  intros [res short'] (fetched & beyond & rest & Hpast & [Hsplit Hfiles Hbytes _ Hreason] & Hb). cbn in *.
  exists (rest ++ beyond). split_and!.
  - unfold past in Hpast. by rewrite Hpast, Hsplit, app_assoc.
  - intros k Hk. apply Hfiles; [done|]. by eapply lim_files.
  - done.
  - intros x r Hx. destruct rest as [|y rest].
    + right. cbn in Hx. subst beyond. by inversion Hb.
    + left. injection Hx as -> _. by eapply Hreason.
Qed.

(** When a scan of the manifest alone gives an answer, it is the answer
    of the scan that may resolve snapshots, which then makes no request. *)
Theorem scan_from_manifest_agrees n m from limits res short w :
  manifest_ok m -> 0 <= offset from -> (forall k, max_records limits = Some k -> 0 <= k) ->
  scan_from_manifest m from limits = Some res ->
  exists short', scan_with_cache prefix cache n m from limits short w = (Ret (res, short'), w).
Proof.
  intros Hok Hf0 Hpos. unfold scan_from_manifest.
  destruct (match max_records limits with Some _ => _ | None => _ end); [done|].
  destruct (existsb _ (fragments m)) eqn:Hstart; [|done]. cbn [negb].
  destruct (existsb _ (fragments m)) in |- *; [|done]. cbn [negb]. intros [= <-].
  assert ((scan_range from limits).1 = from) as Hr1 by (unfold scan_range; by destruct (max_records limits)).
  apply existsb_exists in Hstart as (f & Hf%list_elem_of_In & Hle%Z.leb_le). rewrite Hr1 in Hle.
  pose proof (ok_chain _ Hok) as Hc. unfold intervals in Hc. apply chain_app in Hc as (c & Hps & Hfs).
  unfold scan_with_cache.
  rewrite (filter_none (fun s => ranges_overlap (scan_range from limits) (ptr_start s, ptr_limit s))).
  2: { apply Forall_forall. intros p Hp. apply not_true_iff_false. rewrite overlap_iff, Hr1.
       apply (list_elem_of_fmap_2 ptr_iv) in Hp. apply (chain_bounds _ _ _ _ _ Hps) in Hp.
       apply (list_elem_of_fmap_2 frag_iv) in Hf. apply (chain_bounds _ _ _ _ _ Hfs) in Hf. lia. }
  set (frags := List.filter (in_range (scan_range from limits)) (fragments m)).
  assert (resolve_levels prefix cache n [] frags = ret frags) as -> by (by destruct n).
  unfold bind, ret. rewrite (filter_all (fun f => LogPosition.ltb from (frag_limit f)) frags).
  2: { apply Forall_forall. intros g Hg%list_elem_of_In. apply List.filter_In in Hg as [_ Hg].
       unfold in_range in Hg. apply overlap_iff in Hg as [Hg _]. rewrite Hr1 in Hg. by apply Z.ltb_lt. }
  rewrite (sort_by_key_id _ frags).
  - rewrite (surjective_pairing (post_process_fragments frags from limits short)).
    rewrite (post_process_fst frags from limits short false). eauto.
  - apply filter_sorted. pose proof (chain_start_sorted _ _ _ Hfs) as Hs.
    clear -Hs. induction Hs as [|x xs _ IH Hx]; constructor; [done|]. eapply Forall_impl; [exact Hx|]. cbn. lia.
Qed.
End Theorems.

Lemma scan_unlimited_exact_witness :
  (scan_with_cache Sample.prefix None 2 Sample.manifest (from_offset 15) UNLIMITED false Sample.store0).1 =
  Ret ([Sample.f3; Sample.f4; Sample.f5; Sample.f6], false).
Proof.
  destruct (@scan_unlimited_exact _ _ _ Sample.prefix None Sample.in_store Sample.no_error
              2 Sample.manifest Sample.log (from_offset 15) false ltac:(unfold u64_max; cbn; lia)
              Sample.log_resolves (gl_chain _ _ _ _ _ Sample.good) ltac:(vm_compute; discriminate)
              Sample.store0 eq_refl) as [(r & w' & Hr & _ & ->)|(e & w' & _ & [])].
  rewrite Hr. vm_compute. reflexivity.
Defined.

Definition sample_limits : Limits := mkLimits (Some 2) None (Some 5).

Lemma scan_limited_prefix_witness :
  exists res short rest,
    (scan_with_cache Sample.prefix None 2 Sample.manifest (from_offset 15) sample_limits false Sample.store0).1 =
      Ret (res, short) /\ Sample.f3 :: [Sample.f4; Sample.f5; Sample.f6] = res ++ rest /\ (length res <= 2)%nat.
Proof.
  destruct (@scan_limited_prefix _ _ _ Sample.prefix None Sample.in_store Sample.no_error
              2 Sample.manifest Sample.log (from_offset 15) sample_limits false
              ltac:(constructor; cbn; unfold u64_max; intros; simplify_eq; lia)
              Sample.log_resolves (gl_chain _ _ _ _ _ Sample.good) ltac:(vm_compute; discriminate)
              Sample.store0 eq_refl) as [([res short] & w' & Hr & _ & rest & Hl & Hn & _)|(e & w' & _ & [])].
  exists res, short, rest. rewrite Hr. split; [done|]. split.
  - rewrite <- Hl. vm_compute. reflexivity.
  - specialize (Hn 2 eq_refl). lia.
Defined.

Lemma scan_from_manifest_agrees_witness :
  exists short, scan_with_cache Sample.prefix None 0 Sample.manifest (from_offset 23) (mkLimits None None (Some 5)) false
                  Sample.store0 = (Ret ([Sample.f5], short), Sample.store0).
Proof.
  apply (@scan_from_manifest_agrees _ _ _ Sample.prefix None 0 Sample.manifest).
  - apply Sample.manifest_is_ok.
  - cbn. lia.
  - cbn. intros k [= <-]. lia.
  - vm_compute. reflexivity.
Defined.
