(* ===== verification/ManagerProps.v ===== *)
(** * Properties of the manifest manager *)

From S2P Require Import Prelude Setsum Storage Types Paths Effects Codec Manifest ManifestFacts Rollup.
From S2P Require Import Persist Gc GcFacts GcApply Reader ReaderFacts ManifestManager ManagerFacts Sample.

#[local] Open Scope Z_scope.
#[local] Open Scope wal_scope.

Section Theorems.
Context {SS : SetsumSig} {SL : SetsumLaws SS}.

(** C1: whatever the order in which positions are assigned, fragments are
    published and installs of manifests succeed or fail, the manifest that the
    manager holds is well formed and has, without a gap, the first fragments
    in the order of assignment; and the fragment of every publisher that was
    told of a success is among them. *)
Theorem acknowledged_in_log mgr m0 seq0 e_tag now s :
  start_ok mgr m0 seq0 -> rtc (step mgr m0 seq0 false) (start m0 seq0 e_tag now) s ->
  exists hist, aligned m0 seq0 (sys_lens s) hist (stable_manifest (stable (sys_st s))) /\
    forall tx, (tx, None) ∈ sys_sent s -> exists f, (tx, Some f) ∈ sys_pushed s /\ f ∈ hist.
Proof.
  intros Hs Hr. destruct (co_logged _ _ _ (reachable_consistent mgr m0 seq0 Hs e_tag now s Hr))
    as (hist & Hal & Hack & _). by exists hist.
Qed.

(** C29: a publisher, or a caller that applies garbage, waits or was answered,
    and was answered at most once, also when garbage is collected and the
    manager is shut down. *)
Theorem answered_at_most_once mgr m0 seq0 gc e_tag now s :
  rtc (step mgr m0 seq0 gc) (start m0 seq0 e_tag now) s ->
  (sys_pushed s).*1 ≡ₚ waiting s ++ (sys_sent s).*1 /\ NoDup (waiting s ++ (sys_sent s).*1).
Proof.
  intros Hr. destruct (reachable_accounted mgr m0 seq0 gc e_tag now s Hr) as [Hacc Hnd].
  split; [done|]. by rewrite <- Hacc.
Qed.

(** when an install fails, the manager acknowledges nothing any more and
    has no work, whatever is published later: only a new manager, which loads
    the manifest again, makes progress. *)
Theorem failed_install_is_final mgr m0 seq0 e_tag now s w e s' :
  start_ok mgr m0 seq0 -> rtc (step mgr m0 seq0 false) (start m0 seq0 e_tag now) s ->
  sys_work s = Some w ->
  rtc (step mgr m0 seq0 false)
    (mkSys (sys_st s) None (sys_sent s ++ send_all (notifiers w) (Some e)) (sys_lens s) (sys_pushed s)) s' ->
  sys_work s' = None /\ forall tx, (tx, None) ∈ sys_sent s' -> (tx, None) ∈ sys_sent s.
Proof.
  intros Hs Hr Hw Hr'. pose proof (reachable_consistent mgr m0 seq0 Hs e_tag now s Hr) as Hc.
  destruct (wedged_forever mgr m0 seq0 Hs _ _ Hr' (failed_wedged mgr m0 seq0 Hs s w e Hc Hw)) as [? Hsent].
  split; [done|]. intros tx [?|[? _]%send_all_None]%Hsent%elem_of_app; done.
Qed.

(** Positions are assigned without overlap: what is assigned second
    starts where the first range ends, and when the range would leave the 64
    bits of a position nothing is assigned any more. *)
Theorem assign_timestamp_disjoint st n1 n2 r1 r2 st1 st2 :
  0 < n1 -> is_u64 (offset (next_log_position st)) ->
  assign_timestamp n1 st = (r1, st1) -> assign_timestamp n2 st1 = (r2, st2) ->
  match r2 with
  | Some (s2, p2) => exists s1 p1, r1 = Some (s1, p1) /\ offset p2 = offset p1 + n1 /\ s2 = FragmentSeqNo.add s1 1
  | None => u64_max <= offset (next_log_position st) + n1
  end.
Proof.
  unfold is_u64. intros Hn Hp H1 H2. unfold assign_timestamp, saturating_add in *. injection H1 as <- <-. cbn in H2.
  injection H2 as <- _. destruct (Z.ltb_spec (Z.min (offset (next_log_position st) + n1) u64_max) u64_max); [|lia].
  destruct (Z.ltb_spec (offset (next_log_position st)) u64_max); [|lia].
  exists (next_seq_no_to_assign st), (next_log_position st). split_and!; [done|cbn; lia|done].
Qed.

(** Garbage that does not apply because it was applied before is answered
    in two ways: as a success when no fragment is staged, and as an error when
    a fragment is applied at the same time. *)
Theorem noop_garbage_answers mgr now st g tx f ftx :
  staged_garbage st = Some (g, tx) ->
  (staged st = [] -> apply_garbage (stable_manifest (stable st)) g = Ok None ->
   pull_work mgr now st = (None, take_garbage st, [(tx, None)])) /\
  (staged st = [(f, ftx)] -> frag_seq_no f = next_seq_no_to_apply st ->
   can_apply_fragment (stable_manifest (stable st)) f = true ->
   apply_garbage (apply_fragment (set_writer (mm_writer mgr) (stable_manifest (stable st))) f) g = Ok None ->
   exists w st', pull_work mgr now st = (Some w, st', [(tx, Some did_not_apply)]) /\ notifiers w = [ftx]).
Proof.
  intros Hg. split.
  - intros Hst Hno. unfold pull_work, pull_gc_work_only. rewrite bool_decide_eq_true_2, Hg by done.
    cbn [stable take_garbage]. by rewrite Hno.
  - intros Hst Hseq Hcan Hno. unfold pull_work. rewrite bool_decide_eq_false_2, Hst by (by rewrite Hst).
    cbn [sort_by_key foldr insert_by_key apply_staged].
    rewrite bool_decide_eq_true_2 by done. replace (can_apply_fragment _ f) with true by (symmetry; exact Hcan).
    cbn [andb apply_staged app bool_decide]. rewrite bool_decide_eq_false_2 by done.
    cbn [staged_garbage set_last_batch set_staged]. rewrite Hg, Hno. by repeat eexists.
Qed.
End Theorems.

Section DoWork.
Context {SS : SetsumSig} {OS : ObjectStore} {parquet : Parquet} {dirty : MarkDirty}.
Context {serde_manifest : Serde Manifest} {serde_snapshot : Serde Snapshot}.

(** C34: [do_work] ends after at most one iteration more than there are
    fragments and garbage staged, whatever the store answers; it leaves no
    garbage staged, and everybody who is no longer staged was answered. *)
Theorem do_work_terminates fuel mgr st sent w :
  (backlog st < fuel)%nat ->
  exists st' sent' w', do_work fuel mgr st sent w = (Ret (st', sent'), w') /\ staged_garbage st' = None /\
    (staged st).*2 ++ garbage_tx st ++ sent.*1 ≡ₚ (staged st').*2 ++ sent'.*1.
Proof. apply do_work_returns. Qed.
End DoWork.

(** ** A run of the manager on the sample log *)

Module Run.
Definition manager : Manager := mkManager Sample.options Sample.prefix "writer".
Definition e_tag : ETag := mkETag "manifest".
Definition s0 : Sys := start Sample.manifest 7 e_tag 0.
Definition s1 : Sys := mkSys (assign_timestamp 9 (sys_st s0)).2 None [] [9] [].
Definition s2 : Sys :=
  mkSys (push_work Sample.f7 1 (sys_st s1)).1 None [] [9] [(1%nat, Some Sample.f7)].
Definition pulled := pull_work manager 5 (sys_st s2).
Definition s3 : Sys := mkSys pulled.1.2 pulled.1.1 ([] ++ pulled.2) [9] [(1%nat, Some Sample.f7)].
Definition work : Work := default (mkWork Sample.manifest e_tag Sample.manifest (mkSeqNo 0) None []) pulled.1.1.
Definition s4 : Sys :=
  mkSys (installed_work work (mkETag "next") (sys_st s3)) None (sys_sent s3 ++ send_all (notifiers work) None)
    [9] [(1%nat, Some Sample.f7)].
Definition s4' : Sys :=
  mkSys (sys_st s3) None (sys_sent s3 ++ send_all (notifiers work) (Some LogContentionDurable))
    [9] [(1%nat, Some Sample.f7)].

Lemma start_is_ok : start_ok manager Sample.manifest 7.
Proof.
  constructor; [apply Sample.manifest_is_ok|by repeat constructor|..]; cbn; unfold u64_max; try lia; [reflexivity|].
  replace (offset (next_write_timestamp Sample.manifest)) with 31 by reflexivity. lia.
Qed.

Lemma pulled_eq : pull_work manager 5 (sys_st s2) = (pulled.1.1, pulled.1.2, pulled.2).
Proof. fold pulled. by destruct pulled as [[? ?] ?]. Qed.

Lemma reach_s3 gc : rtc (step manager Sample.manifest 7 gc) s0 s3.
Proof.
  eapply rtc_l; [eapply (step_assign _ _ _ gc s0 9 (mkSeqNo 7, from_offset 31)); [done..|reflexivity]|].
  eapply rtc_l.
  { eapply (step_push _ _ _ gc s1 Sample.f7 1); [by intros ?%elem_of_nil| |reflexivity].
    exists 0%nat. split_and!; [cbn; lia|reflexivity..]. }
  apply rtc_once. apply (step_pull _ _ _ gc s2 5); [done|apply pulled_eq].
Qed.

Lemma reach_s4 gc : rtc (step manager Sample.manifest 7 gc) s0 s4.
Proof.
  etrans; [apply reach_s3|]. apply rtc_once. by apply (step_installed _ _ _ gc s3 work).
Qed.
End Run.

Lemma acknowledged_in_log_witness :
  exists hist, aligned Sample.manifest 7 [9] hist (stable_manifest (stable (sys_st Run.s4))) /\ Sample.f7 ∈ hist.
Proof.
  destruct (@acknowledged_in_log _ IntSetsum.int_setsum_laws Run.manager Sample.manifest 7 Run.e_tag 0 Run.s4
              Run.start_is_ok (Run.reach_s4 false)) as (hist & Hal & Hack).
  exists hist. split; [exact Hal|]. destruct (Hack 1%nat) as (f & Hf & Hin).
  - change (sys_sent Run.s4) with [(1%nat, @None (@Error _))]. by constructor.
  - cbn in Hf. apply list_elem_of_singleton in Hf. injection Hf as ->. exact Hin.
Defined.

Lemma answered_at_most_once_witness :
  (sys_pushed Run.s4).*1 ≡ₚ waiting Run.s4 ++ (sys_sent Run.s4).*1.
Proof.
  apply (@answered_at_most_once _ Run.manager Sample.manifest 7 true Run.e_tag 0 Run.s4 (Run.reach_s4 true)).
Defined.

Lemma failed_install_is_final_witness :
  sys_work Run.s4' = None /\ forall tx, (tx, None) ∈ sys_sent Run.s4' -> (tx, None) ∈ sys_sent Run.s3.
Proof.
  apply (@failed_install_is_final _ IntSetsum.int_setsum_laws Run.manager Sample.manifest 7 Run.e_tag 0 Run.s3
           Run.work LogContentionDurable Run.s4' Run.start_is_ok (Run.reach_s3 false)); [done|apply rtc_refl].
Defined.

Lemma assign_timestamp_disjoint_witness :
  exists s1 p1, (assign_timestamp 9 (sys_st Run.s0)).1 = Some (s1, p1) /\ 40 = offset p1 + 9 /\
                mkSeqNo 8 = FragmentSeqNo.add s1 1.
Proof.
  apply (assign_timestamp_disjoint (sys_st Run.s0) 9 1 _ (Some (mkSeqNo 8, from_offset 40)) (sys_st Run.s1)
           (assign_timestamp 1 (sys_st Run.s1)).2); [lia| |reflexivity|reflexivity].
  change (offset (next_log_position (sys_st Run.s0))) with 31. unfold is_u64, u64_max. lia.
Defined.

(** The garbage of the sample is staged again after it was applied. *)
Definition again : Staging :=
  mkStaging (mkManifestAndETag (Sample.collected_at 31) Run.e_tag) [(Sample.f7, 2%nat)] (from_offset 40)
    (mkSeqNo 8) (mkSeqNo 7) (Some (Sample.garbage 31, 1%nat)) 0 false.

Lemma noop_garbage_answers_witness :
  pull_work Run.manager 5 (set_staged [] again) = (None, take_garbage (set_staged [] again), [(1%nat, None)]) /\
  exists w st', pull_work Run.manager 5 again = (Some w, st', [(1%nat, Some did_not_apply)]) /\ notifiers w = [2%nat].
Proof.
  split.
  - apply (@noop_garbage_answers _ Run.manager 5 (set_staged [] again) (Sample.garbage 31) 1 Sample.f7 2);
      vm_compute; reflexivity.
  - apply (@noop_garbage_answers _ Run.manager 5 again (Sample.garbage 31) 1 Sample.f7 2); vm_compute; reflexivity.
Defined.

Lemma do_work_terminates_witness :
  exists st' sent' w', do_work 2 Run.manager (sys_st Run.s2) [] Sample.store0 = (Ret (st', sent'), w') /\
    staged_garbage st' = None /\ [1%nat] ≡ₚ (staged st').*2 ++ sent'.*1.
Proof.
  apply (@do_work_terminates _ _ codec_serde codec_serde 2 Run.manager (sys_st Run.s2) [] Sample.store0).
  vm_compute. lia.
Defined.

(** The publisher gets its success from [do_work] on the sample store. *)
Example do_work_publishes :
  match do_work 2 Run.manager (sys_st Run.s2) [] Sample.store0 with
  | (Ret (st', sent'), _) => sent' = [(1%nat, None)] /\ offset (next_write_timestamp (stable_manifest (stable st'))) = 40
  | _ => False
  end.
Proof. vm_compute. split; reflexivity. Qed.
