(* ===== verification/BatchProps.v ===== *)
(** * Properties of the batch manager *)

From S2P Require Import Prelude Setsum Storage Types Paths Effects Manifest Persist Gc Reader ManifestManager.
From S2P Require Import ManagerFacts BatchManager BatchFacts Sample ManagerProps.

#[local] Open Scope Z_scope.
#[local] Open Scope wal_scope.

Section Theorems.
Context {SS : SetsumSig}.

(** C30: a batch that [take_work] hands out is a non-empty prefix of the queue,
    in order; it gets the positions for exactly as many records as it has; it
    is below the batch size unless it is a single append, and the next append
    would not have fitted; no other batch was being written, the batching
    interval had passed, and the next batch has to wait for another one; and
    if appends are left, the flusher is woken. *)
Theorem take_work_batches o now1 now2 now3 s st seq pos work s' st' :
  fits (enqueued s) -> take_work o now1 now2 now3 s st = Some (Ok (Some (seq, pos, work)), s', st') ->
  enqueued s = work ++ enqueued s' /\ work <> [] /\
  assign_timestamp (queue_count work) st = (Some (seq, pos), st') /\
  ((2 <= length work)%nat -> queue_bytes work < batch_size_bytes o) /\
  (forall x, list.head (enqueued s') = Some x -> batch_size_bytes o <= queue_bytes (work ++ [x])) /\
  writers_active s <= 0 /\ next_write s <= now2 /\
  (exists d, write_interval o = Some d /\ next_write s' = now3 + d) /\
  (enqueued s' <> [] -> write_finished s' = true).
Proof.
  intros Hfits Ht.
  destruct (take_work_Some _ _ _ _ _ _ _ _ _ _ _ Hfits Ht) as (? & ? & ? & ? & ? & ? & _ & ? & ? & _ & _ & ?).
  by split_and!.
Qed.

(** C10: However appends, writes, failures and a shutdown interleave, at most
    one batch is being written, and everyone who appended is in the queue, in
    the batch that is being written, or was answered, exactly once. *)
Theorem one_batch_at_a_time o now st b :
  rtc (bstep o) (bstart now st) b ->
  (length (bs_writing b) <= 1)%nat /\
  bs_pushed b ≡ₚ (enqueued (bs_state b)).*2 ++ writing_tx (bs_writing b) ++ (bs_answers b).*1.
Proof. intros Hr%breachable_ok. split; apply Hr. Qed.

(** When the queue is longer than one batch and the batching interval has
    not passed, [take_work] returns nothing and does not notify the flusher;
    if nothing else had, the flusher stays blocked and the appends stay in the
    queue until someone appends again. *)
Theorem split_take_does_not_notify o now1 now2 now3 s st :
  bm_tearing_down s = false -> write_finished s = false -> now2 < next_write s ->
  (split_work (batch_size_bytes o) (enqueued s) 0 0 0).2 = true ->
  take_work o now1 now2 now3 s st = Some (Ok None, s, st) /\ wait_for_writable s = None.
Proof.
  intros Htd Hwf Hnow Hsp. unfold wait_for_writable. rewrite Hwf. split; [|done].
  unfold take_work. rewrite Htd. case_bool_decide as Hnil; [done|].
  destruct (split_work _ _ _ _ _) as [[n cnt] did] eqn:Es. cbn in Hsp. subst did. cbn [negb andb].
  assert (n <> 0%nat) as Hn by (by eapply split_work_pos).
  rewrite (proj2 (Nat.eqb_neq n 0) Hn). unfold select_for_write.
  by rewrite (proj2 (Z.ltb_lt now2 (next_write s)) Hnow).
Qed.

(** When the log has no positions left, [take_work] fails and leaves the
    appends in the queue: nobody is answered and nobody is notified. *)
Theorem full_log_answers_nobody o now1 now2 now3 s st :
  bm_tearing_down s = false -> enqueued s <> [] -> writers_active s = 0 ->
  next_write s <= now1 -> next_write s <= now2 -> offset (next_log_position st) = u64_max ->
  exists st', take_work o now1 now2 now3 s st = Some (Err LogFull, s, st').
Proof.
  intros Htd Hne Hw H1 H2 Hfull. unfold take_work. rewrite Htd, bool_decide_eq_false_2 by done.
  destruct (split_work _ _ _ _ _) as [[n cnt] did] eqn:Es.
  replace (now1 <? next_write s) with false by (symmetry; apply Z.ltb_ge; lia). rewrite andb_false_r.
  assert (n <> 0%nat) as Hn by (by eapply split_work_pos).
  rewrite (proj2 (Nat.eqb_neq n 0) Hn). unfold select_for_write, assign_timestamp.
  rewrite (proj2 (Z.ltb_ge now2 (next_write s)) H2), Hw, Hfull, Z.ltb_irrefl. by eexists.
Qed.
End Theorems.

(** ** A run of the batch manager *)

Module Batches.
Definition options : ThrottleOptions := mkThrottleOptions 10 100 1000 500.
Definition message (n : nat) : bytes := replicate n Byte.x78.
Definition staging : Staging := sys_st Run.s0.

Definition b0 : BSys := bstart 0 staging.
Definition push (n : nat) (tx : Tx) (b : BSys) : BSys :=
  let r := bm_push_work [message n] tx (bs_state b) in
  mkBSys r.1 (bs_staging b) (bs_writing b) (bs_answers b ++ r.2) (bs_pushed b ++ [tx]).
Definition take (now : Z) (b : BSys) : BSys :=
  match take_work options now now now (bs_state b) (bs_staging b) with
  | Some (r, s, st) =>
      mkBSys s st (match r with Ok (Some t) => bs_writing b ++ [t] | _ => bs_writing b end) (bs_answers b) (bs_pushed b)
  | None => b
  end.
Definition wait (b : BSys) : BSys :=
  match wait_for_writable (bs_state b) with
  | Some s => mkBSys s (bs_staging b) (bs_writing b) (bs_answers b) (bs_pushed b)
  | None => b
  end.
Definition written (b : BSys) : BSys :=
  match bs_writing b with
  | t :: l => mkBSys (bm_finish_write (bs_state b)) (bs_staging b) l
                (bs_answers b ++ answers_of t (Ok t.1.2)) (bs_pushed b)
  | [] => b
  end.

(** One append is written; the flusher, woken by the end of the write, finds an
    empty queue; then two appends push before either takes. *)
Definition b1 : BSys := take 1 (push 3 1 b0).
Definition b2 : BSys := take 3 (wait (written b1)).
Definition b3 : BSys := push 6 3 (push 6 2 b2).
Definition b4 : BSys := take 5 (take 5 b3).

Lemma push_step n tx b : fits (enqueued (bs_state b) ++ [([message n], tx)]) -> bstep options b (push n tx b).
Proof. intros Hf. apply (bstep_push options b [message n]); [done|]. by destruct (bm_push_work _ _ _). Qed.

Lemma take_step now b : rtc (bstep options) b (take now b).
Proof.
  unfold take. destruct (take_work _ _ _ _ _ _) as [[[r s] st]|] eqn:Ht; [|done].
  apply rtc_once. by apply (bstep_take options b now now now r).
Qed.

Lemma wait_step b : rtc (bstep options) b (wait b).
Proof. unfold wait. destruct (wait_for_writable _) eqn:Hw; [|done]. apply rtc_once. by apply bstep_wait. Qed.

Lemma written_step b : rtc (bstep options) b (written b).
Proof.
  unfold written. destruct (bs_writing b) as [|t l] eqn:Hw; [done|]. apply rtc_once.
  apply (bstep_written options b t [] l); [done|]. unfold answers_of. by rewrite answers_fst.
Qed.

Lemma reach : rtc (bstep options) b0 b4.
Proof.
  etrans; [|apply take_step]. etrans; [|apply take_step].
  eapply rtc_r; [|apply push_step; vm_compute; split; discriminate].
  eapply rtc_r; [|apply push_step; vm_compute; split; discriminate].
  etrans; [|apply take_step]. etrans; [|apply wait_step]. etrans; [|apply written_step]. etrans; [|apply take_step].
  apply rtc_once. apply push_step. vm_compute. split; discriminate.
Qed.
End Batches.

Lemma take_work_batches_witness :
  exists seq pos work s' st',
    take_work Batches.options 1 1 1 (bs_state (Batches.push 3 1 Batches.b0)) Batches.staging =
      Some (Ok (Some (seq, pos, work)), s', st') /\ work <> [] /\ next_write s' = 1001.
Proof.
  destruct (take_work Batches.options 1 1 1 (bs_state (Batches.push 3 1 Batches.b0)) Batches.staging)
    as [[[[[[[seq pos] work]|]|e] s'] st']|] eqn:Ht; try (exfalso; vm_compute in Ht; discriminate).
  destruct (take_work_batches Batches.options 1 1 1 (bs_state (Batches.push 3 1 Batches.b0)) Batches.staging
              seq pos work s' st' ltac:(vm_compute; split; discriminate) Ht) as (_ & Hne & _ & _ & _ & _ & _ & (d & Hd & Hn) & _).
  exists seq, pos, work, s', st'. split; [reflexivity|]. split; [exact Hne|].
  rewrite Hn. vm_compute in Hd. injection Hd as <-. reflexivity.
Defined.

Lemma one_batch_at_a_time_witness :
  (length (bs_writing Batches.b4) <= 1)%nat /\
  bs_pushed Batches.b4 ≡ₚ (enqueued (bs_state Batches.b4)).*2 ++ writing_tx (bs_writing Batches.b4) ++
                            (bs_answers Batches.b4).*1.
Proof. apply (one_batch_at_a_time Batches.options 0 Batches.staging Batches.b4 Batches.reach). Defined.

(** The two appends are in the queue, nothing is being written, both have tried
    to take work, and the flusher is blocked. *)
Lemma split_take_does_not_notify_witness :
  length (enqueued (bs_state Batches.b4)) = 2%nat /\ bs_writing Batches.b4 = [] /\
  take_work Batches.options 6 6 6 (bs_state Batches.b4) (bs_staging Batches.b4) =
    Some (Ok None, bs_state Batches.b4, bs_staging Batches.b4) /\
  wait_for_writable (bs_state Batches.b4) = None.
Proof.
  split; [vm_compute; reflexivity|]. split; [vm_compute; reflexivity|].
  apply (split_take_does_not_notify Batches.options 6 6 6 (bs_state Batches.b4) (bs_staging Batches.b4));
    vm_compute; reflexivity.
Defined.

Definition full_staging : Staging :=
  mkStaging (stable Batches.staging) [] (from_offset u64_max) (mkSeqNo 9) (mkSeqNo 9) None 0 false.

Lemma full_log_answers_nobody_witness :
  exists st', take_work Batches.options 5 5 5 (bs_state (Batches.push 3 1 Batches.b0)) full_staging =
    Some (Err LogFull, bs_state (Batches.push 3 1 Batches.b0), st').
Proof.
  apply (full_log_answers_nobody Batches.options 5 5 5 (bs_state (Batches.push 3 1 Batches.b0)) full_staging);
    vm_compute; congruence.
Defined.
