(* ===== verification/LifecycleProps.v ===== *)
(** * Properties of cursors, copies and the destruction of logs *)

From S2P Require Import Prelude Setsum Storage Types Paths Effects Codec Manifest ManifestFacts Persist Gc.
From S2P Require Import GcFacts GcApply Reader ReaderFacts Cursors CopyDestroy Instances Sample ReaderProps.

#[local] Open Scope Z_scope.
#[local] Open Scope wal_scope.

Section Cursors.
Context {SS : SetsumSig} {OS : ObjectStore} {rely : relation Objects} {OL : ObjectStoreLaws OS rely}.
Context {serde_cursor : Serde Cursor} {SDL : SerdeLaws Cursor}.

(** A cursor is saved only over the version that its witness saw, and
    what is stored is the cursor with the name of the store's writer: a load
    that finds this version returns the witness that the save returned. *)
Theorem cursor_save_cas cs name c old w x w' :
  cursor_save cs name c old w = (Ret x, w') ->
  (exists pre b, rely (objects w) pre /\ pre !! cursor_path cs name = Some (b, witness_e_tag old)) /\
  witness_cursor x = mkCursor (cursor_position c) (epoch_us c) (cs_writer cs) /\
  (forall r w2, cursor_load cs name w' = (Ret r, w2) ->
     objects w2 !! cursor_path cs name = objects w' !! cursor_path cs name -> r = Some x).
Proof.
  intros (Hc & pre & b & Hr & [_ Hm] & Ho & Hb)%cursor_put_Ret. split_and!; [|done|].
  - destruct (Hm _ eq_refl) as [b0 Hb0]. eauto.
  - intros r w2 [_ Hl]%cursor_load_Ret Hsame. rewrite Hsame, Ho, lookup_insert_eq in Hl. destruct r as [y|]; [|done].
    destruct Hl as (b' & [= <- Ht] & Hb'). rewrite Hb in Hb'. injection Hb' as Hcur.
    destruct x, y; cbn in *; congruence.
Qed.
End Cursors.

(** ** Destroying a log *)

Lemma prefix_slash p rest : String.prefix (p +:+ "/") (p +:+ "/" +:+ rest) = true.
Proof. rewrite string_app_assoc. apply string_prefix_app. Qed.

Section Destroy.
Context {SS : SetsumSig} {OS : ObjectStore} {rely : relation Objects} {OL : ObjectStoreLaws OS rely}.
Context {serde_manifest : Serde Manifest} {serde_snapshot : Serde Snapshot}.
Variable prefix : string.

Section Elsewhere.
(** An object that is not under the prefix of the log and that others leave
    alone. *)
Variable k : string.
Hypothesis Houtside : String.prefix (prefix +:+ "/") k = false.
Hypothesis Hrely : forall a b : Objects, rely a b -> a !! k = b !! k.

Definition same_at (a b : Objects) : Prop := a !! k = b !! k.
#[local] Instance same_at_preorder : PreOrder same_at.
Proof. split; [by intros a|]. intros a b c. unfold same_at. congruence. Qed.

#[local] Abbreviation quiet := (stays same_at).

Lemma quiet_delete_file rel : quiet (delete_file prefix rel).
Proof.
  unfold delete_file. apply stays_bind; [apply _|apply stays_request|].
  - intros w. destruct (delete _ w) as [r w1] eqn:Hd. apply delete_law in Hd as (pre & Hr%Hrely & Hx).
    assert (objects w1 !! k = pre !! k) as He; [|unfold same_at; cbn; congruence].
    assert (prefix +:+ "/" +:+ rel <> k) as Hne by (intros <-; by rewrite prefix_slash in Houtside).
    destruct r as [[]|e]; [by rewrite Hx, lookup_delete_ne|].
    destruct e; try (destruct Hx as [->| ->]; by rewrite ?lookup_delete_ne). by destruct Hx as [_ ->].
  - intros [[]|e]; [apply stays_ret; apply _|]. destruct (is_not_found e); [apply stays_ret|apply stays_throw]; apply _.
Qed.

Lemma quiet_snapshot depth p : quiet (destroy_snapshot prefix depth p).
Proof.
  revert p. induction depth as [|depth IH]; intros p; cbn [destroy_snapshot]; [apply stays_fuel; apply _|].
  apply stays_bind; [apply _|apply (stays_get_retrying (rely := rely)); [apply _|exact Hrely|]|].
  { intros b t. unfold decode_or. destruct (from_slice b); [apply stays_ret|apply stays_throw]; apply _. }
  intros s. apply stays_bind; [apply _| |intros _; apply quiet_delete_file].
  destruct s as [s|]; [|apply stays_ret; apply _]. apply stays_bind; [apply _| |intros _].
  - apply stays_foldM; [apply _|]. intros _ q. apply IH.
  - apply stays_foldM; [apply _|]. intros _ f. apply quiet_delete_file.
Qed.

Lemma quiet_listed rounds dir what trusted : quiet (destroy_listed prefix rounds dir what trusted).
Proof.
  induction rounds as [|rounds IH]; cbn [destroy_listed]; [apply stays_fuel; apply _|].
  apply stays_bind; [apply _|apply stays_request_or_fail, (stays_list (rely := rely)), Hrely|]. intros ps.
  case_bool_decide; [apply stays_ret; apply _|]. apply stays_bind; [apply _| |intros _; exact IH].
  apply stays_foldM; [apply _|]. intros _ p. unfold destroy_dangling.
  destruct (strip_prefix prefix p) as [u|]; [|apply stays_throw; apply _].
  destruct (trusted _); [apply quiet_delete_file|apply stays_throw; apply _].
Qed.

Lemma quiet_cursors : quiet (destroy_cursors prefix).
Proof.
  unfold destroy_cursors, cursor_list. apply stays_bind; [apply _| |].
  - apply stays_bind; [apply _|apply stays_request_or_fail, (stays_list (rely := rely)), Hrely|].
    intros ps. apply stays_lift. apply _.
  - intros names. apply stays_foldM; [apply _|]. intros _ c. apply quiet_delete_file.
Qed.

Lemma quiet_destroy depth rounds : quiet (destroy prefix depth rounds).
Proof.
  unfold destroy. apply stays_bind; [apply _|apply (stays_get_retrying (rely := rely)); [apply _|exact Hrely|]|].
  { intros b [t|]; [|apply stays_throw; apply _]. unfold decode_or. apply stays_bind; [apply _| |intros m; apply stays_ret; apply _].
    destruct (from_slice b); [apply stays_ret|apply stays_throw]; apply _. }
  intros [[m e_tag]|]; [|apply stays_ret; apply _].
  apply stays_bind; [apply _|apply stays_foldM; [apply _|intros _ q; apply quiet_snapshot]|intros _].
  apply stays_bind; [apply _|apply stays_foldM; [apply _|intros _ f; apply quiet_delete_file]|intros _].
  do 5 (apply stays_bind; [apply _|first [apply quiet_cursors|apply quiet_delete_file|apply quiet_listed]|intros _]).
  apply stays_bind; [apply _|apply stays_request_or_fail, (stays_list (rely := rely)), Hrely|]. intros ps.
  case_bool_decide; [apply stays_ret|apply stays_throw]; apply _.
Qed.
End Elsewhere.

Lemma destroy_Ret depth rounds w w' :
  destroy prefix depth rounds w = (Ret tt, w') ->
  (exists w1, Manifest_load prefix w = (Ret None, w1) /\ w1 = w') \/
  (forall k, String.prefix prefix k = true -> exists m : Objects, rely m (objects w') /\ m !! k = None).
Proof.
  unfold destroy. intros ([[m e_tag]|] & w1 & Hm & H)%bind_Ret.
  - right. do 7 (apply bind_Ret in H as (_ & ? & _ & H)). apply bind_Ret in H as (ps & w2 & Hl & H).
    case_bool_decide as Hps; [|done]. injection H as <-. unfold request_or_fail in Hl.
    destruct (list_prefix prefix _) as [[ks|e] w3] eqn:Hlist; [|done]. injection Hl as -> ->.
    apply list_law in Hlist as [_ Hks]. subst ps. intros k Hk.
    destruct (Hks k) as [_ Hgone]. destruct (Hgone Hk ltac:(apply not_elem_of_nil)) as (m0 & _ & ? & ?). eauto.
  - left. injection H as <-. eauto.
Qed.

(** destroying a log touches nothing outside its prefix, whatever the
    outcome: an object elsewhere that nobody else changes is still there. *)
Theorem destroy_confined depth rounds w k :
  String.prefix (prefix +:+ "/") k = false -> (forall a b : Objects, rely a b -> a !! k = b !! k) ->
  objects (destroy prefix depth rounds w).2 !! k = objects w !! k.
Proof. intros Hout Hrely. symmetry. exact (quiet_destroy k Hout Hrely depth rounds w). Qed.

(** When the destruction of a log that has a manifest succeeds, no object
    with the log's prefix is left, provided that nobody else makes one in the
    meantime. *)
Theorem destroy_complete depth rounds w w' :
  (forall (a b : Objects) k, rely a b -> String.prefix prefix k = true -> a !! k = None -> b !! k = None) ->
  destroy prefix depth rounds w = (Ret tt, w') ->
  objects w' !! manifest_path prefix = None /\
  ((exists w1, Manifest_load prefix w = (Ret None, w1) /\ w1 = w') \/
   forall k, String.prefix prefix k = true -> objects w' !! k = None).
Proof.
  intros Hno Hd%destroy_Ret.
  assert ((forall k, String.prefix prefix k = true -> exists m : Objects, rely m (objects w') /\ m !! k = None) ->
          forall k, String.prefix prefix k = true -> objects w' !! k = None) as Hall.
  { intros Hk k Hp. destruct (Hk k Hp) as (m & Hr & Hm). by apply (Hno m). }
  split; [|destruct Hd as [?|Hk]; [by left|right; by apply Hall]]. destruct Hd as [(w1 & Hm & ->)|Hk].
  - apply get_retrying_Ret in Hm as [_ Hx]; [done|]. intros b t w1. destruct t as [t|]; [|done].
    unfold bind, decode_or. by destruct (from_slice b).
  - apply (Hall Hk). apply string_prefix_app.
Qed.

(** A log whose prefix begins with the prefix of another log keeps the
    destruction of that other log from succeeding: the listing at the end
    does not stop at the slash. *)
Theorem destroy_trips_over_sibling depth rounds w k x w1 :
  String.prefix prefix k = true -> String.prefix (prefix +:+ "/") k = false ->
  (forall a b : Objects, rely a b -> a !! k = b !! k) -> is_Some (objects w !! k) ->
  Manifest_load prefix w = (Ret (Some x), w1) -> (destroy prefix depth rounds w).1 <> Ret tt.
Proof.
  intros Hpre Hout Hrely Hsome Hm Hd. pose proof (quiet_destroy k Hout Hrely depth rounds w) as Hq.
  destruct (destroy prefix depth rounds w) as [r w'] eqn:He. cbn in Hd, Hq. subst r. unfold same_at in Hq.
  apply destroy_Ret in He as [(w2 & Hm' & _)|Hk]; [congruence|].
  destruct (Hk k Hpre) as (m & Hr%Hrely & Hnone). rewrite Hq, <- Hr, Hnone in Hsome. by destruct Hsome.
Qed.
End Destroy.

(** ** Copying a log *)

Section Copy.
Context {SS : SetsumSig} {SL : SetsumLaws SS} {OS : ObjectStore} {rely : relation Objects}
        {OL : ObjectStoreLaws OS rely}.
Context {serde_manifest : Serde Manifest} {serde_snapshot : Serde Snapshot} {SDL : SerdeLaws Manifest}.
Variable prefix : string.
Variable cache : option SnapshotCache.
Variable I : world -> Prop.
Variable E : Error -> Prop.

Lemma copied_manifest_ok l off s e n :
  l <> [] -> chain s (frag_iv <$> l) e -> seqs_from n l -> 0 <= n -> n + Z.of_nat (length l) <= u64_max ->
  let m := copied_manifest l off in
  manifest_ok m /\ offset (oldest_timestamp m) = s /\ offset (next_write_timestamp m) = e /\
  next_fragment_seq_no m = Some (mkSeqNo (n + Z.of_nat (length l))).
Proof.
  intros Hne Hch Hs Hn Hmax m.
  assert (chain s (intervals (snapshots m) (fragments m)) e) as Hch' by exact Hch.
  assert (intervals (snapshots m) (fragments m) <> []) as Hne' by (by intros [_ ?]%intervals_nil).
  destruct (manifest_chain_ends m s e Hch' Hne') as [Ho Hw].
  split_and!; [|by rewrite Ho|by rewrite Hw|by rewrite (next_fragment_seq_no_seqs m n)].
  constructor.
  - cbn. change (setsum_of ptr_setsum []) with setsum_default. by rewrite setsum_default_l, setsum_default_r.
  - by rewrite Ho, Hw.
  - intros o [= <-]. rewrite Ho. destruct l as [|f l]; [done|]. cbn [fmap list_fmap].
    cbn in Hch. inversion Hch as [|? ? ? ? Hlt Hrest]; subst. rewrite min_by_key_head.
    + by apply LogPosition_eq.
    + intros x (g & -> & Hg)%list_elem_of_fmap.
      destruct (chain_bounds _ _ _ (offset (frag_start g)) (offset (frag_limit g)) Hrest) as [? _]; [|lia].
      apply list_elem_of_fmap. by exists g.
Qed.

Lemma mapM_copy target l w r w' :
  mapM (copy_fragment prefix target) l w = (Ret r, w') -> r = l.
Proof.
  revert w r. induction l as [|f l IH]; intros w r; cbn; [by intros [= <- <-]|].
  intros (g & w1 & Hg & (gs & w2 & Hgs & [= <- <-])%bind_Ret)%bind_Ret.
  apply bind_Ret in Hg as (u & w3 & _ & [= <- <-]). f_equal. by eapply IH.
Qed.

Lemma initialize_Ret target m w w' :
  initialize_from_manifest target m w = (Ret tt, w') ->
  exists pre b t, pre !! manifest_path target = None /\ objects w' = <[manifest_path target := (b, t)]> pre /\
                  from_slice b = Some m.
Proof.
  unfold initialize_from_manifest, encode_or, request_or_fail, bind. destruct (to_vec m) as [b|] eqn:Hb; [|done].
  cbn [ret]. destruct (put_bytes _ b if_not_exists w) as [[t|e] w1] eqn:Hp; [|done]. intros [= <-].
  apply put_law in Hp as (pre & _ & [Hnew _] & t' & Ho & _). exists pre, b, t'.
  split_and!; [by apply Hnew|done|by apply from_slice_to_vec].
Qed.

(** A copy that succeeds writes, where there was no manifest before, a
    well-formed manifest whose fragments are exactly those of the log that
    hold or follow the position, and that goes on where the log goes on: with
    the same next position and the same next sequence number. *)
Theorem copy_correct n m l k from target w w' :
  I w -> (forall w0, I w0 -> exists w1, reader_manifest prefix w0 = (Ret (Some m), w1) /\ I w1) ->
  log_of (resolves prefix cache I E) n m l ->
  chain (offset (oldest_timestamp m)) (frag_iv <$> l) (offset (next_write_timestamp m)) ->
  offset (next_write_timestamp m) <= u64_max -> seqs_from k l -> 0 <= k ->
  next_fragment_seq_no m = Some (mkSeqNo (k + Z.of_nat (length l))) -> k + Z.of_nat (length l) <= u64_max ->
  0 <= offset from <= u64_max ->
  copy prefix cache n from target w = (Ret tt, w') ->
  exists pre b t m', pre !! manifest_path target = None /\
    objects w' = <[manifest_path target := (b, t)]> pre /\ from_slice b = Some m' /\
    manifest_ok m' /\ snapshots m' = [] /\
    fragments m' = List.filter (fun f => LogPosition.ltb from (frag_limit f)) l /\
    next_write_timestamp m' = next_write_timestamp m /\ next_fragment_seq_no m' = next_fragment_seq_no m.
Proof.
  intros Hw Hman Hlog Hch Hmax Hseqs Hk Hnext Hb Hfrom Hcopy. unfold copy in Hcopy.
  apply bind_Ret in Hcopy as (r & w1 & Hr & Hcopy). destruct (Hman w Hw) as (w1' & Hr' & Hw1).
  rewrite Hr' in Hr. injection Hr as <- ->.
  change (default _ (Some m)) with m in Hcopy. apply bind_Ret in Hcopy as ([fr short] & w2 & Hs & Hcopy).
  destruct (scan_unlimited_wp prefix cache I E n m l from false Hfrom Hlog Hch Hmax w1 Hw1)
    as [(a & w2' & Ha & _ & ->)|(e & w2' & Ha & _)]; [|congruence].
  rewrite Ha in Hs. injection Hs as <- <- ->. cbv iota in Hcopy.
  fold (past from l) in *.
  destruct (chain_window frag_iv _ l _ (offset from) u64_max Hch) as (l1 & l2 & l3 & Hl & H1 & H2 & H3).
  assert (past from l = l2 ++ l3) as Hp.
  { rewrite Hl, !past_app, (past_none from l1), (past_all from l2), (past_all from l3); [done|..];
      eapply Forall_impl; try eassumption; cbn; intros f Hf; apply Hf. }
  rewrite Hp in *. case_bool_decide as Hne.
  - apply bind_Ret in Hcopy as (fr & w3 & ->%mapM_copy & Hini). apply initialize_Ret in Hini as (pre & b & t & ? & ? & ?).
    rewrite Hl in Hch, Hseqs. rewrite fmap_app in Hch. apply chain_app in Hch as (c & Hc1 & Hc2).
    apply seqs_from_app in Hseqs as [_ Hseqs]. rewrite Hl, length_app in Hb, Hnext.
    destruct (copied_manifest_ok (l2 ++ l3) from c (offset (next_write_timestamp m)) (k + Z.of_nat (length l1)))
      as (Hok & _ & Hnw & Hns); [done|done|done|lia|lia|].
    exists pre, b, t, (copied_manifest (l2 ++ l3) from). split_and!; try done; [by apply LogPosition_eq|].
    rewrite Hns, Hnext. do 2 f_equal. lia.
  - destruct (_ && _); [done|]. apply initialize_Ret in Hcopy as (pre & b & t & ? & ? & ?).
    exists pre, b, t, (empty_copy m). split_and!; try done.
    + constructor; [|cbn; constructor|by intros o [= <-]].
      cbn. unfold setsum_of. cbn. by rewrite !setsum_default_l.
    + change (next_fragment_seq_no (empty_copy m)) with (Some (default FragmentSeqNo.BEGIN (next_fragment_seq_no m))).
      by rewrite Hnext.
Qed.
End Copy.

(** ** On the sample log *)

Module Lifecycle.
Definition cs : CursorStore := mkCursorStore Sample.prefix "reader".
Definition name : CursorName.t := CursorName.mk "compaction_cursor".
Definition cursor (p : Z) : Cursor := mkCursor (from_offset p) 7 "someone".

Definition initialized : res Witness * world := cursor_init cs name (cursor 11) Sample.store0.
Definition old : Witness := match initialized.1 with Ret x => x | _ => default_etag_with_cursor Cursor_default end.
Definition saved : res Witness * world := cursor_save cs name (cursor 22) old initialized.2.
Definition new : Witness := match saved.1 with Ret x => x | _ => default_etag_with_cursor Cursor_default end.

(** The store with an object of a log whose prefix is longer. *)
Definition sibling : string := "logs2/manifest/MANIFEST".
Definition beside : world := MemStore.mkMem (<[sibling := ([], mkETag "x")]> Sample.contents) 0 [] 0.
End Lifecycle.

Lemma cursor_save_cas_witness :
  witness_cursor Lifecycle.new = mkCursor (from_offset 22) 7 "reader" /\
  (cursor_load Lifecycle.cs Lifecycle.name Lifecycle.saved.2).1 = Ret (Some Lifecycle.new).
Proof.
  assert (Lifecycle.saved = (Ret Lifecycle.new, Lifecycle.saved.2)) as Hs by (vm_compute; reflexivity).
  destruct (@cursor_save_cas _ _ _ MemStore.mem_store_laws _ codec_serde_laws Lifecycle.cs Lifecycle.name
              (Lifecycle.cursor 22) Lifecycle.old Lifecycle.initialized.2 Lifecycle.new Lifecycle.saved.2 Hs)
    as (_ & Hc & Hl).
  split; [exact Hc|].
  destruct (cursor_load Lifecycle.cs Lifecycle.name Lifecycle.saved.2) as [r w2] eqn:Hload.
  assert (exists x, r = Ret x) as [x ->].
  { apply (f_equal fst) in Hload. vm_compute in Hload. eexists. symmetry. exact Hload. }
  cbn [fst]. f_equal. apply (Hl x w2 eq_refl).
  apply (f_equal (fun p => objects p.2 !! cursor_path Lifecycle.cs Lifecycle.name)) in Hload. cbn [snd] in Hload.
  rewrite <- Hload. vm_compute. reflexivity.
Defined.

Lemma destroy_confined_witness :
  objects (destroy Sample.prefix 3 2 Lifecycle.beside).2 !! Lifecycle.sibling = Some ([], mkETag "x").
Proof.
  rewrite (@destroy_confined _ _ eq MemStore.mem_store_laws codec_serde codec_serde Sample.prefix 3 2
             Lifecycle.beside Lifecycle.sibling); [vm_compute; reflexivity|vm_compute; reflexivity|by intros a b ->].
Defined.

Lemma destroy_complete_witness :
  objects (destroy Sample.prefix 3 2 Sample.store0).2 !! manifest_path Sample.prefix = None.
Proof.
  destruct (destroy Sample.prefix 3 2 Sample.store0) as [r w'] eqn:Hd.
  assert (r = Ret tt) as -> by (apply (f_equal fst) in Hd; vm_compute in Hd; symmetry; exact Hd).
  apply (@destroy_complete _ _ eq MemStore.mem_store_laws codec_serde codec_serde Sample.prefix 3 2
           Sample.store0 w' ltac:(by intros a b k ->) Hd).
Defined.

Lemma destroy_trips_over_sibling_witness : (destroy Sample.prefix 3 2 Lifecycle.beside).1 <> Ret tt.
Proof.
  apply (@destroy_trips_over_sibling _ _ eq MemStore.mem_store_laws codec_serde codec_serde Sample.prefix 3 2
           Lifecycle.beside Lifecycle.sibling (Sample.manifest, mkETag "manifest") Lifecycle.beside).
  - vm_compute. reflexivity.
  - vm_compute. reflexivity.
  - by intros a b ->.
  - vm_compute. eauto.
  - vm_compute. reflexivity.
Defined.

Lemma copy_correct_witness :
  exists b t m', objects (copy Sample.prefix None 2 (from_offset 20) "target" Sample.store0).2
                   !! manifest_path "target" = Some (b, t) /\
    from_slice b = Some m' /\ fragments m' = [Sample.f4; Sample.f5; Sample.f6] /\
    next_fragment_seq_no m' = Some (mkSeqNo 7).
Proof.
  destruct (copy Sample.prefix None 2 (from_offset 20) "target" Sample.store0) as [r w'] eqn:Hc.
  assert (r = Ret tt) as -> by (apply (f_equal fst) in Hc; vm_compute in Hc; symmetry; exact Hc).
  destruct (@copy_correct _ IntSetsum.int_setsum_laws _ eq MemStore.mem_store_laws codec_serde codec_serde
              codec_serde_laws Sample.prefix None Sample.in_store Sample.no_error 2 Sample.manifest Sample.log 1
              (from_offset 20) "target" Sample.store0 w') as (pre & b & t & m' & _ & Ho & Hb & _ & _ & Hf & _ & Hn).
  - reflexivity.
  - intros w0 ->. exists Sample.store0. split; [vm_compute; reflexivity|reflexivity].
  - exact Sample.log_resolves.
  - exact (gl_chain _ _ _ _ _ Sample.good).
  - vm_compute. discriminate.
  - exact (gl_seqs _ _ _ _ _ Sample.good).
  - lia.
  - vm_compute. reflexivity.
  - exact (gl_bound _ _ _ _ _ Sample.good).
  - vm_compute. split; discriminate.
  - exact Hc.
  - exists b, t, m'. cbn [snd]. rewrite Ho, lookup_insert_eq. split; [reflexivity|]. split; [exact Hb|].
    split; [rewrite Hf; vm_compute; reflexivity|]. rewrite Hn. vm_compute. reflexivity.
Defined.
