(* ===== verification/WriterProps.v ===== *)
(** * Properties of the log writer *)

From S2P Require Import Prelude Setsum Storage Types Paths Effects Codec Manifest ManifestFacts Persist Gc.
From S2P Require Import GcFacts GcApply Reader ReaderFacts ManifestManager ManagerFacts BatchManager.
From S2P Require Import BatchFacts Cursors Writer LogWriter Instances Sample ManifestProps ManagerProps.
From S2P Require Import LifecycleProps.

#[local] Open Scope Z_scope.
#[local] Open Scope wal_scope.

(** ** What is uploaded is what is read *)

Section Uploads.
Context {SS : SetsumSig} {OS : ObjectStore} {rely : relation Objects} {OL : ObjectStoreLaws OS rely}.
Context {parquet : Parquet} {PL : ParquetLaws parquet}.

Lemma upload_loop_Ret fuel path upath start pos messages w r w' :
  upload_loop fuel path upath start pos messages w = (Ret r, w') ->
  exists epoch buffer sum t, construct_parquet pos messages epoch = Ok (buffer, sum) /\
    r = (upath, sum, Z.of_nat (length buffer)) /\ objects w' !! path = Some (buffer, t).
Proof.
  revert w. induction fuel as [|fuel IH]; intros w; cbn [upload_loop]; [done|].
  intros (epoch & w1 & _ & ([buffer sum] & w2 & Hc & (p & w3 & Hp & H)%bind_Ret)%bind_Ret)%bind_Ret.
  destruct (construct_parquet pos messages epoch) as [[buffer' sum']|e] eqn:Hcp; [|done].
  injection Hc as -> -> ->. unfold request in Hp.
  destruct (put_bytes path buffer if_not_exists w2) as [p' w3'] eqn:Hput. injection Hp as <- <-.
  destruct p' as [t|e].
  - injection H as <- <-. apply put_law in Hput as (pre & _ & _ & t' & Ho & _).
    exists epoch, buffer, sum, t'. by rewrite Ho, lookup_insert_eq.
  - destruct (is_precondition e); [done|]. apply bind_Ret in H as (now' & w4 & _ & H).
    destruct (_ <? _); [done|]. apply bind_Ret in H as (d & w5 & _ & H). by eapply IH.
Qed.

Lemma parquet_rows_offsets pos messages epoch :
  0 <= offset pos -> offset pos + Z.of_nat (length messages) <= u64_max ->
  (fun r => r.1.1) <$> parquet_rows pos messages epoch =
  (fun i => offset pos + Z.of_nat i) <$> seq 0 (length messages).
Proof.
  intros H0 Hmax. unfold parquet_rows. apply list_eq. intros i. rewrite !list_lookup_fmap, list_lookup_imap.
  destruct (decide (i < length messages)%nat) as [Hi|Hi].
  - rewrite lookup_seq_lt by done. destruct (lookup_lt_is_Some_2 messages i Hi) as [m Hm]. rewrite Hm. cbn.
    rewrite wrapping_add_small by (unfold is_u64; lia). done.
  - rewrite lookup_seq_ge by lia. by rewrite lookup_ge_None_2 by lia.
Qed.

Lemma read_fragment_Ret prefix path seq w r w' :
  parse_fragment_path path = Some seq -> read_fragment prefix path w = (Ret r, w') ->
  (objects w' !! fragment_path prefix path = None /\ r = None) \/
  exists bs t l rows, objects w' !! fragment_path prefix path = Some (bs, t) /\
    parquet_read bs = Some l /\ batches_rows l = Some rows /\
    let offsets := (fun r => r.1.1) <$> rows in
    r = Some (mkFragment path seq (from_offset (default 0 (min_by_key id offsets)))
                (from_offset (default 0 (max_by_key id ((fun o => wrapping_add o 1) <$> offsets))))
                (Z.of_nat (length bs)) (foldl insert_row setsum_default rows)).
Proof.
  intros Hparse. unfold read_fragment, attempt, read_parquet, bind, request_or_fail. rewrite Hparse.
  destruct (get_with_e_tag _ w) as [[[bs e_tag]|e] w1] eqn:Hg; apply get_law in Hg as [_ Hg].
  - destruct Hg as (t & Ht & _). destruct (parquet_read bs) as [l|] eqn:Hl; [|done].
    destruct (batches_rows l) as [rows|] eqn:Hrows; [|done]. cbn [ret].
    case_bool_decide; [done|]. intros [= <- <-]. right. exists bs, t, l, rows. split_and!; try done. cbv zeta.
    assert ((fun d => offset d.1) <$> ((fun '(offset, _, body) => (from_offset offset, body)) <$> rows) =
            (fun r => r.1.1) <$> rows) as ->; [|done].
    rewrite <- list_fmap_compose. apply list_fmap_ext. by intros i [[]].
  - cbv beta iota. destruct e; cbn; try done. intros [= <- <-]. by left.
Qed.

(** C28: a fragment that was uploaded reads back, by recovery or by a scrub, as
    the fragment that the writer publishes: with the same path, sequence
    number, positions, size and setsum. *)
Theorem upload_then_read fuel prefix seq pos messages w path sum n w' w2 r w3 :
  messages <> [] -> is_u64 (fsn seq) -> 0 <= offset pos ->
  offset pos + Z.of_nat (length messages) <= u64_max ->
  upload_parquet fuel prefix seq pos messages w = (Ret (path, sum, n), w') ->
  read_fragment prefix path w2 = (Ret r, w3) ->
  objects w3 !! fragment_path prefix path = objects w' !! fragment_path prefix path ->
  r = Some (mkFragment path seq pos (LogPosition.add pos (Z.of_nat (length messages))) n sum).
Proof.
  intros Hne Hseq H0 Hmax Hup Hread Hsame. unfold upload_parquet in Hup.
  apply bind_Ret in Hup as (start & w1 & _ & Hup).
  apply upload_loop_Ret in Hup as (epoch & buffer & sum' & t & Hc & [= -> <- ->] & Ho).
  unfold construct_parquet in Hc. destruct (parquet_write _) as [buffer'|] eqn:Hw; [|done]. injection Hc as -> <-.
  destruct (parquet_read_write _ _ _ Hw (batch_rows_parquet _)) as (l & Hl & Hrows).
  destruct (read_fragment_Ret prefix _ seq w2 r w3 (parse_unprefixed seq Hseq) Hread) as [[Hnone _]|(bs & t' & l' & rows & Hbs & Hl' & Hrows' & ->)].
  - rewrite Hsame in Hnone. unfold fragment_path in Hnone. congruence.
  - rewrite Hsame in Hbs. unfold fragment_path in Hbs. rewrite Ho in Hbs. injection Hbs as <- <-.
    rewrite Hl in Hl'. injection Hl' as <-. rewrite Hrows in Hrows'. injection Hrows' as <-.
    cbv zeta. rewrite parquet_rows_offsets by done.
    destruct messages as [|m ms]; [done|]. cbn [length] in *. set (n := length ms) in *. do 2 f_equal.
    + rewrite <- cons_seq, fmap_cons, min_by_key_head; [cbn; destruct pos; f_equal; cbn; lia|].
      intros y (i & -> & Hi)%list_elem_of_fmap. cbn. lia.
    + rewrite seq_S, !fmap_app. cbn [fmap list_fmap]. rewrite max_by_key_last.
      * unfold LogPosition.add. cbn. rewrite wrapping_add_small by (unfold is_u64; lia).
        rewrite wrapping_add_small by (unfold is_u64; lia). f_equal. lia.
      * intros y (x & -> & (i & -> & Hi%elem_of_seq)%list_elem_of_fmap)%list_elem_of_fmap. cbn.
        rewrite !wrapping_add_small by (unfold is_u64; lia). lia.
Qed.
End Uploads.

(** ** What appenders are told *)

Section Answers.
Context {SS : SetsumSig} {OS : ObjectStore} {parquet : Parquet} {dirty : MarkDirty}.
Context {serde_manifest : Serde Manifest} {serde_snapshot : Serde Snapshot}.

Lemma answer_positions_spec work pos tx p :
  0 <= offset pos -> offset pos + queue_count work <= u64_max ->
  (tx, Ok p) ∈ answer_positions pos ((fun x : Entry => (Z.of_nat (length x.1), x.2)) <$> work) ->
  exists pre msgs post, work = pre ++ (msgs, tx) :: post /\ offset p = offset pos + queue_count pre.
Proof.
  revert pos. induction work as [|[msgs tx'] work IH]; intros pos H0 Hmax Hin; cbn in Hin.
  - by apply elem_of_nil in Hin.
  - rewrite queue_count_cons in Hmax. pose proof (queue_count_nonneg work) as Hn. unfold entry_count in Hmax. cbn [fst] in Hmax.
    apply elem_of_cons in Hin as [[= <- <-]|Hin].
    + exists [], msgs, work. split; [done|]. change (queue_count []) with 0. lia.
    + assert (offset (LogPosition.add pos (Z.of_nat (length msgs))) = offset pos + Z.of_nat (length msgs)) as Ho
        by (cbn; rewrite wrapping_add_small by (unfold is_u64; lia); done).
      apply IH in Hin as (pre & ms & post & -> & Hp); [|lia|lia].
      exists ((msgs, tx') :: pre), ms, post. split; [done|]. rewrite queue_count_cons. unfold entry_count. cbn [fst]. lia.
Qed.

(** The messages that a failed write sends are errors. *)
Lemma shutdown_answers o :
  exists errs, once_answers (once_shutdown o) = once_answers o ++ errs /\ forall tx p, (tx, Ok p) ∉ errs.
Proof.
  exists ((fun x => (x.2, Err LogContentionRetry)) <$> enqueued (once_batch o)). split; [done|].
  by intros tx p (x & [=] & _)%list_elem_of_fmap.
Qed.

(** The outcome of a batch: it only adds errors to the answers, and a success
    is the position that it was given. *)
Definition written_at (pos : LogPosition) (o : OnceLogWriter) (r : result LogPosition Error) (o' : OnceLogWriter) : Prop :=
  (exists errs, once_answers o' = once_answers o ++ errs /\ forall tx p, (tx, Ok p) ∉ errs) /\
  (forall p, r = Ok p -> p = pos).

Lemma append_uploaded_answers fuel o seq pos n res1 res2 w r o' w' :
  append_uploaded fuel o seq pos n res1 res2 w = (Ret (r, o'), w') -> written_at pos o r o'.
Proof.
  unfold append_uploaded, written_at. destruct (match res2 with Ok _ => _ | Err _ => _ end) as [u|e].
  2: { intros [= <- <- <-]. split; [apply shutdown_answers|done]. }
  destruct res1 as [[[path sum] bytes]|e]; [|intros [= <- <- <-]; split; [apply shutdown_answers|done]].
  cbn [channel]. intros ([[r1 st] sent] & w1 & _ & H)%bind_Ret. destruct r1 as [[]|e]; injection H as <- <- <-.
  - split; [exists []; cbn; rewrite app_nil_r; split; [done|by intros ? ? ?%elem_of_nil]|by intros p [= ->]].
  - split; [apply (shutdown_answers (set_staging st (channel o).2))|done].
Qed.

Lemma append_batch_internal_answers fuel o seq pos messages w r o' w' :
  append_batch_internal fuel o seq pos messages w = (Ret (r, o'), w') -> written_at pos o r o'.
Proof.
  unfold append_batch_internal, attempt. case_bool_decide; [done|].
  destruct (upload_parquet _ _ _ _ _ w) as [[x|e|] w1]; [| |done];
    destruct (mark_dirty _ _ w1) as [[y|e'|] w2]; try done; apply append_uploaded_answers.
Qed.

Lemma concat_rows_lookup pos epoch (pre post : list Entry) (msgs : list bytes) tx i m :
  0 <= offset pos -> offset pos + queue_count (pre ++ (msgs, tx) :: post) <= u64_max -> msgs !! i = Some m ->
  parquet_rows pos (concat (pre ++ (msgs, tx) :: post).*1) epoch !! (length (concat pre.*1) + i)%nat =
  Some (offset pos + queue_count pre + Z.of_nat i, epoch, m).
Proof.
  intros H0 Hmax Hi. assert (queue_count pre = Z.of_nat (length (concat pre.*1))) as Hc.
  { clear. unfold queue_count. induction pre as [|[a b] pre IH]; [done|]. cbn. rewrite length_app. unfold sum_z in *.
    cbn in *. rewrite IH. unfold entry_count. cbn. lia. }
  rewrite queue_count_app, queue_count_cons in Hmax. pose proof (queue_count_nonneg post) as Hn.
  pose proof (lookup_lt_Some _ _ _ Hi) as Hlt. unfold entry_count in Hmax. cbn [fst] in Hmax.
  unfold parquet_rows. rewrite list_lookup_imap, fmap_app, concat_app. cbn.
  rewrite lookup_app_r by lia. replace (_ + i - _)%nat with i by lia.
  rewrite lookup_app_l, Hi by done. cbn. rewrite wrapping_add_small by (unfold is_u64; lia).
  do 3 f_equal. lia.
Qed.

(** when a batch is written, an appender that is told a position is told
    the position of its own first message: its messages are, in order, the
    rows of the uploaded fragment from that position on. *)
Theorem append_batch_answers fuel o seq pos work w o' w' :
  0 <= offset pos -> offset pos + queue_count work <= u64_max ->
  append_batch fuel o (seq, pos, work) w = (Ret o', w') ->
  exists new, once_answers o' = once_answers o ++ new /\
    forall tx p, (tx, Ok p) ∈ new ->
      exists pre msgs post, work = pre ++ (msgs, tx) :: post /\
        offset p = offset pos + queue_count pre /\
        forall epoch i m, msgs !! i = Some m ->
          parquet_rows pos (concat work.*1) epoch !! (length (concat pre.*1) + i)%nat =
          Some (offset p + Z.of_nat i, epoch, m).
Proof.
  intros H0 Hmax. unfold append_batch. case_bool_decide.
  { intros [= <- <-]. exists []. rewrite app_nil_r. split; [done|]. by intros tx p ?%elem_of_nil. }
  intros ([r o1] & w1 & Hint & [= <- <-])%bind_Ret.
  apply append_batch_internal_answers in Hint as [(errs & He & Hno) Hpos]. destruct r as [p0|e].
  - rewrite (Hpos p0 eq_refl). cbn. exists (errs ++ answer_positions pos ((fun x : Entry => (Z.of_nat (length x.1), x.2)) <$> work)).
    rewrite He, app_assoc. split; [done|]. intros tx p [?|Hin]%elem_of_app; [by edestruct Hno|].
    apply answer_positions_spec in Hin as (pre & msgs & post & -> & Hp); [|done|done].
    exists pre, msgs, post. split_and!; [done|done|]. intros epoch i m Hi. rewrite Hp. by apply concat_rows_lookup.
  - cbn. eexists. rewrite He, <- app_assoc. split; [done|].
    intros tx p [?|(x & [=] & _)%list_elem_of_fmap]%elem_of_app. by edestruct Hno.
Qed.
End Answers.

(** ** Bootstrapping *)

Section Bootstrap.
Context {SS : SetsumSig} {SL : SetsumLaws SS} {OS : ObjectStore} {rely : relation Objects}
        {OL : ObjectStoreLaws OS rely} {parquet : Parquet} {dirty : MarkDirty}.
Context {serde_manifest : Serde Manifest} {SDL : SerdeLaws Manifest}.

(** What it takes for a manifest to be the first of a log. *)
Definition bootstrapped (prefix : string) (start limit : LogPosition) (next : Z) (w' : world) : Prop :=
  exists b t m, objects w' !! manifest_path prefix = Some (b, t) /\ from_slice b = Some m /\ manifest_ok m /\
    oldest_timestamp m = start /\ next_write_timestamp m = limit /\ next_fragment_seq_no m = Some (mkSeqNo next).

Lemma install_stored prefix m w t w' :
  Manifest_install prefix None m w = (Ret t, w') ->
  exists b, objects w' !! manifest_path prefix = Some (b, t) /\ from_slice b = Some m.
Proof.
  intros Hi%Manifest_install_outcome. destruct (to_vec m) as [b|] eqn:Hb; [|by destruct Hi].
  destruct Hi as (_ & pre & _ & _ & Ho). exists b. rewrite Ho, lookup_insert_eq. split; [done|].
  by apply from_slice_to_vec.
Qed.

Lemma empty_from_ok start name :
  let m := with_initial_offset start (new_empty name) in
  manifest_ok m /\ oldest_timestamp m = start /\ next_write_timestamp m = start /\
  next_fragment_seq_no m = Some FragmentSeqNo.BEGIN.
Proof.
  split_and!; try done. constructor; [|constructor|by intros o [= <-]].
  cbn. unfold setsum_of. cbn. by rewrite !setsum_default_l.
Qed.

(** when a log is bootstrapped with messages, or without any, a manifest
    was written where there was none: it is well formed, starts at the first
    offset and ends after the last message, and expects the sequence number
    after the one fragment. *)
Theorem bootstrap_correct fuel prefix name start messages w w' :
  0 <= offset start -> offset start + Z.of_nat (length messages) <= u64_max ->
  stays (same_at (manifest_path prefix)) (mark_dirty start (Z.of_nat (length messages))) ->
  bootstrap fuel prefix name start messages w = (Ret tt, w') ->
  bootstrapped prefix start (LogPosition.add start (Z.of_nat (length messages)))
    (if bool_decide (messages = []) then 1 else 2) w'.
Proof.
  intros H0 Hmax Hdirty. unfold bootstrap. intros (r & w1 & _ & H)%bind_Ret. case_bool_decide; [done|].
  assert (offset (LogPosition.add start (Z.of_nat (length messages))) = offset start + Z.of_nat (length messages)) as Hl
    by (cbn; rewrite wrapping_add_small; [done|unfold is_u64; lia]).
  destruct (empty_from_ok start name) as (Hok & Ho & Hw & Hs). destruct (Z.ltb_spec 0 (Z.of_nat (length messages))) as [Hn|Hn].
  - apply bind_Ret in H as ([[path sum] n] & w2 & _ & H). destruct (can_apply_fragment _ _) eqn:Hcan; [|done].
    cbn [negb] in H. apply bind_Ret in H as (t & w3 & (b & Hb & Hm)%install_stored & Hd).
    specialize (Hdirty w3). rewrite Hd in Hdirty. cbn [snd] in Hdirty. unfold same_at in Hdirty.
    rewrite bool_decide_eq_false_2 by (by destruct messages).
    destruct (apply_fragment_ok _ _ Hok (can_apply_nonempty _ _ Hcan)) as (Hok' & Ho' & Hw'); [by rewrite Hw|].
    eexists b, t, _. rewrite <- Hdirty. split_and!; [done|done|exact Hok'|by rewrite Ho'|by rewrite Hw'|].
    unfold next_fragment_seq_no. reflexivity.
  - destruct messages; [|cbn in Hn; lia]. apply bind_Ret in H as (t & w3 & (b & Hb & Hm)%install_stored & [= <-]).
    destruct (empty_from_ok start "bootstrap") as (Hok' & Ho' & Hw' & Hs').
    exists b, t, (with_initial_offset start (new_empty "bootstrap")). split_and!; try done.
    rewrite Hw'. apply LogPosition_eq. rewrite Hl. cbn. lia.
Qed.
End Bootstrap.

(** ** The cutoff of garbage collection *)

Section Cutoff.
Context {SS : SetsumSig} {OS : ObjectStore} {rely : relation Objects} {OL : ObjectStoreLaws OS rely}.
Context {serde_cursor : Serde Cursor}.

Lemma cursor_names_elem prefix paths names name :
  CursorName.is_valid name = true -> cursor_names prefix paths = Ok names ->
  prefix +:+ "/" +:+ CursorName.path name ∈ paths -> name ∈ names.
Proof.
  intros Hv. revert names. induction paths as [|path paths IH]; intros names; cbn [cursor_names]; [by intros _ ?%elem_of_nil|].
  intros Hn [<-|Hin]%elem_of_cons.
  - rewrite strip_prefix_app in Hn.
    change (trim_start_matches _ ("/" +:+ CursorName.path name)) with (CursorName.path name) in Hn.
    rewrite cursor_from_path in Hn by done. destruct (cursor_names prefix paths) as [l|]; [|done].
    injection Hn as <-. by constructor.
  - destruct (strip_prefix prefix path); [|by apply IH]. destruct (CursorName.from_path _); [|done].
    destruct (cursor_names prefix paths) as [l|]; [|done]. injection Hn as <-. constructor. by apply IH.
Qed.

(** A cursor that others leave alone. *)
Variable cs : CursorStore.
Variable name : CursorName.t.
Variable c : Cursor.
Hypothesis Hrely : forall a b : Objects, rely a b -> a !! cursor_path cs name = b !! cursor_path cs name.

Definition stored (w : world) : Prop :=
  exists b t, objects w !! cursor_path cs name = Some (b, t) /\ from_slice b = Some c.

Lemma stored_rely w w' : rely (objects w) (objects w') -> stored w -> stored w'.
Proof. intros Hr%Hrely (b & t & Hb & Hc). exists b, t. by rewrite <- Hr. Qed.

Lemma lowest_cursor_le names acc w r w' :
  stored w -> lowest_cursor cs names acc w = (Ret r, w') ->
  (forall q, acc = Some q -> exists p, r = Some p /\ offset p <= offset q) /\
  (name ∈ names -> exists p, r = Some p /\ offset p <= offset (cursor_position c)).
Proof.
  revert acc w. induction names as [|n names IH]; intros acc w Hst; cbn [lowest_cursor].
  - intros [= <- <-]. split; [intros q ->; by exists q|by intros ?%elem_of_nil].
  - intros (x & w1 & [Hr Hx]%cursor_load_Ret & H)%bind_Ret. pose proof (stored_rely _ _ Hr Hst) as Hst1.
    destruct x as [x|]; [|done]. cbn [fmap option_fmap option_map] in H.
    set (p := cursor_position (witness_cursor x)) in *.
    apply IH in H as [Hacc Hin]; [|done]. destruct (LogPosition.leb p (default p acc)) eqn:Hle.
    + apply Z.leb_le in Hle. destruct (Hacc p eq_refl) as (p' & -> & Hp'). split.
      * intros q ->. cbn in Hle. exists p'. split; [done|lia].
      * intros [<-|Hn]%elem_of_cons; [|by apply Hin]. exists p'. split; [done|].
        destruct Hx as (b & Hb & Hb'), Hst1 as (b1 & t1 & Hb1 & Hc). rewrite Hb in Hb1. injection Hb1 as <- _.
        rewrite Hb' in Hc. injection Hc as <-. done.
    + apply Z.leb_gt in Hle. destruct acc as [q|]; [|cbn in Hle; lia]. cbn in Hle.
      destruct (Hacc q eq_refl) as (p' & -> & Hp'). split; [intros ? [= <-]; eauto|].
      intros [<-|Hn]%elem_of_cons; [|by apply Hin]. exists p'. split; [done|].
      destruct Hx as (b & Hb & Hb'), Hst1 as (b1 & t1 & Hb1 & Hc). rewrite Hb in Hb1. injection Hb1 as <- _.
      rewrite Hb' in Hc. injection Hc as Hc. subst p. rewrite Hc in Hle. lia.
Qed.

(** garbage is collected only below every cursor: the cutoff is at most
    the position of any cursor that is stored while it is computed. *)
Theorem cutoff_below_cursors o w p w' :
  cs = mkCursorStore (once_prefix o) "garbage collection writer" -> CursorName.is_valid name = true ->
  stored w -> garbage_collection_cutoff o w = (Ret p, w') -> offset p <= offset (cursor_position c).
Proof.
  intros Hcs Hv Hst. unfold garbage_collection_cutoff. rewrite <- Hcs.
  intros (names & w1 & Hlist & (r & w2 & Hlow & H)%bind_Ret)%bind_Ret.
  unfold cursor_list in Hlist. apply bind_Ret in Hlist as (paths & w3 & Hp & Hn). unfold request_or_fail in Hp.
  destruct (list_prefix _ w) as [[ks|e] w4] eqn:Hl; [|done]. injection Hp as -> ->.
  apply list_law in Hl as [Hr Hks]. pose proof (stored_rely _ _ Hr Hst) as Hst3.
  destruct (cursor_names _ paths) as [names'|] eqn:Hnames; [|done]. injection Hn as -> ->.
  apply lowest_cursor_le in Hlow as [_ Hin]; [|done]. destruct Hin as (p' & -> & Hle).
  - eapply cursor_names_elem; [done|exact Hnames|]. apply dec_stable. intros Hnot.
    apply Hks in Hnot as (m & Hm%Hrely & _ & Hnone).
    + destruct Hst as (b & t & Hb & _). unfold cursor_path in Hm, Hb. by rewrite Hnone, Hb in Hm.
    + unfold CursorName.path. rewrite string_app_assoc. rewrite (string_app_assoc (cs_prefix cs +:+ "/")).
      rewrite <- (string_app_assoc (cs_prefix cs)). apply string_prefix_app.
  - by injection H as <- _.
Qed.
End Cutoff.

(** ** Whole histories *)

Section Histories.
Import Live.

(** A collection that stops after the manifest was updated leaves the
    files that it meant to delete behind for ever: the next collection resets
    the garbage file, which no longer applies, and does not delete them, while
    a collection that is not interrupted does. *)
Theorem interrupted_collection_leaks :
  phase1.1.1 = Some (Ok true) /\ phase2.1.1 = Some (Ok tt) /\ takeover.1.1 = Some (Ok tt) /\
  (is_empty <$> garbage_in phase2.2) = Some false /\ (is_empty <$> garbage_in takeover.2) = Some true /\
  exists_in takeover.2 (fragment_file 1) = true /\ exists_in takeover.2 (fragment_file 2) = true /\
  collection.1.1 = Some (Ok tt) /\ exists_in collection.2 (fragment_file 1) = false.
Proof. vm_compute. repeat split. Qed.

(** A scrub that is limited to some records calls a healthy log corrupt:
    the log passes the scrub without a limit, but the scan that stops at the
    limit does not count as a short read. *)
Theorem limited_scrub_cries_wolf :
  (exists s, (reader_scrub prefix None 4 UNLIMITED store).1 = Ret (Ok s)) /\
  (exists a b, (reader_scrub prefix None 4 (mkLimits None None (Some 1)) store).1 =
     Ret (Err [ScrubError_ (OverallMismatch a b)])).
Proof. split; [eexists|do 2 eexists]; vm_compute; reflexivity. Qed.

(** A scrub with a short read reports nothing of what it found: a log that
    has lost the file of its first fragment looks like any log that is longer
    than the limit. *)
Theorem short_scrub_hides_errors :
  (exists a b c, (reader_scrub prefix None 4 UNLIMITED damaged).1 =
     Ret (Err [ScrubError_ (OverallMismatch a b); ScrubError_ (MissingFragment c)])) /\
  (reader_scrub prefix None 4 (mkLimits (Some 1) None None) damaged).1 = Ret (Err [Success]).
Proof. split; [do 3 eexists|]; vm_compute; reflexivity. Qed.

(** The cutoff of this collection is 4, and fragment 3 ends there; it is kept,
    because the end of the fragments that were dropped before, 3, has replaced
    the cutoff when the snapshot that holds it is looked at.  A second
    collection drops it. *)
Example straddling_snapshot_waits :
  exists_in collection.2 (fragment_file 3) = true /\
  exists_in (outcome (lw_garbage_collect 5 None collection.1.2 collection.2)).2 (fragment_file 3) = false.
Proof. vm_compute. split; reflexivity. Qed.
End Histories.

Lemma upload_then_read_witness :
  exists sum n, (upload_parquet 2 Live.prefix (mkSeqNo 1) (from_offset 1) [Live.message "one"] Live.empty_store).1 =
    Ret (unprefixed_fragment_path (mkSeqNo 1), sum, n) /\
    (read_fragment Live.prefix (unprefixed_fragment_path (mkSeqNo 1))
       (upload_parquet 2 Live.prefix (mkSeqNo 1) (from_offset 1) [Live.message "one"] Live.empty_store).2).1 =
    Ret (Some (mkFragment (unprefixed_fragment_path (mkSeqNo 1)) (mkSeqNo 1) (from_offset 1) (from_offset 2) n sum)).
Proof.
  destruct (upload_parquet 2 Live.prefix (mkSeqNo 1) (from_offset 1) [Live.message "one"] Live.empty_store)
    as [[[[path sum] n]|e|] w'] eqn:Hup; try (exfalso; apply (f_equal fst) in Hup; vm_compute in Hup; discriminate).
  assert (path = unprefixed_fragment_path (mkSeqNo 1)) as ->
    by (apply (f_equal fst) in Hup; vm_compute in Hup; injection Hup as <- _ _; vm_compute; reflexivity).
  exists sum, n. split; [reflexivity|]. cbn [snd].
  destruct (read_fragment Live.prefix (unprefixed_fragment_path (mkSeqNo 1)) w') as [[r|e|] w3] eqn:Hread.
  2,3: exfalso; apply (f_equal snd) in Hup; cbn [snd] in Hup; rewrite <- Hup in Hread;
       apply (f_equal fst) in Hread; vm_compute in Hread; discriminate.
  cbn [fst]. f_equal.
  apply (@upload_then_read _ _ eq MemStore.mem_store_laws _ codec_parquet_laws 2 Live.prefix (mkSeqNo 1) (from_offset 1)
           [Live.message "one"] Live.empty_store (unprefixed_fragment_path (mkSeqNo 1)) sum n w' w' r w3).
  - discriminate.
  - vm_compute. split; discriminate.
  - vm_compute. discriminate.
  - vm_compute. discriminate.
  - exact Hup.
  - exact Hread.
  - apply (f_equal snd) in Hup. cbn [snd] in Hup. apply (f_equal snd) in Hread. cbn [snd] in Hread.
    rewrite <- Hread, <- Hup. vm_compute. reflexivity.
Defined.

#[local] Existing Instance Live.dirty.

(** Two appends in one batch of the live log. *)
Definition two_appends : list Entry :=
  [([Live.message "a"; Live.message "b"], 7%nat); ([Live.message "c"], 8%nat)].

Definition live_once : OnceLogWriter :=
  match epoch_writer (lw_inner Live.start.1) with
  | Some o => set_staging (assign_timestamp 3 (once_staging o)).2 o
  | None => mkOnce Live.options "" true (mkManager (mkSnapshotOptions 1 1) "" "") (sys_st Run.s0) (BatchManager_new 0) [] 0
  end.

Lemma append_batch_answers_witness :
  exists o' (new : Answers), (append_batch 3 live_once (mkSeqNo 1, from_offset 1, two_appends) Live.start.2).1 = Ret o' /\
    new = [(7%nat, Ok (from_offset 1)); (8%nat, Ok (from_offset 3))] /\
    forall tx p, (tx, Ok p) ∈ new -> exists pre msgs post, two_appends = pre ++ (msgs, tx) :: post /\
      offset p = 1 + queue_count pre.
Proof.
  destruct (append_batch 3 live_once (mkSeqNo 1, from_offset 1, two_appends) Live.start.2) as [[o'|e|] w'] eqn:Ha.
  2,3: exfalso; apply (f_equal fst) in Ha; vm_compute in Ha; discriminate.
  exists o', [(7%nat, Ok (from_offset 1)); (8%nat, Ok (from_offset 3))]. split; [reflexivity|]. split; [reflexivity|].
  destruct (append_batch_answers 3 live_once (mkSeqNo 1) (from_offset 1) two_appends Live.start.2 o' w'
              ltac:(vm_compute; discriminate) ltac:(vm_compute; discriminate) Ha) as (new & Hnew & Hspec).
  assert (new = [(7%nat, Ok (from_offset 1)); (8%nat, Ok (from_offset 3))]) as ->.
  { apply (f_equal fst) in Ha. cbn [fst] in Ha.
    apply (f_equal (fun r => match r with Ret o => once_answers o | _ => [] end)) in Ha. rewrite Hnew in Ha.
    vm_compute in Ha. symmetry. exact Ha. }
  intros tx p Hin. destruct (Hspec tx p Hin) as (pre & msgs & post & Hw & Hp & _). exists pre, msgs, post.
  split; [exact Hw|exact Hp].
Defined.

Lemma bootstrap_correct_witness :
  bootstrapped Live.prefix (from_offset 5) (from_offset 7) 2
    (bootstrap 2 Live.prefix "writer" (from_offset 5) [Live.message "a"; Live.message "b"] Live.empty_store).2.
Proof.
  destruct (bootstrap 2 Live.prefix "writer" (from_offset 5) [Live.message "a"; Live.message "b"] Live.empty_store)
    as [r w'] eqn:Hb.
  assert (r = Ret tt) as -> by (apply (f_equal fst) in Hb; vm_compute in Hb; symmetry; exact Hb).
  apply (@bootstrap_correct _ IntSetsum.int_setsum_laws _ eq MemStore.mem_store_laws _ Live.dirty _ codec_serde_laws 2 Live.prefix
           "writer" (from_offset 5) [Live.message "a"; Live.message "b"] Live.empty_store w').
  - vm_compute. discriminate.
  - vm_compute. discriminate.
  - intros w. reflexivity.
  - exact Hb.
Defined.

Lemma cutoff_below_cursors_witness :
  exists p, (garbage_collection_cutoff live_once Live.with_cursor).1 = Ret p /\ offset p <= 4.
Proof.
  destruct (garbage_collection_cutoff live_once Live.with_cursor) as [[p|e|] w'] eqn:Hc.
  2,3: exfalso; apply (f_equal fst) in Hc; vm_compute in Hc; discriminate.
  exists p. split; [reflexivity|].
  apply (@cutoff_below_cursors _ _ eq MemStore.mem_store_laws _
           (mkCursorStore Live.prefix "garbage collection writer") Live.name (mkCursor (from_offset 4) 7 "reader")
           ltac:(by intros a b ->) live_once Live.with_cursor p w').
  - vm_compute. reflexivity.
  - vm_compute. reflexivity.
  - do 2 eexists. split; vm_compute; reflexivity.
  - exact Hc.
Defined.
