(* ===== verification/HeapProps.v ===== *)
(** * Properties of the heap on object storage

    What a merge keeps; no task is lost by pushes and pruning next to other
    writers; a peek returns exactly what is due; with the heap evaluated on an
    in-memory store whose ETags are derived from contents. *)

From S2P Require Import Prelude Setsum Storage Instances Types Paths S3Heap Effects Codec HeapFacts HeapTasks.

#[local] Open Scope Z_scope.
Import Heap.

(** A merge keeps, of the tasks that were there and the new ones, exactly
    the newest invocation of every trigger, in the order of triggers; merging
    the same tasks again changes nothing. *)
Theorem merge_items_newest kept entries :
  StronglySorted trigger_lt (merge_items kept entries) /\
  (forall x, x ∈ merge_items kept entries <-> newest (kept ++ entries) x) /\
  merge_items (merge_items kept entries) entries = merge_items kept entries.
Proof. destruct (merge_items_spec kept entries). split_and!; [done..|apply merge_items_idemp]. Qed.

Section Writers.
Context {OS : ObjectStore} {rely : relation Objects} {OL : ObjectStoreLaws OS rely}.
Context {CH : Chrono} {UU : Uuids} {UL : UuidLaws UU} {HP : HeapParquet} {HL : HeapParquetLaws HP}.
Variable are_done : list (Triggerable * Uuid) -> world -> result (list bool) Error * world.
Variables finished_before finished : Triggerable * Uuid -> Prop.
Context {SL : SchedulerLaws rely are_done finished_before finished}.
Variable content : string -> ETag -> bytes.
Context {EL : ETagLaws OS rely content}.
Variable prefix : string.

(** C21: next to others that lose no task, a push loses no task either, in any
    bucket and whatever its outcome, also when requests fail or take effect
    without an answer: a task that is in a bucket stays there until it is
    finished or a newer invocation takes its place.  When the push succeeds,
    so does every task that it was given, in the bucket of its minute. *)
Theorem push_keeps_tasks schedules w r w' :
  (forall m m', rely m m' -> keeps finished m m') -> tagged content (objects w) ->
  push are_done prefix schedules w = (r, w') ->
  keeps finished (objects w) (objects w') /\
  (r = Ok tt -> forall s, s ∈ schedules -> exists bucket, compute_bucket (next_scheduled s) = Ok bucket /\
     accounted finished (objects w') (path_for_bucket prefix bucket) (mkHeapItem (triggerable s) (schedule_nonce s))).
Proof.
  intros Hkeeps Ht. unfold push. case_bool_decide as Hs.
  { intros [= <- <-]. split; [done|]. subst. by intros _ s ?%not_elem_of_nil. }
  destruct (group_schedules schedules []) as [g|e] eqn:Hg; [|by intros [= <- <-]].
  intros Hm. apply (runs_merge_all are_done finished_before finished content prefix Hkeeps) in Hm as (_ & Hk & Hr); [|done..]. split; [done|].
  intros -> s Hin. apply group_schedules_elem in Hg as [_ Hg]. destruct (Hg s Hin) as (b & items & Hb & Hbin & Hx).
  exists b. split; [done|]. by eapply Hr.
Qed.

(** Pruning a bucket loses no task that is not finished, provided that
    nobody else touches the bucket or that it is not old enough to be deleted.
    It deletes the bucket only when nothing is retained, rewrites it only when
    something is removed and something stays, and when nobody else touches
    the bucket no task that was finished before is left, unless all are done
    and the bucket is young. *)
Theorem prune_keeps_tasks bucket w r w' :
  (forall m m', rely m m' -> keeps finished m m') -> tagged content (objects w) ->
  quiet (rely := rely) prefix bucket \/ young bucket ->
  prune_bucket are_done prefix bucket w = (r, w') ->
  keeps finished (objects w) (objects w') /\
  forall stats, r = Ok stats ->
    pruned (rely := rely) finished_before prefix bucket stats (objects w').
Proof.
  intros Hkeeps Ht Hq Hp. apply (runs_prune are_done finished_before finished content prefix Hkeeps bucket Hq) in Hp as (_ & Hk & Hr); [|done..]. split; [done|]. by intros stats ->.
Qed.
End Writers.

Section Readers.
Context {OS : ObjectStore} {rely : relation Objects} {OL : ObjectStoreLaws OS rely}.
Context {CH : Chrono} {CL : ChronoLaws CH} {UU : Uuids} {HP : HeapParquet}.
Variable are_done : list (Triggerable * Uuid) -> world -> result (list bool) Error * world.
Variables finished_before finished : Triggerable * Uuid -> Prop.
Context {SL : SchedulerLaws rely are_done finished_before finished}.
Variable prefix : string.

(** Every task that a peek returns passed the filter, is not past the
    cut-off, was in its bucket while the peek ran and was not finished before;
    there are at most as many as asked for, or one when none was asked for.
    Without limits on items and time, and when the listing is not longer than
    the number of buckets to read, every task that passes the filter, is in
    its bucket all the while and is not finished by the end is returned. *)
Theorem peek_exact should_return limits w res w' :
  peek are_done prefix should_return limits w = (Ok res, w') ->
  (forall b x, (b, x) ∈ res ->
     due (rely := rely) finished_before prefix should_return limits (objects w) (objects w') b x) /\
  (forall n, max_items limits = Some n -> (length res <= max 1 n)%nat) /\
  (max_items limits = None -> time_cut_off limits = None ->
   (forall ks w1, list_prefix prefix w = (Ok ks, w1) -> (length ks <= max_buckets limits)%nat) ->
   forall b x, parse_from_rfc3339 (format_utc b) = Some b ->
     stays (rely := rely) prefix (objects w) (objects w') b x ->
     should_return (trigger x) b = true -> ~ finished (trigger_and_nonce x) -> (b, x) ∈ res).
Proof.
  unfold peek, list_approx_first_1k_buckets, bind, request.
  destruct (list_prefix prefix w) as [[ks|e] w1] eqn:Hls; [|done].
  pose proof (list_law _ _ _ _ Hls) as [Hr1 Hks].
  destruct (collect_buckets prefix ks) as [ds|e] eqn:Hc; [|done]. apply collect_buckets_spec in Hc as [Hlen Hc].
  intros Hp. apply (peek_buckets_spec are_done finished_before finished) in Hp
    as (Hr2 & (new & -> & Hnew) & Hlim & Hall). cbn [app] in *. split_and!.
  - intros b x Hin. destruct (Hnew b x Hin) as [_ Hd]. by eapply due_mono; [exact Hr1|reflexivity|].
  - intros n Hn. apply (Hlim n Hn). cbn. lia.
  - intros Hm Hcut Hshort b x Hb Hst Hs Hf. apply (Hall Hm Hcut); [|by intros m ??; apply Hst; [etrans|]|done..].
    rewrite take_ge by (specialize (Hshort _ _ eq_refl); lia).
    destruct (path_roundtrip prefix b Hb) as [Hi Hpb]. apply (Hc (path_for_bucket prefix b)); [|done..].
    destruct (Hks (path_for_bucket prefix b)) as [_ Hun]. destruct (decide (path_for_bucket prefix b ∈ ks)) as [|Hnot]; [done|].
    exfalso. destruct Hun as (m & Hm0 & Hm1 & Hnone); [apply string_prefix_app|done|].
    destruct (Hst m) as (b' & t' & items & Hl & _); [done|by etrans|]. congruence.
Qed.
End Readers.

(** ** A heap in memory *)

(** Minutes named in hexadecimal, UUIDs and columns written by the codec. *)
Module HeapSample.
Import HashStore.

Definition second_ns : Z := 1000000000.

#[export] Instance chrono : Chrono := {|
  second d := (d / second_ns) mod 60;
  nanosecond d := d mod second_ns;
  duration_trunc d := Some (d / (60 * second_ns) * (60 * second_ns));
  format_utc d := "t" +:+ fmt_016x (d mod u64_max) +:+ "Z";
  parse_from_rfc3339 s := s ← strip_prefix "t" s; s ← strip_suffix "Z" s; from_str_radix_16 s;
|}.

#[export] Instance chrono_laws : ChronoLaws chrono.
Proof.
  constructor.
  - intros d b [= <-]. unfold second, nanosecond, chrono, second_ns. set (q := d / _). split.
    + replace (q * (60 * 1000000000)) with (q * 60 * 1000000000) by lia. rewrite Z.div_mul by lia. apply Z.mod_mul. lia.
    + replace (q * (60 * 1000000000)) with (q * 60 * 1000000000) by lia. apply Z.mod_mul. lia.
  - intros d. exists (Ascii.ascii_of_nat 116), (fmt_016x (d mod u64_max)). split; [|done]. unfold format_utc, chrono. by rewrite string_app_assoc.
Qed.

Definition batch_of (cols : list (string * list string)) : HeapBatch :=
  mkHeapBatch (match cols with (_, c) :: _ => length c | [] => 0%nat end)
    (fun name => (fun c => StringArray (Some <$> c.2.2)) <$> list_find (fun c => c.1 = name) cols).

#[export] Instance parquet : HeapParquet := {|
  open_parquet b := cols ← from_slice b; Some [Some (batch_of cols)];
  write_parquet cols := Some (Codec.put cols);
|}.

Lemma find_column (cols : list (string * list string)) name col :
  NoDup cols.*1 -> (name, col) ∈ cols -> exists i, list_find (fun c => c.1 = name) cols = Some (i, (name, col)).
Proof.
  intros Hnd Hin. destruct (list_find_elem_of (fun c => c.1 = name) cols (name, col)) as [[i [name' col']] Hf]; [done..|].
  exists i. rewrite Hf. apply list_find_Some in Hf as (Hi & Hn & _). cbn in Hn. subst name'.
  apply list_elem_of_lookup in Hin as [j Hj]. assert (i = j) as ->; [|congruence].
  eapply NoDup_lookup; [exact Hnd|rewrite list_lookup_fmap, Hi; done|by rewrite list_lookup_fmap, Hj].
Qed.

#[export] Instance parquet_laws : HeapParquetLaws parquet.
Proof.
  constructor. intros cols b Hb Hnd Hlen. exists [batch_of cols]. split.
  - unfold open_parquet, parquet. replace b with (Codec.put cols) by (unfold write_parquet, parquet in Hb; congruence).
    by rewrite (@from_slice_to_vec _ _ codec_serde_laws cols (Codec.put cols) eq_refl).
  - intros name col Hin. exists [col]. cbn [concat]. rewrite app_nil_r. split; [done|]. repeat constructor; cbn [batch_of column_by_name hb_num_rows].
    + destruct (find_column cols name col Hnd Hin) as [i ->]. done.
    + destruct cols as [|[n0 c0] cols]; [by apply not_elem_of_nil in Hin|]. by apply (Hlen (n0, c0) (name, col)); [left|].
Qed.

(** The tasks that are done. *)
Definition minute (n : Z) : DateTime := n * 60 * second_ns.
Definition task (p s : Z) : Triggerable := mkTriggerable p s.
Definition is_finished (x : Triggerable * Uuid) : Prop := x = (task 1 1, 10).

Definition are_done (xs : list (Triggerable * Uuid)) (w : world) : result (list bool) Error * world :=
  (Ok ((fun x => bool_decide (x = (task 1 1, 10))) <$> xs), w).

#[export] Instance scheduler_laws : SchedulerLaws eq are_done is_finished is_finished.
Proof.
  constructor. intros xs w r w' [= <- <-]. split; [done|]. split; [by rewrite length_fmap|].
  intros i x d Hx. rewrite list_lookup_fmap, Hx. intros [= <-]. unfold is_finished. by case_bool_decide.
Qed.

Definition prefix : string := heap_path_from_hostname "rust-log-service-1".
Definition empty : world := MemStore.mkMem ∅ 0 [] 0.
Definition schedules : list Schedule :=
  [mkSchedule (task 1 1) (minute 3 + 5) 10; mkSchedule (task 2 1) (minute 3 + 9) 20;
   mkSchedule (task 1 2) (minute 5) 30; mkSchedule (task 2 1) (minute 3) 15].

(** The heap after a push whose second request loses its answer. *)
Definition initialized : world := (HeapWriter_new prefix empty).2.
Definition flaky : world :=
  MemStore.mkMem (MemStore.mem_objects initialized) 0 [MemStore.Works; MemStore.Ambiguous] (30 * 60 * 1000000).
Definition pushed : result unit Error * world := push are_done prefix schedules flaky.
Definition everything : Limits := Limits_default.
Definition peeked : result (list (DateTime * HeapItem)) Error * world :=
  peek are_done prefix (fun _ _ => true) everything pushed.2.
Definition pruned_3 : result PruneStats Error * world := prune_bucket are_done prefix (minute 3) pushed.2.

Lemma tagged_flaky : tagged content (objects flaky).
Proof.
  intros p b t. change (objects flaky) with (<[init_path prefix := ([], hash [])]> ∅ : Objects).
  intros [[_ [= <- <-]]|[_ Hl]]%lookup_insert_Some; [apply content_hash|done].
Qed.
End HeapSample.

Import HashStore HeapSample.


Lemma tagged_pushed : tagged HashStore.content (objects HeapSample.pushed.2).
Proof. apply tagged_iff. apply (bool_decide_unpack _). vm_compute. exact I. Qed.

Lemma push_keeps_tasks_witness :
  HeapSample.pushed.1 = Ok tt /\
  accounted HeapSample.is_finished (objects HeapSample.pushed.2)
    (path_for_bucket HeapSample.prefix (HeapSample.minute 5)) (mkHeapItem (HeapSample.task 1 2) 30).
Proof.
  assert (HeapSample.pushed.1 = Ok tt) as H1 by (vm_compute; reflexivity). split; [exact H1|].
  destruct (push_keeps_tasks HeapSample.are_done HeapSample.is_finished HeapSample.is_finished HashStore.content
              HeapSample.prefix HeapSample.schedules HeapSample.flaky (Ok tt) HeapSample.pushed.2) as [_ Hall].
  - intros m m' <-. reflexivity.
  - exact HeapSample.tagged_flaky.
  - rewrite <- H1. apply surjective_pairing.
  - destruct (Hall eq_refl (mkSchedule (HeapSample.task 1 2) (HeapSample.minute 5) 30)) as (b & Hb & Ha).
    + right. right. left.
    + replace (HeapSample.minute 5) with b; [exact Ha|]. injection Hb as <-. vm_compute. reflexivity.
Defined.

Lemma prune_keeps_tasks_witness :
  keeps HeapSample.is_finished (objects HeapSample.pushed.2) (objects HeapSample.pruned_3.2) /\
  exists stats, HeapSample.pruned_3.1 = Ok stats /\ buckets_updated stats = 1%nat /\
    pruned (rely := eq) HeapSample.is_finished HeapSample.prefix (HeapSample.minute 3) stats
      (objects HeapSample.pruned_3.2).
Proof.
  destruct (prune_keeps_tasks HeapSample.are_done HeapSample.is_finished HeapSample.is_finished HashStore.content
              HeapSample.prefix (HeapSample.minute 3) HeapSample.pushed.2 HeapSample.pruned_3.1 HeapSample.pruned_3.2) as [Hk Hp].
  - intros m m' <-. reflexivity.
  - exact tagged_pushed.
  - left. intros m m' <-. reflexivity.
  - apply surjective_pairing.
  - split; [exact Hk|]. exists (mkPruneStats 1 1 0 1).
    assert (HeapSample.pruned_3.1 = Ok (mkPruneStats 1 1 0 1)) as Hr by (vm_compute; reflexivity).
    split_and!; [exact Hr|reflexivity|]. apply Hp. exact Hr.
Defined.

Lemma peek_exact_witness :
  exists res, HeapSample.peeked.1 = Ok res /\ length res = 2%nat /\
    (HeapSample.minute 5, mkHeapItem (HeapSample.task 1 2) 30) ∈ res.
Proof.
  exists [(HeapSample.minute 3, mkHeapItem (HeapSample.task 2 1) 20);
          (HeapSample.minute 5, mkHeapItem (HeapSample.task 1 2) 30)].
  assert (HeapSample.peeked.1 = Ok [(HeapSample.minute 3, mkHeapItem (HeapSample.task 2 1) 20);
          (HeapSample.minute 5, mkHeapItem (HeapSample.task 1 2) 30)]) as Hr by (vm_compute; reflexivity).
  split_and!; [exact Hr|reflexivity|].
  eapply (peek_exact (rely := eq) HeapSample.are_done HeapSample.is_finished HeapSample.is_finished HeapSample.prefix
            (fun _ _ => true) HeapSample.everything HeapSample.pushed.2 _ HeapSample.peeked.2).
  - rewrite <- Hr. apply surjective_pairing.
  - reflexivity.
  - reflexivity.
  - intros ks w1 Hls.
    assert (bool_decide (length (match (list_prefix HeapSample.prefix HeapSample.pushed.2).1 with
                                 | Ok ks => ks | Err _ => [] end) <= 1000)%nat = true) as Hlen by (vm_compute; reflexivity).
    rewrite Hls in Hlen. apply bool_decide_eq_true in Hlen. exact Hlen.
  - vm_compute. reflexivity.
  - intros m <- _.
    exists (default ([], mkETag "") (objects HeapSample.pushed.2 !! path_for_bucket HeapSample.prefix (HeapSample.minute 5))).1,
      (default ([], mkETag "") (objects HeapSample.pushed.2 !! path_for_bucket HeapSample.prefix (HeapSample.minute 5))).2,
      [mkHeapItem (HeapSample.task 1 2) 30].
    split_and!; [vm_compute; reflexivity..|left].
  - reflexivity.
  - intros [=].
Defined.

(** A heap whose prefix extends the one of another heap makes every listing of
    the other fail. *)
Theorem sibling_heap_breaks_listing :
  let sibling := (push HeapSample.are_done (heap_path_from_hostname "rust-log-service-10") HeapSample.schedules HeapSample.pushed.2).2 in
  (list_buckets HeapSample.prefix None HeapSample.pushed.2).1 = Ok [HeapSample.minute 3; HeapSample.minute 5] /\
  (list_buckets HeapSample.prefix None sibling).1 = Err ParseDate.
Proof. vm_compute. split; reflexivity. Qed.
