(* ===== verification/ServiceProps.v ===== *)
(** * Properties of the log service

    What becomes of the markers of the dirty log, what a response to a read
    holds, where the compaction cursor goes and who may write; with the server
    evaluated on an in-memory store. *)

From S2P Require Import Prelude Setsum Storage Instances Types StateTable Paths Effects Codec Manifest Persist Gc.
From S2P Require Import Reader ManifestManager BatchManager Cursors CopyDestroy Writer LogWriter Dirty LogService.
From S2P Require Import ReaderFacts DirtyFacts TableFacts ServiceFacts CompactionCursor.

#[local] Open Scope Z_scope.
#[local] Open Scope wal_scope.

Section Claims.
Context {SS : SetsumSig} {OS : ObjectStore} {rely : relation Objects} {OL : ObjectStoreLaws OS rely} {parquet : Parquet}.
Context {serde_manifest : Serde Manifest} {serde_snapshot : Serde Snapshot} {serde_garbage : Serde Garbage}
        {serde_cursor : Serde Cursor} {SDL : SerdeLaws Cursor}.
Context {serde_marker : Serde DirtyMarker} {serde_witness : Serde Witness} {serde_met : Serde ManifestAndETag}.
Context {UU : Uuids} {SC : ServiceCache} {HS : HasServer} {HSL : HasServerLaws HS} {OR : OperationRecords}.
Variable fuel : nat.


(** C16: a rollup sums up exactly what the fragments of the dirty log that
    could be read say, in whatever order they were added: a collection that was
    purged has none, any other one the smallest position, the largest limit,
    the largest reinsertion count and the earliest insertion time of its
    marks; the last position witnessed bounds those of all markers. *)
Theorem dirty_rollup_exact lw w rollup w' :
  read_and_coalesce_dirty_log fuel lw w = (Ret (Ok rollup), w') ->
  ru_rollups rollup = ∅ \/
  exists frags parts w1 w2, scan (lw_prefix lw) None fuel (cursor_position (ru_cursor rollup)) UNLIMITED w1 = (Ret frags, w2) /\
    Forall2 (markers_read (lw_prefix lw)) frags parts /\
    (forall x, x ∈ concat parts -> offset x.1 <= offset (last_record_witnessed rollup)) /\
    (counts_ok (markers_of parts) ->
       (forall c, ru_rollups rollup !! c =
          if bool_decide (DirtyPurge c ∈ markers_of parts) then None else summary c (markers_of parts)) /\
       (forall parts', parts' ≡ₚ parts ->
          finish_rollup (add_fragments parts' RollupTransientState_default) = ru_rollups rollup)).
Proof.
  intros [[He _]|H]%read_and_coalesce_Ok; [by left|right]. destruct H as (frags & parts & w1 & w2 & Hs & Hp & Hr & Hl).
  exists frags, parts, w1, w2. rewrite Hr, Hl. split_and!; [done..| |].
  - apply (largest_fragments parts RollupTransientState_default).
  - intros Hc. split; [intros c; by apply finish_rollup_spec|]. intros parts' Hperm. apply map_eq. intros c.
    by rewrite !(finish_rollup_spec parts _ c Hc).
Qed.

(** C39: a fragment of the dirty log whose read fails is skipped for good: a
    rollup that succeeds and finds something to compact has scanned the dirty
    log for fragments and reports no collection that has no mark in those that
    were read, a failed read giving no markers; it leaves the cursor of the dirty
    log one past a position at or past every marker that was read; and no later
    scan from there returns a fragment that ends at or before that cursor,
    whether or not it was read. *)
Theorem failed_read_loses_markers lw w w' :
  dirty_log (server w) = Some lw -> roll_dirty_log fuel w = (Ret (Ok tt), w') ->
  need_to_compact (server w') = ∅ \/
  exists from frags parts w1 w2 last,
    scan (lw_prefix lw) None fuel from UNLIMITED w1 = (Ret frags, w2) /\
    Forall2 (markers_read (lw_prefix lw)) frags parts /\
    (forall c, is_Some (need_to_compact (server w') !! c) -> marked c (markers_of parts)) /\
    (forall x, x ∈ concat parts -> offset x.1 <= offset last) /\
    cursor_at lw (LogPosition.add last 1) (objects w') /\
    (forall w3 frags' w4, scan (lw_prefix lw) None fuel (LogPosition.add last 1) UNLIMITED w3 = (Ret frags', w4) ->
       forall f, f ∈ frags' -> offset (LogPosition.add last 1) < offset (frag_limit f)).
Proof.
  intros Hlw. unfold roll_dirty_log. intros (s & w0 & Hs & H)%hbind_Ok. apply run_Ok in Hs. injection Hs as <- <-.
  rewrite Hlw in H. apply hbind_Ok in H as (rollup & w1 & Hread & H). apply read_and_coalesce_Ok in Hread.
  case_bool_decide as He.
  { apply run_Ok in H. injection H as <-. left. by rewrite server_set. }
  right. destruct Hread as [[? _]|(frags & parts & v1 & v2 & Hs & Hp & Hr & Hl)]; [done|].
  apply hbind_Ok in H as (need & w2 & Hen & H). apply call_Ok, enrich_dirty_log_Ret in Hen as [_ Hdom].
  pose proof (save_dirty_log_cursor (rely := rely) fuel _ _ _ _ H) as Hcur. cbn in Hcur.
  apply save_dirty_log_Ok in H as (Hneed & _ & _). cbn in Hneed.
  exists (cursor_position (ru_cursor rollup)), frags, parts, v1, v2, (last_record_witnessed rollup).
  split_and!; [exact Hs|exact Hp| | |exact Hcur|].
  - intros c Hc. rewrite Hneed in Hc. apply Hdom in Hc. rewrite Hr in Hc. by apply finish_rollup_marked.
  - rewrite Hl. apply (largest_fragments parts RollupTransientState_default).
  - intros w3 frags' w4 Hscan f Hf. by eapply scan_past.
Qed.

(** C14: a response to [pull_logs] has as many records as were asked for, each
    decoded from a row of a fragment of the log; when the rows have increasing
    positions these are the records at the positions that were asked for, all
    of them and in order. *)
Theorem pull_logs_exact r c records w w' :
  uuid_from_str (pull_collection_id r) = Some c -> 0 <= start_from_offset r ->
  start_from_offset r + batch_size r < 2 ^ 63 ->
  pull_logs fuel r w = (Ret (Ok records), w') ->
  Z.of_nat (length records) = batch_size r /\
  exists frags parquets files w1 w2, mapM (fetch_fragment c) frags w1 = (Ret parquets, w2) /\
    Forall2 file_rows parquets files /\
    chosen (start_from_offset r) (batch_size r) (concat files) records /\
    (StronglySorted Z.lt ((fun x => offset x.1) <$> concat files) ->
     log_offset <$> records = seqZ (start_from_offset r) (batch_size r)).
Proof.
  intros Hid H0 Hmax. unfold pull_logs. intros (c' & w1 & Hc & H)%hbind_Ok. unfold parse_collection in Hc.
  rewrite Hid in Hc. injection Hc as <- <-. apply hbind_Ok in H as (frags & w1 & _ & H).
  apply hbind_Ok in H as (parquets & w2 & Hm & H). apply call_Ok in Hm.
  destruct (batch_size r <? 0) eqn:Hneg; [done|]. apply Z.ltb_ge in Hneg.
  apply hbind_Ok in H as (l & w3 & Hl & H). rewrite u64_wrap_small in Hl by (unfold is_u64, u64_max; lia).
  apply collect_records_Ok in Hl as (-> & files & new & Hf & -> & Hch). cbn [app] in *.
  destruct (negb (_ =? _) || _) eqn:Hb; [done|]. injection H as <- <-.
  apply orb_false_iff in Hb as [Hb%negb_false_iff%Z.eqb_eq _]. split; [done|].
  exists frags, parquets, files, w1, w2. split_and!; [done..|]. intros Hsorted.
  rewrite (chosen_range (start_from_offset r) (batch_size r) (concat files)) by (done || lia).
  rewrite <- (list_fmap_id (seqZ (start_from_offset r) (batch_size r))) at 2. apply list_fmap_ext.
  intros i x Hi%lookup_seqZ. unfold i64_wrap. rewrite Z.mod_small by lia. cbn. lia.
Qed.

(** C15: next to processes that do not move the compaction cursor of a
    collection back, and with ETags that tell contents and digests in
    hexadecimal, a request to move it does not move it back either, whatever its
    outcome and whether or not the log is open, so that it may be opened,
    recovered or created on the way; when the request succeeds the cursor is at
    or past the position after the offset of the request. *)
Theorem update_never_goes_back content c id off w r w' :
  ETagLaws OS rely content -> (forall m m', rely m m' -> forward (compaction_path c) m m') ->
  (forall s : Setsum, string_forall is_hex_digit (hexdigest s) = true) ->
  uuid_from_str id = Some c -> tagged content (objects w) ->
  update_collection_log_offset fuel id off w = (r, w') ->
  forward (compaction_path c) (objects w) (objects w') /\
  (r = Ret (Ok tt) -> reached c (u64_wrap (i64_wrap (off + 1))) (objects w')).
Proof.
  intros HE Hf Hhex Hid Ht H. pose proof (update_moves content fuel c Hf Hhex id off w Hid Ht) as Hu.
  rewrite H in Hu. apply Hu.
Qed.

(** The requests that write. *)
Inductive WriteRequest :=
| Push (id : string) (records : list OperationRecord)
| Fork (source target : string)
| UpdateOffset (id : string) (off : Z)
| RollbackOffset (id : string) (off : Z)
| PurgeDirty (ids : list string)
| CollectGarbage (log : option LogChoice)
| PurgeCache (entry : option EntryToEvict).

(** The handler of a request, its response left out. *)
Definition handle (q : WriteRequest) : HM Code unit :=
  match q with
  | Push id records => let@ _ := push_logs fuel id records in hret tt
  | Fork source target => let@ _ := fork_logs fuel source target in hret tt
  | UpdateOffset id off => update_collection_log_offset fuel id off
  | RollbackOffset id off => rollback_collection_log_offset fuel id off
  | PurgeDirty ids => purge_dirty_for_collection fuel ids
  | CollectGarbage log => garbage_collect_phase2 fuel log
  | PurgeCache entry => purge_from_cache entry
  end.

(** The collection whose log grows. *)
Definition grows (q : WriteRequest) : option string :=
  match q with
  | Push id _ => Some id
  | Fork source _ => Some source
  | _ => None
  end.

(** A server that is read only or has no dirty log refuses every request
    that writes and changes nothing; one that writes refuses to append to or
    fork a collection under backpressure, and again changes nothing. *)
Theorem writes_are_guarded q w :
  (dirty_log (server w) = None \/ read_only (config (server w)) = true ->
     handle q w = (Ret (Err Code_PermissionDenied), w)) /\
  (forall id c, grows q = Some id -> uuid_from_str id = Some c -> c ∈ backpressure (server w) ->
     exists code, code <> Code_Ok /\ handle q w = (Ret (Err code), w)).
Proof.
  split.
  - intros Hw. assert (ensure_write_mode w = (Ret (Err Code_PermissionDenied), w)) as He.
    { unfold ensure_write_mode, get_server, bind. destruct Hw as [-> | Hro]; [done|]. destruct (negb _); [done|]. by rewrite Hro. }
    destruct q; cbn [handle]; unfold push_logs, fork_logs, update_collection_log_offset, rollback_collection_log_offset,
      purge_dirty_for_collection, garbage_collect_phase2, purge_from_cache;
      by repeat apply hbind_stop.
  - intros id c Hg Hid Hb.
    assert (check_for_backpressure c w = (Ret (Err Code_ResourceExhausted), w)) as Hbp.
    { unfold check_for_backpressure, get_server, bind. by rewrite bool_decide_eq_true_2. }
    assert (parse_collection id w = (Ret (Ok c), w)) as Hp by (unfold parse_collection; by rewrite Hid).
    destruct (ensure_write_mode_keeps w) as [He|He].
    2: { exists Code_PermissionDenied. split; [done|]. destruct q; try done; by do 2 apply hbind_stop. }
    destruct q; try done; injection Hg as ->; cbn [handle].
    + assert (exists code, code <> Code_Ok /\ push_logs fuel id records w = (Ret (Err code), w)) as (code & Hne & Hx).
      { unfold push_logs. rewrite (hbind_step _ _ _ _ _ He), (hbind_step _ _ _ _ _ Hp).
        destruct (_ <? _); [by exists Code_InvalidArgument|]. case_bool_decide; [by exists Code_InvalidArgument|].
        exists Code_ResourceExhausted. split; [done|by apply hbind_stop]. }
      exists code. split; [done|by apply hbind_stop].
    + exists Code_ResourceExhausted. split; [done|]. apply hbind_stop. unfold fork_logs.
      rewrite (hbind_step _ _ _ _ _ He), (hbind_step _ _ _ _ _ Hp). by apply hbind_stop.
Qed.
End Claims.

(** C33: the rollup of markers whose fields are 64-bit integers is again made
    of such integers and starts at or before its end, also after the cursor of
    the collection replaced its start, so that the marker written for it can be
    read back as one. *)
Theorem rollup_typed parts c r x :
  Forall marker_u64 (markers_of parts) -> is_u64 (offset (cursor_position (Cursors.witness_cursor x))) ->
  finish_rollup (add_fragments parts RollupTransientState_default) !! c = Some r ->
  let r' := RollupPerCollection.witness_cursor (Some x) r in
  rollup_u64 r /\ marker_u64 (RollupPerCollection.dirty_marker c r) /\
  rollup_u64 r' /\ marker_u64 (RollupPerCollection.dirty_marker c r').
Proof.
  intros Hms Hx Hr r'. rewrite (finish_rollup_spec parts) in Hr by (done || by apply markers_counts_ok).
  case_bool_decide; [done|]. apply summary_u64 in Hr; [|done]. pose proof (witness_cursor_u64 x r Hx Hr) as Hr'.
  split_and!; [done|by apply dirty_marker_u64|done|by apply dirty_marker_u64].
Qed.

(** Two marks of one collection, whose second one reaches the largest offset. *)
Lemma rollup_typed_witness :
  let parts := [[(from_offset 1, DirtyMark 7 5 3 0 9)]; [(from_offset 2, DirtyMark 7 u64_max 4 1 8)]] in
  rollup_u64 (mkRollup (from_offset 5) (from_offset u64_max) 1 8).
Proof.
  intros parts.
  apply (rollup_typed parts 7 _ (mkWitness (mkETag "t") (mkCursor (from_offset 6) 1 "w"))).
  - repeat constructor; cbn; unfold is_u64, u64_max; lia.
  - cbn. unfold is_u64, u64_max. lia.
  - vm_compute. reflexivity.
Defined.

(** ** Handles of the open logs *)

(** C32: however threads create, get, clone and drop handles, two live handles
    of one key share one state, which is the state in the table, and live
    handles of different keys share none. *)
Theorem handles_share_state {K} `{Countable K} finished (t : StateHashTable K) h h' x x' :
  rtc (tstep finished) StateHashTable_new t -> live t h x -> live t h' x' ->
  (h_key x = h_key x' <-> h_value x = h_value x') /\ entries t !! h_key x = Some (h_value x) /\
  is_same x x' = bool_decide (h_key x = h_key x').
Proof.
  intros Hok%treachable_ok Hl Hl'. pose proof (ok_live t Hok _ _ Hl) as He. pose proof (ok_live t Hok _ _ Hl') as He'.
  assert (h_key x = h_key x' <-> h_value x = h_value x') as Hiff.
  { split; [intros Hk; rewrite Hk in He; congruence|]. intros Hv. rewrite Hv in He. by eapply (ok_inj t Hok). }
  split_and!; [done..|]. unfold is_same. repeat case_bool_decide; try done; tauto.
Qed.

(** One thread opens a state and clones its handle; the bodies of the two
    drops run before either handle is released. *)
Definition drops_interleaved : StateHashTable Z :=
  let all := fun _ : nat => true in
  let t := (create_state 1 StateHashTable_new).2 in
  let t := (clone_handle 0 t).2 in
  let t := drop_body all 1 (drop_body all 0 t) in
  drop_fields 1 (drop_fields 0 t).

(** C40: handles that are dropped one after the other leave no finished state
    in the table, but two drops that interleave do: neither is the last one
    when it looks, and the state stays without a handle. *)
Theorem interleaved_drops_leak :
  (forall (t : StateHashTable Z) h x, table_ok t -> none_dropping t -> no_idle t -> live t h x ->
     no_idle (drop_now (fun _ => true) h t)) /\
  rtc (tstep (fun _ => true)) StateHashTable_new drops_interleaved /\
  handles drops_interleaved = ∅ /\ entries drops_interleaved = {[ 1 := 0%nat ]}.
Proof.
  split; [intros t h x Hok Hnd Hni Hl; by apply (drop_now_no_idle h x t)|]. split_and!; [|reflexivity..].
  eapply rtc_l; [apply (ts_create _ 1)|]. eapply rtc_l; [by apply (ts_clone _ 0 (mkHandle 1 0%nat false))|].
  eapply rtc_l; [by apply (ts_drop _ 0 (mkHandle 1 0%nat false))|].
  eapply rtc_l; [by apply (ts_drop _ 1 (mkHandle 1 0%nat false))|].
  eapply rtc_l; [by apply (ts_release _ 0 (mkHandle 1 0%nat true))|].
  eapply rtc_l; [by apply (ts_release _ 1 (mkHandle 1 0%nat true))|]. reflexivity.
Qed.

(** ** The run of the server *)

Import IntSetsum ServiceSample.

(** The rollup when the first fragment of the dirty log cannot be read. *)
Definition failing : world := with_script [MemStore.Works; MemStore.Works; MemStore.Lost] filled.
Definition half_rolled := roll_dirty_log FUEL failing.
(** The next one, with every request served. *)
Definition rolled_again := roll_dirty_log FUEL half_rolled.2.

#[local] Instance sample_laws : HasServerLaws has_server.
Proof. by constructor. Qed.

(** The dirty log of the filled server. *)
Definition dirty_writer : LogWriter := default (mkLogWriter options "" "" EpochWriter_default) (dirty_log (server filled)).




(** The same server when a read of the dirty log fails once: the rollup succeeds
    and leaves out the first collection, and so does the next one, when every
    read succeeds. *)
Lemma half_rolled_ok : half_rolled.1 = Ret (Ok tt).
Proof. vm_compute. reflexivity. Qed.

Lemma half_rolled_need :
  bool_decide (is_Some (need_to_compact (server rolled.2) !! id_a)) = true /\
  bool_decide (is_Some (need_to_compact (server half_rolled.2) !! id_b)) = true /\
  need_to_compact (server half_rolled.2) !! id_a = None /\
  rolled_again.1 = Ret (Ok tt) /\ need_to_compact (server rolled_again.2) !! id_a = None.
Proof. split_and!; vm_compute; reflexivity. Qed.

Lemma failing_dirty : dirty_log (server failing) = Some dirty_writer.
Proof. vm_compute. reflexivity. Qed.

Lemma roll_failing : roll_dirty_log FUEL failing = (Ret (Ok tt), half_rolled.2).
Proof. rewrite <- half_rolled_ok. apply surjective_pairing. Qed.

Lemma failed_read_loses_markers_witness :
  (bool_decide (is_Some (need_to_compact (server rolled.2) !! id_a)) = true /\
   bool_decide (is_Some (need_to_compact (server half_rolled.2) !! id_b)) = true /\
   need_to_compact (server half_rolled.2) !! id_a = None /\
   rolled_again.1 = Ret (Ok tt) /\ need_to_compact (server rolled_again.2) !! id_a = None) /\
  exists last, cursor_at dirty_writer (LogPosition.add last 1) (objects half_rolled.2).
Proof.
  split; [exact half_rolled_need|].
  destruct (failed_read_loses_markers (rely := eq) FUEL dirty_writer failing half_rolled.2 failing_dirty roll_failing)
    as [H|(from & frags & parts & w1 & w2 & last & _ & _ & _ & _ & H & _)].
  - destruct half_rolled_need as (_ & Hb & _). rewrite H in Hb. discriminate Hb.
  - exists last. exact H.
Defined.


(** What the dirty log of the filled server says. *)
Definition coalesced := read_and_coalesce_dirty_log FUEL dirty_writer filled.
Definition coalesced_rollup : Rollup :=
  match coalesced.1 with
  | Ret (Ok r) => r
  | _ => mkServiceRollup None Cursor_default (from_offset 0) ∅
  end.

Lemma coalesced_ok : coalesced.1 = Ret (Ok coalesced_rollup).
Proof. vm_compute. reflexivity. Qed.

Lemma coalesce_filled : read_and_coalesce_dirty_log FUEL dirty_writer filled = (Ret (Ok coalesced_rollup), coalesced.2).
Proof. rewrite <- coalesced_ok. apply surjective_pairing. Qed.

Lemma dirty_rollup_exact_witness :
  is_Some (ru_rollups coalesced_rollup !! id_a) /\
  (ru_rollups coalesced_rollup = ∅ \/
   exists parts : list (list (LogPosition * DirtyMarker)), forall x, x ∈ concat parts -> offset x.1 <= offset (last_record_witnessed coalesced_rollup)).
Proof.
  split; [apply (bool_decide_unpack _); vm_compute; exact I|].
  destruct (dirty_rollup_exact FUEL dirty_writer filled coalesced_rollup coalesced.2 coalesce_filled)
    as [H|(frags & parts & w1 & w2 & _ & _ & H & _)]; [left; exact H|right; exists parts; exact H].
Defined.

Definition pulled_records : list LogRecord :=
  match pulled.1 with
  | Ret (Ok l) => l
  | _ => []
  end.
Definition request_a : PullLogsRequest := mkPullLogsRequest (name id_a) 1 2.

Lemma pulled_ok : pulled.1 = Ret (Ok pulled_records).
Proof. vm_compute. reflexivity. Qed.

Lemma pull_filled : pull_logs FUEL request_a filled = (Ret (Ok pulled_records), pulled.2).
Proof. rewrite <- pulled_ok. apply surjective_pairing. Qed.

Lemma name_a : uuid_from_str (name id_a) = Some id_a.
Proof. vm_compute. reflexivity. Qed.

Lemma pull_logs_exact_witness :
  log_offset <$> pulled_records = [1; 2] /\ Z.of_nat (length pulled_records) = 2.
Proof.
  split; [vm_compute; reflexivity|].
  destruct (pull_logs_exact FUEL request_a id_a pulled_records filled pulled.2 name_a) as [H _];
    [cbn; lia|cbn; lia|exact pull_filled|exact H].
Defined.

(** The cursor of the first collection, before and after it is moved. *)
Lemma tagged_rolled : tagged HashStore.content (objects rolled.2).
Proof. apply tagged_iff. apply (bool_decide_unpack _). vm_compute. exact I. Qed.

Lemma digits_hex (s : Setsum) : string_forall is_hex_digit (hexdigest s) = true.
Proof. assert (forall p, string_forall is_hex_digit (pos_digest p) = true) as Hp by (by induction p). by destruct s; cbn; rewrite ?Hp. Qed.

Lemma updated_ok : updated.1 = Ret (Ok tt).
Proof. vm_compute. reflexivity. Qed.

Lemma update_never_goes_back_witness :
  updated.1 = Ret (Ok tt) /\ reached id_a (u64_wrap (i64_wrap (1 + 1))) (objects updated.2).
Proof.
  split; [exact updated_ok|].
  destruct (update_never_goes_back (rely := eq) FUEL HashStore.content id_a (name id_a) 1 rolled.2 updated.1 updated.2)
    as [_ H]; [exact service_tags|intros m m' <-; reflexivity|exact digits_hex|exact name_a|exact tagged_rolled
              |apply surjective_pairing|exact (H updated_ok)].
Defined.

(** A request to a server under backpressure. *)
Lemma pressed_filled : id_a ∈ backpressure (server (set_server (set_backpressure [id_a] (server filled)) filled)).
Proof. rewrite server_set. cbn. set_solver. Qed.

Lemma writes_are_guarded_witness :
  exists code, code <> Code_Ok /\
    handle FUEL (Push (name id_a) []) (set_server (set_backpressure [id_a] (server filled)) filled) =
    (Ret (Err code), set_server (set_backpressure [id_a] (server filled)) filled).
Proof.
  destruct (writes_are_guarded FUEL (Push (name id_a) []) (set_server (set_backpressure [id_a] (server filled)) filled)) as [_ H].
  exact (H (name id_a) id_a eq_refl name_a pressed_filled).
Defined.

(** Two handles of one key and one of another. *)
Definition shared : StateHashTable Z := (create_state 2 (get_state 1 (create_state 1 StateHashTable_new).2).2).2.

Lemma handles_share_state_witness :
  live shared 0 (mkHandle 1 0%nat false) /\ live shared 1 (mkHandle 1 0%nat false) /\
  entries shared !! 1 = Some 0%nat.
Proof.
  split; [done|]. split; [done|].
  destruct (handles_share_state (fun _ => true) shared 0 1 (mkHandle 1 0%nat false) (mkHandle 1 0%nat false)) as (_ & H & _);
    [|done|done|exact H].
  eapply rtc_l; [apply (ts_create _ 1)|]. eapply rtc_l; [apply (ts_get _ 1)|]. eapply rtc_l; [apply (ts_create _ 2)|]. reflexivity.
Defined.
