(* ===== verification/BlockstoreProps.v ===== *)
(** * Properties of blockfiles

    What a blockfile promises: the writer is a map, a commit keeps it, a reader
    of the committed blockfile answers as the map would, and blocks stay within
    their bound.  The exceptions that the code has are stated with them. *)

From stdpp Require Import sorting.
From S2P Require Import Prelude Setsum Storage Types BTree BlockKey SparseIndex BlockDelta Block Blockfile Root.
From S2P Require Import BlockFacts DeltaFacts IndexFacts BlockfileFacts BlockfileOps BlockfileCommit BlockfileReads RootFacts Sessions Instances BlockfileApi ArrowApi.

#[local] Open Scope Z_scope.

(** ** A manager of blocks in memory *)

Section Memory.
Context {K V : Type}.

Definition memory (m : gmap Uuid (Block K V)) : BlockManager K V := {|
  blocks_world := unit;
  get_block _ id s := (match m !! id with Some b => Ok (Some b) | None => Err BlockLoadError end, s);
  is_cached _ s := (false, s);
|}.

Lemma memory_laws (m : gmap Uuid (Block K V)) path :
  map_Forall (fun id b => block_id b = id) m -> BlockManagerLaws (memory m) path (fun id => m !! id).
Proof.
  intros Hm. constructor.
  - intros id w r w'. cbn. destruct (m !! id) as [b|] eqn:Hb; [|done]. by intros [= <- _].
  - intros id r Hr. by apply Hm.
  - intros id w w'. cbn. by destruct (m !! id).
Qed.
End Memory.

(** ** Sessions *)

Section Claims.
Context {UU : Uuids} {UL : UuidLaws UU}.
Context {K V : Type} {KK : Key K} {VV : Value V} {KL : KeyLaws K} {VL : ValueLaws V}.
Context (new_v4 : nat -> Uuid) `{new_v4_inj : !Inj (=) (=) new_v4}.


(** C22: A commit keeps what the writer holds: in whatever order the deltas are
    drained, the committed index has the rows of the writer, lists each block
    with the number of its rows, names as blocks to flush exactly the changed
    ones that stay, and keeps an empty block only as the last one; it can fail
    only for a blockfile of the first version, whose blocks must be counted. *)
Theorem commit_exact (BM : BlockManager K V) path stored (BML : BlockManagerLaws BM path stored)
    (w : BlockfileWriter K V) order s :
  writer_ok new_v4 path stored w -> drains w order ->
  match commit order w s with
  | (Ok f, _) => committed stored w f
  | (Err e, _) => root_version (root w) = V1 /\ migration_error e
  end.
Proof. intros Hw Ho. by eapply commit_spec. Qed.

(** A session on a new blockfile and its commit. *)
Lemma session_commits (BM : BlockManager K V) path id max next (ops : list (Op K V)) s rs w s1 order :
  BlockManagerLaws BM path (fun _ => None) -> 0 <= max < 2 ^ 64 -> Forall (op_fits max) ops ->
  run_ops new_v4 ops (Blockfile_new new_v4 id path max next) s = (Ok rs, w, s1) -> drains w order ->
  exists f s2, commit order w s1 = (Ok f, s2) /\ writer_ok new_v4 path (fun _ => None) w /\ committed (fun _ => None) w f /\
    contents (fun _ => None) w = (map_ops ops []).2 /\ prefix_path (flush_root f) = path /\ root_id (flush_root f) = id /\
    max_block_size_bytes (flush_root f) = max /\
    (forall d, d ∈ (forward (sparse_index (flush_root f))).*1 -> d = Start \/ exists o, o ∈ ops /\ d = DelimiterKey (op_key o)).
Proof.
  intros BML Hmax Hfit Hrun Hdr. set (w0 := Blockfile_new new_v4 id path max next) in *.
  destruct (new_writer_ok new_v4 path (fun _ => None) id max next) as [Hw0 Hc0]; [lia|].
  pose proof (run_ops_spec new_v4 path (fun _ => None) ops w0 s Hw0 Hfit) as Hspec. rewrite Hrun in Hspec.
  destruct Hspec as (Hw & Hm & (Hd & Hv & Hmx & Hid)). fold w0 in Hc0. rewrite Hc0 in Hm.
  pose proof (commit_spec new_v4 path (fun _ => None) w order s1 Hw Hdr) as Hcom.
  destruct (commit order w s1) as [[f|e] s2]; [|destruct Hcom as [He _]; rewrite Hv in He; done].
  exists f, s2. split_and!; [done..| | | | |].
  - by rewrite <- Hm.
  - rewrite (c_path _ _ _ Hcom). apply Hw.
  - by rewrite (c_id _ _ _ Hcom), Hid.
  - by rewrite (c_max _ _ _ Hcom), Hmx.
  - intros d Hdin. apply (c_index _ _ _ Hcom) in Hdin as [->|Hdin]; [by left|]. apply Hd in Hdin as [Hdin|(k & -> & Hk)].
    + left. cbn in Hdin. by apply list_elem_of_singleton in Hdin as ->.
    + right. fold w0 in Hk. rewrite Hc0 in Hk. destruct Hk as [Hk|Hk]; [by apply elem_of_nil in Hk|].
      apply list_elem_of_fmap in Hk as (o & -> & Ho). by exists o.
Qed.

(** C9: What is written can be read: after any session on a new blockfile whose
    values fit and whose prefixes are not the text of the sentinel, the commit
    succeeds, the root that is written reads back, and a reader of it, over any
    manager that has the flushed blocks, finds under every key what the map of
    the session has, or fails to fetch a block. *)
Theorem blockfile_reopens (BM : BlockManager K V) path id max next default_max (ops : list (Op K V)) s rs w s1 order :
  BlockManagerLaws BM path (fun _ => None) -> 0 <= max < 2 ^ 64 -> Forall (op_fits max) ops ->
  Forall (fun o => prefix (op_key o) <> "START"%string) ops ->
  run_ops new_v4 ops (Blockfile_new new_v4 id path max next) s = (Ok rs, w, s1) -> drains w order ->
  exists f s2 batch r,
    commit order w s1 = (Ok f, s2) /\ root_to_batch (flush_root f) = Ok batch /\
    root_from_batch batch path id default_max = Ok r /\
    (forall BM' : BlockManager K V, BlockManagerLaws BM' path (flushed (fun _ => None) f) ->
     forall p k s', match reader_get p k (Reader_new r) s' with
                    | (Ok v, _, _) => v = bt_get (mkCompositeKey p k) (map_ops ops []).2
                    | (Err e, _, _) => exists g, e = BlockFetchError g
                    end).
Proof.
  intros BML Hmax Hfit Hstart Hrun Hdr.
  destruct (session_commits BM path id max next ops s rs w s1 order BML Hmax Hfit Hrun Hdr) as (f & s2 & Hc & Hw & Hcom & Hm & Hpath & Hroot & Hmx & Hd).
  rewrite Hc. destruct (root_roundtrip (flush_root f) default_max) as (batch & Hto & Hfrom & _).
  - apply (c_index _ _ _ Hcom).
  - by apply (counts_length _ _ _ Hcom).
  - apply Forall_forall. intros [d i] Hin. cbn. destruct (Hd d) as [->|(o & Ho & ->)]; [|done|].
    + apply list_elem_of_fmap. by exists (d, i).
    + cbn. rewrite Forall_forall in Hstart. by apply Hstart.
  - by rewrite Hmx.
  - rewrite Hpath, Hroot in Hfrom. do 4 eexists. split_and!; [reflexivity|exact Hto|exact Hfrom|].
    intros BM' BML' p k s'. set (r := Reader_new _).
    assert (reader_ok path (flushed (fun _ => None) f) r) as Hr.
    { constructor; [by apply (reopened_blocks new_v4 path _ w f Hw Hcom)|done|]. intros i b. cbn. by rewrite lookup_empty. }
    pose proof (get_reads path (flushed (fun _ => None) f) p k r s' Hr) as Hget.
    destruct (reader_get p k r s') as [[[v|e] r'] s'']; [|by destruct Hget]. destruct Hget as [-> _].
    unfold reader_contents, r. cbn [read_root Reader_new reader_index]. rewrite (reopened_contents new_v4 path _ w f Hw Hcom). by rewrite <- Hm.
Qed.

(** C23: A query of a reader selects exactly what a scan of all rows would: a
    range query returns the rows whose prefix and key are within the bounds, in
    order, and a prefix query the keys and values of the prefix, although they
    search only some blocks and those by binary search; a query fails only when
    a block cannot be fetched. *)
Theorem range_queries_exact (BM : BlockManager K V) path stored (BML : BlockManagerLaws BM path stored)
    (r : BlockfileReader K V) s plo phi lo hi p :
  reader_ok path stored r ->
  match reader_get_range plo phi lo hi r s with
  | (Ok l, r', _) => reader_ok path stored r' /\
      l = List.filter (fun x => in_bounds plo phi (prefix x.1) && in_bounds lo hi (key x.1)) (reader_contents stored r)
  | (Err e, _, _) => exists g, e = BlockFetchError g
  end /\
  match reader_get_prefix p r s with
  | (Ok l, r', _) => reader_ok path stored r' /\
      l = (fun x => (key x.1, x.2)) <$> List.filter (fun x => String.eqb (prefix x.1) p) (reader_contents stored r)
  | (Err e, _, _) => exists g, e = BlockFetchError g
  end.
Proof.
  intros Hr. pose proof (get_range_reads path stored plo phi lo hi r s Hr) as H1. pose proof (get_prefix_reads path stored p r s Hr) as H2. split.
  - destruct (reader_get_range plo phi lo hi r s) as [[[l|e] r'] s']; by destruct H1 as (? & ? & _).
  - destruct (reader_get_prefix p r s) as [[[l|e] r'] s']; by destruct H2 as (? & ? & _).
Qed.

(** C24: From version 1.1 on the rank of a key is the number of rows below it,
    wherever its block is, as long as there are fewer than 2^32 rows, and the
    count is the number of all rows.  A reader of the first version leaves out
    the rows of the block just before the one of the key, so its rank is too
    small whenever that block is not empty. *)
Theorem rank_counts_smaller (BM : BlockManager K V) path stored (BML : BlockManagerLaws BM path stored)
    (r : BlockfileReader K V) s p k :
  reader_ok path stored r -> (counted_version (read_root r) = true -> counts_ok stored (read_root r)) ->
  Z.of_nat (length (reader_contents stored r)) < 2 ^ 32 ->
  let below := Z.of_nat (length (List.filter (fun x => ltb x.1 (mkCompositeKey p k)) (reader_contents stored r))) in
  match reader_rank p k r s with
  | (Ok n, _, _) =>
      if counted_version (read_root r) then n = below
      else exists l1 d v l2, reader_index (read_root r) = l1 ++ (d, v) :: l2 /\ inside d l2 (mkCompositeKey p k) /\
             n = below - match last l1 with Some x => Z.of_nat (length (stored_rows stored (siv_id x.2))) | None => 0 end
  | (Err e, _, _) => exists g, e = BlockFetchError g
  end /\
  match reader_count r s with
  | (Ok n, _, _) => n = Z.of_nat (length (reader_contents stored r))
  | (Err e, _, _) => exists g, e = BlockFetchError g
  end.
Proof.
  intros Hr Hc Hlen below. split.
  - pose proof (rank_reads path stored p k r s Hr Hc) as Hk. cbn in Hk. fold below in Hk.
    destruct (reader_rank p k r s) as [[[n|e] r'] s']; [|by destruct Hk]. destruct Hk as ((l1 & d & v & l2 & Hi & Hin & ->) & _).
    assert (0 <= total stored l1 < 2 ^ 32) as Ht.
    { split; [unfold total; lia|]. eapply Z.le_lt_trans; [|exact Hlen]. unfold total, reader_contents. rewrite Hi. unfold index_view.
      rewrite fmap_app, rows_in_app, length_app. lia. }
    destruct (counted_version (read_root r)); [rewrite Z.mod_small by done; lia|]. exists l1, d, v, l2. split_and!; [done..|].
    destruct l1 as [|x l1 _] using rev_ind; [cbn; lia|]. rewrite last_snoc, length_app. cbn [length].
    replace (length l1 + 1 - 1)%nat with (length l1) by lia. rewrite take_app_length. unfold total, index_view.
    rewrite fmap_app, rows_in_app, length_app. destruct x as [dx vx]. cbn [fmap list_fmap fst snd]. rewrite rows_in_cons, length_app. cbn [rows_in].
    change (rows_in []) with (@nil (CompositeKey K * V)). cbn [length]. lia.
  - pose proof (count_reads path stored r s Hr Hc) as Hk. destruct (reader_count r s) as [[[n|e] r'] s']; [|by destruct Hk].
    destruct Hk as [-> _]. destruct (counted_version (read_root r)); [|done]. apply Z.mod_small. lia.
Qed.

(** The rows of a delta are rows of the writer. *)
Lemma delta_in_contents path stored (w : BlockfileWriter K V) id st d x :
  writer_ok new_v4 path stored w -> block_deltas w !! id = Some st -> reverse (index w) !! id = Some d ->
  x ∈ storage st -> x ∈ contents stored w.
Proof.
  intros Hw Hst Hd Hx. apply (w_index _ _ _ _ Hw) in Hd. unfold contents, rows_in.
  rewrite list_elem_of_In, in_concat. exists (storage st). rewrite <- !list_elem_of_In. split; [|done].
  unfold view_of. rewrite <- list_fmap_compose. apply list_elem_of_fmap. exists (d, id). split; [|done]. cbn. unfold rows_of. by rewrite Hst.
Qed.

(** C25: When no entry takes more than half a block, no set makes a block larger
    than the limit, also when it splits blocks. *)
Theorem set_bounds_blocks {SL : SizeLaws K V} (BM : BlockManager K V) path stored (BML : BlockManagerLaws BM path stored)
    (w : BlockfileWriter K V) s p k v w' s' :
  writer_ok new_v4 path stored w ->
  Forall (fun x => split_rows_size [x] <= max_block_size_bytes (root w) / 2) ((mkCompositeKey p k, v) :: contents stored w) ->
  (forall id st, block_deltas w !! id = Some st -> storage_size st <= max_block_size_bytes (root w)) ->
  set new_v4 p k v w s = (Ok tt, w', s') ->
  forall id st, block_deltas w' !! id = Some st -> storage_size st <= max_block_size_bytes (root w').
Proof.
  intros Hw Hsmall Hold Hset id st Hst. pose proof Hsmall as [Hkv Hc]%Forall_cons. set (max := max_block_size_bytes (root w)) in *.
  assert (fits max (mkCompositeKey p k, v)) as Hfit.
  { unfold fits. pose proof (rows_size_le [(mkCompositeKey p k, v)]). pose proof (Z.mul_div_le max 2). pose proof (w_max _ _ _ _ Hw). fold max in H1. lia. }
  pose proof (set_spec new_v4 path stored w s p k v Hw Hfit) as Hspec. rewrite Hset in Hspec.
  destruct Hspec as (Hw' & Hc' & Hg & (_ & _ & Hmax & _)). rewrite Hmax. fold max.
  destruct (Hg id st Hst) as [Ho|Hb]; [by apply (Hold id)|]. destruct (w_deltas _ _ _ _ Hw' id st Hst) as [Hok [d Hd]].
  rewrite (storage_size_rows st Hok). apply bounded_size; [done|].
  assert (Forall (fun x => split_rows_size [x] <= max / 2) (contents stored w')) as Hall.
  { rewrite Hc'. apply bt_insert_forall; done. }
  rewrite Forall_forall in Hall. apply Forall_forall. intros x Hx. apply Hall. by apply (delta_in_contents path stored w' id st d).
Qed.

(** The lists of blocks to fetch ahead are exact: for keys they are, in the
    order of the index, the blocks that a lookup of some key would search, and
    for prefixes the blocks that a query of some prefix would search. *)
Theorem prefetch_lists_exact (idx : SparseIndexReader K) (ks : list (CompositeKey K)) (ps : list string) :
  bt_sorted idx -> (exists v rest, idx = (Start, v) :: rest) ->
  sublist (get_all_target_block_ids ks idx) ((fun x => siv_id x.2) <$> idx) /\
  forall id,
    (id ∈ get_all_target_block_ids ks idx <-> exists k, k ∈ ks /\ reader_target_block_id k idx = Some id) /\
    (id ∈ get_block_ids_for_prefixes ps idx <-> exists p, p ∈ ps /\ id ∈ get_block_ids_range (Included p) (Included p) idx).
Proof.
  intros Hs (v & rest & Hst). split; [apply all_targets_sublist|]. intros id. split.
  - unfold get_all_target_block_ids. rewrite all_targets_spec; [|done|apply sort_ascending|].
    + split; intros (k & Hk & Hl); exists k; (split; [by apply sort_elem|]); [by apply listed_target|by apply target_listed].
    + rewrite Hst. apply Forall_forall. done.
  - unfold get_block_ids_for_prefixes. rewrite prefix_ids_spec; [|done|apply sort_ascending].
    split; intros (p & Hp & Hl); exists p; (split; [by apply sort_elem|]); by apply single_prefix_range.
Qed.

(** Arrow blockfiles whose values have one column keep the laws of the
    interface of writers, commits and readers: behind these operations, a writer
    whose blocks have at most [max] bytes is an ordered map for values that fit,
    a commit flushes exactly its rows, and a reader of a blockfile from version
    1.1 on answers lookups, ranges, counts and ranks as the map does; calls that
    fail change no row.  Data records, whose storage has several columns, and the
    providers that open what was flushed are not covered. *)
Theorem arrow_blockfiles_lawful (BM : BlockManager K V) path stored (BML : BlockManagerLaws BM path stored) order max :
  (forall w, drains w (order w)) ->
  WriterLaws (arrow_writer_api new_v4) (arrow_ok new_v4 path stored max) (arrow_rows stored) (arrow_fit max) /\
  CommitLaws (arrow_commit order) (arrow_ok new_v4 path stored max) (arrow_rows stored) (flushed_rows stored) /\
  ReaderLaws arrow_reader_api (arrow_reads path stored).
Proof. intros Hord. split_and!; [by apply arrow_writer_laws|by apply arrow_commit_laws|by apply arrow_reader_laws]. Qed.

(** C35: A blockfile one of whose blocks starts at a key with the prefix START
    cannot be opened again without loss: after any session on a new blockfile
    whose values fit, if the committed index has such a block, the root is
    written and read without error, the first block is not empty, and under no
    key of the first block, which the session had written, does a reader, over
    any manager that has the flushed blocks, find a value: the text of the
    sentinel is the prefix of the key, so the block of the key takes the place
    of the first one in the index that is read. *)
Theorem start_prefix_loses_block (BM : BlockManager K V) path id max next default_max (ops : list (Op K V)) s rs w s1 order f s2 k0 :
  BlockManagerLaws BM path (fun _ => None) -> 0 <= max < 2 ^ 64 -> Forall (op_fits max) ops ->
  run_ops new_v4 ops (Blockfile_new new_v4 id path max next) s = (Ok rs, w, s1) -> drains w order ->
  commit order w s1 = (Ok f, s2) ->
  DelimiterKey k0 ∈ (forward (sparse_index (flush_root f))).*1 -> prefix k0 = "START"%string ->
  exists batch r first,
    root_to_batch (flush_root f) = Ok batch /\ root_from_batch batch path id default_max = Ok r /\
    bt_get Start (forward (sparse_index (flush_root f))) = Some first /\
    stored_rows (flushed (fun _ => None) f) first <> [] /\
    forall p k, mkCompositeKey p k ∈ (stored_rows (flushed (fun _ => None) f) first).*1 ->
      is_Some (bt_get (mkCompositeKey p k) (map_ops ops []).2) /\
      forall BM' : BlockManager K V, BlockManagerLaws BM' path (flushed (fun _ => None) f) ->
      forall s' v r' s'', reader_get p k (Reader_new r) s' <> (Ok (Some v), r', s'').
Proof.
  intros BML Hmax Hfit Hrun Hdr Hcommit Hk0 Hp0.
  destruct (session_commits BM path id max next ops s rs w s1 order BML Hmax Hfit Hrun Hdr) as (f' & s2' & Hc & Hw & Hcom & Hm & Hpath & Hroot & Hmx & _).
  rewrite Hcommit in Hc. injection Hc as <- <-.
  destruct (root_reads (flush_root f) default_max) as (batch & Hto & Hfrom & _); [by apply (counts_length _ _ _ Hcom)|by rewrite Hmx|].
  rewrite Hpath, Hroot in Hfrom. destruct (ok_start _ (proj1 (c_index _ _ _ Hcom))) as (i0 & fwd' & Hfwd).
  assert (DelimiterKey k0 ∈ fwd'.*1) as Hk' by (rewrite Hfwd in Hk0; cbn in Hk0; set_solver).
  eexists batch, _, i0. split_and!; [exact Hto|exact Hfrom|by rewrite Hfwd| |].
  - eapply (first_nonempty new_v4 path _ w f Hw Hcom); [exact Hfwd|exact Hk'|done].
  - intros p k Hk. split.
    + rewrite <- Hm. eapply (first_contents new_v4 path _ w f Hw Hcom); [exact Hfwd|exact Hk].
    + intros BM' BML' s' v r' s''. eapply (first_not_found new_v4 path _ w f Hw Hcom); [exact Hfwd|exact Hk'|exact Hp0|exact BML'|exact Hk].
Qed.

(** C36: Entries larger than half a block break what blocks promise.  Take a
    set that makes a block, whose rows are then [l0 ++ x :: l], too large, where
    [x] is the first row after which the size is above half.  When all entries
    fit, the split succeeds; it keeps [x] in the lower block, which is larger
    than the limit whenever the rows up to [x] are; and when [x] is the last row
    the tracker of its new block counts no item, although the block has one.
    When the last row alone is larger than a block, the set panics. *)
Theorem large_entries_break_blocks `{SM : !SizeMono K V} (BM : BlockManager K V) path stored (BML : BlockManagerLaws BM path stored)
    (w : BlockfileWriter K V) s p k v target st l0 x l :
  writer_ok new_v4 path stored w ->
  get_target_block_id (mkCompositeKey p k) (index w) = Some target -> block_deltas w !! target = Some st ->
  let max := max_block_size_bytes (root w) in
  let grown := storage_add (mkCompositeKey p k) v st in
  storage grown = l0 ++ x :: l ->
  (fits max (mkCompositeKey p k, v) -> crosses (max / 2) l0 x -> max < rows_size (storage grown) ->
     exists w', set new_v4 p k v w s = (Ok tt, w', s) /\
       match l with
       | [] => exists high, block_deltas w' !! new_v4 (next_uuid w) = Some high /\ storage high = [x] /\
                 (num_items (size_tracker grown) = Z.of_nat (length (storage grown)) -> num_items (size_tracker high) = 0)
       | _ => exists low, block_deltas w' !! target = Some low /\ storage low = l0 ++ [x] /\ storage_size low = rows_size (l0 ++ [x])
       end) /\
  (l = [] -> max < rows_size [x] -> (set new_v4 p k v w s).1.1 = Err Panic).
Proof.
  intros Hw Ht Hst max grown Hl. destruct (w_deltas _ _ _ _ Hw target st Hst) as [Hok [d Hd]].
  pose proof (storage_add_ok (mkCompositeKey p k) v st Hok) as Hg. fold grown in Hg.
  assert (max < rows_size (storage grown) -> set new_v4 p k v w s =
    match delta_split new_v4 max (next_uuid w) (mkDelta grown target) with
    | None => (Err Panic, mkWriter (<[target := grown]> (block_deltas w)) (root w) (next_uuid w), s)
    | Some (self, new_blocks, next) => (publish_split [] self new_blocks next w, s)
    end) as Hset.
  { intros Hbig. unfold set. rewrite Ht, Hst. unfold delta_size. cbn [delta_add builder delta_id]. fold grown. rewrite (storage_size_rows _ Hg). fold max.
    destruct (Z.ltb_spec max (rows_size (storage grown))); [done|lia]. }
  split.
  - intros Hfit Hx Hbig. pose proof (set_spec new_v4 path stored w s p k v Hw Hfit) as Hspec. rewrite (Hset Hbig) in Hspec |- *. clear Hset.
    assert (Forall (fits max) (storage grown)) as Hfits.
    { unfold grown. rewrite storage_add_rows by apply Hok. apply bt_insert_forall; [done|]. pose proof (w_fits _ _ _ _ Hw) as Hf.
      rewrite Forall_forall in Hf. apply Forall_forall. intros y Hy. apply Hf. by apply (delta_in_contents path stored w target st d). }
    destruct (delta_split_spec new_v4 max (w_max _ _ _ _ Hw) (next_uuid w) (mkDelta grown target)) as (self & nb & next & k0 & Hsplit & Hid & _); [done| |unfold delta_size; cbn; by rewrite (storage_size_rows _ Hg)|done|].
    { cbn [builder]. rewrite Hl. by destruct l0. }
    rewrite Hsplit in Hspec |- *. unfold publish_split in Hspec |- *.
    destruct (apply_updates _ _ _) as [[[[]|e] i]|]; [|by destruct Hspec as [_ [?|[?|[? ?]]]]..]. eexists. split; [reflexivity|]. cbn [block_deltas]. rewrite Hid. cbn [delta_id].
    destruct (storage_split_crossing (max / 2) grown l0 x l) as (k1 & low & high & Hsp & Hcase); [apply Hg|done|done|].
    unfold delta_split in Hsplit. cbn [builder] in Hsplit. rewrite Hsp in Hsplit. cbn [mbind option_bind] in Hsplit.
    destruct (storage_split_spec (max / 2) grown) as (k2 & low2 & high2 & Hsp2 & _ & Hlow & Hhigh & _); [done| |by rewrite Hl; destruct l0|].
    { assert (max / 2 <= max) by (apply Z.div_le_upper_bound; pose proof (w_max _ _ _ _ Hw); lia). lia. }
    rewrite Hsp in Hsp2. injection Hsp2 as <- <- <-.
    assert (builder self = low) as Hself.
    { destruct (_ <? _); [destruct (split_rest _ _ _ _ _) as [[]|]; [|done]|]; by injection Hsplit as <- _ _. }
    rewrite Hself. destruct l as [|y l].
    + destruct Hcase as (-> & _ & Hhr & Hn). exists high. assert (new_v4 (next_uuid w) <> target) as Hne.
      { intros He. pose proof (w_fresh _ _ _ _ Hw (next_uuid w) ltac:(lia)) as Hfr. rewrite He in Hfr. congruence. }
      assert (fits max x) as Hfx by (rewrite Hl in Hfits; by apply Forall_app in Hfits as [_ [? _]%Forall_cons]). unfold fits in Hfx.
      unfold delta_size in Hsplit. cbn [builder] in Hsplit. rewrite (storage_size_rows _ Hhigh), Hhr in Hsplit.
      destruct (Z.ltb_spec max (rows_size [x])) as [?|_]; [lia|]. injection Hsplit as _ <- _. clearbody grown. cbn.
      rewrite lookup_insert_ne by congruence. rewrite lookup_insert_eq. split_and!; [done|done|]. intros Hitems. rewrite Hn, Hitems, Z.sub_diag. done.
    + destruct Hcase as [Hlr _]. exists low. rewrite lookup_insert_eq. split_and!; [done|done|]. by rewrite (storage_size_rows _ Hlow), Hlr.
  - intros -> Hbig. pose proof (rows_size_suffix l0 [x]) as Hsuf. rewrite Hset by (rewrite Hl; lia).
    by rewrite (delta_split_last new_v4 max x (next_uuid w) (mkDelta grown target) l0 (w_max _ _ _ _ Hw)).
Qed.
End Claims.

(** ** Samples *)

Module BlockSample.
#[local] Open Scope string_scope.

Definition uuids (n : nat) : Uuid := 100 + Z.of_nat n.

#[global] Instance uuids_inj : Inj (=) (=) uuids.
Proof. intros a b. unfold uuids. lia. Qed.

(** Text of a length. *)
Fixpoint text (n : nat) : string := match n with O => "" | S n => String.append "x" (text n) end.

Definition empty_manager : BlockManager string string := memory ∅.

Lemma empty_laws path : BlockManagerLaws empty_manager path (fun _ => None).
Proof. pose proof (memory_laws (K := string) (V := string) ∅ path) as H. apply H. apply map_Forall_empty. Qed.

Definition fresh (max : Z) : BlockfileWriter string string := Blockfile_new uuids 7 "col" max 0.

Definition session (max : Z) (ops : list (Op string string)) : result (list (option string)) BlockfileError * BlockfileWriter string string * unit :=
  run_ops (BM := empty_manager) uuids ops (fresh max) tt.

Definition order_of (w : BlockfileWriter string string) : list Uuid := (map_to_list (block_deltas w)).*1.

Lemma order_drains w : drains w (order_of w).
Proof.
  split; [apply NoDup_fst_map_to_list|]. intros id. unfold order_of. rewrite list_elem_of_fmap. split.
  - intros ([id' st] & -> & Hin%elem_of_map_to_list). by eauto.
  - intros [st Hst]. exists (id, st). split; [done|]. by apply elem_of_map_to_list.
Qed.

Definition ops : list (Op string string) :=
  [OpSet "p" "a" (text 40); OpSet "p" "b" (text 41); OpSet "q" "a" (text 42); OpGet "p" "b"; OpDelete "p" "b"; OpSet "q" "b" (text 3)].

Lemma ops_run : (session 1000 ops).1.1 = Ok [None; None; None; Some (text 41); None; None].
Proof. vm_compute. reflexivity. Qed.

Lemma ops_fit : Forall (op_fits 1000) ops.
Proof. repeat constructor; vm_compute; discriminate. Qed.

Lemma fresh_ok max : 0 <= max -> writer_ok uuids "col" (fun _ => None) (fresh max).
Proof. intros Hmax. by apply (new_writer_ok uuids "col" (fun _ => None) 7 max 0). Qed.

Lemma fresh_contents max : 0 <= max -> contents (fun _ => None) (fresh max) = [].
Proof. intros Hmax. by apply (new_writer_ok uuids "col" (fun _ => None) 7 max 0). Qed.

Lemma session_writer_ok max ops : 0 <= max -> Forall (op_fits max) ops -> writer_ok uuids "col" (fun _ => None) (session max ops).1.2.
Proof.
  intros Hmax Hfit. pose proof (empty_laws "col") as Hl.
  pose proof (run_ops_spec (BM := empty_manager) uuids "col" (fun _ => None) ops (fresh max) tt (fresh_ok max Hmax) Hfit) as Hr.
  fold (session max ops) in Hr. destruct (session max ops) as [[[rs|e] w] []] eqn:He; [by destruct Hr|by destruct Hr].
Qed.

Lemma session_ok : writer_ok uuids "col" (fun _ => None) (session 1000 ops).1.2.
Proof. apply session_writer_ok; [done|apply ops_fit]. Qed.

Lemma all_fit (max : Z) (l : btree (CompositeKey string) string) :
  forallb (fun x => Z.leb (rows_size [x]) max) l = true -> Forall (fits max) l.
Proof. rewrite forallb_forall. intros Hl. apply Forall_forall. intros x Hx. apply Z.leb_le, Hl. by apply list_elem_of_In. Qed.

(** Two blocks and their index. *)
Definition block_a : Block string string := mkBlock [(mkCompositeKey "p" "a", "1"); (mkCompositeKey "q" "a", "2")] 1.
Definition block_b : Block string string := mkBlock [(mkCompositeKey "q" "c", "3")] 2.
Definition blocks : gmap Uuid (Block string string) := {[ 1 := block_a; 2 := block_b ]}.
Definition idx : SparseIndexReader string :=
  [(Start, mkSparseIndexValue 1 2); (DelimiterKey (mkCompositeKey "q" "b"), mkSparseIndexValue 2 1)].
Definition reader (v : Version) : BlockfileReader string string := Reader_new (mkRootReader idx 7 v "col" 1000).

Lemma blocks_laws : BlockManagerLaws (memory blocks) "col" (fun id => blocks !! id).
Proof. apply memory_laws. by apply (bool_decide_unpack _). Qed.

Lemma reader_blocks : blocks_ok (fun id => blocks !! id) idx.
Proof.
  constructor.
  - repeat constructor.
  - by do 2 eexists.
  - cbn. split_and!; repeat constructor.
  - intros d v Hin. unfold idx in Hin. rewrite !elem_of_cons in Hin. destruct Hin as [[= -> ->]|[[= -> ->]|[]%elem_of_nil]]; by eexists.
  - by apply (bool_decide_unpack _).
Qed.

Lemma reader_lawful v : reader_ok "col" (fun id => blocks !! id) (reader v).
Proof. constructor; [apply reader_blocks|done|]. intros id b. cbn. by rewrite lookup_empty. Qed.

Lemma reader_counts v : counts_ok (fun id => blocks !! id) (read_root (reader v)).
Proof.
  intros d x Hin. cbn in Hin. unfold idx in Hin. rewrite !elem_of_cons in Hin.
  destruct Hin as [[= -> ->]|[[= -> ->]|[]%elem_of_nil]]; vm_compute; reflexivity.
Qed.
End BlockSample.

Import BlockSample.

(** ** Witnesses *)


Lemma arrow_blockfiles_lawful_witness :
  WriterLaws (arrow_writer_api (BM := empty_manager) uuids) (arrow_ok uuids "col" (fun _ => None) 1000) (arrow_rows (fun _ => None)) (arrow_fit 1000) /\
  ReaderLaws (arrow_reader_api (BM := empty_manager)) (arrow_reads "col" (fun _ => None)).
Proof.
  destruct (arrow_blockfiles_lawful uuids empty_manager "col" (fun _ => None) (empty_laws "col") order_of 1000 order_drains) as (H1 & _ & H2).
  exact (conj H1 H2).
Defined.

Lemma commit_exact_witness :
  let w := (session 1000 ops).1.2 in
  drains w (order_of w) /\
  match commit (BM := empty_manager) (order_of w) w tt with
  | (Ok f, _) => committed (fun _ => None) w f
  | (Err e, _) => root_version (root w) = V1 /\ migration_error e
  end.
Proof.
  intros w. split; [apply order_drains|].
  apply (commit_exact uuids empty_manager "col" (fun _ => None) (empty_laws "col") w (order_of w) tt); [apply session_ok|apply order_drains].
Defined.

Lemma blockfile_reopens_witness :
  let w := (session 1000 ops).1.2 in
  exists f s2 batch r,
    commit (BM := empty_manager) (order_of w) w (session 1000 ops).2 = (Ok f, s2) /\ root_to_batch (flush_root f) = Ok batch /\
    root_from_batch batch "col" 7 64 = Ok r /\
    (forall BM' : BlockManager string string, BlockManagerLaws BM' "col" (flushed (fun _ => None) f) ->
     forall p k s', match reader_get p k (Reader_new r) s' with
                    | (Ok v, _, _) => v = bt_get (mkCompositeKey p k) (map_ops ops []).2
                    | (Err e, _, _) => exists g, e = BlockFetchError g
                    end).
Proof.
  intros w. eapply (blockfile_reopens uuids empty_manager "col" 7 1000 0 64 ops tt _ w (session 1000 ops).2 (order_of w)).
  - apply empty_laws.
  - done.
  - apply ops_fit.
  - repeat constructor; done.
  - rewrite <- ops_run. unfold w, session. rewrite <- !surjective_pairing. reflexivity.
  - apply order_drains.
Defined.

Lemma range_queries_exact_witness :
  reader_ok "col" (fun id => blocks !! id) (reader V1_2) /\
  (match reader_get_range (BM := memory blocks) (Included "p"%string) (Included "q"%string) (Excluded "a"%string) Unbounded (reader V1_2) tt with
   | (Ok l, r', _) => reader_ok "col" (fun id => blocks !! id) r' /\
       l = List.filter (fun x => in_bounds (Included "p"%string) (Included "q"%string) (prefix x.1) && in_bounds (Excluded "a"%string) Unbounded (key x.1))
             (reader_contents (fun id => blocks !! id) (reader V1_2))
   | (Err e, _, _) => exists g, e = BlockFetchError g
   end /\
   match reader_get_prefix (BM := memory blocks) "q" (reader V1_2) tt with
   | (Ok l, r', _) => reader_ok "col" (fun id => blocks !! id) r' /\
       l = (fun x => (key x.1, x.2)) <$> List.filter (fun x => String.eqb (prefix x.1) "q") (reader_contents (fun id => blocks !! id) (reader V1_2))
   | (Err e, _, _) => exists g, e = BlockFetchError g
   end).
Proof.
  split; [apply reader_lawful|].
  exact (range_queries_exact (memory blocks) "col" (fun id => blocks !! id) blocks_laws (reader V1_2) tt
           (Included "p"%string) (Included "q"%string) (Excluded "a"%string) Unbounded "q" (reader_lawful V1_2)).
Defined.

(** In the first version the rank of a key in the second block is 0, although
    two rows are below it. *)
Lemma rank_counts_smaller_witness :
  (reader_rank (BM := memory blocks) "q" "c" (reader V1_2) tt).1.1 = Ok 2 /\
  (reader_rank (BM := memory blocks) "q" "c" (reader V1) tt).1.1 = Ok 0 /\
  let below := Z.of_nat (length (List.filter (fun x => ltb x.1 (mkCompositeKey "q" "c")) (reader_contents (fun id => blocks !! id) (reader V1)))) in
  match reader_rank (BM := memory blocks) "q" "c" (reader V1) tt with
  | (Ok n, _, _) =>
      if counted_version (read_root (reader V1)) then n = below
      else exists l1 d v l2, reader_index (read_root (reader V1)) = l1 ++ (d, v) :: l2 /\ inside d l2 (mkCompositeKey "q" "c"%string) /\
             n = below - match last l1 with Some x => Z.of_nat (length (stored_rows (fun id => blocks !! id) (siv_id x.2))) | None => 0 end
  | (Err e, _, _) => exists g, e = BlockFetchError g
  end /\
  match reader_count (BM := memory blocks) (reader V1) tt with
  | (Ok n, _, _) => n = Z.of_nat (length (reader_contents (fun id => blocks !! id) (reader V1)))
  | (Err e, _, _) => exists g, e = BlockFetchError g
  end.
Proof.
  split; [vm_compute; reflexivity|]. split; [vm_compute; reflexivity|].
  apply (rank_counts_smaller (memory blocks) "col" (fun id => blocks !! id) blocks_laws (reader V1) tt "q" "c"%string);
    [apply reader_lawful|intros _; apply reader_counts|vm_compute; reflexivity].
Defined.

Lemma set_bounds_blocks_witness :
  let r := set (BM := empty_manager) uuids "p" "a"%string "v"%string (fresh 1000) tt in
  r.1.1 = Ok tt /\ forall id st, block_deltas r.1.2 !! id = Some st -> storage_size st <= max_block_size_bytes (root r.1.2).
Proof.
  intros r. assert (r.1.1 = Ok tt) as Hr by (vm_compute; reflexivity). split; [exact Hr|].
  apply (set_bounds_blocks uuids empty_manager "col" (fun _ => None) (empty_laws "col") (fresh 1000) tt "p" "a"%string "v"%string r.1.2 r.2).
  - by apply fresh_ok.
  - constructor; [vm_compute; discriminate|]. rewrite fresh_contents by done. constructor.
  - intros id st Hst. unfold fresh, Blockfile_new in Hst. cbn [block_deltas] in Hst.
    apply lookup_singleton_Some in Hst as [_ <-]. vm_compute. discriminate.
  - rewrite <- Hr. by rewrite <- !surjective_pairing.
Defined.

Lemma prefetch_lists_exact_witness :
  get_all_target_block_ids [mkCompositeKey "z" "z"; mkCompositeKey "q" "c"]%string idx = [2] /\
  get_block_ids_for_prefixes ["q"]%string idx = [1; 2] /\
  sublist (get_all_target_block_ids [mkCompositeKey "q" "c"]%string idx) ((fun x => siv_id x.2) <$> idx) /\
  forall id,
    (id ∈ get_all_target_block_ids [mkCompositeKey "q" "c"]%string idx <-> exists k, k ∈ [mkCompositeKey "q" "c"]%string /\ reader_target_block_id k idx = Some id) /\
    (id ∈ get_block_ids_for_prefixes ["q"]%string idx <-> exists p, p ∈ ["q"]%string /\ id ∈ get_block_ids_range (Included p) (Included p) idx).
Proof.
  split; [vm_compute; reflexivity|]. split; [vm_compute; reflexivity|].
  apply (prefetch_lists_exact idx [mkCompositeKey "q" "c"]%string ["q"]%string); [apply reader_blocks|by do 2 eexists].
Defined.

(** *** A key with the prefix START *)

Definition start_ops : list (Op string string) := [OpSet "A" "k" (text 400); OpSet "START" "k" (text 400)]%string.
Definition start_w : BlockfileWriter string string := (session 1000 start_ops).1.2.
Definition start_f : Flusher string string :=
  match (commit (BM := empty_manager) (order_of start_w) start_w tt).1 with
  | Ok f => f
  | Err _ => mkFlusher [] (root start_w) 0
  end.

Lemma start_ops_fit : Forall (op_fits 1000) start_ops.
Proof. repeat constructor; vm_compute; discriminate. Qed.

Lemma start_run : run_ops (BM := empty_manager) uuids start_ops (fresh 1000) tt = (Ok [None; None], start_w, tt).
Proof. vm_compute. reflexivity. Qed.

Lemma start_commits : commit (BM := empty_manager) (order_of start_w) start_w tt = (Ok start_f, tt).
Proof. vm_compute. reflexivity. Qed.

Lemma start_index : (forward (sparse_index (flush_root start_f))).*1 = [Start; DelimiterKey (mkCompositeKey "START" "k"%string)].
Proof. vm_compute. reflexivity. Qed.

Lemma start_first first :
  bt_get Start (forward (sparse_index (flush_root start_f))) = Some first ->
  (stored_rows (flushed (fun _ => None) start_f) first).*1 = [mkCompositeKey "A" "k"%string].
Proof.
  assert (match bt_get Start (forward (sparse_index (flush_root start_f))) with
          | Some i => (stored_rows (flushed (fun _ => None) start_f) i).*1
          | None => []
          end = [mkCompositeKey "A" "k"%string]) as Hf by (vm_compute; reflexivity).
  intros Hb. by rewrite Hb in Hf.
Qed.

(** The session wrote the key, and nobody finds it in what was committed. *)
Lemma start_prefix_loses_block_witness :
  bt_get (mkCompositeKey "A" "k"%string) (map_ops start_ops []).2 = Some (text 400) /\
  exists batch r, root_to_batch (flush_root start_f) = Ok batch /\ root_from_batch batch "col" 7 64 = Ok r /\
    forall BM' : BlockManager string string, BlockManagerLaws BM' "col" (flushed (fun _ => None) start_f) ->
    forall s' v r' s'', reader_get "A" "k"%string (Reader_new r) s' <> (Ok (Some v), r', s'').
Proof.
  split; [vm_compute; reflexivity|].
  destruct (start_prefix_loses_block uuids empty_manager "col" 7 1000 0 64 start_ops tt [None; None] start_w tt (order_of start_w) start_f tt
              (mkCompositeKey "START" "k"%string)) as (batch & r & first & H1 & H2 & H3 & _ & H4);
    [apply empty_laws|done|exact start_ops_fit|exact start_run|apply order_drains|exact start_commits|rewrite start_index; set_solver|done|].
  exists batch, r. split; [exact H1|]. split; [exact H2|]. intros BM' HBM. destruct (H4 "A" "k"%string) as [_ H]; [|by apply H].
  rewrite (start_first first H3). by apply list_elem_of_singleton.
Defined.

(** *** Entries larger than half a block *)

Definition large_1 : list (Op string string) := [OpSet "p" "a" (text 100); OpSet "p" "c" (text 10)]%string.
Definition large_2 : list (Op string string) := [OpSet "p" "a" (text 100)]%string.

Lemma large_1_fit : Forall (op_fits 1000) large_1.
Proof. repeat constructor; vm_compute; discriminate. Qed.

Lemma large_2_fit : Forall (op_fits 1000) large_2.
Proof. repeat constructor; vm_compute; discriminate. Qed.

Lemma one_row_crosses half (y x : CompositeKey string * string) :
  split_rows_size [y] <= half -> half < split_rows_size [y; x] -> crosses half [y] x.
Proof. intros H1 H2. split; [|done]. intros l1 l2 Hl Hne. destruct l1 as [|z l1]; [done|]. injection Hl as -> Hl. by destruct l1. Qed.

(** The only block of a session and what a set makes of its rows. *)
Definition only (w : BlockfileWriter string string) : SingleColumnStorage string string := default SingleColumnStorage_new (block_deltas w !! 100).

(** A split leaves a block of more than 1000 bytes; a block with one row says
    that it has none; and an entry of 1500 bytes panics. *)
Lemma large_entries_break_blocks_witness :
  (exists w' low, set (BM := empty_manager) uuids "p" "b"%string (text 600) (session 1000 large_1).1.2 tt = (Ok tt, w', tt) /\
     block_deltas w' !! 100 = Some low /\ 1000 < storage_size low) /\
  (exists w' high, set (BM := empty_manager) uuids "p" "y"%string (text 600) (session 1000 large_2).1.2 tt = (Ok tt, w', tt) /\
     block_deltas w' !! 101 = Some high /\ length (storage high) = 1%nat /\ num_items (size_tracker high) = 0) /\
  (set (BM := empty_manager) uuids "p" "a"%string (text 1500) (fresh 1000) tt).1.1 = Err Panic.
Proof.
  split; [|split].
  - destruct (large_entries_break_blocks uuids empty_manager "col" (fun _ => None) (empty_laws "col") (session 1000 large_1).1.2 tt "p" "b"%string (text 600) 100
      (only (session 1000 large_1).1.2) [(mkCompositeKey "p" "a", text 100)]%string (mkCompositeKey "p" "b", text 600)%string [(mkCompositeKey "p" "c", text 10)]%string)
      as [H _]; [apply session_writer_ok; [done|exact large_1_fit]|vm_compute; reflexivity|vm_compute; reflexivity|vm_compute; reflexivity|].
    destruct H as (w' & Hs & low & Hlow & _ & Hsize); [vm_compute; discriminate|apply one_row_crosses; vm_compute; [discriminate|reflexivity]|vm_compute; reflexivity|].
    exists w', low. split; [exact Hs|]. split; [exact Hlow|]. rewrite Hsize. vm_compute. reflexivity.
  - destruct (large_entries_break_blocks uuids empty_manager "col" (fun _ => None) (empty_laws "col") (session 1000 large_2).1.2 tt "p" "y"%string (text 600) 100
      (only (session 1000 large_2).1.2) [(mkCompositeKey "p" "a", text 100)]%string (mkCompositeKey "p" "y", text 600)%string [])
      as [H _]; [apply session_writer_ok; [done|exact large_2_fit]|vm_compute; reflexivity|vm_compute; reflexivity|vm_compute; reflexivity|].
    destruct H as (w' & Hs & high & Hhigh & Hrows & Hn); [vm_compute; discriminate|apply one_row_crosses; vm_compute; [discriminate|reflexivity]|vm_compute; reflexivity|].
    exists w', high. split; [exact Hs|]. split; [exact Hhigh|]. rewrite Hrows. split; [reflexivity|]. apply Hn. vm_compute. reflexivity.
  - apply (large_entries_break_blocks uuids empty_manager "col" (fun _ => None) (empty_laws "col") (fresh 1000) tt "p" "a"%string (text 1500) 100
      SingleColumnStorage_new [] (mkCompositeKey "p" "a", text 1500)%string []);
      [by apply fresh_ok|vm_compute; reflexivity|vm_compute; reflexivity|vm_compute; reflexivity|reflexivity|vm_compute; reflexivity].
Defined.
