(* ===== verification/SegmentProps.v ===== *)
(** * Properties of compactions and the record segment

    A compaction turns a chunk of the log into changes of the record segment:
    the log is partitioned, every partition is materialized against the segment
    as it was, the results are applied and committed, and the flushed segment is
    opened again.  The reference is the collection as a map from user ids to
    documents, which the operations of the log change one after the other. *)

From Stdlib Require Import Ascii.
From stdpp Require Import sorting.
From S2P Require Import Prelude Setsum Types BTree BlockKey SparseIndex BlockDelta Block Blockfile BlockfileApi Records RecordSegment Compaction Codec Instances LedgerFacts RecordFacts CompactionFlow CompactionFacts Limit.

#[local] Open Scope Z_scope.

(** ** Blockfiles with a name

    A blockfile as its id and its rows, for concrete segments. *)

Section Named.
Context {K V : Type} {KK : Key K} {KL : KeyLaws K}.

Abbreviation named := (Uuid * btree (CompositeKey K) V)%type.

Definition named_api : WriterApi K V named := {|
  api_set p k v := fun x => (Ok tt, (x.1, bt_insert (mkCompositeKey p k) v x.2));
  api_delete p k := fun x => (Ok tt, (x.1, bt_remove (mkCompositeKey p k) x.2));
|}.

Definition named_commit : CommitApi named named := {|
  api_commit x := Ok x;
  api_flush_count x := Z.of_nat (length x.2);
|}.

Lemma named_api_laws : WriterLaws named_api (fun x : named => bt_sorted x.2) snd (fun _ _ _ => True).
Proof.
  constructor; cbn; [done| |].
  - intros p k v w Hw _. split; [by apply bt_insert_sorted|done].
  - intros p k w Hw. split; [by apply bt_remove_sorted|done].
Qed.

Lemma named_commit_laws : CommitLaws named_commit (fun x : named => bt_sorted x.2) (@snd Uuid (btree (CompositeKey K) V)) snd.
Proof. intros x f _ [= <-]. done. Qed.
End Named.

Module Sample.

#[export] Instance map_order : HashOrder := {|
  hash_iter A m := map_to_list m;
  hash_iter_perm A m := reflexivity _;
|}.

#[export] Instance readers : SegmentReaders := {|
  offset_api := btree_reader (K := string) (V := u32);
  user_api := btree_reader (K := u32) (V := string);
  data_api := btree_reader (K := u32) (V := DataRecord);
|}.

Definition read_exactly {K V} `{Key K} (r m : btree (CompositeKey K) V) : Prop := r = m /\ bt_sorted m.

#[export] Instance readers_laws : SegmentReadersLaws readers :=
  @Build_SegmentReadersLaws readers read_exactly read_exactly read_exactly btree_reader_laws btree_reader_laws btree_reader_laws.

#[export] Instance writers : SegmentWriters := {|
  offset_wapi := named_api (K := string) (V := u32);
  user_wapi := named_api (K := u32) (V := string);
  data_wapi := named_api (K := u32) (V := DataRecord);
  offset_capi := named_commit (K := string) (V := u32);
  user_capi := named_commit (K := u32) (V := string);
  data_capi := named_commit (K := u32) (V := DataRecord);
|}.

Definition named_ok {K V} `{Key K} (x : Uuid * btree (CompositeKey K) V) : Prop := bt_sorted x.2.
Definition named_fit {K V} (p : string) (k : K) (v : V) : Prop := True.

#[export] Instance writers_laws : SegmentWritersLaws writers :=
  @Build_SegmentWritersLaws writers named_ok snd named_fit named_ok snd named_fit named_ok snd named_fit
    named_api_laws named_api_laws named_api_laws.

#[export] Instance commit_laws : SegmentCommitLaws writers writers_laws :=
  @Build_SegmentCommitLaws writers writers_laws snd snd snd named_commit_laws named_commit_laws named_commit_laws.

(** A record of the log. *)
Definition entry (op : Operation) (uid : string) (emb : option (list Z)) (meta : option UpdateMetadata) (doc : option string) : LogRecord :=
  mkLogRecord 0 (mkOperationRecord uid emb ((fun _ => FLOAT32) <$> emb) meta doc op).

(** The segment of a collection with two records. *)
Definition data_a : DataRecord := mkDataRecord "a" [1; 2] (Some {["k" := MInt 1]}) (Some "one"%string).
Definition data_b : DataRecord := mkDataRecord "b" [3; 4] None None.

Definition rows : SegmentRows :=
  rows_apply AddNew "b" 2 data_b (rows_apply AddNew "a" 1 data_a (mkSegmentRows [] [] [])).

Definition max_rows (mx : Z) : btree (CompositeKey string) u32 := [(mkCompositeKey ""%string MAX_OFFSET_ID, mkU32 mx)].

Definition reader (mx : Z) : RecordSegmentReader := mkRecordReader (offset_rows rows) (user_rows rows) (data_rows rows) mx.
Definition writer (mx : Z) : RecordSegmentWriter :=
  mkRecordWriter (11, offset_rows rows) (12, user_rows rows) (13, data_rows rows) (14, max_rows mx) 0 7.

Definition docs : gmap string Doc := {["a" := doc_of data_a; "b" := doc_of data_b]}.

Definition log : Chunk LogRecord :=
  Chunk_new [entry Add "c" (Some [5; 6]) None (Some "three"%string); entry Update "a" None (Some {["k" := UNone; "l" := UBool true]}) (Some "uno"%string);
             entry Delete "b" None None None; entry Add "b" (Some [7; 8]) None None; entry Upsert "c" None (Some {["m" := UInt 3]}) None;
             entry Delete "d" None None None].
End Sample.
Import Sample.

Lemma sample_ok : segment_ok rows 2.
Proof.
  apply (rows_apply_ok AddNew "b" 2 data_b _ 1); [|by split|done].
  apply (rows_apply_ok AddNew "a" 1 data_a _ 0); [|by split|done].
  repeat constructor; try done.
Qed.

Lemma sample_first_ok : segment_ok (rows_apply AddNew "a" 1 data_a (mkSegmentRows [] [] [])) 1.
Proof. apply (rows_apply_ok AddNew "a" 1 data_a _ 0); [repeat constructor; done|by split|done]. Qed.

Lemma sample_shows : shows rows docs.
Proof.
  intros uid. unfold docs. destruct (decide (uid = "b")) as [->|Hb]; [reflexivity|]. rewrite lookup_insert. case_decide as Ha; [by subst|].
  rewrite lookup_singleton_ne by done. unfold rows. rewrite (rows_apply_other _ _ _ _ _ 1 uid sample_first_ok); [|by split|done].
  rewrite (rows_apply_other _ _ _ _ _ 0 uid); [done|repeat constructor; done|by split|done].
Qed.

Lemma sample_opened : opened (Some (reader 2)) (writer 2) rows docs.
Proof.
  constructor; try done; [|apply sample_ok|apply sample_shows|..].
  - pose proof (s_sorted _ _ sample_ok) as (H1 & H2 & H3). repeat split; done.
  - pose proof (s_sorted _ _ sample_ok) as (H1 & H2 & H3). repeat split; done.
  - constructor; constructor.
Qed.

Lemma sample_short : reader_max (Some (reader 2)) + 1 + Z.of_nat (length (chunk_iter log)) < 2 ^ 32.
Proof. vm_compute. reflexivity. Qed.

Lemma sample_compacts : match compact_record_segment (Some (reader 2)) (writer 2) log 2 with Ok _ => true | Err _ => false end = true.
Proof. vm_compute. reflexivity. Qed.

(** ** A compaction *)

Section Compaction.
Context {HO : HashOrder} {SR : SegmentReaders} {SL : SegmentReadersLaws SR} {SW : SegmentWriters} {WL : SegmentWritersLaws SW} {CL : SegmentCommitLaws SW WL}.

(** C5: A compaction of the record segment refines the log: however the log is
    partitioned and hash maps are traversed, when it returns, the flushed
    segment is consistent and shows exactly the documents that the operations
    of the log, one after the other, make of those shown before; records that
    stay keep their offset ids, and the stored maximum covers all of them.
    Otherwise a blockfile could not be read or written, or the log creates a
    record without an embedding; it never panics. *)
Theorem compaction_refines_log reader w S c logs max_partition_size :
  opened reader w S c -> reader_max reader + 1 + Z.of_nat (length (chunk_iter logs)) < 2 ^ 32 -> (forall v, offset_fit "" MAX_OFFSET_ID v) ->
  (forall c2 uid oid d, log_steps (ops_of logs) c = Some c2 -> dr_id d = uid -> Some (doc_of d) = c2 !! uid -> values_fit uid oid d) ->
  match compact_record_segment reader w logs max_partition_size with
  | Ok (f, _) => exists c2 S2 mx2, log_steps (ops_of logs) c = Some c2 /\ flusher_has f S2 mx2 /\ segment_ok S2 mx2 /\ shows S2 c2 /\
      ids_stable S S2 /\ 0 <= mx2 < 2 ^ 32
  | Err e => (e = MaterializeLogs EmbeddingMaterialization /\ log_steps (ops_of logs) c = None) \/ storage_failure e
  end.
Proof.
  intros Hop Hlt Hmax Hfit. pose proof (compact_spec reader w S c logs max_partition_size Hop Hlt Hmax Hfit) as Hs.
  destruct (compact_record_segment reader w logs max_partition_size) as [[f delta]|e]; [|done].
  destruct Hs as (c2 & S2 & mx2 & H1 & H2 & H3 & H4 & H5 & H6 & _). by exists c2, S2, mx2.
Qed.

(** C17: The change of the logical size that a compaction reports is the size
    of the collection after the log less its size before, in 64 bits; added to
    the old size it gives the new size, as long as both fit. *)
Theorem compaction_size_exact reader w S c logs max_partition_size f delta :
  opened reader w S c -> reader_max reader + 1 + Z.of_nat (length (chunk_iter logs)) < 2 ^ 32 -> (forall v, offset_fit "" MAX_OFFSET_ID v) ->
  (forall c2 uid oid d, log_steps (ops_of logs) c = Some c2 -> dr_id d = uid -> Some (doc_of d) = c2 !! uid -> values_fit uid oid d) ->
  compact_record_segment reader w logs max_partition_size = Ok (f, delta) ->
  exists c2, log_steps (ops_of logs) c = Some c2 /\ delta = as_i64 (coll_size c2 - coll_size c) /\
    (coll_size c < 2 ^ 63 -> coll_size c2 < 2 ^ 63 -> register_size false (coll_size c) delta = Some (coll_size c2) /\
       (c = ∅ -> register_size true 0 delta = Some (coll_size c2))).
Proof.
  intros Hop Hlt Hmax Hfit Hok. pose proof (compact_spec reader w S c logs max_partition_size Hop Hlt Hmax Hfit) as Hs. rewrite Hok in Hs.
  destruct Hs as (c2 & S2 & mx2 & H1 & _ & _ & _ & _ & _ & ->). exists c2. split_and!; [done..|]. intros Hc Hc2.
  pose proof (coll_size_nonneg c). pose proof (coll_size_nonneg c2). rewrite as_i64_small by lia. unfold register_size. split.
  - f_equal. unfold u64_max. lia.
  - intros ->. change (coll_size ∅) with 0. rewrite Z.sub_0_r. destruct (Z.leb_spec 0 (coll_size c2)); [done|lia].
Qed.

(** C26: Partitioning a log splits it by user id: every partition has all
    visible records of its user ids, in the order of the log, no user id is in
    two partitions, every one is in some, and a partition takes another user
    id only while it is smaller than the size asked for. *)
Theorem partition_exact logs max_partition_size :
  exists Gs, Forall2 (fun p G => chunk_data p = chunk_data logs /\
      chunk_iter p = List.filter (fun x => bool_decide (rec_id (record x.1) ∈ G)) (chunk_iter logs) /\
      exists G' k, G = G' ++ [k] /\
        (G' = [] \/ (length (List.filter (fun x => bool_decide (rec_id (record x.1) ∈ G')) (chunk_iter logs)) <
                       determine_partition_size (chunk_len logs) max_partition_size)%nat))
      (PartitionOperator_run logs max_partition_size) Gs /\
    NoDup (concat Gs) /\ forall uid, uid ∈ concat Gs <-> uid ∈ ids_of logs.
Proof.
  destruct (partition_spec logs (determine_partition_size (chunk_len logs) max_partition_size)) as (Gs & HGs & Hnd & Hin). exists Gs.
  split; [|done]. eapply Forall2_impl; [exact HGs|]. intros p G [H1 H2 H3]. done.
Qed.
End Compaction.

Lemma compaction_refines_log_witness : exists f delta c2 S2 mx2,
  compact_record_segment (Some (reader 2)) (writer 2) log 2 = Ok (f, delta) /\ log_steps (ops_of log) docs = Some c2 /\
  flusher_has f S2 mx2 /\ segment_ok S2 mx2 /\ shows S2 c2.
Proof.
  pose proof (compaction_refines_log (Some (reader 2)) (writer 2) rows docs log 2 sample_opened sample_short (fun _ => I) (fun _ _ _ _ _ _ _ => conj I (conj I I))) as H.
  pose proof sample_compacts as Hc. destruct (compact_record_segment (Some (reader 2)) (writer 2) log 2) as [[f delta]|e]; [|discriminate].
  destruct H as (c2 & S2 & mx2 & H1 & H2 & H3 & H4 & _). exists f, delta, c2, S2, mx2. split; [reflexivity|]. split; [exact H1|]. split; [exact H2|]. by split.
Defined.

Lemma compaction_size_exact_witness : exists f c2,
  compact_record_segment (Some (reader 2)) (writer 2) log 2 = Ok (f, 16) /\ log_steps (ops_of log) docs = Some c2 /\ 16 = as_i64 (coll_size c2 - coll_size docs).
Proof.
  destruct (compact_record_segment (Some (reader 2)) (writer 2) log 2) as [[f delta]|e] eqn:Hc; [|by pose proof sample_compacts as Hs; rewrite Hc in Hs].
  destruct (compaction_size_exact (Some (reader 2)) (writer 2) rows docs log 2 f delta sample_opened sample_short (fun _ => I) (fun _ _ _ _ _ _ _ => conj I (conj I I)) Hc)
    as (c2 & H1 & H2 & _).
  assert (delta = 16) as Hd.
  { assert (match compact_record_segment (Some (reader 2)) (writer 2) log 2 with Ok (_, d) => d | Err _ => 0 end = 16) as Hd by (vm_compute; reflexivity).
    rewrite Hc in Hd. exact Hd. }
  rewrite Hd in H2 |- *. exists f, c2. exact (conj eq_refl (conj H1 H2)).
Defined.

(** ** The segment, opened again *)

Section Reopen.
Context {UU : Uuids} {UL : UuidLaws UU} {HO : HashOrder}.
Context {SR : SegmentReaders} {SL : SegmentReadersLaws SR} {SW : SegmentWriters} {WL : SegmentWritersLaws SW} {CL : SegmentCommitLaws SW WL}.
Context {FA : FlushApi} {RP : ReadProvider SR} {WP : WriteProvider SW}.

(** A flushed blockfile that is opened or forked has the rows it was flushed with. *)
Record opens_flushed (prefix : string) (f : RecordSegmentFlusher) : Prop := {
  of_offsets : forall x r, x = user_id_to_id_flusher f \/ x = max_offset_id_flusher f ->
    read_offsets prefix (offset_flusher_id x) = Ok r -> offset_reads r (offset_flushed x);
  of_users : forall r, read_users prefix (user_flusher_id (id_to_user_id_flusher f)) = Ok r -> user_reads r (user_flushed (id_to_user_id_flusher f));
  of_data : forall r, read_data prefix (data_flusher_id (id_to_data_flusher f)) = Ok r -> data_reads r (data_flushed (id_to_data_flusher f));
  of_fork_offsets : forall x w, x = user_id_to_id_flusher f \/ x = max_offset_id_flusher f ->
    write_offsets prefix (Some (offset_flusher_id x)) = Ok w -> offset_wok w /\ offset_wrows w = offset_flushed x;
  of_fork_users : forall w, write_users prefix (Some (user_flusher_id (id_to_user_id_flusher f))) = Ok w ->
    user_wok w /\ user_wrows w = user_flushed (id_to_user_id_flusher f);
  of_fork_data : forall w, write_data prefix (Some (data_flusher_id (id_to_data_flusher f))) = Ok w ->
    data_wok w /\ data_wrows w = data_flushed (id_to_data_flusher f);
  (** A UUID has no slash. *)
  of_ids : Forall (fun id => no_slash (uuid_to_string id) = true)
    [offset_flusher_id (user_id_to_id_flusher f); user_flusher_id (id_to_user_id_flusher f); data_flusher_id (id_to_data_flusher f);
     offset_flusher_id (max_offset_id_flusher f)];
}.

(** The paths that [flush] returns. *)
Definition flushed_paths (f : RecordSegmentFlusher) : gmap string (list string) :=
  let prefix_path := flusher_prefix_path (user_id_to_id_flusher f) in
  <[MAX_OFFSET_ID := [flush_key prefix_path (offset_flusher_id (max_offset_id_flusher f))]]>
  (<[OFFSET_ID_TO_DATA := [flush_key prefix_path (data_flusher_id (id_to_data_flusher f))]]>
  (<[OFFSET_ID_TO_USER_ID := [flush_key prefix_path (user_flusher_id (id_to_user_id_flusher f))]]>
  (<[USER_ID_TO_OFFSET_ID := [flush_key prefix_path (offset_flusher_id (user_id_to_id_flusher f))]]> ∅))).

Lemma flush_paths f paths : flush f = Ok paths -> paths = flushed_paths f.
Proof.
  unfold flush. destruct (flush_offsets (user_id_to_id_flusher f)); [|done]. destruct (flush_users (id_to_user_id_flusher f)); [|done].
  destruct (flush_data (id_to_data_flusher f)); [|done]. destruct (flush_offsets (max_offset_id_flusher f)); [|done]. by intros [= <-].
Qed.

Lemma flushed_paths_size f : size (flushed_paths f) = 4%nat.
Proof. unfold flushed_paths. rewrite !map_size_insert_None by (by repeat rewrite lookup_insert_ne by done). by rewrite map_size_empty. Qed.

Lemma flushed_paths_lookup f :
  let prefix_path := flusher_prefix_path (user_id_to_id_flusher f) in
  flushed_paths f !! USER_ID_TO_OFFSET_ID = Some [flush_key prefix_path (offset_flusher_id (user_id_to_id_flusher f))] /\
  flushed_paths f !! OFFSET_ID_TO_USER_ID = Some [flush_key prefix_path (user_flusher_id (id_to_user_id_flusher f))] /\
  flushed_paths f !! OFFSET_ID_TO_DATA = Some [flush_key prefix_path (data_flusher_id (id_to_data_flusher f))] /\
  flushed_paths f !! MAX_OFFSET_ID = Some [flush_key prefix_path (offset_flusher_id (max_offset_id_flusher f))].
Proof. unfold flushed_paths. split_and!; by repeat (rewrite lookup_insert_eq || rewrite lookup_insert_ne by done). Qed.

(** The maximum of a segment can be read. *)
Definition max_readable (f : RecordSegmentFlusher) : Prop :=
  forall x, offset_reads x (offset_flushed (max_offset_id_flusher f)) -> exists v x', api_get "" MAX_OFFSET_ID x = (Ok v, x').

(** C11: What a compaction flushes opens again: the paths that [flush] returns
    lead the reader and the writer of the next compaction to the four
    blockfiles, and both have the documents, the offset ids and, when it can
    be read, the largest offset id that were committed.  Opening fails only
    when a blockfile cannot be opened or forked. *)
Theorem segment_reopens tenant database_id segment f paths S2 c2 mx2 :
  flusher_has f S2 mx2 -> segment_ok S2 mx2 -> shows S2 c2 -> 0 <= mx2 -> segment_type segment = BlockfileRecord ->
  opens_flushed (flusher_prefix_path (user_id_to_id_flusher f)) f -> flush f = Ok paths ->
  let segment' := mkSegment (segment_id segment) (segment_type segment) (segment_collection segment) paths in
  match Reader_from_segment segment', Writer_from_segment tenant database_id segment' with
  | Ok r, Ok w => reader_reads r S2 /\ writer_has w S2 /\ (max_readable f -> opened (Some r) w S2 c2)
  | Err e, _ => exists e', e = BlockfileOpenError e'
  | Ok _, Err e => exists e', e = BlockfileCreateError e'
  end.
Proof.
  intros (F1 & F2 & F3 & F4) HS Hc Hmx Hty Hof Hfl segment'. subst segment'. apply flush_paths in Hfl. subst paths.
  destruct (flushed_paths_lookup f) as (L1 & L2 & L3 & L4). set (prefix := flusher_prefix_path (user_id_to_id_flusher f)) in *.
  destruct Hof as [R1 R2 R3 W1 W2 W3 Hids]. do 4 (apply Forall_cons in Hids as [? Hids]).
  unfold Reader_from_segment, load_index_reader. cbn [file_path]. rewrite flushed_paths_size, L1, L2, L3, L4, !flush_key_roundtrip by done.
  cbn beta iota.
  destruct (read_offsets prefix (offset_flusher_id (max_offset_id_flusher f))) as [r4|] eqn:E4; cbn [map_err result_bind]; [|by eauto].
  destruct (read_offsets prefix (offset_flusher_id (user_id_to_id_flusher f))) as [r1|] eqn:E1; cbn [map_err result_bind]; [|by eauto].
  destruct (read_users prefix _) as [r2|] eqn:E2; cbn [map_err result_bind]; [|by eauto].
  destruct (read_data prefix _) as [r3|] eqn:E3; cbn [map_err result_bind]; [|by eauto].
  unfold Writer_from_segment. cbn [segment_type file_path]. rewrite bool_decide_true by done. cbn [negb].
  unfold first_path, writer_extract. cbn [file_path]. rewrite flushed_paths_size, L1, L2, L3, L4. cbn [result_bind]. rewrite !flush_key_roundtrip by done.
  cbn [result_bind]. rewrite !bool_decide_true by done. cbn [negb result_bind].
  destruct (write_offsets prefix (Some (offset_flusher_id (user_id_to_id_flusher f)))) as [w1|] eqn:V1; cbn [map_err result_bind]; [|by eauto].
  destruct (write_users prefix _) as [w2|] eqn:V2; cbn [map_err result_bind]; [|by eauto].
  destruct (write_data prefix _) as [w3|] eqn:V3; cbn [map_err result_bind]; [|by eauto].
  destruct (write_offsets prefix (Some (offset_flusher_id (max_offset_id_flusher f)))) as [w4|] eqn:V4; cbn [map_err result_bind]; [|by eauto].
  apply R1 in E1; [|by left]. apply R1 in E4; [|by right]. specialize (R2 r2 eq_refl). specialize (R3 r3 eq_refl).
  apply W1 in V1 as [V1 V1']; [|by left]. apply W1 in V4 as [V4 V4']; [|by right]. destruct (W2 w2 eq_refl) as [V5 V5']. destruct (W3 w3 eq_refl) as [V6 V6'].
  rewrite F1 in E1, V1'. rewrite F2 in R2, V5'. rewrite F3 in R3, V6'. split_and!; [by split_and!|by split_and!|]. intros Hread.
  destruct (Hread r4 E4) as (v & x' & Hg). pose proof (api_get_law ""%string MAX_OFFSET_ID _ _ E4) as Hlaw. rewrite Hg in Hlaw |- *. destruct Hlaw as [Hv _].
  assert (match v with Some v => u32_value v | None => 0 end = mx2) as Hmax by (rewrite <- F4; unfold max_of; by rewrite Hv). cbn [fst].
  assert (match v with Some m => u32_value m | None => 0 end = mx2) as -> by done.
  constructor; cbn; try done. by rewrite V4'.
Qed.
End Reopen.

Module SampleProvider.

#[export] Instance flush_api : FlushApi := {|
  flusher_prefix_path _ := "p"%string;
  offset_flusher_id := fst : Uuid * btree (CompositeKey string) u32 -> Uuid;
  user_flusher_id := fst : Uuid * btree (CompositeKey u32) string -> Uuid;
  data_flusher_id := fst : Uuid * btree (CompositeKey u32) DataRecord -> Uuid;
  flush_offsets _ := Ok tt;
  flush_users _ := Ok tt;
  flush_data _ := Ok tt;
|}.

Definition flusher : RecordSegmentFlusher := mkRecordFlusher 7 (11, offset_rows rows) (12, user_rows rows) (13, data_rows rows) (14, max_rows 2).

Definition read_offsets_ (id : Uuid) : result (btree (CompositeKey string) u32) OpenError :=
  if id =? 11 then Ok (offset_rows rows) else if id =? 14 then Ok (max_rows 2) else Err MissingIndex.

#[export] Instance read_provider : ReadProvider readers :=
  @Build_ReadProvider readers (fun _ id => read_offsets_ id) (fun _ _ => Ok (user_rows rows)) (fun _ _ => Ok (data_rows rows)).

#[export] Instance write_provider : WriteProvider writers :=
  @Build_WriteProvider writers
    (fun _ id => match id with Some 11 => Ok (21, offset_rows rows) | Some 14 => Ok (24, max_rows 2) | _ => Err CreateFailed end)
    (fun _ _ => Ok (22, user_rows rows)) (fun _ _ => Ok (23, data_rows rows)).

Definition segment : Segment := mkSegment 7 BlockfileRecord 8 ∅.
End SampleProvider.
Import SampleProvider.

Lemma sample_opens_flushed : opens_flushed "p" flusher.
Proof.
  pose proof (s_sorted _ _ sample_ok) as (H1 & H2 & H3). constructor.
  - intros x r [-> | ->] [= <-]; [by split|]. split; [done|]. constructor; constructor.
  - by intros r [= <-].
  - by intros r [= <-].
  - intros x w [-> | ->] [= <-]; [by split|]. split; [|done]. constructor; constructor.
  - by intros w [= <-].
  - by intros w [= <-].
  - by repeat constructor.
Qed.

Definition flushed_segment : Segment := mkSegment (segment_id segment) (segment_type segment) (segment_collection segment) (flushed_paths flusher).

Lemma sample_reopens : match Reader_from_segment flushed_segment, Writer_from_segment "t" 9 flushed_segment with Ok _, Ok _ => true | _, _ => false end = true.
Proof. vm_compute. reflexivity. Qed.

Lemma segment_reopens_witness : exists r w,
  Reader_from_segment flushed_segment = Ok r /\ Writer_from_segment "t" 9 flushed_segment = Ok w /\ opened (Some r) w rows docs.
Proof.
  pose proof (segment_reopens "t" 9 segment flusher (flushed_paths flusher) rows docs 2 ltac:(repeat split) sample_ok sample_shows ltac:(lia) eq_refl
    sample_opens_flushed eq_refl) as H. cbn zeta in H. fold flushed_segment in H. pose proof sample_reopens as Hs.
  destruct (Reader_from_segment flushed_segment) as [r|e]; [|discriminate]. destruct (Writer_from_segment "t" 9 flushed_segment) as [w|e]; [|discriminate].
  exists r, w. split; [reflexivity|]. split; [reflexivity|]. apply H. intros x Hx. do 2 eexists. reflexivity.
Defined.

(** ** A maximum that cannot be read *)

Section LostMaximum.
Context {UU : Uuids} {HO : HashOrder} {SR : SegmentReaders} {SL : SegmentReadersLaws SR}.
Context {SW : SegmentWriters} {WL : SegmentWritersLaws SW} {CL : SegmentCommitLaws SW WL} {RP : ReadProvider SR}.

(** The four blockfiles of a segment open. *)
Record readers_open (segment : Segment) (m offsets : offset_reader) (users : user_reader) (data : data_reader) : Prop := {
  ro_files : size (file_path segment) = 4%nat;
  ro_max : load_index_reader read_offsets segment MAX_OFFSET_ID = Ok m;
  ro_offsets : load_index_reader read_offsets segment USER_ID_TO_OFFSET_ID = Ok offsets;
  ro_users : load_index_reader read_users segment OFFSET_ID_TO_USER_ID = Ok users;
  ro_data : load_index_reader read_data segment OFFSET_ID_TO_DATA = Ok data;
}.

(** C37: A segment whose four blockfiles open but whose largest offset id
    cannot be read opens all the same, as if there were none.  When a
    compaction of a log that adds one new record then succeeds, the new record
    has the offset id 1, whoever has it: if [victim] had it, both user ids lead
    to it in what is flushed, the offset id leads to the new user id, the data
    of the victim is overwritten, and the stored maximum is 1. *)
Theorem lost_maximum_overwrites segment m offsets users data e S mx c lr victim w max_partition_size :
  readers_open segment m offsets users data -> (api_get "" MAX_OFFSET_ID m).1 = Err e ->
  reader_reads (mkRecordReader offsets users data 0) S -> segment_ok S mx -> shows S c -> off S victim = Some 1 ->
  writer_has w S -> offset_wok (max_offset_id w) -> max_new_offset_id w = 0 -> (forall v, offset_fit "" MAX_OFFSET_ID v) ->
  let uid := rec_id (record lr) in
  rec_operation (record lr) = Add -> off S uid = None -> (forall d, dr_id d = uid -> Some (doc_of d) = new_doc (record lr) -> values_fit uid 1 d) ->
  exists r, Reader_from_segment segment = Ok r /\ forall f delta,
    compact_record_segment (Some r) w (Chunk_new [lr]) max_partition_size = Ok (f, delta) ->
    exists S', flusher_has f S' 1 /\ off S' uid = Some 1 /\ off S' victim = Some 1 /\ usr S' 1 = Some uid /\
      exists d, dat S' 1 = Some d /\ dr_id d = uid /\ Some (doc_of d) = new_doc (record lr).
Proof.
  intros [H4 L1 L2 L3 L4] He Hr HS Hc Hv Hw Hwok Hwnew Hmaxfit uid Hadd Hnew Hfit.
  exists (mkRecordReader offsets users data 0). split; [unfold Reader_from_segment; by rewrite H4, L1, L2, L3, L4; cbn [result_bind]; rewrite He|].
  intros f delta Hf.
  destruct (lost_maximum_spec S mx HS c Hc lr Hadd Hnew _ w max_partition_size f delta Hr eq_refl Hw Hwok Hwnew Hmaxfit Hfit Hf) as (d & Hd & Hdoc & Hfl).
  exists (rows_apply AddNew uid 1 d S). destruct (rows_apply_self AddNew uid 1 d S (s_sorted _ _ HS)) as (E1 & E2 & E3). split_and!; [done..| |done|by exists d].
  rewrite off_other; [done|apply (s_sorted _ _ HS)|]. intros ->. congruence.
Qed.
End LostMaximum.

Module Unreadable.

Definition flaky := option (btree (CompositeKey string) u32).

(** [None] is a blockfile whose blocks cannot be fetched. *)
Definition or_fail {A} (f : btree (CompositeKey string) u32 -> A) : ST flaky BlockfileError A := fun r =>
  match r with Some m => (Ok (f m), r) | None => (Err BlockNotFound, r) end.

Definition flaky_api : ReaderApi string u32 flaky := {|
  api_get p k := or_fail (bt_get (mkCompositeKey p k));
  api_contains p k := or_fail (fun m => bool_decide (is_Some (bt_get (mkCompositeKey p k) m)));
  api_get_range plo phi lo hi := or_fail (List.filter (fun x => in_bounds plo phi (prefix x.1) && in_bounds lo hi (key x.1)));
  api_count := or_fail (fun m => Z.of_nat (length m));
  api_rank p k := or_fail (fun m => Z.of_nat (length (List.filter (fun x => ltb x.1 (mkCompositeKey p k)) m)));
  api_load_blocks_for_keys _ := or_fail (fun _ => tt);
|}.

(** Every blockfile may be one of these. *)
Definition flaky_reads (r : flaky) (m : btree (CompositeKey string) u32) : Prop := from_option (eq m) True r /\ bt_sorted m.

Lemma flaky_laws : ReaderLaws flaky_api flaky_reads.
Proof.
  constructor; [by intros r m [_ ?]|..]; intros; match goal with H : flaky_reads ?r _ |- _ => destruct H as [Hr ?], r; cbn in * end;
    subst; split_and?; done.
Qed.

Definition flaky_readers : SegmentReaders := {|
  offset_api := flaky_api;
  user_api := btree_reader (K := u32) (V := string);
  data_api := btree_reader (K := u32) (V := DataRecord);
|}.

Definition flaky_readers_laws : SegmentReadersLaws flaky_readers :=
  @Build_SegmentReadersLaws flaky_readers flaky_reads read_exactly read_exactly flaky_laws btree_reader_laws btree_reader_laws.

(** The blockfile of the maximum cannot be read. *)
Definition provider : ReadProvider flaky_readers :=
  @Build_ReadProvider flaky_readers (fun _ id => if id =? 11 then Ok (Some (offset_rows rows)) else Ok None)
    (fun _ _ => Ok (user_rows rows)) (fun _ _ => Ok (data_rows rows)).

Definition new_record : LogRecord := entry Add "c" (Some [5; 6]) None None.

Definition opened_reader : @RecordSegmentReader flaky_readers :=
  @mkRecordReader flaky_readers (Some (offset_rows rows)) (user_rows rows) (data_rows rows) 0.
End Unreadable.

Lemma unreadable_opens : @readers_open _ Unreadable.flaky_readers Unreadable.provider flushed_segment None
  (Some (offset_rows rows)) (user_rows rows) (data_rows rows).
Proof. by constructor; vm_compute. Qed.

Lemma unreadable_reader : @Reader_from_segment _ Unreadable.flaky_readers Unreadable.provider flushed_segment = Ok Unreadable.opened_reader.
Proof. vm_compute. reflexivity. Qed.

Lemma unreadable_reads : @reader_reads Unreadable.flaky_readers Unreadable.flaky_readers_laws Unreadable.opened_reader rows.
Proof. by destruct (s_sorted _ _ sample_ok) as (H1 & H2 & H3). Qed.

Lemma unreadable_compacts :
  match @compact_record_segment _ Unreadable.flaky_readers _ (Some Unreadable.opened_reader) (writer 2) (Chunk_new [Unreadable.new_record]) 10 with
  | Ok _ => true
  | Err _ => false
  end = true.
Proof. vm_compute. reflexivity. Qed.

Lemma lost_maximum_overwrites_witness : exists f delta S',
  @compact_record_segment _ Unreadable.flaky_readers _ (Some Unreadable.opened_reader) (writer 2) (Chunk_new [Unreadable.new_record]) 10 = Ok (f, delta) /\
  flusher_has f S' 1 /\ off rows "a" = Some 1 /\ off S' "a" = Some 1 /\ off S' "c" = Some 1 /\ usr S' 1 = Some "c"%string.
Proof.
  destruct (@lost_maximum_overwrites _ _ Unreadable.flaky_readers Unreadable.flaky_readers_laws _ _ _ Unreadable.provider flushed_segment None
    (Some (offset_rows rows)) (user_rows rows) (data_rows rows) BlockNotFound rows 2 docs Unreadable.new_record "a" (writer 2) 10
    unreadable_opens eq_refl unreadable_reads sample_ok sample_shows eq_refl) as (r & Hr & H).
  - destruct (s_sorted _ _ sample_ok) as (H1 & H2 & H3). split_and!; [exact H1|reflexivity|exact H2|reflexivity|exact H3|reflexivity].
  - constructor; constructor.
  - reflexivity.
  - exact (fun _ => I).
  - reflexivity.
  - reflexivity.
  - exact (fun _ _ _ => conj I (conj I I)).
  - rewrite unreadable_reader in Hr. injection Hr as Hr. rewrite <- Hr in H. clear Hr.
    pose proof unreadable_compacts as Hc.
    destruct (@compact_record_segment _ Unreadable.flaky_readers _ (Some Unreadable.opened_reader) (writer 2) (Chunk_new [Unreadable.new_record]) 10) as [[f delta]|e];
      [|discriminate].
    destruct (H f delta eq_refl) as (S' & H1 & H2 & H3 & H4 & _). exists f, delta, S'. split_and!; [reflexivity|exact H1|reflexivity|exact H3|exact H2|exact H4].
Defined.

(** ** The orchestrator *)

Import Orchestrator.

(** The state in which every pending task has been answered. *)
Definition ends (s s' : State) : Prop := rtc step s s' /\ forall s'', ~ step s' s''.

Lemma ends_quiescent s s' : ends s s' -> tasks s' = [].
Proof.
  intros [_ Hn]. destruct (tasks s') as [|t l] eqn:Ht; [done|]. exfalso.
  eapply (Hn _ (step_complete 0 s' _ _)). Unshelve. 2: { unfold complete. rewrite Ht. cbn. reflexivity. }
Qed.

Lemma quiescent_stuck s : tasks s = [] -> forall s', ~ step s s'.
Proof. intros Hs s' Hstep. destruct Hstep as [i s s1 Hc]. unfold complete in Hc. by rewrite Hs in Hc. Qed.

Lemma run_steps order : forall s s', run order s = Some s' -> rtc step s s'.
Proof.
  induction order as [|i order IH]; intros s s'; cbn; [by intros [= <-]; constructor|]. destruct (complete i s) as [s1|] eqn:Hc; [|done]. cbn.
  intros Hr. econstructor; [by econstructor|by apply IH].
Qed.

Lemma run_ends order s s' : run order s = Some s' -> tasks s' = [] -> ends s s'.
Proof. intros Hr Ht. split; [by eapply run_steps|by apply quiescent_stuck]. Qed.

(** C19: A compaction whose partitions all materialize to something, or all to
    nothing, ends in every order in which tasks are answered: every run is
    finite, only a state without pending tasks is stuck, and then the collection
    has been registered exactly once; it is never registered while a task is
    pending. *)
Theorem compaction_registers_once partitions :
  partitions <> [] -> Forall (fun b => b = false) partitions \/ Forall (fun b => b = true) partitions ->
  well_founded (fun s' s => step s s') /\
  (forall s, rtc step (materialize_log partitions) s -> (registrations s <= 1)%nat /\ (registrations s = 1%nat -> tasks s = [])) /\
  (forall s, ends (materialize_log partitions) s -> registrations s = 1%nat).
Proof.
  intros Hne Hall.
  assert (forall s, rtc step (materialize_log partitions) s -> counted s /\ (committing s \/ idle s)) as Hinv.
  { apply rtc_ind_r; [split; [by apply start_counted|]; destruct Hall as [Hf|Hf]; [left; by apply start_committing|right]|].
    - split; [|done]. change (tasks (materialize_log partitions)) with (Materialize <$> partitions). rewrite occ_start. apply length_zero_iff_nil, filter_none_in. rewrite Forall_forall in Hf. intros b Hb <-. by apply Hf in Hb.
    - intros s s' _ Hstep [Hc [Hk|Hk]]; (split; [by eapply counted_step|]); [left; by eapply committing_step|right; by eapply idle_step]. }
  split_and!.
  - intros s. induction (well_founded_ltof State work s) as [s _ IH]. constructor. intros s' Hs. apply IH. by apply step_work.
  - intros s Hs. apply registered_quiescent, Hinv, Hs.
  - intros s Hs. pose proof (ends_quiescent _ _ Hs). destruct Hs as [Hs _]. destruct (Hinv s Hs) as [Hc Hk]. by apply quiescent_registered.
Qed.

Lemma sample_run : exists s, run [0; 0; 0; 0; 0; 0; 0; 0; 0; 0; 0; 0; 0; 0]%nat (materialize_log [false; false]) = Some s /\ tasks s = [].
Proof.
  assert (match run [0; 0; 0; 0; 0; 0; 0; 0; 0; 0; 0; 0; 0; 0]%nat (materialize_log [false; false]) with Some s => tasks s | None => [Materialize true] end = [])
    as H by (vm_compute; reflexivity).
  destruct (run _ (materialize_log [false; false])) as [s|]; [|discriminate]. exists s. split; [reflexivity|exact H].
Qed.

Lemma compaction_registers_once_witness : exists s, ends (materialize_log [false; false]) s /\ registrations s = 1%nat.
Proof.
  destruct (compaction_registers_once [false; false] ltac:(discriminate) ltac:(left; repeat constructor)) as (_ & _ & H).
  destruct sample_run as (s & Hr & Ht). exists s. pose proof (run_ends _ _ _ Hr Ht) as He. split; [exact He|exact (H s He)].
Defined.

(** C38: A compaction in which one partition materializes to nothing can stop
    without an answer: when its result is handled after the tasks of the other
    partition were applied, no task is pending and nothing is committed or
    registered.  Without any partition nothing is ever registered either. *)
Theorem compaction_can_stall : exists s, run [0; 1; 1; 1; 0]%nat (materialize_log [false; true]) = Some s /\
  ends (materialize_log [false; true]) s /\ registrations s = 0%nat /\ ends (materialize_log []) (materialize_log []) /\ registrations (materialize_log []) = 0%nat.
Proof.
  assert (match run [0; 1; 1; 1; 0]%nat (materialize_log [false; true]) with Some s => (tasks s, registrations s) | None => ([], 1%nat) end = ([], 0%nat)) as H
    by (vm_compute; reflexivity).
  destruct (run [0; 1; 1; 1; 0]%nat (materialize_log [false; true])) as [s|] eqn:Hr; [|discriminate]. injection H as H1 H2. exists s.
  split; [reflexivity|]. split; [exact (run_ends _ _ _ Hr H1)|]. split; [exact H2|]. split; [|reflexivity].
  split; [constructor|]. by apply quiescent_stuck.
Qed.

(** ** Changes of metadata *)

Section Delta.
Context {HO : HashOrder}.

Lemma delta_upserts base (l : list (string * MetadataValue)) : NoDup l.*1 -> forall d,
  let d' := foldl (delta_upsert base) d l in metadata_to_delete d' = metadata_to_delete d /\ forall k,
  metadata_to_update d' !! k = match (list_to_map l : Metadata) !! k, base !! k with Some new, Some old => Some (old, new) | _, _ => metadata_to_update d !! k end /\
  metadata_to_insert d' !! k = match (list_to_map l : Metadata) !! k, base !! k with Some new, None => Some new | _, _ => metadata_to_insert d !! k end.
Proof.
  induction l as [|[k0 v0] l IH]; intros Hn d; cbn [foldl]; [done|]. apply NoDup_cons in Hn as [Hk0 Hn]. cbn [fst] in Hk0.
  destruct (IH Hn (delta_upsert base d (k0, v0))) as [H1 H2]. split; [rewrite H1; unfold delta_upsert; cbn; by destruct (base !! k0)|].
  intros k. destruct (H2 k) as [-> ->]. clear IH H1 H2. apply (not_elem_of_list_to_map_1 (M := gmap string)) in Hk0.
  cbn [list_to_map foldr fst snd]. destruct (decide (k0 = k)) as [<-|Hne].
  - rewrite Hk0, lookup_insert_eq. unfold delta_upsert. cbn. by destruct (base !! k0); cbn; rewrite ?lookup_insert_eq.
  - rewrite lookup_insert_ne by done. unfold delta_upsert. cbn. destruct (base !! k0); cbn; by rewrite ?lookup_insert_ne by done.
Qed.

Lemma delta_deletes base (l : list string) : forall d,
  let d' := foldl (delta_delete_key base) d l in metadata_to_update d' = metadata_to_update d /\ metadata_to_insert d' = metadata_to_insert d /\ forall k,
  metadata_to_delete d' !! k = if decide (k ∈ l) then match base !! k with Some v => Some v | None => metadata_to_delete d !! k end else metadata_to_delete d !! k.
Proof.
  induction l as [|k0 l IH]; intros d; cbn [foldl]; [done|]. destruct (IH (delta_delete_key base d k0)) as (H1 & H2 & H3).
  unfold delta_delete_key in *. split_and!; [rewrite H1; by destruct (base !! k0)|rewrite H2; by destruct (base !! k0)|].
  intros k. rewrite H3. destruct (decide (k = k0)) as [->|Hne].
  - rewrite (decide_True (P := k0 ∈ k0 :: l)) by set_solver. destruct (base !! k0) as [v|] eqn:Hb; cbn; rewrite ?Hb, ?lookup_insert_eq; by case_decide.
  - destruct (base !! k0); cbn; rewrite ?lookup_insert_ne by done; repeat case_decide; set_solver.
Qed.

(** The delta that a metadata index is given for an update is the exact
    difference of the metadata before and after: keys that appear are inserted,
    keys that disappear are deleted with the value they had, keys that are
    written over are updated from the old value to the new, and every other key
    keeps its value. *)
Theorem metadata_delta_exact h :
  discards_segment h = false -> disjoint_keys (metadata_to_be_merged (materialized_log_record h)) (metadata_to_be_deleted (materialized_log_record h)) ->
  let base := segment_metadata h in let delta := compute_metadata_delta h in forall k,
  (forall v, metadata_to_insert delta !! k = Some v <-> base !! k = None /\ merged_metadata h !! k = Some v) /\
  (forall old, metadata_to_delete delta !! k = Some old <-> base !! k = Some old /\ merged_metadata h !! k = None) /\
  (forall old new, metadata_to_update delta !! k = Some (old, new) -> base !! k = Some old /\ merged_metadata h !! k = Some new) /\
  (metadata_to_insert delta !! k = None -> metadata_to_delete delta !! k = None -> metadata_to_update delta !! k = None -> merged_metadata h !! k = base !! k).
Proof.
  intros Hdis Hkeys base delta k. rewrite merged_metadata_overlay, overlay_lookup. fold base. unfold delta, compute_metadata_delta.
  assert (match segment_data_record h with Some d => default ∅ (dr_metadata d) | None => ∅ end = base) as ->
    by (unfold base, segment_metadata; by rewrite Hdis).
  set (M := metadata_to_be_merged _) in *. set (D := metadata_to_be_deleted _) in *. specialize (Hkeys k).
  set (d1 := match M with Some meta => _ | None => MetadataDelta_new end).
  assert (metadata_to_delete d1 = ∅ /\
    metadata_to_update d1 !! k = match default ∅ M !! k, base !! k with Some new, Some old => Some (old, new) | _, _ => None end /\
    metadata_to_insert d1 !! k = match default ∅ M !! k, base !! k with Some new, None => Some new | _, _ => None end) as (U1 & U2 & U3).
  { unfold d1. destruct M as [m|]; cbn [default]; [|by rewrite !lookup_empty].
    destruct (delta_upserts base (hash_iter m) (hash_iter_nodup m) MetadataDelta_new) as [E1 E2]. split; [by rewrite E1|].
    destruct (E2 k) as [-> ->]. rewrite hash_iter_to_map. cbn [MetadataDelta_new metadata_to_update metadata_to_insert]. by rewrite !lookup_empty. }
  set (d2 := match D with Some keys => _ | None => d1 end).
  assert (metadata_to_update d2 = metadata_to_update d1 /\ metadata_to_insert d2 = metadata_to_insert d1 /\
    metadata_to_delete d2 !! k = if decide (k ∈ default ∅ D) then base !! k else None) as (-> & -> & ->).
  { unfold d2. destruct D as [keys|]; cbn [default]; [|rewrite decide_False by set_solver; by rewrite U1, lookup_empty].
    destruct (delta_deletes base (hash_set_iter keys) d1) as (-> & -> & E). split_and!; [done..|]. rewrite E, U1, lookup_empty.
    pose proof (hash_set_iter_elem keys k). repeat case_decide; try tauto. by destruct (base !! k). }
  rewrite U2, U3. clear d1 d2 U1 U2 U3. destruct (default ∅ M !! k) as [new|].
  - specialize (Hkeys ltac:(by eexists)). repeat (case_decide; [done|]). destruct (base !! k); split_and!; intros; try split; intros; destruct_and?; simplify_eq; done.
  - case_decide; destruct (base !! k); split_and!; intros; try split; intros; destruct_and?; simplify_eq; done.
Qed.
End Delta.

Definition sample_update : HydratedMaterializedLogRecord :=
  mkHydrated (mkMaterialized true 1 None UpdateExisting (Some {["l" := MBool true]}) (Some {["k"]}) None None) (Some data_a) log.

Lemma metadata_delta_exact_witness : metadata_to_delete (compute_metadata_delta sample_update) !! "k" = Some (MInt 1).
Proof.
  assert (disjoint_keys (Some ({["l" := MBool true]} : Metadata)) (Some ({["k"]} : DeletedMetadata))) as Hd.
  { intros k [v Hv]. cbn in *. apply lookup_singleton_Some in Hv as [<- _]. intros ?%elem_of_singleton. discriminate. }
  destruct (metadata_delta_exact sample_update eq_refl Hd "k") as (_ & H & _). apply H. split; vm_compute; reflexivity.
Defined.

(** ** Pages of the collection *)

Section Pages.
Context {RB : Roaring} {RL : RoaringLaws RB} {HO : HashOrder} {SR : SegmentReaders} {SL : SegmentReadersLaws SR}.

(** C18: The page that [Limit] selects is the page of the merged ids: with what
    matches in the log and what matches in the segment as one sorted list of
    offset ids, the binary search over the ranks and the merge of the two
    sources return exactly its elements from [offset] on, at most [limit] of
    them, for every offset and limit.  It fails only when a blockfile cannot be
    read; it never panics. *)
Theorem selected_page_exact reader S log_ids compact offset limit :
  option_reads reader S -> segment_ok S (reader_max reader) -> plain S -> 0 <= reader_max reader < 2 ^ 32 - 1 ->
  Forall (fun x => x < 2 ^ 32 - 1) (rb_iter log_ids) -> 0 <= offset -> limit_ok limit ->
  (forall rbm, compact = Exclude rbm -> (forall x, x ∈ rb_iter rbm -> x ∈ segment_ids S) /\ forall x, x ∈ rb_iter log_ids -> x ∈ segment_ids S -> x ∈ rb_iter rbm) ->
  match select_page reader log_ids compact offset limit with
  | Ok b => exists l, StronglySorted Z.lt l /\
      (forall x, x ∈ l <-> x ∈ rb_iter log_ids \/ match compact with
                                                  | Include rbm => x ∈ rb_iter rbm
                                                  | Exclude rbm => x ∈ segment_ids S /\ x ∉ rb_iter rbm
                                                  end) /\
      rb_iter b = page offset limit l
  | Err e => limit_storage_error e
  end.
Proof.
  intros Hr HS Hp Hmx Hbig Ho Hl Hcompact. destruct compact as [rbm|rbm].
  - destruct (page_of_list reader log_ids rbm offset limit Ho Hl) as (b & -> & Hb). eexists. split_and!; [apply rb_sorted|apply rb_or_law|done].
  - destruct (Hcompact rbm eq_refl) as [HM HD]. destruct reader as [r|].
    + pose proof (page_of_scan S _ HS Hp Hmx log_ids rbm offset limit r HM HD Hbig Hr eq_refl Ho Hl) as Hs.
      destruct (select_page (Some r) log_ids (Exclude rbm) offset limit) as [b|e]; [|done].
      exists (joint S (mkSeekScanner log_ids rbm)). split_and!; [by apply (joint_sorted S _ HS Hp)|apply joint_elem|exact Hs].
    + cbn [option_reads] in Hr. destruct (page_of_log log_ids rbm offset limit Ho Hl) as (b & -> & Hb). exists (rb_iter log_ids). split_and!; [apply rb_sorted| |done].
      intros x. subst S. split; [by left|]. intros [?|[?%elem_of_nil _]]; done.
Qed.

(** C6: Paging through a collection without a filter reads the collection as
    the log leaves it: what [Filter] hands to [Limit] without a condition
    selects the page of the offset ids of exactly the documents that the
    operations of the log make of those of the segment, one id of each, in
    order; documents that the segment has keep theirs.  Otherwise a blockfile
    could not be read, or the log creates a record without an embedding. *)
Theorem unfiltered_page_exact reader S c logs offset limit :
  option_reads reader S -> segment_ok S (reader_max reader) -> shows S c -> plain S -> 0 <= reader_max reader ->
  reader_max reader + 1 + Z.of_nat (length (chunk_iter logs)) < 2 ^ 32 -> 0 <= offset -> limit_ok limit ->
  match filter_none_given reader logs with
  | Ok (log_ids, compact) =>
      match limit_page reader logs log_ids compact offset limit with
      | Ok b => exists c' id_of l, log_steps (ops_of logs) c = Some c' /\ offset_ids_of S c' id_of l /\ rb_iter b = page offset limit l
      | Err e => limit_storage_error e
      end
  | Err e => (e = EmbeddingMaterialization /\ log_steps (ops_of logs) c = None) \/ exists bf, e = RecordSegment (BoxedBlockfileError bf)
  end.
Proof. apply whole_page_spec. Qed.
End Pages.

(** Bitmaps as sets, for concrete pages. *)
Module SampleBitmaps.

Definition in_u32 (x : Z) : bool := (0 <=? x) && (x <? 2 ^ 32).
Definition iter (b : gset Z) : list Z := merge_sort Z.le (List.filter in_u32 (elements b)).

#[export] Instance bitmaps : Roaring := {|
  RoaringBitmap := gset Z;
  rb_iter := iter;
  rb_new := ∅;
  rb_insert x b := {[x]} ∪ b;
  rb_contains x b := bool_decide (x ∈ iter b);
  rb_rank x b := Z.of_nat (length (List.filter (fun y => y <=? x) (iter b)));
  rb_select n b := iter b !! Z.to_nat n;
  rb_max b := last (iter b);
  rb_len b := Z.of_nat (length (iter b));
  rb_or a b := a ∪ b;
  rb_and a b := a ∩ b;
  rb_sub a b := a ∖ b;
  rb_remove_smallest n b := list_to_set (drop (Z.to_nat n) (iter b));
  rb_remove_biggest n b := list_to_set (take (length (iter b) - Z.to_nat n) (iter b));
  rb_collect l := list_to_set l;
  rb_from_sorted_iter l := Some (list_to_set l);
|}.
End SampleBitmaps.
Import SampleBitmaps.

Lemma iter_elem (b : gset Z) x : x ∈ iter b <-> x ∈ b /\ 0 <= x < 2 ^ 32.
Proof.
  unfold iter. rewrite merge_sort_Permutation, list_elem_of_In, List.filter_In, <- list_elem_of_In, elem_of_elements. unfold in_u32.
  by rewrite andb_true_iff, Z.leb_le, Z.ltb_lt.
Qed.

Lemma iter_sorted (b : gset Z) : StronglySorted Z.lt (iter b).
Proof.
  apply sorted_le_lt.
  - apply StronglySorted_merge_sort; [intros x y z; lia|intros x y; lia].
  - unfold iter. rewrite merge_sort_Permutation. apply NoDup_ListNoDup, List.NoDup_filter, NoDup_ListNoDup, NoDup_elements.
Qed.

Lemma iter_of_sorted l : Forall (fun x => 0 <= x < 2 ^ 32) l -> StronglySorted Z.lt l -> iter (list_to_set l) = l.
Proof.
  intros Hl Hs. apply same_sorted_ids; [apply iter_sorted|done|]. intros x. rewrite iter_elem, elem_of_list_to_set. rewrite Forall_forall in Hl.
  split; [by intros [? _]|]. intros Hx. split; [done|by apply Hl].
Qed.

#[export] Instance bitmaps_laws : RoaringLaws bitmaps.
Proof.
  assert (forall b, Forall (fun x => 0 <= x < 2 ^ 32) (iter b)) as Hu by (intros b; apply Forall_forall; by intros x [_ ?]%iter_elem).
  constructor; cbn; try done; try (intros; rewrite !iter_elem; set_solver).
  - apply iter_sorted.
  - intros n b _. apply iter_of_sorted; [by apply Forall_drop|apply sorted_drop, iter_sorted].
  - intros n b _. apply iter_of_sorted; [by apply Forall_take|apply sorted_take, iter_sorted].
  - intros l x Hl. rewrite iter_elem, elem_of_list_to_set. rewrite Forall_forall in Hl. split; [by intros [? _]|]. intros Hx. split; [done|by apply Hl].
  - intros l Hl Hs. eexists. split; [done|by apply iter_of_sorted].
Qed.

Lemma sample_plain : plain rows.
Proof. repeat constructor. Qed.

Lemma sample_reads : option_reads (Some (reader 2)) rows.
Proof. apply (op_reads _ _ _ _ sample_opened). Qed.

Definition page_of (r : result (gset Z) LimitError) : option (list Z) := match r with Ok b => Some (iter b) | Err _ => None end.

Definition sample_log_ids : RoaringBitmap := ({[2; 7; 9]} : gset Z).
Definition sample_mask : RoaringBitmap := ({[2]} : gset Z).

Lemma sample_log_iter : iter sample_log_ids = [2; 7; 9].
Proof. vm_compute. reflexivity. Qed.

Lemma sample_mask_iter : iter sample_mask = [2].
Proof. vm_compute. reflexivity. Qed.

Lemma sample_masked rbm : Exclude sample_mask = Exclude rbm ->
  (forall x, x ∈ iter rbm -> x ∈ segment_ids rows) /\ (forall x, x ∈ iter sample_log_ids -> x ∈ segment_ids rows -> x ∈ iter rbm).
Proof.
  intros [= <-]. rewrite sample_log_iter, sample_mask_iter. change (segment_ids rows) with [1; 2]. split; intros x; [set_solver|].
  rewrite !elem_of_cons, elem_of_nil. lia.
Qed.

Lemma sample_page : page_of (select_page (Some (reader 2)) sample_log_ids (Exclude sample_mask) 1 (Some 2)) = Some [2; 7].
Proof. vm_compute. reflexivity. Qed.

Lemma selected_page_exact_witness : exists b l,
  select_page (Some (reader 2)) sample_log_ids (Exclude sample_mask) 1 (Some 2) = Ok b /\ iter b = page 1 (Some 2) l /\ iter b = [2; 7].
Proof.
  assert (Forall (fun x => x < 2 ^ 32 - 1) (iter sample_log_ids)) as Hbig by (rewrite sample_log_iter; repeat constructor).
  pose proof (selected_page_exact (Some (reader 2)) rows sample_log_ids (Exclude sample_mask) 1 (Some 2) sample_reads sample_ok sample_plain ltac:(cbn; lia)
    Hbig ltac:(lia) ltac:(cbn; lia) sample_masked) as H.
  pose proof sample_page as He. destruct (select_page (Some (reader 2)) sample_log_ids (Exclude sample_mask) 1 (Some 2)) as [b|e]; [|discriminate].
  destruct H as (l & _ & _ & Hb). exists b, l. split; [reflexivity|]. split; [exact Hb|]. injection He as He. exact He.
Defined.

Definition get_page (offset : Z) (limit : option Z) : option (list Z) :=
  match filter_none_given (Some (reader 2)) log with
  | Ok (log_ids, compact) => page_of (limit_page (Some (reader 2)) log log_ids compact offset limit)
  | Err _ => None
  end.

(** The log deletes the second record and adds it again, and creates a third. *)
Lemma sample_pages : get_page 0 None = Some [1; 2; 3] /\ get_page 1 (Some 1) = Some [2] /\ get_page 5 (Some 1) = Some [].
Proof. vm_compute. done. Qed.

Lemma unfiltered_page_exact_witness : exists c' id_of l,
  log_steps (ops_of log) docs = Some c' /\ offset_ids_of rows c' id_of l /\ page 1 (Some 1) l = [2].
Proof.
  pose proof (unfiltered_page_exact (Some (reader 2)) rows docs log 1 (Some 1) sample_reads sample_ok sample_shows sample_plain ltac:(cbn; lia)
    sample_short ltac:(lia) ltac:(cbn; lia)) as H.
  pose proof (proj1 (proj2 sample_pages)) as He. unfold get_page in He.
  destruct (filter_none_given (Some (reader 2)) log) as [[log_ids compact]|e]; [|discriminate].
  destruct (limit_page (Some (reader 2)) log log_ids compact 1 (Some 1)) as [b|e]; [|discriminate].
  destruct H as (c' & id_of & l & H1 & H2 & H3). exists c', id_of, l. split; [exact H1|]. split; [exact H2|]. injection He as He. rewrite <- H3. exact He.
Defined.
